(* ===== verification/_CoqProject ===== *)
-Q . S2P
Prelude.v
Errors.v
Common.v
Catalog.v
CatalogFacts.v
Ast.v
Analyzer.v
AnalyzerFacts.v
Planner.v
PlannerFacts.v
Record.v
RecordFacts.v
IndexFile.v
IndexFacts.v
Disk.v
Wire.v
WireCodec.v
WireIO.v
WireTransport.v
WireText.v
WireClient.v
WireExchange.v
Client.v
ClientFacts.v
SqlClient.v
SqlClientFacts.v
Lexer.v
Grammar.v
GrammarFacts.v
LexerFacts.v
Options.v
OptionsFacts.v
Transactions.v
Server.v
ServerFacts.v
System.v
SystemFacts.v
DiskManager.v
DiskManagerFacts.v
Execution.v
ExecutionFacts.v
BufferPool.v
BufferPoolFacts.v
MemPool.v
RecordFile.v
BPlusTree.v
BPlusTreeFacts.v
BPlusTreeExample.v
Log.v
LogMemory.v
ServerLife.v
ServerLifeFacts.v
ServerStop.v
Signals.v
Startup.v
Shipped.v
Portal.v
PortalFacts.v
KernelFacts.v
EndToEnd.v
ResultFacts.v
