(* ===== verification/Prelude.v ===== *)
(** * RUCBase: a verification development

    RUCBase is a teaching database: a server that executes SQL over TCP, a client library
    and a command-line client.  This library models its implemented C++ code as executable
    definitions and proves the properties that make the parts correct.  Parts of the
    repository are laboratory exercises whose bodies are empty or throw
    [NotImplementedError]; where implemented code calls them, they are type classes that
    list the calls and state what headers, comments and unit tests promise, the theorems
    are proved against these laws, and an implementation in memory shows that the laws can
    be met.

    ** The program and the files that model it

    A statement travels from the text typed into the client to the rows that come back.

    - Client side.  [SqlClient] ([src/rucbase_client/main.cpp], [src/src/common/banner.h])
      splits text into statements, runs scripts and the interactive loop.  [Options] reads
      the command lines of client and server ([parse_options]).  [Client]
      ([src/src/net/client.cpp]) connects, executes and owns the socket.  [WireClient],
      [WireText] and [WireExchange] ([src/src/net/wire.cpp]) run one request: the response
      state machine with its callbacks, the table text, and a complete response.
    - Protocol.  [Wire] and [WireCodec]: payloads and their codecs.  [WireIO] and
      [WireTransport]: reading and writing over a socket whose kernel may split, delay,
      interrupt or fail every call, handshake and frames.
    - Server side.  [Server] ([src/src/server/server.cpp], [wire_result.h], [context.h]):
      the result buffer, the responses, the request loop, session transactions.
      [Transactions] ([transaction.h], [txn_defs.h], [lock_manager.h]): write sets, lock
      identities.  [ServerLife] ([server.cpp], [server.h]): main thread, signal handler and
      client threads as one labelled step function, one access to shared state or one system
      call per step, first with SIGINT on the main thread ([step]), then on any thread
      ([process_step]).  [Startup] ([rmdb.cpp], [Server::start], the beginning of [run]), and
      [Shipped] with the bodies of the exercises a start runs into.
    - SQL front end.  [Lexer] ([lex.l], [parser.cpp]): the scanner rules with longest match,
      literals, positions and diagnostics.  [Grammar] ([yacc.y], [parser.cpp]): the
      productions as inductive derivations, a deterministic parser, [Parse].  [Ast]
      ([expression.h], [ast.h]), [Analyzer] ([analyzer.cpp]) and [Planner] ([plan.h],
      [planner.cpp], [optimizer.h]): from trees to bound queries to plans.
    - Execution.  [Portal] ([portal.cpp], [execution_manager.cpp], the constructors of the
      [executor_*.h]) and [Execution] ([executor_insert.h], result cells).
    - Catalog and files.  [Catalog] ([sm_meta.h], [sm_meta.cpp]), [System]
      ([sm_manager.cpp], [rm_manager.h], [index_manager.cpp]), [Record] ([bitmap.h],
      [rm_defs.h]: modules [Bitmap] and [RmRecord]), [IndexFile] ([index_types.cpp], key
      order), [Disk] (the storage interface).  [DiskManager] ([disk_manager.cpp],
      [create_db] and [drop_db] of [sm_manager.cpp]): directories and the log file over a
      file system whose calls may fail or fall short.
    - Pages.  [BufferPool] ([page.h], [page_guard.cpp], [buffer_pool_manager.h]),
      [RecordFile] ([rm_file_handle.h]) and [BPlusTree] ([b_plus_tree.h], [b_plus_tree.cpp], [index_scan.cpp]).  [Log]
      ([log_manager.h], [log_defs.h]): log records, and [LogMemory]: INSERT records as
      objects over the heap of [RmRecord], and [format_print].
    - [Errors] and [Common] ([errors.h], [defs.h], [common.h]): exceptions and shared data.

    A file [X] holds definitions and [XFacts] the theorems about them; [MemPool] and
    [BPlusTreeExample] hold an implementation of the buffer pool and a tree on it, and
    [ServerStop] and [Signals] hold the termination of an interrupted server and what
    depends on the thread that handles SIGINT.
    [KernelFacts], [EndToEnd] and [ResultFacts] are about the composition.

    ** How code becomes definitions

    Integers are [Z] with their reductions written out ([u32], [s32], ...); bytes are
    [list byte]; a [float] is its bit pattern; strings of the catalog are [string].
    Exceptions are the type [result] below: [Ok], [Throw e] and [Crash], which stands for a
    failed assertion or undefined behaviour (an access outside a buffer, a null
    dereference).  Effects are explicit states with the exception monad [M] of [Disk], in
    which an exception keeps the state.  Pointers that may be null are [option]; owned
    memory, descriptors and pins are modelled where ownership is the point ([RmRecord] over
    a heap, [Client] over a descriptor table, guards over a pool).  Destructors run at the
    end of their scope, also when an exception leaves it.  Class fields and functions keep
    their names; a loop of a function is a definition of its own.

    Loops that are not structural take fuel.  The fuel of a read or write loop is computed
    from the bytes to transfer and the scheduled events, that of the scanner and the parser
    from the length of the text, that of the page layout, the join order and the tree order
    from the quantity that decreases; the theorems prove that it is enough
    ([read_exact_correct], [parse_exact], [page_layout_correct], [new_index_correct],
    [select_plan_correct]).  [ancestor_keys_correct] and [index_scan_complete] prove that
    loops end within a stated number of turns, [statement_keeps_kernel] that the loops of
    the query executors do for every statement, and [interrupted_server_stops] bounds the
    steps of a process by a rank of its state.

    ** What the theorems show

    - Composition: whatever bytes a client sends, catalog, handles, records and index
      entries agree afterwards, on a disk without I/O failures ([connection_keeps_kernel],
      [statement_keeps_kernel]), every request is answered by whole frames
      ([request_answered], [connection_transcript]), and a result reaches the callbacks of the client as it was built
      ([query_result_delivered], [statement_result_shaped]).
    - Process: the server makes and opens its database or exits ([server_starts]), its
      threads never close or shut down a descriptor of somebody else
      ([server_descriptors_owned]) and an interrupt leads to its end without deadlock
      ([interrupted_server_stops]) as long as the main thread handles SIGINT; on a client
      thread the handler can close a file of the database
      ([signal_on_client_thread_misdirects]) and leave the main thread waiting
      ([signal_on_client_thread_hangs]).  The database is closed when no client thread is
      left ([database_closed_alone]).  Command lines are read as written ([command_lines_read]).
      With the exercises as shipped the server serves nobody ([shipped_server_never_serves]).
    - Protocol: codecs are exact ([meta_codec_exact], [row_codec_roundtrip]), transfer is
      correct under every schedule ([read_exact_correct], [write_vectors_correct]), and a
      connection is only reused in step ([reusable_stream_synchronised]).
    - SQL: [Parse] is the grammar ([parse_exact]), the client cuts its input where the
      scanner sees semicolons ([splitter_agrees_with_scanner]) and sends the same complete
      statements in script and interactive mode ([interactive_equals_script]), literals round trip, bound
      queries are well typed, flattening keeps the meaning of WHERE, plans keep tables and
      conditions, executor trees have the bound columns.
    - State: CREATE TABLE and INSERT are all or nothing ([create_table_atomic], up to the
      bytes a failed write leaves in [db.meta]; [insert_consistent]), and so is making a
      database, which dropping undoes ([create_db_atomic], [create_drop_roundtrip]); the log
      file is append-only; catalog, index headers and records survive their encodings, log
      records where the casts that read them are aligned ([log_insert_roundtrip]); bitmaps and records refine vectors and values.
    - Ownership: clients close each descriptor once ([clients_own_descriptors]), guards
      release each pin once and lose nothing ([guards_release_pins]), [discard_file_pages]
      leaves no stale page, [is_record] keeps no pin, the images of a write set share no
      block ([write_set_owns_images]); an INSERT log record leaks its table name
      ([insert_log_leaks]) and is printed past its buffers ([insert_print_defined]).
    - Trees: an index scan delivers every entry and ends, [unlink_leaf] keeps the ring of
      leaves unless the page of the next leaf cannot be read, [update_ancestor_keys] restores the separators.

    ** Interfaces

    [Storage]/[StorageLaws]/[Reliable] ([Disk]): files, descriptors, pages.  [TableStore]
    ([Execution]): records and index entries of the open tables.  [Operators] ([Portal]):
    what executors report.  [BufferPool]/[PoolLaws]/[LivePool] ([BufferPool]): pins,
    contents and what eviction may lose.  The JSON text of [db.meta] (nlohmann), [strerror],
    [getaddrinfo] results and the wording of Bison's syntax errors are arguments.

    ** Not modelled

    The exercises themselves: page I/O of the disk manager, the replacer, the body of the
    buffer pool, record file operations, search, insertion and deletion in the B+ tree,
    iteration of the executors, [open_db] and [close_db], begin/commit/abort, locks, logging,
    recovery; DROP TABLE and the index statements are the exception they throw.  The
    latches of the kernel (operations are their critical sections, one after the other),
    the bounded parser stack of Bison (YYMAXDEPTH), failing allocations of memory, and
    vendored code.  In [ServerLife] a request is only something a thread is busy with until
    it returns; requests that overlap inside the kernel are not modelled ([sm_manager.h]
    excludes concurrent DDL).  [Options] leaves out
    what the C library prints by itself and POSIXLY_CORRECT; [DiskManager] takes paths in
    canonical form and no links. *)

From stdpp Require Export base tactics list strings gmap sorting.
From coqutil Require Export Byte Word.LittleEndianList.
From Stdlib Require Export ZArith Lia.
From Stdlib Require Strings.Byte.

#[global] Open Scope Z_scope.

(** ** Machine integers

    A C++ integer of width [w] is a [Z]; the reductions below are the implicit
    conversions of the source ([static_cast<uint32_t>] and friends). *)

Definition u8 (z : Z) : Z := z mod 2 ^ 8.
Definition u16 (z : Z) : Z := z mod 2 ^ 16.
Definition u32 (z : Z) : Z := z mod 2 ^ 32.
Definition u64 (z : Z) : Z := z mod 2 ^ 64.
Definition s32 (z : Z) : Z := (z + 2 ^ 31) mod 2 ^ 32 - 2 ^ 31.

Definition is_u8 (z : Z) : Prop := 0 ≤ z < 2 ^ 8.
Definition is_u16 (z : Z) : Prop := 0 ≤ z < 2 ^ 16.
Definition is_u32 (z : Z) : Prop := 0 ≤ z < 2 ^ 32.
Definition is_u64 (z : Z) : Prop := 0 ≤ z < 2 ^ 64.
Definition is_s32 (z : Z) : Prop := - 2 ^ 31 ≤ z < 2 ^ 31.

Definition INT_MAX : Z := 2 ^ 31 - 1.

(** The development's hint databases: [wdb] holds range facts on machine words,
    [ldb] the list rewrites that automate buffer reasoning. *)
Create HintDb wdb.
Create HintDb ldb.

#[export] Hint Unfold is_u8 is_u16 is_u32 is_u64 is_s32 u8 u16 u32 u64 s32 : wdb.

Ltac word_lia :=
  autounfold with wdb in *;
  try change (2 ^ 8) with 256 in *; try change (2 ^ 16) with 65536 in *;
  try change (2 ^ 31) with 2147483648 in *; try change (2 ^ 32) with 4294967296 in *;
  try change (2 ^ 63) with 9223372036854775808 in *;
  try change (2 ^ 64) with 18446744073709551616 in *;
  lia.

Lemma u16_small z : is_u16 z → u16 z = z.
Proof. intros. unfold u16. apply Z.mod_small. exact H. Qed.
Lemma u32_small z : is_u32 z → u32 z = z.
Proof. intros. unfold u32. apply Z.mod_small. exact H. Qed.
Lemma u64_small z : is_u64 z → u64 z = z.
Proof. intros. unfold u64. apply Z.mod_small. exact H. Qed.
Lemma u32_range z : is_u32 (u32 z).
Proof. unfold is_u32, u32. apply Z.mod_pos_bound. lia. Qed.

Lemma s32_u32 z : is_s32 z → s32 (u32 z) = z.
Proof.
  intros H. unfold s32, u32. rewrite Zplus_mod_idemp_l, Z.mod_small; word_lia.
Qed.

Lemma s32_range z : is_s32 (s32 z).
Proof. unfold is_s32, s32. pose proof (Z.mod_pos_bound (z + 2 ^ 31) (2 ^ 32)). word_lia. Qed.

Lemma u32_s32 z : is_u32 z → u32 (s32 z) = z.
Proof.
  intros H. unfold s32, u32.
  rewrite Zminus_mod_idemp_l. replace (z + 2 ^ 31 - 2 ^ 31) with z by lia.
  apply Z.mod_small. exact H.
Qed.

#[export] Hint Resolve u32_range s32_range : wdb.

(** ** Buffers *)

Notation bytes := (list byte).

#[global] Instance byte_eq_dec : EqDecision byte := Strings.Byte.byte_eq_dec.

(** [size()] of a [std::string] or [std::vector], as an integer. *)
Definition zlen {A} (l : list A) : Z := Z.of_nat (length l).

(** The bytes of a string literal or of a catalog name. *)
Definition str (s : string) : bytes := String.list_byte_of_string s.

Lemma zlen_nil {A} : zlen (@nil A) = 0.
Proof. reflexivity. Qed.
Lemma zlen_cons {A} (x : A) l : zlen (x :: l) = 1 + zlen l.
Proof. unfold zlen. cbn [length]. lia. Qed.
Lemma zlen_app {A} (l k : list A) : zlen (l ++ k) = zlen l + zlen k.
Proof. unfold zlen. rewrite length_app. lia. Qed.
Lemma zlen_nonneg {A} (l : list A) : 0 ≤ zlen l.
Proof. unfold zlen. lia. Qed.
Lemma zlen_map {A B} (f : A → B) l : zlen (map f l) = zlen l.
Proof. unfold zlen. by rewrite length_map. Qed.
Lemma zlen_nil_iff {A} (l : list A) : zlen l = 0 ↔ l = [].
Proof. destruct l; [done|]. rewrite zlen_cons. pose proof (zlen_nonneg l). split; [lia|done]. Qed.
Lemma zlen_to_nat {A} (l : list A) : Z.to_nat (zlen l) = length l.
Proof. unfold zlen. lia. Qed.

#[export] Hint Resolve zlen_nonneg : wdb.
#[export] Hint Rewrite @zlen_nil @zlen_cons @zlen_app @zlen_map @zlen_to_nat : ldb.

(** [take]/[drop] at a [size_t] offset. *)
Definition ztake {A} (n : Z) (l : list A) : list A := take (Z.to_nat n) l.
Definition zdrop {A} (n : Z) (l : list A) : list A := drop (Z.to_nat n) l.

Lemma zlen_ztake {A} n (l : list A) : 0 ≤ n ≤ zlen l → zlen (ztake n l) = n.
Proof. intros H. unfold ztake, zlen in *. rewrite length_take. lia. Qed.
Lemma zlen_zdrop {A} n (l : list A) : 0 ≤ n ≤ zlen l → zlen (zdrop n l) = zlen l - n.
Proof. intros H. unfold zdrop, zlen in *. rewrite length_drop. lia. Qed.
Lemma ztake_zdrop {A} n (l : list A) : ztake n l ++ zdrop n l = l.
Proof. apply take_drop. Qed.
Lemma ztake_app_exact {A} n (l k : list A) : zlen l = n → ztake n (l ++ k) = l.
Proof.
  intros <-. unfold ztake. rewrite zlen_to_nat.
  rewrite take_app_le by done. by rewrite take_ge.
Qed.
Lemma zdrop_app_exact {A} n (l k : list A) : zlen l = n → zdrop n (l ++ k) = k.
Proof.
  intros <-. unfold zdrop. rewrite zlen_to_nat. by rewrite drop_app_length.
Qed.
Lemma zdrop_zdrop {A} n m (l : list A) : 0 ≤ n → 0 ≤ m → zdrop n (zdrop m l) = zdrop (m + n) l.
Proof. intros. unfold zdrop. rewrite drop_drop. f_equal. lia. Qed.
Lemma zdrop_0 {A} (l : list A) : zdrop 0 l = l.
Proof. done. Qed.
Lemma ztake_all {A} n (l : list A) : zlen l ≤ n → ztake n l = l.
Proof. unfold ztake, zlen. intros. apply take_ge. lia. Qed.
Lemma zdrop_all {A} n (l : list A) : zlen l ≤ n → zdrop n l = [].
Proof. unfold zdrop, zlen. intros. apply drop_ge. lia. Qed.
Lemma ztake_nil {A} n : ztake n (@nil A) = [].
Proof. unfold ztake. apply take_nil. Qed.
Lemma zdrop_nil {A} n : zdrop n (@nil A) = [].
Proof. unfold zdrop. apply drop_nil. Qed.

Lemma zlen_le_split n z : zlen (le_split n z) = Z.of_nat n.
Proof. unfold zlen. by rewrite length_le_split. Qed.
#[export] Hint Rewrite zlen_le_split : ldb.

(** ** Exceptions

    [common/errors.h]: one constructor per exception class thrown by the modelled
    code, with the constructor's arguments; [BaseError] is the base class itself. *)
Inductive RMDBError :=
| BaseError (msg : string)
| InternalError (msg : string)
| NotImplementedError (component : string)
| UnixError
| FileNotOpenError (fd : Z)
| FileNotClosedError (filename : string)
| FileExistsError (filename : string)
| FileNotFoundError (filename : string)
| RecordNotFoundError (page_no slot_no : Z)
| InvalidRecordSizeError (record_size : Z)
| InvalidColLengthError (col_len : Z)
| IndexEntryNotFoundError
| DuplicateKeyError
| DatabaseNotFoundError (db_name : string)
| DatabaseExistsError (db_name : string)
| TableNotFoundError (tab_name : string)
| TableExistsError (tab_name : string)
| ColumnNotFoundError (col_name : string)
| ColumnExistsError (col_name : string)
| IndexNotFoundError (tab_name : string) (col_names : list string)
| IndexExistsError (tab_name : string) (col_names : list string)
| InvalidKnobError (name value : string)
| InvalidValueCountError
| StringOverflowError
| IncompatibleTypeError (lhs rhs : string)
| AmbiguousColumnError (col_name : string)
| PageNotExistError (table_name : string) (page_no : Z).

(** A C++ call that returns a value, throws, or fails an [assert] (which is undefined
    behaviour where asserts are compiled out). *)
Inductive result (A : Type) :=
| Ok (a : A)
| Throw (e : RMDBError)
| Crash.
Arguments Ok {A} a.
Arguments Throw {A} e.
Arguments Crash {A}.

#[global] Instance result_ret : MRet result := @Ok.
#[global] Instance result_bind : MBind result := λ A B f m,
  match m with Ok a => f a | Throw e => Throw e | Crash => Crash end.

(** [if (b) throw e;] *)
Definition throw_if (b : bool) (e : RMDBError) : result unit :=
  if b then Throw e else Ok tt.

(** [assert(b)] *)
Definition assert_ (b : bool) : result unit := if b then Ok tt else Crash.

Lemma throw_if_ok b e : throw_if b e = Ok tt ↔ b = false.
Proof. destruct b; cbn; split; congruence. Qed.

Lemma bind_ok {A B} (m : result A) (f : A → result B) b :
  m ≫= f = Ok b ↔ ∃ a, m = Ok a ∧ f a = Ok b.
Proof.
  destruct m as [a|e|]; cbn; split.
  - intros H. by exists a.
  - intros (a' & [= <-] & H). done.
  - done.
  - intros (? & ? & _). done.
  - done.
  - intros (? & ? & _). done.
Qed.

Lemma bind_crash {A B} (m : result A) (f : A → result B) :
  m ≫= f = Crash ↔ m = Crash ∨ ∃ a, m = Ok a ∧ f a = Crash.
Proof. destruct m; cbn; naive_solver. Qed.

Lemma bind_no_crash {A B} (m : result A) (f : A → result B) :
  m ≠ Crash → (∀ a, m = Ok a → f a ≠ Crash) → m ≫= f ≠ Crash.
Proof. intros Hm Hf H. apply bind_crash in H as [H|(a & Ha & H)]; [done|by apply (Hf a)]. Qed.

Lemma throw_if_no_crash b e : throw_if b e ≠ Crash.
Proof. by destruct b. Qed.

(** Sequencing a fallible body over a container, left to right, as a range-for
    whose body may throw. *)
Fixpoint for_each {A B} (f : A → result B) (l : list A) : result (list B) :=
  match l with
  | [] => Ok []
  | x :: l' => y ← f x; ys ← for_each f l'; Ok (y :: ys)
  end.

Lemma for_each_ok {A B} (f : A → result B) l ys :
  for_each f l = Ok ys ↔ Forall2 (λ x y, f x = Ok y) l ys.
Proof.
  revert ys. induction l as [|x l IH]; intros ys; cbn.
  - split; [intros [= <-]; constructor | by inversion 1].
  - rewrite bind_ok. split.
    + intros (y & Hy & H). apply bind_ok in H as (ys' & Hys & [= <-]).
      constructor; [done|]. by apply IH.
    + inversion 1 as [|? y ? ys' Hy Hys]; subst. exists y. split; [done|].
      apply bind_ok. exists ys'. split; [|done]. by apply IH.
Qed.

Lemma for_each_crash {A B} (f : A → result B) l :
  for_each f l = Crash → ∃ x, x ∈ l ∧ f x = Crash.
Proof.
  induction l as [|x l IH]; cbn; [done|]. rewrite bind_crash. intros [H|(y & Hy & H)].
  - exists x. split; [by left|done].
  - apply bind_crash in H as [H|(ys & _ & H)]; [|done].
    destruct (IH H) as (z & Hz & Hf). exists z. split; [by right|done].
Qed.

Lemma for_each_no_crash {A B} (f : A → result B) l : (∀ x, x ∈ l → f x ≠ Crash) → for_each f l ≠ Crash.
Proof. intros H Hc. apply for_each_crash in Hc as (x & Hx & Hf). by apply (H x). Qed.

(** Case analysis on the binds of a hypothesis [m ≫= f = Ok _]. *)
Ltac inv_ok :=
  repeat match goal with
  | H : mbind _ _ = Ok _ |- _ => apply bind_ok in H as (? & ? & ?)
  | H : throw_if _ _ = Ok _ |- _ => apply throw_if_ok in H
  | H : Ok _ = Ok _ |- _ => injection H as H; subst
  | H : Throw _ = Ok _ |- _ => discriminate H
  | H : mret _ = Ok _ |- _ => injection H as H; subst
  | u : unit |- _ => destruct u
  end.

(** Case analysis on the [if]s and [match]es that block evaluation. *)
Ltac split_bools :=
  repeat match goal with
  | H : _ || _ = false |- _ => apply orb_false_iff in H as [? ?]
  | H : _ && _ = true |- _ => apply andb_true_iff in H as [? ?]
  | H : negb _ = false |- _ => apply negb_false_iff in H
  | H : negb _ = true |- _ => apply negb_true_iff in H
  | H : Z.ltb _ _ = true |- _ => apply Z.ltb_lt in H
  | H : Z.ltb _ _ = false |- _ => apply Z.ltb_ge in H
  | H : Z.leb _ _ = true |- _ => apply Z.leb_le in H
  | H : Z.leb _ _ = false |- _ => apply Z.leb_gt in H
  | H : Z.eqb _ _ = true |- _ => apply Z.eqb_eq in H
  | H : Z.eqb _ _ = false |- _ => apply Z.eqb_neq in H
  | H : bool_decide _ = true |- _ => apply bool_decide_eq_true in H
  | H : bool_decide _ = false |- _ => apply bool_decide_eq_false in H
  end.

Ltac zbool := repeat first
  [ rewrite (proj2 (Z.ltb_lt _ _)) by lia | rewrite (proj2 (Z.ltb_ge _ _)) by lia
  | rewrite (proj2 (Z.leb_le _ _)) by lia | rewrite (proj2 (Z.leb_gt _ _)) by lia
  | rewrite (proj2 (Z.eqb_eq _ _)) by lia | rewrite (proj2 (Z.eqb_neq _ _)) by lia ].

(** List rewriting with the length lemmas, then linear arithmetic. *)
Ltac zlen_lia := autorewrite with ldb in *; repeat match goal with
  | |- context [zlen ?l] => lazymatch goal with
      | H : 0 ≤ zlen l |- _ => fail
      | _ => pose proof (zlen_nonneg l) end
  | _ : context [zlen ?l] |- _ => lazymatch goal with
      | H : 0 ≤ zlen l |- _ => fail
      | _ => pose proof (zlen_nonneg l) end
  end; word_lia.

(** One step of a computation that goes on. *)
Ltac step_ok := change (Ok ?a ≫= ?f) with (f a); cbn beta iota.
