(* ===== verification/Errors.v ===== *)
(** * Exceptions and their messages

    [RMDBError::what] of [src/src/common/errors.h] for every exception class: the
    diagnostic a client receives. *)

From stdpp Require Import pretty.
From S2P Require Import Prelude.

(** The loop of [format_index_name]: a comma before every name but the first. *)
Fixpoint join_names (first : bool) (col_names : list string) : string :=
  match col_names with
  | [] => ""
  | c :: cs => (if first then "" else ", ") +:+ c +:+ join_names false cs
  end.

Definition format_index_name (tab_name : string) (col_names : list string) : string :=
  tab_name +:+ ".(" +:+ join_names true col_names +:+ ")".

(** The constructor argument of the base class; [errno_text] is [strerror(errno)]. *)
Definition error_message (errno_text : string) (e : RMDBError) : string :=
  match e with
  | BaseError msg => msg
  | InternalError msg => msg
  | NotImplementedError component => component +:+ " is not implemented"
  | UnixError => errno_text
  | FileNotOpenError fd => "Invalid file descriptor: " +:+ pretty fd
  | FileNotClosedError filename => "File is opened: " +:+ filename
  | FileExistsError filename => "File already exists: " +:+ filename
  | FileNotFoundError filename => "File not found: " +:+ filename
  | RecordNotFoundError page_no slot_no =>
      "Record not found: (" +:+ pretty page_no +:+ "," +:+ pretty slot_no +:+ ")"
  | InvalidRecordSizeError record_size => "Invalid record size: " +:+ pretty record_size
  | InvalidColLengthError col_len => "Invalid column length: " +:+ pretty col_len
  | IndexEntryNotFoundError => "Index entry not found"
  | DuplicateKeyError => "Duplicate key on unique index"
  | DatabaseNotFoundError db_name => "Database not found: " +:+ db_name
  | DatabaseExistsError db_name => "Database already exists: " +:+ db_name
  | TableNotFoundError tab_name => "Table not found: " +:+ tab_name
  | TableExistsError tab_name => "Table already exists: " +:+ tab_name
  | ColumnNotFoundError col_name => "Column not found: " +:+ col_name
  | ColumnExistsError col_name => "Column already exists: " +:+ col_name
  | IndexNotFoundError tab_name col_names => "Index not found: " +:+ format_index_name tab_name col_names
  | IndexExistsError tab_name col_names => "Index already exists: " +:+ format_index_name tab_name col_names
  | InvalidKnobError name value => "Invalid setting: " +:+ name +:+ " = " +:+ value
  | InvalidValueCountError => "Invalid value count"
  | StringOverflowError => "String is too long"
  | IncompatibleTypeError lhs rhs => "Incompatible type error: lhs " +:+ lhs +:+ ", rhs " +:+ rhs
  | AmbiguousColumnError col_name => "Ambiguous column: " +:+ col_name
  | PageNotExistError table_name page_no =>
      "Page " +:+ pretty page_no +:+ " in table " +:+ table_name +:+ "not exits"
  end.

(** [RMDBError::what]; [c_str()] is sent up to its terminator, and no message of the
    source contains one. *)
Definition what (errno_text : string) (e : RMDBError) : string := "Error: " +:+ error_message errno_text e.
