(* ===== verification/Common.v ===== *)
(** * Shared data: column types, record ids, values and conditions

    Models [src/src/common/defs.h] and [src/src/common/common.h]: what the analyzer,
    the planner and the executors exchange.  Identifiers are strings; a value keeps the
    four bytes of its [union] as one 32-bit word, so a [float] is its bit pattern. *)

From S2P Require Import Prelude.

Inductive ColType := TYPE_INT | TYPE_FLOAT | TYPE_STRING.

#[global] Instance ColType_eq_dec : EqDecision ColType.
Proof. solve_decision. Defined.

Definition coltype_ordinal (t : ColType) : Z :=
  match t with TYPE_INT => 0 | TYPE_FLOAT => 1 | TYPE_STRING => 2 end.

Definition coltype2str (t : ColType) : string :=
  match t with TYPE_INT => "INT" | TYPE_FLOAT => "FLOAT" | TYPE_STRING => "STRING" end.

Definition INVALID_LSN : Z := -1.

Record Rid := mkRid { page_no : Z; slot_no : Z }.
#[global] Instance Rid_eq_dec : EqDecision Rid.
Proof. solve_decision. Defined.
#[global] Instance Rid_countable : Countable Rid.
Proof.
  refine (inj_countable' (λ r, (page_no r, slot_no r)) (λ p, mkRid p.1 p.2) _). by intros [? ?].
Defined.

Record TabCol := mkTabCol { tc_tab_name : string; tc_col_name : string }.
#[global] Instance TabCol_eq_dec : EqDecision TabCol.
Proof. solve_decision. Defined.

(** [operator<] on [TabCol]: the order of the pairs of names. *)
Definition TabCol_lt (x y : TabCol) : bool :=
  if bool_decide (tc_tab_name x = tc_tab_name y)
  then String.ltb (tc_col_name x) (tc_col_name y)
  else String.ltb (tc_tab_name x) (tc_tab_name y).

Record Value := mkValue {
  v_type : ColType; v_bits : Z; v_str : bytes; v_raw : option bytes }.
#[global] Instance Value_eq_dec : EqDecision Value.
Proof. solve_decision. Defined.

(** [Value value;]: no member is initialised but the string and the pointer. *)
Definition Value_default : Value := mkValue TYPE_INT 0 [] None.

Definition set_int (v : Value) (int_val : Z) : Value := mkValue TYPE_INT (u32 int_val) (v_str v) (v_raw v).
Definition set_float (v : Value) (bits : Z) : Value := mkValue TYPE_FLOAT bits (v_str v) (v_raw v).
Definition set_str (v : Value) (s : bytes) : Value := mkValue TYPE_STRING (v_bits v) s (v_raw v).

(** [init_raw]: the fixed-length image of a value; [new char[len]] throws on a negative
    length. *)
Definition init_raw (v : Value) (len : Z) : result Value :=
  let with_raw bs := mkValue (v_type v) (v_bits v) (v_str v) (Some bs) in
  _ ← assert_ (bool_decide (v_raw v = None));
  _ ← throw_if (len <? 0) (InvalidRecordSizeError len);
  match v_type v with
  | TYPE_INT | TYPE_FLOAT => _ ← assert_ (len =? 4); Ok (with_raw (le_split 4 (v_bits v)))
  | TYPE_STRING =>
    _ ← throw_if (len <? zlen (v_str v)) StringOverflowError;
    Ok (with_raw (v_str v ++ replicate (Z.to_nat (len - zlen (v_str v))) Byte.x00))
  end.

Inductive CompOp := OP_EQ | OP_NE | OP_LT | OP_GT | OP_LE | OP_GE.
#[global] Instance CompOp_eq_dec : EqDecision CompOp.
Proof. solve_decision. Defined.

Record Condition := mkCond {
  lhs_col : TabCol; cond_op : CompOp; is_rhs_val : bool; rhs_col : TabCol; rhs_val : Value }.
#[global] Instance Condition_eq_dec : EqDecision Condition.
Proof. solve_decision. Defined.

Record SetClause := mkSet_ { set_lhs : TabCol; set_rhs : Value }.

(** ** Encoding *)

(** An encoded value takes exactly the column's length. *)
Lemma init_raw_ok v len w :
  init_raw v len = Ok w →
  v_type w = v_type v ∧ v_bits w = v_bits v ∧ v_str w = v_str v ∧
  ∃ bs, v_raw w = Some bs ∧ zlen bs = len.
Proof.
  unfold init_raw. cbv zeta. intros H. destruct (bool_decide (v_raw v = None)); [|done]. cbn in H.
  destruct (len <? 0) eqn:E1; [done|]. cbn in H. split_bools.
  destruct (v_type v) eqn:Et.
  - destruct (len =? 4) eqn:E2; [|done]. injection H as <-. cbn. split_bools. subst len.
    split_and!; [done|done|done|]. eexists. split; [done|apply zlen_le_split].
  - destruct (len =? 4) eqn:E2; [|done]. injection H as <-. cbn. split_bools. subst len.
    split_and!; [done|done|done|]. eexists. split; [done|apply zlen_le_split].
  - destruct (len <? zlen (v_str v)) eqn:E2; [done|]. injection H as <-. cbn. split_bools.
    split_and!; [done|done|done|]. eexists. split; [done|].
    rewrite zlen_app. unfold zlen at 2. rewrite length_replicate. lia.
Qed.

(** The lengths a catalog allows a column of a type to have. *)
Definition len_ok (t : ColType) (len : Z) : Prop :=
  0 < len ∧ match t with TYPE_STRING => True | _ => len = 4 end.

Lemma init_raw_no_crash v len : v_raw v = None → len_ok (v_type v) len → init_raw v len ≠ Crash.
Proof.
  intros Hr [Hl Ht]. unfold init_raw. cbv zeta. rewrite Hr. cbn.
  destruct (len <? 0); [done|]. cbn. destruct (v_type v); [by rewrite Ht|by rewrite Ht|].
  by destruct (len <? zlen (v_str v)).
Qed.
