(* ===== verification/Catalog.v ===== *)
(** * The catalog: table, column and index metadata

    Models [src/src/system/sm_meta.h] and [src/src/system/sm_meta.cpp]: the metadata
    records, the lookups every statement goes through, the derived fields of an index,
    and the JSON document [db.meta] that the catalog is written to and rebuilt from.

    The JSON library is not part of the repository's own code: a document is the value
    type below, with the accessors the source uses ([at] throws on a missing key or on
    a value that is not an object), and text is a parameter ([parse] and [dump]). *)

From stdpp Require Import strings.
From S2P Require Import Prelude Common.

Definition RM_MAX_RECORD_SIZE : Z := 512.

Record ColMeta := mkCol {
  col_tab : string; col_name : string; col_type : ColType; col_len : Z; col_offset : Z; col_index : bool }.
#[global] Instance ColMeta_eq_dec : EqDecision ColMeta.
Proof. solve_decision. Defined.

Record IndexMeta := mkIndex {
  idx_tab : string; idx_tot_len : Z; idx_num : Z; idx_unique : bool; idx_cols : list ColMeta }.
#[global] Instance IndexMeta_eq_dec : EqDecision IndexMeta.
Proof. solve_decision. Defined.

Record TabMeta := mkTab { tab_name : string; tab_cols : list ColMeta; tab_indexes : list IndexMeta }.
#[global] Instance TabMeta_eq_dec : EqDecision TabMeta.
Proof. solve_decision. Defined.

(** ** [IndexMeta] *)

Definition rebuild_derived (index : IndexMeta) : IndexMeta :=
  mkIndex (idx_tab index) (foldl (λ n c, n + col_len c) 0 (idx_cols index)) (zlen (idx_cols index))
    (idx_unique index) (idx_cols index).

Definition IndexMeta_make (table_name : string) (columns : list ColMeta) (unique : bool) : IndexMeta :=
  rebuild_derived (mkIndex table_name 0 0 unique columns).

(** [memcpy(key_out + offset, record + column.offset, column.len)] for each column:
    the key buffer after the loop. *)
Fixpoint encode_key_loop (cols : list ColMeta) (record : bytes) (offset : Z) (key_out : bytes) : bytes :=
  match cols with
  | [] => key_out
  | c :: cols =>
    let piece := ztake (col_len c) (zdrop (col_offset c) record) in
    encode_key_loop cols record (offset + col_len c)
      (ztake offset key_out ++ piece ++ zdrop (offset + col_len c) key_out)
  end.

Definition encode_key (index : IndexMeta) (record key_out : bytes) : bytes :=
  encode_key_loop (idx_cols index) record 0 key_out.

Definition make_key (index : IndexMeta) (record : bytes) : bytes :=
  encode_key index record (replicate (Z.to_nat (idx_tot_len index)) Byte.x00).

(** ** [TabMeta] *)

Definition named (name : string) (c : ColMeta) : bool := bool_decide (col_name c = name).

Definition find_col (cols : list ColMeta) (name : string) : option ColMeta :=
  snd <$> list_find (λ c, Is_true (named name c)) cols.

Definition is_col (t : TabMeta) (name : string) : bool := bool_decide (is_Some (find_col (tab_cols t) name)).

Definition matches_index (index : IndexMeta) (names : list string) : bool :=
  bool_decide (zlen (idx_cols index) = zlen names) && bool_decide (col_name <$> idx_cols index = names).

Definition is_index (t : TabMeta) (names : list string) : bool :=
  existsb (λ i, matches_index i names) (tab_indexes t).

Definition get_index_meta (t : TabMeta) (names : list string) : result IndexMeta :=
  match list_find (λ i, Is_true (matches_index i names)) (tab_indexes t) with
  | Some (_, i) => Ok i
  | None => Throw (IndexNotFoundError (tab_name t) names)
  end.

Definition get_col (t : TabMeta) (name : string) : result ColMeta :=
  match find_col (tab_cols t) name with
  | Some c => Ok c
  | None => Throw (ColumnNotFoundError name)
  end.

(** ** [DbMeta] *)

Record DbMeta := mkDb { db_name : string; tabs : gmap string TabMeta }.

Definition is_table (db : DbMeta) (name : string) : bool := bool_decide (is_Some (tabs db !! name)).

Definition SetTabMeta (db : DbMeta) (name : string) (meta : TabMeta) : result DbMeta :=
  _ ← throw_if (negb (bool_decide (name = tab_name meta)))
        (InternalError ("Table metadata name mismatch: " +:+ name));
  Ok (mkDb (db_name db) (<[name := meta]> (tabs db))).

Definition get_table (db : DbMeta) (name : string) : result TabMeta :=
  match tabs db !! name with
  | Some t => Ok t
  | None => Throw (TableNotFoundError name)
  end.

(** The iteration order of [std::map]: by key. *)
Definition by_key (p q : string * TabMeta) : Prop := (p.1 ≤ q.1)%string.
#[global] Instance by_key_dec : RelDecision by_key.
Proof. intros p q. unfold by_key. apply _. Defined.

Definition ordered_tabs (db : DbMeta) : list (string * TabMeta) := merge_sort by_key (map_to_list (tabs db)).

(** ** JSON values *)

Inductive Json :=
| JNull
| JBool (b : bool)
| JInt (z : Z)
| JFloat
| JStr (s : string)
| JArr (l : list Json)
| JObj (fields : list (string * Json)).

(** Reading a document: [None] stands for any exception of the library, and for
    [invalid_meta], which is what it is turned into. *)
Definition jfind (fields : list (string * Json)) (key : string) : option Json :=
  (λ x : nat * (string * Json), x.2.2) <$> list_find (λ p, p.1 = key) fields.

Definition jat (v : Json) (key : string) : option Json :=
  match v with JObj fields => jfind fields key | _ => None end.

Definition require_object (v : Json) : option unit := match v with JObj _ => Some () | _ => None end.

Definition array_field (v : Json) (key : string) : option (list Json) :=
  match jat v key with Some (JArr l) => Some l | _ => None end.

Definition string_field (v : Json) (key : string) : option string :=
  match jat v key with Some (JStr s) => Some s | _ => None end.

(** [value.get<int>()] converts the stored 64-bit integer. *)
Definition int_field (v : Json) (key : string) : option Z :=
  match jat v key with Some (JInt z) => Some (s32 z) | _ => None end.

Definition type_name (t : ColType) : string := coltype2str t.

Definition read_type (s : string) : option ColType :=
  if bool_decide (s = "INT"%string) then Some TYPE_INT
  else if bool_decide (s = "FLOAT"%string) then Some TYPE_FLOAT
  else if bool_decide (s = "STRING"%string) then Some TYPE_STRING
  else None.

Definition column_invalid (c : ColMeta) : bool :=
  bool_decide (col_name c = ""%string) || (col_len c <=? 0) ||
  (bool_decide (col_type c = TYPE_INT) && negb (col_len c =? 4)) ||
  (bool_decide (col_type c = TYPE_FLOAT) && negb (col_len c =? 4)).

Definition read_column (v : Json) (table_name : string) (offset : Z) : option ColMeta :=
  _ ← require_object v;
  name ← string_field v "name";
  tname ← string_field v "type";
  type ← read_type tname;
  len ← int_field v "length";
  let column := mkCol table_name name type len offset false in
  if column_invalid column then None else Some column.

(** The name loop of [read_index]. *)
Fixpoint read_index_names (values : list Json) (names : list string) : option (list string) :=
  match values with
  | [] => Some names
  | JStr name :: values =>
    if bool_decide (name = ""%string) || bool_decide (name ∈ names) then None
    else read_index_names values (names ++ [name])
  | _ :: _ => None
  end.

(** [column->index = true] on the first column of that name. *)
Fixpoint mark_index (cols : list ColMeta) (name : string) : list ColMeta :=
  match cols with
  | [] => []
  | c :: cols =>
    if named name c
    then mkCol (col_tab c) (col_name c) (col_type c) (col_len c) (col_offset c) true :: cols
    else c :: mark_index cols name
  end.

(** The column loop of [read_index]: marks and copies; an unknown name throws. *)
Fixpoint read_index_cols (names : list string) (t : TabMeta) (acc : list ColMeta)
  : result (TabMeta * list ColMeta) :=
  match names with
  | [] => Ok (t, acc)
  | name :: names =>
    _ ← get_col t name;
    let t := mkTab (tab_name t) (mark_index (tab_cols t) name) (tab_indexes t) in
    c ← get_col t name;
    read_index_cols names t (acc ++ [c])
  end.

Definition invalid_meta {A} : result A :=
  Throw (InternalError "Invalid db.meta JSON; recreate databases written by older versions").

Definition of_json {A} (o : option A) : result A := match o with Some a => Ok a | None => invalid_meta end.

Definition read_unique (v : Json) : option bool :=
  match jat v "unique" with
  | None => Some false
  | Some (JBool b) => Some b
  | Some _ => None
  end.

Definition read_index (v : Json) (t : TabMeta) : result (TabMeta * IndexMeta) :=
  values ← of_json (_ ← require_object v; array_field v "columns");
  _ ← throw_if (bool_decide (values = []))
        (InternalError "Invalid db.meta JSON; recreate databases written by older versions");
  names ← of_json (read_index_names values []);
  if is_index t names then invalid_meta else
  unique ← of_json (read_unique v);
  '(t, cols) ← read_index_cols names t [];
  Ok (t, rebuild_derived (mkIndex (tab_name t) 0 0 unique cols)).

(** The column loop of [read_table]. *)
Fixpoint read_columns (values : list Json) (t : TabMeta) (offset : Z) : option TabMeta :=
  match values with
  | [] => Some t
  | v :: values =>
    column ← read_column v (tab_name t) offset;
    if is_col t (col_name column) || (RM_MAX_RECORD_SIZE - offset <? col_len column) then None
    else read_columns values (mkTab (tab_name t) (tab_cols t ++ [column]) (tab_indexes t))
           (offset + col_len column)
  end.

(** The index loop of [read_table]. *)
Fixpoint read_indexes (values : list Json) (t : TabMeta) : result TabMeta :=
  match values with
  | [] => Ok t
  | v :: values =>
    '(t, index) ← read_index v t;
    read_indexes values (mkTab (tab_name t) (tab_cols t) (tab_indexes t ++ [index]))
  end.

Definition read_table (v : Json) : result TabMeta :=
  name ← of_json (_ ← require_object v; string_field v "name");
  if bool_decide (name = ""%string) then invalid_meta else
  columns ← of_json (array_field v "columns");
  if bool_decide (columns = []) then invalid_meta else
  t ← of_json (read_columns columns (mkTab name [] []) 0);
  indexes ← of_json (array_field v "indexes");
  read_indexes indexes t.

(** The table loop of [operator>>]. *)
Fixpoint read_tables (values : list Json) (db : DbMeta) : result DbMeta :=
  match values with
  | [] => Ok db
  | v :: values =>
    t ← read_table v;
    if is_table db (tab_name t) then invalid_meta
    else read_tables values (mkDb (db_name db) (<[tab_name t := t]> (tabs db)))
  end.

Definition read_db (root : Json) : result DbMeta :=
  name ← of_json (_ ← require_object root; string_field root "database");
  if bool_decide (name = ""%string) then invalid_meta else
  values ← of_json (array_field root "tables");
  read_tables values (mkDb name ∅).

(** ** Writing *)

Definition write_column (c : ColMeta) : Json :=
  JObj [("name"%string, JStr (col_name c)); ("type"%string, JStr (type_name (col_type c)));
        ("length"%string, JInt (col_len c))].

Definition write_index (i : IndexMeta) : Json :=
  JObj [("columns"%string, JArr ((JStr ∘ col_name) <$> idx_cols i)); ("unique"%string, JBool (idx_unique i))].

Definition write_table (t : TabMeta) : Json :=
  JObj [("name"%string, JStr (tab_name t)); ("columns"%string, JArr (write_column <$> tab_cols t));
        ("indexes"%string, JArr (write_index <$> tab_indexes t))].

Definition write_db (db : DbMeta) : Json :=
  JObj [("database"%string, JStr (db_name db)); ("tables"%string, JArr ((write_table ∘ snd) <$> ordered_tabs db))].

Section Text.
Context (parse : bytes → option Json) (dump : Json → bytes).

(** [operator<<] and [operator>>]: the latter replaces the catalog only when the whole
    document was read, and reports every library exception as [invalid_meta]. *)
Definition print_db (db : DbMeta) : bytes := dump (write_db db) ++ [Byte.x0a].

Definition load_db (input : bytes) (db : DbMeta) : result unit * DbMeta :=
  match parse input with
  | None => (invalid_meta, db)
  | Some root => match read_db root with
                 | Ok db' => (Ok tt, db')
                 | Throw e => (Throw e, db)
                 | Crash => (Crash, db)
                 end
  end.
End Text.
