(* ===== verification/CatalogFacts.v ===== *)
(** * Correctness of the catalog

    Well-formedness of the metadata, that every document accepted by the reader gives
    well-formed metadata, that what is written is read back unchanged, and that the key
    of an index is the concatenation of its columns' bytes in the record. *)

From stdpp Require Import strings sorting.
From S2P Require Import Prelude Common Catalog.

(** ** Well-formedness *)

Definition set_index (b : bool) (c : ColMeta) : ColMeta :=
  mkCol (col_tab c) (col_name c) (col_type c) (col_len c) (col_offset c) b.

Definition names (cols : list ColMeta) : list string := col_name <$> cols.

(** Columns of one table, contiguous from [off], with lengths that fit their types. *)
Fixpoint laid_out (tab : string) (off : Z) (cols : list ColMeta) : Prop :=
  match cols with
  | [] => off ≤ RM_MAX_RECORD_SIZE
  | c :: cols =>
    col_tab c = tab ∧ col_offset c = off ∧ column_invalid c = false ∧
    off + col_len c ≤ RM_MAX_RECORD_SIZE ∧ laid_out tab (off + col_len c) cols
  end.

(** The names of the columns some index uses. *)
Definition marks (idxs : list IndexMeta) : gset string := ⋃ (list_to_set ∘ names ∘ idx_cols <$> idxs).

Definition index_wf (tab : string) (cols : list ColMeta) (i : IndexMeta) : Prop :=
  idx_cols i ≠ [] ∧ NoDup (names (idx_cols i)) ∧ Forall (.∈ cols) (idx_cols i) ∧
  i = IndexMeta_make tab (idx_cols i) (idx_unique i).

Definition tab_wf (t : TabMeta) : Prop :=
  tab_name t ≠ ""%string ∧ tab_cols t ≠ [] ∧ NoDup (names (tab_cols t)) ∧
  laid_out (tab_name t) 0 (tab_cols t) ∧
  Forall (λ c, col_index c = bool_decide (col_name c ∈ marks (tab_indexes t))) (tab_cols t) ∧
  Forall (index_wf (tab_name t) (tab_cols t)) (tab_indexes t) ∧
  NoDup (names ∘ idx_cols <$> tab_indexes t).

Definition db_wf (db : DbMeta) : Prop :=
  db_name db ≠ ""%string ∧ map_Forall (λ k t, tab_name t = k ∧ tab_wf t) (tabs db).

(** ** Lookups *)

Lemma named_true n c : named n c = true ↔ col_name c = n.
Proof. apply bool_decide_eq_true. Qed.

Lemma find_col_Some cols n c :
  NoDup (names cols) → find_col cols n = Some c ↔ c ∈ cols ∧ col_name c = n.
Proof.
  intros Hnd. unfold find_col. split.
  - rewrite fmap_Some. intros ([i x] & Hf & ->). apply list_find_Some in Hf as (Hl & Hp & _).
    split; [by eapply list_elem_of_lookup_2|]. cbn in *. by apply Is_true_true, named_true in Hp.
  - intros [Hc Hn]. destruct (list_find (λ c, Is_true (named n c)) cols) as [[i x]|] eqn:E.
    + cbn. f_equal. apply list_find_Some in E as (Hl & Hp & _). apply Is_true_true, named_true in Hp.
      apply list_elem_of_lookup_1 in Hc as [j Hj].
      assert (i = j) as ->; [|congruence].
      apply (NoDup_lookup (names cols) i j n Hnd); unfold names; rewrite list_lookup_fmap;
        [rewrite Hl|rewrite Hj]; cbn in *; congruence.
    + apply list_find_None in E. rewrite Forall_forall in E. destruct (E c Hc).
      by apply Is_true_true, named_true.
Qed.

Lemma find_col_elem cols n c : find_col cols n = Some c → c ∈ cols ∧ col_name c = n.
Proof.
  unfold find_col. rewrite fmap_Some. intros ([i x] & Hf & ->). apply list_find_Some in Hf as (Hl & Hp & _).
  split; [by eapply list_elem_of_lookup_2|]. cbn in *. by apply Is_true_true, named_true in Hp.
Qed.

Lemma find_col_None cols n : find_col cols n = None ↔ n ∉ names cols.
Proof.
  unfold find_col. rewrite fmap_None, list_find_None, Forall_forall. unfold names.
  rewrite list_elem_of_fmap. split.
  - intros H (c & -> & Hc). destruct (H c Hc). by apply Is_true_true, named_true.
  - intros H c Hc Hp. apply H. exists c. split; [|done]. by apply Is_true_true, named_true in Hp.
Qed.

Lemma is_col_iff t n : is_col t n = true ↔ n ∈ names (tab_cols t).
Proof.
  unfold is_col. rewrite bool_decide_eq_true. destruct (find_col (tab_cols t) n) as [c|] eqn:E.
  - apply find_col_elem in E as [Hc <-]. split; [intros _|done]. by apply list_elem_of_fmap_2.
  - apply find_col_None in E. split; [by intros [? ?]|done].
Qed.

Lemma matches_index_iff i ns : matches_index i ns = true ↔ names (idx_cols i) = ns.
Proof.
  unfold matches_index. rewrite andb_true_iff, !bool_decide_eq_true. unfold names. split; [tauto|].
  intros <-. split; [|done]. unfold zlen. by rewrite length_fmap.
Qed.

Lemma is_index_iff t ns : is_index t ns = true ↔ ns ∈ (names ∘ idx_cols <$> tab_indexes t).
Proof.
  unfold is_index. rewrite existsb_exists, list_elem_of_fmap. split.
  - intros (i & Hi & Hm). apply matches_index_iff in Hm. exists i. cbn. split; [done|by apply list_elem_of_In].
  - intros (i & -> & Hi). exists i. split; [by apply list_elem_of_In|by apply matches_index_iff].
Qed.

(** ** Marking *)

(** The columns with the index flag set exactly on the names in [M]. *)
Definition flagged (M : gset string) (cols : list ColMeta) : list ColMeta :=
  (λ c, set_index (bool_decide (col_name c ∈ M)) c) <$> cols.

Lemma names_flagged M cols : names (flagged M cols) = names cols.
Proof. unfold names, flagged. by rewrite <- list_fmap_compose. Qed.

Lemma mark_flagged M cols n :
  NoDup (names cols) → mark_index (flagged M cols) n = flagged ({[n]} ∪ M) cols.
Proof.
  induction cols as [|c cols IH]; intros Hnd; [done|]. unfold names in Hnd. rewrite fmap_cons in Hnd.
  apply NoDup_cons in Hnd as [Hn Hnd]. unfold flagged in *. rewrite !fmap_cons. cbn [mark_index].
  unfold named. cbn [col_name set_index]. destruct (decide (col_name c = n)) as [<-|Hne].
  - rewrite bool_decide_true by done. f_equal.
    + unfold set_index. cbn. rewrite bool_decide_true by set_solver. done.
    + apply list_fmap_ext. intros i x Hx. f_equal. apply bool_decide_ext.
      assert (col_name x ≠ col_name c); [|set_solver].
      intros Heq. apply Hn. rewrite <- Heq. apply list_elem_of_fmap_2. by eapply list_elem_of_lookup_2.
  - rewrite bool_decide_false by done. f_equal; [|by apply IH]. f_equal. apply bool_decide_ext. set_solver.
Qed.

Lemma find_flagged M cols n :
  find_col (flagged M cols) n = (λ c, set_index (bool_decide (n ∈ M)) c) <$> find_col cols n.
Proof.
  unfold find_col, flagged. induction cols as [|c cols IH]; [done|]. rewrite fmap_cons. cbn [list_find].
  unfold named at 1 3. cbn [col_name set_index].
  destruct (decide (col_name c = n)) as [Heq|Hne].
  - rewrite !decide_True by (by apply bool_decide_pack). cbn. by rewrite Heq.
  - rewrite !decide_False by (intros H; by apply bool_decide_unpack in H).
    destruct (list_find _ (_ <$> cols)) as [[i x]|], (list_find _ cols) as [[j y]|]; cbn in *; congruence.
Qed.

Lemma read_index_cols_iff ns nm M cols idxs acc t' acc' :
  NoDup (names cols) →
  read_index_cols ns (mkTab nm (flagged M cols) idxs) acc = Ok (t', acc') ↔
  ∃ cs, Forall2 (λ n c, find_col cols n = Some c) ns cs ∧
        t' = mkTab nm (flagged (list_to_set ns ∪ M) cols) idxs ∧ acc' = acc ++ (set_index true <$> cs).
Proof.
  intros Hnd. revert M acc. induction ns as [|n ns IH]; intros M acc; cbn [read_index_cols].
  - split.
    + intros [= <- <-]. exists []. rewrite app_nil_r. split_and!; [constructor| |done].
      by rewrite list_to_set_nil, union_empty_l_L.
    + intros (cs & H & -> & ->). inversion H; subst. rewrite app_nil_r, list_to_set_nil, union_empty_l_L. done.
  - unfold get_col. cbn [tab_cols tab_name tab_indexes]. rewrite mark_flagged, !find_flagged by done.
    destruct (find_col cols n) as [c|] eqn:E; cbn.
    + rewrite IH, (bool_decide_true (n ∈ {[n]} ∪ M)) by set_solver.
      assert (list_to_set ns ∪ ({[n]} ∪ M) = {[n]} ∪ list_to_set ns ∪ M) as -> by set_solver.
      split.
      * intros (cs & H & -> & ->). exists (c :: cs). split_and!; [by constructor|done|].
        rewrite fmap_cons, <- app_assoc. done.
      * intros (cs & H & -> & ->). inversion H as [|? c' ? cs' Hc Hcs]; subst.
        assert (c' = c) as -> by congruence. exists cs'. split_and!; [done|done|].
        rewrite fmap_cons, <- app_assoc. done.
    + split; [done|]. intros (cs & H & _). inversion H; subst. congruence.
Qed.

(** ** Reading an index *)

Lemma read_index_names_sound values acc ns :
  read_index_names values acc = Some ns → NoDup acc →
  ∃ new, ns = acc ++ new ∧ NoDup ns ∧ values = JStr <$> new ∧ ""%string ∉ new.
Proof.
  revert acc. induction values as [|v values IH]; intros acc; cbn.
  - intros [= ->] Hnd. exists []. rewrite app_nil_r. split_and!; [done|done|done|apply not_elem_of_nil].
  - destruct v as [| | | |s| |]; try done. destruct (_ || _) eqn:E; [done|]. split_bools.
    intros Hr Hnd. apply IH in Hr as (new & -> & Hnd' & -> & Hne).
    + exists (s :: new). rewrite <- app_assoc in *. split_and!; [done|done|done|].
      rewrite not_elem_of_cons. done.
    + apply NoDup_app. split_and!; [done| |apply NoDup_singleton]. set_solver.
Qed.

Lemma read_index_names_complete new acc :
  NoDup (acc ++ new) → ""%string ∉ new → read_index_names (JStr <$> new) acc = Some (acc ++ new).
Proof.
  revert acc. induction new as [|s new IH]; intros acc Hnd Hne; [by rewrite app_nil_r|].
  cbn [fmap list_fmap read_index_names]. apply not_elem_of_cons in Hne as [Hs Hne].
  rewrite !bool_decide_false; [|apply NoDup_app in Hnd as (_ & H & _); set_solver|done].
  cbn [orb]. rewrite IH; [by rewrite <- app_assoc|by rewrite <- app_assoc|done].
Qed.

Lemma names_set_index b cs : names (set_index b <$> cs) = names cs.
Proof. unfold names. by rewrite <- list_fmap_compose. Qed.

Lemma Forall2_find cols ns cs :
  Forall2 (λ n c, find_col cols n = Some c) ns cs → ns = names cs ∧ Forall (.∈ cols) cs.
Proof.
  induction 1 as [|n c ns cs Hf _ [-> IH]]; [by split|]. apply find_col_elem in Hf as [Hc <-].
  split; [done|by constructor].
Qed.

Lemma find_Forall2 cols cs :
  NoDup (names cols) → Forall (.∈ cols) cs → Forall2 (λ n c, find_col cols n = Some c) (names cs) cs.
Proof.
  intros Hnd. induction 1 as [|c cs Hc _ IH]; [constructor|]. constructor; [|done].
  by apply find_col_Some.
Qed.

Lemma read_index_sound v nm M cols idxs t' i :
  NoDup (names cols) →
  read_index v (mkTab nm (flagged M cols) idxs) = Ok (t', i) →
  ∃ cs u, cs ≠ [] ∧ NoDup (names cs) ∧ Forall (.∈ cols) cs ∧
    i = IndexMeta_make nm (set_index true <$> cs) u ∧
    t' = mkTab nm (flagged (list_to_set (names cs) ∪ M) cols) idxs ∧
    names cs ∉ (names ∘ idx_cols <$> idxs).
Proof.
  intros Hnd. unfold read_index. intros H.
  apply bind_ok in H as (values & _ & H). apply bind_ok in H as ([] & Hne & H).
  apply throw_if_ok, bool_decide_eq_false in Hne.
  apply bind_ok in H as (ns & Hns & H).
  destruct (read_index_names values []) as [ns'|] eqn:En; [|done]. injection Hns as ->.
  apply read_index_names_sound in En as (new & -> & Hnd' & -> & _); [|constructor]. cbn [app] in *.
  destruct (is_index _ new) eqn:Ei; [done|].
  apply bind_ok in H as (u & _ & H). apply bind_ok in H as ([t1 cs'] & Hc & H). injection H as <- <-.
  apply read_index_cols_iff in Hc as (cs & Hf & -> & ->); [|done].
  apply Forall2_find in Hf as [-> Hin]. exists cs, u. split_and!; try done.
  - intros ->. done.
  - intros Hin'. assert (is_index (mkTab nm (flagged M cols) idxs) (names cs) = true); [|congruence].
    by apply is_index_iff.
Qed.

Lemma read_index_complete i nm M cols idxs cs u :
  NoDup (names cols) → ""%string ∉ names cols → cs ≠ [] → NoDup (names cs) → Forall (.∈ cols) cs →
  i = IndexMeta_make nm (set_index true <$> cs) u → names cs ∉ (names ∘ idx_cols <$> idxs) →
  read_index (write_index i) (mkTab nm (flagged M cols) idxs) =
    Ok (mkTab nm (flagged (list_to_set (names cs) ∪ M) cols) idxs, i).
Proof.
  intros Hnd Hemp Hne Hndc Hin -> Hfresh.
  assert ((JStr ∘ col_name) <$> idx_cols (IndexMeta_make nm (set_index true <$> cs) u) = JStr <$> names cs) as Hj.
  { cbn. unfold names. by rewrite <- !list_fmap_compose. }
  assert (""%string ∉ names cs) as Hemp'.
  { intros H. apply Hemp. unfold names in *. apply list_elem_of_fmap in H as (c & Hc & Hcin).
    rewrite Forall_forall in Hin. apply list_elem_of_fmap. eauto. }
  assert (is_index (mkTab nm (flagged M cols) idxs) (names cs) = false) as Hidx.
  { destruct (is_index _ _) eqn:E; [|done]. by apply is_index_iff in E. }
  unfold read_index.
  apply bind_ok. exists (JStr <$> names cs). split; [unfold write_index; by rewrite Hj|].
  apply bind_ok. exists tt. split.
  { apply throw_if_ok, bool_decide_eq_false. intros H. by do 2 apply fmap_nil_inv in H. }
  apply bind_ok. exists (names cs). split; [by rewrite (read_index_names_complete (names cs) []) by done|].
  rewrite Hidx. apply bind_ok. exists u. split; [done|]. apply bind_ok. eexists (_, _). split.
  { apply read_index_cols_iff; [done|]. exists cs. split_and!; [by apply find_Forall2|done|done]. }
  done.
Qed.

(** ** Reading the columns of a table *)

Lemma column_invalid_flag b c : column_invalid (set_index b c) = column_invalid c.
Proof. done. Qed.

Lemma laid_out_flagged tab off M cols : laid_out tab off (flagged M cols) ↔ laid_out tab off cols.
Proof.
  revert off. induction cols as [|c cols IH]; intros off; [done|]. cbn. unfold flagged in IH. rewrite IH. done.
Qed.

Lemma laid_out_snoc tab off cols c :
  laid_out tab off (cols ++ [c]) ↔
  laid_out tab off cols ∧ laid_out tab (foldl (λ n c, n + col_len c) off cols) [c].
Proof.
  revert off. induction cols as [|d cols IH]; intros off; cbn [app laid_out foldl].
  - cbn. split; [|tauto]. intros (? & ? & Hi & ?). split; [|done].
    unfold column_invalid in Hi. split_bools. lia.
  - rewrite IH. cbn. tauto.
Qed.

Definition written_column (v : Json) (c : ColMeta) : Prop :=
  ∃ z, s32 z = col_len c ∧ string_field v "name" = Some (col_name c) ∧
       string_field v "type" = Some (type_name (col_type c)) ∧ jat v "length" = Some (JInt z).

Lemma read_type_name t : read_type (type_name t) = Some t.
Proof. by destruct t. Qed.

Lemma read_columns_sound values nm cols idxs off t :
  read_columns values (mkTab nm cols idxs) off = Some t →
  NoDup (names cols) → laid_out nm 0 cols → off = foldl (λ n c, n + col_len c) 0 cols →
  Forall (λ c, col_index c = false) cols →
  ∃ cols', t = mkTab nm (cols ++ cols') idxs ∧ length cols' = length values ∧
    NoDup (names (cols ++ cols')) ∧ laid_out nm 0 (cols ++ cols') ∧
    Forall (λ c, col_index c = false) (cols ++ cols').
Proof.
  revert cols off. induction values as [|v values IH]; intros cols off; cbn [read_columns tab_name tab_cols tab_indexes].
  { intros [= <-] **. exists []. by rewrite app_nil_r. }
  unfold read_column. intros H Hnd Hl Hoff Hfl.
  destruct (require_object v); [|done]. cbn in H.
  destruct (string_field v "name") as [name|]; [|done]. cbn in H.
  destruct (string_field v "type") as [tn|]; [|done]. cbn in H.
  destruct (read_type tn) as [ty|]; [|done]. cbn in H.
  destruct (int_field v "length") as [len|]; [|done]. cbn in H.
  destruct (column_invalid _) eqn:Einv; [done|].
  cbn [mbind option_bind col_name col_len tab_name tab_cols tab_indexes] in H.
  destruct (is_col (mkTab nm cols idxs) name || (RM_MAX_RECORD_SIZE - off <? len)) eqn:E; [done|]. split_bools.
  apply IH in H as (cols' & -> & Hlen & Hnd' & Hl' & Hfl').
  - eexists (_ :: cols'). rewrite <- app_assoc in *. split_and!; try done. cbn. by rewrite Hlen.
  - unfold names. rewrite fmap_app. apply NoDup_app. split_and!; [done| |apply NoDup_singleton].
    intros n Hn Hn'. apply list_elem_of_singleton in Hn' as ->. cbn in Hn.
    assert (is_col (mkTab nm cols idxs) name = true); [by apply is_col_iff|congruence].
  - apply laid_out_snoc. split; [done|]. rewrite <- Hoff. cbn. split_and!; try done; lia.
  - rewrite foldl_app. cbn. by rewrite <- Hoff.
  - apply Forall_app. split; [done|]. by repeat constructor.
Qed.

Lemma col_len_s32 c off tab cols : laid_out tab off (c :: cols) → 0 ≤ off → s32 (col_len c) = col_len c.
Proof.
  cbn. intros (_ & _ & Hi & Hle & _) Hoff. unfold column_invalid in Hi. split_bools.
  unfold RM_MAX_RECORD_SIZE in Hle. unfold s32. rewrite Z.mod_small by word_lia. lia.
Qed.

Lemma read_columns_complete nm cols pre idxs off :
  NoDup (names (pre ++ cols)) → laid_out nm off cols → 0 ≤ off →
  read_columns (write_column <$> cols) (mkTab nm pre idxs) off =
    Some (mkTab nm (pre ++ (set_index false <$> cols)) idxs).
Proof.
  revert pre off. induction cols as [|c cols IH]; intros pre off Hnd Hl Hoff; cbn [fmap list_fmap read_columns].
  { by rewrite app_nil_r. }
  pose proof (col_len_s32 _ _ _ _ Hl Hoff) as Hs. destruct Hl as (Ht & Ho & Hi & Hle & Hl).
  unfold read_column, write_column. cbn [require_object mbind option_bind].
  change (string_field _ "name") with (Some (col_name c)). cbn [mbind option_bind].
  change (string_field _ "type") with (Some (type_name (col_type c))). cbn [mbind option_bind].
  rewrite read_type_name. cbn [mbind option_bind].
  change (int_field _ "length") with (Some (s32 (col_len c))). cbn [mbind option_bind]. rewrite Hs.
  assert (mkCol nm (col_name c) (col_type c) (col_len c) off false = set_index false c) as Hc.
  { unfold set_index. by rewrite Ht, Ho. }
  cbn [tab_name]. rewrite Hc, column_invalid_flag, Hi. cbn [mbind option_bind tab_cols tab_indexes].
  assert (is_col (mkTab nm pre idxs) (col_name c) = false) as Hic.
  { destruct (is_col _ _) eqn:E; [|done]. apply is_col_iff in E. cbn in E. unfold names in Hnd.
    rewrite fmap_app, fmap_cons in Hnd. apply NoDup_app in Hnd as (_ & Hd & _).
    destruct (Hd _ E). by left. }
  change (col_name (set_index false c)) with (col_name c). change (col_len (set_index false c)) with (col_len c).
  rewrite Hic. rewrite (proj2 (Z.ltb_ge _ _)) by (unfold RM_MAX_RECORD_SIZE in *; lia). cbn [orb].
  rewrite IH; [by rewrite <- app_assoc| |done|].
  - revert Hnd. unfold names. rewrite <- app_assoc, !fmap_app. done.
  - unfold column_invalid in Hi. split_bools. lia.
Qed.

(** ** Reading a table *)

(** An index as the reader builds it, over columns whose flags are still clear. *)
Definition index_shape (nm : string) (cols : list ColMeta) (i : IndexMeta) : Prop :=
  ∃ cs u, cs ≠ [] ∧ NoDup (names cs) ∧ Forall (.∈ cols) cs ∧ i = IndexMeta_make nm (set_index true <$> cs) u.

Lemma marks_snoc idxs i : marks (idxs ++ [i]) = list_to_set (names (idx_cols i)) ∪ marks idxs.
Proof.
  unfold marks. rewrite fmap_app, union_list_app_L. cbn. set_solver.
Qed.

Lemma index_shape_names nm i cs u :
  i = IndexMeta_make nm (set_index true <$> cs) u → names (idx_cols i) = names cs.
Proof. intros ->. apply names_set_index. Qed.

Lemma NoDup_snoc {A} (l : list A) x : NoDup l → x ∉ l → NoDup (l ++ [x]).
Proof. intros H Hx. apply NoDup_app. split_and!; [done|set_solver|apply NoDup_singleton]. Qed.

Lemma read_indexes_sound values nm cols idxs t :
  read_indexes values (mkTab nm (flagged (marks idxs) cols) idxs) = Ok t → NoDup (names cols) →
  Forall (index_shape nm cols) idxs → NoDup (names ∘ idx_cols <$> idxs) →
  ∃ idxs', t = mkTab nm (flagged (marks idxs') cols) idxs' ∧ Forall (index_shape nm cols) idxs' ∧
           NoDup (names ∘ idx_cols <$> idxs').
Proof.
  intros H Hnd. revert idxs H. induction values as [|v values IH]; intros idxs; cbn [read_indexes].
  { intros [= <-] **. by exists idxs. }
  intros H Hsh Hni. apply bind_ok in H as ([t1 i] & Hi & H).
  apply read_index_sound in Hi as (cs & u & H1 & H2 & H3 & -> & -> & Hfresh); [|done].
  cbn [tab_name tab_cols tab_indexes] in H.
  rewrite <- (index_shape_names nm _ cs u eq_refl), <- marks_snoc in H. apply IH in H; [done| |].
  - apply Forall_app. split; [done|]. constructor; [|done]. by exists cs, u.
  - rewrite fmap_app. apply NoDup_snoc; [done|]. cbn. by rewrite names_set_index.
Qed.

Lemma read_indexes_complete idxs2 nm cols idxs1 :
  NoDup (names cols) → ""%string ∉ names cols → Forall (index_shape nm cols) idxs2 →
  NoDup (names ∘ idx_cols <$> idxs1 ++ idxs2) →
  read_indexes (write_index <$> idxs2) (mkTab nm (flagged (marks idxs1) cols) idxs1) =
    Ok (mkTab nm (flagged (marks (idxs1 ++ idxs2)) cols) (idxs1 ++ idxs2)).
Proof.
  intros Hnd Hemp H. revert idxs1. induction H as [|i idxs2 (cs & u & H1 & H2 & H3 & Hi) _ IH]; intros idxs1 Hni.
  { by rewrite app_nil_r. }
  cbn [fmap list_fmap read_indexes]. apply bind_ok.
  exists (mkTab nm (flagged (list_to_set (names cs) ∪ marks idxs1) cols) idxs1, i). split.
  - apply (read_index_complete i nm (marks idxs1) cols idxs1 cs u); try done.
    rewrite fmap_app, fmap_cons in Hni. apply NoDup_app in Hni as (_ & Hd & _).
    intros Hin. apply (Hd _ Hin). rewrite <- (index_shape_names nm i cs u Hi). by left.
  - cbn [tab_name tab_cols tab_indexes]. rewrite <- (index_shape_names nm i cs u Hi), <- marks_snoc.
    rewrite IH; rewrite <- app_assoc; done.
Qed.

Lemma laid_out_names_nonempty tab off cols : laid_out tab off cols → ""%string ∉ names cols.
Proof.
  revert off. induction cols as [|c cols IH]; intros off H; [apply not_elem_of_nil|].
  destruct H as (_ & _ & Hi & _ & Hl). unfold column_invalid in Hi. split_bools.
  apply not_elem_of_cons. split; [congruence|by eapply IH].
Qed.

Lemma flagged_unflag M cols :
  Forall (λ c, col_index c = bool_decide (col_name c ∈ M)) cols → flagged M (set_index false <$> cols) = cols.
Proof.
  unfold flagged. rewrite <- list_fmap_compose. induction 1 as [|c cols Hc _ IH]; [done|].
  rewrite fmap_cons, IH. f_equal. cbn. rewrite <- Hc. by destruct c.
Qed.

Lemma marks_elem i idxs c : i ∈ idxs → c ∈ idx_cols i → col_name c ∈ marks idxs.
Proof.
  intros Hi Hc. unfold marks. apply elem_of_union_list. exists (list_to_set (names (idx_cols i))).
  split; [by apply (list_elem_of_fmap_2 (list_to_set ∘ names ∘ idx_cols))|].
  apply elem_of_list_to_set. by apply list_elem_of_fmap_2.
Qed.

(** What the reader has built is well formed, and every well-formed table has that
    form. *)
Lemma built_wf nm cols idxs :
  nm ≠ ""%string → cols ≠ [] → NoDup (names cols) → laid_out nm 0 cols →
  Forall (index_shape nm cols) idxs → NoDup (names ∘ idx_cols <$> idxs) →
  tab_wf (mkTab nm (flagged (marks idxs) cols) idxs).
Proof.
  intros Hnm Hne Hnd Hl Hsh Hni. split_and!; cbn [tab_name tab_cols tab_indexes]; try done.
  - unfold flagged. intros H. by apply fmap_nil_inv in H.
  - by rewrite names_flagged.
  - by apply laid_out_flagged.
  - unfold flagged. apply Forall_fmap, Forall_forall. done.
  - apply Forall_forall. intros i Hi. rewrite Forall_forall in Hsh.
    destruct (Hsh i Hi) as (cs & u & H1 & H2 & H3 & Hieq). split_and!.
    + rewrite Hieq. cbn. intros H. by apply fmap_nil_inv in H.
    + by rewrite (index_shape_names nm i cs u Hieq).
    + apply Forall_forall. intros x Hx. pose proof (marks_elem i idxs x Hi Hx) as Hm.
      rewrite Hieq in Hx. cbn in Hx. apply list_elem_of_fmap in Hx as (c & -> & Hc).
      rewrite Forall_forall in H3. unfold flagged. apply list_elem_of_fmap. exists c. split; [|by apply H3].
      by rewrite bool_decide_true.
    + by rewrite Hieq.
Qed.

Lemma wf_built t :
  tab_wf t →
  let cols := set_index false <$> tab_cols t in
  tab_cols t = flagged (marks (tab_indexes t)) cols ∧ Forall (index_shape (tab_name t) cols) (tab_indexes t).
Proof.
  intros (Hnm & Hne & Hnd & Hl & Hfl & Hidx & Hni). cbv zeta. split; [by rewrite flagged_unflag|].
  rewrite Forall_forall in Hidx. rewrite Forall_forall in Hfl. apply Forall_forall. intros i Hi. destruct (Hidx i Hi) as (H1 & H2 & H3 & H4).
  exists (set_index false <$> idx_cols i), (idx_unique i). rewrite Forall_forall in H3. split_and!.
  - intros H. by apply fmap_nil_inv in H.
  - by rewrite names_set_index.
  - apply Forall_fmap, Forall_forall. intros c Hc. apply list_elem_of_fmap_2. auto.
  - rewrite H4 at 1. f_equal. rewrite <- list_fmap_compose. symmetry.
    rewrite <- (list_fmap_id (idx_cols i)) at 2. apply list_fmap_ext. intros j c Hc. cbn.
    apply list_elem_of_lookup_2 in Hc. pose proof (Hfl c (H3 c Hc)) as Hix.
    rewrite bool_decide_true in Hix by (by apply (marks_elem i)). destruct c. cbn in *. by subst.
Qed.

Lemma read_table_wf v t : read_table v = Ok t → tab_wf t.
Proof.
  unfold read_table. intros H. apply bind_ok in H as (nm & _ & H).
  destruct (bool_decide (nm = _)) eqn:En; [done|]. split_bools.
  apply bind_ok in H as (columns & _ & H). destruct (bool_decide (columns = [])) eqn:Ec; [done|]. split_bools.
  apply bind_ok in H as (t0 & Ht0 & H). apply bind_ok in H as (indexes & _ & H).
  destruct (read_columns columns _ 0) as [t0'|] eqn:Er; [|done]. injection Ht0 as ->.
  apply read_columns_sound in Er as (cols & -> & Hlen & Hnd & Hl & Hfl);
    [|constructor|cbn; unfold RM_MAX_RECORD_SIZE; lia|done|constructor]. cbn [app] in *.
  assert (flagged (marks []) cols = cols) as Hf0.
  { unfold flagged. rewrite <- (list_fmap_id cols) at 2. apply list_fmap_ext. intros i c Hc.
    rewrite Forall_forall in Hfl. apply list_elem_of_lookup_2, Hfl in Hc. cbn.
    rewrite bool_decide_false by set_solver. destruct c. cbn in *. by subst. }
  rewrite <- Hf0 in H at 1. apply read_indexes_sound in H as (idxs & -> & Hsh & Hni); [|done|constructor|constructor].
  apply built_wf; try done. intros ->. by destruct columns.
Qed.

Lemma read_write_table t : tab_wf t → read_table (write_table t) = Ok t.
Proof.
  intros Hwf. destruct (wf_built t Hwf) as [Hcols Hsh]. destruct Hwf as (Hnm & Hne & Hnd & Hl & _ & _ & Hni).
  set (cols := set_index false <$> tab_cols t) in *.
  assert (NoDup (names cols)) as Hndc by (unfold cols; by rewrite names_set_index).
  assert (laid_out (tab_name t) 0 cols) as Hlc by (rewrite Hcols in Hl; by apply laid_out_flagged in Hl).
  unfold read_table, write_table.
  apply bind_ok. exists (tab_name t). split; [done|]. rewrite bool_decide_false by done.
  apply bind_ok. exists (write_column <$> tab_cols t). split; [done|].
  rewrite bool_decide_false by (intros H; by apply fmap_nil_inv in H).
  apply bind_ok. exists (mkTab (tab_name t) cols []). split.
  { by rewrite (read_columns_complete (tab_name t) (tab_cols t) [] [] 0) by done. }
  apply bind_ok. exists (write_index <$> tab_indexes t). split; [done|].
  assert (flagged (marks []) cols = cols) as Hf0.
  { unfold flagged, cols. rewrite <- list_fmap_compose. apply list_fmap_ext. intros i c _. cbn.
    by rewrite bool_decide_false by set_solver. }
  rewrite <- Hf0 at 1. rewrite (read_indexes_complete (tab_indexes t) (tab_name t) cols []); cbn [app];
    [|done|by eapply laid_out_names_nonempty|done|done].
  rewrite <- Hcols. by destruct t.
Qed.

(** ** Reading the database *)

Lemma read_tables_wf values db db' :
  read_tables values db = Ok db' → map_Forall (λ k t, tab_name t = k ∧ tab_wf t) (tabs db) →
  db_name db' = db_name db ∧ map_Forall (λ k t, tab_name t = k ∧ tab_wf t) (tabs db').
Proof.
  revert db. induction values as [|v values IH]; intros db; cbn [read_tables].
  { by intros [= <-]. }
  intros H Hwf. apply bind_ok in H as (t & Ht & H). destruct (is_table _ _); [done|].
  apply IH in H; [done|]. cbn. apply map_Forall_insert_2; [|done].
  split; [done|by eapply read_table_wf].
Qed.

Lemma read_tables_complete (l : list (string * TabMeta)) nm (m : gmap string TabMeta) :
  NoDup l.*1 → Forall (λ p, tab_name p.2 = p.1 ∧ tab_wf p.2) l → (∀ k, k ∈ l.*1 → m !! k = None) →
  read_tables ((write_table ∘ snd) <$> l) (mkDb nm m) = Ok (mkDb nm (list_to_map l ∪ m)).
Proof.
  intros Hnd H. revert m. induction H as [|[k t] l [Hk Hwf] _ IH]; intros m Hm.
  { cbn. by rewrite map_empty_union. }
  cbn in Hk. subst k. rewrite fmap_cons in Hnd. cbn in Hnd. apply NoDup_cons in Hnd as [Hn Hnd].
  cbn [fmap list_fmap read_tables compose snd]. rewrite read_write_table by done.
  change (?m ≫= ?f) with (f t). cbn beta.
  assert (is_table (mkDb nm m) (tab_name t) = false) as ->.
  { unfold is_table. cbn. rewrite Hm by (cbn; by left). apply bool_decide_false. by intros [? ?]. }
  cbn [db_name tabs]. rewrite IH; [|done|].
  - do 2 f_equal. rewrite list_to_map_cons, <- insert_union_l, insert_union_r; [done|].
    by apply not_elem_of_list_to_map.
  - intros k Hk. rewrite lookup_insert_ne by (intros <-; done). apply Hm. cbn. by right.
Qed.

Lemma ordered_tabs_perm db : ordered_tabs db ≡ₚ map_to_list (tabs db).
Proof. apply merge_sort_Permutation. Qed.

Lemma read_write_db db : db_wf db → read_db (write_db db) = Ok db.
Proof.
  intros [Hnm Hwf]. unfold read_db, write_db.
  apply bind_ok. exists (db_name db). split; [done|]. rewrite bool_decide_false by done.
  apply bind_ok. eexists. split; [done|].
  rewrite read_tables_complete.
  - rewrite map_union_empty. destruct db as [n m]. cbn. do 2 f_equal.
    rewrite <- (list_to_map_to_list m) at 2. apply list_to_map_proper; [|apply ordered_tabs_perm].
    rewrite ordered_tabs_perm. apply NoDup_fst_map_to_list.
  - rewrite ordered_tabs_perm. apply NoDup_fst_map_to_list.
  - rewrite ordered_tabs_perm. apply Forall_forall. intros [k t] Hk.
    apply elem_of_map_to_list in Hk. by apply (Hwf k t).
  - intros k _. apply lookup_empty.
Qed.

(** C21. The catalog file round-trips: a well-formed catalog written to [db.meta] is
    read back unchanged, although only names, types, lengths and index column lists
    are stored, and the offsets, flags, column copies and index totals are rebuilt.
    Conversely, every text the reader accepts gives a well-formed catalog, and one it
    rejects leaves the catalog in memory as it was. *)
Theorem catalog_roundtrip (parse : bytes → option Json) (dump : Json → bytes) db old input :
  parse (dump (write_db db) ++ [Byte.x0a]) = Some (write_db db) →
  (db_wf db → load_db parse (print_db dump db) old = (Ok tt, db)) ∧
  (let '(r, db') := load_db parse input old in
   match r with Ok _ => db_wf db' | _ => db' = old end).
Proof.
  intros Hp. split.
  - intros Hwf. unfold load_db, print_db. by rewrite Hp, read_write_db.
  - unfold load_db. destruct (parse input) as [root|]; [|done].
    destruct (read_db root) as [db'|e|] eqn:E; try done. unfold read_db in E.
    apply bind_ok in E as (nm & _ & E). destruct (bool_decide (nm = _)) eqn:En; [done|]. split_bools.
    apply bind_ok in E as (values & _ & E).
    apply read_tables_wf in E as [Hn Hw]; [|cbn; apply map_Forall_empty].
    split; [by rewrite Hn|done].
Qed.

Definition sample_table : TabMeta :=
  mkTab "t" [mkCol "t" "id" TYPE_INT 4 0 true; mkCol "t" "name" TYPE_STRING 8 4 false]
    [IndexMeta_make "t" [mkCol "t" "id" TYPE_INT 4 0 true] true].

Definition sample_db : DbMeta := mkDb "db" {["t"%string := sample_table]}.

Lemma sample_db_wf : db_wf sample_db.
Proof.
  split; [done|]. cbn [tabs sample_db]. apply map_Forall_singleton. split; [done|]. split_and!.
  - done.
  - done.
  - apply (bool_decide_unpack _). vm_compute. exact I.
  - vm_compute. repeat split; discriminate.
  - repeat constructor.
  - constructor; [|constructor]. split_and!; [done|apply NoDup_singleton| |done].
    constructor; [|constructor]. by left.
  - apply NoDup_singleton.
Qed.

Lemma catalog_roundtrip_witness :
  let dump (_ : Json) : bytes := str "{}" in
  let parse (_ : bytes) := Some (write_db sample_db) in
  load_db parse (print_db dump sample_db) (mkDb "other" ∅) = (Ok tt, sample_db).
Proof.
  exact (proj1 (catalog_roundtrip (λ _, Some (write_db sample_db)) (λ _, str "{}") sample_db (mkDb "other" ∅) []
    eq_refl) sample_db_wf).
Defined.

(** ** Index keys *)

Definition key_piece (record : bytes) (c : ColMeta) : bytes := ztake (col_len c) (zdrop (col_offset c) record).

(** The column lies inside the record. *)
Definition inside (record : bytes) (c : ColMeta) : Prop :=
  0 ≤ col_offset c ∧ 0 ≤ col_len c ∧ col_offset c + col_len c ≤ zlen record.

Lemma zlen_key_piece record c : inside record c → zlen (key_piece record c) = col_len c.
Proof. intros (H1 & H2 & H3). unfold key_piece. rewrite zlen_ztake; [done|]. rewrite zlen_zdrop; lia. Qed.

Lemma foldl_len_shift cols n : foldl (λ n c, n + col_len c) n cols = n + foldl (λ n c, n + col_len c) 0 cols.
Proof.
  revert n. induction cols as [|c cols IH]; intros n; cbn [foldl]; [lia|].
  rewrite IH, (IH (0 + col_len c)). lia.
Qed.

Lemma foldl_len_nonneg record cols : Forall (inside record) cols → 0 ≤ foldl (λ n c, n + col_len c) 0 cols.
Proof.
  induction 1 as [|c cols (? & ? & ?) _ IH]; cbn [foldl]; [lia|]. rewrite foldl_len_shift. lia.
Qed.

Lemma encode_key_loop_spec cols record pre post :
  Forall (inside record) cols → foldl (λ n c, n + col_len c) 0 cols ≤ zlen post →
  encode_key_loop cols record (zlen pre) (pre ++ post) =
    pre ++ concat (key_piece record <$> cols) ++ zdrop (foldl (λ n c, n + col_len c) 0 cols) post.
Proof.
  intros H. revert pre post. induction H as [|c cols Hc Hcs IH]; intros pre post Hl; cbn [encode_key_loop foldl fmap list_fmap concat].
  { by rewrite zdrop_0. }
  cbn [foldl] in Hl. rewrite foldl_len_shift in Hl |- *. pose proof (foldl_len_nonneg record cols Hcs) as Hn.
  fold (key_piece record c). pose proof (zlen_key_piece record c Hc) as Hp. pose proof Hc as (? & ? & ?).
  pose proof (zlen_nonneg pre).
  rewrite ztake_app_exact by done. rewrite <- zdrop_zdrop, zdrop_app_exact by lia.
  rewrite app_assoc. replace (zlen pre + col_len c) with (zlen (pre ++ key_piece record c)) by (rewrite zlen_app; lia).
  rewrite IH by (rewrite zlen_zdrop; lia).
  rewrite zdrop_zdrop, <- !app_assoc by lia. done.
Qed.

(** The key of an index is the concatenation of its columns' bytes in the record,
    in the index's column order, and takes exactly the index's total length. *)
Theorem make_key_concat index record :
  index = rebuild_derived index → Forall (inside record) (idx_cols index) →
  make_key index record = concat (key_piece record <$> idx_cols index) ∧
  zlen (make_key index record) = idx_tot_len index.
Proof.
  intros Hd Hin. assert (idx_tot_len index = foldl (λ n c, n + col_len c) 0 (idx_cols index)) as Ht
    by (by rewrite Hd at 1).
  pose proof (foldl_len_nonneg record _ Hin) as Hn.
  assert (make_key index record = concat (key_piece record <$> idx_cols index)) as ->.
  { unfold make_key, encode_key. set (buf := replicate _ _).
    assert (zlen buf = idx_tot_len index) as Hb by (unfold buf, zlen; rewrite length_replicate; lia).
    change (encode_key_loop (idx_cols index) record (zlen (@nil byte)) ([] ++ buf) =
      concat (key_piece record <$> idx_cols index)).
    rewrite encode_key_loop_spec by (done || lia). cbn [app].
    rewrite zdrop_all by lia. by rewrite app_nil_r. }
  split; [done|]. rewrite Ht. clear Hd Ht Hn.
  induction Hin as [|c cols Hc _ IH]; [done|]. cbn [fmap list_fmap concat foldl].
  rewrite zlen_app, zlen_key_piece, foldl_len_shift by done. by rewrite IH.
Qed.

Lemma make_key_concat_witness :
  make_key (IndexMeta_make "t" [mkCol "t" "b" TYPE_STRING 2 4 true; mkCol "t" "a" TYPE_INT 4 0 true] false)
    (str "aaaabb") = str "bbaaaa".
Proof.
  destruct (make_key_concat
    (IndexMeta_make "t" [mkCol "t" "b" TYPE_STRING 2 4 true; mkCol "t" "a" TYPE_INT 4 0 true] false)
    (str "aaaabb") eq_refl) as [-> H].
  - repeat constructor; vm_compute; discriminate.
  - reflexivity.
Defined.
