(* ===== verification/Ast.v ===== *)
(** * SQL syntax trees

    Models [src/src/parser/expression.h] and [src/src/parser/ast.h]: expressions,
    FROM trees and statements as the parser builds them.  A [shared_ptr] that the
    analyzer tests for null is an [option]. *)

From S2P Require Import Prelude.

Inductive AstCompOp := Eq | Ne | Lt | Gt | Le | Ge.
Inductive LogicalOp := And | Or.
Inductive UnaryOp := Not.

Inductive DataType := DInt | DFloat | DString.
Inductive OrderByDir := Default | Asc | Desc.
Inductive JoinType := Cross | Inner | Left | Right | Full.

Record LimitClause := mkLimit { limit_count : Z; limit_offset : option Z }.

(** Literals carry the value the lexer accepted; a [float] is its bit pattern. *)
Inductive Expr :=
| IntLit (val : Z)
| FloatLit (bits : Z)
| StringLit (val : string)
| Col (tab_name col_name : string)
| StarExpr (tab_name : string)
| BinaryExpr (lhs : option (string * string)) (op : AstCompOp) (rhs : option Expr)
| LogicalExpr (op : LogicalOp) (lhs rhs : option Expr)
| UnaryExpr (op : UnaryOp) (operand : option Expr)
| FunctionCallExpr (name : string) (arguments : list (option Expr)) (distinct : bool)
| SubqueryExpr (query : SelectStmt)
with FromNode :=
| TableRef (source : string + SelectStmt) (alias : string)
| JoinNode (type : JoinType) (left right : option FromNode) (condition : option Expr)
with SelectStmt :=
| mkSelect (select_items : list (option Expr)) (from : option FromNode) (where_ : option Expr)
    (group_by : list (option Expr)) (having : option Expr)
    (order_by : list (option (option Expr * OrderByDir))) (limit : option LimitClause).

Definition select_items (s : SelectStmt) := let '(mkSelect x _ _ _ _ _ _) := s in x.
Definition select_from (s : SelectStmt) := let '(mkSelect _ x _ _ _ _ _) := s in x.
Definition select_where (s : SelectStmt) := let '(mkSelect _ _ x _ _ _ _) := s in x.
Definition select_group_by (s : SelectStmt) := let '(mkSelect _ _ _ x _ _ _) := s in x.
Definition select_having (s : SelectStmt) := let '(mkSelect _ _ _ _ x _ _) := s in x.
Definition select_order_by (s : SelectStmt) := let '(mkSelect _ _ _ _ _ x _) := s in x.
Definition select_limit (s : SelectStmt) := let '(mkSelect _ _ _ _ _ _ x) := s in x.

Record TypeLen := mkTypeLen { tl_type : DataType; declared_len : Z }.
Record AstColDef := mkColDef { cd_name : string; cd_type_len : TypeLen }.
Record AstSetClause := mkAstSet { target_column : option (string * string); assigned_expr : option Expr }.

Record InsertStmt := mkInsert { ins_tab : string; ins_values : list (option Expr) }.
Record DeleteStmt := mkDelete { del_tab : string; del_where : option Expr }.
Record UpdateStmt := mkUpdate { upd_tab : string; upd_sets : list (option AstSetClause); upd_where : option Expr }.

Inductive Statement :=
| HelpStmt
| ShowTablesStmt
| ShowDatabaseStmt
| SetKnobStmt (name value : string)
| TxnBeginStmt
| TxnCommitStmt
| TxnAbortStmt
| TxnRollbackStmt
| CreateTableStmt (tab_name : string) (fields : list AstColDef)
| DropTableStmt (tab_name : string)
| DescTableStmt (tab_name : string)
| CreateIndexStmt (tab_name : string) (col_names : list string) (unique : bool)
| DropIndexStmt (tab_name : string) (col_names : list string)
| Insert_ (s : InsertStmt)
| Delete_ (s : DeleteStmt)
| Update_ (s : UpdateStmt)
| Select_ (s : SelectStmt).
