(* ===== verification/Analyzer.v ===== *)
(** * The analyzer: from syntax trees to bound queries

    Models [src/src/analyze/analyzer.cpp] and [analyzed_query.h]: table and column
    binding, the flattening of WHERE into a list of conditions, type checks and the
    encoding of literals.  The catalog is the [DbMeta] of [Catalog]. *)

From S2P Require Import Prelude Common Catalog Ast.

Record AnalyzedQuery := mkQuery {
  bound_statement : Statement;
  bound_target_table : string;
  bound_conds : list Condition;
  bound_cols : list TabCol;
  bound_tables : list string;
  bound_order_col : option TabCol;
  bound_order_desc : bool;
  bound_set_clauses : list SetClause;
  bound_values : list Value;
  bound_knob_name : string;
  bound_knob_value : bool }.

Definition new_query (s : Statement) : AnalyzedQuery := mkQuery s "" [] [] [] None false [] [] "" false.

(** ** Expressions *)

Definition convert_ast_value (e : Expr) : result Value :=
  match e with
  | IntLit z => Ok (set_int Value_default z)
  | FloatLit b => Ok (set_float Value_default b)
  | StringLit s => Ok (set_str Value_default (str s))
  | _ => Throw (InternalError "Non-literal expression stored as an AST value")
  end.

Definition convert_ast_comp_op (op : AstCompOp) : CompOp :=
  match op with Eq => OP_EQ | Ne => OP_NE | Lt => OP_LT | Gt => OP_GT | Le => OP_LE | Ge => OP_GE end.

Definition is_literal (e : Expr) : bool :=
  match e with IntLit _ | FloatLit _ | StringLit _ => true | _ => false end.

(** One comparison, [Condition cond{}] first. *)
Definition comparison_cond (lhs : string * string) (op : AstCompOp) (rhs : Expr) : result Condition :=
  let no_col := mkTabCol "" "" in
  let lhs_col := mkTabCol lhs.1 lhs.2 in
  match rhs with
  | IntLit _ | FloatLit _ | StringLit _ =>
    v ← convert_ast_value rhs; Ok (mkCond lhs_col (convert_ast_comp_op op) true no_col v)
  | Col t c => Ok (mkCond lhs_col (convert_ast_comp_op op) false (mkTabCol t c) Value_default)
  | _ => Throw (NotImplementedError "This comparison right-hand side is not supported yet")
  end.

Definition null_predicate {A} : result A := Throw (InternalError "Predicate tree contains a null expression").

Fixpoint append_clause (e : Expr) (conds : list Condition) : result (list Condition) :=
  match e with
  | LogicalExpr And l r =>
    conds ← match l with Some l => append_clause l conds | None => null_predicate end;
    match r with Some r => append_clause r conds | None => null_predicate end
  | LogicalExpr Or _ _ => Throw (NotImplementedError "OR predicates are not supported yet")
  | UnaryExpr _ _ => Throw (NotImplementedError "NOT predicates are not supported yet")
  | BinaryExpr lhs op rhs =>
    match lhs, rhs with
    | Some lhs, Some rhs => cond ← comparison_cond lhs op rhs; Ok (conds ++ [cond])
    | _, _ => Throw (InternalError "Comparison contains a null operand")
    end
  | _ => Throw (NotImplementedError "This predicate expression is not supported yet")
  end.

(** [conds.clear()], then the tree if there is one. *)
Definition get_clause (e : option Expr) : result (list Condition) :=
  match e with Some e => append_clause e [] | None => Ok [] end.

(** ** Binding *)

(** The loop of [check_column] over the visible columns; [found] is [tab_name]. *)
Fixpoint resolve (all_cols : list ColMeta) (name : string) (found : string) : result string :=
  match all_cols with
  | [] => Ok found
  | c :: cols =>
    if bool_decide (col_name c = name) then
      if negb (bool_decide (found = ""%string)) then Throw (AmbiguousColumnError name)
      else resolve cols name (col_tab c)
    else resolve cols name found
  end.

Definition check_column (all_cols : list ColMeta) (target : TabCol) : result TabCol :=
  if bool_decide (tc_tab_name target = ""%string) then
    found ← resolve all_cols (tc_col_name target) "";
    _ ← throw_if (bool_decide (found = ""%string)) (ColumnNotFoundError (tc_col_name target));
    Ok (mkTabCol found (tc_col_name target))
  else
    match list_find (λ c, col_tab c = tc_tab_name target ∧ col_name c = tc_col_name target) all_cols with
    | Some _ => Ok target
    | None => Throw (ColumnNotFoundError (tc_tab_name target +:+ "." +:+ tc_col_name target))
    end.

Fixpoint get_table_names (from : FromNode) : result (list string) :=
  match from with
  | TableRef source alias =>
    _ ← throw_if (negb (bool_decide (alias = ""%string))) (NotImplementedError "Table aliases are not supported yet");
    match source with
    | inl name => Ok [name]
    | inr _ => Throw (NotImplementedError "Derived-table subqueries are not supported yet")
    end
  | JoinNode type lhs_node rhs_node condition =>
    _ ← match type with
        | Cross | Inner => Ok tt
        | _ => Throw (NotImplementedError "Outer joins are not supported yet")
        end;
    _ ← match condition with
        | Some _ => Throw (NotImplementedError "JOIN ON predicates are not supported yet")
        | None => Ok tt
        end;
    ls ← match lhs_node with
         | Some l => get_table_names l
         | None => Throw (InternalError "FROM tree contains a null node")
         end;
    rs ← match rhs_node with
         | Some r => get_table_names r
         | None => Throw (InternalError "FROM tree contains a null node")
         end;
    Ok (ls ++ rs)
  end.

Section Analyzer.
Context (db : DbMeta).

Fixpoint get_all_cols (tab_names : list string) : result (list ColMeta) :=
  match tab_names with
  | [] => Ok []
  | n :: ns => t ← get_table db n; cs ← get_all_cols ns; Ok (tab_cols t ++ cs)
  end.

Definition check_cond (all_cols : list ColMeta) (cond : Condition) : result Condition :=
  lhs ← check_column all_cols (lhs_col cond);
  rhs ← (if is_rhs_val cond then Ok (rhs_col cond) else check_column all_cols (rhs_col cond));
  lt ← get_table db (tc_tab_name lhs);
  lc ← get_col lt (tc_col_name lhs);
  rhs_type ← (if is_rhs_val cond then Ok (v_type (rhs_val cond))
              else rt ← get_table db (tc_tab_name rhs); rc ← get_col rt (tc_col_name rhs); Ok (col_type rc));
  _ ← throw_if (negb (bool_decide (col_type lc = rhs_type)))
        (IncompatibleTypeError (coltype2str (col_type lc)) (coltype2str rhs_type));
  v ← (if is_rhs_val cond then init_raw (rhs_val cond) (col_len lc) else Ok (rhs_val cond));
  Ok (mkCond lhs (cond_op cond) (is_rhs_val cond) rhs v).

Definition check_clause (all_cols : list ColMeta) (conds : list Condition) : result (list Condition) :=
  for_each (check_cond all_cols) conds.

(** One item of the SELECT list. *)
Definition bind_item (tables : list string) (all_cols : list ColMeta) (item : option Expr)
  : result (list TabCol) :=
  match item with
  | None => Throw (InternalError "SELECT projection contains a null expression")
  | Some (Col t c) => Ok [mkTabCol t c]
  | Some (StarExpr t) =>
    _ ← throw_if (negb (bool_decide (t = ""%string)) && negb (bool_decide (t ∈ tables))) (TableNotFoundError t);
    Ok ((λ c, mkTabCol (col_tab c) (col_name c)) <$>
        filter (λ c, t = ""%string ∨ col_tab c = t) all_cols)
  | Some _ => Throw (NotImplementedError "This SELECT item expression is not supported yet")
  end.

Definition bind_order (all_cols : list ColMeta) (order_by : list (option (option Expr * OrderByDir)))
  : result (option TabCol * bool) :=
  match order_by with
  | [] => Ok (None, false)
  | [item] =>
    match item with
    | Some (Some e, dir) =>
      match e with
      | Col t c =>
        b ← check_column all_cols (mkTabCol t c);
        Ok (Some b, match dir with Desc => true | _ => false end)
      | _ => Throw (NotImplementedError "ORDER BY expressions are not supported yet")
      end
    | _ => Throw (InternalError "ORDER BY contains a null expression")
    end
  | _ => Throw (NotImplementedError "Multiple ORDER BY items are not supported yet")
  end.

Definition analyze_select (s : SelectStmt) : result AnalyzedQuery :=
  tables ← match select_from s with
           | Some from => get_table_names from
           | None => Throw (InternalError "SELECT statement has no FROM source")
           end;
  all_cols ← get_all_cols tables;
  _ ← throw_if (bool_decide (length (select_items s) = 0%nat))
        (InternalError "SELECT statement has an empty projection list");
  items ← for_each (bind_item tables all_cols) (select_items s);
  cols ← for_each (check_column all_cols) (concat items);
  _ ← throw_if (negb (bool_decide (length (select_group_by s) = 0%nat)) ||
                match select_having s with Some _ => true | None => false end ||
                match select_limit s with Some _ => true | None => false end)
        (NotImplementedError "GROUP BY, HAVING, and LIMIT are not supported yet");
  '(order_col, order_desc) ← bind_order all_cols (select_order_by s);
  conds ← get_clause (select_where s);
  conds ← check_clause all_cols conds;
  Ok (mkQuery (Select_ s) "" conds cols tables order_col order_desc [] [] "" false).

Definition bind_set (t : TabMeta) (sc : option AstSetClause) : result SetClause :=
  match sc with
  | Some (mkAstSet (Some (tn, cn)) (Some e)) =>
    target ← check_column (tab_cols t) (mkTabCol tn cn);
    _ ← throw_if (negb (is_literal e)) (NotImplementedError "UPDATE SET expressions are not supported yet");
    v ← convert_ast_value e;
    c ← get_col t (tc_col_name target);
    _ ← throw_if (negb (bool_decide (col_type c = v_type v)))
          (IncompatibleTypeError (coltype2str (col_type c)) (coltype2str (v_type v)));
    v ← init_raw v (col_len c);
    Ok (mkSet_ target v)
  | _ => Throw (InternalError "UPDATE SET contains a null AST node")
  end.

Definition analyze_update (s : UpdateStmt) : result AnalyzedQuery :=
  t ← get_table db (upd_tab s);
  sets ← for_each (bind_set t) (upd_sets s);
  conds ← get_clause (upd_where s);
  conds ← check_clause (tab_cols t) conds;
  Ok (mkQuery (Update_ s) (tab_name t) conds [] [] None false sets [] "" false).

Definition analyze_delete (s : DeleteStmt) : result AnalyzedQuery :=
  t ← get_table db (del_tab s);
  conds ← get_clause (del_where s);
  conds ← check_clause (tab_cols t) conds;
  Ok (mkQuery (Delete_ s) (tab_name t) conds [] [] None false [] [] "" false).

(** One value of an INSERT against its column. *)
Definition bind_value (p : option Expr * ColMeta) : result Value :=
  match p with
  | (None, _) => Throw (InternalError "INSERT contains a null value node")
  | (Some e, c) =>
    v ← convert_ast_value e;
    _ ← throw_if (negb (bool_decide (v_type v = col_type c)))
          (IncompatibleTypeError (coltype2str (col_type c)) (coltype2str (v_type v)));
    init_raw v (col_len c)
  end.

Definition analyze_insert (s : InsertStmt) : result AnalyzedQuery :=
  t ← get_table db (ins_tab s);
  _ ← throw_if (negb (bool_decide (length (ins_values s) = length (tab_cols t)))) InvalidValueCountError;
  values ← for_each bind_value (zip (ins_values s) (tab_cols t));
  Ok (mkQuery (Insert_ s) (tab_name t) [] [] [] None false [] values "" false).

(** [std::tolower] on the bytes of a name, in the C locale. *)
Definition lower_ascii (a : Ascii.ascii) : Ascii.ascii :=
  let n := Ascii.nat_of_ascii a in
  if (65 <=? n)%nat && (n <=? 90)%nat then Ascii.ascii_of_nat (n + 32) else a.

Fixpoint lower (s : string) : string :=
  match s with
  | EmptyString => EmptyString
  | String a s => String (lower_ascii a) (lower s)
  end.

Definition kKnobs : list string := ["enable_sortmerge"%string].

Definition analyze_set_knob (name value : string) : result AnalyzedQuery :=
  let n := lower name in
  let v := lower value in
  _ ← throw_if (negb (bool_decide (n ∈ kKnobs)) ||
                (negb (bool_decide (v = "true"%string)) && negb (bool_decide (v = "false"%string))))
        (InvalidKnobError name value);
  Ok (mkQuery (SetKnobStmt name value) "" [] [] [] None false [] [] n (bool_decide (v = "true"%string))).

Definition analyze (statement : option Statement) : result AnalyzedQuery :=
  match statement with
  | None => Throw (InternalError "Analyzer received a null AST statement")
  | Some (Select_ s) => analyze_select s
  | Some (Update_ s) => analyze_update s
  | Some (Delete_ s) => analyze_delete s
  | Some (Insert_ s) => analyze_insert s
  | Some (SetKnobStmt name value) => analyze_set_knob name value
  | Some s => Ok (new_query s)
  end.

End Analyzer.
