(* ===== verification/AnalyzerFacts.v ===== *)
(** * Correctness of the analyzer

    Name resolution, the meaning of the flattened WHERE clause, the typing of every
    bound query over a well-formed catalog, and that analysis never fails an assert. *)

From S2P Require Import Prelude Common Catalog CatalogFacts Ast Analyzer.

(** ** Name resolution *)

Definition matching (all_cols : list ColMeta) (name : string) : list ColMeta :=
  filter (λ c, col_name c = name) all_cols.

(** Every visible column belongs to a named table. *)
Definition owned (all_cols : list ColMeta) : Prop := Forall (λ c, col_tab c ≠ ""%string) all_cols.

Lemma resolve_found all_cols name found :
  found ≠ ""%string →
  resolve all_cols name found = match matching all_cols name with [] => Ok found | _ => Throw (AmbiguousColumnError name) end.
Proof.
  intros Hf. induction all_cols as [|c cols IH]; [done|]. cbn [resolve]. unfold matching in *.
  rewrite filter_cons. destruct (decide (col_name c = name)) as [Heq|Hne].
  - rewrite bool_decide_true by done. by rewrite bool_decide_false.
  - rewrite bool_decide_false by done. apply IH.
Qed.

Lemma resolve_spec all_cols name :
  owned all_cols →
  resolve all_cols name "" =
  match matching all_cols name with
  | [] => Ok ""%string
  | [c] => Ok (col_tab c)
  | _ => Throw (AmbiguousColumnError name)
  end.
Proof.
  intros Ho. induction Ho as [|c cols Hc _ IH]; [done|]. cbn [resolve]. unfold matching in *.
  rewrite filter_cons. destruct (decide (col_name c = name)) as [Heq|Hne].
  - rewrite (bool_decide_true (col_name c = name)) by done. cbn [negb bool_decide].
    rewrite bool_decide_true by done. cbn [negb]. rewrite resolve_found by done. unfold matching.
    by destruct (filter _ cols).
  - rewrite (bool_decide_false (col_name c = name)) by done. apply IH.
Qed.

Lemma check_column_qualified all_cols tn cn :
  tn ≠ ""%string →
  check_column all_cols (mkTabCol tn cn) = Ok (mkTabCol tn cn) ↔
  ∃ c, c ∈ all_cols ∧ col_tab c = tn ∧ col_name c = cn.
Proof.
  intros Hne. unfold check_column. cbn [tc_tab_name tc_col_name]. rewrite bool_decide_false by done.
  destruct (list_find _ all_cols) as [[i c]|] eqn:E.
  - split; [|done]. intros _. apply list_find_Some in E as (Hl & Hp & _). exists c.
    split; [by eapply list_elem_of_lookup_2|done].
  - split; [done|]. intros (c & Hc & Ht & Hn). apply list_find_None in E. rewrite Forall_forall in E.
    by destruct (E c Hc).
Qed.

(** A bound column is one of the visible ones. *)
Lemma check_column_sound all_cols target b :
  owned all_cols → check_column all_cols target = Ok b →
  tc_col_name b = tc_col_name target ∧ tc_tab_name b ≠ ""%string ∧
  ∃ c, c ∈ all_cols ∧ col_tab c = tc_tab_name b ∧ col_name c = tc_col_name b.
Proof.
  intros Ho. destruct target as [tn cn]. destruct (decide (tn = ""%string)) as [->|Hne].
  - unfold check_column. cbn [tc_tab_name tc_col_name]. rewrite bool_decide_true by done.
    rewrite resolve_spec by done.
    destruct (matching all_cols cn) as [|c [|]] eqn:E; [done| |done]. cbn.
    assert (c ∈ matching all_cols cn) as Hc by (rewrite E; by left).
    apply list_elem_of_filter in Hc as [Hn Hin].
    destruct (bool_decide (col_tab c = "")) eqn:Et; [done|]. split_bools. intros [= <-].
    split_and!; [done|done|]. by exists c.
  - intros H. assert (b = mkTabCol tn cn) as ->.
    { revert H. unfold check_column. cbn [tc_tab_name]. rewrite bool_decide_false by done.
      destruct (list_find _ _); [|done]. congruence. }
    apply check_column_qualified in H; [|done]. done.
Qed.

(** Column binding is exact: an unqualified name is bound to the one visible
    column of that name, is reported ambiguous when two or more columns have it and
    unknown when none has; a qualified name is accepted exactly when the table and the
    column are visible together, and is then bound to itself. *)
Theorem check_column_exact all_cols name :
  owned all_cols →
  check_column all_cols (mkTabCol "" name) =
    match matching all_cols name with
    | [] => Throw (ColumnNotFoundError name)
    | [c] => Ok (mkTabCol (col_tab c) name)
    | _ => Throw (AmbiguousColumnError name)
    end ∧
  (∀ tn, tn ≠ ""%string →
    (check_column all_cols (mkTabCol tn name) = Ok (mkTabCol tn name) ↔
     ∃ c, c ∈ all_cols ∧ col_tab c = tn ∧ col_name c = name)).
Proof.
  intros Ho. split; [|intros tn Hne; by apply check_column_qualified].
  unfold check_column. cbn [tc_tab_name tc_col_name]. rewrite bool_decide_true by done.
  rewrite resolve_spec by done. destruct (matching all_cols name) as [|c [|]] eqn:E; [done| |done].
  assert (c ∈ matching all_cols name) as Hc by (rewrite E; by left).
  apply list_elem_of_filter in Hc as [_ Hin]. unfold owned in Ho. rewrite Forall_forall in Ho.
  cbn. by rewrite bool_decide_false by auto.
Qed.

Definition two_tables : list ColMeta :=
  [mkCol "a" "id" TYPE_INT 4 0 false; mkCol "a" "x" TYPE_INT 4 4 false; mkCol "b" "id" TYPE_INT 4 0 false].

Lemma check_column_exact_witness :
  check_column two_tables (mkTabCol "" "x") = Ok (mkTabCol "a" "x") ∧
  check_column two_tables (mkTabCol "" "id") = Throw (AmbiguousColumnError "id").
Proof.
  assert (owned two_tables) as Ho by (repeat constructor; discriminate).
  split; [exact (proj1 (check_column_exact two_tables "x" Ho))|exact (proj1 (check_column_exact two_tables "id" Ho))].
Defined.

(** ** WHERE *)

(** The reference meaning of a predicate tree, for a given meaning of comparisons. *)
Fixpoint eval_predicate (ev : Condition → bool) (e : Expr) : option bool :=
  match e with
  | LogicalExpr op (Some l) (Some r) =>
    a ← eval_predicate ev l; b ← eval_predicate ev r;
    Some (match op with And => a && b | Or => a || b end)
  | UnaryExpr Not (Some e) => negb <$> eval_predicate ev e
  | BinaryExpr (Some lhs) op (Some rhs) =>
    match comparison_cond lhs op rhs with Ok c => Some (ev c) | _ => None end
  | _ => None
  end.

(** The trees the analyzer accepts: conjunctions of comparisons. *)
Fixpoint conjunctive (e : Expr) : bool :=
  match e with
  | LogicalExpr And (Some l) (Some r) => conjunctive l && conjunctive r
  | BinaryExpr (Some _) _ (Some (IntLit _ | FloatLit _ | StringLit _ | Col _ _)) => true
  | _ => false
  end.

Lemma comparison_cond_ok lhs op rhs :
  (∃ c, comparison_cond lhs op rhs = Ok c) ↔
  match rhs with IntLit _ | FloatLit _ | StringLit _ | Col _ _ => True | _ => False end.
Proof. destruct rhs; cbn; split; try done; try (intros [? ?]; done); intros _; by eexists. Qed.

Lemma append_clause_eval e acc cs :
  append_clause e acc = Ok cs →
  ∃ new, cs = acc ++ new ∧ conjunctive e = true ∧ ∀ ev, eval_predicate ev e = Some (forallb ev new).
Proof.
  revert e acc cs. fix IH 1. intros e acc cs. destruct e as [z|b|s|t c|t|lhs op rhs|op l r|op o|n a d|q]; try done.
  - cbn [append_clause]. destruct lhs as [lhs|]; [|done]. destruct rhs as [rhs|]; [|done]. intros H.
    apply bind_ok in H as (c & Hc & [= <-]). exists [c]. cbn [conjunctive eval_predicate]. rewrite Hc. split_and!; [done| |].
    + assert (∃ c, comparison_cond lhs op rhs = Ok c) as He by eauto. apply comparison_cond_ok in He. by destruct rhs.
    + intros ev. cbn. by rewrite andb_true_r.
  - destruct op; [|done]. cbn [append_clause]. destruct l as [l|]; [|done].
    intros H. apply bind_ok in H as (cs1 & H1 & H2). destruct r as [r|]; [|done].
    apply IH in H1 as (n1 & -> & C1 & E1). apply IH in H2 as (n2 & -> & C2 & E2).
    exists (n1 ++ n2). rewrite app_assoc. cbn [conjunctive eval_predicate]. rewrite C1, C2. split_and!; [done|done|].
    intros ev. rewrite E1, E2. cbn. by rewrite forallb_app.
Qed.

Lemma append_clause_total e acc : conjunctive e = true → ∃ cs, append_clause e acc = Ok cs.
Proof.
  revert e acc. fix IH 1. intros e acc. destruct e as [z|b|s|t c|t|lhs op rhs|op l r|op o|n a d|q]; try done.
  - cbn [conjunctive append_clause]. destruct lhs as [lhs|]; [|done]. destruct rhs as [rhs|]; [|done]. intros H.
    destruct (proj2 (comparison_cond_ok lhs op rhs)) as [c Hc]; [by destruct rhs|]. rewrite Hc. by eexists.
  - destruct op; [|done]. destruct l as [l|]; [|done]. destruct r as [r|]; [|done]. cbn [conjunctive append_clause].
    intros H. split_bools. destruct (IH l acc) as [cs1 H1]; [done|]. rewrite H1. change (?m ≫= ?f) with (f cs1). cbn beta. by apply IH.
Qed.

(** Flattening WHERE preserves its meaning: the list of conditions is produced
    exactly for conjunctions of supported comparisons, and for every meaning of the
    comparisons all of its conditions hold if and only if the predicate tree does. *)
Theorem where_flattening e :
  (conjunctive e = true ↔ ∃ conds, get_clause (Some e) = Ok conds) ∧
  (∀ conds, get_clause (Some e) = Ok conds → ∀ ev, eval_predicate ev e = Some (forallb ev conds)).
Proof.
  cbn [get_clause]. split; [split|].
  - intros H. by apply append_clause_total.
  - intros (cs & H). by apply append_clause_eval in H as (new & _ & Hc & _).
  - intros cs H ev. by apply append_clause_eval in H as (new & -> & _ & He).
Qed.

Definition sample_predicate : Expr :=
  LogicalExpr And (Some (BinaryExpr (Some ("a"%string, "id"%string)) Eq (Some (Col "b" "id"))))
    (Some (BinaryExpr (Some (""%string, "x"%string)) Gt (Some (IntLit 3)))).

Lemma where_flattening_witness :
  conjunctive sample_predicate = true ↔ ∃ conds, get_clause (Some sample_predicate) = Ok conds.
Proof. exact (proj1 (where_flattening sample_predicate)). Defined.

(** ** Typing of bound queries *)

Section Typing.
Context (db : DbMeta) (Hdb : db_wf db).

(** A bound column: a column of a table of the catalog among [tables]. *)
Definition bound_in (tables : list string) (b : TabCol) (c : ColMeta) : Prop :=
  tc_tab_name b ∈ tables ∧ ∃ t, tabs db !! tc_tab_name b = Some t ∧ c ∈ tab_cols t ∧ col_name c = tc_col_name b.

(** A bound condition: both sides resolved, of one type, and a literal already encoded
    at the length of its column. *)
Definition cond_typed (tables : list string) (cond : Condition) : Prop :=
  ∃ c, bound_in tables (lhs_col cond) c ∧
    if is_rhs_val cond
    then v_type (rhs_val cond) = col_type c ∧ ∃ bs, v_raw (rhs_val cond) = Some bs ∧ zlen bs = col_len c
    else ∃ d, bound_in tables (rhs_col cond) d ∧ col_type d = col_type c.

Lemma db_table n t : tabs db !! n = Some t → tab_name t = n ∧ tab_wf t.
Proof. intros H. exact (proj2 Hdb n t H). Qed.

Lemma laid_out_elem tab off cols c : laid_out tab off cols → c ∈ cols → col_tab c = tab ∧ len_ok (col_type c) (col_len c).
Proof.
  revert off. induction cols as [|d cols IH]; intros off Hl Hc; [by apply not_elem_of_nil in Hc|].
  destruct Hl as (Ht & _ & Hi & _ & Hl). apply elem_of_cons in Hc as [->|Hc]; [|by eapply IH].
  split; [done|]. unfold column_invalid in Hi. split_bools. split; [done|].
  destruct (col_len d =? 4) eqn:E4; split_bools; [by destruct (col_type d)|]. cbn [negb] in *.
  rewrite !andb_true_r in *. split_bools. by destruct (col_type d).
Qed.

Lemma table_col n t c :
  tabs db !! n = Some t → c ∈ tab_cols t → col_tab c = n ∧ n ≠ ""%string ∧ len_ok (col_type c) (col_len c) ∧
    get_col t (col_name c) = Ok c.
Proof.
  intros Ht Hc. destruct (db_table n t Ht) as [<- (Hnm & _ & Hnd & Hl & _)].
  destruct (laid_out_elem _ _ _ _ Hl Hc) as [H1 H2]. split_and!; try done; try apply H2.
  unfold get_col. by rewrite (proj2 (find_col_Some (tab_cols t) (col_name c) c Hnd)).
Qed.

Lemma get_table_ok n t : get_table db n = Ok t ↔ tabs db !! n = Some t.
Proof. unfold get_table. destruct (tabs db !! n); split; congruence. Qed.

Lemma get_all_cols_spec tables all :
  get_all_cols db tables = Ok all →
  Forall (λ n, is_Some (tabs db !! n)) tables ∧
  ∀ c, c ∈ all ↔ ∃ n t, n ∈ tables ∧ tabs db !! n = Some t ∧ c ∈ tab_cols t.
Proof.
  revert all. induction tables as [|n ns IH]; intros all; cbn [get_all_cols].
  { intros [= <-]. split; [constructor|]. intros c. split; [by intros ?%not_elem_of_nil|].
    intros (n & t & Hn & _). by apply not_elem_of_nil in Hn. }
  intros H. apply bind_ok in H as (t & Ht & H). apply bind_ok in H as (cs & Hcs & [= <-]).
  apply get_table_ok in Ht. destruct (IH _ Hcs) as [Hf Hin]. split; [by constructor|].
  intros c. rewrite elem_of_app, Hin. split.
  - intros [Hc|(n' & t' & Hn' & H')]; [exists n, t|exists n', t']; (split; [by constructor|done]).
  - intros (n' & t' & Hn' & Ht' & Hc). apply elem_of_cons in Hn' as [->|Hn'].
    + left. congruence.
    + right. by exists n', t'.
Qed.

Lemma all_cols_owned tables all : get_all_cols db tables = Ok all → owned all.
Proof.
  intros H. apply get_all_cols_spec in H as [_ Hin]. apply Forall_forall. intros c Hc.
  apply Hin in Hc as (n & t & _ & Ht & Hc). destruct (table_col n t c Ht Hc) as (-> & ? & _). done.
Qed.

(** The columns visible to a statement are columns of its tables. *)
Definition visible (tables : list string) (all : list ColMeta) : Prop :=
  owned all ∧ ∀ c, c ∈ all → ∃ t, col_tab c ∈ tables ∧ tabs db !! col_tab c = Some t ∧ c ∈ tab_cols t.

Lemma all_cols_visible tables all : get_all_cols db tables = Ok all → visible tables all.
Proof.
  intros H. split; [by eapply all_cols_owned|]. apply get_all_cols_spec in H as [_ Hin]. intros c Hc.
  apply Hin in Hc as (n & t & Hn & Ht & Hc). destruct (table_col n t c Ht Hc) as (-> & _). by exists t.
Qed.

Lemma table_visible n t : tabs db !! n = Some t → visible [n] (tab_cols t).
Proof.
  intros Ht. split.
  - apply Forall_forall. intros c Hc. destruct (table_col n t c Ht Hc) as (-> & ? & _). done.
  - intros c Hc. destruct (table_col n t c Ht Hc) as (-> & _). exists t. split; [by left|done].
Qed.

Lemma check_column_bound tables all target b :
  visible tables all → check_column all target = Ok b → ∃ c, bound_in tables b c.
Proof.
  intros [Ho Hv] H. apply check_column_sound in H as (_ & _ & c & Hc & Ht & Hn); [|done].
  destruct (Hv c Hc) as (t & Hin & Htab & Hct). exists c. rewrite Ht in *. split; [done|]. by exists t.
Qed.

Lemma bound_lookup tables b c :
  bound_in tables b c → ∃ t, get_table db (tc_tab_name b) = Ok t ∧ get_col t (tc_col_name b) = Ok c.
Proof.
  intros (_ & t & Ht & Hc & Hn). exists t. split; [by apply get_table_ok|].
  destruct (table_col _ _ _ Ht Hc) as (_ & _ & _ & Hg). by rewrite <- Hn.
Qed.

Lemma check_cond_typed tables all cond cond' :
  visible tables all → check_cond db all cond = Ok cond' → cond_typed tables cond'.
Proof.
  intros Hv H. unfold check_cond in H.
  apply bind_ok in H as (lhs & Hl & H). apply bind_ok in H as (rhs & Hr & H).
  destruct (check_column_bound _ _ _ _ Hv Hl) as [c Hc]. destruct (bound_lookup _ _ _ Hc) as (lt & Hlt & Hlc).
  apply bind_ok in H as (lt' & Hlt' & H). assert (lt' = lt) as -> by congruence.
  apply bind_ok in H as (lc & Hlc' & H). assert (lc = c) as -> by congruence.
  apply bind_ok in H as (ty & Hty & H). apply bind_ok in H as ([] & Hcmp & H).
  apply throw_if_ok, negb_false_iff, bool_decide_eq_true in Hcmp.
  apply bind_ok in H as (v & Hv' & [= <-]). exists c. cbn [lhs_col is_rhs_val rhs_val rhs_col]. split; [done|].
  destruct (is_rhs_val cond).
  - injection Hty as <-. apply init_raw_ok in Hv' as (Ht & _ & _ & bs & Hbs & Hlen). split; [congruence|eauto].
  - destruct (check_column_bound _ _ _ _ Hv Hr) as [d Hd]. destruct (bound_lookup _ _ _ Hd) as (rt & Hrt & Hrc).
    exists d. split; [done|]. rewrite Hrt in Hty. change (?m ≫= ?f) with (f rt) in Hty. cbn beta in Hty.
    rewrite Hrc in Hty. cbn in Hty. congruence.
Qed.

Lemma check_clause_typed tables all conds conds' :
  visible tables all → check_clause db all conds = Ok conds' → Forall (cond_typed tables) conds'.
Proof.
  intros Hv H. apply for_each_ok in H. induction H as [|x y xs ys Hxy _ IH]; constructor; [|done].
  by eapply check_cond_typed.
Qed.

Lemma check_columns_bound tables all targets bs :
  visible tables all → for_each (check_column all) targets = Ok bs → Forall (λ b, ∃ c, bound_in tables b c) bs.
Proof.
  intros Hv H. apply for_each_ok in H. induction H as [|x y xs ys Hxy _ IH]; constructor; [|done].
  by eapply check_column_bound.
Qed.

(** ** No assert fails *)

Lemma resolve_no_crash all name found : resolve all name found ≠ Crash.
Proof.
  revert found. induction all as [|c all IH]; intros found; [done|]. cbn [resolve].
  destruct (bool_decide _); [|apply IH]. destruct (negb _); [done|apply IH].
Qed.

Lemma check_column_no_crash all b : check_column all b ≠ Crash.
Proof.
  unfold check_column. destruct (bool_decide _); [|by destruct (list_find _ _)].
  apply bind_no_crash; [apply resolve_no_crash|]. intros f _.
  apply bind_no_crash; [apply throw_if_no_crash|done].
Qed.

Lemma get_table_no_crash n : get_table db n ≠ Crash.
Proof. unfold get_table. by destruct (_ !! _). Qed.
Lemma get_col_no_crash t n : get_col t n ≠ Crash.
Proof. unfold get_col. by destruct (find_col _ _). Qed.
Lemma convert_no_crash e : convert_ast_value e ≠ Crash.
Proof. by destruct e. Qed.

Lemma get_all_cols_no_crash ns : get_all_cols db ns ≠ Crash.
Proof.
  induction ns as [|n ns IH]; [done|]. cbn [get_all_cols].
  apply bind_no_crash; [apply get_table_no_crash|]. intros t _. apply bind_no_crash; [done|done].
Qed.

Lemma append_clause_no_crash e acc : append_clause e acc ≠ Crash.
Proof.
  revert e acc. fix IH 1. intros e acc.
  destruct e as [z|b|s|t c|t|lhs op rhs|op l r|op o|n a d|q]; try (cbn [append_clause]; discriminate).
  - cbn [append_clause]. destruct lhs as [lhs|]; [|discriminate]. destruct rhs as [rhs|]; [|discriminate].
    apply bind_no_crash; [by destruct rhs|discriminate].
  - destruct op; [|discriminate]. cbn [append_clause].
    apply bind_no_crash; [destruct l as [l|]; [apply IH|discriminate]|].
    intros cs _. destruct r as [r|]; [apply IH|discriminate].
Qed.

Lemma convert_fresh e v : convert_ast_value e = Ok v → v_raw v = None.
Proof. by destruct e; intros [= <-]. Qed.

Lemma append_clause_fresh e acc cs :
  append_clause e acc = Ok cs → Forall (λ c, v_raw (rhs_val c) = None) acc →
  Forall (λ c, v_raw (rhs_val c) = None) cs.
Proof.
  revert e acc cs. fix IH 1. intros e acc cs. destruct e as [z|b|s|t c|t|lhs op rhs|op l r|op o|n a d|q]; try done.
  - cbn [append_clause]. destruct lhs as [lhs|]; [|done]. destruct rhs as [rhs|]; [|done].
    intros H Ha. apply bind_ok in H as (c & Hc & [= <-]). apply Forall_app. split; [done|].
    constructor; [|done]. by destruct rhs; try discriminate Hc; injection Hc as <-.
  - destruct op; [|done]. cbn [append_clause]. destruct l as [l|]; [|done].
    intros H Ha. apply bind_ok in H as (cs1 & H1 & H2). destruct r as [r|]; [|done].
    eapply IH; [exact H2|]. by eapply IH.
Qed.

Lemma get_clause_fresh e cs : get_clause e = Ok cs → Forall (λ c, v_raw (rhs_val c) = None) cs.
Proof. destruct e as [e|]; cbn; [|by intros [= <-]]. intros H. by eapply append_clause_fresh. Qed.

Lemma get_clause_no_crash e : get_clause e ≠ Crash.
Proof. destruct e; [apply append_clause_no_crash|done]. Qed.

Lemma get_table_names_no_crash f : get_table_names f ≠ Crash.
Proof.
  revert f. fix IH 1. intros [src alias|ty l r c]; cbn [get_table_names].
  - apply bind_no_crash; [apply throw_if_no_crash|]. intros _ _. destruct src; discriminate.
  - apply bind_no_crash; [destruct ty; discriminate|]. intros _ _.
    apply bind_no_crash; [destruct c; discriminate|]. intros _ _.
    apply bind_no_crash; [destruct l; [apply IH|discriminate]|]. intros ls _.
    apply bind_no_crash; [destruct r; [apply IH|discriminate]|discriminate].
Qed.

Lemma check_cond_no_crash tables all cond :
  visible tables all → v_raw (rhs_val cond) = None → check_cond db all cond ≠ Crash.
Proof.
  intros Hv Hraw. unfold check_cond.
  apply bind_no_crash; [apply check_column_no_crash|]. intros lhs Hl.
  apply bind_no_crash; [destruct (is_rhs_val cond); [done|apply check_column_no_crash]|]. intros rhs Hr.
  destruct (check_column_bound _ _ _ _ Hv Hl) as [c Hc]. destruct (bound_lookup _ _ _ Hc) as (lt & Hlt & Hlc).
  rewrite Hlt. apply bind_no_crash; [done|]. intros ? [= <-]. rewrite Hlc.
  apply bind_no_crash; [done|]. intros ? [= <-].
  apply bind_no_crash.
  { destruct (is_rhs_val cond); [done|]. apply bind_no_crash; [apply get_table_no_crash|]. intros rt _.
    apply bind_no_crash; [apply get_col_no_crash|done]. }
  intros ty Hty. apply bind_no_crash; [apply throw_if_no_crash|]. intros [] Hcmp.
  apply throw_if_ok, negb_false_iff, bool_decide_eq_true in Hcmp.
  apply bind_no_crash; [|done]. destruct (is_rhs_val cond); [|done]. injection Hty as <-.
  apply init_raw_no_crash; [done|]. rewrite <- Hcmp. destruct Hc as (_ & t & Ht & Hct & _).
  by destruct (table_col _ _ _ Ht Hct) as (_ & _ & ? & _).
Qed.

Lemma check_clause_no_crash tables all conds :
  visible tables all → Forall (λ c, v_raw (rhs_val c) = None) conds → check_clause db all conds ≠ Crash.
Proof.
  intros Hv Hf. apply for_each_no_crash. intros c Hc. rewrite Forall_forall in Hf.
  eapply check_cond_no_crash; [done|by apply Hf].
Qed.
End Typing.

(** The last two steps of every DML analysis. *)
Lemma where_no_crash {A} db tables all e (f : list Condition → result A) :
  db_wf db → visible db tables all → (∀ cs, f cs ≠ Crash) →
  (conds ← get_clause e; conds ← check_clause db all conds; f conds) ≠ Crash.
Proof.
  intros Hdb Hv Hf. apply bind_no_crash; [apply get_clause_no_crash|]. intros cs Hcs.
  apply bind_no_crash; [|auto]. eapply check_clause_no_crash; [done|done|by eapply get_clause_fresh].
Qed.

Lemma bind_value_no_crash p : len_ok (col_type p.2) (col_len p.2) → bind_value p ≠ Crash.
Proof.
  destruct p as [[e|] c]; [|done]. cbn. intros Hl. apply bind_no_crash; [apply convert_no_crash|]. intros v Hv.
  apply bind_no_crash; [apply throw_if_no_crash|]. intros [] Hcmp.
  apply throw_if_ok, negb_false_iff, bool_decide_eq_true in Hcmp.
  apply init_raw_no_crash; [by eapply convert_fresh|by rewrite Hcmp].
Qed.

Lemma bind_set_no_crash db n t sc : db_wf db → tabs db !! n = Some t → bind_set t sc ≠ Crash.
Proof.
  intros Hdb Ht. destruct sc as [[[[tn cn]|] [e|]]|]; try done. cbn [bind_set].
  apply bind_no_crash; [apply check_column_no_crash|]. intros target Htg.
  apply bind_no_crash; [apply throw_if_no_crash|]. intros _ _.
  apply bind_no_crash; [apply convert_no_crash|]. intros v Hv.
  apply bind_no_crash; [apply get_col_no_crash|]. intros c Hc.
  apply bind_no_crash; [apply throw_if_no_crash|]. intros [] Hcmp.
  apply throw_if_ok, negb_false_iff, bool_decide_eq_true in Hcmp.
  apply bind_no_crash; [|done]. apply init_raw_no_crash; [by eapply convert_fresh|]. rewrite <- Hcmp.
  unfold get_col in Hc. destruct (find_col (tab_cols t) _) as [d|] eqn:E; [|done]. injection Hc as <-.
  apply find_col_elem in E as [Hd _]. by destruct (table_col db Hdb _ _ _ Ht Hd) as (_ & _ & ? & _).
Qed.

Lemma analyze_no_crash db statement : db_wf db → analyze db statement ≠ Crash.
Proof.
  intros Hdb. destruct statement as [[]|]; cbn [analyze]; try done.
  - apply bind_no_crash; [apply throw_if_no_crash|done].
  - unfold analyze_insert. apply bind_no_crash; [apply get_table_no_crash|]. intros t Ht.
    apply get_table_ok in Ht. apply bind_no_crash; [apply throw_if_no_crash|]. intros _ _.
    apply bind_no_crash; [|done]. apply for_each_no_crash. intros [e c] Hp.
    apply bind_value_no_crash. apply elem_of_zip_r in Hp.
    by destruct (table_col db Hdb _ _ _ Ht Hp) as (_ & _ & ? & _).
  - unfold analyze_delete. apply bind_no_crash; [apply get_table_no_crash|]. intros t Ht.
    apply get_table_ok in Ht. by eapply where_no_crash; [|by eapply table_visible|].
  - unfold analyze_update. apply bind_no_crash; [apply get_table_no_crash|]. intros t Ht.
    apply get_table_ok in Ht. apply bind_no_crash.
    { apply for_each_no_crash. intros sc _. by eapply bind_set_no_crash. }
    intros sets _. by eapply where_no_crash; [|by eapply table_visible|].
  - unfold analyze_select.
    apply bind_no_crash; [destruct (select_from s); [apply get_table_names_no_crash|done]|]. intros tables _.
    apply bind_no_crash; [apply get_all_cols_no_crash|]. intros all Hall.
    apply bind_no_crash; [apply throw_if_no_crash|]. intros _ _. apply bind_no_crash.
    { apply for_each_no_crash. intros item _. destruct item as [[]|]; try done. cbn.
      apply bind_no_crash; [apply throw_if_no_crash|done]. }
    intros items _. apply bind_no_crash; [apply for_each_no_crash; intros; apply check_column_no_crash|].
    intros cols _. apply bind_no_crash; [apply throw_if_no_crash|]. intros _ _. apply bind_no_crash.
    { destruct (select_order_by s) as [|[[[e|] dir]|] [|]]; try done. cbn. destruct e; try done.
      apply bind_no_crash; [apply check_column_no_crash|done]. }
    intros [oc od] _. by eapply where_no_crash; [|by eapply all_cols_visible|].
Qed.

(** Over a well-formed catalog the analyzer never fails an assert: for every
    statement it returns a bound query or reports an error.  In particular a literal is
    never encoded twice and never at a length its type does not have. *)
Theorem analyze_never_crashes db statement : db_wf db → analyze db statement ≠ Crash.
Proof. apply analyze_no_crash. Qed.

Lemma analyze_never_crashes_witness :
  analyze sample_db (Some (Delete_ (mkDelete "t" (Some (BinaryExpr (Some (""%string, "id"%string)) Eq (Some (IntLit 7))))))) ≠ Crash.
Proof. exact (analyze_never_crashes sample_db _ sample_db_wf). Defined.

Lemma get_table_names_nonempty from tables : get_table_names from = Ok tables → tables ≠ [].
Proof.
  revert from tables. fix IH 1. intros [source alias|type l r condition] tables H; cbn [get_table_names] in H.
  - apply bind_ok in H as ([] & _ & H). destruct source; [by injection H as <-|discriminate].
  - apply bind_ok in H as ([] & _ & H). apply bind_ok in H as ([] & _ & H).
    apply bind_ok in H as (ls & Hl & H). apply bind_ok in H as (rs & _ & H). injection H as <-.
    destruct l as [l|]; [|discriminate]. specialize (IH l ls Hl). by destruct ls.
Qed.

(** What the analysis of a SELECT establishes. *)
Lemma analyze_select_typed db s q :
  db_wf db → analyze_select db s = Ok q →
  bound_statement q = Select_ s ∧ bound_tables q ≠ [] ∧
  Forall (λ n, is_Some (tabs db !! n)) (bound_tables q) ∧
  Forall (λ b, ∃ c, bound_in db (bound_tables q) b c) (bound_cols q) ∧
  (∀ b, bound_order_col q = Some b → ∃ c, bound_in db (bound_tables q) b c) ∧
  Forall (cond_typed db (bound_tables q)) (bound_conds q).
Proof.
  intros Hdb H. unfold analyze_select in H.
  apply bind_ok in H as (tables & Htn & H). apply bind_ok in H as (all & Hall & H).
  apply bind_ok in H as ([] & _ & H). apply bind_ok in H as (items & _ & H).
  apply bind_ok in H as (cols & Hcols & H). apply bind_ok in H as ([] & _ & H).
  apply bind_ok in H as ([oc od] & Ho & H). apply bind_ok in H as (conds & _ & H).
  apply bind_ok in H as (conds' & Hconds & [= <-]). cbn [bound_statement bound_tables bound_cols bound_order_col bound_conds].
  pose proof (all_cols_visible db Hdb _ _ Hall) as Hv. split_and!.
  - done.
  - destruct (select_from s) as [from|]; [|done]. by eapply get_table_names_nonempty.
  - by apply get_all_cols_spec in Hall as [? _].
  - by eapply check_columns_bound.
  - intros b ->. unfold bind_order in Ho. destruct (select_order_by s) as [|[[[e|] dir]|] [|]]; try done.
    destruct e; try done. apply bind_ok in Ho as (b' & Hb & [= <- _]). by eapply check_column_bound.
  - by eapply check_clause_typed.
Qed.

(** C32. A bound SELECT is well typed: its tables exist; every projected column, the
    ORDER BY column and both sides of every condition are columns of its FROM tables,
    by their full names; the two sides of a condition have one type, and a literal is
    encoded to exactly the length of the column it is compared with. *)
Theorem select_well_typed db s q :
  db_wf db → analyze_select db s = Ok q →
  Forall (λ n, is_Some (tabs db !! n)) (bound_tables q) ∧
  Forall (λ b, ∃ c, bound_in db (bound_tables q) b c) (bound_cols q) ∧
  (∀ b, bound_order_col q = Some b → ∃ c, bound_in db (bound_tables q) b c) ∧
  Forall (cond_typed db (bound_tables q)) (bound_conds q).
Proof. intros Hdb H. by destruct (analyze_select_typed db s q Hdb H) as (_ & _ & ?). Qed.

Definition sample_select : SelectStmt :=
  mkSelect [Some (StarExpr "")] (Some (TableRef (inl "t"%string) ""))
    (Some (BinaryExpr (Some (""%string, "id"%string)) Gt (Some (IntLit 3)))) [] None
    [Some (Some (Col "" "name"), Desc)] None.

Lemma select_well_typed_witness :
  ∃ q, analyze_select sample_db sample_select = Ok q ∧
    Forall (cond_typed sample_db (bound_tables q)) (bound_conds q).
Proof.
  destruct (analyze_select sample_db sample_select) as [q|e|] eqn:E; [|vm_compute in E; discriminate..].
  exists q. split; [done|]. by apply (select_well_typed sample_db sample_select q sample_db_wf E).
Defined.

(** A bound INSERT is a record: it has one value per column, of the column's type,
    each encoded to the column's length, so that the encoded values in order fill the
    record exactly. *)
Theorem insert_well_typed db s q :
  db_wf db → analyze_insert db s = Ok q →
  ∃ t, tabs db !! ins_tab s = Some t ∧ bound_target_table q = ins_tab s ∧
    Forall2 (λ v c, v_type v = col_type c ∧ ∃ bs, v_raw v = Some bs ∧ zlen bs = col_len c)
      (bound_values q) (tab_cols t).
Proof.
  intros Hdb H. unfold analyze_insert in H.
  apply bind_ok in H as (t & Ht & H). apply bind_ok in H as ([] & Hn & H).
  apply throw_if_ok, negb_false_iff, bool_decide_eq_true in Hn.
  apply bind_ok in H as (values & Hvs & [= <-]). apply get_table_ok in Ht. exists t.
  split_and!; [done|by destruct (db_table db Hdb _ _ Ht)|]. cbn [bound_values].
  apply for_each_ok in Hvs. clear Ht. revert Hvs Hn. generalize (ins_values s) as es.
  generalize (tab_cols t) as cols. intros cols es. revert es values.
  induction cols as [|c cols IH]; intros [|e es] values Hvs Hn; try discriminate Hn.
  { inversion Hvs. constructor. }
  cbn [zip_with zip] in Hvs. inversion Hvs as [|? v ? vs Hv Hvs']; subst. injection Hn as Hn.
  constructor; [|by eapply IH]. destruct e as [e|]; [|done]. cbn in Hv.
  apply bind_ok in Hv as (w & _ & Hv). apply bind_ok in Hv as ([] & Hcmp & Hv).
  apply throw_if_ok, negb_false_iff, bool_decide_eq_true in Hcmp.
  apply init_raw_ok in Hv as (Hty & _ & _ & bs & Hbs & Hlen). split; [congruence|eauto].
Qed.

Definition sample_insert : InsertStmt := mkInsert "t" [Some (IntLit (-1)); Some (StringLit "bob")].

Lemma insert_well_typed_witness :
  ∃ q t, analyze_insert sample_db sample_insert = Ok q ∧ tabs sample_db !! "t"%string = Some t ∧
    Forall2 (λ v c, v_type v = col_type c ∧ ∃ bs, v_raw v = Some bs ∧ zlen bs = col_len c)
      (bound_values q) (tab_cols t).
Proof.
  destruct (analyze_insert sample_db sample_insert) as [q|e|] eqn:E; [|vm_compute in E; discriminate..].
  destruct (insert_well_typed sample_db sample_insert q sample_db_wf E) as (t & H1 & _ & H3).
  by exists q, t.
Defined.

Definition full_name (c : ColMeta) : TabCol := mkTabCol (col_tab c) (col_name c).

Lemma check_full_names all cols :
  owned all → cols ⊆ all → for_each (check_column all) (full_name <$> cols) = Ok (full_name <$> cols).
Proof.
  intros Ho Hsub. apply for_each_ok. induction cols as [|c cols IH]; constructor.
  - apply check_column_qualified; [|by exists c; split; [apply Hsub; left|]].
    unfold owned in Ho. rewrite Forall_forall in Ho. apply Ho, Hsub. by left.
  - apply IH. intros x Hx. apply Hsub. by right.
Qed.

(** [SELECT *] projects every column of every FROM table, tables from left to
    right and columns in declaration order, under their full names, and [SELECT t.*]
    exactly those of [t]; both succeed whenever the FROM tables exist. *)
Theorem star_expansion db from tables all t :
  db_wf db → get_table_names from = Ok tables → get_all_cols db tables = Ok all →
  t = ""%string ∨ t ∈ tables →
  ∃ q, analyze_select db (mkSelect [Some (StarExpr t)] (Some from) None [] None [] None) = Ok q ∧
    bound_tables q = tables ∧ bound_conds q = [] ∧
    bound_cols q = full_name <$> filter (λ c, t = ""%string ∨ col_tab c = t) all.
Proof.
  intros Hdb Hf Hall Ht. pose proof (all_cols_owned db Hdb _ _ Hall) as Ho.
  set (cols := filter (λ c, t = ""%string ∨ col_tab c = t) all).
  assert (bind_item tables all (Some (StarExpr t)) = Ok (full_name <$> cols)) as Hitem.
  { cbn [bind_item]. assert (negb (bool_decide (t = "")) && negb (bool_decide (t ∈ tables)) = false) as ->; [|done].
    destruct Ht as [->|Ht]; [by rewrite bool_decide_true|].
    rewrite (bool_decide_true (t ∈ tables)) by done. apply andb_false_r. }
  eexists. split; [|split_and!; cycle 1].
  { unfold analyze_select. apply bind_ok. exists tables. split; [done|].
    apply bind_ok. exists all. split; [done|]. apply bind_ok. exists tt. split; [done|].
    apply bind_ok. exists [full_name <$> cols]. split; [cbn [for_each select_items]; by rewrite Hitem|].
    apply bind_ok. exists (full_name <$> cols). split.
    { cbn [concat]. rewrite app_nil_r. apply check_full_names; [done|].
      intros x Hx. by apply list_elem_of_filter in Hx as [_ ?]. }
    apply bind_ok. exists tt. split; [done|]. apply bind_ok. exists (None, false). split; [done|].
    apply bind_ok. exists []. split; [done|]. apply bind_ok. exists []. split; done. }
  all: done.
Qed.

Lemma star_expansion_witness :
  ∃ q, analyze_select sample_db (mkSelect [Some (StarExpr "")] (Some (TableRef (inl "t"%string) "")) None [] None [] None) = Ok q ∧
    bound_tables q = ["t"%string] ∧ bound_conds q = [] ∧
    bound_cols q = [mkTabCol "t" "id"; mkTabCol "t" "name"].
Proof.
  destruct (star_expansion sample_db (TableRef (inl "t"%string) "") ["t"%string] (tab_cols sample_table) "" sample_db_wf
    eq_refl eq_refl (or_introl eq_refl)) as (q & H1 & H2 & H3 & H4).
  exists q. split_and!; [done|done|done|]. rewrite H4. reflexivity.
Defined.
