(* ===== verification/Planner.v ===== *)
(** * The planner: from bound queries to plan trees

    Models [src/src/optimizer/plan.h], [planner.cpp] and [optimizer.h]: index choice,
    the split of WHERE over scans and joins, the construction of the join tree, the
    choice of join algorithms and the plan of every statement.  [unique_ptr] slots of
    [scan_plans] are [option]s that [take_scan_plan] empties. *)

From S2P Require Import Prelude Common Catalog Ast Analyzer.

Inductive PlanTag :=
| T_Invalid | T_Help | T_ShowDatabase | T_ShowTable | T_DescTable | T_SetKnob | T_CreateTable | T_DropTable
| T_CreateIndex | T_DropIndex | T_Insert | T_Update | T_Delete | T_select | T_Transaction_begin
| T_Transaction_commit | T_Transaction_abort | T_Transaction_rollback | T_SeqScan | T_IndexScan
| T_NestLoop | T_SortMerge | T_Sort | T_Projection.

#[global] Instance PlanTag_eq : EqDecision PlanTag.
Proof. solve_decision. Defined.

Record ColDef := mkDef { def_name : string; def_type : ColType; def_len : Z }.

Record Scan := mkScan {
  scan_tag : PlanTag; scan_tab : string; scan_cols : list ColMeta; scan_conds : list Condition;
  scan_len : Z; fed_conds : list Condition; index_col_names : list string }.

(** The class hierarchy of [plan.h]; [type] of a join is always [Inner]. *)
Inductive Plan :=
| ScanPlan (s : Scan)
| JoinPlan (tag : PlanTag) (left_ right_ : Plan) (conds_ : list Condition) (type : JoinType)
| ProjectionPlan (subplan_ : Plan) (sel_cols_ : list TabCol)
| SortPlan (subplan_ : Plan) (sel_col_ : TabCol) (is_desc_ : bool)
| SelectPlan (projection_ : Plan)
| InsertPlan (table_ : string) (values_ : list Value)
| DeletePlan (scan_ : Plan) (table_ : string) (conds_ : list Condition)
| UpdatePlan (scan_ : Plan) (table_ : string) (conds_ : list Condition) (set_clauses_ : list SetClause)
| DDLPlan (tag : PlanTag) (tab_name_ : string) (tab_col_names_ : list string) (cols_ : list ColDef) (unique_ : bool)
| OtherPlan (tag : PlanTag) (tab_name_ : string)
| SetKnobPlan (knob_ : string) (value_ : bool).

Definition reverse_comparison (op : CompOp) : CompOp :=
  match op with
  | OP_EQ => OP_EQ | OP_NE => OP_NE | OP_LT => OP_GT | OP_GT => OP_LT | OP_LE => OP_GE | OP_GE => OP_LE
  end.

(** [std::swap(condition.lhs_col, condition.rhs_col)] with the reversed operator. *)
Definition flip (c : Condition) : Condition :=
  mkCond (rhs_col c) (reverse_comparison (cond_op c)) (is_rhs_val c) (lhs_col c) (rhs_val c).

Definition has_equality_condition (table : string) (conds : list Condition) (column : ColMeta) : bool :=
  existsb (λ c, is_rhs_val c && bool_decide (cond_op c = OP_EQ) && bool_decide (tc_tab_name (lhs_col c) = table) &&
                bool_decide (tc_col_name (lhs_col c) = col_name column)) conds.

(** The index loop: a fully matched index replaces a shorter choice. *)
Fixpoint choose_index_loop (table : string) (conds : list Condition) (indexes : list IndexMeta)
    (index_columns : list string) : list string :=
  match indexes with
  | [] => index_columns
  | index :: indexes =>
    let matched := forallb (has_equality_condition table conds) (idx_cols index) in
    if negb matched || (zlen (idx_cols index) <=? zlen index_columns)
    then choose_index_loop table conds indexes index_columns
    else choose_index_loop table conds indexes (col_name <$> idx_cols index)
  end.

Section Planner.
Context (db : DbMeta).

(** The chosen columns; [use_index] is whether there are any. *)
Definition choose_index (table : string) (conds : list Condition) : result (list string) :=
  tab ← get_table db table;
  Ok (choose_index_loop table conds (tab_indexes tab) []).

(** [ScanPlan]'s constructor: [cols_.back()] needs a column. *)
Definition make_scan (tag : PlanTag) (table : string) (conds : list Condition) (index_cols : list string)
  : result Scan :=
  tab ← get_table db table;
  match last (tab_cols tab) with
  | None => Crash
  | Some c => Ok (mkScan tag table (tab_cols tab) conds (col_offset c + col_len c) conds index_cols)
  end.

Definition make_scan_plan (table : string) (conds : list Condition) : result Scan :=
  index_columns ← choose_index table conds;
  make_scan (if bool_decide (index_columns = []) then T_SeqScan else T_IndexScan) table conds index_columns.

(** The conditions on one table alone, and the others. *)
Definition own_condition (table : string) (c : Condition) : bool :=
  (is_rhs_val c && bool_decide (tc_tab_name (lhs_col c) = table)) ||
  (negb (is_rhs_val c) && bool_decide (tc_tab_name (lhs_col c) = table) && bool_decide (tc_tab_name (rhs_col c) = table)).

Fixpoint take_table_conditions (conditions : list Condition) (table : string) : list Condition * list Condition :=
  match conditions with
  | [] => ([], [])
  | c :: cs =>
    let '(taken, rest) := take_table_conditions cs table in
    if own_condition table c then (c :: taken, rest) else (taken, c :: rest)
  end.

Definition table_index (tables : list string) (table : string) : result nat :=
  match list_find (λ t, t = table) tables with
  | Some (i, _) => Ok i
  | None => Throw (InternalError "Join condition references an unknown table")
  end.

(** The planner's slots: a scan plan still to be joined, or [None] once taken, which is
    when [joined[index]] is set. *)
Definition take_scan_plan (index : nat) (slots : list (option Scan)) : result (Plan * list (option Scan)) :=
  match slots !! index with
  | Some (Some s) => Ok (ScanPlan s, <[index := None]> slots)
  | _ => Throw (InternalError "Invalid scan plan state while building a join")
  end.

Definition joined (slots : list (option Scan)) (index : nat) : bool :=
  match slots !! index with Some None => true | _ => false end.

Inductive ConditionCoverage := CNone | CLhs | CRhs | CBoth.

(** The plan after the call, and the coverage. *)
Fixpoint attach_join_condition (c : Condition) (plan : Plan) : ConditionCoverage * Plan :=
  match plan with
  | ScanPlan s =>
    (if bool_decide (scan_tab s = tc_tab_name (lhs_col c)) then CLhs
     else if bool_decide (scan_tab s = tc_tab_name (rhs_col c)) then CRhs else CNone, plan)
  | JoinPlan tag l r conds type =>
    let '(lcov, l') := attach_join_condition c l in
    match lcov with
    | CBoth => (CBoth, JoinPlan tag l' r conds type)
    | _ =>
      let '(rcov, r') := attach_join_condition c r in
      match rcov with
      | CBoth => (CBoth, JoinPlan tag l' r' conds type)
      | _ =>
        match lcov, rcov with
        | CNone, _ => (rcov, JoinPlan tag l' r' conds type)
        | _, CNone => (lcov, JoinPlan tag l' r' conds type)
        | CRhs, _ => (CBoth, JoinPlan tag l' r' (conds ++ [flip c]) type)
        | _, _ => (CBoth, JoinPlan tag l' r' (conds ++ [c]) type)
        end
      end
    end
  | _ => (CNone, plan)
  end.

Definition nest_loop (l r : Plan) (conds : list Condition) : Plan := JoinPlan T_NestLoop l r conds Inner.

(** One turn of the condition loop. *)
Definition join_condition (tables : list string) (st : Plan * list (option Scan)) (c : Condition)
  : result (Plan * list (option Scan)) :=
  let '(root, slots) := st in
  lhs ← table_index tables (tc_tab_name (lhs_col c));
  rhs ← table_index tables (tc_tab_name (rhs_col c));
  match joined slots lhs, joined slots rhs with
  | false, false =>
    '(l, slots) ← take_scan_plan lhs slots;
    '(r, slots) ← take_scan_plan rhs slots;
    Ok (nest_loop (nest_loop l r [c]) root [], slots)
  | true, false =>
    '(p, slots) ← take_scan_plan rhs slots;
    Ok (nest_loop p root [flip c], slots)
  | false, true =>
    '(p, slots) ← take_scan_plan lhs slots;
    Ok (nest_loop p root [c], slots)
  | true, true =>
    match attach_join_condition c root with
    | (CBoth, root) => Ok (root, slots)
    | _ => Throw (InternalError "Failed to attach join condition to plan tree")
    end
  end.

Fixpoint join_conditions_loop (tables : list string) (conds : list Condition) (st : Plan * list (option Scan))
  : result (Plan * list (option Scan)) :=
  match conds with
  | [] => Ok st
  | c :: conds => st ← join_condition tables st c; join_conditions_loop tables conds st
  end.

(** The last loop: a cross join with every table not joined yet; [n] tables from [i]. *)
Fixpoint cross_join_loop (n i : nat) (st : Plan * list (option Scan)) : result (Plan * list (option Scan)) :=
  match n with
  | O => Ok st
  | S n =>
    let '(root, slots) := st in
    if joined slots i then cross_join_loop n (S i) st
    else
      '(p, slots) ← take_scan_plan i slots;
      cross_join_loop n (S i) (nest_loop p root [], slots)
  end.

Definition build_join_tree (tables : list string) (scan_plans : list Scan) (join_conditions : list Condition)
  : result Plan :=
  let slots := Some <$> scan_plans in
  st ← match join_conditions with
       | [] => take_scan_plan 0 slots
       | first :: _ =>
         lhs ← table_index tables (tc_tab_name (lhs_col first));
         rhs ← table_index tables (tc_tab_name (rhs_col first));
         '(l, slots) ← take_scan_plan lhs slots;
         '(r, slots) ← take_scan_plan rhs slots;
         Ok (nest_loop l r [first], slots)
       end;
  st ← join_conditions_loop tables (tail join_conditions) st;
  '(root, _) ← cross_join_loop (length tables) 0 st;
  Ok root.

(** One scan per FROM table, each taking its own conditions off the list. *)
Fixpoint make_scans (tables : list string) (remaining : list Condition) : result (list Scan * list Condition) :=
  match tables with
  | [] => Ok ([], remaining)
  | table :: tables =>
    let '(taken, remaining) := take_table_conditions remaining table in
    s ← make_scan_plan table taken;
    '(scans, remaining) ← make_scans tables remaining;
    Ok (s :: scans, remaining)
  end.

Definition build_from_plan (q : AnalyzedQuery) : result Plan :=
  _ ← throw_if (bool_decide (bound_tables q = [])) (InternalError "SELECT query has no bound tables");
  '(scans, remaining) ← make_scans (bound_tables q) (bound_conds q);
  match bound_tables q, scans with
  | [_], s :: _ => Ok (ScanPlan s)
  | _, _ => build_join_tree (bound_tables q) scans remaining
  end.

(** [std::rotate(begin, it, it + 1)]: the first equality comes to the front. *)
Definition merge_key (c : Condition) : bool := negb (is_rhs_val c) && bool_decide (cond_op c = OP_EQ).

Definition rotate_key (conds : list Condition) : option (Condition * list Condition) :=
  match list_find (λ c, Is_true (merge_key c)) conds with
  | None => None
  | Some (i, key) => Some (key, key :: take i conds ++ drop (S i) conds)
  end.

Fixpoint choose_join_algorithm (enable_sortmerge : bool) (plan : Plan) : Plan :=
  match plan with
  | JoinPlan tag l r conds type =>
    let l := choose_join_algorithm enable_sortmerge l in
    let r := choose_join_algorithm enable_sortmerge r in
    if negb enable_sortmerge then JoinPlan tag l r conds type
    else match rotate_key conds with
         | None => JoinPlan tag l r conds type
         | Some (key, conds) =>
           JoinPlan T_SortMerge (SortPlan l (lhs_col key) false) (SortPlan r (rhs_col key) false) conds type
         end
  | _ => plan
  end.

Definition logical_optimization (q : AnalyzedQuery) : AnalyzedQuery := q.

Definition physical_optimization (enable_sortmerge : bool) (q : AnalyzedQuery) : result Plan :=
  root ← build_from_plan q;
  let root := choose_join_algorithm enable_sortmerge root in
  Ok (match bound_order_col q with
      | Some c => SortPlan root c (bound_order_desc q)
      | None => root
      end).

Definition plan_select (enable_sortmerge : bool) (q : AnalyzedQuery) : result Plan :=
  let q := logical_optimization q in
  root ← physical_optimization enable_sortmerge q;
  Ok (SelectPlan (ProjectionPlan root (bound_cols q))).

Definition interpret_type (t : DataType) : ColType :=
  match t with DInt => TYPE_INT | DFloat => TYPE_FLOAT | DString => TYPE_STRING end.

Definition do_planner (enable_sortmerge : bool) (q : AnalyzedQuery) : result Plan :=
  let target_missing := bool_decide (bound_target_table q = ""%string) in
  match bound_statement q with
  | CreateTableStmt tab fields =>
    Ok (DDLPlan T_CreateTable tab []
          ((λ f, mkDef (cd_name f) (interpret_type (tl_type (cd_type_len f))) (declared_len (cd_type_len f))) <$> fields)
          false)
  | DropTableStmt tab => Ok (DDLPlan T_DropTable tab [] [] false)
  | CreateIndexStmt tab cols unique => Ok (DDLPlan T_CreateIndex tab cols [] unique)
  | DropIndexStmt tab cols => Ok (DDLPlan T_DropIndex tab cols [] false)
  | Insert_ _ =>
    _ ← throw_if target_missing (InternalError "INSERT query has no bound target table");
    Ok (InsertPlan (bound_target_table q) (bound_values q))
  | Delete_ _ =>
    _ ← throw_if target_missing (InternalError "DELETE query has no bound target table");
    scan ← make_scan_plan (bound_target_table q) (bound_conds q);
    Ok (DeletePlan (ScanPlan scan) (bound_target_table q) (bound_conds q))
  | Update_ _ =>
    _ ← throw_if target_missing (InternalError "UPDATE query has no bound target table");
    scan ← make_scan_plan (bound_target_table q) (bound_conds q);
    Ok (UpdatePlan (ScanPlan scan) (bound_target_table q) (bound_conds q) (bound_set_clauses q))
  | Select_ _ => plan_select enable_sortmerge q
  | _ => Throw (InternalError "Planner received a non-plannable statement kind")
  end.

(** [Optimizer::plan_query]: utility statements need no planner. *)
Definition plan_query (enable_sortmerge : bool) (q : AnalyzedQuery) : result Plan :=
  match bound_statement q with
  | HelpStmt => Ok (OtherPlan T_Help "")
  | ShowDatabaseStmt => Ok (OtherPlan T_ShowDatabase "")
  | ShowTablesStmt => Ok (OtherPlan T_ShowTable "")
  | SetKnobStmt _ _ => Ok (SetKnobPlan (bound_knob_name q) (bound_knob_value q))
  | DescTableStmt tab => Ok (OtherPlan T_DescTable tab)
  | TxnBeginStmt => Ok (OtherPlan T_Transaction_begin "")
  | TxnAbortStmt => Ok (OtherPlan T_Transaction_abort "")
  | TxnCommitStmt => Ok (OtherPlan T_Transaction_commit "")
  | TxnRollbackStmt => Ok (OtherPlan T_Transaction_rollback "")
  | _ => do_planner enable_sortmerge q
  end.

End Planner.
