(* ===== verification/PlannerFacts.v ===== *)
(** * Correctness of the planner

    The plan of a bound query keeps its tables and the meaning of its conditions, its
    joins compare a column of the left child with one of the right child, and planning
    an analyzed query never fails. *)

From S2P Require Import Prelude Common Catalog CatalogFacts Ast Analyzer AnalyzerFacts Planner.

(** ** Plan trees *)

Fixpoint plan_scans (p : Plan) : list Scan :=
  match p with
  | ScanPlan s => [s]
  | JoinPlan _ l r _ _ => plan_scans l ++ plan_scans r
  | SortPlan p _ _ | ProjectionPlan p _ | SelectPlan p => plan_scans p
  | DeletePlan p _ _ | UpdatePlan p _ _ _ => plan_scans p
  | _ => []
  end.

Definition plan_tables (p : Plan) : list string := scan_tab <$> plan_scans p.

Fixpoint join_conds (p : Plan) : list Condition :=
  match p with
  | JoinPlan _ l r conds _ => conds ++ join_conds l ++ join_conds r
  | SortPlan p _ _ | ProjectionPlan p _ | SelectPlan p => join_conds p
  | _ => []
  end.

(** The conditions a plan checks: those of its scans and those of its joins. *)
Definition plan_conds (p : Plan) : list Condition := join_conds p ++ concat (scan_conds <$> plan_scans p).

(** Scans under nested-loop joins, as [build_from_plan] makes them. *)
Fixpoint is_tree (p : Plan) : Prop :=
  match p with ScanPlan _ => True | JoinPlan T_NestLoop l r _ _ => is_tree l ∧ is_tree r | _ => False end.

(** The contract of [JoinPlan]: every condition compares a column of the left child
    with a column of the right child. *)
Definition across (l r : Plan) (c : Condition) : Prop :=
  is_rhs_val c = false ∧ tc_tab_name (lhs_col c) ∈ plan_tables l ∧ tc_tab_name (rhs_col c) ∈ plan_tables r.

Fixpoint oriented (p : Plan) : Prop :=
  match p with
  | JoinPlan _ l r conds _ => Forall (across l r) conds ∧ oriented l ∧ oriented r
  | SortPlan p _ _ | ProjectionPlan p _ | SelectPlan p => oriented p
  | _ => True
  end.

(** The contract of a sort-merge join: its first condition is the equality its two
    children are sorted on, in ascending order. *)
Fixpoint merge_ready (p : Plan) : Prop :=
  match p with
  | JoinPlan tag l r conds _ =>
    match tag with
    | T_SortMerge => ∃ key rest l' r', conds = key :: rest ∧ cond_op key = OP_EQ ∧ is_rhs_val key = false ∧
        l = SortPlan l' (lhs_col key) false ∧ r = SortPlan r' (rhs_col key) false
    | T_NestLoop => True
    | _ => False
    end ∧ merge_ready l ∧ merge_ready r
  | SortPlan p _ _ | ProjectionPlan p _ | SelectPlan p => merge_ready p
  | _ => True
  end.

(** ** The meaning of conditions *)

Definition eval_op (op : CompOp) (c : comparison) : bool :=
  match op, c with
  | OP_EQ, Datatypes.Eq | OP_LE, Datatypes.Eq | OP_GE, Datatypes.Eq => true
  | OP_NE, Datatypes.Lt | OP_LT, Datatypes.Lt | OP_LE, Datatypes.Lt => true
  | OP_NE, Datatypes.Gt | OP_GT, Datatypes.Gt | OP_GE, Datatypes.Gt => true
  | _, _ => false
  end.

(** Under an assignment of a row to each table: [val] reads a column, [lit] a literal. *)
Definition eval_cond {V} (cmp : V → V → comparison) (val : TabCol → V) (lit : Value → V) (c : Condition) : bool :=
  eval_op (cond_op c) (cmp (val (lhs_col c)) (if is_rhs_val c then lit (rhs_val c) else val (rhs_col c))).

Lemma eval_reverse op c : eval_op (reverse_comparison op) c = eval_op op (CompOpp c).
Proof. by destruct op, c. Qed.

Definition flip_invariant (ev : Condition → bool) : Prop := ∀ c, is_rhs_val c = false → ev (flip c) = ev c.

Lemma eval_cond_flip {V} (cmp : V → V → comparison) val lit :
  (∀ a b, cmp b a = CompOpp (cmp a b)) → flip_invariant (eval_cond cmp val lit).
Proof.
  intros Hc c Hr. unfold eval_cond, flip. cbn. by rewrite Hr, eval_reverse, <- (Hc (val (rhs_col c))).
Qed.

Lemma forallb_perm {A} (f : A → bool) l k : l ≡ₚ k → forallb f l = forallb f k.
Proof.
  induction 1 as [|x l k _ IH|x y l|l k m _ IH1 _ IH2]; cbn; [done|by rewrite IH| |congruence].
  by rewrite !andb_assoc, (andb_comm (f x)).
Qed.

(** ** Scans *)

Lemma take_table_conditions_spec conds table taken rest :
  take_table_conditions conds table = (taken, rest) →
  taken ++ rest ≡ₚ conds ∧ Forall (λ c, own_condition table c = true) taken ∧
  Forall (λ c, own_condition table c = false ∧ c ∈ conds) rest.
Proof.
  revert taken rest. induction conds as [|c cs IH]; intros taken rest; cbn [take_table_conditions].
  { intros [= <- <-]. split_and!; constructor. }
  destruct (take_table_conditions cs table) as [tk rs] eqn:E. destruct (IH _ _ eq_refl) as (H1 & H2 & H3).
  assert (Forall (λ x, own_condition table x = false ∧ x ∈ c :: cs) rs) as H3'.
  { eapply Forall_impl; [exact H3|]. intros x [? ?]. split; [done|by right]. }
  destruct (own_condition table c) eqn:Eo; intros [= <- <-].
  - split_and!; [cbn; by rewrite H1|by constructor|done].
  - split_and!; [|done|constructor; [split; [done|by left]|done]].
    rewrite <- Permutation_middle. by rewrite H1.
Qed.

(** A scan checks only conditions on its own table. *)
Definition scan_local (s : Scan) : Prop := Forall (λ c, own_condition (scan_tab s) c = true) (scan_conds s).

(** An index all of whose columns are fixed by equality conditions. *)
Definition usable (table : string) (conds : list Condition) (i : IndexMeta) : bool :=
  forallb (has_equality_condition table conds) (idx_cols i).

Lemma choose_index_loop_spec table conds indexes best :
  let r := choose_index_loop table conds indexes best in
  (r = best ∨ ∃ i, i ∈ indexes ∧ usable table conds i = true ∧ r = names (idx_cols i)) ∧
  (length best ≤ length r)%nat ∧
  ∀ i, i ∈ indexes → usable table conds i = true → (length (idx_cols i) ≤ length r)%nat.
Proof.
  revert best. induction indexes as [|i ixs IH]; intros best; cbn [choose_index_loop].
  { split_and!; [by left|lia|]. intros i Hi. by apply elem_of_nil in Hi. }
  fold (usable table conds i).
  destruct (usable table conds i) eqn:Eu; cbn [negb orb]; [case_match eqn:El|].
  - destruct (IH best) as (H1 & H2 & H3). split_and!; [|done|].
    + destruct H1 as [?|(k & Hk & ?)]; [by left|right]. exists k. split; [by right|done].
    + intros k [-> | Hk]%elem_of_cons Hu; [|by apply H3]. unfold zlen in El. lia.
  - destruct (IH (col_name <$> idx_cols i)) as (H1 & H2 & H3). rewrite length_fmap in H2. split_and!.
    + right. destruct H1 as [-> | (k & Hk & ?)]; [exists i; split; [by left|done]|exists k; split; [by right|done]].
    + unfold zlen in El. lia.
    + intros k [-> | Hk]%elem_of_cons Hu; [done|by apply H3].
  - destruct (IH best) as (H1 & H2 & H3). split_and!; [|done|].
    + destruct H1 as [?|(k & Hk & ?)]; [by left|right]. exists k. split; [by right|done].
    + intros k [-> | Hk]%elem_of_cons Hu; [congruence|by apply H3].
Qed.

(** An index scan names the columns of an index of its table. *)
Definition scan_indexed (db : DbMeta) (s : Scan) : Prop :=
  scan_tag s = T_SeqScan ∨
  ∃ t i, tabs db !! scan_tab s = Some t ∧ i ∈ tab_indexes t ∧ index_col_names s = names (idx_cols i).

Section Facts.
Context (db : DbMeta) (Hdb : db_wf db).

Lemma make_scan_plan_ok table conds :
  is_Some (tabs db !! table) →
  ∃ s, make_scan_plan db table conds = Ok s ∧ scan_tab s = table ∧ scan_conds s = conds ∧ scan_indexed db s.
Proof.
  intros [t Ht]. unfold make_scan_plan, choose_index, make_scan.
  assert (get_table db table = Ok t) as -> by (by apply get_table_ok).
  destruct (db_table db Hdb _ _ Ht) as [_ (_ & Hne & _)].
  step_ok. step_ok.
  step_ok.
  destruct (last (tab_cols t)) as [c|] eqn:El; [|by apply last_None in El]. eexists. split_and!; try done.
  unfold scan_indexed. cbn [scan_tag scan_tab index_col_names]. case_bool_decide as E; [by left|right].
  destruct (choose_index_loop_spec table conds (tab_indexes t) []) as [[?|(i & Hi & _ & Hr)] _]; [done|]. eauto.
Qed.

Lemma make_scans_spec tables conds :
  Forall (λ n, is_Some (tabs db !! n)) tables →
  ∃ scans rest, make_scans db tables conds = Ok (scans, rest) ∧ scan_tab <$> scans = tables ∧
    concat (scan_conds <$> scans) ++ rest ≡ₚ conds ∧ Forall scan_local scans ∧ Forall (scan_indexed db) scans ∧
    Forall (λ c, c ∈ conds ∧ Forall (λ t, own_condition t c = false) tables) rest.
Proof.
  intros H. revert conds. induction H as [|n ns Hn _ IH]; intros conds; cbn [make_scans].
  { exists [], conds. split_and!; [done|done|done|constructor|constructor|]. apply Forall_forall. intros c Hc. by split. }
  destruct (take_table_conditions conds n) as [taken rest] eqn:E.
  apply take_table_conditions_spec in E as (H1 & H2 & H3).
  destruct (make_scan_plan_ok n taken Hn) as (s & -> & Hs & Hc & Hsi).
  step_ok.
  destruct (IH rest) as (scans & rest' & -> & Ht & Hp & Hloc & Hix & Hf).
  step_ok.
  exists (s :: scans), rest'. split_and!; [done|by rewrite fmap_cons, Hs, Ht| | |by constructor|].
  - rewrite fmap_cons. cbn [concat]. rewrite Hc, <- app_assoc, Hp. done.
  - constructor; [|done]. unfold scan_local. by rewrite Hs, Hc.
  - rewrite Forall_forall in H3, Hf |- *. intros c Hcin. destruct (Hf c Hcin) as [Hr Ho].
    destruct (H3 c Hr) as [Ho' Hcc]. split; [done|by constructor].
Qed.
End Facts.

(** ** Attaching a condition *)

Definition coverage_ok (c : Condition) (p : Plan) (cov : ConditionCoverage) (p' : Plan) : Prop :=
  let a := tc_tab_name (lhs_col c) ∈ plan_tables p in
  let b := tc_tab_name (rhs_col c) ∈ plan_tables p in
  match cov with
  | CNone => ¬ a ∧ ¬ b ∧ p' = p
  | CLhs => a ∧ ¬ b ∧ p' = p
  | CRhs => ¬ a ∧ b ∧ p' = p
  | CBoth => a ∧ b ∧ plan_scans p' = plan_scans p ∧ is_tree p' ∧ oriented p' ∧
      ∀ ev, flip_invariant ev → forallb ev (join_conds p') = forallb ev (join_conds p) && ev c
  end.

Lemma plan_tables_join tag l r cs ty : plan_tables (JoinPlan tag l r cs ty) = plan_tables l ++ plan_tables r.
Proof. unfold plan_tables. cbn. by rewrite fmap_app. Qed.

Lemma across_ext l r l' r' c : plan_scans l' = plan_scans l → plan_scans r' = plan_scans r → across l r c → across l' r' c.
Proof. unfold across, plan_tables. by intros -> ->. Qed.

Lemma attach_scan c s cov p' : tc_tab_name (lhs_col c) ≠ tc_tab_name (rhs_col c) →
  attach_join_condition c (ScanPlan s) = (cov, p') → coverage_ok c (ScanPlan s) cov p'.
Proof.
  intros Hab. unfold coverage_ok, plan_tables. cbn. intros [= <- <-].
  destruct (decide (scan_tab s = tc_tab_name (lhs_col c))) as [Ha|Ha].
  - rewrite (bool_decide_true _ Ha). rewrite !list_elem_of_singleton. split_and!; [done| |done]. congruence.
  - rewrite (bool_decide_false _ Ha). destruct (decide (scan_tab s = tc_tab_name (rhs_col c))) as [Hb|Hb].
    + rewrite (bool_decide_true _ Hb), !list_elem_of_singleton. split_and!; [congruence|done|done].
    + rewrite (bool_decide_false _ Hb), !list_elem_of_singleton. split_and!; [congruence|congruence|done].
Qed.

Lemma attach_spec c p cov p' :
  is_tree p → NoDup (plan_tables p) → tc_tab_name (lhs_col c) ≠ tc_tab_name (rhs_col c) → is_rhs_val c = false →
  oriented p → attach_join_condition c p = (cov, p') → coverage_ok c p cov p'.
Proof.
  intros Ht Hnd Hab Hr. revert cov p' Ht Hnd.
  induction p as [s|tag l IHl r IHr cs ty| | | | | | | | |]; intros cov p' Ht Hnd Ho; try done; [by apply attach_scan|].
  cbn [attach_join_condition].
  destruct tag; try done. destruct Ht as [Htl Htr]. destruct Ho as (Hacr & Hol & Hor). rewrite plan_tables_join in Hnd.
  apply NoDup_app in Hnd as (Hndl & Hdis & Hndr).
  destruct (attach_join_condition c l) as [cl l'] eqn:El. specialize (IHl _ _ Htl Hndl Hol eq_refl).
  destruct (attach_join_condition c r) as [cr r'] eqn:Er. specialize (IHr _ _ Htr Hndr Hor eq_refl).
  assert (∀ x, x ∈ plan_tables (JoinPlan T_NestLoop l r cs ty) ↔ x ∈ plan_tables l ∨ x ∈ plan_tables r) as HA.
  { intros x. by rewrite plan_tables_join, elem_of_app. }
  unfold coverage_ok in IHl, IHr.
  assert (∀ cs', Forall (across l r) cs' → ∀ l2 r2, plan_scans l2 = plan_scans l → plan_scans r2 = plan_scans r →
    Forall (across l2 r2) cs') as Hext.
  { intros cs' Hcs l2 r2 E1 E2. eapply Forall_impl; [exact Hcs|]. intros x. by apply across_ext. }
  destruct cl.
  4: { intros [= <- <-]. unfold coverage_ok. cbv zeta iota. rewrite !HA.
       destruct IHl as (Ha & Hb & Hs & Ht & Ho & Hev). cbn [plan_scans is_tree oriented join_conds].
       rewrite Hs. split_and!; auto. intros ev Hi. rewrite !forallb_app, Hev by done.
       by destruct (forallb ev cs), (forallb ev (join_conds l)), (forallb ev (join_conds r)), (ev c). }
  all: destruct IHl as (Ha & Hb & ->); destruct cr.
  all: try (destruct IHr as (Ha' & Hb' & Hs & Ht & Ho & Hev); intros [= <- <-]; unfold coverage_ok; cbv zeta iota;
       rewrite !HA; cbn [plan_scans is_tree oriented join_conds];
       rewrite Hs; split_and!; auto; intros ev Hi; rewrite !forallb_app, Hev by done;
       by destruct (forallb ev cs), (forallb ev (join_conds l)), (forallb ev (join_conds r)), (ev c)).
  all: destruct IHr as (Ha' & Hb' & ->); intros [= <- <-]; unfold coverage_ok; cbv zeta iota; rewrite !HA.
  - split_and!; [tauto|tauto|done].
  - split_and!; [tauto|tauto|done].
  - split_and!; [tauto|tauto|done].
  - split_and!; [tauto|tauto|done].
  - by destruct (Hdis _ Ha).
  - cbn [plan_scans is_tree oriented join_conds]. split_and!; auto.
    + apply Forall_app. split; [done|]. repeat constructor; done.
    + intros ev Hi. rewrite !forallb_app. cbn. rewrite andb_true_r.
      by destruct (forallb ev cs), (forallb ev (join_conds l)), (forallb ev (join_conds r)), (ev c).
  - split_and!; [tauto|tauto|done].
  - cbn [plan_scans is_tree oriented join_conds]. split_and!; auto.
    + apply Forall_app. split; [done|]. repeat constructor; done.
    + intros ev Hi. rewrite !forallb_app. cbn. rewrite andb_true_r, (Hi c Hr).
      by destruct (forallb ev cs), (forallb ev (join_conds l)), (forallb ev (join_conds r)), (ev c).
  - by destruct (Hdis _ Hb).
Qed.

(** ** Building the join tree *)

Lemma table_index_ok tables t i :
  table_index tables t = Ok i → tables !! i = Some t ∧ ∀ j, (j < i)%nat → tables !! j ≠ Some t.
Proof.
  unfold table_index. destruct (list_find _ tables) as [[j x]|] eqn:E; [|done]. intros [= <-].
  apply list_find_Some in E as (Hl & -> & Hlt). split; [done|]. intros k Hk Hkt. by apply (Hlt k t Hkt Hk).
Qed.

Lemma table_index_elem tables t : t ∈ tables → ∃ i, table_index tables t = Ok i.
Proof.
  intros H. unfold table_index. destruct (list_find _ tables) as [[i x]|] eqn:E; [by exists i|].
  apply list_find_None in E. rewrite Forall_forall in E. by destruct (E t H).
Qed.

Lemma take_slot i slots (s : Scan) :
  slots !! i = Some (Some s) → s :: omap id (<[i := None]> slots) ≡ₚ omap id slots.
Proof.
  revert i. induction slots as [|x slots IH]; intros i Hi; [done|]. destruct i as [|i]; cbn in Hi.
  - injection Hi as ->. done.
  - cbn. destruct x as [y|]; cbn; [|by apply IH]. rewrite Permutation_swap. f_equiv. by apply IH.
Qed.

Section Tree.
Context (tables : list string) (scans : list Scan) (Hscans : scan_tab <$> scans = tables).
Context (ev : Condition → bool) (Hev : flip_invariant ev).

(** A condition between two different FROM tables. *)
Definition join_cond (c : Condition) : Prop :=
  is_rhs_val c = false ∧ tc_tab_name (lhs_col c) ∈ tables ∧ tc_tab_name (rhs_col c) ∈ tables ∧
  tc_tab_name (lhs_col c) ≠ tc_tab_name (rhs_col c).

(** The state of the condition loop: the tree holds the scans taken from the slots, each
    table at most once, and has checked the conditions [used]. *)
Record tree_inv (root : Plan) (slots : list (option Scan)) (used : list Condition) : Prop := {
  ti_len : length slots = length scans;
  ti_slots : ∀ i s, slots !! i = Some (Some s) → scans !! i = Some s;
  ti_scans : plan_scans root ++ omap id slots ≡ₚ scans;
  ti_tree : is_tree root;
  ti_nodup : NoDup (plan_tables root);
  ti_joined : ∀ t i, table_index tables t = Ok i → joined slots i = true ↔ t ∈ plan_tables root;
  ti_oriented : oriented root;
  ti_conds : forallb ev (join_conds root) = forallb ev used }.

(** Taking the slot of a table that is not in the tree. *)
Lemma take_ok root slots used t i :
  tree_inv root slots used → table_index tables t = Ok i → joined slots i = false →
  ∃ s, take_scan_plan i slots = Ok (ScanPlan s, <[i := None]> slots) ∧ scan_tab s = t ∧
       slots !! i = Some (Some s).
Proof.
  intros Hinv Hi Hj. apply table_index_ok in Hi as [Hi _].
  assert (i < length slots)%nat as Hlt.
  { rewrite (ti_len _ _ _ Hinv). apply lookup_lt_Some in Hi. by rewrite <- Hscans, length_fmap in Hi. }
  apply lookup_lt_is_Some in Hlt as [o Ho]. unfold joined in Hj. rewrite Ho in Hj.
  destruct o as [s|]; [|done]. exists s. unfold take_scan_plan. rewrite Ho. split_and!; [done| |done].
  pose proof (ti_slots _ _ _ Hinv _ _ Ho) as Hs. rewrite <- Hscans, list_lookup_fmap, Hs in Hi. cbn in Hi. congruence.
Qed.

Lemma joined_insert slots i j (s : Scan) :
  slots !! i = Some (Some s) → joined (<[i := None]> slots) j = if decide (i = j) then true else joined slots j.
Proof.
  intros Hi. unfold joined. destruct (decide (i = j)) as [<-|Hne].
  - by rewrite list_lookup_insert_eq by (by eapply lookup_lt_Some).
  - by rewrite list_lookup_insert_ne.
Qed.

(** Joining the tree with the scan of a new table. *)
Lemma inv_extend root slots used t i s root' conds :
  tree_inv root slots used → table_index tables t = Ok i → joined slots i = false →
  slots !! i = Some (Some s) → scan_tab s = t →
  plan_scans root' ≡ₚ s :: plan_scans root → is_tree root' → oriented root' →
  forallb ev (join_conds root') = forallb ev conds →
  tree_inv root' (<[i := None]> slots) conds.
Proof.
  intros Hinv Hi Hj Hs Ht Hp Htree Ho Hc.
  assert (plan_tables root' ≡ₚ t :: plan_tables root) as Htab.
  { unfold plan_tables. rewrite Hp, fmap_cons. by rewrite Ht. }
  assert (t ∉ plan_tables root) as Hnew.
  { intros Hin. apply (ti_joined _ _ _ Hinv t i Hi) in Hin. congruence. }
  split; try done.
  - rewrite length_insert. apply Hinv.
  - intros j x Hjx. destruct (decide (i = j)) as [<-|Hne].
    + rewrite list_lookup_insert_eq in Hjx by (by eapply lookup_lt_Some). done.
    + rewrite list_lookup_insert_ne in Hjx by done. by apply Hinv.
  - rewrite Hp. cbn [app]. rewrite Permutation_middle, (take_slot i slots s Hs). apply Hinv.
  - rewrite Htab. apply NoDup_cons. split; [done|apply Hinv].
  - intros t' j Hj'. rewrite (joined_insert _ _ _ s Hs), Htab, elem_of_cons. destruct (decide (i = j)) as [<-|Hne].
    + apply table_index_ok in Hi as [Hi _]. apply table_index_ok in Hj' as [Hj' _].
      split; [intros _|done]. left. congruence.
    + rewrite (ti_joined _ _ _ Hinv t' j Hj'). split; [by right|]. intros [->|?]; [congruence|done].
Qed.

Lemma tables_of_scan s : plan_tables (ScanPlan s) = [scan_tab s].
Proof. done. Qed.

Lemma table_index_ne a b i j : table_index tables a = Ok i → table_index tables b = Ok j → a ≠ b → i ≠ j.
Proof. intros Hi Hj Hab ->. apply table_index_ok in Hi as [Hi _]. apply table_index_ok in Hj as [Hj _]. congruence. Qed.

Lemma used_snoc root slots used c : tree_inv root slots used →
  forallb ev (used ++ [c]) = forallb ev (join_conds root) && ev c.
Proof. intros Hinv. rewrite forallb_app, (ti_conds _ _ _ Hinv). cbn. by rewrite andb_true_r. Qed.

(** Both tables of the condition are in the tree. *)
Lemma attach_inv root slots used c : tree_inv root slots used → join_cond c →
  tc_tab_name (lhs_col c) ∈ plan_tables root → tc_tab_name (rhs_col c) ∈ plan_tables root →
  ∃ root', attach_join_condition c root = (CBoth, root') ∧ tree_inv root' slots (used ++ [c]).
Proof.
  intros Hinv (Hr & _ & _ & Hab) Hia Hjb. destruct (attach_join_condition c root) as [cov root'] eqn:E.
  pose proof (attach_spec c root cov root' (ti_tree _ _ _ Hinv) (ti_nodup _ _ _ Hinv) Hab Hr (ti_oriented _ _ _ Hinv) E) as Hc.
  destruct cov; unfold coverage_ok in Hc; cbv zeta iota in Hc; [tauto|tauto|tauto|].
  destruct Hc as (_ & _ & Hs & Ht & Ho & He). exists root'. split; [done|].
  assert (plan_tables root' = plan_tables root) as Htab by (unfold plan_tables; by rewrite Hs).
  split; try apply Hinv; try done; rewrite ?Hs, ?Htab; try apply Hinv. rewrite (used_snoc _ _ _ _ Hinv). by apply He.
Qed.

Lemma join_condition_inv root slots used c :
  tree_inv root slots used → join_cond c →
  ∃ root' slots', join_condition tables (root, slots) c = Ok (root', slots') ∧
    tree_inv root' slots' (used ++ [c]).
Proof.
  intros Hinv (Hr & Ha & Hb & Hab). unfold join_condition.
  destruct (table_index_elem _ _ Ha) as [i Hi]. destruct (table_index_elem _ _ Hb) as [j Hj].
  rewrite Hi, Hj. step_ok. step_ok.
  pose proof (ti_joined _ _ _ Hinv _ _ Hi) as Ji. pose proof (ti_joined _ _ _ Hinv _ _ Hj) as Jj.
  pose proof (table_index_ne _ _ _ _ Hi Hj Hab) as Hij. pose proof (used_snoc _ _ _ c Hinv) as Hused.
  destruct (joined slots i) eqn:Ei, (joined slots j) eqn:Ej.
  - destruct (attach_inv root slots used c Hinv) as (root' & -> & Hinv'); [done|by apply Ji|by apply Jj|]. by exists root', slots.
  - destruct (take_ok _ _ _ _ _ Hinv Hj Ej) as (s & -> & Hst & Hs).
    step_ok. eexists _, _. split; [done|].
    eapply (inv_extend root slots used _ j s); try done; cbn [nest_loop plan_scans is_tree oriented join_conds].
    + split; [done|apply Hinv].
    + split_and!; [|done|apply Hinv]. constructor; [|done]. split_and!; [done| |by apply Ji].
      apply list_elem_of_singleton. cbn. congruence.
    + rewrite Hused. cbn. rewrite (Hev c Hr). apply andb_comm.
  - destruct (take_ok _ _ _ _ _ Hinv Hi Ei) as (s & -> & Hst & Hs).
    step_ok. eexists _, _. split; [done|].
    eapply (inv_extend root slots used _ i s); try done; cbn [nest_loop plan_scans is_tree oriented join_conds].
    + split; [done|apply Hinv].
    + split_and!; [|done|apply Hinv]. constructor; [|done]. split_and!; [done| |by apply Jj].
      rewrite tables_of_scan, Hst. by left.
    + rewrite Hused. cbn. apply andb_comm.
  - destruct (take_ok _ _ _ _ _ Hinv Hi Ei) as (s & -> & Hst & Hs).
    step_ok.
    assert (tree_inv (nest_loop (ScanPlan s) root []) (<[i := None]> slots) used) as Hinv1.
    { eapply (inv_extend root slots used _ i s); try done; cbn [nest_loop plan_scans is_tree oriented join_conds].
      - split; [done|apply Hinv].
      - split_and!; [done|done|apply Hinv].
      - cbn. apply Hinv. }
    assert (joined (<[i := None]> slots) j = false) as Ej' by (rewrite (joined_insert _ _ _ s Hs), decide_False; done).
    destruct (take_ok _ _ _ _ _ Hinv1 Hj Ej') as (s2 & -> & Hst2 & Hs2).
    step_ok. eexists _, _. split; [done|].
    eapply (inv_extend _ _ _ _ j s2 _ _ Hinv1); try done; cbn [nest_loop plan_scans is_tree oriented join_conds].
    + cbn [app]. apply Permutation_swap.
    + split; [done|apply Hinv].
    + split_and!; [constructor| |done|done|apply Hinv]. constructor; [|done].
      split_and!; [done| |]; rewrite tables_of_scan; [rewrite Hst|rewrite Hst2]; by left.
    + rewrite Hused. cbn. apply andb_comm.
Qed.

Lemma join_conditions_loop_inv conds root slots used :
  tree_inv root slots used → Forall join_cond conds →
  ∃ root' slots', join_conditions_loop tables conds (root, slots) = Ok (root', slots') ∧
    tree_inv root' slots' (used ++ conds).
Proof.
  intros Hinv H. revert root slots used Hinv. induction H as [|c conds Hc _ IH]; intros root slots used Hinv.
  { exists root, slots. by rewrite app_nil_r. }
  cbn [join_conditions_loop]. destruct (join_condition_inv root slots used c Hinv Hc) as (r1 & s1 & -> & H1).
  step_ok. destruct (IH _ _ _ H1) as (r2 & s2 & -> & H2).
  exists r2, s2. by rewrite <- app_assoc in H2.
Qed.

(** One scan alone, the state before any condition. *)
Lemma inv_start t i s :
  table_index tables t = Ok i → scans !! i = Some s → tree_inv (ScanPlan s) (<[i := None]> (Some <$> scans)) [].
Proof.
  intros Hi Hs.
  assert ((Some <$> scans) !! i = Some (Some s)) as Hsl by (by rewrite list_lookup_fmap, Hs).
  assert (scan_tab s = t) as Ht.
  { apply table_index_ok in Hi as [Hi _]. rewrite <- Hscans, list_lookup_fmap, Hs in Hi. cbn in Hi. congruence. }
  assert (∀ l : list Scan, omap id (Some <$> l) = l) as Hom.
  { induction l as [|x l IH]; [done|]. cbn. by rewrite IH. }
  split; try done.
  - by rewrite length_insert, length_fmap.
  - intros j x Hj. destruct (decide (i = j)) as [<-|Hne].
    + rewrite list_lookup_insert_eq in Hj by (by eapply lookup_lt_Some). done.
    + rewrite list_lookup_insert_ne, list_lookup_fmap in Hj by done. by destruct (scans !! j); cbn in Hj; congruence.
  - cbn [plan_scans app]. by rewrite (take_slot i _ s Hsl), Hom.
  - apply NoDup_singleton.
  - intros t' j Hj. rewrite (joined_insert _ _ _ s Hsl), tables_of_scan, list_elem_of_singleton.
    destruct (decide (i = j)) as [<-|Hne].
    + apply table_index_ok in Hj as [Hj _]. apply table_index_ok in Hi as [Hi _]. split; [|done]. congruence.
    + unfold joined. rewrite list_lookup_fmap. split; [by destruct (scans !! j)|]. intros ->. congruence.
Qed.

(** The last loop takes every remaining scan. *)
Lemma cross_join_loop_ok n i root slots :
  (i + n = length slots)%nat → (∀ j, (j < i)%nat → slots !! j = Some None) →
  plan_scans root ++ omap id slots ≡ₚ scans → is_tree root → oriented root →
  ∃ root' slots', cross_join_loop n i (root, slots) = Ok (root', slots') ∧
    plan_scans root' ≡ₚ scans ∧ is_tree root' ∧ oriented root' ∧
    forallb ev (join_conds root') = forallb ev (join_conds root).
Proof.
  revert i root slots. induction n as [|n IH]; intros i root slots Hl Hnone Hp Ht Ho; cbn [cross_join_loop].
  - exists root, slots. split_and!; try done.
    assert (omap id slots = []) as Hnil; [|by rewrite Hnil, app_nil_r in Hp].
    assert (Forall (λ o, o = None) slots) as Hall.
    { apply Forall_lookup. intros j o Hj. rewrite Hnone in Hj; [congruence|].
      apply lookup_lt_Some in Hj. lia. }
    clear -Hall. induction Hall as [|o slots -> _ IH]; [done|exact IH].
  - destruct (slots !! i) as [o|] eqn:Eo; [|apply lookup_ge_None in Eo; lia].
    unfold joined. rewrite Eo. destruct o as [s|].
    + unfold take_scan_plan. rewrite Eo. step_ok.
      destruct (IH (S i) (nest_loop (ScanPlan s) root []) (<[i := None]> slots)) as (r' & s' & -> & H); [| | | | |by exists r', s'].
      * rewrite length_insert. lia.
      * intros j Hj. destruct (decide (i = j)) as [<-|Hne];
          [by rewrite list_lookup_insert_eq by (by eapply lookup_lt_Some)|].
        rewrite list_lookup_insert_ne by done. apply Hnone. lia.
      * cbn [nest_loop plan_scans app]. rewrite Permutation_middle. by rewrite (take_slot i slots s Eo).
      * done.
      * cbn [nest_loop oriented]. split_and!; [constructor|done|done].
    + apply IH; try done; [lia|]. intros j Hj. destruct (decide (i = j)) as [<-|Hne]; [done|]. apply Hnone. lia.
Qed.

(** The first scan, or the join of the first condition. *)
Lemma first_plan_ok conds : scans ≠ [] → Forall join_cond conds →
  ∃ st, match conds with
        | [] => take_scan_plan 0 (Some <$> scans)
        | first :: _ =>
          lhs ← table_index tables (tc_tab_name (lhs_col first));
          rhs ← table_index tables (tc_tab_name (rhs_col first));
          '(l, slots) ← take_scan_plan lhs (Some <$> scans);
          '(r, slots) ← take_scan_plan rhs slots;
          Ok (nest_loop l r [first], slots)
        end = Ok st ∧ tree_inv st.1 st.2 (take 1 conds).
Proof.
  intros Hne Hc.
  destruct conds as [|c conds].
  - assert (∃ s, scans !! 0%nat = Some s) as [s Hs] by (clear -Hne; destruct scans; eauto; done).
    assert (table_index tables (scan_tab s) = Ok 0%nat) as Hi.
    { unfold table_index. rewrite <- Hscans. clear -Hs. destruct scans as [|x l]; [done|].
      injection Hs as ->. cbn. by rewrite decide_True. }
    exists (ScanPlan s, <[0%nat := None]> (Some <$> scans)). split; [|by apply (inv_start (scan_tab s))].
    unfold take_scan_plan. by rewrite (list_lookup_fmap Some scans 0), Hs.
  - apply Forall_inv in Hc. destruct Hc as (Hr & Ha & Hb & Hab).
    destruct (table_index_elem _ _ Ha) as [i Hi]. destruct (table_index_elem _ _ Hb) as [j Hj].
    rewrite Hi, Hj. step_ok. step_ok.
    assert (∃ s, scans !! i = Some s) as [s Hs].
    { apply table_index_ok in Hi as [Hi _]. rewrite <- Hscans, list_lookup_fmap in Hi. by destruct (scans !! i); eauto. }
    pose proof (inv_start _ i s Hi Hs) as H0. 
    assert (take_scan_plan i (Some <$> scans) = Ok (ScanPlan s, <[i := None]> (Some <$> scans))) as ->
      by (unfold take_scan_plan; by rewrite (list_lookup_fmap Some scans i), Hs).
    step_ok.
    pose proof (table_index_ne _ _ _ _ Hi Hj Hab) as Hij.
    assert (scan_tab s = tc_tab_name (lhs_col c)) as Hst.
    { apply table_index_ok in Hi as [Hi _]. rewrite <- Hscans, list_lookup_fmap, Hs in Hi. cbn in Hi. congruence. }
    assert (joined (<[i := None]> (Some <$> scans)) j = false) as Ej.
    { destruct (joined _ j) eqn:E; [|done]. apply (ti_joined _ _ _ H0 _ _ Hj) in E.
      rewrite tables_of_scan, list_elem_of_singleton in E. congruence. }
    destruct (take_ok _ _ _ _ _ H0 Hj Ej) as (s2 & -> & Hst2 & Hs2).
    step_ok. eexists. split; [done|]. cbn [fst snd take].
    eapply (inv_extend _ _ _ _ j s2 _ _ H0); try done; cbn [nest_loop plan_scans is_tree oriented join_conds].
    + cbn [app]. apply Permutation_swap.
    + split_and!; [|done|done]. constructor; [|done].
      split_and!; [done| |]; rewrite tables_of_scan; [rewrite Hst|rewrite Hst2]; by left.
Qed.

Lemma build_join_tree_ok conds :
  scans ≠ [] → Forall join_cond conds →
  ∃ root, build_join_tree tables scans conds = Ok root ∧ plan_scans root ≡ₚ scans ∧ is_tree root ∧ oriented root ∧
    forallb ev (join_conds root) = forallb ev conds.
Proof.
  intros Hne Hc. unfold build_join_tree. cbv zeta.
  destruct (first_plan_ok conds Hne Hc) as ([root slots] & -> & Hinv).
  step_ok. cbn [fst snd] in Hinv.
  destruct (join_conditions_loop_inv (tail conds) root slots (take 1 conds) Hinv) as (r1 & s1 & -> & H1);
    [by destruct Hc|].
  step_ok.
  destruct (cross_join_loop_ok (length tables) 0 r1 s1) as (r2 & s2 & -> & H2 & H3 & H4 & H5).
  { rewrite (ti_len _ _ _ H1). by rewrite <- Hscans, length_fmap. } { intros j Hj. lia. }
  { apply H1. } { apply H1. } { apply H1. }
  exists r2. split_and!; try done. rewrite H5, (ti_conds _ _ _ H1). by destruct conds.
Qed.
End Tree.

(** ** The choice of join algorithms *)

Lemma rotate_key_spec conds key conds' :
  rotate_key conds = Some (key, conds') → conds' ≡ₚ conds ∧ ∃ rest, conds' = key :: rest ∧ merge_key key = true.
Proof.
  unfold rotate_key. destruct (list_find _ conds) as [[i k]|] eqn:E; [|done]. intros [= <- <-].
  apply list_find_Some in E as (Hl & Hk & _). split; [|eexists; split; [done|by apply Is_true_true]].
  rewrite Permutation_middle. by rewrite (take_drop_middle conds i k Hl).
Qed.

Lemma choose_join_algorithm_spec es p ev :
  is_tree p → oriented p →
  let p' := choose_join_algorithm es p in
  plan_scans p' = plan_scans p ∧ oriented p' ∧ merge_ready p' ∧ forallb ev (join_conds p') = forallb ev (join_conds p).
Proof.
  induction p as [s|tag l IHl r IHr cs ty| | | | | | | | |]; intros Ht Ho; try done.
  destruct tag; try done. destruct Ht as [Htl Htr]. destruct Ho as (Ha & Hol & Hor).
  destruct (IHl Htl Hol) as (Hl1 & Hl2 & Hl3 & Hl4). destruct (IHr Htr Hor) as (Hr1 & Hr2 & Hr3 & Hr4).
  assert (Forall (across (choose_join_algorithm es l) (choose_join_algorithm es r)) cs) as Ha'.
  { eapply Forall_impl; [exact Ha|]. intros c. by apply across_ext. }
  cbn [choose_join_algorithm]. cbv zeta.
  destruct es; cbn [negb];
    [destruct (rotate_key cs) as [[key cs']|] eqn:Ek|]; cbn [plan_scans oriented merge_ready join_conds];
    rewrite ?Hl1, ?Hr1, !forallb_app, ?Hl4, ?Hr4; split_and!; try done.
  - apply rotate_key_spec in Ek as [Hp _]. by rewrite Hp.
  - apply rotate_key_spec in Ek as (_ & rest & -> & Hk). unfold merge_key in Hk. split_bools.
    eexists key, rest, _, _. split_and!; done.
  - apply rotate_key_spec in Ek as [Hp _]. by rewrite (forallb_perm ev _ _ Hp).
Qed.

(** ** SELECT *)

(** The conditions no single scan can check join two different tables. *)
Lemma leftover_join_cond db tables c :
  cond_typed db tables c → Forall (λ t, own_condition t c = false) tables → join_cond tables c.
Proof.
  intros (col & [Hl _] & Hc) Ho. rewrite Forall_forall in Ho. specialize (Ho _ Hl). unfold own_condition in Ho.
  rewrite (bool_decide_true (_ = _)) in Ho by done. destruct (is_rhs_val c) eqn:Er; [done|]. cbn in Ho.
  destruct Hc as (d & [Hr _] & _). unfold join_cond. split_and!; try done.
  apply bool_decide_eq_false in Ho. congruence.
Qed.

Lemma build_from_plan_ok db q :
  db_wf db → bound_tables q ≠ [] → Forall (λ n, is_Some (tabs db !! n)) (bound_tables q) →
  Forall (cond_typed db (bound_tables q)) (bound_conds q) →
  ∃ root, build_from_plan db q = Ok root ∧ plan_tables root ≡ₚ bound_tables q ∧ is_tree root ∧ oriented root ∧
    Forall scan_local (plan_scans root) ∧ Forall (scan_indexed db) (plan_scans root) ∧
    ∀ ev, flip_invariant ev → forallb ev (plan_conds root) = forallb ev (bound_conds q).
Proof.
  intros Hdb Hne Htabs Htyped. unfold build_from_plan. rewrite bool_decide_false by done.
  change (throw_if false ?e) with (Ok tt). step_ok.
  destruct (make_scans_spec db Hdb (bound_tables q) (bound_conds q) Htabs) as (scans & rest & -> & Hs & Hp & Hloc & Hix & Hrest).
  step_ok.
  assert (Forall (join_cond (bound_tables q)) rest) as Hj.
  { rewrite Forall_forall in Hrest, Htyped |- *. intros c Hc. destruct (Hrest c Hc) as [Hin Ho].
    by eapply leftover_join_cond; [apply Htyped|]. }
  assert (scans ≠ []) as Hsn by (by intros ->; rewrite <- Hs in Hne).
  assert (∃ root, match bound_tables q, scans with
    | [_], s :: _ => Ok (ScanPlan s)
    | _, _ => build_join_tree (bound_tables q) scans rest end = Ok root ∧
    plan_scans root ≡ₚ scans ∧ is_tree root ∧ oriented root ∧
    ∀ ev, flip_invariant ev → forallb ev (join_conds root) = forallb ev rest) as (root & -> & H1 & H2 & H3 & H4).
  { destruct (build_join_tree_ok (bound_tables q) scans Hs (λ _, true) ltac:(done) rest Hsn Hj) as (root & E & H1 & H2 & H3 & _).
    assert (∀ ev, flip_invariant ev → forallb ev (join_conds root) = forallb ev rest) as H4.
    { intros ev Hev. destruct (build_join_tree_ok (bound_tables q) scans Hs ev Hev rest Hsn Hj) as (root' & E' & _ & _ & _ & H4).
      congruence. }
    destruct (bound_tables q) as [|t1 [|t2 ts]] eqn:Et, scans as [|s1 ss] eqn:Es; try done; try (by exists root).
    destruct ss; [|done]. exists (ScanPlan s1). split_and!; try done. intros ev Hev.
    destruct rest as [|c rest]; [done|]. apply Forall_inv in Hj as (_ & Ha & Hb & Hab).
    apply list_elem_of_singleton in Ha, Hb. congruence. }
  exists root. split_and!; try done.
  - unfold plan_tables. rewrite H1. by rewrite Hs.
  - by rewrite H1.
  - by rewrite H1.
  - intros ev Hev. rewrite <- (forallb_perm ev _ _ Hp). unfold plan_conds. rewrite !forallb_app, H4 by done.
    rewrite andb_comm. f_equal. apply forallb_perm. by rewrite H1.
Qed.

Lemma select_plan_ok db es s q :
  db_wf db → analyze_select db s = Ok q →
  ∃ tree, let root := choose_join_algorithm es tree in
    plan_query db es q = Ok (SelectPlan (ProjectionPlan
      match bound_order_col q with Some c => SortPlan root c (bound_order_desc q) | None => root end (bound_cols q))) ∧
    is_tree tree ∧ oriented tree ∧ plan_scans root = plan_scans tree ∧ plan_tables root ≡ₚ bound_tables q ∧
    Forall scan_local (plan_scans tree) ∧ Forall (scan_indexed db) (plan_scans tree) ∧
    ∀ ev, flip_invariant ev → forallb ev (plan_conds tree) = forallb ev (bound_conds q).
Proof.
  intros Hdb H. destruct (analyze_select_typed db s q Hdb H) as (Hst & Hne & Htabs & _ & _ & Hconds).
  destruct (build_from_plan_ok db q Hdb Hne Htabs Hconds) as (root & E & H1 & H2 & H3 & H4 & H5 & H6).
  exists root. cbv zeta. destruct (choose_join_algorithm_spec es root (λ _, true) H2 H3) as (Hs & _). split_and!; try done.
  - unfold plan_query, do_planner, plan_select, logical_optimization, physical_optimization. rewrite Hst, E.
    by destruct (bound_order_col q).
  - unfold plan_tables. by rewrite Hs.
Qed.

(** C12. Planning a bound SELECT always succeeds and preserves the query: the plan
    projects the bound columns, sorts on the ORDER BY column if there is one, scans
    exactly the FROM tables, each scan with conditions on its own table only; every
    join condition compares a column of the left child with one of the right child; a
    sort-merge join has children sorted on its first condition, an equality; and for
    every row combination, the conditions of the plan hold exactly when the WHERE
    conditions hold, for every comparison of values that is antisymmetric. *)
Theorem select_plan_correct db es s q :
  db_wf db → analyze_select db s = Ok q →
  ∃ root, let sorted := match bound_order_col q with
                        | Some c => SortPlan root c (bound_order_desc q) | None => root end in
    plan_query db es q = Ok (SelectPlan (ProjectionPlan sorted (bound_cols q))) ∧
    plan_tables root ≡ₚ bound_tables q ∧ Forall scan_local (plan_scans root) ∧ oriented root ∧ merge_ready root ∧
    ∀ V (cmp : V → V → comparison) val lit, (∀ a b, cmp b a = CompOpp (cmp a b)) →
      forallb (eval_cond cmp val lit) (plan_conds root) = forallb (eval_cond cmp val lit) (bound_conds q).
Proof.
  intros Hdb H. destruct (select_plan_ok db es s q Hdb H) as (root & H0 & H1 & H2 & Hs & H3 & H4 & _ & H6).
  exists (choose_join_algorithm es root). cbv zeta.
  destruct (choose_join_algorithm_spec es root (λ _, true) H1 H2) as (_ & Ho & Hm & _). rewrite Hs. split_and!; try done.
  intros V cmp val lit Hc. rewrite <- H6 by (by apply eval_cond_flip).
  destruct (choose_join_algorithm_spec es root (eval_cond cmp val lit) H1 H2) as (_ & _ & _ & Hcs).
  unfold plan_conds. by rewrite !forallb_app, Hs, Hcs.
Qed.

(** A catalog of two tables, for queries with joins. *)
Definition second_table : TabMeta :=
  mkTab "u" [mkCol "u" "id" TYPE_INT 4 0 false; mkCol "u" "x" TYPE_INT 4 4 false] [].

Definition join_db : DbMeta := mkDb "db" (<["u"%string := second_table]> {["t"%string := sample_table]}).

Lemma join_db_wf : db_wf join_db.
Proof.
  split; [done|]. cbn [tabs join_db]. apply map_Forall_insert_2; [|exact (proj2 sample_db_wf)].
  split; [done|]. split_and!.
  - done.
  - done.
  - apply (bool_decide_unpack _). vm_compute. exact I.
  - vm_compute. repeat split; discriminate.
  - repeat constructor.
  - constructor.
  - constructor.
Qed.

(** SELECT * FROM t, u WHERE u.id = t.id AND t.id = 3 AND x > t.id ORDER BY x *)
Definition join_select : SelectStmt :=
  let cmp a op b := Some (BinaryExpr (Some a) op (Some b)) in
  mkSelect [Some (StarExpr "")]
    (Some (JoinNode Cross (Some (TableRef (inl "t"%string) "")) (Some (TableRef (inl "u"%string) "")) None))
    (Some (LogicalExpr And
      (Some (LogicalExpr And (cmp ("u", "id")%string Eq (Col "t" "id")) (cmp ("t", "id")%string Eq (IntLit 3))))
      (cmp (""%string, "x"%string) Gt (Col "t" "id"))))
    [] None [Some (Some (Col "" "x"), Default)] None.

Lemma select_plan_correct_witness :
  ∃ q root, analyze_select join_db join_select = Ok q ∧ length (bound_conds q) = 3%nat ∧
    plan_query join_db true q = Ok (SelectPlan (ProjectionPlan (SortPlan root (mkTabCol "u" "x") false) (bound_cols q))) ∧
    plan_tables root ≡ₚ ["t"; "u"]%string ∧ merge_ready root.
Proof.
  destruct (analyze_select join_db join_select) as [q|e|] eqn:E; [|vm_compute in E; discriminate..].
  destruct (select_plan_correct join_db true join_select q join_db_wf E) as (root & H1 & H2 & _ & _ & H4 & _).
  exists q, root. vm_compute in E. injection E as <-. split_and!; [done|done|exact H1|exact H2|exact H4].
Defined.

(** ** Index choice *)

Definition record_len (cols : list ColMeta) : Z := foldl (λ n c, n + col_len c) 0 cols.

Lemma laid_out_last tab cols c :
  laid_out tab 0 cols → last cols = Some c → col_offset c + col_len c = record_len cols.
Proof.
  intros Hl Hc. apply last_Some in Hc as [l ->]. apply laid_out_snoc in Hl as [_ Hl]. unfold record_len.
  rewrite foldl_app. cbn in Hl |- *. lia.
Qed.

(** A scan uses an index exactly when every column of some index of its table is
    fixed by an equality condition with a literal, and then it uses such an index with
    the largest number of columns; otherwise it is a sequential scan.  Its conditions
    and record length are those of the statement and of the table. *)
Theorem scan_access_path db table t conds :
  db_wf db → tabs db !! table = Some t →
  ∃ s, make_scan_plan db table conds = Ok s ∧ scan_tab s = table ∧ scan_conds s = conds ∧
    scan_cols s = tab_cols t ∧ scan_len s = record_len (tab_cols t) ∧
    if existsb (usable table conds) (tab_indexes t)
    then scan_tag s = T_IndexScan ∧ ∃ i, i ∈ tab_indexes t ∧ index_col_names s = names (idx_cols i) ∧
      usable table conds i = true ∧
      ∀ k, k ∈ tab_indexes t → usable table conds k = true → (length (idx_cols k) ≤ length (idx_cols i))%nat
    else scan_tag s = T_SeqScan ∧ index_col_names s = [].
Proof.
  intros Hdb Ht. unfold make_scan_plan, choose_index, make_scan.
  assert (get_table db table = Ok t) as -> by (by apply get_table_ok).
  destruct (db_table db Hdb _ _ Ht) as [_ (_ & Hne & _ & Hlay & _ & Hidx & _)].
  step_ok. step_ok.
  step_ok.
  destruct (last (tab_cols t)) as [c|] eqn:El; [|by apply last_None in El].
  eexists. split; [reflexivity|]. cbn [scan_tab scan_conds scan_cols scan_len scan_tag index_col_names].
  split_and!; try done; [by eapply laid_out_last|].
  destruct (choose_index_loop_spec table conds (tab_indexes t) []) as (H1 & _ & H3).
  destruct (existsb (usable table conds) (tab_indexes t)) eqn:Ex.
  - apply existsb_exists in Ex as (k & Hk & Hu). apply list_elem_of_In in Hk.
    rewrite Forall_forall in Hidx. destruct (Hidx k Hk) as (Hkn & _). specialize (H3 k Hk Hu) as Hlen.
    destruct H1 as [H1|(i & Hi & Hiu & H1)]; [rewrite H1 in Hlen; cbn in Hlen; destruct (idx_cols k); [done|cbn in Hlen; lia]|].
    rewrite H1 in *. split.
    + rewrite bool_decide_false; [done|]. intros Hn. rewrite Hn in Hlen. destruct (idx_cols k); [done|cbn in Hlen; lia].
    + exists i. split_and!; try done. intros k' Hk' Hu'. specialize (H3 k' Hk' Hu').
      unfold names in H3. by rewrite length_fmap in H3.
  - destruct H1 as [-> | (i & Hi & Hiu & _)]; [done|]. assert (existsb (usable table conds) (tab_indexes t) = true); [|congruence].
    apply existsb_exists. exists i. split; [by apply list_elem_of_In|done].
Qed.

Lemma scan_access_path_witness :
  let c := mkCond (mkTabCol "t" "id") OP_EQ true (mkTabCol "" "") (set_int Value_default 3) in
  ∃ s, make_scan_plan sample_db "t" [c] = Ok s ∧ scan_tag s = T_IndexScan.
Proof.
  intros c. destruct (scan_access_path sample_db "t" sample_table [c] sample_db_wf eq_refl) as (s & H & _ & _ & _ & _ & Hi).
  exists s. split; [exact H|exact (proj1 Hi)].
Defined.

(** ** Every statement *)

Lemma select_plans db es s q : db_wf db → analyze_select db s = Ok q → ∃ plan, plan_query db es q = Ok plan.
Proof.
  intros Hdb H. destruct (analyze_select_typed db s q Hdb H) as (Hst & Hne & Htabs & _ & _ & Hconds).
  destruct (build_from_plan_ok db q Hdb Hne Htabs Hconds) as (root & E & _). eexists.
  unfold plan_query, do_planner, plan_select, logical_optimization, physical_optimization. by rewrite Hst, E.
Qed.

(** The target of a DML statement is the table it names. *)
Lemma target_table db n t : db_wf db → get_table db n = Ok t → tab_name t = n ∧ n ≠ ""%string ∧ is_Some (tabs db !! n).
Proof.
  intros Hdb Ht. apply get_table_ok in Ht. destruct (db_table db Hdb _ _ Ht) as [<- (Hn & _)]. by split_and!.
Qed.

(** Planning never fails after analysis: over a well-formed catalog every statement
    the analyzer accepts gets a plan, so that none of the planner's internal errors can
    be reached.  DELETE and UPDATE scan the table they change with exactly the bound
    WHERE conditions, and INSERT carries the bound values. *)
Theorem plan_total db es st q :
  db_wf db → analyze db (Some st) = Ok q →
  ∃ plan, plan_query db es q = Ok plan ∧
    match st with
    | Insert_ s => plan = InsertPlan (ins_tab s) (bound_values q)
    | Delete_ s => ∃ scan, plan = DeletePlan (ScanPlan scan) (del_tab s) (bound_conds q) ∧
        make_scan_plan db (del_tab s) (bound_conds q) = Ok scan
    | Update_ s => ∃ scan, plan = UpdatePlan (ScanPlan scan) (upd_tab s) (bound_conds q) (bound_set_clauses q) ∧
        make_scan_plan db (upd_tab s) (bound_conds q) = Ok scan
    | _ => True
    end.
Proof.
  intros Hdb H. destruct st; cbn [analyze] in H; try (injection H as <-; by eexists).
  - unfold analyze_set_knob in H. repeat (case_match || apply bind_ok in H as (? & _ & H)); try done;
      injection H as <-; by eexists.
  - unfold analyze_insert in H. apply bind_ok in H as (t & Ht & H). destruct (target_table db _ t Hdb Ht) as (Hn & Hne & _).
    apply bind_ok in H as (? & _ & H). apply bind_ok in H as (? & _ & [= <-]).
    unfold plan_query, do_planner. cbn. rewrite Hn, bool_decide_false by done. by eexists.
  - unfold analyze_delete in H. apply bind_ok in H as (t & Ht & H). destruct (target_table db _ t Hdb Ht) as (Hn & Hne & Hs).
    apply bind_ok in H as (? & _ & H). apply bind_ok in H as (conds & _ & [= <-]).
    unfold plan_query, do_planner. cbn. rewrite Hn, bool_decide_false by done.
    destruct (make_scan_plan_ok db Hdb _ conds Hs) as (scan & E & _). rewrite E. eexists. split; [done|]. by eexists.
  - unfold analyze_update in H. apply bind_ok in H as (t & Ht & H). destruct (target_table db _ t Hdb Ht) as (Hn & Hne & Hs).
    apply bind_ok in H as (? & _ & H). apply bind_ok in H as (? & _ & H). apply bind_ok in H as (conds & _ & [= <-]).
    unfold plan_query, do_planner. cbn. rewrite Hn, bool_decide_false by done.
    destruct (make_scan_plan_ok db Hdb _ conds Hs) as (scan & E & _). rewrite E. eexists. split; [done|]. by eexists.
  - destruct (select_plans db es _ q Hdb H) as [plan Hp]. by exists plan.
Qed.

Definition sample_delete : DeleteStmt :=
  mkDelete "t" (Some (BinaryExpr (Some (""%string, "id"%string)) Eq (Some (IntLit 3)))).

Lemma plan_total_witness :
  ∃ q scan, analyze sample_db (Some (Delete_ sample_delete)) = Ok q ∧
    plan_query sample_db true q = Ok (DeletePlan (ScanPlan scan) "t" (bound_conds q)).
Proof.
  destruct (analyze sample_db (Some (Delete_ sample_delete))) as [q|e|] eqn:E; [|vm_compute in E; discriminate..].
  destruct (plan_total sample_db true (Delete_ sample_delete) q sample_db_wf E) as (plan & H & scan & -> & _).
  by exists q, scan.
Defined.
