(* ===== verification/Record.v ===== *)
(** * Record files: bitmaps, page layout and record buffers

    Models [src/src/record/bitmap.h], the file header that [RmManager::create_file]
    computes ([rm_manager.h]), the page view of [rm_file_handle.h] and the owning buffer
    [RmRecord] of [rm_defs.h].  An access outside a buffer is undefined behaviour and is
    [Crash]; so is a second [delete] of a block. *)

From S2P Require Import Prelude Common Catalog.

Module Bitmap.

Definition BITMAP_WIDTH : Z := 8.
Definition BITMAP_HIGHEST_BIT : Z := 128.

Definition get_bucket (pos : Z) : Z := Z.quot pos BITMAP_WIDTH.
Definition get_bit (pos : Z) : Z := u8 (Z.shiftr BITMAP_HIGHEST_BIT (Z.rem pos BITMAP_WIDTH)).

(** [bytes[i]], inside the buffer or undefined. *)
Definition at_ (bm : bytes) (i : Z) : result byte :=
  match bm !! Z.to_nat i with
  | Some b => if i <? 0 then Crash else Ok b
  | None => Crash
  end.

Definition store (bm : bytes) (i : Z) (z : Z) : bytes := <[Z.to_nat i := byte.of_Z z]> bm.

(** [memset(bm, 0, size)] on a buffer of at least [size] bytes. *)
Definition init (bm : bytes) (size : Z) : bytes := replicate (Z.to_nat size) Byte.x00 ++ zdrop size bm.

Definition set (bm : bytes) (pos : Z) : result bytes :=
  b ← at_ bm (get_bucket pos);
  Ok (store bm (get_bucket pos) (Z.lor (byte.unsigned b) (get_bit pos))).

Definition reset (bm : bytes) (pos : Z) : result bytes :=
  b ← at_ bm (get_bucket pos);
  Ok (store bm (get_bucket pos) (Z.land (byte.unsigned b) (u8 (Z.lnot (get_bit pos))))).

Definition is_set (bm : bytes) (pos : Z) : result bool :=
  b ← at_ bm (get_bucket pos);
  Ok (negb (Z.land (byte.unsigned b) (get_bit pos) =? 0)).

(** The loop of [next_bit] from [i], with [n] positions left before [max_n]. *)
Fixpoint next_bit_loop (n : nat) (bit : bool) (bm : bytes) (max_n i : Z) : result Z :=
  match n with
  | O => Ok max_n
  | S n =>
    b ← is_set bm i;
    if Bool.eqb b bit then Ok i else next_bit_loop n bit bm max_n (i + 1)
  end.

Definition next_bit (bit : bool) (bm : bytes) (max_n curr : Z) : result Z :=
  next_bit_loop (Z.to_nat (max_n - (curr + 1))) bit bm max_n (curr + 1).

Definition first_bit (bit : bool) (bm : bytes) (max_n : Z) : result Z := next_bit bit bm max_n (-1).

End Bitmap.

(** ** The record file *)

Definition PAGE_SIZE : Z := 4096.
Definition OFFSET_PAGE_HDR : Z := 4.
Definition RM_NO_PAGE : Z := -1.
Definition RM_FILE_HDR_PAGE : Z := 0.
Definition RM_FIRST_RECORD_PAGE : Z := 1.

(** [RmPageHdr]: two 32-bit integers. *)
Definition sizeof_RmPageHdr : Z := 8.

Record RmFileHdr := mkFileHdr {
  record_size : Z; num_pages : Z; num_records_per_page : Z; first_free_page_no : Z; bitmap_size : Z }.

Definition bitmap_bytes (num_records : Z) : Z :=
  Z.quot (num_records + Bitmap.BITMAP_WIDTH - 1) Bitmap.BITMAP_WIDTH.

Definition required_bytes (num_records record_size : Z) : Z :=
  OFFSET_PAGE_HDR + sizeof_RmPageHdr + bitmap_bytes num_records + num_records * record_size.

(** [while (true)]: one record fewer until the layout fits; [None] only without fuel. *)
Fixpoint layout_loop (fuel : nat) (num_records record_size : Z) : option Z :=
  match fuel with
  | O => None
  | S fuel =>
    if required_bytes num_records record_size <=? PAGE_SIZE then Some num_records
    else layout_loop fuel (num_records - 1) record_size
  end.

Definition first_guess (record_size : Z) : Z :=
  Z.quot (PAGE_SIZE - OFFSET_PAGE_HDR - sizeof_RmPageHdr) record_size.

(** The header [create_file] writes to page 0; fuel for every value the loop can see. *)
Definition new_file_hdr (record_size : Z) : result RmFileHdr :=
  _ ← throw_if ((record_size <? 1) || (RM_MAX_RECORD_SIZE <? record_size)) (InvalidRecordSizeError record_size);
  match layout_loop (S (Z.to_nat (first_guess record_size))) (first_guess record_size) record_size with
  | Some n => Ok (mkFileHdr record_size RM_FIRST_RECORD_PAGE n RM_NO_PAGE (bitmap_bytes n))
  | None => Crash
  end.

(** Offsets of the page view [RmPageHandle] in its page. *)
Definition page_hdr_offset : Z := OFFSET_PAGE_HDR.
Definition bitmap_offset : Z := OFFSET_PAGE_HDR + sizeof_RmPageHdr.
Definition slots_offset (hdr : RmFileHdr) : Z := bitmap_offset + bitmap_size hdr.
Definition get_slot (hdr : RmFileHdr) (slot_no : Z) : Z := slots_offset hdr + slot_no * record_size hdr.

(** ** [RmRecord]

    The heap maps the blocks of [new char[]] to their contents; a record holds a
    pointer, a size and the ownership flag. *)

Module RmRecord.

Notation loc := positive.
Notation heap := (gmap loc bytes).

Record t := mk { data : option loc; size : Z; allocated_ : bool }.

Definition empty : t := mk None 0 false.

(** [new char[n]]: the contents are whatever the memory held, [junk]. *)
Definition new (h : heap) (contents : bytes) : loc * heap :=
  let l := fresh (dom h) in (l, <[l := contents]> h).

(** [delete[] p]; a block is deleted once. *)
Definition delete_block (h : heap) (l : loc) : result heap :=
  match h !! l with Some _ => Ok (delete l h) | None => Crash end.

Definition load (h : heap) (p : option loc) (n : Z) : result bytes :=
  match p ≫= (h !!.) with
  | Some bs => if (0 <=? n) && (n <=? zlen bs) then Ok (ztake n bs) else Crash
  | None => Crash
  end.

Definition release (h : heap) (r : t) : result (heap * t) :=
  h ← match allocated_ r, data r with
      | true, Some l => delete_block h l
      | _, _ => Ok h
      end;
  Ok (h, empty).

(** The copy's pointer. *)
Definition copy_data (h : heap) (other : t) : result (option loc * heap) :=
  _ ← throw_if ((size other <? 0) || ((0 <? size other) && bool_decide (data other = None)))
        (InternalError "RmRecord: invalid source record");
  if size other =? 0 then Ok (None, h)
  else
    bs ← load h (data other) (size other);
    let '(l, h) := new h bs in Ok (Some l, h).

Definition owning (p : option loc) (n : Z) : t := mk p n (bool_decide (p ≠ None)).

(** [RmRecord(const RmRecord&)], through [assign_from]. *)
Definition copy_construct (h : heap) (other : t) : result (heap * t) :=
  '(p, h) ← copy_data h other;
  Ok (h, owning p (size other)).

(** [operator=(const RmRecord&)] for [this != &other]. *)
Definition copy_assign (h : heap) (this other : t) : result (heap * t) :=
  '(p, h) ← copy_data h other;
  '(h, _) ← release h this;
  Ok (h, owning p (size other)).

(** [RmRecord(RmRecord&&)]: the new record, and [other] after the call. *)
Definition move_construct (other : t) : t * t := (mk (data other) (size other) (allocated_ other), empty).

(** [operator=(RmRecord&&)] for [this != &other]. *)
Definition move_assign (h : heap) (this other : t) : result (heap * t * t) :=
  '(h, _) ← release h this;
  Ok (h, mk (data other) (size other) (allocated_ other), empty).

(** [RmRecord(int size_)]; [junk] is what the new block happens to hold. *)
Definition make (h : heap) (size_ : Z) (junk : bytes) : result (heap * t) :=
  _ ← throw_if (size_ <? 0) (InvalidRecordSizeError size_);
  if 0 <? size_
  then let '(l, h) := new h (ztake size_ junk ++ replicate (Z.to_nat (size_ - zlen junk)) Byte.x00) in
       Ok (h, mk (Some l) size_ true)
  else Ok (h, mk None size_ false).

(** [RmRecord(int size_, const char* data_)]; the source buffer may be null. *)
Definition make_from (h : heap) (size_ : Z) (data_ : option bytes) : result (heap * t) :=
  _ ← throw_if (size_ <? 0) (InvalidRecordSizeError size_);
  if 0 <? size_
  then match data_ with
       | None => Throw (InternalError "RmRecord: null source data")
       | Some bs =>
         if zlen bs <? size_ then Crash
         else let '(l, h) := new h (ztake size_ bs) in Ok (h, mk (Some l) size_ true)
       end
  else Ok (h, mk None size_ false).

Definition SetData (h : heap) (this : t) (data_ : option bytes) : result heap :=
  _ ← throw_if ((0 <? size this) && bool_decide (data_ = None)) (InternalError "RmRecord: null source data");
  if 0 <? size this
  then match data_, data this with
       | Some bs, Some l =>
         match h !! l with
         | Some old => if (zlen bs <? size this) || (zlen old <? size this) then Crash
                       else Ok (<[l := ztake (size this) bs ++ zdrop (size this) old]> h)
         | None => Crash
         end
       | _, _ => Crash
       end
  else Ok h.

Definition Deserialize (h : heap) (this : t) (data_ : option bytes) : result (heap * t) :=
  match data_ with
  | None => Throw (InternalError "RmRecord: null serialized data")
  | Some bs =>
    if zlen bs <? 4 then Crash
    else
      let decoded_size := s32 (le_combine (ztake 4 bs)) in
      _ ← throw_if ((decoded_size <? 0) || (RM_MAX_RECORD_SIZE <? decoded_size)) (InvalidRecordSizeError decoded_size);
      if zlen bs <? 4 + decoded_size then Crash
      else
        let '(p, h) := if decoded_size =? 0 then (None, h)
                       else let '(l, h) := new h (ztake decoded_size (zdrop 4 bs)) in (Some l, h) in
        '(h, _) ← release h this;
        Ok (h, owning p decoded_size)
  end.

(** ** Programs with records

    Records live in variables; a constructor needs a variable that is not in use, the
    other operations need variables in use, and an assignment to itself does nothing.
    An exception leaves the variables as they were. *)

Inductive op :=
| Make (x : nat) (n : Z) (junk : bytes)
| MakeFrom (x : nat) (n : Z) (src : option bytes)
| Copy (x y : nat)
| Move (x y : nat)
| AssignCopy (x y : nat)
| AssignMove (x y : nat)
| SetFrom (x : nat) (src : option bytes)
| DeserializeFrom (x : nat) (src : option bytes)
| Destroy (x : nat).

Definition state : Type := heap * gmap nat t.

Definition attempt (st : state) (m : result state) : result state :=
  match m with Throw _ => Ok st | m => m end.

Definition step (st : state) (o : op) : result state :=
  let '(h, vars) := st in
  attempt st
    match o with
    | Make x n junk =>
      match vars !! x with
      | None => '(h, r) ← make h n junk; Ok (h, <[x := r]> vars)
      | Some _ => Ok st
      end
    | MakeFrom x n src =>
      match vars !! x with
      | None => '(h, r) ← make_from h n src; Ok (h, <[x := r]> vars)
      | Some _ => Ok st
      end
    | Copy x y =>
      match vars !! x, vars !! y with
      | None, Some other => '(h, r) ← copy_construct h other; Ok (h, <[x := r]> vars)
      | _, _ => Ok st
      end
    | Move x y =>
      match vars !! x, vars !! y with
      | None, Some other => let '(r, other) := move_construct other in Ok (h, <[x := r]> (<[y := other]> vars))
      | _, _ => Ok st
      end
    | AssignCopy x y =>
      match vars !! x, vars !! y with
      | Some this, Some other =>
        if bool_decide (x = y) then Ok st
        else '(h, r) ← copy_assign h this other; Ok (h, <[x := r]> vars)
      | _, _ => Ok st
      end
    | AssignMove x y =>
      match vars !! x, vars !! y with
      | Some this, Some other =>
        if bool_decide (x = y) then Ok st
        else '(h, r, other) ← move_assign h this other; Ok (h, <[x := r]> (<[y := other]> vars))
      | _, _ => Ok st
      end
    | SetFrom x src =>
      match vars !! x with
      | Some this => h ← SetData h this src; Ok (h, vars)
      | None => Ok st
      end
    | DeserializeFrom x src =>
      match vars !! x with
      | Some this => '(h, r) ← Deserialize h this src; Ok (h, <[x := r]> vars)
      | None => Ok st
      end
    | Destroy x =>
      match vars !! x with
      | Some this => '(h, _) ← release h this; Ok (h, delete x vars)
      | None => Ok st
      end
    end.

Fixpoint run_ops (st : state) (ops : list op) : result state :=
  match ops with
  | [] => Ok st
  | o :: ops => st ← step st o; run_ops st ops
  end.

End RmRecord.
