(* ===== verification/RecordFacts.v ===== *)
(** * Correctness of the record files' building blocks

    The bitmap refines a vector of booleans, the page layout is the largest that fits
    and its slots do not overlap, and [RmRecord] behaves as a value: no double free, no
    leak, no aliasing. *)

From S2P Require Import Prelude Common Catalog Record.

Section BitmapFacts.
Import Bitmap.

(** The abstract bitmap: bit [p] of the vector is bit [7 - p mod 8] of byte [p / 8]. *)
Definition bit_at (bm : bytes) (p : nat) : bool :=
  match bm !! (p `div` 8)%nat with
  | Some b => Z.testbit (byte.unsigned b) (7 - Z.of_nat (p mod 8))
  | None => false
  end.

Definition bits (bm : bytes) : list bool := bit_at bm <$> seq 0 (8 * length bm).

Lemma bits_length bm : length (bits bm) = (8 * length bm)%nat.
Proof. unfold bits. by rewrite length_fmap, length_seq. Qed.

Lemma bits_lookup bm p : (p < 8 * length bm)%nat → bits bm !! p = Some (bit_at bm p).
Proof. intros H. unfold bits. rewrite list_lookup_fmap, lookup_seq_lt by done. done. Qed.

Lemma get_bucket_nat p : get_bucket (Z.of_nat p) = Z.of_nat (p `div` 8).
Proof. unfold get_bucket, BITMAP_WIDTH. rewrite Z.quot_div_nonneg by lia. by rewrite Nat2Z.inj_div. Qed.

Lemma get_bit_nat p : get_bit (Z.of_nat p) = 2 ^ (7 - Z.of_nat (p mod 8)).
Proof.
  unfold get_bit, BITMAP_WIDTH, BITMAP_HIGHEST_BIT. rewrite Z.rem_mod_nonneg by lia.
  replace (Z.of_nat p mod 8) with (Z.of_nat (p mod 8)) by (rewrite Nat2Z.inj_mod; done).
  assert (p mod 8 < 8)%nat as H by (apply Nat.mod_upper_bound; lia).
  revert H. generalize (p mod 8)%nat. intros k Hk. do 8 (destruct k as [|k]; [reflexivity|]). lia.
Qed.

Lemma at_nat bm p : (p < 8 * length bm)%nat → ∃ b, bm !! (p `div` 8)%nat = Some b ∧ at_ bm (get_bucket (Z.of_nat p)) = Ok b.
Proof.
  intros H. assert (p `div` 8 < length bm)%nat as Hd by (apply Nat.Div0.div_lt_upper_bound; lia).
  apply lookup_lt_is_Some in Hd as [b Hb]. exists b. split; [done|].
  unfold at_. rewrite get_bucket_nat, Nat2Z.id, Hb. by zbool.
Qed.

(** [is_set] reads the abstract bit. *)
Lemma is_set_bits bm p : (p < 8 * length bm)%nat → is_set bm (Z.of_nat p) = Ok (bit_at bm p).
Proof.
  intros H. unfold is_set. destruct (at_nat bm p H) as (b & Hb & ->). step_ok.
  unfold bit_at. rewrite Hb, get_bit_nat. f_equal.
  assert (p mod 8 < 8)%nat as Hm by (apply Nat.mod_upper_bound; lia).
  assert (0 ≤ 7 - Z.of_nat (p mod 8)) as Hn by lia. revert Hn. generalize (7 - Z.of_nat (p mod 8)). intros n Hn.
  destruct (Z.testbit (byte.unsigned b) n) eqn:E.
  - apply negb_true_iff, Z.eqb_neq. intros H0. apply (f_equal (λ z, Z.testbit z n)) in H0.
    rewrite Z.land_spec, E, Z.pow2_bits_true, Z.bits_0 in H0 by done. done.
  - apply negb_false_iff, Z.eqb_eq. apply Z.bits_inj'. intros k Hk. rewrite Z.land_spec, Z.bits_0.
    destruct (decide (n = k)) as [<-|Hne]; [by rewrite E|]. rewrite Z.pow2_bits_false by done. by rewrite andb_false_r.
Qed.

(** A store that changes one bit of one byte changes one abstract bit. *)
Lemma bits_store bm p b z v :
  (p < 8 * length bm)%nat → bm !! (p `div` 8)%nat = Some b →
  (∀ k, 0 ≤ k < 8 → Z.testbit (z mod 2 ^ 8) k = if k =? 7 - Z.of_nat (p mod 8) then v else Z.testbit (byte.unsigned b) k) →
  bits (store bm (get_bucket (Z.of_nat p)) z) = <[p := v]> (bits bm).
Proof.
  intros Hp Hb Hz. unfold store. rewrite get_bucket_nat, Nat2Z.id.
  apply list_eq_same_length with (n := (8 * length bm)%nat).
  { by rewrite length_insert, bits_length. } { by rewrite bits_length, length_insert. }
  intros q x y Hq. rewrite bits_lookup by (by rewrite length_insert). intros [= <-].
  assert (q mod 8 < 8)%nat as Hqm by (apply Nat.mod_upper_bound; lia).
  destruct (decide (p = q)) as [<-|Hne].
  - rewrite list_lookup_insert_eq by (by rewrite bits_length). intros [= <-]. unfold bit_at.
    rewrite list_lookup_insert_eq by (by eapply lookup_lt_Some). rewrite byte.unsigned_of_Z. unfold byte.wrap.
    rewrite Hz by lia. by rewrite Z.eqb_refl.
  - rewrite list_lookup_insert_ne, bits_lookup by done. intros [= <-]. unfold bit_at.
    destruct (decide (p `div` 8 = q `div` 8)%nat) as [Heq|Hd].
    + rewrite <- Heq, list_lookup_insert_eq by (by eapply lookup_lt_Some). rewrite Hb, byte.unsigned_of_Z. unfold byte.wrap.
      rewrite Hz by lia. rewrite (proj2 (Z.eqb_neq _ _)); [done|]. intros Hm. apply Hne.
      rewrite (Nat.div_mod_eq p 8), (Nat.div_mod_eq q 8). lia.
    + by rewrite list_lookup_insert_ne by done.
Qed.

(** C27. The record bitmap is a vector of booleans: inside its bytes, [is_set] reads one
    element, [set] and [reset] update exactly that element and keep the length, and
    [init] clears it. *)
Theorem bitmap_refines bm p :
  (p < 8 * length bm)%nat →
  is_set bm (Z.of_nat p) = Ok (bits bm !!! p) ∧
  (∃ bm', set bm (Z.of_nat p) = Ok bm' ∧ bits bm' = <[p := true]> (bits bm) ∧ length bm' = length bm) ∧
  (∃ bm', reset bm (Z.of_nat p) = Ok bm' ∧ bits bm' = <[p := false]> (bits bm) ∧ length bm' = length bm) ∧
  bits (init bm (zlen bm)) = replicate (8 * length bm) false.
Proof.
  intros Hp. destruct (at_nat bm p Hp) as (b & Hb & Hat).
  assert (p mod 8 < 8)%nat as Hm by (apply Nat.mod_upper_bound; lia).
  pose proof (byte.unsigned_range b) as Hrange. split_and!.
  - rewrite is_set_bits by done. f_equal. symmetry. apply list_lookup_total_correct. by apply bits_lookup.
  - unfold set. rewrite Hat. eexists. split; [done|]. split; [|by unfold store; rewrite length_insert].
    eapply bits_store; [done|done|]. intros k Hk. rewrite get_bit_nat.
    rewrite Z.mod_pow2_bits_low, Z.lor_spec, Z.pow2_bits_eqb by lia.
    rewrite (Z.eqb_sym k). destruct (7 - Z.of_nat (p mod 8) =? k); [apply orb_true_r|apply orb_false_r].
  - unfold reset. rewrite Hat. eexists. split; [done|]. split; [|by unfold store; rewrite length_insert].
    eapply bits_store; [done|done|]. intros k Hk. rewrite get_bit_nat. unfold u8.
    rewrite Z.mod_pow2_bits_low, Z.land_spec, Z.mod_pow2_bits_low, Z.lnot_spec, Z.pow2_bits_eqb by lia.
    rewrite (Z.eqb_sym k). destruct (7 - Z.of_nat (p mod 8) =? k); [apply andb_false_r|apply andb_true_r].
  - unfold init. rewrite zdrop_all, app_nil_r by done. unfold zlen. rewrite Nat2Z.id. apply list_eq. intros q.
    destruct (decide (q < 8 * length bm)%nat) as [Hq|Hq].
    + rewrite bits_lookup, lookup_replicate_2 by (rewrite ?length_replicate; done). unfold bit_at.
      rewrite lookup_replicate_2 by (apply Nat.Div0.div_lt_upper_bound; lia).
      change (byte.unsigned Byte.x00) with 0. by rewrite Z.bits_0.
    + rewrite !lookup_ge_None_2; [done| |]; rewrite ?length_replicate, ?bits_length, ?length_replicate; lia.
Qed.

Lemma bitmap_refines_witness :
  ∃ bm', set [Byte.x00; Byte.x00] 9 = Ok bm' ∧ bits bm' = <[9%nat := true]> (replicate 16 false).
Proof.
  destruct (bitmap_refines [Byte.x00; Byte.x00] 9 ltac:(cbn; lia)) as (_ & (bm' & H & Hb & _) & _).
  exists bm'. split; [exact H|exact Hb].
Defined.

Lemma next_bit_loop_spec n bit bm i :
  (i + n ≤ 8 * length bm)%nat →
  ∃ r, next_bit_loop n bit bm (Z.of_nat (i + n)) (Z.of_nat i) = Ok (Z.of_nat r) ∧ (i ≤ r ≤ i + n)%nat ∧
    (∀ q, (i ≤ q < r)%nat → bits bm !!! q = negb bit) ∧ ((r < i + n)%nat → bits bm !!! r = bit).
Proof.
  revert i. induction n as [|n IH]; intros i Hn; cbn [next_bit_loop].
  { exists i. rewrite Nat.add_0_r. split_and!; try done; lia. }
  assert (bits bm !!! i = bit_at bm i) as Hi by (apply list_lookup_total_correct, bits_lookup; lia).
  rewrite is_set_bits by lia. step_ok.
  destruct (Bool.eqb (bit_at bm i) bit) eqn:E.
  - apply eqb_prop in E. exists i. split_and!; [done|lia|lia|lia|congruence].
  - apply eqb_false_iff in E. destruct (IH (S i) ltac:(lia)) as (r & Hr & Hb & Hq & Hl).
    replace (S i + n)%nat with (i + S n)%nat in * by lia. replace (Z.of_nat i + 1) with (Z.of_nat (S i)) by lia.
    exists r. split_and!; [done|lia|lia| |done]. intros q Hq'. destruct (decide (q = i)) as [->|Hne].
    + rewrite Hi. by destruct (bit_at bm i), bit.
    + apply Hq. lia.
Qed.

(** [next_bit] returns the first position after [curr] and below [max_n] whose bit is
    the one looked for, or [max_n] when there is none, without leaving the bitmap;
    [first_bit] is the search from the start. *)
Theorem next_bit_least bit bm max_n start :
  (start ≤ max_n ≤ 8 * length bm)%nat →
  ∃ r, next_bit bit bm (Z.of_nat max_n) (Z.of_nat start - 1) = Ok (Z.of_nat r) ∧ (start ≤ r ≤ max_n)%nat ∧
    (∀ q, (start ≤ q < r)%nat → bits bm !!! q = negb bit) ∧ ((r < max_n)%nat → bits bm !!! r = bit) ∧
    (start = 0%nat → first_bit bit bm (Z.of_nat max_n) = Ok (Z.of_nat r)).
Proof.
  intros H. destruct (next_bit_loop_spec (max_n - start) bit bm start) as (r & Hr & Hb & Hq & Hl); [lia|].
  replace (start + (max_n - start))%nat with max_n in * by lia.
  assert (next_bit bit bm (Z.of_nat max_n) (Z.of_nat start - 1) = Ok (Z.of_nat r)) as Hn.
  { unfold next_bit. replace (Z.of_nat start - 1 + 1) with (Z.of_nat start) by lia.
    by replace (Z.to_nat (Z.of_nat max_n - Z.of_nat start)) with (max_n - start)%nat by lia. }
  exists r. split_and!; try done; try lia. intros ->. exact Hn.
Qed.

Lemma next_bit_least_witness : ∃ r, first_bit false [Byte.xff; Byte.xa0] 16 = Ok r ∧ r = 9.
Proof.
  destruct (next_bit_least false [Byte.xff; Byte.xa0] 16 0 ltac:(cbn; lia)) as (r & _ & _ & _ & _ & Hf).
  exists (Z.of_nat r). specialize (Hf eq_refl). split; [exact Hf|].
  assert (first_bit false [Byte.xff; Byte.xa0] 16 = Ok 9) as H9 by reflexivity. change 16 with (Z.of_nat 16) in H9. congruence.
Defined.

End BitmapFacts.

(** ** Page layout *)

Lemma required_mono n m rs : 0 ≤ n ≤ m → 0 ≤ rs → required_bytes n rs ≤ required_bytes m rs.
Proof.
  intros H Hr. unfold required_bytes, bitmap_bytes, Bitmap.BITMAP_WIDTH.
  rewrite !Z.quot_div_nonneg by lia. pose proof (Z.div_le_mono (n + 8 - 1) (m + 8 - 1) 8). nia.
Qed.

Lemma layout_loop_spec fuel n rs :
  0 ≤ n → 0 ≤ rs → (Z.to_nat n < fuel)%nat →
  ∃ m, layout_loop fuel n rs = Some m ∧ 0 ≤ m ≤ n ∧ required_bytes m rs ≤ PAGE_SIZE ∧
    (m < n → PAGE_SIZE < required_bytes (m + 1) rs).
Proof.
  revert n. induction fuel as [|fuel IH]; intros n Hn Hr Hf; [lia|]. cbn [layout_loop].
  destruct (required_bytes n rs <=? PAGE_SIZE) eqn:E; split_bools.
  - exists n. split_and!; try done; lia.
  - destruct (decide (n = 0)) as [->|Hne].
    { unfold required_bytes, bitmap_bytes, PAGE_SIZE, OFFSET_PAGE_HDR, sizeof_RmPageHdr, Bitmap.BITMAP_WIDTH in E.
      change (Z.quot (0 + 8 - 1) 8) with 0 in E. lia. }
    destruct (IH (n - 1)) as (m & Hm & H1 & H2 & H3); [lia|done|lia|]. exists m. split_and!; try done; [lia|lia|].
    intros Hlt. destruct (decide (m = n - 1)) as [->|Hd]; [by replace (n - 1 + 1) with n by lia|apply H3; lia].
Qed.

(** The layout [create_file] chooses for an accepted record size holds at least one
    record, fits its page, and is the largest that does; its bitmap has a bit for every
    slot; and the bytes of slot [i] lie inside the page, after the bitmap, and before
    those of any later slot.  Other record sizes are rejected. *)
Theorem page_layout_correct rs :
  (1 ≤ rs ≤ RM_MAX_RECORD_SIZE →
   ∃ hdr, new_file_hdr rs = Ok hdr ∧ record_size hdr = rs ∧ 1 ≤ num_records_per_page hdr ∧
     num_records_per_page hdr ≤ 8 * bitmap_size hdr ∧
     (∀ n, 0 ≤ n → required_bytes n rs ≤ PAGE_SIZE ↔ n ≤ num_records_per_page hdr) ∧
     ∀ i j, 0 ≤ i < j → j < num_records_per_page hdr →
       bitmap_offset + bitmap_size hdr ≤ get_slot hdr i ∧
       get_slot hdr i + rs ≤ get_slot hdr j ∧ get_slot hdr j + rs ≤ PAGE_SIZE) ∧
  (rs < 1 ∨ RM_MAX_RECORD_SIZE < rs → new_file_hdr rs = Throw (InvalidRecordSizeError rs)).
Proof.
  unfold RM_MAX_RECORD_SIZE, new_file_hdr. split.
  - intros Hrs. unfold RM_MAX_RECORD_SIZE. zbool. change (throw_if (false || false) ?e) with (Ok tt).
    step_ok.
    assert (first_guess rs = 4084 / rs) as Hg.
    { unfold first_guess, PAGE_SIZE, OFFSET_PAGE_HDR, sizeof_RmPageHdr. by rewrite Z.quot_div_nonneg by lia. }
    assert (7 ≤ first_guess rs) as Hg7. { rewrite Hg. apply Z.div_le_lower_bound; lia. }
    destruct (layout_loop_spec (S (Z.to_nat (first_guess rs))) (first_guess rs) rs) as (m & -> & Hm & Hfit & Hmax); [lia|lia|lia|].
    assert (∀ n, 0 ≤ n → required_bytes n rs ≤ PAGE_SIZE ↔ n ≤ m) as Hiff.
    { intros n Hn. split; [|intros; pose proof (required_mono n m rs); lia]. intros Hf.
      destruct (decide (n ≤ m)) as [|Hgt]; [done|]. exfalso. destruct (decide (m < first_guess rs)) as [Hlt|Hge].
      - specialize (Hmax Hlt). pose proof (required_mono (m + 1) n rs). lia.
      - assert (m = first_guess rs) as -> by lia.
        unfold required_bytes, bitmap_bytes, OFFSET_PAGE_HDR, sizeof_RmPageHdr, PAGE_SIZE, Bitmap.BITMAP_WIDTH in Hf.
        rewrite Z.quot_div_nonneg in Hf by lia. pose proof (Z.div_pos (n + 8 - 1) 8).
        rewrite Hg in Hgt. pose proof (Z.mul_succ_div_gt 4084 rs). nia. }
    assert (1 ≤ m) as H1.
    { apply Hiff; [lia|]. unfold required_bytes, bitmap_bytes, OFFSET_PAGE_HDR, sizeof_RmPageHdr, PAGE_SIZE, Bitmap.BITMAP_WIDTH.
      change (Z.quot (1 + 8 - 1) 8) with 1. lia. }
    eexists. split; [done|]. cbn [record_size num_records_per_page bitmap_size].
    assert (bitmap_bytes m = (m + 7) / 8) as Hbm.
    { unfold bitmap_bytes, Bitmap.BITMAP_WIDTH. rewrite Z.quot_div_nonneg by lia. f_equal. lia. }
    split_and!; try done.
    + rewrite Hbm. pose proof (Z.mul_succ_div_gt (m + 7) 8). lia.
    + unfold required_bytes in Hfit. unfold get_slot, slots_offset, bitmap_offset. cbn [record_size bitmap_size].
      intros i j Hij Hj. split_and!; nia.
  - intros H. unfold RM_MAX_RECORD_SIZE.
    assert ((rs <? 1) || (512 <? rs) = true) as -> by (destruct H; [apply orb_true_iff; left|apply orb_true_iff; right]; lia).
    done.
Qed.

Lemma page_layout_correct_witness :
  ∃ hdr, new_file_hdr 8 = Ok hdr ∧ num_records_per_page hdr = 502 ∧ bitmap_size hdr = 63 ∧
    get_slot hdr 3 + 8 ≤ get_slot hdr 4.
Proof.
  destruct (proj1 (page_layout_correct 8) ltac:(unfold RM_MAX_RECORD_SIZE; lia)) as (hdr & H & _ & _ & _ & _ & Hs).
  exists hdr. vm_compute in H. injection H as <-. split_and!; [done|done|done|exact (proj1 (proj2 (Hs 3 4 ltac:(lia) ltac:(cbn; lia))))].
Defined.

(** ** Record buffers as values *)

Section Ownership.
Import RmRecord.

(** Record [r] holds the value [v]: an empty value has no block, another one owns a
    block with exactly its bytes. *)
Definition holds (h : heap) (r : RmRecord.t) (v : bytes) : Prop :=
  size r = zlen v ∧
  match v with
  | [] => data r = None ∧ allocated_ r = false
  | _ => ∃ l, data r = Some l ∧ allocated_ r = true ∧ h !! l = Some v
  end.

(** The variables hold the values [vals]; no two records share a block, and every block
    belongs to a record. *)
Record owns (st : state) (vals : gmap nat bytes) : Prop := {
  ow_vals : ∀ x, match st.2 !! x, vals !! x with
                 | Some r, Some v => holds st.1 r v | None, None => True | _, _ => False end;
  ow_inj : ∀ x y r s l, st.2 !! x = Some r → st.2 !! y = Some s → data r = Some l → data s = Some l → x = y;
  ow_heap : ∀ l, is_Some (st.1 !! l) → ∃ x r, st.2 !! x = Some r ∧ data r = Some l }.

Lemma owns_live st vals x r : owns st vals → st.2 !! x = Some r → ∃ v, vals !! x = Some v ∧ holds st.1 r v.
Proof. intros H Hr. pose proof (ow_vals _ _ H x) as Hx. rewrite Hr in Hx. destruct (vals !! x); [by eexists|done]. Qed.

Lemma owns_dead st vals x : owns st vals → st.2 !! x = None → vals !! x = None.
Proof. intros H Hr. pose proof (ow_vals _ _ H x) as Hx. rewrite Hr in Hx. by destruct (vals !! x). Qed.

Lemma holds_frame h r v l w : holds h r v → data r ≠ Some l → holds (<[l := w]> h) r v.
Proof.
  intros [Hs Hv] Hl. split; [done|]. destruct v; [done|]. destruct Hv as (k & Hk & Ha & Hh). exists k.
  split_and!; [done|done|]. rewrite lookup_insert_ne by congruence. done.
Qed.

Lemma holds_delete h r v l : holds h r v → data r ≠ Some l → holds (delete l h) r v.
Proof.
  intros [Hs Hv] Hl. split; [done|]. destruct v; [done|]. destruct Hv as (k & Hk & Ha & Hh). exists k.
  split_and!; [done|done|]. rewrite lookup_delete_ne by congruence. done.
Qed.

(** A block outside the heap belongs to nobody. *)
Lemma owns_fresh st vals x r l : owns st vals → st.1 !! l = None → st.2 !! x = Some r → data r ≠ Some l.
Proof.
  intros H Hl Hr Hd. destruct (owns_live _ _ _ _ H Hr) as (v & _ & _ & Hv).
  destruct v; [destruct Hv; congruence|]. destruct Hv as (k & Hk & _ & Hh). congruence.
Qed.

(** A new record for a new block. *)
Lemma owns_alloc h vars vals x l v :
  owns (h, vars) vals → vars !! x = None → h !! l = None → v ≠ [] →
  owns (<[l := v]> h, <[x := mk (Some l) (zlen v) true]> vars) (<[x := v]> vals).
Proof.
  intros H Hx Hl Hv. split; cbn [fst snd].
  - intros y. destruct (decide (x = y)) as [<-|Hne].
    + rewrite !lookup_insert_eq. split; [done|]. destruct v as [|b v]; [done|]. exists l. by rewrite lookup_insert_eq.
    + rewrite !lookup_insert_ne by done. pose proof (ow_vals _ _ H y) as Hy. cbn [fst snd] in Hy.
      destruct (vars !! y) as [r|] eqn:Er; [|done]. destruct (vals !! y); [|done].
      apply holds_frame; [done|]. by eapply (owns_fresh (h, vars)).
  - intros y z r s k Hy Hz. rewrite lookup_insert_Some in Hy, Hz.
    destruct Hy as [[<- <-]|[Hny Hy]], Hz as [[<- <-]|[Hnz Hz]]; cbn [data]; intros Hr Hs; try done.
    + injection Hr as <-. by destruct (owns_fresh (h, vars) vals z s l H Hl Hz).
    + injection Hs as <-. by destruct (owns_fresh (h, vars) vals y r l H Hl Hy).
    + by eapply (ow_inj _ _ H).
  - intros k. rewrite lookup_insert_is_Some. intros [<-|[Hne Hk]].
    + exists x. eexists. by rewrite lookup_insert_eq.
    + destruct (ow_heap _ _ H k Hk) as (y & r & Hy & Hr). exists y, r. cbn [snd] in Hy.
      rewrite lookup_insert_ne by congruence. done.
Qed.

(** A new record without a block. *)
Lemma owns_empty h vars vals x :
  owns (h, vars) vals → vars !! x = None → owns (h, <[x := empty]> vars) (<[x := []]> vals).
Proof.
  intros H Hx. split; cbn [fst snd].
  - intros y. destruct (decide (x = y)) as [<-|Hne].
    + by rewrite !lookup_insert_eq.
    + rewrite !lookup_insert_ne by done. apply (ow_vals _ _ H y).
  - intros y z r s k Hy Hz. rewrite lookup_insert_Some in Hy, Hz.
    destruct Hy as [[<- <-]|[Hny Hy]], Hz as [[<- <-]|[Hnz Hz]]; cbn [data empty]; try done. by eapply (ow_inj _ _ H).
  - intros k Hk. destruct (ow_heap _ _ H k Hk) as (y & r & Hy & Hr). exists y, r. cbn [snd] in Hy.
    rewrite lookup_insert_ne by congruence. done.
Qed.

(** Releasing a record removes it with its block. *)
Lemma owns_release h vars vals x r :
  owns (h, vars) vals → vars !! x = Some r →
  ∃ h', release h r = Ok (h', empty) ∧ owns (h', delete x vars) (delete x vals) ∧
    (∀ l, h !! l = None → h' !! l = None) ∧
    (∀ l v, h !! l = None → release (<[l := v]> h) r = Ok (<[l := v]> h', empty)) ∧
    ∀ s v, (∃ y, y ≠ x ∧ vars !! y = Some s) → holds h s v → holds h' s v.
Proof.
  intros H Hx. destruct (owns_live _ _ _ _ H Hx) as (v & Hvx & Hs & Hv). cbn [fst snd] in *.
  assert (∃ h', release h r = Ok (h', empty) ∧ (h' = h ∧ data r = None ∨ ∃ l, data r = Some l ∧ h' = delete l h) ∧
    ∀ l v, h !! l = None → release (<[l := v]> h) r = Ok (<[l := v]> h', empty)) as (h' & Hrel & Hh' & Hcomm).
  { unfold release. destruct v as [|b v].
    - destruct Hv as [Hd Ha]. rewrite Ha. exists h. split_and!; [done|by left|done].
    - destruct Hv as (l & Hd & Ha & Hh). rewrite Ha, Hd. unfold delete_block. rewrite Hh. exists (delete l h).
      split_and!; [done|right; by exists l|]. intros k w Hk. rewrite lookup_insert_ne by congruence.
      rewrite Hh. by rewrite delete_insert_ne by congruence. }
  assert (∀ y s w, y ≠ x → vars !! y = Some s → holds h s w → holds h' s w) as Hfr.
  { intros y s w Hne Hy Hw. destruct Hh' as [[-> _]|(l & Hd & ->)]; [done|]. apply holds_delete; [done|].
    intros Hds. apply Hne. by eapply (ow_inj _ _ H y x s r l). }
  exists h'. split_and!; try done.
  - split; cbn [fst snd].
    + intros y. destruct (decide (x = y)) as [<-|Hne]; [by rewrite !lookup_delete_eq|]. rewrite !lookup_delete_ne by done.
      pose proof (ow_vals _ _ H y) as Hy. cbn [fst snd] in Hy. destruct (vars !! y) eqn:Er; [|done].
      destruct (vals !! y); [|done]. by eapply Hfr.
    + intros y z s s' k Hy Hz. rewrite lookup_delete_Some in Hy, Hz. destruct Hy, Hz. by eapply (ow_inj _ _ H).
    + intros k Hk. assert (is_Some (h !! k) ∧ data r ≠ Some k) as [Hk' Hdk].
      { destruct Hh' as [[-> Hn]|(l & Hd & ->)]; [split; [done|congruence]|].
        rewrite lookup_delete_is_Some in Hk. destruct Hk. split; [done|congruence]. }
      destruct (ow_heap _ _ H k Hk') as (y & s & Hy & Hsd). exists y, s. cbn [snd] in Hy.
      rewrite lookup_delete_ne; [done|]. intros ->. congruence.
  - intros l Hl. destruct Hh' as [[-> _]|(k & _ & ->)]; [done|]. apply lookup_delete_None. by right.
  - intros s w (y & Hne & Hy). by apply (Hfr y).
Qed.

(** The intended meaning: every variable holds its own value. *)
Definition filled (n : Z) (junk : bytes) : bytes := ztake n junk ++ replicate (Z.to_nat (n - zlen junk)) Byte.x00.

Definition decoded_size (bs : bytes) : Z := s32 (le_combine (ztake 4 bs)).

Definition value_step (vals : gmap nat bytes) (o : op) : gmap nat bytes :=
  match o with
  | Make x n junk =>
    match vals !! x with None => if n <? 0 then vals else <[x := filled n junk]> vals | Some _ => vals end
  | MakeFrom x n src =>
    match vals !! x with
    | None => if n <? 0 then vals
              else match src with
                   | Some bs => <[x := ztake n bs]> vals
                   | None => if n =? 0 then <[x := []]> vals else vals
                   end
    | Some _ => vals
    end
  | Copy x y => match vals !! x, vals !! y with None, Some v => <[x := v]> vals | _, _ => vals end
  | Move x y => match vals !! x, vals !! y with None, Some v => <[x := v]> (<[y := []]> vals) | _, _ => vals end
  | AssignCopy x y => match vals !! x, vals !! y with Some _, Some v => <[x := v]> vals | _, _ => vals end
  | AssignMove x y =>
    match vals !! x, vals !! y with
    | Some _, Some v => if bool_decide (x = y) then vals else <[x := v]> (<[y := []]> vals)
    | _, _ => vals
    end
  | SetFrom x src =>
    match vals !! x, src with Some v, Some bs => <[x := ztake (zlen v) bs]> vals | _, _ => vals end
  | DeserializeFrom x src =>
    match vals !! x, src with
    | Some _, Some bs =>
      let n := decoded_size bs in
      if (n <? 0) || (RM_MAX_RECORD_SIZE <? n) then vals else <[x := ztake n (zdrop 4 bs)]> vals
    | _, _ => vals
    end
  | Destroy x => delete x vals
  end.

(** What the callers owe: source buffers as long as the operation reads. *)
Definition source_ok (vals : gmap nat bytes) (o : op) : Prop :=
  match o with
  | MakeFrom _ n (Some bs) => n ≤ zlen bs
  | SetFrom x (Some bs) => match vals !! x with Some v => zlen v ≤ zlen bs | None => True end
  | DeserializeFrom _ (Some bs) =>
    4 ≤ zlen bs ∧ (0 ≤ decoded_size bs ≤ RM_MAX_RECORD_SIZE → 4 + decoded_size bs ≤ zlen bs)
  | _ => True
  end.

Lemma fresh_block (h : heap) : h !! fresh (dom h) = None.
Proof. apply not_elem_of_dom, is_fresh. Qed.

Lemma zlen_nonempty {A} (v : list A) : 0 < zlen v ↔ v ≠ [].
Proof. pose proof (zlen_nonneg v). rewrite <- zlen_nil_iff. lia. Qed.

(** A record made for [v] when variable [x] is free. *)
Lemma owns_new h vars vals x v :
  owns (h, vars) vals → vars !! x = None →
  let '(p, h') := if zlen v =? 0 then (None, h) else let '(l, h') := new h v in (Some l, h') in
  owns (h', <[x := owning p (zlen v)]> vars) (<[x := v]> vals).
Proof.
  intros H Hx. destruct (zlen v =? 0) eqn:E; split_bools.
  - apply zlen_nil_iff in E as ->. by apply owns_empty.
  - unfold new. apply owns_alloc; try done; [apply fresh_block|]. intros ->. done.
Qed.

(** The same for a variable in use: its old block goes. *)
Lemma owns_replace h vars vals x r v :
  owns (h, vars) vals → vars !! x = Some r →
  let '(p, h1) := if zlen v =? 0 then (None, h) else let '(l, h1) := new h v in (Some l, h1) in
  ∃ h2, release h1 r = Ok (h2, empty) ∧ owns (h2, <[x := owning p (zlen v)]> vars) (<[x := v]> vals).
Proof.
  intros H Hx. destruct (owns_release _ _ _ _ _ H Hx) as (h' & Hrel & Hown & Hnone & Hcomm & _).
  destruct (zlen v =? 0) eqn:E; split_bools.
  - apply zlen_nil_iff in E as ->. exists h'. split; [done|].
    rewrite <- (insert_delete_eq vars), <- (insert_delete_eq vals). apply owns_empty; [done|apply lookup_delete_eq].
  - unfold new. exists (<[fresh (dom h) := v]> h'). split; [apply Hcomm, fresh_block|].
    rewrite <- (insert_delete_eq vars), <- (insert_delete_eq vals).
    apply owns_alloc; [done|apply lookup_delete_eq|apply Hnone, fresh_block|]. intros ->. done.
Qed.

Lemma copy_data_ok h r v :
  holds h r v →
  copy_data h r = Ok (if zlen v =? 0 then (None, h) else let '(l, h') := new h v in (Some l, h')).
Proof.
  intros [Hs Hv]. unfold copy_data. rewrite Hs. destruct v as [|b v].
  - done.
  - destruct Hv as (l & Hd & _ & Hh). rewrite Hd, (bool_decide_false (Some l = None)) by done.
    rewrite andb_false_r. assert (0 < zlen (b :: v)) as Hz by (by apply zlen_nonempty). zbool.
    change (throw_if (false || false) ?e) with (Ok tt). step_ok.
    unfold load. cbn [mbind option_bind]. rewrite Hh. zbool. cbn [andb]. rewrite ztake_all by done. done.
Qed.

(** A moved-from record is empty and its block has a new owner. *)
Lemma owns_move h vars vals x y r v :
  owns (h, vars) vals → vars !! x = None → vars !! y = Some r → vals !! y = Some v →
  owns (h, <[x := r]> (<[y := empty]> vars)) (<[x := v]> (<[y := []]> vals)).
Proof.
  intros H Hx Hy Hv. assert (x ≠ y) as Hxy by congruence.
  destruct (owns_live _ _ _ _ H Hy) as (v' & Hv' & Hh). cbn [fst snd] in *. assert (v' = v) as -> by congruence.
  split; cbn [fst snd].
  - intros z. destruct (decide (x = z)) as [<-|Hne]; [by rewrite !lookup_insert_eq|]. rewrite !(lookup_insert_ne _ x z) by done.
    destruct (decide (y = z)) as [<-|Hne2]; [by rewrite !lookup_insert_eq|]. rewrite !(lookup_insert_ne _ y z) by done.
    apply (ow_vals _ _ H z).
  - assert (∀ z s l, <[x := r]> (<[y := empty]> vars) !! z = Some s → data s = Some l →
      ∃ z', vars !! z' = Some s ∧ (z = x ∧ z' = y ∨ z = z' ∧ z ≠ x ∧ z ≠ y)) as Hback.
    { intros z s l Hz Hd. rewrite !lookup_insert_Some in Hz. destruct Hz as [[<- <-]|[Hne [[<- <-]|[Hne2 Hz]]]].
      - exists y. split; [done|by left].
      - done.
      - exists z. split; [done|right]. split_and!; congruence. }
    intros a b s s' l Ha Hb Hs Hs'. destruct (Hback _ _ _ Ha Hs) as (a' & Ha' & Ca). destruct (Hback _ _ _ Hb Hs') as (b' & Hb' & Cb).
    assert (a' = b') as -> by (by eapply (ow_inj _ _ H)). destruct Ca as [[-> ->]|(-> & ? & ?)], Cb as [[-> ?]|(-> & ? & ?)]; congruence.
  - intros l Hl. destruct (ow_heap _ _ H l Hl) as (z & s & Hz & Hs). cbn [snd] in Hz.
    destruct (decide (z = y)) as [->|Hne].
    + exists x, s. rewrite lookup_insert_eq. split; congruence.
    + exists z, s. rewrite !lookup_insert_ne by congruence. done.
Qed.

Lemma zlen_filled n junk : 0 ≤ n → zlen (filled n junk) = n.
Proof.
  intros Hn. unfold filled. rewrite zlen_app. unfold ztake, zlen. rewrite length_take, length_replicate. lia.
Qed.

Lemma make_ok h vars vals x n junk :
  owns (h, vars) vals → vars !! x = None → 0 ≤ n →
  ∃ h' r, make h n junk = Ok (h', r) ∧ owns (h', <[x := r]> vars) (<[x := filled n junk]> vals).
Proof.
  intros H Hx Hn. pose proof (owns_new h vars vals x (filled n junk) H Hx) as Hnew. rewrite zlen_filled in Hnew by done.
  unfold make. rewrite (proj2 (Z.ltb_ge n 0)) by done. change (throw_if false ?e) with (Ok tt).
  step_ok.
  destruct (decide (n = 0)) as [->|Hne].
  - eexists _, _. split; [done|]. exact Hnew.
  - rewrite (proj2 (Z.ltb_lt 0 n)) by lia. rewrite (proj2 (Z.eqb_neq n 0)) in Hnew by done.
    eexists _, _. split; [done|]. exact Hnew.
Qed.

Lemma make_from_ok h vars vals x n bs :
  owns (h, vars) vals → vars !! x = None → 0 ≤ n ≤ zlen bs →
  ∃ h' r, make_from h n (Some bs) = Ok (h', r) ∧ owns (h', <[x := r]> vars) (<[x := ztake n bs]> vals).
Proof.
  intros H Hx Hn. pose proof (owns_new h vars vals x (ztake n bs) H Hx) as Hnew. rewrite zlen_ztake in Hnew by done.
  unfold make_from. rewrite (proj2 (Z.ltb_ge n 0)) by lia. change (throw_if false ?e) with (Ok tt).
  step_ok.
  destruct (decide (n = 0)) as [->|Hne].
  - eexists _, _. split; [done|]. exact Hnew.
  - rewrite (proj2 (Z.ltb_lt 0 n)), (proj2 (Z.ltb_ge (zlen bs) n)) by lia. rewrite (proj2 (Z.eqb_neq n 0)) in Hnew by done.
    eexists _, _. split; [done|]. exact Hnew.
Qed.

Lemma set_data_ok h vars vals x r v bs :
  owns (h, vars) vals → vars !! x = Some r → vals !! x = Some v → zlen v ≤ zlen bs →
  ∃ h', SetData h r (Some bs) = Ok h' ∧ owns (h', vars) (<[x := ztake (zlen v) bs]> vals).
Proof.
  intros H Hx Hv Hl. destruct (owns_live _ _ _ _ H Hx) as (v' & Hv' & Hh). cbn [fst snd] in *.
  assert (v' = v) as -> by congruence. destruct Hh as [Hs Hd]. unfold SetData. rewrite Hs, (bool_decide_false (Some bs = None)) by done.
  rewrite andb_false_r. change (throw_if false ?e) with (Ok tt). step_ok.
  destruct v as [|b v].
  { exists h. split; [done|]. change (ztake (zlen []) bs) with (@nil byte). by rewrite insert_id. }
  destruct Hd as (l & Hdl & Ha & Hh). pose proof (zlen_nonempty (b :: v)) as [_ Hz]. specialize (Hz ltac:(done)).
  rewrite (proj2 (Z.ltb_lt 0 _)) by done. rewrite Hdl, Hh, (proj2 (Z.ltb_ge _ _)) by done.
  rewrite (proj2 (Z.ltb_ge (zlen (b :: v)) _)) by done. cbn [orb]. rewrite (zdrop_all _ (b :: v)), app_nil_r by done.
  eexists. split; [done|]. remember (ztake (zlen (b :: v)) bs) as w eqn:Ew.
  assert (zlen w = zlen (b :: v)) as Hw by (subst w; apply zlen_ztake; lia).
  split; cbn [fst snd].
  - intros y. destruct (decide (x = y)) as [<-|Hne].
    + rewrite Hx, lookup_insert_eq. split; [congruence|]. destruct w; [rewrite zlen_nil in Hw; lia|]. exists l. by rewrite lookup_insert_eq.
    + rewrite lookup_insert_ne by done. pose proof (ow_vals _ _ H y) as Hy. cbn [fst snd] in Hy.
      destruct (vars !! y) as [s|] eqn:Es; [|done]. destruct (vals !! y); [|done]. apply holds_frame; [done|].
      intros Hds. apply Hne. by eapply (ow_inj _ _ H x y r s l).
  - apply (ow_inj _ _ H).
  - intros k Hk. apply (ow_heap _ _ H). cbn [fst]. rewrite lookup_insert_is_Some in Hk. destruct Hk as [<-|[_ Hk]]; [by rewrite Hh|done].
Qed.

Lemma deserialize_ok h vars vals x r bs :
  owns (h, vars) vals → vars !! x = Some r → 4 ≤ zlen bs →
  0 ≤ decoded_size bs ≤ RM_MAX_RECORD_SIZE → 4 + decoded_size bs ≤ zlen bs →
  ∃ h' r', Deserialize h r (Some bs) = Ok (h', r') ∧
    owns (h', <[x := r']> vars) (<[x := ztake (decoded_size bs) (zdrop 4 bs)]> vals).
Proof.
  intros H Hx H4 Hd Hl. set (v := ztake (decoded_size bs) (zdrop 4 bs)).
  assert (zlen v = decoded_size bs) as Hv by (apply zlen_ztake; rewrite zlen_zdrop by lia; lia).
  pose proof (owns_replace h vars vals x r v H Hx) as Hr. rewrite Hv in Hr.
  unfold Deserialize. rewrite (proj2 (Z.ltb_ge _ 4)) by done. cbv zeta. fold (decoded_size bs).
  rewrite (proj2 (Z.ltb_ge (decoded_size bs) 0)), (proj2 (Z.ltb_ge RM_MAX_RECORD_SIZE _)) by lia.
  change (throw_if (false || false) ?e) with (Ok tt). step_ok.
  rewrite (proj2 (Z.ltb_ge (zlen bs) _)) by done. fold v.
  destruct (if decoded_size bs =? 0 then _ else _) as [p h1]. destruct Hr as (h2 & -> & Hown).
  step_ok. by eexists _, _.
Qed.

(** The copy of a record that holds a value, for a variable not in use. *)
Lemma copy_construct_owns h vars vals x y s : owns (h, vars) vals → vars !! x = None → vars !! y = Some s →
  ∃ v h' r, vals !! y = Some v ∧ copy_construct h s = Ok (h', r) ∧ owns (h', <[x := r]> vars) (<[x := v]> vals).
Proof.
  intros H Hx Hy. destruct (owns_live _ _ _ _ H Hy) as (v & Hv & Hh). cbn [fst] in Hh.
  pose proof (owns_new h vars vals x v H Hx) as Hnew. unfold copy_construct. rewrite (copy_data_ok h s v Hh).
  destruct (if zlen v =? 0 then _ else _) as [p h1]. exists v, h1, (owning p (zlen v)).
  split_and!; [done| |done]. cbn. by rewrite (proj1 Hh).
Qed.

(** Copying and moving into a variable in use. *)
Lemma copy_assign_owns h vars vals x y r s : owns (h, vars) vals → vars !! x = Some r → vars !! y = Some s →
  ∃ v h' r', vals !! y = Some v ∧ copy_assign h r s = Ok (h', r') ∧ owns (h', <[x := r']> vars) (<[x := v]> vals).
Proof.
  intros H Hx Hy. destruct (owns_live _ _ _ _ H Hy) as (v & Hv & Hh). cbn [fst] in Hh.
  pose proof (owns_replace h vars vals x r v H Hx) as Hr. unfold copy_assign. rewrite (copy_data_ok h s v Hh).
  destruct (if zlen v =? 0 then _ else _) as [p h1]. destruct Hr as (h2 & Hrel & Hown). exists v, h2, (owning p (zlen v)).
  split_and!; [done| |done]. step_ok. by rewrite Hrel, (proj1 Hh).
Qed.

Lemma move_assign_owns h vars vals x y r s : owns (h, vars) vals → x ≠ y → vars !! x = Some r → vars !! y = Some s →
  ∃ v h', vals !! y = Some v ∧ move_assign h r s = Ok (h', s, empty) ∧
    owns (h', <[x := s]> (<[y := empty]> vars)) (<[x := v]> (<[y := []]> vals)).
Proof.
  intros H Hxy Hx Hy. destruct (owns_live _ _ _ _ H Hy) as (v & Hv & _). cbn [fst snd] in *.
  destruct (owns_release _ _ _ _ _ H Hx) as (h' & Hrel & Hown & _). exists v, h'. unfold move_assign. rewrite Hrel.
  split_and!; [done|by destruct s|]. pose proof (owns_move h' _ _ x y s v Hown (lookup_delete_eq _ _)) as Hm.
  rewrite !lookup_delete_ne, <- !(delete_insert_ne vars), <- !(delete_insert_ne vals), !insert_delete_eq in Hm by done. by apply Hm.
Qed.

(** One operation, from any state the program can be in. *)
Lemma step_refines st vals o :
  owns st vals → source_ok vals o → ∃ st', step st o = Ok st' ∧ owns st' (value_step vals o).
Proof.
  destruct st as [h vars]. intros H Hok.
  assert (∀ x, vars !! x = None → vals !! x = None) as Hdead by (intros x; apply (owns_dead _ _ x H)).
  assert (∀ x r, vars !! x = Some r → ∃ v, vals !! x = Some v ∧ holds h r v) as Hlive
    by (intros x r; apply (owns_live _ _ x r H)).
  destruct o as [x n junk|x n src|x y|x y|x y|x y|x src|x src|x]; unfold step; cbn [value_step].
  all: destruct (vars !! x) as [r|] eqn:Ex; [destruct (Hlive x r Ex) as (v & Hv & Hh)|pose proof (Hdead x Ex) as Hv];
    rewrite ?Hv; try (by exists (h, vars)).
  - destruct (n <? 0) eqn:En; split_bools.
    { unfold make. zbool. by exists (h, vars). }
    destruct (make_ok h vars vals x n junk H Ex En) as (h' & r & -> & Hown). by eexists.
  - destruct (n <? 0) eqn:En; split_bools.
    { unfold make_from. zbool. by exists (h, vars). }
    destruct src as [bs|].
    + destruct (make_from_ok h vars vals x n bs H Ex ltac:(cbn in Hok; lia)) as (h' & r & -> & Hown). by eexists.
    + unfold make_from. rewrite (proj2 (Z.ltb_ge n 0)) by done. change (throw_if false ?e) with (Ok tt).
      step_ok. destruct (n =? 0) eqn:E0; split_bools.
      * subst n. eexists. split; [done|]. by apply owns_empty.
      * rewrite (proj2 (Z.ltb_lt 0 n)) by lia. by exists (h, vars).
  - destruct (vars !! y) as [s|] eqn:Ey; [|rewrite (Hdead y Ey); by exists (h, vars)].
    destruct (copy_construct_owns _ _ _ x y s H Ex Ey) as (w & h' & r & -> & -> & Hown). by eexists.
  - destruct (vars !! y) as [s|] eqn:Ey; [|rewrite (Hdead y Ey); by exists (h, vars)].
    destruct (Hlive y s Ey) as (w & Hw & _). rewrite Hw. eexists. split; [done|]. destruct s. by apply (owns_move h vars vals x y).
  - destruct (vars !! y) as [s|] eqn:Ey; [|rewrite (Hdead y Ey); by exists (h, vars)].
    destruct (decide (x = y)) as [->|Hxy].
    { rewrite bool_decide_true, Hv by done. exists (h, vars). split; [done|]. by rewrite insert_id. }
    rewrite bool_decide_false by done. destruct (copy_assign_owns _ _ _ x y r s H Ex Ey) as (w & h' & r' & -> & -> & Hown). by eexists.
  - destruct (vars !! y) as [s|] eqn:Ey; [|rewrite (Hdead y Ey); by exists (h, vars)].
    destruct (decide (x = y)) as [->|Hxy]; [rewrite !bool_decide_true, Hv by done; by exists (h, vars)|].
    rewrite !(bool_decide_false (x = y)) by done.
    destruct (move_assign_owns _ _ _ x y r s H Hxy Ex Ey) as (w & h' & -> & -> & Hown). by eexists.
  - destruct src as [bs|].
    + destruct (set_data_ok h vars vals x r v bs H Ex Hv) as (h' & -> & Hown); [by cbn in Hok; rewrite Hv in Hok|]. by eexists.
    + unfold SetData. exists (h, vars). split; [|done]. rewrite (bool_decide_true (None = None)) by done. by destruct (0 <? size r).
  - destruct src as [bs|]; [|by exists (h, vars)]. destruct Hok as [H4 Hl]. cbv zeta.
    destruct ((decoded_size bs <? 0) || (RM_MAX_RECORD_SIZE <? decoded_size bs)) eqn:Ed.
    + unfold Deserialize. rewrite (proj2 (Z.ltb_ge _ 4)) by done. cbv zeta. fold (decoded_size bs). rewrite Ed. by exists (h, vars).
    + split_bools. destruct (deserialize_ok h vars vals x r bs H Ex H4) as (h' & r' & -> & Hown); [lia|apply Hl; lia|]. by eexists.
  - destruct (owns_release _ _ _ _ _ H Ex) as (h' & Hrel & Hown & _). rewrite Hrel. by eexists.
  - exists (h, vars). split; [done|]. by rewrite delete_id.
Qed.

(** The sources of a whole program, checked as the values evolve. *)
Fixpoint sources_ok (vals : gmap nat bytes) (ops : list op) : Prop :=
  match ops with
  | [] => True
  | o :: ops => source_ok vals o ∧ sources_ok (value_step vals o) ops
  end.

(** C24. Records are values: a program that constructs, copies, moves, assigns, fills,
    deserializes and destroys records in any order, with source buffers as long as it
    says, never touches memory it does not own and never frees a block twice; its
    variables hold what they would if every record were a plain byte string, no two
    records share a block, and once all records are destroyed no block is left. *)
Theorem records_are_values ops st vals :
  owns st vals → sources_ok vals ops →
  ∃ st', run_ops st ops = Ok st' ∧ owns st' (foldl value_step vals ops) ∧
    (foldl value_step vals ops = ∅ → st'.1 = ∅).
Proof.
  revert st vals. induction ops as [|o ops IH]; intros st vals H Hok; cbn [run_ops foldl].
  - exists st. split_and!; [done|done|]. intros ->. apply map_eq. intros l. rewrite lookup_empty.
    destruct (st.1 !! l) eqn:E; [|done]. destruct (ow_heap _ _ H l) as (x & r & Hx & _); [by rewrite E|].
    pose proof (ow_vals _ _ H x) as Hv. by rewrite Hx, lookup_empty in Hv.
  - destruct Hok as [Ho Hok]. destruct (step_refines st vals o H Ho) as (st' & -> & H').
    step_ok. by apply IH.
Qed.

(** Copy, move into a used variable, overwrite the copy, destroy all. *)
Definition record_program : list op :=
  [MakeFrom 0 2 (Some (str "ab")); Copy 1 0; MakeFrom 2 1 (Some (str "z")); AssignMove 2 0; SetFrom 1 (Some (str "cd"));
   AssignCopy 0 2; Destroy 0; Destroy 1; Destroy 2].

Lemma records_are_values_witness : ∃ st', run_ops (∅, ∅) record_program = Ok st' ∧ st'.1 = ∅.
Proof.
  destruct (records_are_values record_program (∅, ∅) ∅) as (st' & H & _ & He).
  - split; cbn [fst snd]; [intros x; by rewrite !lookup_empty| |]; intros *; rewrite lookup_empty; [done|]. by intros [? ?].
  - vm_compute. repeat split; discriminate.
  - exists st'. split; [exact H|]. apply He. apply (bool_decide_unpack _). vm_compute. exact I.
Defined.

End Ownership.
