(* ===== verification/IndexFile.v ===== *)
(** * Index files: header, page layout, names and key order

    Models [src/src/index/index_types.h], [index_types.cpp], the parts of
    [index_manager.cpp] that compute an index file, and [compare_index_key] of
    [b_plus_tree.cpp].  The pages of a new index are values here; how they reach the
    disk is in [System].  An enum member is stored as its number. *)

From S2P Require Import Prelude Common Catalog Record.

Definition INDEX_NO_PAGE : Z := -1.
Definition INDEX_FILE_HEADER_PAGE : Z := 0.
Definition INDEX_LEAF_HEADER_PAGE : Z := 1.
Definition INDEX_INITIAL_ROOT_PAGE : Z := 2.
Definition INDEX_INITIAL_PAGE_COUNT : Z := 3.
Definition INDEX_MAX_KEY_LENGTH : Z := 512.

(** [sizeof] and [alignof] of the structures on an index page. *)
Definition sizeof_IndexPageHeader : Z := 24.
Definition sizeof_Rid : Z := 8.
Definition alignof_Rid : Z := 4.

Record IndexPageHeader := mkPageHeader {
  next_free_page : Z; parent_page : Z; key_count : Z; is_leaf : bool; previous_leaf_page : Z; next_leaf_page : Z }.

Record IndexFileHeader := mkHeader {
  first_free_page_ : Z; page_count_ : Z; root_page_ : Z; column_count_ : Z;
  column_types_ : list Z; column_lengths_ : list Z; key_length_ : Z; tree_order_ : Z; keys_region_size_ : Z;
  first_leaf_ : Z; last_leaf_ : Z; unique_ : bool; serialized_size_ : Z }.

Definition fixed_serialized_size : Z := 4 * 4 + 4 * 7.
Definition max_serialized_columns : Z := Z.quot (PAGE_SIZE - fixed_serialized_size) (4 + 4).
Definition serialized_size (column_count : Z) : Z := fixed_serialized_size + (4 + 4) * column_count.

Definition calculate_keys_region_size (tree_order key_length : Z) : result Z :=
  _ ← throw_if ((tree_order <? 0) || (key_length <=? 0)) (InternalError "Invalid index page layout");
  let raw_size := (tree_order + 1) * key_length in
  let aligned_size := Z.quot (raw_size + alignof_Rid - 1) alignof_Rid * alignof_Rid in
  _ ← throw_if (INT_MAX <? aligned_size) (InternalError "Invalid index page layout");
  Ok aligned_size.

Definition page_layout_fits (tree_order key_length : Z) : result bool :=
  if (tree_order <? 0) || (key_length <=? 0) then Ok false
  else
    keys_region_size ← calculate_keys_region_size tree_order key_length;
    Ok (sizeof_IndexPageHeader + keys_region_size + (tree_order + 1) * sizeof_Rid <=? PAGE_SIZE).

(** ** The file header on disk *)

Definition invalid_header {A} : result A := Throw (InternalError "Invalid index file header").

Definition update_serialized_size (h : IndexFileHeader) : result IndexFileHeader :=
  _ ← throw_if ((column_count_ h <=? 0) || (max_serialized_columns <? column_count_ h))
        (InternalError "Index file header exceeds one page");
  Ok (mkHeader (first_free_page_ h) (page_count_ h) (root_page_ h) (column_count_ h) (column_types_ h)
        (column_lengths_ h) (key_length_ h) (tree_order_ h) (keys_region_size_ h) (first_leaf_ h) (last_leaf_ h)
        (unique_ h) (serialized_size (column_count_ h))).

Definition int_bytes (z : Z) : bytes := le_split 4 (u32 z).

(** The bytes [serialize] copies to [dest], in order. *)
Definition header_bytes (h : IndexFileHeader) : bytes :=
  int_bytes (serialized_size_ h) ++ int_bytes (first_free_page_ h) ++ int_bytes (page_count_ h) ++
  int_bytes (root_page_ h) ++ int_bytes (column_count_ h) ++
  concat (int_bytes <$> take (Z.to_nat (column_count_ h)) (column_types_ h)) ++
  concat (int_bytes <$> take (Z.to_nat (column_count_ h)) (column_lengths_ h)) ++
  int_bytes (key_length_ h) ++ int_bytes (tree_order_ h) ++ int_bytes (keys_region_size_ h) ++
  int_bytes (first_leaf_ h) ++ int_bytes (last_leaf_ h) ++ int_bytes (if unique_ h then 1 else 0).

(** The buffer after [serialize]; one that is too short is undefined behaviour. *)
Definition serialize (h : IndexFileHeader) (dest : option bytes) : result bytes :=
  if bool_decide (dest = None) || (column_count_ h <=? 0) || (max_serialized_columns <? column_count_ h) ||
     negb (zlen (column_types_ h) =? column_count_ h) || negb (zlen (column_lengths_ h) =? column_count_ h) ||
     negb (serialized_size_ h =? serialized_size (column_count_ h))
  then invalid_header
  else
    let written := header_bytes h in
    match dest with
    | Some buffer =>
      if zlen buffer <? zlen written then Crash
      else if negb (zlen written =? serialized_size_ h) then invalid_header
      else Ok (written ++ zdrop (zlen written) buffer)
    | None => Crash
    end.

(** [read_value] at an [int]: the value and the bytes after it. *)
Definition read_int (src : bytes) : result (Z * bytes) :=
  if zlen src <? 4 then Crash else Ok (s32 (le_combine (ztake 4 src)), zdrop 4 src).

Fixpoint read_ints (n : nat) (src : bytes) : result (list Z * bytes) :=
  match n with
  | O => Ok ([], src)
  | S n => '(z, src) ← read_int src; '(zs, src) ← read_ints n src; Ok (z :: zs, src)
  end.

(** The lengths: each must be positive, and their sum is kept in 64 bits. *)
Fixpoint read_lengths (n : nat) (src : bytes) (sum : Z) : result (list Z * Z * bytes) :=
  match n with
  | O => Ok ([], sum, src)
  | S n =>
    '(len, src) ← read_int src;
    if len <=? 0 then invalid_header
    else '(lens, sum, src) ← read_lengths n src (sum + len); Ok (len :: lens, sum, src)
  end.

(** [deserialize] into a fresh header, as its only caller does; the caller drops the
    header when it throws. *)
Definition deserialize (src : option bytes) (src_len : Z) : result IndexFileHeader :=
  match src with
  | None => invalid_header
  | Some src =>
    if src_len <? fixed_serialized_size then invalid_header
    else
      '(ssize, src) ← read_int src;
      '(first_free, src) ← read_int src;
      '(pages, src) ← read_int src;
      '(root, src) ← read_int src;
      '(columns, src) ← read_int src;
      if (columns <=? 0) || (max_serialized_columns <? columns) || negb (serialized_size columns =? u64 ssize) ||
         (src_len <? u64 ssize)
      then invalid_header
      else
        '(types, src) ← read_ints (Z.to_nat columns) src;
        '(lengths, col_len_sum, src) ← read_lengths (Z.to_nat columns) src 0;
        '(key_length, src) ← read_int src;
        '(tree_order, src) ← read_int src;
        '(keys_region, src) ← read_int src;
        '(first_leaf, src) ← read_int src;
        '(last_leaf, src) ← read_int src;
        '(unique_flag, src) ← read_int src;
        if negb (unique_flag =? 0) && negb (unique_flag =? 1) then invalid_header
        else if negb (col_len_sum =? key_length) || (key_length <=? 0) || (INDEX_MAX_KEY_LENGTH <? key_length) ||
                (tree_order <=? 2)
        then invalid_header
        else
          region ← calculate_keys_region_size tree_order key_length;
          if negb (keys_region =? region) then invalid_header
          else
            fits ← page_layout_fits tree_order key_length;
            if negb fits then invalid_header
            else Ok (mkHeader first_free pages root columns types lengths key_length tree_order keys_region first_leaf
                       last_leaf (unique_flag =? 1) ssize)
  end.

(** ** Creating an index *)

(** The two overloads differ in where the names come from. *)
Fixpoint add_columns (index_name : string) (index_columns : list string) : string :=
  match index_columns with
  | [] => index_name
  | column :: index_columns => add_columns (index_name ++ ("_" ++ column)) index_columns
  end.

Definition make_index_name (table_name : string) (index_columns : list string) : string :=
  add_columns table_name index_columns ++ ".idx".

(** The column loop: the key length, or an exception. *)
Fixpoint check_columns (cols : list ColMeta) (checked_key_length : Z) : result Z :=
  match cols with
  | [] => Ok checked_key_length
  | c :: cols =>
    let valid_length := (0 <? col_len c) && match col_type c with TYPE_STRING => true | _ => col_len c =? 4 end in
    _ ← throw_if (negb valid_length) (InvalidColLengthError (col_len c));
    let checked_key_length := checked_key_length + col_len c in
    _ ← throw_if (INDEX_MAX_KEY_LENGTH <? checked_key_length) (InvalidColLengthError checked_key_length);
    check_columns cols checked_key_length
  end.

(** [while (tree_order > 2 && !page_layout_fits(..)) --tree_order;] *)
Fixpoint order_loop (fuel : nat) (tree_order key_length : Z) : result Z :=
  match fuel with
  | O => Crash
  | S fuel =>
    if tree_order <=? 2 then Ok tree_order
    else
      fits ← page_layout_fits tree_order key_length;
      if negb fits then order_loop fuel (tree_order - 1) key_length else Ok tree_order
  end.

Definition first_order (key_length : Z) : Z :=
  Z.quot (PAGE_SIZE - sizeof_IndexPageHeader) (key_length + sizeof_Rid) - 1.

(** The header of a new index file, before any page is written. *)
Definition new_index_header (index : IndexMeta) : result IndexFileHeader :=
  let cols := idx_cols index in
  _ ← throw_if (bool_decide (cols = []) || (max_serialized_columns <? zlen cols))
        (InternalError "Invalid number of index columns");
  key_length ← check_columns cols 0;
  tree_order ← order_loop (S (Z.to_nat (first_order key_length))) (first_order key_length) key_length;
  fits ← (if tree_order <=? 2 then Ok false else page_layout_fits tree_order key_length);
  _ ← throw_if (negb fits) (InvalidColLengthError key_length);
  keys_region_size ← calculate_keys_region_size tree_order key_length;
  update_serialized_size
    (mkHeader INDEX_NO_PAGE INDEX_INITIAL_PAGE_COUNT INDEX_INITIAL_ROOT_PAGE (zlen cols)
       (coltype_ordinal ∘ col_type <$> cols) (col_len <$> cols) key_length tree_order keys_region_size
       INDEX_INITIAL_ROOT_PAGE INDEX_INITIAL_ROOT_PAGE (idx_unique index) 0).

(** Page 1, the sentinel of the leaf list, and page 2, the empty root leaf. *)
Definition leaf_header_page : IndexPageHeader :=
  mkPageHeader INDEX_NO_PAGE INDEX_NO_PAGE 0 true INDEX_INITIAL_ROOT_PAGE INDEX_INITIAL_ROOT_PAGE.
Definition root_page : IndexPageHeader :=
  mkPageHeader INDEX_NO_PAGE INDEX_NO_PAGE 0 true INDEX_LEAF_HEADER_PAGE INDEX_LEAF_HEADER_PAGE.

(** The page buffer: the header's fields, a [bool] padded to four bytes, then zeros. *)
Definition page_bytes (p : IndexPageHeader) : bytes :=
  int_bytes (next_free_page p) ++ int_bytes (parent_page p) ++ int_bytes (key_count p) ++
  int_bytes (if is_leaf p then 1 else 0) ++ int_bytes (previous_leaf_page p) ++ int_bytes (next_leaf_page p) ++
  replicate (Z.to_nat (PAGE_SIZE - sizeof_IndexPageHeader)) Byte.x00.

(** ** The order of keys *)

(** A [float] by its bits: NaN compares false with everything. *)
Definition f32_nan (bits : Z) : bool := 2139095040 <? Z.land bits 2147483647.

Definition f32_rank (bits : Z) : Z :=
  let magnitude := Z.land bits 2147483647 in
  if Z.testbit bits 31 then - magnitude else magnitude.

Definition f32_lt (a b : Z) : bool := negb (f32_nan a) && negb (f32_nan b) && (f32_rank a <? f32_rank b).

(** [memcmp]: the sign of the first difference, as unsigned bytes. *)
Fixpoint memcmp (a b : bytes) : Z :=
  match a, b with
  | x :: a, y :: b =>
    if byte.unsigned x <? byte.unsigned y then -1
    else if byte.unsigned y <? byte.unsigned x then 1 else memcmp a b
  | _, _ => 0
  end.

(** One column; the fields are the bytes the pointers give access to. *)
Definition compare_column (a b : bytes) (type : ColType) (column_length : Z) : result Z :=
  _ ← throw_if (column_length <=? 0) (InternalError "Invalid index comparison input");
  if (zlen a <? column_length) || (zlen b <? column_length) then Crash
  else
    match type with
    | TYPE_INT =>
      _ ← throw_if (negb (column_length =? 4)) (InternalError "Invalid integer index key length");
      let x := s32 (le_combine (ztake 4 a)) in let y := s32 (le_combine (ztake 4 b)) in
      Ok (if x <? y then -1 else if y <? x then 1 else 0)
    | TYPE_FLOAT =>
      _ ← throw_if (negb (column_length =? 4)) (InternalError "Invalid float index key length");
      let x := le_combine (ztake 4 a) in let y := le_combine (ztake 4 b) in
      Ok (if f32_lt x y then -1 else if f32_lt y x then 1 else 0)
    | TYPE_STRING => Ok (memcmp (ztake column_length a) (ztake column_length b))
    end.

(** The composite comparison, column by column. *)
Fixpoint compare_columns (a b : bytes) (columns : list (ColType * Z)) : result Z :=
  match columns with
  | [] => Ok 0
  | (type, len) :: columns =>
    r ← compare_column a b type len;
    if negb (r =? 0) then Ok r else compare_columns (zdrop len a) (zdrop len b) columns
  end.

Definition compare_index_key (a b : bytes) (column_types : list ColType) (column_lengths : list Z) : result Z :=
  _ ← throw_if (negb (zlen column_types =? zlen column_lengths)) (InternalError "Invalid composite index metadata");
  compare_columns a b (zip column_types column_lengths).
