(* ===== verification/IndexFacts.v ===== *)
(** * Correctness of index files

    The header survives the disk, the chosen node order is the largest that fits a page,
    key comparison is a total order on the column values, and where file names identify
    indexes. *)

From S2P Require Import Prelude Common Catalog CatalogFacts Record IndexFile.

(** ** The header codec *)

Lemma int_bytes_length z : zlen (int_bytes z) = 4.
Proof. apply zlen_le_split. Qed.
#[export] Hint Rewrite int_bytes_length : ldb.

Lemma read_int_bytes z rest : is_s32 z → read_int (int_bytes z ++ rest) = Ok (z, rest).
Proof.
  intros Hz. unfold read_int. rewrite zlen_app, int_bytes_length. pose proof (zlen_nonneg rest). zbool.
  rewrite ztake_app_exact, zdrop_app_exact by apply int_bytes_length. do 2 f_equal. unfold int_bytes.
  rewrite le_combine_split. change (8 * Z.of_nat 4) with 32. rewrite Z.mod_small by apply u32_range. by apply s32_u32.
Qed.

Lemma read_int_sound src z rest : read_int src = Ok (z, rest) → src = int_bytes z ++ rest ∧ is_s32 z.
Proof.
  unfold read_int. destruct (zlen src <? 4) eqn:E; [done|]. intros [= <- <-]. split_bools. split; [|apply s32_range].
  rewrite <- (ztake_zdrop 4 src) at 1. f_equal. unfold int_bytes.
  assert (length (ztake 4 src) = 4%nat) as Hl by (unfold ztake, zlen in *; rewrite length_take; lia).
  rewrite u32_s32; [|pose proof (le_combine_bound (ztake 4 src)) as Hb; rewrite Hl in Hb; exact Hb].
  rewrite <- (split_le_combine (ztake 4 src)) at 1. by rewrite Hl.
Qed.

Lemma zlen_ints (zs : list Z) : zlen (concat (int_bytes <$> zs)) = 4 * zlen zs.
Proof. induction zs as [|z zs IH]; [done|]. rewrite fmap_cons. cbn [concat]. rewrite zlen_app, int_bytes_length, IH, zlen_cons. lia. Qed.
#[export] Hint Rewrite zlen_ints : ldb.

Lemma read_ints_bytes zs rest :
  Forall is_s32 zs → read_ints (length zs) (concat (int_bytes <$> zs) ++ rest) = Ok (zs, rest).
Proof.
  induction 1 as [|z zs Hz _ IH]; [done|]. rewrite fmap_cons. cbn [concat length read_ints]. rewrite <- app_assoc.
  rewrite read_int_bytes by done. step_ok. rewrite IH. done.
Qed.

Lemma read_ints_sound n src zs rest :
  read_ints n src = Ok (zs, rest) → src = concat (int_bytes <$> zs) ++ rest ∧ length zs = n ∧ Forall is_s32 zs.
Proof.
  revert src zs rest. induction n as [|n IH]; intros src zs rest; cbn [read_ints]; [by intros [= <- <-]|].
  intros H. apply bind_ok in H as ([z s] & Hz & H). apply bind_ok in H as ([zs' s'] & Hzs & [= <- <-]).
  apply read_int_sound in Hz as [-> Hz]. apply IH in Hzs as (-> & <- & Hf).
  rewrite fmap_cons. cbn [concat length]. rewrite app_assoc. split_and!; [done|done|by constructor].
Qed.

Definition sum_lengths (lens : list Z) : Z := foldl Z.add 0 lens.

Lemma foldl_add_shift lens a : foldl Z.add a lens = a + sum_lengths lens.
Proof.
  unfold sum_lengths. revert a. induction lens as [|z lens IH]; intros a; cbn [foldl]; [lia|].
  rewrite IH, (IH (0 + z)). lia.
Qed.

Lemma sum_lengths_cons z lens : sum_lengths (z :: lens) = z + sum_lengths lens.
Proof. unfold sum_lengths at 1. cbn [foldl]. rewrite foldl_add_shift. lia. Qed.

Lemma read_lengths_bytes lens sum rest :
  Forall (λ z, is_s32 z ∧ 0 < z) lens →
  read_lengths (length lens) (concat (int_bytes <$> lens) ++ rest) sum = Ok (lens, sum + sum_lengths lens, rest).
Proof.
  intros H. revert sum. induction H as [|z zs [Hz Hp] _ IH]; intros sum.
  { cbn. unfold sum_lengths. cbn. by rewrite Z.add_0_r. }
  rewrite fmap_cons. cbn [concat length read_lengths]. rewrite <- app_assoc, read_int_bytes by done.
  step_ok. zbool. rewrite IH. step_ok.
  do 2 f_equal. f_equal. rewrite sum_lengths_cons. lia.
Qed.

Lemma read_lengths_sound n src sum lens total rest :
  read_lengths n src sum = Ok (lens, total, rest) →
  src = concat (int_bytes <$> lens) ++ rest ∧ length lens = n ∧ Forall (λ z, is_s32 z ∧ 0 < z) lens ∧
  total = sum + sum_lengths lens.
Proof.
  revert src sum lens. induction n as [|n IH]; intros src sum lens; cbn [read_lengths].
  { intros [= <- <- <-]. split_and!; try done. unfold sum_lengths. cbn. lia. }
  intros H. apply bind_ok in H as ([z s] & Hz & H). destruct (z <=? 0) eqn:E; [done|]. split_bools.
  apply bind_ok in H as ([[lens' t'] s'] & Hl & [= <- <- <-]). apply read_int_sound in Hz as [-> Hz].
  apply IH in Hl as (-> & <- & Hf & ->). rewrite fmap_cons. cbn [concat length]. rewrite app_assoc.
  split_and!; [done|done|by constructor|]. rewrite sum_lengths_cons. lia.
Qed.

(** The headers of usable index files. *)
Record header_ok (h : IndexFileHeader) : Prop := {
  ho_count : 0 < column_count_ h ≤ max_serialized_columns;
  ho_types : zlen (column_types_ h) = column_count_ h ∧ Forall is_s32 (column_types_ h);
  ho_lengths : zlen (column_lengths_ h) = column_count_ h ∧ Forall (λ z, is_s32 z ∧ 0 < z) (column_lengths_ h);
  ho_key : sum_lengths (column_lengths_ h) = key_length_ h ∧ 0 < key_length_ h ≤ INDEX_MAX_KEY_LENGTH;
  ho_order : 2 < tree_order_ h ∧ calculate_keys_region_size (tree_order_ h) (key_length_ h) = Ok (keys_region_size_ h) ∧
    page_layout_fits (tree_order_ h) (key_length_ h) = Ok true;
  ho_size : serialized_size_ h = serialized_size (column_count_ h);
  ho_ints : Forall is_s32 [first_free_page_ h; page_count_ h; root_page_ h; tree_order_ h; keys_region_size_ h;
    first_leaf_ h; last_leaf_ h] }.

Lemma header_bytes_length h : header_ok h → zlen (header_bytes h) = serialized_size_ h.
Proof.
  intros H. destruct (ho_types h H) as [Ht _]. destruct (ho_lengths h H) as [Hl _].
  rewrite (ho_size h H). unfold header_bytes, serialized_size, fixed_serialized_size.
  rewrite !take_ge by (unfold zlen in *; lia). autorewrite with ldb. lia.
Qed.


Lemma header_size_range h : header_ok h → 44 < serialized_size_ h ≤ PAGE_SIZE.
Proof.
  intros H. rewrite (ho_size h H). pose proof (ho_count h H). unfold serialized_size, fixed_serialized_size.
  change max_serialized_columns with 506 in *. unfold PAGE_SIZE. lia.
Qed.

Lemma deserialize_bytes h rest n :
  header_ok h → serialized_size_ h ≤ n → deserialize (Some (header_bytes h ++ rest)) n = Ok h.
Proof.
  intros H Hn. pose proof (header_size_range h H) as Hr. unfold PAGE_SIZE in Hr.
  pose proof (ho_count h H) as Hc. change max_serialized_columns with 506 in Hc. pose proof (ho_size h H) as Hs.
  destruct (ho_types h H) as [Ht Hti]. destruct (ho_lengths h H) as [Hl Hli]. destruct (ho_key h H) as [Hk Hkr].
  destruct (ho_order h H) as (Hord & Hreg & Hfit). pose proof (ho_ints h H) as Hi.
  repeat (apply Forall_cons in Hi as [? Hi]). unfold INDEX_MAX_KEY_LENGTH in Hkr.
  unfold deserialize, fixed_serialized_size. zbool. unfold header_bytes.
  rewrite !take_ge by (unfold zlen in *; lia). rewrite <- !app_assoc.
  repeat (rewrite read_int_bytes by (first [done|word_lia]); step_ok).
  change max_serialized_columns with 506. unfold u64. rewrite (Z.mod_small (serialized_size_ h)) by lia.
  rewrite <- Hs, Z.eqb_refl. zbool. cbn [orb negb].
  replace (Z.to_nat (column_count_ h)) with (length (column_types_ h)) by (unfold zlen in Ht; lia).
  rewrite read_ints_bytes by done. step_ok.
  replace (length (column_types_ h)) with (length (column_lengths_ h)) by (unfold zlen in *; lia).
  rewrite read_lengths_bytes by done. step_ok.
  repeat (rewrite read_int_bytes by (first [done|destruct (unique_ h); word_lia|word_lia]); step_ok).
  assert (negb ((if unique_ h then 1 else 0) =? 0) && negb ((if unique_ h then 1 else 0) =? 1) = false) as ->
    by (by destruct (unique_ h)).
  unfold INDEX_MAX_KEY_LENGTH. rewrite Hk, Z.eqb_refl. zbool. cbn [orb negb]. rewrite Hreg. step_ok. rewrite Z.eqb_refl. cbn [negb].
  rewrite Hfit. step_ok. cbn [negb]. f_equal. destruct h as [? ? ? ? ? ? ? ? ? ? ? u ?]. cbn. by destruct u.
Qed.

(** [static_cast<size_t>] of an [int] is small only for the same small number. *)
Lemma u64_of_int z n : is_s32 z → n = u64 z → 0 ≤ n < 2 ^ 32 → z = n.
Proof.
  unfold is_s32, u64. intros Hz -> Hn. destruct (decide (0 ≤ z)) as [H0|H0]; [by rewrite Z.mod_small by lia|].
  rewrite <- (Z.mod_add z 1 (2 ^ 64)), Z.mod_small in Hn by lia. lia.
Qed.

Lemma deserialize_sound src n h :
  deserialize (Some src) n = Ok h → header_ok h ∧ ∃ rest, src = header_bytes h ++ rest.
Proof.
  unfold deserialize. destruct (n <? fixed_serialized_size); [done|]. intros H.
  do 5 (apply bind_ok in H as ([? ?] & ?R & H)).
  destruct (_ || _ || _ || _) eqn:E1 in H; [done|].
  apply bind_ok in H as ([types ?] & Rt & H). apply bind_ok in H as ([[lens total] ?] & Rl & H).
  do 6 (apply bind_ok in H as ([? ?] & ?R & H)).
  destruct (_ && _) eqn:E2 in H; [done|]. destruct (_ || _ || _ || _) eqn:E3 in H; [done|].
  apply bind_ok in H as (region & Hreg & H). destruct (negb (_ =? region)) eqn:E4 in H; [done|].
  apply bind_ok in H as ([] & Hfit & H); [|done]. cbn [negb] in H. injection H as <-.
  repeat match goal with X : read_int _ = Ok _ |- _ => apply read_int_sound in X as [-> ?] end.
  apply read_ints_sound in Rt as (-> & Ht & Hti). apply read_lengths_sound in Rl as (-> & Hl & Hli & ->).
  repeat match goal with X : read_int _ = Ok _ |- _ => apply read_int_sound in X as [-> ?] end.
  split_bools.
  match goal with X : serialized_size ?c = u64 ?s |- _ => assert (s = serialized_size c) as Hs; [apply (u64_of_int s); [done|done|]|] end.
  { unfold serialized_size, fixed_serialized_size. change max_serialized_columns with 506 in *. lia. }
  split.
  - split; cbn [first_free_page_ page_count_ root_page_ column_count_ column_types_ column_lengths_ key_length_ tree_order_
      keys_region_size_ first_leaf_ last_leaf_ serialized_size_]; unfold zlen; rewrite ?Ht, ?Hl; split_and?; try done; try lia.
    + congruence.
    + repeat (apply Forall_cons; split; [done|]). constructor.
  - eexists. unfold header_bytes. cbn [first_free_page_ page_count_ root_page_ column_count_ column_types_ column_lengths_ key_length_ tree_order_
      keys_region_size_ first_leaf_ last_leaf_ serialized_size_ unique_].
    rewrite !take_ge by lia. rewrite <- !app_assoc.
    match goal with |- context [int_bytes (if ?z =? 1 then 1 else 0)] => replace (if z =? 1 then 1 else 0) with z end; [reflexivity|].
    apply andb_false_iff in E2 as [E2|E2]; split_bools; subst; done.
Qed.

Lemma serialize_bytes h buf : header_ok h → zlen buf = serialized_size_ h → serialize h (Some buf) = Ok (header_bytes h).
Proof.
  intros H Hb. pose proof (header_size_range h H) as Hr. unfold serialize. pose proof (ho_count h H).
  destruct (ho_types h H) as [-> _]. destruct (ho_lengths h H) as [-> _].
  rewrite (ho_size h H), !Z.eqb_refl. zbool. rewrite (bool_decide_false (Some buf = None)) by done. cbn [orb negb].
  rewrite (header_bytes_length h H), Hb, (ho_size h H), Z.eqb_refl. zbool. cbn [negb].
  rewrite zdrop_all by (rewrite Hb, (ho_size h H); lia). by rewrite app_nil_r.
Qed.

(** C37. The header of an index file survives the disk: [serialize] fills a buffer of the
    announced size, and [deserialize] reads the page that starts with it back to the
    same header; conversely every page [deserialize] accepts starts with the bytes of a
    usable header, whose order leaves room for a temporary extra pair in every node. *)
Theorem index_header_exact h :
  (header_ok h →
   (∀ buf, zlen buf = serialized_size_ h → serialize h (Some buf) = Ok (header_bytes h)) ∧
   serialized_size_ h ≤ PAGE_SIZE ∧
   ∀ rest, deserialize (Some (header_bytes h ++ rest)) PAGE_SIZE = Ok h) ∧
  (∀ src, deserialize (Some src) PAGE_SIZE = Ok h → header_ok h ∧ ∃ rest, src = header_bytes h ++ rest).
Proof.
  split; [|intros src; apply deserialize_sound]. intros H. pose proof (header_size_range h H) as Hr. split_and!.
  - intros buf. by apply serialize_bytes.
  - lia.
  - intros rest. apply deserialize_bytes; [done|lia].
Qed.

Definition sample_header : IndexFileHeader :=
  mkHeader (-1) 3 2 2 [0; 2] [4; 8] 12 202 2436 2 2 true 60.

Lemma sample_header_ok : header_ok sample_header.
Proof.
  assert (∀ z, bool_decide (- 2 ^ 31 ≤ z < 2 ^ 31) = true → is_s32 z) as Hs by (intros z; apply bool_decide_eq_true).
  split; cbn [sample_header column_count_ column_types_ column_lengths_ key_length_ tree_order_ keys_region_size_
    serialized_size_ first_free_page_ page_count_ root_page_ first_leaf_ last_leaf_].
  - change max_serialized_columns with 506. lia.
  - split; [done|]. repeat (apply Forall_cons; split; [by apply Hs|]). constructor.
  - split; [done|]. repeat (apply Forall_cons; split; [split; [by apply Hs|lia]|]). constructor.
  - unfold INDEX_MAX_KEY_LENGTH. split; [done|lia].
  - split_and!; [lia|done|done].
  - done.
  - repeat (apply Forall_cons; split; [by apply Hs|]). constructor.
Qed.

Lemma index_header_exact_witness :
  deserialize (Some (header_bytes sample_header ++ replicate 100 Byte.xff)) PAGE_SIZE = Ok sample_header.
Proof. exact (proj2 (proj2 (proj1 (index_header_exact sample_header) sample_header_ok)) _). Defined.

(** ** The order of a new index *)

Definition region_size (o kl : Z) : Z := ((o + 1) * kl + 3) / 4 * 4.

(** The layout test, for the orders and lengths in use. *)
Definition fits (o kl : Z) : Prop := 24 + region_size o kl + (o + 1) * 8 ≤ PAGE_SIZE.
#[global] Instance fits_dec o kl : Decision (fits o kl).
Proof. unfold fits. apply _. Defined.

Lemma region_size_bounds o kl : (o + 1) * kl ≤ region_size o kl ≤ (o + 1) * kl + 3.
Proof. unfold region_size. pose proof (Z.div_mod ((o + 1) * kl + 3) 4). pose proof (Z.mod_pos_bound ((o + 1) * kl + 3) 4). lia. Qed.

Lemma keys_region_ok o kl :
  0 ≤ o ≤ 4096 → 0 < kl ≤ INDEX_MAX_KEY_LENGTH → calculate_keys_region_size o kl = Ok (region_size o kl).
Proof.
  intros Ho Hk. unfold INDEX_MAX_KEY_LENGTH in Hk. unfold calculate_keys_region_size.
  rewrite (proj2 (Z.ltb_ge o 0)), (proj2 (Z.leb_gt kl 0)) by lia.
  change (throw_if (false || false) ?e) with (Ok tt). step_ok. cbv zeta. unfold alignof_Rid.
  rewrite Z.quot_div_nonneg by nia. replace ((o + 1) * kl + 4 - 1) with ((o + 1) * kl + 3) by lia. fold (region_size o kl).
  pose proof (region_size_bounds o kl). rewrite (proj2 (Z.ltb_ge INT_MAX (region_size o kl))); [done|].
  unfold INT_MAX. nia.
Qed.

Lemma layout_fits_ok o kl :
  0 ≤ o ≤ 4096 → 0 < kl ≤ INDEX_MAX_KEY_LENGTH → page_layout_fits o kl = Ok (bool_decide (fits o kl)).
Proof.
  intros Ho Hk. unfold page_layout_fits. rewrite (keys_region_ok o kl Ho Hk). zbool. cbn [orb]. step_ok. f_equal.
  unfold fits, sizeof_IndexPageHeader, sizeof_Rid. by destruct (Z.leb_spec (24 + region_size o kl + (o + 1) * 8) PAGE_SIZE);
    [rewrite bool_decide_true|rewrite bool_decide_false by lia].
Qed.

(** Nothing above the first guess fits. *)
Lemma first_order_bound o kl : 0 ≤ o → 0 < kl → fits o kl → o ≤ first_order kl.
Proof.
  intros Ho Hk Hf. unfold fits, PAGE_SIZE in Hf. pose proof (region_size_bounds o kl).
  unfold first_order, PAGE_SIZE, sizeof_IndexPageHeader, sizeof_Rid. rewrite Z.quot_div_nonneg by lia.
  assert (o + 1 ≤ (4096 - 24) / (kl + 8)); [|lia]. apply Z.div_le_lower_bound; [lia|]. nia.
Qed.

Lemma order_loop_spec fuel o kl :
  0 < kl ≤ INDEX_MAX_KEY_LENGTH → 3 ≤ o ≤ 4096 → fits 3 kl → (Z.to_nat o < fuel)%nat →
  ∃ m, order_loop fuel o kl = Ok m ∧ 3 ≤ m ≤ o ∧ fits m kl ∧ ∀ k, m < k ≤ o → ¬ fits k kl.
Proof.
  intros Hk. revert o. induction fuel as [|fuel IH]; intros o Ho H3 Hfuel; [lia|]. cbn [order_loop]. zbool.
  rewrite layout_fits_ok by (done || lia). step_ok. destruct (decide (fits o kl)) as [Hf|Hf].
  - rewrite (bool_decide_true _ Hf). cbn [negb]. exists o. split_and!; try done; lia.
  - rewrite (bool_decide_false _ Hf). cbn [negb]. assert (o ≠ 3) by (by intros ->).
    destruct (IH (o - 1)) as (m & Hm & Hr & Hmf & Hmax); [lia|done|lia|]. exists m. split_and!; try done; try lia.
    intros k Hk'. destruct (decide (k = o)) as [->|]; [done|]. apply Hmax. lia.
Qed.

(** ** The columns of an index fit its table's record *)

Definition lengths (cols : list ColMeta) : Z := sum_lengths (col_len <$> cols).

Lemma lengths_cons c cols : lengths (c :: cols) = col_len c + lengths cols.
Proof. unfold lengths. rewrite fmap_cons. apply sum_lengths_cons. Qed.

Lemma lengths_perm cols cols' : cols ≡ₚ cols' → lengths cols = lengths cols'.
Proof. induction 1; rewrite ?lengths_cons in *; lia. Qed.

Lemma lengths_app cols cols' : lengths (cols ++ cols') = lengths cols + lengths cols'.
Proof. induction cols as [|c cols IH]; [done|]. cbn [app]. rewrite !lengths_cons, IH. lia. Qed.

Lemma laid_out_lengths tab off cols :
  laid_out tab off cols →
  Forall (λ c, len_ok (col_type c) (col_len c)) cols ∧ off + lengths cols ≤ RM_MAX_RECORD_SIZE.
Proof.
  revert off. induction cols as [|c cols IH]; intros off.
  { intros H. split; [constructor|]. cbn in H. unfold lengths, sum_lengths. cbn. lia. }
  intros (_ & _ & Hv & _ & Hl). destruct (IH _ Hl) as [Hf Hs]. rewrite lengths_cons. split; [|lia].
  constructor; [|done]. unfold column_invalid in Hv. split_bools. split; [lia|].
  destruct (col_type c); [| |done]; repeat match goal with X : _ && _ = false |- _ => apply andb_false_iff in X as [X|X] end;
    split_bools; done.
Qed.

(** Distinct columns of a table take at most the table's record. *)
Lemma index_lengths t i :
  tab_wf t → index_wf (tab_name t) (tab_cols t) i →
  Forall (λ c, len_ok (col_type c) (col_len c)) (idx_cols i) ∧ 0 < lengths (idx_cols i) ≤ INDEX_MAX_KEY_LENGTH.
Proof.
  intros (_ & _ & _ & Hl & _) (Hne & Hnd & Hsub & _). destruct (laid_out_lengths _ _ _ Hl) as [Hf Hs].
  assert (∀ l, Forall (λ c, len_ok (col_type c) (col_len c)) l → 0 ≤ lengths l) as Hpos.
  { induction 1 as [|c l [H _] _ IH]; [done|]. rewrite lengths_cons. lia. }
  assert (Forall (λ c, len_ok (col_type c) (col_len c)) (idx_cols i)) as Hfi.
  { rewrite Forall_forall in Hsub, Hf |- *. auto. }
  split; [done|]. unfold names in Hnd. apply NoDup_fmap_1 in Hnd.
  assert (idx_cols i ⊆+ tab_cols t) as [rest Hrest]%submseteq_Permutation.
  { apply NoDup_submseteq; [done|]. rewrite Forall_forall in Hsub. done. }
  rewrite (lengths_perm _ _ Hrest), lengths_app in Hs. rewrite Hrest in Hf. apply Forall_app in Hf as [_ Hr].
  specialize (Hpos rest Hr). unfold INDEX_MAX_KEY_LENGTH, RM_MAX_RECORD_SIZE in *. split; [|lia].
  destruct (idx_cols i) as [|c l] eqn:El; [done|]. apply Forall_cons in Hfi as [[Hc _] Hfl]. rewrite lengths_cons.
  assert (0 ≤ lengths l); [|lia]. clear -Hfl. induction Hfl as [|d l [H _] _ IH]; [done|]. rewrite lengths_cons. lia.
Qed.

Lemma check_columns_ok cols acc :
  Forall (λ c, len_ok (col_type c) (col_len c)) cols → 0 ≤ acc → acc + lengths cols ≤ INDEX_MAX_KEY_LENGTH →
  check_columns cols acc = Ok (acc + lengths cols).
Proof.
  intros H. revert acc. induction H as [|c cols [Hp Ht] Hf IH]; intros acc Ha Hs.
  { unfold lengths, sum_lengths. cbn. by rewrite Z.add_0_r. }
  rewrite lengths_cons in Hs |- *.
  assert (0 ≤ lengths cols) as Hc. { clear -Hf. induction Hf as [|d l [H _] _ IH]; [done|]. rewrite lengths_cons. lia. }
  cbn [check_columns]. cbv zeta. rewrite (proj2 (Z.ltb_lt 0 (col_len c))) by lia.
  assert (match col_type c with TYPE_STRING => true | _ => col_len c =? 4 end = true) as ->.
  { destruct (col_type c); [by rewrite Ht|by rewrite Ht|done]. }
  change (throw_if (negb (true && true)) ?e) with (Ok tt). step_ok. rewrite (proj2 (Z.ltb_ge _ (acc + col_len c))) by lia.
  change (throw_if false ?e) with (Ok tt). step_ok. rewrite IH by lia. f_equal. lia.
Qed.

Lemma lengths_elem cols c :
  Forall (λ c, len_ok (col_type c) (col_len c)) cols → c ∈ cols → 0 < col_len c ≤ lengths cols.
Proof.
  intros Hf. assert (0 ≤ lengths cols ∧ (c ∈ cols → 0 < col_len c ≤ lengths cols)) as [_ H]; [|done].
  induction Hf as [|d cols [Hd _] _ [Hp IH]].
  { split; [done|]. intros H. by apply elem_of_nil in H. }
  rewrite lengths_cons. split; [lia|]. intros [-> | Hc]%elem_of_cons; [lia|]. specialize (IH Hc). lia.
Qed.

Lemma fits_mono o o' kl : 0 ≤ o ≤ o' → 0 < kl → fits o' kl → fits o kl.
Proof.
  intros Ho Hk. unfold fits, region_size. pose proof (Z.div_le_mono ((o + 1) * kl + 3) ((o' + 1) * kl + 3) 4). nia.
Qed.

Lemma tot_len_lengths cols : foldl (λ n c, n + col_len c) 0 cols = lengths cols.
Proof.
  induction cols as [|c cols IH]; [done|]. rewrite lengths_cons. cbn [foldl]. rewrite foldl_len_shift, IH. lia.
Qed.

Lemma new_index_spec t i :
  tab_wf t → index_wf (tab_name t) (tab_cols t) i → zlen (idx_cols i) ≤ max_serialized_columns →
  ∃ h, new_index_header i = Ok h ∧ header_ok h ∧ key_length_ h = idx_tot_len i ∧ unique_ h = idx_unique i ∧
    column_lengths_ h = col_len <$> idx_cols i ∧
    page_count_ h = INDEX_INITIAL_PAGE_COUNT ∧ root_page_ h = INDEX_INITIAL_ROOT_PAGE ∧ first_leaf_ h = root_page_ h ∧ last_leaf_ h = root_page_ h ∧
    3 ≤ tree_order_ h ∧ ∀ o, 0 ≤ o ≤ 4096 → page_layout_fits o (key_length_ h) = Ok true ↔ o ≤ tree_order_ h.
Proof.
  intros Ht Hi Hn. destruct (index_lengths t i Ht Hi) as [Hf Hlen]. destruct Hi as (Hne & _ & _ & Heq).
  set (kl := lengths (idx_cols i)) in *. unfold INDEX_MAX_KEY_LENGTH in Hlen.
  assert (6 ≤ first_order kl ≤ 4096) as Hfo.
  { unfold first_order, PAGE_SIZE, sizeof_IndexPageHeader, sizeof_Rid. rewrite Z.quot_div_nonneg by lia.
    pose proof (Z.div_le_lower_bound (4096 - 24) (kl + 8) 7). pose proof (Z.div_le_upper_bound (4096 - 24) (kl + 8) 4096). lia. }
  assert (fits 3 kl) as H3 by (unfold fits, PAGE_SIZE; pose proof (region_size_bounds 3 kl); lia).
  assert (0 < zlen (idx_cols i)) as Hcols by (pose proof (zlen_nonneg (idx_cols i)); rewrite <- zlen_nil_iff in Hne; lia).
  destruct (order_loop_spec (S (Z.to_nat (first_order kl))) (first_order kl) kl) as (m & Hm & Hmr & Hmf & Hmax);
    [done|lia|done|lia|].
  assert (idx_tot_len i = kl) as Htot by (rewrite Heq; apply tot_len_lengths).
  unfold new_index_header. cbv zeta. rewrite (bool_decide_false _ Hne), (proj2 (Z.ltb_ge _ _) Hn).
  change (throw_if (false || false) ?e) with (Ok tt). step_ok.
  rewrite (check_columns_ok (idx_cols i) 0 Hf) by (unfold INDEX_MAX_KEY_LENGTH; lia). step_ok.
  rewrite Z.add_0_l. fold kl. rewrite Hm. step_ok. rewrite (proj2 (Z.leb_gt m 2)) by lia.
  rewrite layout_fits_ok by (unfold INDEX_MAX_KEY_LENGTH; lia). rewrite (bool_decide_true _ Hmf). step_ok.
  change (throw_if (negb true) ?e) with (Ok tt). step_ok.
  rewrite keys_region_ok by (unfold INDEX_MAX_KEY_LENGTH; lia). step_ok. unfold update_serialized_size. cbn [column_count_].
  rewrite (proj2 (Z.leb_gt (zlen (idx_cols i)) 0)), (proj2 (Z.ltb_ge _ _) Hn) by lia.
  change (throw_if (false || false) ?e) with (Ok tt). step_ok. eexists. split; [reflexivity|].
  cbn [first_free_page_ page_count_ root_page_ column_count_ column_types_ column_lengths_ key_length_ tree_order_
      keys_region_size_ first_leaf_ last_leaf_ unique_ serialized_size_].
  assert (∀ z, -1 ≤ z ≤ 9000 → is_s32 z) as Hs32 by (unfold is_s32; intros; lia).
  split; [|split_and!; try done; [lia|]].
  - split; cbn [first_free_page_ page_count_ root_page_ column_count_ column_types_ column_lengths_ key_length_ tree_order_
      keys_region_size_ first_leaf_ last_leaf_ unique_ serialized_size_].
    + done.
    + split; [unfold zlen; by rewrite length_fmap|]. apply Forall_fmap, Forall_forall. intros c _. apply Hs32.
      unfold compose. destruct (col_type c); cbn; lia.
    + split; [unfold zlen; by rewrite length_fmap|]. apply Forall_fmap, Forall_forall. intros c Hc.
      pose proof (lengths_elem (idx_cols i) c Hf Hc). split; [apply Hs32; cbn; lia|cbn; lia].
    + split; [done|]. unfold INDEX_MAX_KEY_LENGTH. lia.
    + split_and!; [lia|apply keys_region_ok|]; [lia|unfold INDEX_MAX_KEY_LENGTH; lia|].
      rewrite layout_fits_ok by (unfold INDEX_MAX_KEY_LENGTH; lia). by rewrite bool_decide_true.
    + done.
    + pose proof (region_size_bounds m kl). unfold fits, PAGE_SIZE in Hmf.
      assert (0 ≤ (m + 1) * kl) by nia. unfold INDEX_NO_PAGE, INDEX_INITIAL_PAGE_COUNT, INDEX_INITIAL_ROOT_PAGE.
      repeat (apply Forall_cons; split; [apply Hs32; lia|]).
      constructor.
  - intros o Ho. rewrite layout_fits_ok by (unfold INDEX_MAX_KEY_LENGTH; lia). split.
    + intros [= Hb]. apply bool_decide_eq_true in Hb. pose proof (first_order_bound o kl ltac:(lia) ltac:(lia) Hb).
      destruct (decide (o ≤ m)); [done|]. exfalso. apply (Hmax o); [lia|done].
    + intros Hle. rewrite bool_decide_true; [done|]. apply (fits_mono o m kl); [lia|lia|done].
Qed.

(** C36. Creating an index over a well-formed table computes a usable header for at most
    506 columns and never an exception: the key length is the sum of the columns, the
    tree is empty with its root as its only leaf, and the order is the largest for which
    a node with one pair to spare fits its page. *)
Theorem new_index_correct t i :
  tab_wf t → index_wf (tab_name t) (tab_cols t) i → zlen (idx_cols i) ≤ max_serialized_columns →
  ∃ h, new_index_header i = Ok h ∧ header_ok h ∧ key_length_ h = idx_tot_len i ∧ unique_ h = idx_unique i ∧
    column_lengths_ h = col_len <$> idx_cols i ∧
    root_page_ h = INDEX_INITIAL_ROOT_PAGE ∧ first_leaf_ h = root_page_ h ∧ last_leaf_ h = root_page_ h ∧
    3 ≤ tree_order_ h ∧ ∀ o, 0 ≤ o ≤ 4096 → page_layout_fits o (key_length_ h) = Ok true ↔ o ≤ tree_order_ h.
Proof.
  intros Ht Hi Hn. destruct (new_index_spec t i Ht Hi Hn) as (h & H1 & H2 & H3 & H4 & H5 & _ & H6). by exists h.
Qed.

Lemma new_index_correct_witness :
  ∃ h, new_index_header (IndexMeta_make "t" [mkCol "t" "id" TYPE_INT 4 0 true] true) = Ok h ∧ header_ok h ∧ tree_order_ h = 338.
Proof.
  assert (tab_wf sample_table) as Hwf by exact (proj2 (proj2 sample_db_wf "t"%string sample_table eq_refl)).
  assert (index_wf "t" (tab_cols sample_table) (IndexMeta_make "t" [mkCol "t" "id" TYPE_INT 4 0 true] true)) as Hi.
  { destruct Hwf as (_ & _ & _ & _ & _ & H & _). exact (Forall_inv H). }
  destruct (new_index_correct sample_table _ Hwf Hi) as (h & H & Hok & _); [vm_compute; discriminate|].
  exists h. split_and!; [exact H|exact Hok|]. vm_compute in H. by injection H as <-.
Defined.

(** ** The order of keys *)

(** Lexicographic comparison of numbers. *)
Fixpoint lex (a b : list Z) : Z :=
  match a, b with
  | x :: a, y :: b => if x <? y then -1 else if y <? x then 1 else lex a b
  | _, _ => 0
  end.

Lemma lex_antisym a b : lex b a = - lex a b.
Proof.
  revert b. induction a as [|x a IH]; intros [|y b]; try done. cbn [lex].
  destruct (Z.ltb_spec x y), (Z.ltb_spec y x); try lia; auto.
Qed.

Lemma lex_zero a b : length a = length b → lex a b = 0 ↔ a = b.
Proof.
  revert b. induction a as [|x a IH]; intros [|y b] Hl; try done. cbn in Hl. cbn [lex].
  destruct (Z.ltb_spec x y) as [H1|H1]; [split; [lia|intros [= -> _]; lia]|].
  destruct (Z.ltb_spec y x) as [H2|H2]; [split; [lia|intros [= -> _]; lia]|].
  rewrite IH by lia. split; [intros ->; f_equal; lia|by intros [= _ ->]].
Qed.

Lemma lex_trans a b c : length a = length b → length b = length c → lex a b ≤ 0 → lex b c ≤ 0 → lex a c ≤ 0.
Proof.
  revert b c. induction a as [|x a IH]; intros [|y b] [|z c] H1 H2; try done. cbn in H1, H2. cbn [lex].
  destruct (Z.ltb_spec x y), (Z.ltb_spec y x), (Z.ltb_spec y z), (Z.ltb_spec z y), (Z.ltb_spec x z), (Z.ltb_spec z x); try lia.
  intros. apply (IH b c); lia.
Qed.

Lemma lex_app a b a' b' : length a = length b → lex (a ++ a') (b ++ b') = if lex a b =? 0 then lex a' b' else lex a b.
Proof.
  revert b. induction a as [|x a IH]; intros [|y b] Hl; try done. cbn in Hl. cbn [app lex].
  destruct (x <? y); [done|]. destruct (y <? x); [done|]. apply IH. lia.
Qed.

(** The values a key stands for: a number per INT or FLOAT, the bytes of a STRING. *)
Definition column_value (type : ColType) (field : bytes) : list Z :=
  match type with
  | TYPE_INT => [s32 (le_combine field)]
  | TYPE_FLOAT => [f32_rank (le_combine field)]
  | TYPE_STRING => byte.unsigned <$> field
  end.

Fixpoint key_values (columns : list (ColType * Z)) (key : bytes) : list Z :=
  match columns with
  | [] => []
  | (type, len) :: columns => column_value type (ztake len key) ++ key_values columns (zdrop len key)
  end.

(** Keys of the right length without NaN. *)
Fixpoint key_ok (columns : list (ColType * Z)) (key : bytes) : Prop :=
  match columns with
  | [] => True
  | (type, len) :: columns =>
    len_ok type len ∧ len ≤ zlen key ∧ (type = TYPE_FLOAT → f32_nan (le_combine (ztake len key)) = false) ∧
    key_ok columns (zdrop len key)
  end.

Lemma memcmp_lex a b : memcmp a b = lex (byte.unsigned <$> a) (byte.unsigned <$> b).
Proof.
  revert b. induction a as [|x a IH]; intros [|y b]; try done. rewrite !fmap_cons. cbn [memcmp lex]. by rewrite IH.
Qed.

Lemma compare_column_lex a b type len :
  len_ok type len → len ≤ zlen a → len ≤ zlen b →
  (type = TYPE_FLOAT → f32_nan (le_combine (ztake len a)) = false ∧ f32_nan (le_combine (ztake len b)) = false) →
  compare_column a b type len = Ok (lex (column_value type (ztake len a)) (column_value type (ztake len b))).
Proof.
  intros [Hp Ht] Ha Hb Hn. unfold compare_column. rewrite (proj2 (Z.leb_gt len 0)) by lia.
  change (throw_if false ?e) with (Ok tt). step_ok. zbool. cbn [orb]. destruct type.
  - subst len. change (throw_if (negb (4 =? 4)) ?e) with (Ok tt). by step_ok.
  - subst len. change (throw_if (negb (4 =? 4)) ?e) with (Ok tt). step_ok. destruct (Hn eq_refl) as [Hna Hnb].
    unfold f32_lt. rewrite Hna, Hnb. done.
  - by rewrite memcmp_lex.
Qed.

Lemma column_value_length type len a b :
  len ≤ zlen a → len ≤ zlen b → length (column_value type (ztake len a)) = length (column_value type (ztake len b)).
Proof.
  intros Ha Hb. destruct type; [done|done|]. unfold column_value. rewrite !length_fmap. unfold ztake, zlen in *.
  rewrite !length_take. lia.
Qed.

Lemma key_values_length columns a b : key_ok columns a → key_ok columns b → length (key_values columns a) = length (key_values columns b).
Proof.
  revert a b. induction columns as [|[type len] columns IH]; intros a b; [done|].
  intros (_ & Ha & _ & Hka) (_ & Hb & _ & Hkb). cbn [key_values]. rewrite !length_app.
  rewrite (column_value_length type len a b), (IH (zdrop len a) (zdrop len b)); done.
Qed.

Lemma compare_columns_lex columns a b :
  key_ok columns a → key_ok columns b → compare_columns a b columns = Ok (lex (key_values columns a) (key_values columns b)).
Proof.
  revert a b. induction columns as [|[type len] columns IH]; intros a b; [done|].
  intros (Hl & Ha & Hna & Hka) (_ & Hb & Hnb & Hkb). cbn [compare_columns key_values].
  rewrite compare_column_lex by auto. step_ok. rewrite lex_app by (by apply column_value_length).
  destruct (lex _ _ =? 0) eqn:E; cbn [negb]; [by apply IH|done].
Qed.

(** Comparing index keys is a total order on their column values: on keys of the
    index's format without NaN it always returns a number, that number changes sign when
    the keys are swapped, it is transitive, and it is zero exactly when all columns have
    equal values. *)
Theorem key_order types lens a b c :
  length types = length lens → key_ok (zip types lens) a → key_ok (zip types lens) b → key_ok (zip types lens) c →
  ∃ ab ba bc ac, compare_index_key a b types lens = Ok ab ∧ compare_index_key b a types lens = Ok ba ∧
    compare_index_key b c types lens = Ok bc ∧ compare_index_key a c types lens = Ok ac ∧
    ba = - ab ∧ (ab ≤ 0 → bc ≤ 0 → ac ≤ 0) ∧
    (ab = 0 ↔ key_values (zip types lens) a = key_values (zip types lens) b).
Proof.
  intros Hl Ha Hb Hc. unfold compare_index_key, zlen. rewrite Hl, Z.eqb_refl. change (throw_if (negb true) ?e) with (Ok tt).
  step_ok. rewrite !compare_columns_lex by done. eexists _, _, _, _. do 4 (split; [done|]).
  pose proof (key_values_length _ a b Ha Hb). pose proof (key_values_length _ b c Hb Hc).
  split_and!; [apply lex_antisym|by apply lex_trans|by apply lex_zero].
Qed.

Lemma key_order_witness :
  compare_index_key (str "ab" ++ int_bytes (-1)) (str "ab" ++ int_bytes 1) [TYPE_STRING; TYPE_INT] [2; 4] = Ok (-1) ∧
  ∃ r, compare_index_key (str "ab" ++ int_bytes 1) (str "ab" ++ int_bytes (-1)) [TYPE_STRING; TYPE_INT] [2; 4] = Ok r ∧ r = 1.
Proof.
  assert (∀ z, key_ok (zip [TYPE_STRING; TYPE_INT] [2; 4]) (str "ab" ++ int_bytes z)) as Hk.
  { intros z. cbn [zip zip_with key_ok]. rewrite zdrop_app_exact by done. rewrite zlen_app, int_bytes_length.
    split_and!; try done; vm_compute; discriminate. }
  destruct (key_order [TYPE_STRING; TYPE_INT] [2; 4] (str "ab" ++ int_bytes (-1)) (str "ab" ++ int_bytes 1) (str "ab" ++ int_bytes 0)
    eq_refl (Hk _) (Hk _) (Hk _)) as (ab & ba & _ & _ & H1 & H2 & _ & _ & Hn & _).
  assert (ab = -1) as -> by (vm_compute in H1; congruence). split; [exact H1|]. exists ba. split; [exact H2|lia].
Defined.

(** ** File names *)

Fixpoint no_underscore (s : string) : bool :=
  match s with
  | EmptyString => true
  | String c s => negb (bool_decide (String c "" = "_"%string)) && no_underscore s
  end.

Fixpoint name_tail (cols : list string) : string :=
  match cols with [] => ".idx" | c :: cols => "_" +:+ (c +:+ name_tail cols) end.

Lemma app_String x (a b : string) : String x a +:+ b = String x (a +:+ b).
Proof. done. Qed.

Lemma string_app_assoc (a b c : string) : (a +:+ b) +:+ c = a +:+ (b +:+ c).
Proof. induction a as [|x a IH]; [done|]. by rewrite !app_String, IH. Qed.

Lemma make_index_name_tail t cols : make_index_name t cols = t +:+ name_tail cols.
Proof.
  unfold make_index_name. revert t. induction cols as [|c cols IH]; intros t; [done|]. cbn [add_columns name_tail].
  rewrite IH. by rewrite !string_app_assoc.
Qed.

Lemma no_underscore_app a b : no_underscore (a +:+ b) = no_underscore a && no_underscore b.
Proof. induction a as [|x a IH]; [done|]. rewrite app_String. cbn [no_underscore]. by rewrite IH, andb_assoc. Qed.

Lemma split_underscore a b r s :
  no_underscore a = true → no_underscore b = true → a +:+ ("_" +:+ r) = b +:+ ("_" +:+ s) → a = b ∧ r = s.
Proof.
  revert b. induction a as [|x a IH]; intros [|y b] Ha Hb H; rewrite ?app_String in H.
  - injection H as H. exact (conj eq_refl H).
  - injection H as <- _. done.
  - injection H as -> _. done.
  - injection H as -> H. cbn in Ha, Hb. apply andb_true_iff in Ha as [_ Ha], Hb as [_ Hb].
    destruct (IH b Ha Hb H) as [-> ->]. done.
Qed.

Lemma string_length_app (a b : string) : String.length (a +:+ b) = (String.length a + String.length b)%nat.
Proof. induction a as [|x a IH]; [done|]. rewrite app_String. cbn [String.length]. rewrite IH. lia. Qed.

Lemma app_idx_inj a b : a +:+ ".idx" = b +:+ ".idx" → a = b.
Proof.
  revert b. induction a as [|x a IH]; intros [|y b] H; [done| | |].
  - apply (f_equal String.length) in H. rewrite !string_length_app in H. cbn in H. lia.
  - apply (f_equal String.length) in H. rewrite !string_length_app in H. cbn in H. lia.
  - rewrite !app_String in H. injection H as -> H. f_equal. by apply IH.
Qed.

Lemma name_tail_inj t u cols cols' :
  no_underscore t = true → no_underscore u = true →
  Forall (λ c, no_underscore c = true) cols → Forall (λ c, no_underscore c = true) cols' →
  t +:+ name_tail cols = u +:+ name_tail cols' → t = u ∧ cols = cols'.
Proof.
  intros Ht Hu Hc. revert t u Ht Hu cols'. induction Hc as [|c cols Hc _ IH]; intros t u Ht Hu cols' Hc' H.
  - destruct Hc' as [|c' cols' Hc' _]; cbn [name_tail] in H; [by apply app_idx_inj in H|].
    apply (f_equal no_underscore) in H. rewrite !no_underscore_app, Ht, Hu in H. done.
  - destruct Hc' as [|c' cols' Hc' Hcs]; cbn [name_tail] in H.
    + apply (f_equal no_underscore) in H. rewrite !no_underscore_app, Ht, Hu in H. done.
    + apply split_underscore in H as [-> H]; [|done|done]. by destruct (IH c c' Hc Hc' cols' Hcs H) as [-> ->].
Qed.

(** The file name of an index identifies it, when no table or column name contains
    an underscore. *)
Theorem index_name_injective t u cols cols' :
  no_underscore t = true → no_underscore u = true →
  Forall (λ c, no_underscore c = true) cols → Forall (λ c, no_underscore c = true) cols' →
  make_index_name t cols = make_index_name u cols' → t = u ∧ cols = cols'.
Proof. intros Ht Hu Hc Hc'. rewrite !make_index_name_tail. by apply name_tail_inj. Qed.

Lemma index_name_injective_witness : make_index_name "t" ["a"; "b"]%string ≠ make_index_name "t" ["ab"]%string.
Proof.
  assert (∀ l, forallb no_underscore l = true → Forall (λ c, no_underscore c = true) l) as Hf.
  { intros l H. apply Forall_forall. intros x Hx. rewrite forallb_forall in H. by apply H, list_elem_of_In. }
  intros H. destruct (index_name_injective "t" "t" ["a"; "b"]%string ["ab"]%string eq_refl eq_refl
    (Hf ["a"; "b"]%string eq_refl) (Hf ["ab"]%string eq_refl) H) as [_ H2]. discriminate.
Defined.

Definition underscore_table : TabMeta :=
  let a := mkCol "t" "a" TYPE_INT 4 0 true in
  let b := mkCol "t" "b" TYPE_INT 4 4 true in
  let ab := mkCol "t" "a_b" TYPE_INT 4 8 true in
  mkTab "t" [a; b; ab] [IndexMeta_make "t" [a; b] false; IndexMeta_make "t" [ab] false].

(** With underscores two different indexes of one well-formed table can have the
    same file name, so that the second one is built on the file of the first. *)
Theorem index_name_collision :
  tab_wf underscore_table ∧
  ∃ i j, tab_indexes underscore_table = [i; j] ∧ idx_cols i ≠ idx_cols j ∧
    make_index_name (idx_tab i) (names (idx_cols i)) = make_index_name (idx_tab j) (names (idx_cols j)).
Proof.
  split.
  - split_and!; [done|done| | | | |].
    + apply (bool_decide_unpack _). vm_compute. exact I.
    + vm_compute. repeat split; discriminate.
    + repeat constructor.
    + assert (∀ (c : ColMeta) (l : list ColMeta), bool_decide (c ∈ l) = true → c ∈ l) as He by (intros c l; apply bool_decide_eq_true).
      apply Forall_cons; split; [|apply Forall_cons; split; [|constructor]].
      * split_and!; [done|apply (bool_decide_unpack _); vm_compute; exact I| |done]. repeat (apply Forall_cons; split; [by apply He|]). constructor.
      * split_and!; [done|apply (bool_decide_unpack _); vm_compute; exact I| |done]. repeat (apply Forall_cons; split; [by apply He|]). constructor.
    + apply (bool_decide_unpack _). vm_compute. exact I.
  - eexists _, _. split_and!; [done|done|done].
Qed.
