(* ===== verification/Disk.v ===== *)
(** * The storage interface

    The disk manager, the buffer pool and the metadata stream are left to their own
    implementations ([src/src/storage/] is a set of exercises), so the components above
    them are modelled against this interface: the operations they call, and what the
    headers, the comments and the unit tests of the storage layer promise about them.
    [Mem] is an implementation, in memory and with injectable failures. *)

From S2P Require Import Prelude Common Record.

(** ** Effects: a state and an exception that keeps the state *)

Definition M (D A : Type) : Type := D → result A * D.

#[global] Instance M_ret D : MRet (M D) := λ A a d, (Ok a, d).
#[global] Instance M_bind D : MBind (M D) := λ A B f m d,
  match m d with
  | (Ok a, d) => f a d
  | (Throw e, d) => (Throw e, d)
  | (Crash, d) => (Crash, d)
  end.

Definition lift {D A} (r : result A) : M D A := λ d, (r, d).

(** [try { m } catch (...) { handler; throw; }] *)
Definition catch_rethrow {D A} (m : M D A) (handler : M D unit) : M D A := λ d,
  match m d with
  | (Throw e, d) =>
    match handler d with
    | (Ok _, d) => (Throw e, d)
    | (Throw e', d) => (Throw e', d)
    | (Crash, d) => (Crash, d)
    end
  | r => r
  end.

(** ** The interface *)

Class Storage (D : Type) := {
  create_file : string → M D unit;
  destroy_file : string → M D unit;
  open_file : string → M D Z;
  close_file : Z → M D unit;
  write_page : Z → Z → bytes → M D unit;
  read_page : Z → Z → Z → M D bytes;
  set_fd2pageno : Z → Z → M D unit;
  get_file_size : Z → M D Z;
  discard_file_pages : Z → M D unit;
  write_meta : bytes → M D unit }.

(** A file as its pages; a page not written in full reads as zeros after its bytes. *)
Notation file := (gmap Z bytes).

Definition page_of (f : file) (page_no : Z) : bytes := default [] (f !! page_no).
Definition overwrite (old new : bytes) : bytes := new ++ zdrop (zlen new) old.
Definition padded (n : Z) (bs : bytes) : bytes := ztake n (bs ++ replicate (Z.to_nat n) Byte.x00).

(** The end of the last byte of the file. *)
Definition file_bytes (f : file) : Z :=
  foldr Z.max 0 ((λ '(n, bs), n * PAGE_SIZE + zlen bs) <$> map_to_list f).

(** What callers rely on: a view of the stored files and of the open descriptors; every
    call that throws leaves the view as it was, except the page being written, the
    file being flushed and the metadata text.  A read that reaches behind the end of the
    file gets too few bytes and throws. *)
Class StorageLaws (D : Type) `{Storage D} := {
  files : D → gmap string file;
  opened : D → gmap Z string;
  meta : D → option bytes;

  create_law p d r d' : create_file p d = (r, d') →
    opened d' = opened d ∧ meta d' = meta d ∧
    match r with
    | Ok _ => files d !! p = None ∧ files d' = <[p := ∅]> (files d)
    | Throw _ => files d' = files d
    | Crash => False
    end;
  destroy_law p d r d' : destroy_file p d = (r, d') →
    opened d' = opened d ∧ meta d' = meta d ∧
    match r with
    | Ok _ => (∀ fd, opened d !! fd ≠ Some p) ∧ files d' = delete p (files d)
    | Throw _ => files d' = files d
    | Crash => False
    end;
  open_law p d r d' : open_file p d = (r, d') →
    files d' = files d ∧ meta d' = meta d ∧
    match r with
    | Ok fd => 0 ≤ fd ∧ is_Some (files d !! p) ∧ (∀ fd', opened d !! fd' ≠ Some p) ∧ opened d !! fd = None ∧
               opened d' = <[fd := p]> (opened d)
    | Throw _ => opened d' = opened d
    | Crash => False
    end;
  close_law fd d r d' : close_file fd d = (r, d') →
    files d' = files d ∧ meta d' = meta d ∧
    match r with
    | Ok _ => is_Some (opened d !! fd) ∧ opened d' = delete fd (opened d)
    | Throw _ => opened d' = opened d
    | Crash => False
    end;
  write_law fd n bs d r d' : 0 ≤ n → zlen bs ≤ PAGE_SIZE → write_page fd n bs d = (r, d') →
    opened d' = opened d ∧ meta d' = meta d ∧
    match r with
    | Ok _ => ∃ p f, opened d !! fd = Some p ∧ files d !! p = Some f ∧
        files d' = <[p := <[n := overwrite (page_of f n) bs]> f]> (files d)
    | Throw _ => dom (files d') = dom (files d)
    | Crash => False
    end;
  read_law fd n len d r d' : 0 ≤ n → 0 ≤ len ≤ PAGE_SIZE → read_page fd n len d = (r, d') →
    files d' = files d ∧ opened d' = opened d ∧ meta d' = meta d ∧
    match r with
    | Ok bs => ∃ p f, opened d !! fd = Some p ∧ files d !! p = Some f ∧ n * PAGE_SIZE + len ≤ file_bytes f ∧
        bs = padded len (page_of f n)
    | Throw _ => True
    | Crash => False
    end;
  set_pageno_law fd n d : ∃ d', set_fd2pageno fd n d = (Ok tt, d') ∧
    files d' = files d ∧ opened d' = opened d ∧ meta d' = meta d;
  size_law fd d : ∃ n, get_file_size fd d = (Ok n, d) ∧
    (∀ p f, opened d !! fd = Some p → files d !! p = Some f → n = file_bytes f);
  discard_law fd d r d' : discard_file_pages fd d = (r, d') →
    opened d' = opened d ∧ meta d' = meta d ∧ dom (files d') = dom (files d) ∧ r ≠ Crash ∧
    (∀ q, opened d !! fd ≠ Some q → files d' !! q = files d !! q);
  meta_law text d r d' : write_meta text d = (r, d') →
    files d' = files d ∧ opened d' = opened d ∧
    match r with Ok _ => meta d' = Some text | Throw _ => True | Crash => False end }.

(** A storage layer without I/O failures: what is possible succeeds.  Creating a file
    that exists, reading behind the end of a file and writing the metadata may still
    fail. *)
Class Reliable (D : Type) `{StorageLaws D} := {
  destroy_works p d : is_Some (files d !! p) → (∀ fd, opened d !! fd ≠ Some p) → ∃ d', destroy_file p d = (Ok tt, d');
  open_works p d : is_Some (files d !! p) → (∀ fd, opened d !! fd ≠ Some p) → ∃ fd d', open_file p d = (Ok fd, d');
  close_works fd d : is_Some (opened d !! fd) → ∃ d', close_file fd d = (Ok tt, d');
  write_works fd p n bs d : 0 ≤ n → zlen bs ≤ PAGE_SIZE → opened d !! fd = Some p → is_Some (files d !! p) →
    ∃ d', write_page fd n bs d = (Ok tt, d');
  read_works fd p f n len d : 0 ≤ n → 0 ≤ len ≤ PAGE_SIZE → opened d !! fd = Some p → files d !! p = Some f →
    n * PAGE_SIZE + len ≤ file_bytes f → ∃ bs d', read_page fd n len d = (Ok bs, d');
  discard_works fd d : ∃ d', discard_file_pages fd d = (Ok tt, d') }.

(** ** An implementation in memory *)

Record Mem := mkMem {
  mem_files : gmap string file; mem_open : gmap Z string; mem_meta : option bytes; mem_meta_fails : bool }.

Definition path_open (m : Mem) (p : string) : bool := bool_decide (Exists (λ x, x.2 = p) (map_to_list (mem_open m))).

Definition next_fd (m : Mem) : Z := 1 + foldr Z.max 0 (map_to_list (mem_open m)).*1.

(** A page operation; [io_fails] makes all of them fail. *)
Definition on_page {A} (io_fails : bool) (fd : Z) (k : string → file → M Mem A) : M Mem A := λ m,
  if io_fails then (Throw UnixError, m)
  else match mem_open m !! fd with
       | None => (Throw (FileNotOpenError fd), m)
       | Some p => match mem_files m !! p with
                   | None => (Throw (FileNotFoundError p), m)
                   | Some f => k p f m
                   end
       end.

Definition mem_storage (io_fails : bool) : Storage Mem := {|
  create_file p := λ m,
    match mem_files m !! p with
    | Some _ => (Throw (FileExistsError p), m)
    | None => (Ok tt, mkMem (<[p := ∅]> (mem_files m)) (mem_open m) (mem_meta m) (mem_meta_fails m))
    end;
  destroy_file p := λ m,
    if path_open m p then (Throw (FileNotClosedError p), m)
    else match mem_files m !! p with
         | None => (Throw (FileNotFoundError p), m)
         | Some _ => (Ok tt, mkMem (delete p (mem_files m)) (mem_open m) (mem_meta m) (mem_meta_fails m))
         end;
  open_file p := λ m,
    if path_open m p then (Throw (FileNotClosedError p), m)
    else match mem_files m !! p with
         | None => (Throw (FileNotFoundError p), m)
         | Some _ => (Ok (next_fd m), mkMem (mem_files m) (<[next_fd m := p]> (mem_open m)) (mem_meta m) (mem_meta_fails m))
         end;
  close_file fd := λ m,
    match mem_open m !! fd with
    | None => (Throw (FileNotOpenError fd), m)
    | Some _ => (Ok tt, mkMem (mem_files m) (delete fd (mem_open m)) (mem_meta m) (mem_meta_fails m))
    end;
  write_page fd n bs := on_page io_fails fd (λ p f m,
    (Ok tt, mkMem (<[p := <[n := overwrite (page_of f n) bs]> f]> (mem_files m)) (mem_open m) (mem_meta m) (mem_meta_fails m)));
  read_page fd n len := on_page io_fails fd (λ p f m,
    if n * PAGE_SIZE + len <=? file_bytes f then (Ok (padded len (page_of f n)), m)
    else (Throw (InternalError "DiskManager::read_page Error"), m));
  set_fd2pageno fd n := λ m, (Ok tt, m);
  get_file_size fd := λ m,
    (Ok match mem_open m !! fd ≫= λ p, mem_files m !! p with Some f => file_bytes f | None => -1 end, m);
  discard_file_pages fd := λ m, (Ok tt, m);
  write_meta text := λ m,
    if mem_meta_fails m then (Throw (InternalError "cannot write database metadata: db.meta"), m)
    else (Ok tt, mkMem (mem_files m) (mem_open m) (Some text) (mem_meta_fails m)) |}.

Lemma path_open_false m p : path_open m p = false ↔ ∀ fd, mem_open m !! fd ≠ Some p.
Proof.
  unfold path_open. rewrite bool_decide_eq_false, Exists_exists. split.
  - intros H fd Hfd. apply H. exists (fd, p). split; [by apply elem_of_map_to_list|done].
  - intros H ([fd q] & Hx & <-). apply elem_of_map_to_list in Hx. by apply (H fd).
Qed.

Lemma next_fd_fresh m : mem_open m !! next_fd m = None ∧ 0 ≤ next_fd m.
Proof.
  assert (∀ l : list Z, 0 ≤ foldr Z.max 0 l ∧ ∀ x, x ∈ l → x ≤ foldr Z.max 0 l) as Hmax.
  { induction l as [|y l [H1 H2]]; cbn [foldr]; [split; [done|]; intros x Hx; by apply elem_of_nil in Hx|].
    split; [lia|]. intros x [-> | Hx]%elem_of_cons; [lia|]. specialize (H2 x Hx). lia. }
  unfold next_fd. destruct (Hmax ((map_to_list (mem_open m)).*1)) as [H1 H2]. split; [|lia].
  destruct (mem_open m !! _) as [p|] eqn:E; [|done]. apply elem_of_map_to_list in E.
  specialize (H2 _ (list_elem_of_fmap_2 fst _ _ E)). cbn in H2. lia.
Qed.

Definition mem_laws (io_fails : bool) : @StorageLaws Mem (mem_storage io_fails).
Proof.
  refine (@Build_StorageLaws Mem (mem_storage io_fails) mem_files mem_open mem_meta _ _ _ _ _ _ _ _ _ _); cbn.
  - intros p d r d'. destruct (mem_files d !! p) eqn:E; by intros [= <- <-].
  - intros p d r d'. destruct (path_open d p) eqn:Eo; [by intros [= <- <-]|]. rewrite path_open_false in Eo.
    destruct (mem_files d !! p) eqn:E; by intros [= <- <-].
  - intros p d r d'. destruct (path_open d p) eqn:Eo; [by intros [= <- <-]|]. rewrite path_open_false in Eo.
    destruct (mem_files d !! p) eqn:E; intros [= <- <-]; [|done]. destruct (next_fd_fresh d). by split_and!.
  - intros fd d r d'. destruct (mem_open d !! fd) eqn:E; by intros [= <- <-].
  - intros fd n bs d r d' _ _. unfold on_page. destruct io_fails; [by intros [= <- <-]|].
    destruct (mem_open d !! fd) as [p|] eqn:E; [|by intros [= <- <-]].
    destruct (mem_files d !! p) as [f|] eqn:Ef; intros [= <- <-]; [|done]. split_and!; [done|done|]. by exists p, f.
  - intros fd n len d r d' _ _. unfold on_page. destruct io_fails; [by intros [= <- <-]|].
    destruct (mem_open d !! fd) as [p|] eqn:E; [|by intros [= <- <-]].
    destruct (mem_files d !! p) as [f|] eqn:Ef; [|by intros [= <- <-]].
    destruct (Z.leb_spec (n * PAGE_SIZE + len) (file_bytes f)); intros [= <- <-]; split_and!; try done. by exists p, f.
  - intros _ _ d. by exists d.
  - intros fd d. eexists. split; [done|]. intros p f -> Hf. cbn. by rewrite Hf.
  - by intros fd d r d' [= <- <-].
  - intros text d r d'. destruct (mem_meta_fails d); by intros [= <- <-].
Defined.

Lemma mem_reliable : @Reliable Mem (mem_storage false) (mem_laws false).
Proof.
  split; cbn.
  - intros p d [f Hf] Hp. rewrite (proj2 (path_open_false d p) Hp), Hf. by eexists.
  - intros p d [f Hf] Hp. rewrite (proj2 (path_open_false d p) Hp), Hf. by eexists _, _.
  - intros fd d [p Hp]. rewrite Hp. by eexists.
  - intros fd p n bs d _ _ Hp [f Hf]. unfold on_page. rewrite Hp, Hf. by eexists.
  - intros fd p f n len d _ _ Hp Hf Hn. unfold on_page. rewrite Hp, Hf, (proj2 (Z.leb_le _ _) Hn). by eexists _, _.
  - intros fd d. by eexists.
Qed.
