(* ===== verification/Wire.v ===== *)
(** * The wire protocol: constants, cells and payload codecs

    Models the payload layer of [src/src/net/wire.h] and [src/src/net/wire.cpp]: the
    [Append]/[Read] primitives, the checked encoders of META, ROW and RESULT_END,
    the decoders the client runs on them, and the fixed-width table text.
    [std::string] payloads are byte lists; a [float] cell is kept as its binary32
    bit pattern, which is all that the codec copies. *)

From S2P Require Import Prelude.

(** ** Constants ([wire.h]) *)

Definition kMajor : Z := 3.
Definition kMinor : Z := 1.
Definition kMagic : bytes := str "RUCB".
Definition kMaxPayloadBytes : Z := 1048576.
Definition kMaxDiagnosticBytes : Z := 65536.

Definition kTagExecStream : Z := 0x20.
Definition kTagMeta : Z := 0x01.
Definition kTagRow : Z := 0x02.
Definition kTagCommandOk : Z := 0x10.
Definition kTagResultEnd : Z := 0x11.
Definition kTagTransactionAbort : Z := 0x12.
Definition kTagError : Z := 0x13.
Definition kFlagRawText : Z := 0x01.

Definition kTypeInt32 : Z := 0x01.
Definition kTypeFloat32 : Z := 0x02.
Definition kTypeChar : Z := 0x03.

Record Frame := mkFrame { frame_tag : Z; frame_flags : Z; frame_payload : bytes }.

Record ColumnDef := mkColumnDef { column_name : bytes; column_sql_type : Z }.

Record Cell := mkCell {
  is_null : bool; cell_sql_type : Z; int_val : Z; float_val : Z; str_val : bytes }.

(** [Cell{}]: the default member initialisers. *)
Definition Cell_default : Cell := mkCell false kTypeChar 0 0 [].

Definition IsKnownSqlType (sql_type : Z) : bool :=
  (sql_type =? kTypeInt32) || (sql_type =? kTypeFloat32) || (sql_type =? kTypeChar).

(** ** Network byte order

    On the little-endian host [htons]/[htonl] reverse the bytes of the integer, and
    appending the object representation of the result appends them most significant
    first. *)
Definition hton (n : nat) (v : Z) : Z := le_combine (rev (le_split n v)).
Definition ntoh := hton.

Definition AppendU8 (out : bytes) (v : Z) : bytes := out ++ [byte.of_Z v].
Definition AppendU16 (out : bytes) (v : Z) : bytes := out ++ le_split 2 (hton 2 v).
Definition AppendU32 (out : bytes) (v : Z) : bytes := out ++ le_split 4 (hton 4 v).
Definition AppendU64 (out : bytes) (v : Z) : bytes :=
  let hi := hton 4 (u32 (Z.shiftr v 32)) in
  let lo := hton 4 (u32 (Z.land v 0xffffffff)) in
  (out ++ le_split 4 hi) ++ le_split 4 lo.

(** A [Read] returns the value with the advanced offset, or [None] for [false]. *)
Definition ReadU8 (buf : bytes) (off : Z) : option (Z * Z) :=
  if (zlen buf <? off) || (zlen buf - off <? 1) then None
  else Some (match zdrop off buf with b :: _ => byte.unsigned b | [] => 0 end, off + 1).

Definition ReadU16 (buf : bytes) (off : Z) : option (Z * Z) :=
  if (zlen buf <? off) || (zlen buf - off <? 2) then None
  else Some (ntoh 2 (le_combine (ztake 2 (zdrop off buf))), off + 2).

Definition ReadU32 (buf : bytes) (off : Z) : option (Z * Z) :=
  if (zlen buf <? off) || (zlen buf - off <? 4) then None
  else Some (ntoh 4 (le_combine (ztake 4 (zdrop off buf))), off + 4).

Definition ReadU64 (buf : bytes) (off : Z) : option (Z * Z) :=
  match ReadU32 buf off with
  | None => None
  | Some (hi, off) =>
    match ReadU32 buf off with
    | None => None
    | Some (lo, off) => Some (Z.lor (Z.shiftl hi 32) lo, off)
    end
  end.

Definition ReadBytes (buf : bytes) (off n : Z) : option (bytes * Z) :=
  if (zlen buf <? off) || (zlen buf - off <? n) then None
  else Some (ztake n (zdrop off buf), off + n).

(** ** META *)

(** The size-checking loop of [TryEncodeMeta]; [encoded_size] is a [size_t]. *)
Fixpoint meta_size (columns : list ColumnDef) (encoded_size : Z) : string + Z :=
  match columns with
  | [] => inr encoded_size
  | column :: columns =>
    let name_size := zlen (column_name column) in
    if (name_size =? 0) || (65535 <? name_size) then inl "META column name is out of range"
    else if negb (IsKnownSqlType (column_sql_type column))
    then inl "META contains an unknown column type"
    else
      let column_size := 2 + name_size + 1 in
      if u64 (kMaxPayloadBytes - encoded_size) <? column_size
      then inl "META payload exceeds 1 MiB"
      else meta_size columns (encoded_size + column_size)
  end.

Fixpoint append_columns (payload : bytes) (columns : list ColumnDef) : bytes :=
  match columns with
  | [] => payload
  | column :: columns =>
    let payload := AppendU16 payload (u16 (zlen (column_name column))) in
    let payload := payload ++ column_name column in
    append_columns (AppendU8 payload (column_sql_type column)) columns
  end.

(** [inl diagnostic] for [false], [inr payload] for [true]. *)
Definition TryEncodeMeta (columns : list ColumnDef) : string + bytes :=
  if (zlen columns =? 0) || (65535 <? zlen columns)
  then inl "META column count is out of range"
  else match meta_size columns 2 with
       | inl diagnostic => inl diagnostic
       | inr _ => inr (append_columns (AppendU16 [] (u16 (zlen columns))) columns)
       end.

Definition EncodeMeta (columns : list ColumnDef) : bytes :=
  match TryEncodeMeta columns with inl _ => [] | inr payload => payload end.

Definition EncodeMetaSingleCharColumn (name : bytes) : bytes :=
  EncodeMeta [mkColumnDef (match name with [] => str "output" | _ => name end) kTypeChar].

(** The body of the column loop in the META branch of [ExecStreamResult]. *)
Definition decode_column (payload : bytes) (off : Z) : string + (ColumnDef * Z) :=
  match ReadU16 payload off with
  | None => inl "invalid META column name"
  | Some (name_size, off) =>
    if name_size =? 0 then inl "invalid META column name" else
    match ReadBytes payload off name_size with
    | None => inl "invalid META column name bytes"
    | Some (name, off) =>
      match ReadU8 payload off with
      | None => inl "unknown META column type"
      | Some (sql_type, off) =>
        if negb (IsKnownSqlType sql_type) then inl "unknown META column type"
        else inr (mkColumnDef name sql_type, off)
      end
    end
  end.

Fixpoint decode_columns (n : nat) (payload : bytes) (off : Z) : string + (list ColumnDef * Z) :=
  match n with
  | O => inr ([], off)
  | S n =>
    match decode_column payload off with
    | inl e => inl e
    | inr (column, off) =>
      match decode_columns n payload off with
      | inl e => inl e
      | inr (columns, off) => inr (column :: columns, off)
      end
    end
  end.

Definition DecodeMeta (payload : bytes) : string + list ColumnDef :=
  match ReadU16 payload 0 with
  | None => inl "invalid META"
  | Some (column_count, off) =>
    if column_count =? 0 then inl "invalid META" else
    match decode_columns (Z.to_nat column_count) payload off with
    | inl e => inl e
    | inr (columns, off) =>
      if negb (off =? zlen payload) then inl "trailing bytes in META" else inr columns
    end
  end.

(** ** ROW *)

Definition AppendCell (payload : bytes) (cell : Cell) : bytes :=
  if is_null cell then AppendU8 payload 0
  else
    let payload := AppendU8 payload 1 in
    if cell_sql_type cell =? kTypeInt32 then AppendU32 payload (u32 (int_val cell))
    else if cell_sql_type cell =? kTypeFloat32 then AppendU32 payload (float_val cell)
    else if cell_sql_type cell =? kTypeChar
    then AppendU32 payload (u32 (zlen (str_val cell))) ++ str_val cell
    else payload.

Fixpoint row_size (cells : list Cell) (encoded_size : Z) : string + Z :=
  match cells with
  | [] => inr encoded_size
  | cell :: cells =>
    if negb (IsKnownSqlType (cell_sql_type cell)) then inl "ROW contains an unknown cell type"
    else if negb (is_null cell) && (cell_sql_type cell =? kTypeChar)
            && (4294967295 <? zlen (str_val cell))
    then inl "ROW string cell is out of range"
    else
      let cell_size :=
        1 + (if is_null cell then 0
             else if cell_sql_type cell =? kTypeChar then 4 + zlen (str_val cell) else 4) in
      if u64 (kMaxPayloadBytes - encoded_size) <? cell_size
      then inl "ROW payload exceeds 1 MiB"
      else row_size cells (encoded_size + cell_size)
  end.

Definition TryEncodeRow (cells : list Cell) : string + bytes :=
  match cells with
  | [] => inl "ROW has no cells"
  | _ =>
    match row_size cells 0 with
    | inl diagnostic => inl diagnostic
    | inr _ => inr (foldl AppendCell [] cells)
    end
  end.

Definition EncodeRow (cells : list Cell) : bytes :=
  match TryEncodeRow cells with inl _ => [] | inr payload => payload end.

Definition EncodeRowSingleChar (value : bytes) : bytes :=
  EncodeRow [mkCell false kTypeChar 0 0 value].

Definition EncodeResultEnd (row_count : Z) : bytes := AppendU64 [] row_count.

Definition DecodeCell (payload : bytes) (off : Z) (sql_type : Z) : option (Cell * Z) :=
  if negb (IsKnownSqlType sql_type) then None else
  match ReadU8 payload off with
  | None => None
  | Some (present, off) =>
    if 1 <? present then None
    else if present =? 0 then Some (mkCell true sql_type 0 0 [], off)
    else if sql_type =? kTypeInt32 then
      match ReadU32 payload off with
      | None => None
      | Some (bits, off) => Some (mkCell false sql_type (s32 bits) 0 [], off)
      end
    else if sql_type =? kTypeFloat32 then
      match ReadU32 payload off with
      | None => None
      | Some (bits, off) => Some (mkCell false sql_type 0 bits [], off)
      end
    else
      match ReadU32 payload off with
      | None => None
      | Some (size, off) =>
        match ReadBytes payload off size with
        | None => None
        | Some (s, off) => Some (mkCell false sql_type 0 0 s, off)
        end
      end
  end.

(** The cell loop of the ROW branch of [ExecStreamResult]. *)
Fixpoint decode_cells (columns : list ColumnDef) (payload : bytes) (off : Z)
  : string + (list Cell * Z) :=
  match columns with
  | [] => inr ([], off)
  | column :: columns =>
    match DecodeCell payload off (column_sql_type column) with
    | None => inl "invalid ROW cell"
    | Some (cell, off) =>
      match decode_cells columns payload off with
      | inl e => inl e
      | inr (row, off) => inr (cell :: row, off)
      end
    end
  end.

Definition DecodeRow (columns : list ColumnDef) (payload : bytes) : string + list Cell :=
  match decode_cells columns payload 0 with
  | inl e => inl e
  | inr (row, off) =>
    if negb (off =? zlen payload) then inl "trailing bytes in ROW" else inr row
  end.

(** ** RESULT_END *)

Definition DecodeResultEnd (payload : bytes) : string + Z :=
  match ReadU64 payload 0 with
  | None => inl "invalid RESULT_END"
  | Some (declared_rows, off) =>
    if negb (off =? zlen payload) then inl "invalid RESULT_END" else inr declared_rows
  end.

(** [ColTypeToWire]: engine [ColType] ordinals to wire tags. *)
Definition ColTypeToWire (col_type : Z) : option Z :=
  if col_type =? 0 then Some kTypeInt32
  else if col_type =? 1 then Some kTypeFloat32
  else if col_type =? 2 then Some kTypeChar
  else None.
