(* ===== verification/WireCodec.v ===== *)
(** * Correctness of the wire payload codecs

    Lemmas and theorems on [Wire]: the integer primitives invert each other in both
    directions, the checked encoders accept exactly the well-formed inputs, decoding
    inverts encoding, and an accepted payload is the encoding of what was decoded. *)

From S2P Require Import Prelude Wire.

(** ** Integer primitives *)

(** The wire image of an [n]-byte integer. *)
Definition be (n : nat) (v : Z) : bytes := le_split n (hton n v).

Lemma be_rev n v : be n v = rev (le_split n v).
Proof. unfold be, hton. apply split_le_combine'. by rewrite length_rev, length_le_split. Qed.

Lemma zlen_be n v : zlen (be n v) = Z.of_nat n.
Proof. unfold be. apply zlen_le_split. Qed.
#[export] Hint Rewrite zlen_be : ldb.

Lemma ntoh_be n v : 0 ≤ v < 2 ^ (Z.of_nat n * 8) → ntoh n (le_combine (be n v)) = v.
Proof.
  intros Hv. unfold ntoh, hton.
  rewrite split_le_combine' by (unfold be; by rewrite length_le_split).
  rewrite be_rev, rev_involutive, le_combine_split. by apply Z.mod_small.
Qed.

Lemma be_ntoh n bs : length bs = n → be n (ntoh n (le_combine bs)) = bs.
Proof.
  intros Hn. rewrite be_rev. unfold ntoh, hton.
  rewrite (split_le_combine' bs n Hn).
  rewrite split_le_combine' by (by rewrite length_rev). apply rev_involutive.
Qed.

Lemma ntoh_range n bs : length bs = n → 0 ≤ ntoh n (le_combine bs) < 2 ^ (Z.of_nat n * 8).
Proof.
  intros Hn. unfold ntoh, hton. rewrite split_le_combine' by done.
  pose proof (le_combine_bound (rev bs)) as H. rewrite length_rev, Hn in H.
  by rewrite Z.mul_comm.
Qed.

(** Every fixed-size read, at once: what [ReadU16] and [ReadU32] do at width [n]. *)
Lemma read_be_iff n (buf : bytes) off v off' :
  0 ≤ off ≤ zlen buf →
  (if (zlen buf <? off) || (zlen buf - off <? Z.of_nat n) then None
   else Some (ntoh n (le_combine (ztake (Z.of_nat n) (zdrop off buf))), off + Z.of_nat n))
    = Some (v, off') ↔
  off' = off + Z.of_nat n ∧ 0 ≤ v < 2 ^ (Z.of_nat n * 8) ∧
  ∃ post, zdrop off buf = be n v ++ post.
Proof.
  intros Hoff. pose proof (zlen_zdrop off buf Hoff) as Hd. split.
  - destruct (_ || _) eqn:E; [done|]. split_bools. intros [= <- <-].
    assert (length (ztake (Z.of_nat n) (zdrop off buf)) = n) as Hlen.
    { apply Nat2Z.inj. change (zlen (ztake (Z.of_nat n) (zdrop off buf)) = Z.of_nat n).
      apply zlen_ztake. lia. }
    split_and!; [done| by apply ntoh_range | by apply ntoh_range |].
    exists (zdrop (Z.of_nat n) (zdrop off buf)). rewrite be_ntoh by done.
    symmetry. apply ztake_zdrop.
  - intros (-> & Hv & post & Hp). rewrite Hp in Hd. autorewrite with ldb in Hd.
    pose proof (zlen_nonneg post).
    replace (_ || _) with false by (symmetry; apply orb_false_iff; split; apply Z.ltb_ge; lia).
    rewrite Hp, ztake_app_exact by apply zlen_be. by rewrite ntoh_be.
Qed.

Lemma ReadU16_iff buf off v off' :
  0 ≤ off ≤ zlen buf →
  ReadU16 buf off = Some (v, off') ↔
  off' = off + 2 ∧ is_u16 v ∧ ∃ post, zdrop off buf = be 2 v ++ post.
Proof. exact (read_be_iff 2 buf off v off'). Qed.

Lemma ReadU32_iff buf off v off' :
  0 ≤ off ≤ zlen buf →
  ReadU32 buf off = Some (v, off') ↔
  off' = off + 4 ∧ is_u32 v ∧ ∃ post, zdrop off buf = be 4 v ++ post.
Proof. exact (read_be_iff 4 buf off v off'). Qed.

Lemma ReadU8_iff buf off v off' :
  0 ≤ off ≤ zlen buf →
  ReadU8 buf off = Some (v, off') ↔
  off' = off + 1 ∧ is_u8 v ∧ ∃ post, zdrop off buf = byte.of_Z v :: post.
Proof.
  intros Hoff. pose proof (zlen_zdrop off buf Hoff) as Hd. unfold ReadU8. split.
  - destruct (_ || _) eqn:E; [done|]. split_bools. intros [= <- <-].
    destruct (zdrop off buf) as [|b post]; [rewrite zlen_nil in Hd; lia|].
    split_and!; [done| apply byte.unsigned_range |].
    exists post. by rewrite byte.of_Z_unsigned.
  - intros (-> & Hv & post & Hp). rewrite Hp in Hd |- *. rewrite zlen_cons in Hd.
    pose proof (zlen_nonneg post).
    replace (_ || _) with false by (symmetry; apply orb_false_iff; split; apply Z.ltb_ge; lia).
    rewrite byte.unsigned_of_Z. unfold byte.wrap. by rewrite Z.mod_small.
Qed.

Lemma ReadBytes_iff buf off n bs off' :
  0 ≤ off ≤ zlen buf → 0 ≤ n →
  ReadBytes buf off n = Some (bs, off') ↔
  off' = off + n ∧ zlen bs = n ∧ ∃ post, zdrop off buf = bs ++ post.
Proof.
  intros Hoff Hn. pose proof (zlen_zdrop off buf Hoff) as Hd. unfold ReadBytes. split.
  - destruct (_ || _) eqn:E; [done|]. split_bools. intros [= <- <-].
    split_and!; [done| apply zlen_ztake; lia |].
    exists (zdrop n (zdrop off buf)). symmetry. apply ztake_zdrop.
  - intros (-> & Hl & post & Hp). rewrite Hp, zlen_app in Hd. pose proof (zlen_nonneg post).
    replace (_ || _) with false by (symmetry; apply orb_false_iff; split; apply Z.ltb_ge; lia).
    by rewrite Hp, ztake_app_exact.
Qed.

(** Moving the cursor past what was read. *)
Lemma zdrop_after {A} off n (buf bs post : list A) :
  0 ≤ off → zlen bs = n → zdrop off buf = bs ++ post → zdrop (off + n) buf = post.
Proof.
  intros Ho Hn Hd. pose proof (zlen_nonneg bs).
  rewrite <- zdrop_zdrop, Hd by lia. by apply zdrop_app_exact.
Qed.

Lemma zdrop_bound {A} off (buf bs post : list A) :
  0 ≤ off ≤ zlen buf → zdrop off buf = bs ++ post → 0 ≤ off + zlen bs ≤ zlen buf.
Proof.
  intros Ho Hd. pose proof (zlen_zdrop off buf Ho) as H. rewrite Hd, zlen_app in H.
  pose proof (zlen_nonneg bs). pose proof (zlen_nonneg post). lia.
Qed.

(** [zdrop off buf = bs ++ post] at the end of [buf]. *)
Lemma zdrop_end {A} off (buf bs : list A) :
  0 ≤ off ≤ zlen buf → zdrop off buf = bs → off + zlen bs = zlen buf.
Proof. intros Ho <-. rewrite zlen_zdrop by done. lia. Qed.

Lemma AppendU64_be out v : is_u64 v → AppendU64 out v = out ++ be 4 (v / 2 ^ 32) ++ be 4 (v mod 2 ^ 32).
Proof.
  intros Hv. unfold AppendU64, be, u32. rewrite <- app_assoc.
  change 0xffffffff with (Z.ones 32).
  rewrite Z.land_ones, Z.shiftr_div_pow2, Zmod_mod by lia.
  rewrite (Z.mod_small (v / 2 ^ 32)); [done|].
  split; [apply Z.div_pos; word_lia|]. apply Z.div_lt_upper_bound; word_lia.
Qed.

Lemma lor_high_low v : Z.lor (Z.shiftl (v / 2 ^ 32) 32) (v mod 2 ^ 32) = v.
Proof.
  apply Z.bits_inj'. intros k Hk. rewrite Z.lor_spec, Z.shiftl_spec by done.
  destruct (Z.ltb_spec k 32).
  - by rewrite Z.testbit_neg_r, Z.mod_pow2_bits_low by lia.
  - rewrite Z.div_pow2_bits, Z.mod_pow2_bits_high, orb_false_r by lia. f_equal. lia.
Qed.

(** The 64-bit reader inverts the 64-bit writer. *)
Lemma ReadU64_AppendU64 v post : is_u64 v → ReadU64 (AppendU64 [] v ++ post) 0 = Some (v, 8).
Proof.
  intros Hv. rewrite AppendU64_be by done. cbn [app]. unfold ReadU64.
  assert (0 ≤ v / 2 ^ 32 < 2 ^ 32) as Hhi.
  { split; [apply Z.div_pos; word_lia|]. apply Z.div_lt_upper_bound; word_lia. }
  pose proof (Z.mod_pos_bound v (2 ^ 32) ltac:(lia)) as Hlo.
  set (buf := (be 4 (v / 2 ^ 32) ++ be 4 (v mod 2 ^ 32)) ++ post).
  assert (zlen buf = 8 + zlen post) as Hb by (unfold buf; zlen_lia).
  pose proof (zlen_nonneg post).
  assert (ReadU32 buf 0 = Some (v / 2 ^ 32, 4)) as ->.
  { apply ReadU32_iff; [lia|]. split_and!; [done|exact Hhi|].
    unfold buf. rewrite <- app_assoc, zdrop_0. by eexists. }
  assert (ReadU32 buf 4 = Some (v mod 2 ^ 32, 8)) as ->.
  { apply ReadU32_iff; [lia|]. split_and!; [done|exact Hlo|].
    exists post. unfold buf. rewrite <- app_assoc. by rewrite zdrop_app_exact by zlen_lia. }
  by rewrite lor_high_low.
Qed.

(** ** META *)

Definition column_ok (c : ColumnDef) : Prop :=
  1 ≤ zlen (column_name c) ≤ 65535 ∧ IsKnownSqlType (column_sql_type c) = true.

(** The wire image of one column definition. *)
Definition column_image (c : ColumnDef) : bytes :=
  be 2 (zlen (column_name c)) ++ column_name c ++ [byte.of_Z (column_sql_type c)].

Definition columns_image (cs : list ColumnDef) : bytes := concat (map column_image cs).

Lemma known_type_cases t :
  IsKnownSqlType t = true ↔ t = kTypeInt32 ∨ t = kTypeFloat32 ∨ t = kTypeChar.
Proof. unfold IsKnownSqlType. rewrite !orb_true_iff, !Z.eqb_eq. tauto. Qed.

Lemma known_type_u8 t : IsKnownSqlType t = true → is_u8 t.
Proof. rewrite known_type_cases. unfold is_u8, kTypeInt32, kTypeFloat32, kTypeChar. lia. Qed.

Lemma zlen_column_image c : zlen (column_image c) = 3 + zlen (column_name c).
Proof. unfold column_image. zlen_lia. Qed.
#[export] Hint Rewrite zlen_column_image : ldb.

Lemma append_columns_image payload cs :
  Forall column_ok cs → append_columns payload cs = payload ++ columns_image cs.
Proof.
  intros H. revert payload. induction H as [|c cs [Hn Ht] _ IH]; intros payload; cbn.
  - by rewrite app_nil_r.
  - rewrite IH. unfold AppendU8, AppendU16. rewrite u16_small by word_lia.
    unfold columns_image. cbn. unfold column_image, be. by rewrite <- !app_assoc.
Qed.

Lemma kMax_minus_u64 e : 0 ≤ e ≤ kMaxPayloadBytes → u64 (kMaxPayloadBytes - e) = kMaxPayloadBytes - e.
Proof. intros. apply u64_small. unfold kMaxPayloadBytes in *. word_lia. Qed.

Lemma meta_size_iff cs e t :
  0 ≤ e ≤ kMaxPayloadBytes →
  meta_size cs e = inr t ↔
  Forall column_ok cs ∧ t = e + zlen (columns_image cs) ∧ t ≤ kMaxPayloadBytes.
Proof.
  revert e. induction cs as [|c cs IH]; intros e He; cbn [meta_size]; cbv zeta.
  - unfold columns_image. cbn. rewrite zlen_nil. split.
    + intros [= <-]. split_and!; [constructor|lia|lia].
    + intros (_ & -> & _). f_equal. lia.
  - rewrite kMax_minus_u64 by done. rewrite Forall_cons. unfold column_ok at 1.
    unfold columns_image. cbn [map concat]. fold (columns_image cs).
    rewrite zlen_app, zlen_column_image.
    pose proof (zlen_nonneg (column_name c)). pose proof (zlen_nonneg (columns_image cs)).
    destruct (_ || _) eqn:E1; [apply orb_true_iff in E1; rewrite Z.eqb_eq, Z.ltb_lt in E1;
      split; [done|intros [[[[??] _] _] _]; lia]|].
    destruct (negb _) eqn:E2; [apply negb_true_iff in E2; split; [done|intros [[[_ ?] _] _]; congruence]|].
    destruct (kMaxPayloadBytes - e <? _) eqn:E3; split_bools.
    + split; [done|]. intros (_ & -> & ?). lia.
    + rewrite IH by lia. split; intros (? & -> & ?); split_and!; try done; try tauto; lia.
Qed.

(** What the checked META encoder accepts, and what it produces. *)
Lemma TryEncodeMeta_iff cs p :
  TryEncodeMeta cs = inr p ↔
  1 ≤ zlen cs ≤ 65535 ∧ Forall column_ok cs ∧
  p = be 2 (zlen cs) ++ columns_image cs ∧ zlen p ≤ kMaxPayloadBytes.
Proof.
  unfold TryEncodeMeta. pose proof (zlen_nonneg cs).
  destruct (_ || _) eqn:E1.
  { apply orb_true_iff in E1. rewrite Z.eqb_eq, Z.ltb_lt in E1. split; [done|intros [??]; lia]. }
  split_bools. destruct (meta_size cs 2) as [d|t] eqn:E.
  - split; [done|]. intros (_ & Hok & -> & Hl). exfalso.
    assert (meta_size cs 2 = inr (2 + zlen (columns_image cs))) as E'; [|congruence].
    apply meta_size_iff; [unfold kMaxPayloadBytes; lia|]. autorewrite with ldb in Hl.
    split_and!; [done|done|lia].
  - apply meta_size_iff in E as (Hok & Ht & Hle); [|unfold kMaxPayloadBytes; lia].
    rewrite append_columns_image by done. unfold AppendU16. cbn [app].
    rewrite u16_small by word_lia. fold (be 2 (zlen cs)). split.
    + intros [= <-]. split_and!; [lia|lia|done|done|]. autorewrite with ldb. lia.
    + intros (_ & _ & -> & _). done.
Qed.

Lemma decode_column_sound p off c off' :
  0 ≤ off ≤ zlen p → decode_column p off = inr (c, off') →
  column_ok c ∧ off' = off + zlen (column_image c) ∧
  ∃ post, zdrop off p = column_image c ++ post.
Proof.
  intros Hoff. unfold decode_column.
  destruct (ReadU16 p off) as [[sz o1]|] eqn:E1; [|done].
  apply ReadU16_iff in E1 as (-> & Hsz & p1 & Hp1); [|done].
  destruct (sz =? 0) eqn:Ez; [done|]. split_bools.
  pose proof (zdrop_bound _ _ _ _ Hoff Hp1) as Hb1. autorewrite with ldb in Hb1.
  apply zdrop_after with (n := 2) in Hp1 as Hd1; [|lia|by rewrite zlen_be].
  destruct (ReadBytes p (off + 2) sz) as [[name o2]|] eqn:E2; [|done].
  apply ReadBytes_iff in E2 as (-> & Hname & p2 & Hp2); [|lia|word_lia].
  pose proof (zdrop_bound _ _ _ _ Hb1 Hp2) as Hb2.
  apply zdrop_after with (n := sz) in Hp2 as Hd2; [|lia|done].
  destruct (ReadU8 p (off + 2 + sz)) as [[ty o3]|] eqn:E3; [|done].
  apply ReadU8_iff in E3 as (-> & Hty & p3 & Hp3); [|lia].
  destruct (negb _) eqn:E4; [done|]. split_bools. intros [= <- <-].
  split_and!; [split; cbn; [word_lia|done]|autorewrite with ldb; cbn; lia|].
  exists p3. unfold column_image. cbn.
  by rewrite Hp1, <- Hd1, Hp2, <- Hd2, Hp3, Hname, <- !app_assoc.
Qed.

Lemma decode_column_complete p off c post :
  0 ≤ off ≤ zlen p → column_ok c → zdrop off p = column_image c ++ post →
  decode_column p off = inr (c, off + zlen (column_image c)).
Proof.
  intros Hoff [Hc1 Hc2] Hp. destruct c as [nm ty]. cbn in Hc1, Hc2.
  unfold column_image in Hp. cbn in Hp. rewrite <- !app_assoc in Hp. cbn [app] in Hp.
  unfold decode_column. pose proof (zdrop_bound _ _ _ _ Hoff Hp) as Hb1.
  autorewrite with ldb in Hb1.
  assert (ReadU16 p off = Some (zlen nm, off + 2)) as ->.
  { apply ReadU16_iff; [done|]. split_and!; [done|word_lia|by eexists]. }
  rewrite (proj2 (Z.eqb_neq _ _)) by lia.
  apply zdrop_after with (n := 2) in Hp; [|lia|by rewrite zlen_be].
  pose proof (zdrop_bound _ _ _ _ Hb1 Hp) as Hb2.
  assert (ReadBytes p (off + 2) (zlen nm) = Some (nm, off + 2 + zlen nm)) as ->.
  { apply ReadBytes_iff; [done|lia|]. split_and!; [done|done|by eexists]. }
  apply zdrop_after with (n := zlen nm) in Hp; [|lia|done].
  assert (ReadU8 p (off + 2 + zlen nm) = Some (ty, off + 2 + zlen nm + 1)) as ->.
  { apply ReadU8_iff; [done|]. split_and!; [done|by apply known_type_u8|by eexists]. }
  rewrite Hc2. cbn [negb]. do 2 f_equal. autorewrite with ldb. cbn. lia.
Qed.

Lemma columns_image_cons c cs : columns_image (c :: cs) = column_image c ++ columns_image cs.
Proof. reflexivity. Qed.

Lemma decode_columns_iff n p off cs off' :
  0 ≤ off ≤ zlen p →
  decode_columns n p off = inr (cs, off') ↔
  length cs = n ∧ Forall column_ok cs ∧ off' = off + zlen (columns_image cs) ∧
  ∃ post, zdrop off p = columns_image cs ++ post.
Proof.
  revert off cs. induction n as [|n IH]; intros off cs Hoff; cbn [decode_columns].
  { split.
    - intros [= <- <-]. split_and!; [done|constructor|unfold columns_image, zlen; cbn; lia|by eexists].
    - intros (Hl & _ & -> & _). apply length_zero_iff_nil in Hl as ->. unfold columns_image, zlen. cbn. do 2 f_equal. lia. }
  split.
  - destruct (decode_column p off) as [|[c o1]] eqn:E1; [done|].
    apply decode_column_sound in E1 as (Hc & -> & p1 & Hp1); [|done].
    pose proof (zdrop_bound _ _ _ _ Hoff Hp1) as Hb1.
    apply zdrop_after with (n := zlen (column_image c)) in Hp1 as Hd1; [|lia|done].
    destruct (decode_columns n p _) as [|[cs' o2]] eqn:E2; [done|]. intros [= <- <-].
    apply IH in E2 as (Hl & Hok & -> & p2 & Hp2); [|done].
    rewrite columns_image_cons, zlen_app.
    split_and!; [cbn; lia|by constructor|lia|].
    exists p2. by rewrite Hp1, <- Hd1, Hp2, app_assoc.
  - intros (Hl & Hok & -> & post & Hp). destruct cs as [|c cs]; [done|].
    inversion Hok as [|? ? Hc Hok']; subst. injection Hl as Hl.
    rewrite columns_image_cons, <- app_assoc in Hp.
    pose proof (zdrop_bound _ _ _ _ Hoff Hp) as Hb1.
    rewrite (decode_column_complete _ _ _ _ Hoff Hc Hp).
    apply zdrop_after with (n := zlen (column_image c)) in Hp; [|lia|done].
    rewrite (proj2 (IH _ cs Hb1)); [done|]. rewrite columns_image_cons, zlen_app.
    split_and!; [done|done|lia|by eexists].
Qed.

(** What the client's META parser accepts. *)
Lemma DecodeMeta_iff p cs :
  DecodeMeta p = inr cs ↔
  1 ≤ zlen cs ≤ 65535 ∧ Forall column_ok cs ∧ p = be 2 (zlen cs) ++ columns_image cs.
Proof.
  assert (0 ≤ 0 ≤ zlen p) as H0 by zlen_lia. unfold DecodeMeta. split.
  - destruct (ReadU16 p 0) as [[n o1]|] eqn:E1; [|done].
    apply ReadU16_iff in E1 as (-> & Hn & p1 & Hp1); [|done].
    destruct (n =? 0) eqn:En; [done|]. split_bools.
    pose proof (zdrop_bound _ _ _ _ H0 Hp1) as Hb1. autorewrite with ldb in Hb1.
    apply zdrop_after with (n := 2) in Hp1 as Hd1; [|lia|by rewrite zlen_be].
    destruct (decode_columns _ p _) as [|[cs' o2]] eqn:E2; [done|].
    apply decode_columns_iff in E2 as (Hl & Hok & -> & p2 & Hp2); [|done].
    destruct (negb _) eqn:E3; [done|]. split_bools. intros [= <-].
    assert (zlen cs' = n) as Hz by (unfold zlen; word_lia).
    split_and!; [word_lia|word_lia|done|].
    assert (p2 = []) as ->.
    { apply zlen_nil_iff. apply zdrop_end in Hp2; [|done]. rewrite zlen_app in Hp2. lia. }
    rewrite app_nil_r in Hp2. rewrite zdrop_0 in Hp1. by rewrite Hz, Hp1, <- Hd1, Hp2.
  - intros (Hn & Hok & ->). pose proof (zlen_nonneg (columns_image cs)).
    set (p := be 2 (zlen cs) ++ columns_image cs) in *.
    assert (zlen p = 2 + zlen (columns_image cs)) as Hlp by (unfold p; zlen_lia).
    assert (ReadU16 p 0 = Some (zlen cs, 0 + 2)) as ->.
    { apply ReadU16_iff; [done|]. split_and!; [done|word_lia|by eexists]. }
    rewrite (proj2 (Z.eqb_neq _ _)) by lia.
    assert (decode_columns (Z.to_nat (zlen cs)) p (0 + 2) =
      inr (cs, 0 + 2 + zlen (columns_image cs))) as ->.
    { apply decode_columns_iff; [lia|]. split_and!; [by rewrite zlen_to_nat|done|done|].
      exists []. rewrite app_nil_r. by apply zdrop_app_exact. }
    rewrite (proj2 (Z.eqb_eq _ _)) by lia. done.
Qed.

(** ** ROW *)

(** The fields of a [Cell] hold values of their C++ types. *)
Definition cell_wf (c : Cell) : Prop := is_s32 (int_val c) ∧ is_u32 (float_val c).

(** The cell that carries the same SQL value with the unused members defaulted:
    only the field matching [sql_type] is transmitted. *)
Definition canon_cell (c : Cell) : Cell :=
  if is_null c then mkCell true (cell_sql_type c) 0 0 []
  else if cell_sql_type c =? kTypeInt32 then mkCell false (cell_sql_type c) (int_val c) 0 []
  else if cell_sql_type c =? kTypeFloat32 then mkCell false (cell_sql_type c) 0 (float_val c) []
  else mkCell false (cell_sql_type c) 0 0 (str_val c).

Definition cell_image (c : Cell) : bytes :=
  if is_null c then [byte.of_Z 0]
  else byte.of_Z 1 ::
    (if cell_sql_type c =? kTypeInt32 then be 4 (u32 (int_val c))
     else if cell_sql_type c =? kTypeFloat32 then be 4 (float_val c)
     else be 4 (zlen (str_val c)) ++ str_val c).

Definition row_image (cs : list Cell) : bytes := concat (map cell_image cs).

Definition cell_ok (c : Cell) : Prop :=
  IsKnownSqlType (cell_sql_type c) = true ∧
  (is_null c = false → cell_sql_type c = kTypeChar → zlen (str_val c) ≤ 4294967295).

Lemma row_image_cons c cs : row_image (c :: cs) = cell_image c ++ row_image cs.
Proof. reflexivity. Qed.

Lemma AppendCell_image payload c : cell_ok c → AppendCell payload c = payload ++ cell_image c.
Proof.
  intros [Ht Hs]. apply known_type_cases in Ht. unfold AppendCell, cell_image.
  destruct (is_null c) eqn:En; [done|]. unfold AppendU8, AppendU32. fold (be 4 (float_val c)).
  destruct (cell_sql_type c =? kTypeInt32) eqn:E1; [by rewrite <- app_assoc|].
  destruct (cell_sql_type c =? kTypeFloat32) eqn:E2; [by rewrite <- app_assoc|].
  split_bools. destruct Ht as [?|[?|Ht]]; [done|done|].
  rewrite (proj2 (Z.eqb_eq _ _) Ht).
  specialize (Hs eq_refl Ht). pose proof (zlen_nonneg (str_val c)).
  rewrite u32_small by word_lia. unfold be. by rewrite <- !app_assoc.
Qed.

Lemma foldl_AppendCell_image cs payload :
  Forall cell_ok cs → foldl AppendCell payload cs = payload ++ row_image cs.
Proof.
  intros H. revert payload. induction H as [|c cs Hc _ IH]; intros payload.
  - cbn. by rewrite app_nil_r.
  - cbn [foldl]. by rewrite IH, AppendCell_image, row_image_cons, <- app_assoc.
Qed.

Lemma zlen_cell_image c :
  zlen (cell_image c) = 1 + (if is_null c then 0 else
    if cell_sql_type c =? kTypeInt32 then 4 else if cell_sql_type c =? kTypeFloat32 then 4
    else 4 + zlen (str_val c)).
Proof. unfold cell_image. repeat case_match; zlen_lia. Qed.

Lemma row_size_iff cs e t :
  0 ≤ e ≤ kMaxPayloadBytes →
  row_size cs e = inr t ↔
  Forall cell_ok cs ∧ t = e + zlen (row_image cs) ∧ t ≤ kMaxPayloadBytes.
Proof.
  revert e. induction cs as [|c cs IH]; intros e He; cbn [row_size]; cbv zeta.
  - unfold row_image, zlen. cbn. split.
    + intros [= <-]. split_and!; [constructor|lia|lia].
    + intros (_ & -> & _). f_equal. lia.
  - rewrite kMax_minus_u64 by done. rewrite Forall_cons. unfold cell_ok at 1.
    rewrite row_image_cons, zlen_app, zlen_cell_image.
    pose proof (zlen_nonneg (str_val c)). pose proof (zlen_nonneg (row_image cs)).
    destruct (IsKnownSqlType (cell_sql_type c)) eqn:Et; cbn [negb];
      [|split; [done|intros [[[? _] _] _]; congruence]].
    apply known_type_cases in Et as Hc.
    assert ((if cell_sql_type c =? kTypeChar then 4 + zlen (str_val c) else 4) =
            (if cell_sql_type c =? kTypeInt32 then 4 else if cell_sql_type c =? kTypeFloat32
             then 4 else 4 + zlen (str_val c))) as Hsz.
    { destruct Hc as [-> | [-> | ->] ]; done. }
    rewrite Hsz. clear Hsz.
    set (sz := 1 + _). assert (0 ≤ sz) as Hsz0 by (unfold sz; repeat case_match; lia).
    destruct (_ && _ && _) eqn:E1; split_bools.
    { split; [done|]. intros [[[_ Hx] _] _]. specialize (Hx ltac:(done) ltac:(done)). lia. }
    destruct (kMaxPayloadBytes - e <? sz) eqn:E3; split_bools.
    { split; [done|]. intros (_ & -> & ?). lia. }
    rewrite IH by lia. split; intros (? & -> & ?); split_and!; try done; try tauto; try lia.
    intros Hn Ht. rewrite Hn, Ht in E1. cbn in E1. split_bools. lia.
Qed.

(** What the checked ROW encoder accepts, and what it produces. *)
Lemma TryEncodeRow_iff cs p :
  TryEncodeRow cs = inr p ↔
  cs ≠ [] ∧ Forall cell_ok cs ∧ p = row_image cs ∧ zlen p ≤ kMaxPayloadBytes.
Proof.
  unfold TryEncodeRow. destruct cs as [|c cs]; [by split; [|intros [? _]]|].
  destruct (row_size (c :: cs) 0) as [d|t] eqn:E.
  - split; [done|]. intros (_ & Hok & -> & Hl). exfalso.
    assert (row_size (c :: cs) 0 = inr (0 + zlen (row_image (c :: cs)))) as E'; [|congruence].
    apply row_size_iff; [unfold kMaxPayloadBytes; lia|]. split_and!; [done|done|lia].
  - apply row_size_iff in E as (Hok & Ht & Hle); [|unfold kMaxPayloadBytes; lia].
    rewrite foldl_AppendCell_image by done. cbn [app]. split.
    + intros [= <-]. split_and!; [done|done|done|lia].
    + by intros (_ & _ & -> & _).
Qed.

(** Reduce the projections of a [Cell] and nothing else. *)
Ltac cell_cbn := cbn [is_null cell_sql_type int_val float_val str_val].

(** A cell as the decoder builds it. *)
Definition cell_canonical (c : Cell) : Prop :=
  canon_cell c = c ∧ cell_wf c ∧ cell_ok c.

Lemma canon_cell_image c : IsKnownSqlType (cell_sql_type c) = true → cell_image (canon_cell c) = cell_image c.
Proof.
  intros _. unfold cell_image, canon_cell. destruct (is_null c); [done|].
  destruct (cell_sql_type c =? kTypeInt32) eqn:E1; cell_cbn; rewrite ?E1; [done|].
  destruct (cell_sql_type c =? kTypeFloat32) eqn:E2; cell_cbn; rewrite ?E1, ?E2; done.
Qed.

Lemma canon_cell_canonical c : cell_wf c → cell_ok c → cell_canonical (canon_cell c).
Proof.
  intros [Hi Hf] [Ht Hs]. unfold cell_canonical, cell_wf, cell_ok, canon_cell.
  destruct (is_null c); cell_cbn; [split_and!; try done; word_lia|].
  destruct (cell_sql_type c =? kTypeInt32) eqn:E1; cell_cbn; rewrite ?E1.
  { split_and!; try done; try word_lia; intros _ E; rewrite E in E1; done. }
  destruct (cell_sql_type c =? kTypeFloat32) eqn:E2; cell_cbn; rewrite ?E1, ?E2.
  { split_and!; try done; try word_lia; intros _ E; rewrite E in E2; done. }
  split_and!; try done; try word_lia; auto.
Qed.

Lemma DecodeCell_complete p off c post :
  0 ≤ off ≤ zlen p → cell_canonical c → zdrop off p = cell_image c ++ post →
  DecodeCell p off (cell_sql_type c) = Some (c, off + zlen (cell_image c)).
Proof.
  intros Hoff (Hcan & [Hi Hf] & [Ht Hs]) Hp. unfold DecodeCell. rewrite Ht. cbn [negb].
  rewrite zlen_cell_image. unfold canon_cell in Hcan. unfold cell_image in Hp.
  destruct c as [nul ty iv fv sv]. cbn [is_null cell_sql_type int_val float_val str_val] in *.
  destruct nul.
  { injection Hcan as <- <- <-.
    assert (ReadU8 p off = Some (0, off + 1)) as ->; [|cbn; do 2 f_equal; lia].
    apply ReadU8_iff; [done|]. split_and!; [done|word_lia|by eexists]. }
  cbn [app] in Hp.
  assert (ReadU8 p off = Some (1, off + 1)) as ->.
  { apply ReadU8_iff; [done|]. split_and!; [done|word_lia|by eexists]. }
  cbn. pose proof (zdrop_bound off p [byte.of_Z 1] _ Hoff Hp) as Hb. cbn in Hb.
  apply (zdrop_after off 1 p [byte.of_Z 1]) in Hp; [|lia|done].
  destruct (ty =? kTypeInt32) eqn:E1.
  { injection Hcan as <- <-.
    assert (ReadU32 p (off + 1) = Some (u32 iv, off + 1 + 4)) as ->;
      [|rewrite s32_u32 by done; do 2 f_equal; lia].
    apply ReadU32_iff; [done|]. split_and!; [done|apply u32_range|by eexists]. }
  destruct (ty =? kTypeFloat32) eqn:E2.
  { injection Hcan as <- <-.
    assert (ReadU32 p (off + 1) = Some (fv, off + 1 + 4)) as ->; [|do 2 f_equal; lia].
    apply ReadU32_iff; [done|]. split_and!; [done|done|by eexists]. }
  injection Hcan as <- <-. rewrite <- app_assoc in Hp. pose proof (zlen_nonneg sv).
  apply known_type_cases in Ht. split_bools. destruct Ht as [?|[?|Ht]]; [done|done|].
  specialize (Hs eq_refl Ht).
  assert (ReadU32 p (off + 1) = Some (zlen sv, off + 1 + 4)) as ->.
  { apply ReadU32_iff; [done|]. split_and!; [done|word_lia|by eexists]. }
  pose proof (zdrop_bound _ _ _ _ Hb Hp) as Hb2. autorewrite with ldb in Hb2.
  apply zdrop_after with (n := 4) in Hp; [|lia|by rewrite zlen_be].
  assert (ReadBytes p (off + 1 + 4) (zlen sv) = Some (sv, off + 1 + 4 + zlen sv)) as ->;
    [|do 2 f_equal; lia].
  apply ReadBytes_iff; [done|lia|]. split_and!; [done|done|by eexists].
Qed.

Lemma DecodeCell_sound p off ty c off' :
  0 ≤ off ≤ zlen p → DecodeCell p off ty = Some (c, off') →
  cell_sql_type c = ty ∧ cell_canonical c ∧ off' = off + zlen (cell_image c) ∧
  ∃ post, zdrop off p = cell_image c ++ post.
Proof.
  intros Hoff. unfold DecodeCell. destruct (IsKnownSqlType ty) eqn:Ht; [|done]. cbn [negb].
  destruct (ReadU8 p off) as [[pr o1]|] eqn:E1; [|done].
  apply ReadU8_iff in E1 as (-> & Hpr & p1 & Hp1); [|done].
  destruct (1 <? pr) eqn:Ep; [done|]. split_bools.
  rewrite zlen_cell_image. unfold cell_canonical, canon_cell, cell_wf, cell_ok, cell_image.
  destruct (pr =? 0) eqn:E0; split_bools.
  { intros [= <- <-]. subst. cbn. split_and!; try done; try word_lia. by eexists. }
  assert (pr = 1) as -> by word_lia.
  pose proof (zdrop_bound off p [byte.of_Z 1] _ Hoff Hp1) as Hb. cbn in Hb.
  apply (zdrop_after off 1 p [byte.of_Z 1]) in Hp1 as Hd; [|lia|done].
  destruct (ReadU32 p (off + 1)) as [[v o2]|] eqn:E2;
    [|by destruct (ty =? kTypeInt32), (ty =? kTypeFloat32)].
  apply ReadU32_iff in E2 as (-> & Hv & p2 & Hp2); [|done].
  destruct (ty =? kTypeInt32) eqn:T1.
  { intros [= <- <-]. cell_cbn. rewrite T1, u32_s32 by done. split_bools. subst ty.
    split_and!; try done; try word_lia; [apply s32_range|].
    exists p2. by rewrite Hp1, <- Hd, Hp2. }
  destruct (ty =? kTypeFloat32) eqn:T2.
  { intros [= <- <-]. cell_cbn. rewrite T1, T2. split_bools. subst ty.
    split_and!; try done; try word_lia. exists p2. by rewrite Hp1, <- Hd, Hp2. }
  pose proof (zdrop_bound _ _ _ _ Hb Hp2) as Hb2. autorewrite with ldb in Hb2.
  apply zdrop_after with (n := 4) in Hp2 as Hd2; [|lia|by rewrite zlen_be].
  destruct (ReadBytes p (off + 1 + 4) v) as [[s o3]|] eqn:E3; [|done].
  apply ReadBytes_iff in E3 as (-> & Hs & p3 & Hp3); [|done|word_lia].
  intros [= <- <-]. cell_cbn. rewrite T1, T2. split_and!; try done; try word_lia.
  exists p3. rewrite Hp1, <- Hd, Hp2, <- Hd2, Hp3, Hs. cbn. by rewrite <- app_assoc.
Qed.

(** What the client's ROW parser accepts under a schema. *)
Lemma decode_cells_iff cols p off row off' :
  0 ≤ off ≤ zlen p →
  decode_cells cols p off = inr (row, off') ↔
  map cell_sql_type row = map column_sql_type cols ∧ Forall cell_canonical row ∧
  off' = off + zlen (row_image row) ∧ ∃ post, zdrop off p = row_image row ++ post.
Proof.
  revert off row. induction cols as [|col cols IH]; intros off row Hoff; cbn [decode_cells].
  { split.
    - intros [= <- <-]. split_and!; [done|constructor|unfold row_image, zlen; cbn; lia|by eexists].
    - intros (Hl & _ & -> & _). destruct row; [|done]. unfold row_image, zlen. cbn. do 2 f_equal. lia. }
  split.
  - destruct (DecodeCell p off _) as [[c o1]|] eqn:E1; [|done].
    apply DecodeCell_sound in E1 as (Ht & Hc & -> & p1 & Hp1); [|done].
    pose proof (zdrop_bound _ _ _ _ Hoff Hp1) as Hb1.
    apply zdrop_after with (n := zlen (cell_image c)) in Hp1 as Hd1; [|lia|done].
    destruct (decode_cells cols p _) as [|[cs' o2]] eqn:E2; [done|]. intros [= <- <-].
    apply IH in E2 as (Hl & Hok & -> & p2 & Hp2); [|done].
    rewrite row_image_cons, zlen_app. cbn [map].
    split_and!; [by rewrite Ht, Hl|by constructor|lia|].
    exists p2. by rewrite Hp1, <- Hd1, Hp2, app_assoc.
  - intros (Hl & Hok & -> & post & Hp). destruct row as [|c row]; [done|].
    inversion Hok as [|? ? Hc Hok']; subst. cbn [map] in Hl. injection Hl as Ht Hl.
    rewrite row_image_cons, <- app_assoc in Hp.
    pose proof (zdrop_bound _ _ _ _ Hoff Hp) as Hb1.
    rewrite <- Ht, (DecodeCell_complete _ _ _ _ Hoff Hc Hp).
    apply zdrop_after with (n := zlen (cell_image c)) in Hp; [|lia|done].
    rewrite (proj2 (IH _ row Hb1)); [done|]. rewrite row_image_cons, zlen_app.
    split_and!; [done|done|lia|by eexists].
Qed.

Lemma DecodeRow_iff cols p row :
  DecodeRow cols p = inr row ↔
  map cell_sql_type row = map column_sql_type cols ∧ Forall cell_canonical row ∧ p = row_image row.
Proof.
  assert (0 ≤ 0 ≤ zlen p) as H0 by zlen_lia. unfold DecodeRow. split.
  - destruct (decode_cells cols p 0) as [|[r o]] eqn:E; [done|].
    apply decode_cells_iff in E as (Hl & Hok & -> & post & Hp); [|done].
    destruct (negb _) eqn:E3; [done|]. split_bools. intros [= <-]. split_and!; [done|done|].
    rewrite zdrop_0 in Hp. subst p. rewrite zlen_app in E3.
    replace post with (@nil byte) by (symmetry; apply zlen_nil_iff; lia). by rewrite app_nil_r.
  - intros (Hl & Hok & Hp). rewrite (proj2 (decode_cells_iff cols p 0 row (0 + zlen (row_image row)) H0)).
    + by rewrite Hp, Z.eqb_refl.
    + split_and!; [done|done|done|]. exists []. by rewrite app_nil_r.
Qed.

(** ** RESULT_END *)

Lemma DecodeResultEnd_iff p n : is_u64 n → DecodeResultEnd p = inr n ↔ p = EncodeResultEnd n.
Proof.
  intros Hn. unfold EncodeResultEnd. split.
  - unfold DecodeResultEnd, ReadU64. assert (0 ≤ 0 ≤ zlen p) as H0 by zlen_lia.
    destruct (ReadU32 p 0) as [[hi o1]|] eqn:E1; [|done].
    apply ReadU32_iff in E1 as (-> & Hhi & p1 & Hp1); [|done].
    pose proof (zdrop_bound _ _ _ _ H0 Hp1) as Hb. autorewrite with ldb in Hb.
    destruct (ReadU32 p (0 + 4)) as [[lo o2]|] eqn:E2; [|done].
    apply ReadU32_iff in E2 as (-> & Hlo & p2 & Hp2); [|done].
    destruct (negb _) eqn:E3; [done|]. split_bools. intros [= <-].
    apply zdrop_after with (n := 4) in Hp1 as Hd; [|lia|by rewrite zlen_be].
    rewrite zdrop_0 in Hp1. rewrite Hp2 in Hd. subst p1. subst p. rewrite !zlen_app, !zlen_be in E3.
    replace p2 with (@nil byte) by (symmetry; apply zlen_nil_iff; lia). rewrite app_nil_r.
    rewrite AppendU64_be by done. cbn [app].
    assert (Z.lor (Z.shiftl hi 32) lo = hi * 2 ^ 32 + lo) as ->.
    { rewrite <- (lor_high_low (hi * 2 ^ 32 + lo)). unfold is_u32 in *.
      rewrite Z.div_add_l, (Z.div_small lo), Z.add_0_r by lia.
      by rewrite Z.add_comm, Z_mod_plus_full, Z.mod_small by lia. }
    unfold is_u32 in *. rewrite Z.div_add_l, (Z.div_small lo), Z.add_0_r by lia.
    by rewrite Z.add_comm, Z_mod_plus_full, Z.mod_small by lia.
  - intros ->. unfold DecodeResultEnd.
    pose proof (ReadU64_AppendU64 n [] Hn) as Hr. rewrite app_nil_r in Hr. rewrite Hr.
    rewrite AppendU64_be by done. rewrite !zlen_app, !zlen_be. done.
Qed.

(** ** Correctness of the payload codecs *)

(** C30. The META codec is exact: a payload within the frame limit decodes to a schema
    exactly when it is the payload the encoder produces for that schema.  So decoding
    inverts encoding, no two payloads decode to one schema, and every payload the
    client accepts is one a server may have sent. *)
Theorem meta_codec_exact p cs :
  zlen p ≤ kMaxPayloadBytes → DecodeMeta p = inr cs ↔ TryEncodeMeta cs = inr p.
Proof. rewrite DecodeMeta_iff, TryEncodeMeta_iff. tauto. Qed.

Definition sample_columns : list ColumnDef := [mkColumnDef (str "id") kTypeInt32; mkColumnDef (str "name") kTypeChar].

Lemma meta_codec_exact_witness :
  DecodeMeta (EncodeMeta sample_columns) = inr sample_columns ↔
  TryEncodeMeta sample_columns = inr (EncodeMeta sample_columns).
Proof. apply meta_codec_exact. vm_compute. discriminate. Defined.

(** C31. The ROW codec round-trips: a row the encoder accepts decodes, under any
    schema with the row's types, to the same row with the members its types do not
    use reset; and a row the client accepts encodes back to the bytes it came from. *)
Theorem row_codec_roundtrip cols cells p :
  Forall cell_wf cells → map cell_sql_type cells = map column_sql_type cols →
  (TryEncodeRow cells = inr p → DecodeRow cols p = inr (map canon_cell cells)) ∧
  (∀ row, DecodeRow cols p = inr row → cols ≠ [] → zlen p ≤ kMaxPayloadBytes → TryEncodeRow row = inr p).
Proof.
  intros Hwf Hty. split.
  - rewrite TryEncodeRow_iff, DecodeRow_iff. intros (Hne & Hok & -> & _). split_and!.
    + rewrite <- Hty, map_map. apply map_ext. intros c. unfold canon_cell. by repeat case_match.
    + apply Forall_map. rewrite Forall_forall in Hwf, Hok |- *.
      intros c Hc. apply canon_cell_canonical; auto.
    + unfold row_image. rewrite map_map. f_equal. apply map_ext_in. intros c Hc.
      symmetry. apply canon_cell_image. apply list_elem_of_In in Hc.
      rewrite Forall_forall in Hok. by apply Hok.
  - intros row. rewrite DecodeRow_iff, TryEncodeRow_iff. intros (Hl & Hc & ->) Hne Hp. split_and!; try done.
    + intros ->. by destruct cols.
    + apply (Forall_impl _ _ _ Hc). by intros c (_ & _ & ?).
Qed.

Definition sample_row : list Cell :=
  [mkCell false kTypeInt32 (-7) 0 []; mkCell false kTypeChar 0 0 (str "abc")].

Lemma row_codec_roundtrip_witness :
  TryEncodeRow sample_row = inr (EncodeRow sample_row) ∧
  DecodeRow sample_columns (EncodeRow sample_row) = inr (map canon_cell sample_row).
Proof.
  split; [reflexivity|]. apply (row_codec_roundtrip sample_columns sample_row); [|reflexivity|reflexivity].
  repeat constructor; cbn; lia.
Defined.

(** RESULT_END carries its row count exactly: a payload decodes to [n] if and
    only if it is the encoding of [n], for every 64-bit count. *)
Theorem result_end_exact p n : is_u64 n → DecodeResultEnd p = inr n ↔ p = EncodeResultEnd n.
Proof. apply DecodeResultEnd_iff. Qed.

Lemma result_end_exact_witness :
  DecodeResultEnd (EncodeResultEnd 4294967301) = inr 4294967301 ↔
  EncodeResultEnd 4294967301 = EncodeResultEnd 4294967301.
Proof. apply result_end_exact. unfold is_u64. lia. Defined.
