(* ===== verification/WireIO.v ===== *)
(** * The wire protocol: sockets, handshake and frames

    Models the transport half of [src/src/net/wire.cpp]: [ReadExactInternal],
    [WriteAll], [WriteVectorsAll], the handshake, [WriteFrame] and
    [ReadFrameInternal], over a connected stream socket whose kernel may split,
    interrupt, time out or fail every call.

    A socket is the byte stream still to be delivered by the peer before it closes
    ([inbox]), the bytes handed to the kernel so far ([outbox]), and two schedules
    that fix the outcome of the coming [recv] and [send]/[sendmsg] calls.  When a
    schedule is used up the kernel behaves well: it transfers all it is asked for, and
    [recv] reports end of file only on an empty stream. *)

From S2P Require Import Prelude Wire WireCodec.

(** ** The socket *)

Inductive recv_event :=
| RChunk (k : nat)        (** hands over at most [k + 1] bytes *)
| REintr                  (** [-1] with [EINTR] *)
| RTimeout                (** [-1] with [EAGAIN]/[EWOULDBLOCK] *)
| RError (err : Z).       (** [-1] with another [errno] *)

Inductive send_event :=
| SChunk (k : nat)        (** accepts at most [k + 1] bytes *)
| SEintr
| SError (err : Z).

Record Sock := mkSock {
  inbox : bytes; recv_sched : list recv_event;
  outbox : bytes; send_sched : list send_event }.

(** The return of [::recv(fd, p, chunk, 0)]. *)
Inductive recv_ret := RecvBytes (bs : bytes) | RecvIntr | RecvAgain | RecvErrno (err : Z).

Definition recv (s : Sock) (chunk : Z) : recv_ret * Sock :=
  let deliver (n : Z) (sched : list recv_event) :=
    (RecvBytes (ztake n (inbox s)), mkSock (zdrop n (inbox s)) sched (outbox s) (send_sched s)) in
  match recv_sched s with
  | [] => deliver chunk []
  | RChunk k :: sched => deliver (Z.min chunk (Z.of_nat k + 1)) sched
  | REintr :: sched => (RecvIntr, mkSock (inbox s) sched (outbox s) (send_sched s))
  | RTimeout :: sched => (RecvAgain, mkSock (inbox s) sched (outbox s) (send_sched s))
  | RError e :: sched => (RecvErrno e, mkSock (inbox s) sched (outbox s) (send_sched s))
  end.

(** The return of [::send]/[::sendmsg] over the bytes [msg]: the number accepted. *)
Inductive send_ret := Sent (n : Z) | SendIntr | SendErrno (err : Z).

Definition send (s : Sock) (msg : bytes) : send_ret * Sock :=
  let accept (n : Z) (sched : list send_event) :=
    (Sent n, mkSock (inbox s) (recv_sched s) (outbox s ++ ztake n msg) sched) in
  match send_sched s with
  | [] => accept (zlen msg) []
  | SChunk k :: sched => accept (Z.min (zlen msg) (Z.of_nat k + 1)) sched
  | SEintr :: sched => (SendIntr, mkSock (inbox s) (recv_sched s) (outbox s) sched)
  | SError e :: sched => (SendErrno e, mkSock (inbox s) (recv_sched s) (outbox s) sched)
  end.

Definition SSIZE_MAX : Z := 2 ^ 63 - 1.

Inductive IoReadStatus := IoOk | IoEof | IoTimeout | IoError.
Inductive FrameReadStatus := FrameOk | FrameTransportError | FrameProtocolError.

Section Transport.
Context (strerror : Z → bytes).

(** ** ReadExactInternal *)

(** The receive loop: [got = zlen acc]. [None] is "out of fuel", never reached. *)
Fixpoint read_loop (fuel : nat) (s : Sock) (n : Z) (acc : bytes)
  : option (IoReadStatus * bytes * bytes * Sock) :=
  match fuel with
  | O => None
  | S fuel =>
    if n <=? zlen acc then Some (IoOk, [], acc, s) else
    let chunk := Z.min (n - zlen acc) SSIZE_MAX in
    match recv s chunk with
    | (RecvIntr, s) => read_loop fuel s n acc
    | (RecvAgain, s) => Some (IoTimeout, str "socket read timed out", acc, s)
    | (RecvErrno e, s) => Some (IoError, str "socket read failed: " ++ strerror e, acc, s)
    | (RecvBytes [], s) => Some (IoEof, str "peer closed the connection", acc, s)
    | (RecvBytes bs, s) => read_loop fuel s n (acc ++ bs)
    end
  end.

(** Status, diagnostic, the bytes placed in the buffer and the socket after the
    call. Each turn of the loop uses up a scheduled event, or comes after the
    schedule's end, where two turns are enough: the fuel covers both. *)
Definition ReadExactInternal (fd : Z) (s : Sock) (n : Z) : IoReadStatus * bytes * bytes * Sock :=
  if fd <? 0 then (IoError, str "invalid read arguments", [], s)
  else default (IoError, [], [], s) (read_loop (length (recv_sched s) + 3) s n []).

Definition ReadExact (fd : Z) (s : Sock) (n : Z) : bool * bytes * Sock :=
  match ReadExactInternal fd s n with
  | (IoOk, _, data, s) => (true, data, s)
  | (_, _, data, s) => (false, data, s)
  end.

(** ** WriteAll *)

Fixpoint write_loop (fuel : nat) (s : Sock) (rest : bytes) : option (bool * Sock) :=
  match fuel with
  | O => None
  | S fuel =>
    match rest with
    | [] => Some (true, s)
    | _ =>
      match send s (ztake (Z.min (zlen rest) SSIZE_MAX) rest) with
      | (SendIntr, s) => write_loop fuel s rest
      | (SendErrno _, s) => Some (false, s)
      | (Sent w, s) => if w =? 0 then Some (false, s) else write_loop fuel s (zdrop w rest)
      end
    end
  end.

Definition WriteAll (fd : Z) (s : Sock) (buf : bytes) : bool * Sock :=
  if fd <? 0 then (false, s)
  else default (false, s) (write_loop (length (send_sched s) + 2) s buf).

(** ** WriteVectorsAll *)

(** The inner loop: drop the vectors that were sent in full, then advance into the
    first one that was not. *)
Fixpoint consume_vectors (vectors : list bytes) (consumed : Z) : list bytes :=
  match vectors with
  | [] => []
  | v :: vectors' =>
    if zlen v <=? consumed then consume_vectors vectors' (consumed - zlen v)
    else zdrop consumed v :: vectors'
  end.

Fixpoint write_vectors_loop (fuel : nat) (s : Sock) (vectors : list bytes) : option (bool * Sock) :=
  match fuel with
  | O => None
  | S fuel =>
    match vectors with
    | [] => Some (true, s)
    | _ =>
      match send s (concat vectors) with
      | (SendIntr, s) => write_vectors_loop fuel s vectors
      | (SendErrno _, s) => Some (false, s)
      | (Sent w, s) =>
        if w =? 0 then Some (false, s) else write_vectors_loop fuel s (consume_vectors vectors w)
      end
    end
  end.

Definition WriteVectorsAll (s : Sock) (vectors : list bytes) : bool * Sock :=
  default (false, s) (write_vectors_loop (length (send_sched s) + 2) s vectors).

(** ** Handshake *)

Definition handshake_bytes : bytes :=
  kMagic ++ le_split 2 (hton 2 kMajor) ++ le_split 2 (hton 2 kMinor).

Definition WriteHandshakeBytes (fd : Z) (s : Sock) : bool * Sock := WriteAll fd s handshake_bytes.

Definition CheckHandshakeBytes (msg : bytes) : bool :=
  bool_decide (ztake 4 msg = kMagic) &&
  ((ntoh 2 (le_combine (ztake 2 (zdrop 4 msg))) =? kMajor) &&
   (ntoh 2 (le_combine (ztake 2 (zdrop 6 msg))) =? kMinor)).

Definition WriteHandshake := WriteHandshakeBytes.

Definition ReadAndCheckHandshake (fd : Z) (s : Sock) : bool * Sock :=
  match ReadExact fd s 8 with
  | (false, _, s) => (false, s)
  | (true, msg, s) => if negb (CheckHandshakeBytes msg) then (false, s) else WriteAll fd s msg
  end.

Definition ClientHandshake (fd : Z) (s : Sock) : bool * Sock :=
  match WriteHandshakeBytes fd s with
  | (false, s) => (false, s)
  | (true, s) =>
    match ReadExact fd s 8 with
    | (false, _, s) => (false, s)
    | (true, echo, s) => (CheckHandshakeBytes echo, s)
    end
  end.

(** ** Frames *)

Definition is_diagnostic_tag (tag : Z) : bool := (tag =? kTagError) || (tag =? kTagTransactionAbort).

Definition WriteFrame (fd : Z) (s : Sock) (tag flags : Z) (payload : bytes) : bool * Sock :=
  if (fd <? 0) || (kMaxPayloadBytes <? zlen payload) then (false, s)
  else if is_diagnostic_tag tag && (kMaxDiagnosticBytes <? zlen payload) then (false, s)
  else
    let header := le_split 4 (hton 4 (u32 (zlen payload))) ++
                  [byte.of_Z tag; byte.of_Z flags; byte.of_Z 0; byte.of_Z 0] in
    WriteVectorsAll s (match payload with [] => [header] | _ => [header; payload] end).

(** [header[i]] *)
Definition hd_at (header : bytes) (i : nat) : Z :=
  match header !! i with Some b => byte.unsigned b | None => 0 end.

Definition ReadFrameInternal (fd : Z) (s : Sock) : FrameReadStatus * bytes * Frame * Sock :=
  let no_frame := mkFrame 0 0 [] in
  match ReadExactInternal fd s 8 with
  | (IoOk, _, header, s) =>
    let len := ntoh 4 (le_combine (ztake 4 header)) in
    if kMaxPayloadBytes <? len
    then (FrameProtocolError, str "frame payload exceeds 1 MiB", no_frame, s)
    else if is_diagnostic_tag (hd_at header 4) && (kMaxDiagnosticBytes <? len)
    then (FrameProtocolError, str "diagnostic payload exceeds 64 KiB", no_frame, s)
    else if negb (hd_at header 6 =? 0) || negb (hd_at header 7 =? 0)
    then (FrameProtocolError, str "non-zero reserved frame field", no_frame, s)
    else if len =? 0 then (FrameOk, [], mkFrame (hd_at header 4) (hd_at header 5) [], s)
    else
      match ReadExactInternal fd s len with
      | (IoOk, _, payload, s) =>
        (FrameOk, [], mkFrame (hd_at header 4) (hd_at header 5) payload, s)
      | (_, diagnostic, _, s) => (FrameTransportError, diagnostic, no_frame, s)
      end
  | (_, diagnostic, _, s) => (FrameTransportError, diagnostic, no_frame, s)
  end.

Definition ReadFrame (fd : Z) (s : Sock) : bool * Frame * Sock :=
  match ReadFrameInternal fd s with
  | (FrameOk, _, f, s) => (true, f, s)
  | (_, _, f, s) => (false, f, s)
  end.

End Transport.
