(* ===== verification/WireTransport.v ===== *)
(** * Correctness of the wire transport

    Lemmas on [WireIO]: the read and write loops return within their fuel, transfer
    the bytes of the stream in order whatever the kernel's schedule, and complete
    when no scheduled call fails; frames and the handshake on top of them. *)

From S2P Require Import Prelude Wire WireCodec WireIO.

(** A schedule without failures: calls are only split or interrupted. *)
Definition benign_recv (e : recv_event) : Prop :=
  match e with RChunk _ | REintr => True | _ => False end.
Definition benign_send (e : send_event) : Prop :=
  match e with SChunk _ | SEintr => True | _ => False end.
Definition benign (s : Sock) : Prop :=
  Forall benign_recv (recv_sched s) ∧ Forall benign_send (send_sched s).

Section Facts.
Context (strerror : Z → bytes).

(** ** Reading *)

(** The stream after [k] more bytes were received. *)
Definition advance (s : Sock) (k : Z) (sched : list recv_event) : Sock :=
  mkSock (zdrop k (inbox s)) sched (outbox s) (send_sched s).

Lemma ztake_min {A} m (l : list A) : ztake m l = ztake (Z.min m (zlen l)) l.
Proof.
  destruct (Z.le_gt_cases m (zlen l)); [by rewrite Z.min_l|].
  rewrite Z.min_r by lia. rewrite !ztake_all by lia. done.
Qed.
Lemma zdrop_min {A} m (l : list A) : zdrop m l = zdrop (Z.min m (zlen l)) l.
Proof.
  destruct (Z.le_gt_cases m (zlen l)); [by rewrite Z.min_l|].
  rewrite Z.min_r by lia. rewrite !zdrop_all by lia. done.
Qed.

(** One [recv]: it delivers a prefix of the stream, empty only at its end, or fails
    without touching the stream. *)
Lemma recv_cases s chunk :
  0 < chunk →
  (∃ k, 0 ≤ k ≤ Z.min chunk (zlen (inbox s)) ∧ (k = 0 → inbox s = []) ∧
        (recv_sched s = [] → k = Z.min chunk (zlen (inbox s))) ∧
        recv s chunk = (RecvBytes (ztake k (inbox s)), advance s k (tail (recv_sched s)))) ∨
  (∃ r e, recv s chunk = (r, advance s 0 (tail (recv_sched s))) ∧
        head (recv_sched s) = Some e ∧ (benign_recv e → r = RecvIntr) ∧
        match r with RecvBytes _ => False | _ => True end).
Proof.
  intros Hc. unfold recv, advance. destruct s as [ib rs ob ss]. cbn.
  pose proof (zlen_nonneg ib).
  assert (∀ m, 0 < m → Z.min m (zlen ib) = 0 → ib = []) as Hz.
  { intros m Hm Hmin. apply zlen_nil_iff. lia. }
  destruct rs as [|[j| | |e] rs]; cbn.
  - left. exists (Z.min chunk (zlen ib)). rewrite <- ztake_min, <- zdrop_min.
    split_and!; try done; try lia. by apply Hz.
  - left. exists (Z.min (Z.min chunk (Z.of_nat j + 1)) (zlen ib)).
    rewrite <- ztake_min, <- zdrop_min. split_and!; try done; try lia.
    apply Hz. lia.
  - right. by eexists _, _.
  - right. by eexists _, _.
  - right. by eexists _, _.
Qed.

Lemma ztake_add {A} a b (l : list A) :
  0 ≤ a → 0 ≤ b → ztake (a + b) l = ztake a l ++ ztake b (zdrop a l).
Proof.
  intros. unfold ztake, zdrop. rewrite Z2Nat.inj_add by lia.
  by rewrite take_take_drop.
Qed.

Lemma tail_suffix {A} (l : list A) : suffix (tail l) l.
Proof. destruct l; [done|]. cbn. by apply suffix_cons_r. Qed.

(** Soundness for any schedule: what was read is a prefix of the stream, and the
    rest is still there. *)
Lemma read_loop_sound fuel s n acc st d data s' :
  read_loop strerror fuel s n acc = Some (st, d, data, s') → zlen acc ≤ n →
  ∃ k sched, 0 ≤ k ≤ zlen (inbox s) ∧ data = acc ++ ztake k (inbox s) ∧
       s' = advance s k sched ∧ suffix sched (recv_sched s) ∧
       (st = IoOk → zlen data = n) ∧ (st ≠ IoOk → zlen data < n).
Proof.
  revert s acc. induction fuel as [|fuel IH]; intros s acc; [done|]. cbn [read_loop]. cbv zeta.
  pose proof (zlen_nonneg (inbox s)) as Hin. intros Hrun Hacc.
  destruct (n <=? zlen acc) eqn:En; split_bools.
  { injection Hrun as <- <- <- <-. exists 0, (recv_sched s). rewrite app_nil_r.
    split_and!; try done; try lia. by destruct s. }
  destruct (recv_cases s (Z.min (n - zlen acc) SSIZE_MAX)) as
    [(k & Hk & Hk0 & _ & Hr)|(r & e & Hr & _ & _ & Hnb)]; [unfold SSIZE_MAX; lia|..];
    rewrite Hr in Hrun.
  - destruct (ztake k (inbox s)) as [|b bs] eqn:Et.
    + assert (k = 0) as -> by (apply (f_equal zlen) in Et; rewrite zlen_ztake, zlen_nil in Et; lia).
      injection Hrun as <- <- <- <-. exists 0, (tail (recv_sched s)). rewrite app_nil_r.
      split_and!; try done; try lia. apply tail_suffix.
    + rewrite <- Et in Hrun. apply IH in Hrun as (j & sc & Hj & -> & -> & Hs & H1 & H2);
        [|rewrite zlen_app, zlen_ztake; lia].
      cbn in Hj, Hs. rewrite zlen_zdrop in Hj by lia. exists (k + j), sc.
      split_and!; try done; try lia.
      * cbn. by rewrite ztake_add, app_assoc by lia.
      * unfold advance. cbn. by rewrite zdrop_zdrop by lia.
      * etrans; [exact Hs|apply tail_suffix].
  - assert (∃ fin, fin = advance s 0 (tail (recv_sched s)) ∧ inbox fin = inbox s) as (fin & Hf & Hfi)
      by (eexists; split; [done|apply zdrop_0]).
    rewrite <- Hf in Hrun. destruct r as [bs| | |er]; [done| | |].
    + apply IH in Hrun as (j & sc & Hj & -> & -> & Hs & H1 & H2); [|lia].
      rewrite Hfi in *. subst fin. cbn in Hs. exists j, sc. split_and!; try done; try lia.
      etrans; [exact Hs|apply tail_suffix].
    + injection Hrun as <- <- <- <-. exists 0, (tail (recv_sched s)). rewrite app_nil_r.
      split_and!; try done; try lia. apply tail_suffix.
    + injection Hrun as <- <- <- <-. exists 0, (tail (recv_sched s)). rewrite app_nil_r.
      split_and!; try done; try lia. apply tail_suffix.
Qed.

(** Completeness: with no failing call and enough bytes in the stream, the loop
    returns [IoOk] with exactly the bytes asked for. *)
Lemma read_loop_complete fuel s n acc :
  Forall benign_recv (recv_sched s) → zlen acc ≤ n ≤ zlen acc + zlen (inbox s) → n ≤ SSIZE_MAX →
  (length (recv_sched s) + 2 ≤ fuel)%nat →
  ∃ sched, Forall benign_recv sched ∧
    read_loop strerror fuel s n acc =
      Some (IoOk, [], acc ++ ztake (n - zlen acc) (inbox s), advance s (n - zlen acc) sched).
Proof.
  revert s acc. induction fuel as [|fuel IH]; intros s acc Hb Hn Hmax Hf; [lia|].
  cbn [read_loop]. cbv zeta. pose proof (zlen_nonneg acc) as Ha.
  destruct (n <=? zlen acc) eqn:En; split_bools.
  { replace (n - zlen acc) with 0 by lia. exists (recv_sched s). rewrite app_nil_r.
    split; [done|]. by destruct s. }
  rewrite Z.min_l by lia.
  assert (Forall benign_recv (tail (recv_sched s))) as Hbt by (destruct Hb; cbn; auto).
  destruct (recv_cases s (n - zlen acc)) as
    [(k & Hk & Hk0 & Hkf & Hr)|(r & e & Hr & He & Hbe & Hnb)]; [lia|..]; rewrite Hr.
  - destruct (ztake k (inbox s)) as [|b bs] eqn:Et.
    { exfalso. apply (f_equal zlen) in Et. rewrite zlen_ztake, zlen_nil in Et by lia.
      rewrite (Hk0 Et), zlen_nil in Hn. lia. }
    rewrite <- Et. assert (zlen (acc ++ ztake k (inbox s)) = zlen acc + k) as Hl
      by (rewrite zlen_app, zlen_ztake; lia).
    destruct fuel as [|fuel]; [lia|].
    destruct (Z.eq_dec (n - zlen acc) k) as [Hkn|Hkn].
    { exists (tail (recv_sched s)). split; [done|]. cbn [read_loop]. rewrite Hl.
      rewrite (proj2 (Z.leb_le _ _)) by lia. by rewrite Hkn. }
    destruct (recv_sched s) as [|ev sc] eqn:Es; [specialize (Hkf eq_refl); lia|].
    change (tail (ev :: sc)) with sc in *.
    edestruct (IH (advance s k sc) (acc ++ ztake k (inbox s))) as (sc' & Hsc & ->).
    { done. } { rewrite Hl. cbn. rewrite zlen_zdrop; lia. } { done. } { cbn in *. lia. }
    exists sc'. split; [done|]. rewrite Hl. cbn. rewrite <- app_assoc, <- ztake_add by lia.
    unfold advance. cbn. rewrite zdrop_zdrop by lia. do 4 f_equal; f_equal; lia.
  - destruct (recv_sched s) as [|ev sc] eqn:Es; [done|]. cbn in He. injection He as ->.
    change (tail (e :: sc)) with sc in *.
    rewrite (Hbe (Forall_inv Hb)).
    edestruct (IH (advance s 0 sc) acc) as (sc' & Hsc & ->);
      [done|cbn; rewrite zdrop_0; lia|done|cbn in *; lia|].
    exists sc'. split; [done|]. unfold advance. cbn. by rewrite zdrop_0.
Qed.

(** The loop returns within its fuel under every schedule. *)
Lemma read_loop_total fuel s n acc :
  n ≤ SSIZE_MAX → (length (recv_sched s) + 2 ≤ fuel)%nat → is_Some (read_loop strerror fuel s n acc).
Proof.
  intros Hmax. revert s acc. induction fuel as [|fuel IH]; intros s acc Hf; [lia|].
  cbn [read_loop]. cbv zeta. destruct (n <=? zlen acc) eqn:En; split_bools; [done|].
  pose proof (zlen_nonneg acc). rewrite Z.min_l by lia.
  destruct (recv_cases s (n - zlen acc)) as
    [(k & Hk & Hk0 & Hkf & Hr)|(r & e & Hr & He & _ & Hnb)]; [lia|..]; rewrite Hr.
  - destruct (ztake k (inbox s)) as [|b bs] eqn:Et; [done|]. rewrite <- Et.
    destruct (recv_sched s) as [|ev sc] eqn:Es; [|apply IH; cbn in *; lia].
    specialize (Hkf eq_refl). destruct fuel as [|fuel]; [cbn in *; lia|]. cbn [read_loop]. cbv zeta.
    destruct (n <=? _) eqn:En2; [done|]. split_bools.
    rewrite zlen_app, zlen_ztake in En2 by lia.
    unfold recv, advance. cbn. rewrite zdrop_all by lia. by rewrite ztake_nil.
  - destruct (recv_sched s) as [|ev sc] eqn:Es; [done|].
    destruct r as [| | |]; [done|apply IH; cbn in *; lia|done|done].
Qed.

Lemma ReadExactInternal_complete fd s n :
  0 ≤ fd → Forall benign_recv (recv_sched s) → 0 ≤ n ≤ zlen (inbox s) → n ≤ SSIZE_MAX →
  ∃ sched, Forall benign_recv sched ∧
    ReadExactInternal strerror fd s n = (IoOk, [], ztake n (inbox s), advance s n sched).
Proof.
  intros Hfd Hb Hn Hmax. unfold ReadExactInternal. rewrite (proj2 (Z.ltb_ge _ _)) by lia.
  destruct (read_loop_complete (length (recv_sched s) + 3) s n []) as (sc & Hsc & ->);
    [done|rewrite zlen_nil; lia|done|lia|].
  exists sc. rewrite zlen_nil, Z.sub_0_r. done.
Qed.

Lemma ReadExactInternal_sound fd s n st d data s' :
  ReadExactInternal strerror fd s n = (st, d, data, s') → 0 ≤ n ≤ SSIZE_MAX →
  ∃ k sched, 0 ≤ k ≤ zlen (inbox s) ∧ data = ztake k (inbox s) ∧ s' = advance s k sched ∧
    suffix sched (recv_sched s) ∧ (st = IoOk → k = n) ∧ (st ≠ IoOk → k < n ∨ fd < 0).
Proof.
  unfold ReadExactInternal. intros Hr Hn. pose proof (zlen_nonneg (inbox s)).
  destruct (fd <? 0) eqn:Ef; split_bools.
  { injection Hr as <- <- <- <-. exists 0, (recv_sched s). split_and!; try done; try lia.
    by destruct s. }
  destruct (read_loop_total (length (recv_sched s) + 3) s n []) as [out Hout]; [lia|lia|].
  rewrite Hout in Hr. cbn in Hr. subst out.
  apply read_loop_sound in Hout as (k & sc & Hk & -> & -> & Hs & H1 & H2); [|rewrite zlen_nil; lia].
  cbn [app] in *. rewrite zlen_ztake in H1, H2 by lia. exists k, sc. naive_solver.
Qed.

(** ** Writing *)

Lemma Forall_suffix {A} (P : A → Prop) l k : suffix k l → Forall P l → Forall P k.
Proof. intros [pre ->] H. by apply Forall_app in H as [_ ?]. Qed.

Definition emitted (s : Sock) (bs : bytes) (sched : list send_event) : Sock :=
  mkSock (inbox s) (recv_sched s) (outbox s ++ bs) sched.

Lemma emitted_emitted s a b sc sc' : emitted (emitted s a sc) b sc' = emitted s (a ++ b) sc'.
Proof. unfold emitted. cbn. by rewrite app_assoc. Qed.

(** One [send] of a non-empty message. *)
Lemma send_cases s msg :
  msg ≠ [] →
  (∃ k, 0 < k ≤ zlen msg ∧ (send_sched s = [] → k = zlen msg) ∧
        send s msg = (Sent k, emitted s (ztake k msg) (tail (send_sched s)))) ∨
  (∃ r e, send s msg = (r, emitted s [] (tail (send_sched s))) ∧ head (send_sched s) = Some e ∧
        (benign_send e → r = SendIntr) ∧ match r with Sent _ => False | _ => True end).
Proof.
  intros Hm. unfold send, emitted. destruct s as [ib rs ob ss]. cbn.
  assert (0 < zlen msg).
  { destruct msg; [done|]. rewrite zlen_cons. pose proof (zlen_nonneg msg). lia. }
  destruct ss as [|[j| |e] ss]; cbn; rewrite ?app_nil_r.
  - left. exists (zlen msg). split_and!; try done; lia.
  - left. exists (Z.min (zlen msg) (Z.of_nat j + 1)). split_and!; try done; lia.
  - right. by eexists _, _.
  - right. by eexists _, _.
Qed.

Lemma concat_nonempty {A} (vs : list (list A)) :
  Forall (λ v, v ≠ []) vs → vs ≠ [] → concat vs ≠ [].
Proof. intros H Hne. destruct H as [|[|x v] vs Hv _]; cbn; [done|done|done]. Qed.

Lemma consume_vectors_spec vs c :
  Forall (λ v, v ≠ []) vs → 0 ≤ c ≤ zlen (concat vs) →
  concat (consume_vectors vs c) = zdrop c (concat vs) ∧ Forall (λ v, v ≠ []) (consume_vectors vs c).
Proof.
  intros H. revert c. induction H as [|v vs Hv Hvs IH]; intros c Hc; cbn [consume_vectors concat].
  { split; [|constructor]. cbn. by rewrite zdrop_nil. }
  cbn [concat] in Hc. rewrite zlen_app in Hc. destruct (zlen v <=? c) eqn:E; split_bools.
  - destruct (IH (c - zlen v)) as [-> ?]; [lia|]. split; [|done].
    replace c with (zlen v + (c - zlen v)) at 2 by lia. pose proof (zlen_nonneg v).
    rewrite <- zdrop_zdrop by lia. by rewrite zdrop_app_exact.
  - split.
    + cbn [concat]. unfold zdrop. rewrite drop_app_le; [done|]. unfold zlen in *. lia.
    + constructor; [|done]. intros Hn. apply (f_equal zlen) in Hn.
      rewrite zlen_zdrop, zlen_nil in Hn by lia. lia.
Qed.

(** The vector loop under any schedule: it returns within its fuel, what it put on
    the wire is a prefix of the message, and all of it when it reports success; it
    does report success when no scheduled call fails. *)
Lemma write_vectors_loop_spec fuel s vs :
  Forall (λ v, v ≠ []) vs → (length (send_sched s) + 2 ≤ fuel)%nat →
  ∃ ok k sched, write_vectors_loop fuel s vs = Some (ok, emitted s (ztake k (concat vs)) sched) ∧
    0 ≤ k ≤ zlen (concat vs) ∧ suffix sched (send_sched s) ∧
    (ok = true → k = zlen (concat vs)) ∧ (Forall benign_send (send_sched s) → ok = true).
Proof.
  revert s vs. induction fuel as [|fuel IH]; intros s vs Hvs Hf; [lia|]. cbn [write_vectors_loop].
  destruct vs as [|v vs'].
  { exists true, 0, (send_sched s). split_and!; try done.
    unfold emitted. cbn. rewrite app_nil_r. by destruct s. }
  set (vs := v :: vs') in *. pose proof (concat_nonempty vs Hvs ltac:(done)) as Hne.
  destruct (send_cases s (concat vs) Hne) as [(k & Hk & Hkf & ->)|(r & e & -> & He & Hbe & Hr)].
  - rewrite (proj2 (Z.eqb_neq _ _)) by lia.
    destruct (consume_vectors_spec vs k Hvs ltac:(lia)) as [Hc Hcf].
    destruct (send_sched s) as [|ev sc] eqn:Es.
    + specialize (Hkf eq_refl). destruct fuel as [|fuel]; [cbn in *; lia|].
      rewrite zdrop_all in Hc by lia. destruct (consume_vectors vs k) as [|w ws] eqn:Ew.
      * exists true, k, []. split_and!; try done; try lia.
      * by destruct (concat_nonempty _ Hcf).
    + cbn [tail]. destruct (IH (emitted s (ztake k (concat vs)) sc) (consume_vectors vs k))
        as (ok & j & sc' & -> & Hj & Hsuf & H1 & H2); [done|cbn in *; lia|].
      rewrite Hc in *. rewrite zlen_zdrop in * by lia. cbn in Hsuf, H2.
      exists ok, (k + j), sc'. rewrite emitted_emitted, <- ztake_add by lia.
      split_and!; try done; try lia; try (by apply suffix_cons_r).
      * intros Ho. specialize (H1 Ho). lia.
      * intros Hb. apply H2. by inversion Hb.
  - destruct (send_sched s) as [|ev sc] eqn:Es; [done|]. cbn in He. injection He as ->.
    cbn [tail]. pose proof (zlen_nonneg (concat vs)). destruct r as [n| |er]; [done| |].
    + destruct (IH (emitted s [] sc) vs) as (ok & j & sc' & -> & Hj & Hsuf & H1 & H2);
        [done|cbn in *; lia|]. cbn in Hsuf, H2.
      exists ok, j, sc'. rewrite emitted_emitted. cbn [app].
      split_and!; try done; try lia; try (by apply suffix_cons_r).
      intros Hb. apply H2. by inversion Hb.
    + exists false, 0, sc. split_and!; try done; try lia; try (by apply suffix_cons_r).
      intros Hb. inversion Hb as [|? ? Hb1 ?]; subst. discriminate (Hbe Hb1).
Qed.

Lemma WriteVectorsAll_spec s vs :
  Forall (λ v, v ≠ []) vs →
  ∃ ok k sched, WriteVectorsAll s vs = (ok, emitted s (ztake k (concat vs)) sched) ∧
    0 ≤ k ≤ zlen (concat vs) ∧ suffix sched (send_sched s) ∧
    (ok = true → k = zlen (concat vs)) ∧ (Forall benign_send (send_sched s) → ok = true).
Proof.
  intros Hvs. unfold WriteVectorsAll.
  destruct (write_vectors_loop_spec (length (send_sched s) + 2) s vs) as (ok & k & sc & -> & H);
    [done|lia|]. by exists ok, k, sc.
Qed.

(** [WriteAll] is the one-vector case: same loop, one buffer. *)
Lemma write_loop_spec fuel s buf :
  zlen buf ≤ SSIZE_MAX → (length (send_sched s) + 2 ≤ fuel)%nat →
  ∃ ok k sched, write_loop fuel s buf = Some (ok, emitted s (ztake k buf) sched) ∧
    0 ≤ k ≤ zlen buf ∧ suffix sched (send_sched s) ∧
    (ok = true → k = zlen buf) ∧ (Forall benign_send (send_sched s) → ok = true).
Proof.
  revert s buf. induction fuel as [|fuel IH]; intros s buf Hl Hf; [lia|]. cbn [write_loop].
  destruct buf as [|b bs].
  { exists true, 0, (send_sched s). split_and!; try done.
    unfold emitted. cbn. rewrite app_nil_r. by destruct s. }
  set (buf := b :: bs) in *. rewrite (ztake_all (Z.min _ _)) by lia.
  pose proof (zlen_nonneg buf).
  destruct (send_cases s buf) as [(k & Hk & Hkf & ->)|(r & e & -> & He & Hbe & Hr)]; [done|..].
  - rewrite (proj2 (Z.eqb_neq _ _)) by lia.
    destruct (send_sched s) as [|ev sc] eqn:Es.
    + specialize (Hkf eq_refl). destruct fuel as [|fuel]; [cbn in *; lia|].
      rewrite zdrop_all by lia. exists true, k, []. split_and!; try done; try lia.
    + cbn [tail]. destruct (IH (emitted s (ztake k buf) sc) (zdrop k buf))
        as (ok & j & sc' & -> & Hj & Hsuf & H1 & H2);
        [rewrite zlen_zdrop; lia|cbn in *; lia|].
      rewrite zlen_zdrop in * by lia. cbn in Hsuf, H2.
      exists ok, (k + j), sc'. rewrite emitted_emitted, <- ztake_add by lia.
      split_and!; try done; try lia; try (by apply suffix_cons_r).
      * intros Ho. specialize (H1 Ho). lia.
      * intros Hb. apply H2. by inversion Hb.
  - destruct (send_sched s) as [|ev sc] eqn:Es; [done|]. cbn in He. injection He as ->.
    cbn [tail]. destruct r as [n| |er]; [done| |].
    + destruct (IH (emitted s [] sc) buf) as (ok & j & sc' & -> & Hj & Hsuf & H1 & H2);
        [done|cbn in *; lia|]. cbn in Hsuf, H2.
      exists ok, j, sc'. rewrite emitted_emitted. cbn [app].
      split_and!; try done; try lia; try (by apply suffix_cons_r).
      intros Hb. apply H2. by inversion Hb.
    + exists false, 0, sc. split_and!; try done; try lia; try (by apply suffix_cons_r).
      intros Hb. inversion Hb as [|? ? Hb1 ?]; subst. discriminate (Hbe Hb1).
Qed.

Lemma WriteAll_spec fd s buf :
  0 ≤ fd → zlen buf ≤ SSIZE_MAX →
  ∃ ok k sched, WriteAll fd s buf = (ok, emitted s (ztake k buf) sched) ∧
    0 ≤ k ≤ zlen buf ∧ suffix sched (send_sched s) ∧
    (ok = true → k = zlen buf) ∧ (Forall benign_send (send_sched s) → ok = true).
Proof.
  intros Hfd Hl. unfold WriteAll. rewrite (proj2 (Z.ltb_ge _ _)) by lia.
  destruct (write_loop_spec (length (send_sched s) + 2) s buf) as (ok & k & sc & -> & H);
    [done|lia|]. by exists ok, k, sc.
Qed.

Lemma WriteAll_complete fd s buf :
  0 ≤ fd → zlen buf ≤ SSIZE_MAX → Forall benign_send (send_sched s) →
  ∃ sched, Forall benign_send sched ∧ WriteAll fd s buf = (true, emitted s buf sched).
Proof.
  intros Hfd Hl Hb. destruct (WriteAll_spec fd s buf Hfd Hl) as (ok & k & sc & -> & Hk & Hs & H1 & H2).
  rewrite (H2 Hb) in *. exists sc. split; [by eapply Forall_suffix|].
  by rewrite (H1 eq_refl), ztake_all.
Qed.

(** ** Frames *)

(** The 8-byte header (length, tag, flags, two reserved zero bytes), then the payload. *)
Definition frame_header (f : Frame) : bytes :=
  be 4 (zlen (frame_payload f)) ++
  [byte.of_Z (frame_tag f); byte.of_Z (frame_flags f); byte.of_Z 0; byte.of_Z 0].
Definition frame_image (f : Frame) : bytes := frame_header f ++ frame_payload f.

Definition frame_ok (f : Frame) : Prop :=
  is_u8 (frame_tag f) ∧ is_u8 (frame_flags f) ∧ zlen (frame_payload f) ≤ kMaxPayloadBytes ∧
  (is_diagnostic_tag (frame_tag f) = true → zlen (frame_payload f) ≤ kMaxDiagnosticBytes).

Lemma zlen_frame_header f : zlen (frame_header f) = 8.
Proof. unfold frame_header. by rewrite zlen_app, zlen_be. Qed.
Lemma zlen_frame_image f : zlen (frame_image f) = 8 + zlen (frame_payload f).
Proof. unfold frame_image. by rewrite zlen_app, zlen_frame_header. Qed.

(** [WriteFrame] either refuses the frame, or writes a prefix of its image, all of it
    when it reports success. *)
Lemma WriteFrame_spec fd s f :
  0 ≤ fd → frame_ok f →
  ∃ ok k sched, WriteFrame fd s (frame_tag f) (frame_flags f) (frame_payload f) =
      (ok, emitted s (ztake k (frame_image f)) sched) ∧
    0 ≤ k ≤ zlen (frame_image f) ∧ suffix sched (send_sched s) ∧
    (ok = true → k = zlen (frame_image f)) ∧ (Forall benign_send (send_sched s) → ok = true).
Proof.
  intros Hfd (Ht & Hfl & Hp & Hd). unfold WriteFrame.
  rewrite !(proj2 (Z.ltb_ge _ _)) by lia. cbn [orb].
  assert (is_diagnostic_tag (frame_tag f) && (kMaxDiagnosticBytes <? zlen (frame_payload f)) = false) as ->.
  { destruct (is_diagnostic_tag _); [|done]. cbn. apply Z.ltb_ge. auto. }
  rewrite u32_small by (unfold kMaxPayloadBytes in *; zlen_lia).
  change (le_split 4 (hton 4 ?v)) with (be 4 v). cbv zeta.
  fold (frame_header f).
  assert (frame_header f ≠ []) as Hh.
  { intros H. apply (f_equal zlen) in H. by rewrite zlen_frame_header in H. }
  destruct (WriteVectorsAll_spec s (match frame_payload f with [] => [frame_header f]
    | _ => [frame_header f; frame_payload f] end)) as (ok & k & sc & -> & H).
  { destruct (frame_payload f); repeat constructor; done. }
  exists ok, k, sc. unfold frame_image.
  replace (frame_header f ++ frame_payload f) with
    (concat (match frame_payload f with [] => [frame_header f]
       | _ => [frame_header f; frame_payload f] end)); [done|].
  destruct (frame_payload f); cbn [concat]; by rewrite ?app_nil_r.
Qed.

Lemma WriteFrame_complete fd s f :
  0 ≤ fd → frame_ok f → Forall benign_send (send_sched s) →
  ∃ sched, Forall benign_send sched ∧
    WriteFrame fd s (frame_tag f) (frame_flags f) (frame_payload f) = (true, emitted s (frame_image f) sched).
Proof.
  intros Hfd Hok Hb. destruct (WriteFrame_spec fd s f Hfd Hok) as (ok & k & sc & -> & Hk & Hs & H1 & H2).
  rewrite (H2 Hb) in *. exists sc. split; [by eapply Forall_suffix|].
  by rewrite (H1 eq_refl), ztake_all.
Qed.

(** The fields of a header that was read. *)
Lemma byte_of_unsigned b : byte.of_Z (byte.unsigned b) = b.
Proof. apply byte.of_Z_unsigned. Qed.
Lemma byte_unsigned_of z : is_u8 z → byte.unsigned (byte.of_Z z) = z.
Proof. intros H. rewrite byte.unsigned_of_Z. unfold byte.wrap. by apply Z.mod_small. Qed.

Lemma header_split (h : bytes) :
  zlen h = 8 → ∃ b4 b5 b6 b7, h = ztake 4 h ++ [b4; b5; b6; b7] ∧ length (ztake 4 h) = 4%nat.
Proof.
  unfold zlen. intros H. do 8 (destruct h as [|? h]; [done|]).
  destruct h; [|cbn in H; lia]. by eexists _, _, _, _.
Qed.

Lemma header_fields f h :
  frame_ok f → h = frame_header f →
  ntoh 4 (le_combine (ztake 4 h)) = zlen (frame_payload f) ∧ hd_at h 4 = frame_tag f ∧
  hd_at h 5 = frame_flags f ∧ hd_at h 6 = 0 ∧ hd_at h 7 = 0.
Proof.
  intros (Ht & Hfl & Hp & Hd) ->. unfold frame_header.
  rewrite ztake_app_exact by apply zlen_be.
  rewrite ntoh_be by (unfold kMaxPayloadBytes in *; zlen_lia).
  assert (∀ i z, hd_at (be 4 (zlen (frame_payload f)) ++ z) (4 + i) = hd_at z i) as Hat.
  { intros i z. unfold hd_at. rewrite lookup_app_r; rewrite be_rev, length_rev, length_le_split; [|lia].
    by replace (4 + i - 4)%nat with i by lia. }
  rewrite (Hat 0%nat), (Hat 1%nat), (Hat 2%nat), (Hat 3%nat). cbn [hd_at lookup list_lookup].
  unfold hd_at. cbn [lookup list_lookup]. rewrite !byte_unsigned_of by done. done.
Qed.

Lemma header_build h f :
  zlen h = 8 → ntoh 4 (le_combine (ztake 4 h)) = zlen (frame_payload f) →
  hd_at h 4 = frame_tag f → hd_at h 5 = frame_flags f → hd_at h 6 = 0 → hd_at h 7 = 0 →
  h = frame_header f.
Proof.
  intros Hl Hn H4 H5 H6 H7. destruct (header_split h Hl) as (b4 & b5 & b6 & b7 & Hh & Hl4).
  unfold frame_header. rewrite <- Hn, be_ntoh by done. rewrite Hh at 1. f_equal.
  assert (∀ i, hd_at h (4 + i) = hd_at [b4; b5; b6; b7] i) as Hat.
  { intros i. unfold hd_at. rewrite Hh, lookup_app_r by lia. by replace (4 + i - _)%nat with i by lia. }
  pose proof (Hat 0%nat) as A4. pose proof (Hat 1%nat) as A5.
  pose proof (Hat 2%nat) as A6. pose proof (Hat 3%nat) as A7. cbn [Nat.add] in A4, A5, A6, A7.
  rewrite A4 in H4. rewrite A5 in H5. rewrite A6 in H6. rewrite A7 in H7.
  unfold hd_at in *. cbn [lookup list_lookup] in *. rewrite <- H4, <- H5, <- H6, !byte_of_unsigned.
  rewrite <- H7 in H6. apply (f_equal byte.of_Z) in H6. rewrite !byte_of_unsigned in H6. by subst.
Qed.

Lemma ReadFrameInternal_complete fd s f rest :
  0 ≤ fd → frame_ok f → Forall benign_recv (recv_sched s) → inbox s = frame_image f ++ rest →
  ∃ sched, Forall benign_recv sched ∧
    ReadFrameInternal strerror fd s = (FrameOk, [], f, mkSock rest sched (outbox s) (send_sched s)).
Proof.
  intros Hfd Hok Hb Hin. pose proof Hok as (_ & _ & Hp & Hd).
  pose proof (zlen_frame_header f) as Hlh. pose proof (zlen_nonneg (frame_payload f)).
  assert (inbox s = frame_header f ++ (frame_payload f ++ rest)) as Hin'
    by (rewrite Hin; unfold frame_image; by rewrite app_assoc).
  destruct (ReadExactInternal_complete fd s 8 Hfd Hb) as (sc & Hsc & Hr).
  { rewrite Hin', zlen_app. zlen_lia. } { done. }
  rewrite Hin', ztake_app_exact in Hr by done.
  destruct (header_fields f _ Hok eq_refl) as (E0 & E4 & E5 & E6 & E7).
  unfold ReadFrameInternal. rewrite Hr. cbv zeta. rewrite E0, E4, E5, E6, E7.
  rewrite (proj2 (Z.ltb_ge _ _)) by lia.
  assert (is_diagnostic_tag (frame_tag f) && (kMaxDiagnosticBytes <? zlen (frame_payload f)) = false) as ->.
  { destruct (is_diagnostic_tag _); [|done]. cbn. apply Z.ltb_ge. auto. }
  cbn [negb orb Z.eqb]. unfold advance. rewrite Hin', zdrop_app_exact by done.
  destruct (zlen (frame_payload f) =? 0) eqn:E; split_bools.
  { apply zlen_nil_iff in E. exists sc. split; [done|]. destruct f as [t fl p]. cbn in *. by subst. }
  destruct (ReadExactInternal_complete fd
     (mkSock (frame_payload f ++ rest) sc (outbox s) (send_sched s)) (zlen (frame_payload f)) Hfd Hsc)
    as (sc2 & Hsc2 & ->).
  { cbn. rewrite zlen_app. zlen_lia. } { unfold kMaxPayloadBytes, SSIZE_MAX in *. lia. }
  exists sc2. split; [done|]. unfold advance. cbn [inbox outbox send_sched].
  rewrite ztake_app_exact, zdrop_app_exact by done. by destruct f.
Qed.

(** Whatever the outcome, a prefix of the stream was consumed; on success it is the
    image of the frame returned, which is within every limit. *)
Lemma ReadFrameInternal_sound fd s st d f s' :
  ReadFrameInternal strerror fd s = (st, d, f, s') →
  ∃ k sched, 0 ≤ k ≤ zlen (inbox s) ∧ s' = advance s k sched ∧ suffix sched (recv_sched s) ∧
    (st = FrameOk → frame_ok f ∧ d = [] ∧ k = zlen (frame_image f) ∧ ztake k (inbox s) = frame_image f).
Proof.
  unfold ReadFrameInternal. destruct (ReadExactInternal strerror fd s 8) as [[[st1 d1] h] s1] eqn:E1.
  apply ReadExactInternal_sound in E1 as (k1 & sc1 & Hk1 & -> & -> & Hs1 & Hok1 & _);
    [|unfold SSIZE_MAX; lia].
  assert (∀ st' d' f', st' ≠ FrameOk → (st', d', f', advance s k1 sc1) = (st, d, f, s') →
    ∃ k sched, 0 ≤ k ≤ zlen (inbox s) ∧ s' = advance s k sched ∧ suffix sched (recv_sched s) ∧
    (st = FrameOk → frame_ok f ∧ d = [] ∧ k = zlen (frame_image f) ∧ ztake k (inbox s) = frame_image f)) as Hfail.
  { intros ? ? ? Hne [= <- <- <- <-]. by exists k1, sc1. }
  destruct st1; try (by apply Hfail). specialize (Hok1 eq_refl) as ->. cbv zeta.
  set (h := ztake 8 (inbox s)) in *. set (len := ntoh 4 (le_combine (ztake 4 h))).
  assert (zlen h = 8) as Hh by (unfold h; rewrite zlen_ztake; lia).
  destruct (kMaxPayloadBytes <? len) eqn:G1; [by apply Hfail|].
  destruct (is_diagnostic_tag (hd_at h 4) && (kMaxDiagnosticBytes <? len)) eqn:G2; [by apply Hfail|].
  destruct (negb (hd_at h 6 =? 0) || negb (hd_at h 7 =? 0)) eqn:G3; [by apply Hfail|].
  split_bools.
  assert (∀ i, is_u8 (hd_at h i)) as Hu8.
  { intros i. unfold hd_at. destruct (h !! i); [apply byte.unsigned_range|word_lia]. }
  assert (∀ p, zlen p = len → h = frame_header (mkFrame (hd_at h 4) (hd_at h 5) p) ∧
    frame_ok (mkFrame (hd_at h 4) (hd_at h 5) p)) as Hhd.
  { intros p Hp. split; [by apply header_build|]. split_and!; cbn; try apply Hu8; [lia|].
    intros Hdt. rewrite Hdt in G2. cbn in G2. split_bools. lia. }
  destruct (len =? 0) eqn:G4; split_bools.
  - intros [= <- <- <- <-]. exists 8, sc1. split_and!; try done; try lia. intros _.
    destruct (Hhd []) as [Hh1 Hh2]; [by rewrite zlen_nil|]. by split_and!.
  - destruct (ReadExactInternal strerror fd (advance s 8 sc1) len) as [[[st2 d2] p] s2] eqn:E2.
    pose proof (ntoh_range 4 (ztake 4 h)) as Hlen. fold len in Hlen.
    assert (length (ztake 4 h) = 4%nat) as Hl4 by (apply Nat2Z.inj; apply (zlen_ztake 4 h); lia).
    specialize (Hlen Hl4).
    apply ReadExactInternal_sound in E2 as (k2 & sc2 & Hk2 & -> & -> & Hs2 & Hok2 & _);
      [|unfold kMaxPayloadBytes, SSIZE_MAX in *; lia].
    cbn in Hk2, Hs2. rewrite zlen_zdrop in Hk2 by lia.
    assert (suffix sc2 (recv_sched s)) by (etrans; eassumption).
    assert (∀ sc, advance (advance s 8 sc1) k2 sc = advance s (8 + k2) sc) as Hadv.
    { intros sc. unfold advance. cbn. by rewrite zdrop_zdrop by lia. }
    rewrite Hadv. destruct st2; intros [= <- <- <- <-]; exists (8 + k2), sc2;
      (split_and!; try done; try lia). intros _. specialize (Hok2 eq_refl) as ->.
    destruct (Hhd (ztake len (inbox (advance s 8 sc1)))) as [Hh1 Hh2].
    { apply zlen_ztake. cbn. rewrite zlen_zdrop; lia. }
    split_and!; try done.
    + rewrite zlen_frame_image. cbn [frame_payload]. rewrite zlen_ztake; [done|]. cbn.
      rewrite zlen_zdrop; lia.
    + rewrite ztake_add by lia. fold h. rewrite Hh1 at 1. done.
Qed.

(** ** Handshake *)

Lemma CheckHandshakeBytes_iff msg :
  zlen msg = 8 → CheckHandshakeBytes msg = true ↔ msg = handshake_bytes.
Proof.
  intros Hl. unfold CheckHandshakeBytes, handshake_bytes.
  change (le_split 2 (hton 2 ?v)) with (be 2 v).
  rewrite !andb_true_iff, bool_decide_eq_true, !Z.eqb_eq.
  assert (length (ztake 2 (zdrop 4 msg)) = 2%nat ∧ length (ztake 2 (zdrop 6 msg)) = 2%nat) as [L1 L2].
  { split; apply Nat2Z.inj; (etrans; [apply (zlen_ztake 2); rewrite zlen_zdrop; lia|done]). }
  split.
  - intros (H1 & H2 & H3). rewrite <- H1, <- H2, <- H3. unfold kMajor, kMinor.
    rewrite !be_ntoh by done.
    rewrite <- (ztake_zdrop 4 msg) at 1. f_equal. rewrite <- (ztake_zdrop 2 (zdrop 4 msg)) at 1. f_equal.
    rewrite zdrop_zdrop by lia. symmetry. apply ztake_all. rewrite zlen_zdrop; lia.
  - intros ->. vm_compute. split_and!; reflexivity.
Qed.

Lemma zlen_handshake : zlen handshake_bytes = 8.
Proof. reflexivity. Qed.

Lemma ReadExact_sound fd s n ok data s' :
  ReadExact strerror fd s n = (ok, data, s') → 0 ≤ n ≤ SSIZE_MAX →
  ∃ k sched, 0 ≤ k ≤ zlen (inbox s) ∧ data = ztake k (inbox s) ∧ s' = advance s k sched ∧
    suffix sched (recv_sched s) ∧ (ok = true → k = n).
Proof.
  unfold ReadExact. destruct (ReadExactInternal strerror fd s n) as [[[st d] dt] s1] eqn:E.
  intros H Hn. apply ReadExactInternal_sound in E as (k & sc & Hk & -> & -> & Hs & H1 & _); [|done].
  exists k, sc. destruct st; injection H as <- <- <-; naive_solver.
Qed.

Lemma ReadExact_complete fd s n :
  0 ≤ fd → Forall benign_recv (recv_sched s) → 0 ≤ n ≤ zlen (inbox s) → n ≤ SSIZE_MAX →
  ∃ sched, Forall benign_recv sched ∧
    ReadExact strerror fd s n = (true, ztake n (inbox s), advance s n sched).
Proof.
  intros Hfd Hb Hn Hm. unfold ReadExact.
  destruct (ReadExactInternal_complete fd s n Hfd Hb Hn Hm) as (sc & Hsc & ->). by exists sc.
Qed.

Lemma starts_with (pre l : bytes) n : zlen pre = n → ztake n l = pre → l = pre ++ zdrop n l.
Proof. intros Hn <-. symmetry. apply ztake_zdrop. Qed.

(** The server accepts only the eight bytes of its own version, and echoes nothing
    else. *)
Lemma ReadAndCheckHandshake_sound fd s ok s' :
  0 ≤ fd → ReadAndCheckHandshake strerror fd s = (ok, s') →
  (ok = true → inbox s = handshake_bytes ++ inbox s' ∧ outbox s' = outbox s ++ handshake_bytes) ∧
  (ztake 8 (inbox s) ≠ handshake_bytes → ok = false ∧ outbox s' = outbox s).
Proof.
  intros Hfd. unfold ReadAndCheckHandshake.
  destruct (ReadExact strerror fd s 8) as [[ok1 msg] s1] eqn:E.
  apply ReadExact_sound in E as (k & sc & Hk & -> & -> & Hs & H1); [|unfold SSIZE_MAX; lia].
  destruct ok1; [|by intros [= <- <-]]. specialize (H1 eq_refl) as ->.
  assert (zlen (ztake 8 (inbox s)) = 8) as Hl by (apply zlen_ztake; lia).
  pose proof (CheckHandshakeBytes_iff _ Hl) as Hck.
  destruct (CheckHandshakeBytes (ztake 8 (inbox s))); cbn [negb]; [|by intros [= <- <-]].
  destruct Hck as [Hck _]. specialize (Hck eq_refl). rewrite Hck.
  destruct (WriteAll_spec fd (advance s 8 sc) handshake_bytes Hfd) as (ok2 & j & sc2 & -> & Hj & _ & H3 & _);
    [rewrite zlen_handshake; unfold SSIZE_MAX; lia|].
  intros [= <- <-]. split; [|done]. intros Hok. specialize (H3 Hok) as ->.
  rewrite ztake_all by done. split; [|done]. by apply starts_with.
Qed.

Lemma ReadAndCheckHandshake_complete fd s rest :
  0 ≤ fd → benign s → inbox s = handshake_bytes ++ rest →
  ∃ s', ReadAndCheckHandshake strerror fd s = (true, s') ∧ benign s' ∧
        inbox s' = rest ∧ outbox s' = outbox s ++ handshake_bytes.
Proof.
  intros Hfd [Hb1 Hb2] Hin. unfold ReadAndCheckHandshake.
  destruct (ReadExact_complete fd s 8 Hfd Hb1) as (sc & Hsc & ->);
    [rewrite Hin, zlen_app, zlen_handshake; zlen_lia|unfold SSIZE_MAX; lia|].
  rewrite Hin, ztake_app_exact by done.
  rewrite (proj2 (CheckHandshakeBytes_iff _ zlen_handshake)) by done. cbn [negb].
  destruct (WriteAll_complete fd (advance s 8 sc) handshake_bytes Hfd) as (sc2 & Hsc2 & ->);
    [rewrite zlen_handshake; unfold SSIZE_MAX; lia|done|].
  eexists. split_and!; try done. cbn. by rewrite Hin, zdrop_app_exact.
Qed.

Lemma ClientHandshake_complete fd s rest :
  0 ≤ fd → benign s → inbox s = handshake_bytes ++ rest →
  ∃ s', ClientHandshake strerror fd s = (true, s') ∧ benign s' ∧
        inbox s' = rest ∧ outbox s' = outbox s ++ handshake_bytes.
Proof.
  intros Hfd [Hb1 Hb2] Hin. unfold ClientHandshake, WriteHandshakeBytes.
  destruct (WriteAll_complete fd s handshake_bytes Hfd) as (sc2 & Hsc2 & ->);
    [rewrite zlen_handshake; unfold SSIZE_MAX; lia|done|].
  destruct (ReadExact_complete fd (emitted s handshake_bytes sc2) 8 Hfd Hb1) as (sc & Hsc & ->);
    [cbn; rewrite Hin, zlen_app, zlen_handshake; zlen_lia|unfold SSIZE_MAX; lia|].
  cbn [inbox emitted]. rewrite Hin, ztake_app_exact by done.
  rewrite (proj2 (CheckHandshakeBytes_iff _ zlen_handshake)) by done.
  eexists. split_and!; try done. cbn. by rewrite Hin, zdrop_app_exact.
Qed.
End Facts.

(** ** Correctness of the transport *)

(** [ReadExact] is exact under every kernel schedule: it always returns; the
    bytes in the buffer are the next bytes of the stream and the rest of the stream is
    untouched; it reports success only with all the bytes asked for; and with no
    failing call and enough bytes in the stream it does succeed. *)
Theorem read_exact_correct strerror fd s n :
  0 ≤ n ≤ SSIZE_MAX →
  ∃ st d k sched,
    ReadExactInternal strerror fd s n = (st, d, ztake k (inbox s), advance s k sched) ∧
    0 ≤ k ≤ zlen (inbox s) ∧ (st = IoOk → k = n) ∧ (st ≠ IoOk → k < n ∨ fd < 0) ∧
    (0 ≤ fd → Forall benign_recv (recv_sched s) → n ≤ zlen (inbox s) → st = IoOk).
Proof.
  intros Hn. destruct (ReadExactInternal strerror fd s n) as [[[st d] data] s'] eqn:E.
  pose proof E as E'. apply ReadExactInternal_sound in E' as (k & sc & Hk & -> & -> & _ & H1 & H2); [|done].
  exists st, d, k, sc. split_and!; try done; try lia. intros Hfd Hb Hle.
  destruct (ReadExactInternal_complete strerror fd s n Hfd Hb) as (sc' & _ & E2); [lia|lia|].
  rewrite E in E2. by injection E2.
Qed.

Lemma read_exact_correct_witness :
  ∃ st d k sched,
    ReadExactInternal (λ _, []) 3 (mkSock (str "abcdef") [RChunk 0; REintr; RChunk 1] [] []) 4 =
      (st, d, ztake k (str "abcdef"), advance (mkSock (str "abcdef") [RChunk 0; REintr; RChunk 1] [] []) k sched) ∧
    0 ≤ k ≤ 6 ∧ (st = IoOk → k = 4) ∧ (st ≠ IoOk → k < 4 ∨ 3 < 0) ∧
    (0 ≤ 3 → Forall benign_recv [RChunk 0; REintr; RChunk 1] → 4 ≤ 6 → st = IoOk).
Proof.
  apply (read_exact_correct (λ _, []) 3 (mkSock (str "abcdef") [RChunk 0; REintr; RChunk 1] [] []) 4).
  unfold SSIZE_MAX. lia.
Defined.

(** The vectored write sends its buffers in order, exactly once: under every
    schedule it returns, what reached the kernel is a prefix of the concatenated
    buffers, the whole of it when it reports success, and it does report success when
    calls are only split or interrupted. *)
Theorem write_vectors_correct s vs :
  Forall (λ v, v ≠ []) vs →
  ∃ ok k s', WriteVectorsAll s vs = (ok, s') ∧ outbox s' = outbox s ++ ztake k (concat vs) ∧
    inbox s' = inbox s ∧ 0 ≤ k ≤ zlen (concat vs) ∧ (ok = true → k = zlen (concat vs)) ∧
    (Forall benign_send (send_sched s) → ok = true).
Proof.
  intros H. destruct (WriteVectorsAll_spec s vs H) as (ok & k & sc & -> & Hk & _ & H1 & H2).
  by eexists ok, k, _.
Qed.

Lemma write_vectors_correct_witness :
  ∃ ok k s', WriteVectorsAll (mkSock [] [] [] [SChunk 2; SEintr; SChunk 0]) [str "ab"; str "cde"] = (ok, s') ∧
    outbox s' = [] ++ ztake k (str "abcde") ∧ inbox s' = [] ∧ 0 ≤ k ≤ 5 ∧ (ok = true → k = 5) ∧
    (Forall benign_send [SChunk 2; SEintr; SChunk 0] → ok = true).
Proof.
  apply (write_vectors_correct (mkSock [] [] [] [SChunk 2; SEintr; SChunk 0]) [str "ab"; str "cde"]).
  repeat constructor; discriminate.
Defined.

(** A frame survives the wire: written over one socket and read from another,
    whatever the splitting and interrupting on both sides, the reader gets the same
    tag, flags and payload and stops right behind the frame. *)
Theorem frame_roundtrip strerror fd fd' s s0 f rest :
  0 ≤ fd → 0 ≤ fd' → frame_ok f → benign s → benign s0 →
  ∃ s1 wire, WriteFrame fd s (frame_tag f) (frame_flags f) (frame_payload f) = (true, s1) ∧
    outbox s1 = outbox s ++ wire ∧
    (inbox s0 = wire ++ rest → ∃ s2, ReadFrame strerror fd' s0 = (true, f, s2) ∧ inbox s2 = rest ∧ benign s2).
Proof.
  intros Hfd Hfd' Hok [_ Hb] [Hb1 Hb2].
  destruct (WriteFrame_complete fd s f Hfd Hok Hb) as (sc & _ & ->).
  eexists _, (frame_image f). split_and!; [done|done|]. intros Hin. unfold ReadFrame.
  destruct (ReadFrameInternal_complete strerror fd' s0 f rest Hfd' Hok Hb1 Hin) as (sc' & Hsc' & ->).
  by eexists.
Qed.

Definition sample_frame : Frame := mkFrame kTagRow 0 (str "payload").

Lemma frame_roundtrip_witness :
  ∃ s1 wire, WriteFrame 3 (mkSock [] [] [] [SChunk 4]) kTagRow 0 (str "payload") = (true, s1) ∧
    outbox s1 = [] ++ wire ∧
    (frame_image sample_frame ++ str "z" = wire ++ str "z" →
     ∃ s2, ReadFrame (λ _, []) 4 (mkSock (frame_image sample_frame ++ str "z") [RChunk 1; REintr] [] []) =
       (true, sample_frame, s2) ∧ inbox s2 = str "z" ∧ benign s2).
Proof.
  apply (frame_roundtrip (λ _, []) 3 4 (mkSock [] [] [] [SChunk 4])
    (mkSock (frame_image sample_frame ++ str "z") [RChunk 1; REintr] [] []) sample_frame (str "z")).
  - lia.
  - lia.
  - split_and!; cbn; try done; vm_compute; try done; split; discriminate.
  - split; repeat constructor.
  - split; repeat constructor.
Defined.

(** A frame that is accepted is within the protocol's limits and is what the peer
    sent: for every schedule and every byte stream, [ReadFrame] succeeds only when the
    stream starts with the image of the frame it returns, whose payload is at most
    1 MiB, 64 KiB for a diagnostic, and whose reserved bytes are zero. *)
Theorem read_frame_sound strerror fd s f s' :
  ReadFrame strerror fd s = (true, f, s') →
  inbox s = frame_image f ++ inbox s' ∧ zlen (frame_payload f) ≤ kMaxPayloadBytes ∧
  (is_diagnostic_tag (frame_tag f) = true → zlen (frame_payload f) ≤ kMaxDiagnosticBytes).
Proof.
  unfold ReadFrame. destruct (ReadFrameInternal strerror fd s) as [[[st d] g] s1] eqn:E.
  apply ReadFrameInternal_sound in E as (k & sc & Hk & -> & _ & Hok).
  destruct st; try discriminate. intros [= <- <-].
  destruct (Hok eq_refl) as ((_ & _ & Hp & Hd) & _ & _ & Ht). split_and!; [|done|done].
  rewrite <- Ht. cbn. by rewrite ztake_zdrop.
Qed.

Lemma read_frame_sound_witness :
  frame_image sample_frame ++ str "z" = frame_image sample_frame ++ inbox (mkSock (str "z") [] [] []) ∧
  zlen (frame_payload sample_frame) ≤ kMaxPayloadBytes ∧
  (is_diagnostic_tag (frame_tag sample_frame) = true → zlen (frame_payload sample_frame) ≤ kMaxDiagnosticBytes).
Proof.
  apply (read_frame_sound (λ _, []) 4 (mkSock (frame_image sample_frame ++ str "z") [RChunk 1] [] [])
    sample_frame (mkSock (str "z") [] [] [])).
  vm_compute. reflexivity.
Defined.

(** The handshake agrees on the version: two sides that run it over a connection
    without failures both accept, each has read exactly the other's eight bytes, and
    for every schedule a server that is offered anything else refuses it and echoes
    nothing. *)
Theorem handshake_correct strerror fd fd' s c rest crest :
  0 ≤ fd → 0 ≤ fd' → benign s → benign c →
  inbox s = handshake_bytes ++ rest → inbox c = handshake_bytes ++ crest →
  (∃ s1, ReadAndCheckHandshake strerror fd s = (true, s1) ∧ inbox s1 = rest ∧
         outbox s1 = outbox s ++ handshake_bytes) ∧
  (∃ c1, ClientHandshake strerror fd' c = (true, c1) ∧ inbox c1 = crest ∧
         outbox c1 = outbox c ++ handshake_bytes) ∧
  (∀ t ok t', ztake 8 (inbox t) ≠ handshake_bytes → ReadAndCheckHandshake strerror fd t = (ok, t') →
     ok = false ∧ outbox t' = outbox t).
Proof.
  intros Hfd Hfd' Hs Hc Hin Hin'. split_and!.
  - destruct (ReadAndCheckHandshake_complete strerror fd s rest Hfd Hs Hin) as (s1 & ? & _ & ? & ?). by exists s1.
  - destruct (ClientHandshake_complete strerror fd' c crest Hfd' Hc Hin') as (c1 & ? & _ & ? & ?). by exists c1.
  - intros t ok t' Hne Hr. apply ReadAndCheckHandshake_sound in Hr as [_ H2]; [|done]. by apply H2.
Qed.

Lemma handshake_correct_witness :
  ∃ s1, ReadAndCheckHandshake (λ _, []) 3 (mkSock (handshake_bytes ++ str "x") [RChunk 2] [] [SEintr]) = (true, s1) ∧
        inbox s1 = str "x" ∧ outbox s1 = [] ++ handshake_bytes.
Proof.
  apply (handshake_correct (λ _, []) 3 4 (mkSock (handshake_bytes ++ str "x") [RChunk 2] [] [SEintr])
    (mkSock (handshake_bytes ++ []) [] [] []) (str "x") []); try lia; try done; split; repeat constructor.
Defined.
