(* ===== verification/WireText.v ===== *)
(** * The wire client's table text

    Models the text half of [src/src/net/wire.cpp]: [CellText] and the
    [AppendTable*] family that render a result set in the fixed-width layout of the
    command-line client, with the facts that make the layout a table: every cell
    takes the same number of bytes and a cut never splits a UTF-8 character. *)

From stdpp Require Import pretty.
From S2P Require Import Prelude Wire.

(** ** [std::to_string] *)

Definition to_string (z : Z) : bytes := str (pretty z).

(** Integer part of a decimal digit string padded with zeros to [w] digits. *)
Definition pad0 (w : nat) (z : Z) : bytes :=
  let s := to_string z in replicate (w - length s) Byte.x30 ++ s.

(** [n / d] rounded to nearest, ties to even: the rounding of [printf]. *)
Definition round_half_even (n d : Z) : Z :=
  let q := n / d in
  let r := n mod d in
  if (2 * r <? d) || ((2 * r =? d) && Z.even q) then q else q + 1.

(** [std::to_string(float)]: the [%f] rendering of a binary32 bit pattern. *)
Definition float_to_string (bits : Z) : bytes :=
  let negative := 2 ^ 31 <=? bits in
  let e := (bits / 2 ^ 23) mod 2 ^ 8 in
  let frac := bits mod 2 ^ 23 in
  let sign := if negative then str "-" else [] in
  if e =? 255 then sign ++ (if frac =? 0 then str "inf" else str "nan")
  else
    let mant := if e =? 0 then frac else frac + 2 ^ 23 in
    let e2 := if e =? 0 then -149 else e - 150 in
    let micro := if 0 <=? e2 then mant * 2 ^ e2 * 10 ^ 6
                 else round_half_even (mant * 10 ^ 6) (2 ^ (- e2)) in
    sign ++ to_string (micro / 10 ^ 6) ++ str "." ++ pad0 6 (micro mod 10 ^ 6).

Example float_to_string_examples :
  float_to_string 0x3fc00000 = str "1.500000" ∧ float_to_string 0xbdcccccd = str "-0.100000" ∧
  float_to_string 0 = str "0.000000" ∧ float_to_string 0x7f800000 = str "inf" ∧
  float_to_string 0x4b800000 = str "16777216.000000".
Proof. vm_compute. split_and!; reflexivity. Qed.

Definition CellText (cell : Cell) : bytes :=
  if is_null cell then str "NULL"
  else if cell_sql_type cell =? kTypeInt32 then to_string (int_val cell)
  else if cell_sql_type cell =? kTypeFloat32 then float_to_string (float_val cell)
  else str_val cell.

(** ** The fixed-width layout *)

Definition kPrettyColWidth : nat := 16.

(** A UTF-8 continuation byte: [(c & 0xc0) == 0x80]. *)
Definition is_continuation (b : byte) : bool := Z.land (byte.unsigned b) 0xc0 =? 0x80.

(** The truncation loop: [prefix_size] moves left over continuation bytes. *)
Fixpoint cut_at (value : bytes) (prefix_size : nat) : nat :=
  match prefix_size with
  | O => O
  | S p =>
    if (prefix_size <? length value)%nat &&
       match value !! prefix_size with Some b => is_continuation b | None => false end
    then cut_at value p else prefix_size
  end.

Definition clip (value : bytes) : bytes :=
  if (kPrettyColWidth <? length value)%nat
  then take (cut_at value (kPrettyColWidth - 3)) value ++ str "..."
  else value.

Definition AppendTableCell (out value : bytes) : bytes :=
  let value := clip value in
  let out := out ++ str "| " in
  let out := if (length value <? kPrettyColWidth)%nat
             then out ++ replicate (kPrettyColWidth - length value) Byte.x20 else out in
  (out ++ value) ++ [Byte.x20].

Fixpoint separator_cells (num_cols : nat) (out : bytes) : bytes :=
  match num_cols with
  | O => out
  | S n => separator_cells n ((out ++ [Byte.x2b]) ++ replicate (kPrettyColWidth + 2) Byte.x2d)
  end.

Definition newline : bytes := [Byte.x0a].

Definition AppendSeparator (out : bytes) (num_cols : nat) : bytes :=
  separator_cells num_cols out ++ str "+" ++ newline.

Definition AppendTableHeader (out : bytes) (columns : list ColumnDef) : bytes :=
  let out := AppendSeparator out (length columns) in
  let out := foldl (λ out column, AppendTableCell out (column_name column)) out columns in
  let out := out ++ str "|" ++ newline in
  AppendSeparator out (length columns).

Definition AppendTableRow (out : bytes) (row : list Cell) : bytes :=
  foldl (λ out cell, AppendTableCell out (CellText cell)) out row ++ str "|" ++ newline.

(** ** Layout *)

(** A table line of [n] columns: everything the four functions append is such a line. *)
Definition line_width (n : nat) : nat := (kPrettyColWidth + 3) * n + 2.

Lemma cut_at_le value p : (cut_at value p ≤ p)%nat.
Proof.
  induction p as [|p IH]; cbn [cut_at]; [done|]. destruct (_ && _); lia.
Qed.

Lemma clip_length value : (length (clip value) ≤ kPrettyColWidth)%nat.
Proof.
  unfold clip. destruct (Nat.ltb_spec kPrettyColWidth (length value)); [|done].
  rewrite length_app, length_take. pose proof (cut_at_le value (kPrettyColWidth - 3)).
  unfold kPrettyColWidth in *. cbn [length str String.list_byte_of_string String.list_ascii_of_string map]. lia.
Qed.

(** The bytes one cell contributes. *)
Definition table_cell (value : bytes) : bytes :=
  str "| " ++ replicate (kPrettyColWidth - length (clip value)) Byte.x20 ++ clip value ++ [Byte.x20].

Lemma AppendTableCell_eq out value : AppendTableCell out value = out ++ table_cell value.
Proof.
  unfold AppendTableCell, table_cell. cbv zeta.
  destruct (Nat.ltb_spec (length (clip value)) kPrettyColWidth).
  - by rewrite <- !app_assoc.
  - replace (kPrettyColWidth - _)%nat with 0%nat by lia. by rewrite <- !app_assoc.
Qed.

Lemma table_cell_width value : length (table_cell value) = (kPrettyColWidth + 3)%nat.
Proof.
  pose proof (clip_length value). unfold table_cell. rewrite !length_app, length_replicate.
  change (length (str "| ")) with 2%nat. change (length [Byte.x20]) with 1%nat. lia.
Qed.

Lemma foldl_table_cells {A} (f : A → bytes) l out :
  ∃ t, foldl (λ out x, AppendTableCell out (f x)) out l = out ++ t ∧
       length t = ((kPrettyColWidth + 3) * length l)%nat.
Proof.
  revert out. induction l as [|x l IH]; intros out; cbn [foldl].
  - exists []. by rewrite app_nil_r, Nat.mul_0_r.
  - destruct (IH (AppendTableCell out (f x))) as (t & -> & Ht).
    exists (table_cell (f x) ++ t). rewrite AppendTableCell_eq, <- app_assoc. split; [done|].
    rewrite length_app, table_cell_width, Ht. cbn [length]. lia.
Qed.

Lemma separator_cells_width n out :
  ∃ t, separator_cells n out = out ++ t ∧ length t = ((kPrettyColWidth + 3) * n)%nat.
Proof.
  revert out. induction n as [|n IH]; intros out; cbn [separator_cells].
  - exists []. by rewrite app_nil_r, Nat.mul_0_r.
  - destruct (IH ((out ++ [Byte.x2b]) ++ replicate (kPrettyColWidth + 2) Byte.x2d)) as (t & -> & Ht).
    eexists. rewrite <- !app_assoc. split; [done|]. rewrite !length_app, Ht, length_replicate.
    change (length [Byte.x2b]) with 1%nat. lia.
Qed.

Lemma AppendSeparator_width n out :
  ∃ line, AppendSeparator out n = out ++ line ∧ length line = line_width n.
Proof.
  unfold AppendSeparator. destruct (separator_cells_width n out) as (t & -> & Ht).
  eexists. rewrite <- app_assoc. split; [done|]. rewrite length_app, Ht. done.
Qed.

Lemma AppendTableRow_width out row :
  ∃ line, AppendTableRow out row = out ++ line ∧ length line = line_width (length row).
Proof.
  unfold AppendTableRow. destruct (foldl_table_cells CellText row out) as (t & -> & Ht).
  eexists. rewrite <- app_assoc. split; [done|]. rewrite length_app, Ht. done.
Qed.

(** The cut stops at a character boundary: at zero, past the end, or at a byte that
    starts a character. *)
Lemma cut_at_boundary value p :
  cut_at value p = 0%nat ∨ value !! cut_at value p = None ∨
  ∃ b, value !! cut_at value p = Some b ∧ is_continuation b = false.
Proof.
  induction p as [|p IH]; cbn [cut_at]; [by left|].
  destruct ((S p <? length value)%nat && _) eqn:E; [done|]. right.
  destruct (value !! S p) as [b|] eqn:Eb; [|by left]. right. exists b. split; [done|].
  apply lookup_lt_Some in Eb. apply andb_false_iff in E as [E|E]; [|done].
  apply Nat.ltb_ge in E. lia.
Qed.

(** A text encoded in UTF-8 is a sequence of characters, each a lead byte followed by
    its continuation bytes. *)
Definition utf8_char (c : bytes) : Prop :=
  ∃ b bs, c = b :: bs ∧ is_continuation b = false ∧ Forall (λ b, is_continuation b = true) bs.

(** A position that does not hold a continuation byte is a character boundary. *)
Lemma boundary_prefix cs p b :
  Forall utf8_char cs → concat cs !! p = Some b → is_continuation b = false →
  ∃ k, take p (concat cs) = concat (take k cs).
Proof.
  intros H. revert p. induction H as [|c cs (x & xs & -> & Hx & Hxs) _ IH]; intros p Hp Hb; [done|].
  cbn [concat] in *. destruct p as [|p]; [by exists 0%nat|].
  destruct (Nat.lt_ge_cases (S p) (length (x :: xs))) as [Hlt|Hge].
  - rewrite lookup_app_l in Hp by done. cbn in Hp. rewrite Forall_lookup in Hxs.
    by rewrite (Hxs _ _ Hp) in Hb.
  - rewrite lookup_app_r in Hp by done.
    destruct (IH _ Hp Hb) as (k & Hk). exists (S k). cbn [take concat].
    rewrite take_app_ge by done. by rewrite Hk.
Qed.

(** Every line of a rendered table has the same number of bytes: the separator,
    the header and each row of an [n]-column result append lines of exactly
    [19 * n + 2] bytes, whatever the names and values are. *)
Theorem table_lines_aligned out columns row :
  (∃ sep, AppendSeparator out (length columns) = out ++ sep ∧
          length sep = line_width (length columns)) ∧
  (∃ l1 l2 l3, AppendTableHeader out columns = out ++ l1 ++ l2 ++ l3 ∧
     length l1 = line_width (length columns) ∧ length l2 = line_width (length columns) ∧
     length l3 = line_width (length columns)) ∧
  (∃ line, AppendTableRow out row = out ++ line ∧ length line = line_width (length row)).
Proof.
  split_and!; [apply AppendSeparator_width| |apply AppendTableRow_width].
  unfold AppendTableHeader. cbv zeta.
  destruct (AppendSeparator_width (length columns) out) as (l1 & -> & H1).
  destruct (foldl_table_cells column_name columns (out ++ l1)) as (l2 & -> & H2).
  destruct (AppendSeparator_width (length columns) (((out ++ l1) ++ l2) ++ str "|" ++ newline))
    as (l3 & -> & H3).
  exists l1, (l2 ++ str "|" ++ newline), l3. rewrite <- !app_assoc. split_and!; try done.
  rewrite length_app, H2. done.
Qed.

(** Truncation respects UTF-8: when a value that is a sequence of UTF-8
    characters is too wide for its column, what is kept in front of the ellipsis is a
    whole number of its characters. *)
Theorem clip_utf8 (cs : list bytes) :
  Forall utf8_char cs → (kPrettyColWidth < length (concat cs))%nat →
  ∃ k, clip (concat cs) = concat (take k cs) ++ str "...".
Proof.
  intros Hcs Hlen. unfold clip. rewrite (proj2 (Nat.ltb_lt _ _)) by done.
  destruct (cut_at_boundary (concat cs) (kPrettyColWidth - 3)) as [->|[Hn|(b & Hb & Hc)]].
  - by exists 0%nat.
  - apply lookup_ge_None in Hn. pose proof (cut_at_le (concat cs) (kPrettyColWidth - 3)). lia.
  - destruct (boundary_prefix cs _ b Hcs Hb Hc) as (k & ->). by exists k.
Qed.

Definition accented : list bytes :=
  [str "aaaaaaaaaaaa"; [Byte.xc3; Byte.xa9]; str "bbbb"] ≫= λ s,
  match s with [Byte.xc3; Byte.xa9] => [s] | _ => map (λ b, [b]) s end.

Lemma clip_utf8_witness : ∃ k, clip (concat accented) = concat (take k accented) ++ str "...".
Proof.
  apply clip_utf8.
  - vm_compute. repeat constructor; (eexists _, _; split_and!; [reflexivity|reflexivity|]; repeat constructor).
  - vm_compute. lia.
Defined.
