(* ===== verification/WireClient.v ===== *)
(** * The wire client: one request, its response stream, and the connection

    Models [ExecStreamResult] and [ExecStream] of [src/src/net/wire.cpp], the result
    types of [src/src/net/wire.h] and the connection state of [Client] in
    [src/src/net/client.cpp].  The response state machine is a step function on the
    loop's local variables; the loop around it reads one frame per turn from the
    socket of [WireIO].  The caller's callbacks are state-passing functions that
    return, refuse or throw. *)

From S2P Require Import Prelude Wire WireCodec WireText WireIO WireTransport.

Inductive ExecuteStatus :=
| CommandOk | ResultSet | SqlError | TransactionAbort
| InvalidRequest | TransportError | ProtocolError | ConsumerStopped.

#[global] Instance ExecuteStatus_eq_dec : EqDecision ExecuteStatus.
Proof. solve_decision. Defined.

Record ExecuteResult := mkResult {
  status : ExecuteStatus; columns : list ColumnDef; row_count : Z; text : bytes; diagnostic : bytes }.

(** [ExecuteResult result;] *)
Definition ExecuteResult_default : ExecuteResult := mkResult InvalidRequest [] 0 [] [].

Definition result_ok (r : ExecuteResult) : bool :=
  bool_decide (status r = CommandOk) || bool_decide (status r = ResultSet).

Definition connection_reusable (r : ExecuteResult) : bool :=
  bool_decide (status r = CommandOk) || bool_decide (status r = ResultSet) ||
  bool_decide (status r = SqlError) || bool_decide (status r = TransactionAbort) ||
  bool_decide (status r = InvalidRequest) || bool_decide (status r = ConsumerStopped).

(** What a [std::function<bool(...)>] consumer does when it is called. *)
Inductive callback_outcome :=
| CbContinue                 (** returns [true] *)
| CbStop                     (** returns [false] *)
| CbThrow (what : bytes)     (** throws a [std::exception] *)
| CbThrowOther.              (** throws anything else *)

Section Client.
Context (strerror : Z → bytes).
(** [std::strerror(errno)] after a failed write on this socket. *)
Context (write_error : Sock → bytes).
(** The state the caller's callbacks share. *)
Context {St : Type}.

Record ExecuteOptions := mkOptions {
  format_text : bool;
  on_meta : option (St → list ColumnDef → callback_outcome * St);
  on_row : option (St → list Cell → callback_outcome * St) }.

Inductive ResponseState := AwaitFirst | Rows.

(** The local variables of the response loop. *)
Record Loop := mkLoop {
  state : ResponseState; observed_rows : Z; consumer_stopped : bool;
  consumer_diagnostic : bytes; raw_text_result : bool; result_ : ExecuteResult; consumer : St }.

(** A turn of the loop returns the result, or goes round again. *)
Inductive turn := Return (r : ExecuteResult) (c : St) | Next (l : Loop).

Definition fail_protocol (l : Loop) (cols : list ColumnDef) (d : string) : turn :=
  let r := result_ l in
  Return (mkResult ProtocolError cols (row_count r) (text r) (str d)) (consumer l).

(** The columns already pushed when the META loop stops. *)
Fixpoint pushed_columns (n : nat) (payload : bytes) (off : Z) : list ColumnDef :=
  match n with
  | O => []
  | S n =>
    match decode_column payload off with
    | inl _ => []
    | inr (column, off) => column :: pushed_columns n payload off
    end
  end.

Definition meta_pushed (payload : bytes) : list ColumnDef :=
  match ReadU16 payload 0 with
  | Some (column_count, off) => pushed_columns (Z.to_nat column_count) payload off
  | None => []
  end.

(** [try { if (!cb(arg)) ... } catch ...]: whether the consumer stopped and why. *)
Definition call_consumer {A} (cb : St → A → callback_outcome * St) (c : St) (arg : A)
    (who : string) : option bytes * St :=
  let '(out, c) := cb c arg in
  (match out with
   | CbContinue => None
   | CbStop => Some (str (who +:+ " consumer requested stop"))
   | CbThrow what => Some (str (who +:+ " consumer failed: ") ++ what)
   | CbThrowOther => Some (str (who +:+ " consumer failed"))
   end, c).

Definition on_meta_frame (options : ExecuteOptions) (frame : Frame) (l : Loop) : turn :=
  let r := result_ l in
  if negb (Z.land (frame_flags frame) (Z.lxor kFlagRawText 0xffffffff) =? 0)
  then fail_protocol l (columns r) "invalid META flags"
  else match state l with
  | Rows => fail_protocol l (columns r) "duplicate META"
  | AwaitFirst =>
    match DecodeMeta (frame_payload frame) with
    | inl e =>
      fail_protocol l (if bool_decide (e = "invalid META"%string) then columns r
                       else meta_pushed (frame_payload frame)) e
    | inr cols =>
      let raw := negb (Z.land (frame_flags frame) kFlagRawText =? 0) in
      if raw && (negb (zlen cols =? 1) ||
                 match cols with c :: _ => negb (column_sql_type c =? kTypeChar) | [] => true end)
      then fail_protocol l cols "raw text META must contain one CHAR column"
      else
        let '(stop, c) := match on_meta options with
                          | Some cb => call_consumer cb (consumer l) cols "metadata"
                          | None => (None, consumer l)
                          end in
        let stopped := match stop with Some _ => true | None => consumer_stopped l end in
        let diag := match stop with Some d => d | None => consumer_diagnostic l end in
        let txt := if format_text options && negb stopped && negb raw
                   then AppendTableHeader (text r) cols else text r in
        Next (mkLoop Rows (observed_rows l) stopped diag raw
                (mkResult (status r) cols (row_count r) txt (diagnostic r)) c)
    end
  end.

Definition on_row_frame (options : ExecuteOptions) (frame : Frame) (l : Loop) : turn :=
  let r := result_ l in
  if negb (frame_flags frame =? 0) ||
     (match state l with Rows => false | AwaitFirst => true end) || (zlen (columns r) =? 0)
  then fail_protocol l (columns r) "ROW before META"
  else match DecodeRow (columns r) (frame_payload frame) with
  | inl e => fail_protocol l (columns r) e
  | inr row =>
    let observed := u64 (observed_rows l + 1) in
    let '(stop, c) :=
      if consumer_stopped l then (None, consumer l) else
      match on_row options with
      | Some cb => call_consumer cb (consumer l) row "row"
      | None => (None, consumer l)
      end in
    let stopped := match stop with Some _ => true | None => consumer_stopped l end in
    let diag := match stop with Some d => d | None => consumer_diagnostic l end in
    let txt :=
      if format_text options && negb stopped then
        if raw_text_result l then
          match row with
          | cell :: _ => if negb (is_null cell) then text r ++ str_val cell else text r
          | [] => text r
          end
        else AppendTableRow (text r) row
      else text r in
    Next (mkLoop (state l) observed stopped diag (raw_text_result l)
            (mkResult (status r) (columns r) (row_count r) txt (diagnostic r)) c)
  end.

Definition on_end_frame (options : ExecuteOptions) (frame : Frame) (l : Loop) : turn :=
  let r := result_ l in
  if negb (frame_flags frame =? 0) || (match state l with Rows => false | AwaitFirst => true end)
  then fail_protocol l (columns r) "RESULT_END before META"
  else match DecodeResultEnd (frame_payload frame) with
  | inl e => fail_protocol l (columns r) e
  | inr declared_rows =>
    if negb (declared_rows =? observed_rows l)
    then fail_protocol l (columns r) "RESULT_END row count mismatch"
    else
      let txt :=
        if format_text options && negb (consumer_stopped l) && negb (raw_text_result l)
        then AppendSeparator (text r) (length (columns r)) ++
             str "Total record(s): " ++ to_string declared_rows ++ newline
        else text r in
      if consumer_stopped l
      then Return (mkResult ConsumerStopped (columns r) declared_rows txt (consumer_diagnostic l)) (consumer l)
      else Return (mkResult ResultSet (columns r) declared_rows txt (diagnostic r)) (consumer l)
  end.

(** [switch (frame.tag)] *)
Definition on_frame (options : ExecuteOptions) (frame : Frame) (l : Loop) : turn :=
  let r := result_ l in
  let tag := frame_tag frame in
  if tag =? kTagCommandOk then
    if negb (frame_flags frame =? 0) || (match state l with AwaitFirst => false | Rows => true end) ||
       negb (zlen (frame_payload frame) =? 0)
    then fail_protocol l (columns r) "invalid COMMAND_OK"
    else Return (mkResult CommandOk (columns r) (row_count r) (text r) (diagnostic r)) (consumer l)
  else if (tag =? kTagError) || (tag =? kTagTransactionAbort) then
    if negb (frame_flags frame =? 0)
    then fail_protocol l (columns r) "invalid error response flags"
    else Return (mkResult (if tag =? kTagError then SqlError else TransactionAbort)
                   (columns r) (row_count r) [] (frame_payload frame)) (consumer l)
  else if tag =? kTagMeta then on_meta_frame options frame l
  else if tag =? kTagRow then on_row_frame options frame l
  else if tag =? kTagResultEnd then on_end_frame options frame l
  else fail_protocol l (columns r) "unknown response tag".

(** The [while (true)] loop; [None] is "out of fuel". *)
Fixpoint response_loop (fuel : nat) (fd : Z) (options : ExecuteOptions) (s : Sock) (l : Loop)
  : option (ExecuteResult * St * Sock) :=
  match fuel with
  | O => None
  | S fuel =>
    match ReadFrameInternal strerror fd s with
    | (FrameOk, _, frame, s) =>
      match on_frame options frame l with
      | Return r c => Some (r, c, s)
      | Next l => response_loop fuel fd options s l
      end
    | (st, read_diagnostic, _, s) =>
      let r := result_ l in
      Some (mkResult (match st with FrameProtocolError => ProtocolError | _ => TransportError end)
              (columns r) (row_count r) (text r) read_diagnostic, consumer l, s)
    end
  end.

Definition initial_loop (c : St) : Loop :=
  mkLoop AwaitFirst 0 false [] false ExecuteResult_default c.

(** A frame takes at least eight bytes off the stream: [length (inbox s) + 1] turns
    are enough. *)
Definition ExecStreamResult (fd : Z) (s : Sock) (sql : bytes) (options : ExecuteOptions) (c : St)
  : ExecuteResult * St * Sock :=
  if fd <? 0 then (mkResult TransportError [] 0 [] (str "connection is not open"), c, s)
  else if (zlen sql =? 0) || (kMaxPayloadBytes <? zlen sql)
  then (mkResult InvalidRequest [] 0 [] (str "invalid SQL payload size"), c, s)
  else match WriteFrame fd s kTagExecStream 0 sql with
  | (false, s) =>
    (mkResult TransportError [] 0 [] (str "failed to send EXEC_STREAM: " ++ write_error s), c, s)
  | (true, s) =>
    default (ExecuteResult_default, c, s)
      (response_loop (S (length (inbox s))) fd options s (initial_loop c))
  end.

End Client.

Arguments mkOptions {St} _ _ _.
Arguments mkLoop {St} _ _ _ _ _ _ _.
Arguments Return {St} _ _.
Arguments Next {St} _.

(** [ExecStream]: success, response text (when asked for) and diagnostic. *)
Definition ExecStream (strerror : Z → bytes) (write_error : Sock → bytes) (fd : Z) (s : Sock)
    (sql : bytes) (want_text : bool) : bool * bytes * bytes * Sock :=
  let options := mkOptions (St := unit) want_text None None in
  let '(r, _, s) := ExecStreamResult strerror write_error fd s sql options tt in
  (result_ok r, text r, diagnostic r, s).

(** ** The response grammar

    What a server may answer to one request, from the state the client is in, with
    [n] rows already seen: a single COMMAND_OK; an ERROR or TRANSACTION_ABORT at any
    point; or META, ROWs, and a RESULT_END that declares the number of rows. *)
Inductive response : ResponseState → Z → list Frame → Prop :=
| resp_command_ok n f :
    frame_tag f = kTagCommandOk → frame_flags f = 0 → frame_payload f = [] → response AwaitFirst n [f]
| resp_error st n f :
    frame_tag f = kTagError ∨ frame_tag f = kTagTransactionAbort → frame_flags f = 0 → response st n [f]
| resp_end n f :
    frame_tag f = kTagResultEnd → frame_flags f = 0 → DecodeResultEnd (frame_payload f) = inr n →
    response Rows n [f]
| resp_meta n f fs cols :
    frame_tag f = kTagMeta → DecodeMeta (frame_payload f) = inr cols → response Rows n fs →
    response AwaitFirst n (f :: fs)
| resp_row n f fs cols row :
    frame_tag f = kTagRow → frame_flags f = 0 → DecodeRow cols (frame_payload f) = inr row →
    response Rows (u64 (n + 1)) fs → response Rows n (f :: fs).

Section Facts.
Context (strerror : Z → bytes) (write_error : Sock → bytes) {St : Type}.
Implicit Types (options : ExecuteOptions (St := St)) (l : Loop (St := St)) (c : St).

(** The shape of one turn: a reusable return ends the response there, [Next] stays
    inside it. *)
Lemma fail_protocol_not_reusable l cols d r c :
  fail_protocol l cols d = Return r c → connection_reusable r = true → False.
Proof. unfold fail_protocol. by intros [= <- <-]. Qed.

Lemma on_frame_turn options f l :
  match on_frame options f l with
  | Return r _ => connection_reusable r = true →
      response (state l) (observed_rows l) [f] ∧ status r ≠ InvalidRequest
  | Next l' => ∀ fs, response (state l') (observed_rows l') fs →
      response (state l) (observed_rows l) (f :: fs)
  end.
Proof.
  unfold on_frame. cbv zeta.
  destruct (frame_tag f =? kTagCommandOk) eqn:T1; split_bools.
  { destruct (negb (frame_flags f =? 0)) eqn:F; [done|]. destruct (state l) eqn:Es; [|done].
    cbn [orb]. destruct (zlen (frame_payload f) =? 0) eqn:P; [|done]. cbn. split_bools.
    intros _. split; [|done]. constructor; [done|done|]. by apply zlen_nil_iff. }
  destruct ((frame_tag f =? kTagError) || (frame_tag f =? kTagTransactionAbort)) eqn:T2.
  { destruct (frame_flags f =? 0) eqn:F; [|done]. cbn [negb]. split_bools.
    intros _. split; [|cbn; by destruct (_ =? _)]. constructor; [|done].
    apply orb_true_iff in T2 as [T|T]; split_bools; auto. }
  destruct (frame_tag f =? kTagMeta) eqn:T3; split_bools.
  { unfold on_meta_frame. cbv zeta. destruct (negb (_ =? 0)); [done|].
    destruct (state l) eqn:Es; [|done]. destruct (DecodeMeta _) as [e|cols] eqn:D; [done|].
    destruct (_ && _); [done|]. destruct (match on_meta options with Some _ => _ | None => _ end) as [stop c'].
    cbn. intros fs Hfs. by econstructor. }
  destruct (frame_tag f =? kTagRow) eqn:T4; split_bools.
  { unfold on_row_frame. cbv zeta. destruct (frame_flags f =? 0) eqn:F; [|done].
    destruct (state l) eqn:Es; [done|]. cbn [negb orb].
    destruct (zlen _ =? 0); [done|]. destruct (DecodeRow _ _) as [e|row] eqn:D; [done|].
    destruct (if consumer_stopped l then _ else _) as [stop c'].
    cbn. split_bools. intros fs Hfs. by econstructor. }
  destruct (frame_tag f =? kTagResultEnd) eqn:T5; [|done]. split_bools.
  unfold on_end_frame. cbv zeta. destruct (frame_flags f =? 0) eqn:F; [|done].
  destruct (state l) eqn:Es; [done|]. cbn [negb orb].
  destruct (DecodeResultEnd _) as [e|n] eqn:D; [done|].
  destruct (n =? observed_rows l) eqn:En; [|done]. cbn [negb]. split_bools. subst n.
  destruct (consumer_stopped l); intros _; (split; [|done]); by constructor.
Qed.

(** The loop returns within its fuel. *)
Lemma response_loop_total fuel fd options s l :
  (length (inbox s) < fuel)%nat → is_Some (response_loop strerror fuel fd options s l).
Proof.
  revert s l. induction fuel as [|fuel IH]; intros s l Hf; [lia|]. cbn [response_loop].
  destruct (ReadFrameInternal strerror fd s) as [[[st d] f] s'] eqn:E.
  apply ReadFrameInternal_sound in E as (k & sc & Hk & -> & _ & Hok).
  destruct st; [|done..]. destruct (Hok eq_refl) as (_ & _ & Hk8 & _).
  destruct (on_frame options f l); [done|]. apply IH. cbn [inbox advance].
  rewrite zlen_frame_image in Hk8. pose proof (zlen_nonneg (frame_payload f)).
  unfold zdrop, zlen in *. rewrite length_drop. lia.
Qed.

(** A reusable result leaves the stream right behind a complete response. *)
Lemma response_loop_sync fuel fd options s l r c s' :
  response_loop strerror fuel fd options s l = Some (r, c, s') →
  connection_reusable r = true →
  status r ≠ InvalidRequest ∧
  ∃ fs, response (state l) (observed_rows l) fs ∧ Forall frame_ok fs ∧
        inbox s = concat (map frame_image fs) ++ inbox s'.
Proof.
  revert s l. induction fuel as [|fuel IH]; intros s l; [done|]. cbn [response_loop].
  destruct (ReadFrameInternal strerror fd s) as [[[st d] f] s1] eqn:E.
  apply ReadFrameInternal_sound in E as (k & sc & Hk & -> & _ & Hok).
  destruct st; [|by intros [= <- <- <-]..]. destruct (Hok eq_refl) as (Hf & _ & _ & Hk2).
  assert (inbox s = frame_image f ++ inbox (advance s k sc)) as Hin.
  { rewrite <- Hk2. cbn. by rewrite ztake_zdrop. }
  pose proof (on_frame_turn options f l) as Ht. destruct (on_frame options f l) as [r' c'|l'].
  - intros [= <- <- <-] Hre. destruct (Ht Hre) as [Hresp Hst]. split; [done|]. exists [f].
    split_and!; [done|by constructor|]. cbn [map concat]. by rewrite app_nil_r.
  - intros Hrun Hre. destruct (IH _ _ Hrun Hre) as (Hst & fs & Hfs & Hall & Hin2). split; [done|].
    exists (f :: fs). split_and!; [by apply Ht|by constructor|]. cbn [map concat].
    by rewrite Hin, Hin2, app_assoc.
Qed.
End Facts.

(** C4. The client always returns, and when it calls the connection reusable, the
    stream is synchronised: either the request was refused before anything was sent,
    or the bytes consumed are exactly the frames of one complete response (COMMAND_OK;
    ERROR or TRANSACTION_ABORT; or META, ROWs and a RESULT_END whose row count agrees),
    for every kernel schedule, every peer and every consumer callback. *)
Theorem reusable_stream_synchronised {St} strerror write_error fd s sql options (c : St) r c' s' :
  ExecStreamResult strerror write_error fd s sql options c = (r, c', s') →
  connection_reusable r = true →
  (status r = InvalidRequest ∧ s' = s) ∨
  (∃ fs, response AwaitFirst 0 fs ∧ Forall frame_ok fs ∧
         inbox s = concat (map frame_image fs) ++ inbox s').
Proof.
  unfold ExecStreamResult. destruct (fd <? 0) eqn:Efd; [by intros [= <- <- <-]|].
  destruct (_ || _) eqn:Esql; [intros [= <- <- <-]; by left|].
  split_bools.
  destruct (WriteFrame_spec fd s (mkFrame kTagExecStream 0 sql)) as (ok & k & sc & Hw & _ & _ & _ & _);
    [done|split_and!; cbn; try done; try (unfold kTagExecStream; word_lia)|]. cbn in Hw. rewrite Hw.
  destruct ok; [|by intros [= <- <- <-]]. cbn [inbox emitted].
  destruct (response_loop_total strerror (S (length (inbox s))) fd options
    (emitted s (ztake k (frame_image (mkFrame kTagExecStream 0 sql))) sc) (initial_loop c)) as [out Hout];
    [cbn; lia|].
  rewrite Hout. unfold id. cbn [from_option]. intros -> Hre. right.
  destruct (response_loop_sync _ _ _ _ _ _ _ _ _ Hout Hre) as (_ & fs & Hfs). by exists fs.
Qed.

Lemma reusable_stream_synchronised_witness :
  let s := mkSock (frame_image (mkFrame kTagError 0 (str "no such table")) ++ str "next") [RChunk 5] [] [] in
  let '(r, _, s') := ExecStreamResult (λ _, []) (λ _, []) 3 s (str "select") (mkOptions true None None) tt in
  (status r = InvalidRequest ∧ s' = s) ∨
  (∃ fs, response AwaitFirst 0 fs ∧ Forall frame_ok fs ∧
         inbox s = concat (map frame_image fs) ++ inbox s').
Proof.
  cbv zeta. destruct (ExecStreamResult _ _ _ _ _ _ _) as [[r c'] s'] eqn:E.
  eapply reusable_stream_synchronised; [exact E|]. vm_compute in E. by injection E as <- _ _.
Defined.
