(* ===== verification/WireExchange.v ===== *)
(** * A complete response, read by the client

    The client's view of a well-formed result stream: the frames a schema and its
    rows are sent as ([result_frames]), and what [ExecStreamResult] makes of them: the
    callbacks see the schema and every row in order, the text is the table, the status
    is [ResultSet] and the stream is left right behind the response. *)

From S2P Require Import Prelude Wire WireCodec WireText WireIO WireTransport WireClient.

(** A row fits a schema: the types agree, the members are in range, and the encoded
    row is within a frame. *)
Definition row_fits (cols : list ColumnDef) (row : list Cell) : Prop :=
  map cell_sql_type row = map column_sql_type cols ∧ Forall cell_wf row ∧ Forall cell_ok row ∧
  zlen (row_image row) ≤ kMaxPayloadBytes.

Definition schema_fits (cols : list ColumnDef) : Prop :=
  1 ≤ zlen cols ≤ 65535 ∧ Forall column_ok cols ∧
  zlen (be 2 (zlen cols) ++ columns_image cols) ≤ kMaxPayloadBytes.

Definition meta_frame (flags : Z) (cols : list ColumnDef) : Frame :=
  mkFrame kTagMeta flags (be 2 (zlen cols) ++ columns_image cols).
Definition row_frame (row : list Cell) : Frame := mkFrame kTagRow 0 (row_image row).
Definition end_frame (n : Z) : Frame := mkFrame kTagResultEnd 0 (EncodeResultEnd n).

Definition result_frames (flags : Z) (cols : list ColumnDef) (rows : list (list Cell)) : list Frame :=
  meta_frame flags cols :: map row_frame rows ++ [end_frame (zlen rows)].

Definition frames_image (fs : list Frame) : bytes := concat (map frame_image fs).

Lemma frames_image_app a b : frames_image (a ++ b) = frames_image a ++ frames_image b.
Proof. unfold frames_image. by rewrite map_app, concat_app. Qed.

Lemma frames_image_length fs : (length fs ≤ length (frames_image fs))%nat.
Proof.
  unfold frames_image. induction fs as [|f fs IH]; [done|]. cbn [map concat length]. rewrite length_app.
  pose proof (zlen_frame_image f). pose proof (zlen_nonneg (frame_payload f)). unfold zlen in *. lia.
Qed.

Lemma row_decodes cols row : row_fits cols row → DecodeRow cols (row_image row) = inr (map canon_cell row).
Proof.
  intros (Hty & Hwf & Hok & _). apply DecodeRow_iff. split_and!.
  - rewrite <- Hty, map_map. apply map_ext. intros c. unfold canon_cell. by repeat case_match.
  - apply Forall_map. rewrite Forall_forall in Hwf, Hok |- *. intros c Hc.
    apply canon_cell_canonical; auto.
  - unfold row_image. rewrite map_map. f_equal. apply map_ext_in. intros c Hc.
    symmetry. apply canon_cell_image. apply list_elem_of_In in Hc.
    rewrite Forall_forall in Hok. by apply Hok.
Qed.

Lemma row_frame_ok cols row : row_fits cols row → frame_ok (row_frame row).
Proof. intros (_ & _ & _ & H). split_and!; cbn; try done; unfold kTagRow; word_lia. Qed.

Lemma meta_frame_ok fl cols : schema_fits cols → is_u8 fl → frame_ok (meta_frame fl cols).
Proof. intros (_ & _ & H) Hf. split_and!; cbn; try done; unfold kTagMeta; word_lia. Qed.

Lemma zlen_EncodeResultEnd n : is_u64 n → zlen (EncodeResultEnd n) = 8.
Proof. intros H. unfold EncodeResultEnd. rewrite AppendU64_be by done. by rewrite !zlen_app, !zlen_be. Qed.

Lemma end_frame_ok n : is_u64 n → frame_ok (end_frame n).
Proof.
  intros Hn. split_and!; cbn [end_frame frame_tag frame_flags frame_payload];
    try rewrite zlen_EncodeResultEnd by done; unfold kTagResultEnd, kMaxPayloadBytes, kMaxDiagnosticBytes;
    try word_lia.
Qed.

(** The text of the table the client renders. *)
Definition table_text (cols : list ColumnDef) (rows : list (list Cell)) : bytes :=
  AppendSeparator (foldl AppendTableRow (AppendTableHeader [] cols) rows) (length cols) ++
  str "Total record(s): " ++ to_string (zlen rows) ++ newline.

Section Consume.
Context (strerror : Z → bytes) (write_error : Sock → bytes) {St : Type}.
Context (options : ExecuteOptions (St := St)).

(** The callbacks never refuse and never throw. *)
Definition willing : Prop :=
  (∀ cb, on_meta options = Some cb → ∀ c x, (cb c x).1 = CbContinue) ∧
  (∀ cb, on_row options = Some cb → ∀ c x, (cb c x).1 = CbContinue).

Definition deliver_meta (c : St) (cols : list ColumnDef) : St :=
  match on_meta options with Some cb => (cb c cols).2 | None => c end.
Definition deliver_row (c : St) (row : list Cell) : St :=
  match on_row options with Some cb => (cb c row).2 | None => c end.

Lemma call_willing {A} (cb : St → A → callback_outcome * St) c x who :
  (cb c x).1 = CbContinue → call_consumer cb c x who = (None, (cb c x).2).
Proof. unfold call_consumer. destruct (cb c x) as [o c']. cbn. by intros ->. Qed.

(** One ROW frame. *)
Lemma on_row_frame_willing cols row n d txt dg c :
  willing → row_fits cols row → cols ≠ [] →
  on_frame options (row_frame row) (mkLoop Rows n false d false (mkResult InvalidRequest cols 0 txt dg) c) =
  Next (mkLoop Rows (u64 (n + 1)) false d false
    (mkResult InvalidRequest cols 0
      (if format_text options then AppendTableRow txt (map canon_cell row) else txt) dg)
    (deliver_row c (map canon_cell row))).
Proof.
  intros [_ Hw] Hf Hne. unfold on_frame. cbn [frame_tag row_frame]. unfold on_row_frame.
  cbn [frame_flags row_frame state result_ columns frame_payload consumer_stopped consumer].
  replace (zlen cols =? 0) with false
    by (symmetry; apply Z.eqb_neq; intros H; by apply zlen_nil_iff in H).
  cbn [orb negb Z.eqb kTagRow]. rewrite (row_decodes cols row Hf).
  unfold deliver_row. destruct (on_row options) as [cb|] eqn:E.
  - rewrite call_willing by (by apply Hw). cbn. by rewrite andb_true_r.
  - cbn. by rewrite andb_true_r.
Qed.

Lemma on_end_frame_willing cols n d txt dg c :
  is_u64 n →
  on_frame options (end_frame n) (mkLoop Rows n false d false (mkResult InvalidRequest cols 0 txt dg) c) =
  Return (mkResult ResultSet cols n
    (if format_text options
     then AppendSeparator txt (length cols) ++ str "Total record(s): " ++ to_string n ++ newline
     else txt) dg) c.
Proof.
  intros Hn. unfold on_frame. cbn [frame_tag end_frame]. unfold on_end_frame.
  cbn [frame_flags end_frame state result_ columns frame_payload orb negb Z.eqb].
  rewrite (proj2 (DecodeResultEnd_iff _ n Hn)) by done. cbn [observed_rows]. rewrite (Z.eqb_refl n).
  cbn. by rewrite !andb_true_r.
Qed.

(** The rows and the end of a result, from the middle of the loop. *)
Lemma loop_rows fuel fd rows cols n d txt dg c s rest :
  willing → 0 ≤ fd → cols ≠ [] → Forall (row_fits cols) rows → 0 ≤ n → is_u64 (n + zlen rows) →
  Forall benign_recv (recv_sched s) → (length rows < fuel)%nat →
  inbox s = frames_image (map row_frame rows ++ [end_frame (n + zlen rows)]) ++ rest →
  ∃ sched, Forall benign_recv sched ∧
    response_loop strerror fuel fd options s
      (mkLoop Rows n false d false (mkResult InvalidRequest cols 0 txt dg) c) =
    Some (mkResult ResultSet cols (n + zlen rows)
            (if format_text options then
               AppendSeparator (foldl AppendTableRow txt (map (map canon_cell) rows)) (length cols) ++
               str "Total record(s): " ++ to_string (n + zlen rows) ++ newline
             else txt) dg,
          foldl deliver_row c (map (map canon_cell) rows),
          mkSock rest sched (outbox s) (send_sched s)).
Proof.
  intros Hw Hfd Hne Hrows. revert fuel n txt c s.
  induction Hrows as [|row rows Hrow Hrows IH]; intros fuel n txt c s Hn0 Hn Hb Hf Hin.
  - destruct fuel as [|fuel]; [cbn in Hf; lia|]. rewrite zlen_nil, Z.add_0_r in *.
    destruct (ReadFrameInternal_complete strerror fd s (end_frame n) rest) as (sc & Hsc & Hr);
      [done|by apply end_frame_ok|done|by rewrite Hin; unfold frames_image; cbn [map concat app]; rewrite app_nil_r|].
    exists sc. split; [done|]. cbn [response_loop]. rewrite Hr, on_end_frame_willing by done. done.
  - destruct fuel as [|fuel]; [cbn in Hf; lia|]. rewrite zlen_cons in *. pose proof (zlen_nonneg rows).
    destruct (ReadFrameInternal_complete strerror fd s (row_frame row)
        (frames_image (map row_frame rows ++ [end_frame (n + 1 + zlen rows)]) ++ rest)) as (sc & Hsc & Hr).
    { done. } { by eapply row_frame_ok. } { done. }
    { rewrite Hin. cbn [map app]. unfold frames_image. cbn [map concat]. rewrite <- app_assoc.
      by rewrite Z.add_assoc. }
    cbn [response_loop]. rewrite Hr, on_row_frame_willing by done.
    rewrite u64_small by word_lia.
    destruct (IH fuel (n + 1) (if format_text options then AppendTableRow txt (map canon_cell row) else txt)
      (deliver_row c (map canon_cell row))
      (mkSock (frames_image (map row_frame rows ++ [end_frame (n + 1 + zlen rows)]) ++ rest) sc
         (outbox s) (send_sched s))) as (sc2 & Hsc2 & ->);
      [lia|word_lia|done|cbn in Hf; lia|done|].
    exists sc2. split; [done|]. cbn [map foldl outbox send_sched]. rewrite Z.add_assoc.
    by destruct (format_text options).
Qed.

(** The META frame that opens a table. *)
Lemma on_meta_frame_willing cols c :
  willing → schema_fits cols →
  on_frame options (meta_frame 0 cols) (initial_loop c) =
  Next (mkLoop Rows 0 false [] false
    (mkResult InvalidRequest cols 0 (if format_text options then AppendTableHeader [] cols else []) [])
    (deliver_meta c cols)).
Proof.
  intros [Hw _] (H1 & H2 & H3). unfold on_frame. cbn [frame_tag meta_frame]. unfold on_meta_frame.
  cbn [frame_flags meta_frame state result_ columns frame_payload initial_loop consumer].
  cbn [Z.eqb kTagMeta kTagCommandOk kTagError kTagTransactionAbort orb negb Z.land].
  rewrite (proj2 (DecodeMeta_iff _ cols)) by done. cbn [andb]. unfold deliver_meta.
  destruct (on_meta options) as [cb|] eqn:E.
  - rewrite call_willing by (by apply Hw). cbn. by rewrite !andb_true_r.
  - cbn. by rewrite !andb_true_r.
Qed.

Lemma client_reads_result fd s sql cols rows c rest :
  willing → 0 ≤ fd → 1 ≤ zlen sql ≤ kMaxPayloadBytes → benign s →
  schema_fits cols → Forall (row_fits cols) rows → zlen rows < 2 ^ 64 →
  inbox s = frames_image (result_frames 0 cols rows) ++ rest →
  ∃ s', benign s' ∧ inbox s' = rest ∧
    outbox s' = outbox s ++ frame_image (mkFrame kTagExecStream 0 sql) ∧
    ExecStreamResult strerror write_error fd s sql options c =
    (mkResult ResultSet cols (zlen rows)
       (if format_text options then table_text cols (map (map canon_cell) rows) else []) [],
     foldl deliver_row (deliver_meta c cols) (map (map canon_cell) rows), s').
Proof.
  intros Hw Hfd Hsql [Hb1 Hb2] Hcols Hrows Hn Hin. unfold ExecStreamResult.
  rewrite (proj2 (Z.ltb_ge _ _)), (proj2 (Z.eqb_neq _ _)), (proj2 (Z.ltb_ge _ _)) by lia. cbn [orb].
  destruct (WriteFrame_complete fd s (mkFrame kTagExecStream 0 sql)) as (sc & Hsc & Hwr);
    [done|split_and!; cbn; try done; unfold kTagExecStream; word_lia|done|].
  cbn in Hwr. rewrite Hwr. cbn [inbox emitted]. pose proof (zlen_nonneg rows).
  destruct (ReadFrameInternal_complete strerror fd
     (emitted s (frame_image (mkFrame kTagExecStream 0 sql)) sc) (meta_frame 0 cols)
     (frames_image (map row_frame rows ++ [end_frame (zlen rows)]) ++ rest)) as (sc2 & Hsc2 & Hr);
    [done|apply meta_frame_ok; [done|word_lia]|done|
     cbn; rewrite Hin; unfold frames_image, result_frames; cbn [map concat]; by rewrite <- app_assoc|].
  cbn [response_loop]. rewrite Hr, on_meta_frame_willing by done. cbn [outbox send_sched emitted].
  assert (length rows < length (inbox s))%nat as Hlen.
  { rewrite Hin, length_app. pose proof (frames_image_length (result_frames 0 cols rows)) as Hl.
    unfold result_frames in Hl at 1. cbn [length] in Hl. rewrite length_app, length_map in Hl. lia. }
  destruct (loop_rows (length (inbox s)) fd rows cols 0 [] (if format_text options then AppendTableHeader [] cols else [])
     [] (deliver_meta c cols)
     (mkSock (frames_image (map row_frame rows ++ [end_frame (zlen rows)]) ++ rest) sc2
        (outbox s ++ frame_image (mkFrame kTagExecStream 0 sql)) sc) rest)
    as (sc3 & Hsc3 & ->);
    [done|done|by intros ->; destruct Hcols as [[? _] _]|done|lia|word_lia|done|lia|done|].
  exists (mkSock rest sc3 (outbox s ++ frame_image (mkFrame kTagExecStream 0 sql)) sc).
  split_and!; [done|done|done|].
  unfold id. cbn [from_option outbox send_sched]. unfold table_text. rewrite zlen_map, Z.add_0_l.
  by destruct (format_text options).
Qed.
End Consume.
