(* ===== verification/Client.v ===== *)
(** * The client library: connecting, executing and owning the socket

    Models [src/src/net/client.cpp], [src/src/net/client.h] and
    [ConfigureConnectedSocket] of [src/src/net/wire.cpp].

    The operating system is a process's descriptor table (each open descriptor with
    the byte stream of [WireIO] behind it) and a script of answers for the coming
    system calls, so that every call may fail, be interrupted or take time.  A call on
    a descriptor that is not open is counted: that count staying the same is what "no
    use after close, no double close" means below. *)

From S2P Require Import Prelude Wire WireCodec WireText WireIO WireTransport WireClient.

(** ** The operating system *)

Inductive Address :=
| Resolved (family : Z) (octets : bytes)   (** an [addrinfo] entry *)
| UnixPath (path : bytes).                 (** a [sockaddr_un] *)

(** What a system call does: its return value and [errno], the integer it stores
    through a pointer, the addresses a lookup finds, the stream behind a new socket,
    and the nanoseconds that pass. *)
Record Answer := mkAnswer {
  ret : Z; errno : Z; out : Z; addresses : list Address; peer : Sock; elapsed : nat }.

Record Net := mkNet { fds : gmap Z Sock; answers : list Answer; clock : Z; stray : nat }.

Definition EIO : Z := 5.
Definition EBADF : Z := 9.
Definition EMFILE : Z := 24.
Definition EINTR : Z := 4.
Definition EINPROGRESS : Z := 115.
Definition AF_INET : Z := 2.
Definition AF_INET6 : Z := 10.

Definition no_peer : Sock := mkSock [] [RError EBADF] [] [SError EBADF].

(** The next answer of the script; behind its end every call fails with [EIO]. *)
Definition answer (w : Net) : Answer * Net :=
  match answers w with
  | [] => (mkAnswer (-1) EIO 0 [] no_peer 0, w)
  | a :: script => (a, mkNet (fds w) script (clock w + Z.of_nat (elapsed a)) (stray w))
  end.

(** A call on the descriptor [fd]. *)
Definition fd_call (fd : Z) (w : Net) : Answer * Net :=
  match fds w !! fd with
  | None => (mkAnswer (-1) EBADF 0 [] no_peer 0, mkNet (fds w) (answers w) (clock w) (S (stray w)))
  | Some _ => answer w
  end.

(** [::socket]: a new descriptor is never one that is in use. *)
Definition os_socket (w : Net) : Z * Z * Net :=
  let '(a, w) := answer w in
  if ret a <? 0 then (-1, errno a, w)
  else match fds w !! ret a with
  | Some _ => (-1, EMFILE, w)
  | None => (ret a, 0, mkNet (<[ret a := peer a]> (fds w)) (answers w) (clock w) (stray w))
  end.

(** [::close]: the descriptor is free afterwards, whatever the call returns. *)
Definition os_close (fd : Z) (w : Net) : Net :=
  match fds w !! fd with
  | None => mkNet (fds w) (answers w) (clock w) (S (stray w))
  | Some _ => mkNet (delete fd (fds w)) (answers w) (clock w) (stray w)
  end.

(** [::shutdown(fd, SHUT_RDWR)], whose result the source drops. *)
Definition os_shutdown (fd : Z) (w : Net) : Net := snd (fd_call fd w).

(** [::poll] on one descriptor with a timeout in milliseconds: negative timeouts block
    until the descriptor is ready, so that the call never returns 0. *)
Definition os_poll (fd : Z) (timeout_ms : Z) (w : Net) : Answer * Net :=
  let '(a, w) := fd_call fd w in
  ((if (ret a =? 0) && (timeout_ms <? 0) then mkAnswer 1 0 0 [] no_peer 0 else a), w).

(** ** UniqueFd *)

Definition UniqueFd := Z.
Definition UniqueFd_default : UniqueFd := -1.

Definition UniqueFd_destroy (self : UniqueFd) (w : Net) : Net :=
  if 0 <=? self then os_close self w else w.

(** The descriptor and the emptied holder. *)
Definition Release (self : UniqueFd) : Z * UniqueFd := (self, -1).

Definition Reset (self : UniqueFd) (fd : Z) (w : Net) : UniqueFd * Net :=
  (fd, if 0 <=? self then os_close self w else w).

(** [*self = std::move(other)] between two objects: both holders and the world. *)
Definition UniqueFd_move_assign (self other : UniqueFd) (w : Net) : UniqueFd * UniqueFd * Net :=
  let '(fd, other) := Release other in
  let '(self, w) := Reset self fd w in
  (self, other, w).

(** ** Results *)

Inductive ClientError :=
| None_ | InvalidEndpoint | ResolveFailed | ConnectFailed | ConnectTimeout | ConfigureFailed | HandshakeFailed.

#[global] Instance ClientError_eq_dec : EqDecision ClientError.
Proof. solve_decision. Defined.

Record ClientStatus := mkStatus { code : ClientError; message : bytes }.

(** [return {};] *)
Definition ClientStatus_default : ClientStatus := mkStatus None_ [].
Definition status_ok (s : ClientStatus) : bool := bool_decide (code s = None_).
Definition Error (code : ClientError) (message : bytes) : ClientStatus := mkStatus code message.

Inductive EndpointKind := Tcp | Unix.
Record Endpoint := mkEndpoint { kind : EndpointKind; host : bytes; port : Z; path : bytes }.
Record ClientOptions := mkClientOptions { connect_timeout_ms : Z; io_timeout_ms : Z }.

Definition Endpoint_Tcp (host : bytes) (port : Z) : Endpoint := mkEndpoint Tcp host port [].
Definition Endpoint_Unix (path : bytes) : Endpoint := mkEndpoint Unix [] 0 path.

(** The default [ClientOptions{}]. *)
Definition kDefaultIoTimeoutMs : Z := 120 * 1000.
Definition ClientOptions_default : ClientOptions := mkClientOptions 5000 kDefaultIoTimeoutMs.

Section Client.
Context (strerror gai_strerror : Z → bytes) (write_error : Sock → bytes).

Definition ErrnoMessage (prefix : string) (error_number : Z) : bytes :=
  str prefix ++ str ": " ++ strerror error_number.

(** ** Connecting *)

(** [static_cast<int>(std::max<int64_t>(1, remaining.count()))] *)
Definition poll_timeout (deadline now : Z) : Z :=
  let remaining := (deadline - now) / 10 ^ 6 in s32 (Z.max 1 remaining).

(** The [while (true)] loop that waits for a connection in progress: an error to
    return, or [None] once the socket is connected.  Every turn takes an answer of the
    script, and behind its end [poll] fails, so the fuel [S (length (answers w))] is
    enough. *)
Fixpoint poll_loop (fuel : nat) (fd : Z) (deadline : Z) (w : Net) : option ClientStatus * Net :=
  match fuel with
  | O => (Some (Error ConnectFailed []), w)
  | S fuel =>
    let now := clock w in
    if deadline <=? now then (Some (Error ConnectTimeout (str "connect timed out")), w)
    else
      let '(poll, w) := os_poll fd (poll_timeout deadline now) w in
      if (ret poll <? 0) && (errno poll =? EINTR) then poll_loop fuel fd deadline w
      else if ret poll =? 0 then (Some (Error ConnectTimeout (str "connect timed out")), w)
      else if ret poll <? 0 then (Some (Error ConnectFailed (ErrnoMessage "connect poll failed" (errno poll))), w)
      else
        let '(opt, w) := fd_call fd w in
        if negb (ret opt =? 0)
        then (Some (Error ConnectFailed (ErrnoMessage "connect status failed" (errno opt))), w)
        else if negb (out opt =? 0)
        then (Some (Error ConnectFailed (ErrnoMessage "connect failed" (out opt))), w)
        else (None, w)
  end.

(** The calls on the new socket: an error to return, or [None]. *)
Definition connect_candidate (fd : Z) (address : Address) (deadline : Z) (w : Net)
  : option ClientStatus * Net :=
  let '(get, w) := fd_call fd w in
  if ret get <? 0
  then (Some (Error ConnectFailed (ErrnoMessage "failed to read socket flags" (errno get))), w) else
  let '(set, w) := fd_call fd w in
  if ret set <? 0
  then (Some (Error ConnectFailed (ErrnoMessage "failed to configure nonblocking connect" (errno set))), w) else
  let '(con, w) := fd_call fd w in
  let '(waited, w) :=
    if negb (ret con =? 0) then
      if negb (errno con =? EINPROGRESS)
      then (Some (Error ConnectFailed (ErrnoMessage "connect failed" (errno con))), w)
      else poll_loop (S (length (answers w))) fd deadline w
    else (None, w) in
  match waited with
  | Some e => (Some e, w)
  | None =>
    let '(restore, w) := fd_call fd w in
    if ret restore <? 0
    then (Some (Error ConnectFailed (ErrnoMessage "failed to restore socket flags" (errno restore))), w)
    else (None, w)
  end.

(** The status, the holder [*connected] and the world; [candidate] is destroyed on
    every return. *)
Definition ConnectAddress (address : Address) (deadline : Z) (connected : UniqueFd) (w : Net)
  : ClientStatus * UniqueFd * Net :=
  let '(fd, e, w) := os_socket w in
  let candidate : UniqueFd := fd in
  if candidate <? 0
  then (Error ConnectFailed (ErrnoMessage "socket creation failed" e), connected, UniqueFd_destroy candidate w)
  else match connect_candidate candidate address deadline w with
  | (Some status, w) => (status, connected, UniqueFd_destroy candidate w)
  | (None, w) =>
    let '(connected, candidate, w) := UniqueFd_move_assign connected candidate w in
    (ClientStatus_default, connected, UniqueFd_destroy candidate w)
  end.

(** [deadline = steady_clock::now() + milliseconds(connect_timeout_ms)], in ns. *)
Definition deadline_of (options : ClientOptions) (w : Net) : Z :=
  clock w + connect_timeout_ms options * 10 ^ 6.

Fixpoint connect_addresses (l : list Address) (deadline : Z) (last_error : ClientStatus)
    (connected : UniqueFd) (w : Net) : ClientStatus * UniqueFd * Net :=
  match l with
  | [] => (last_error, connected, w)
  | address :: l =>
    let '(last_error, connected, w) := ConnectAddress address deadline connected w in
    if status_ok last_error || bool_decide (code last_error = ConnectTimeout)
    then (last_error, connected, w)
    else connect_addresses l deadline last_error connected w
  end.

Definition ConnectTcpSocket (endpoint : Endpoint) (options : ClientOptions) (connected : UniqueFd) (w : Net)
  : ClientStatus * UniqueFd * Net :=
  if (zlen (host endpoint) =? 0) || (port endpoint =? 0)
  then (Error InvalidEndpoint (str "TCP host and port must be non-empty"), connected, w)
  else
    let service := to_string (port endpoint) in
    let '(resolve, w) := answer w in
    if negb (ret resolve =? 0)
    then (Error ResolveFailed (str "failed to resolve " ++ host endpoint ++ str ":" ++ service ++ str ": " ++
                               gai_strerror (ret resolve)), connected, w)
    else connect_addresses (addresses resolve) (deadline_of options w)
           (Error ConnectFailed (str "no usable address")) connected w.

(** [sizeof(sockaddr_un::sun_path)] *)
Definition sun_path_size : Z := 108.

Definition ConnectUnixSocket (endpoint : Endpoint) (options : ClientOptions) (connected : UniqueFd) (w : Net)
  : ClientStatus * UniqueFd * Net :=
  if zlen (path endpoint) =? 0
  then (Error InvalidEndpoint (str "Unix socket path must be non-empty"), connected, w)
  else if sun_path_size <=? zlen (path endpoint)
  then (Error InvalidEndpoint (str "Unix socket path is too long"), connected, w)
  else ConnectAddress (UnixPath (path endpoint)) (deadline_of options w) connected w.

(** [ConfigureConnectedSocket] of [wire.cpp], where [MSG_NOSIGNAL] is defined. *)
Definition ConfigureConnectedSocket (fd : Z) (timeout_ms : Z) (w : Net) : bool * Z * Net :=
  if (fd <? 0) || (timeout_ms =? 0) then (false, 0, w) else
  let '(get, w) := fd_call fd w in
  if ret get <? 0 then (false, errno get, w) else
  let '(set, w) := fd_call fd w in
  if ret set <? 0 then (false, errno set, w) else
  let '(rcv, w) := fd_call fd w in
  if negb (ret rcv =? 0) then (false, errno rcv, w) else
  let '(snd, w) := fd_call fd w in
  if negb (ret snd =? 0) then (false, errno snd, w) else
  let '(name, w) := fd_call fd w in
  if negb (ret name =? 0) then (false, errno name, w) else
  if (out name =? AF_INET) || (out name =? AF_INET6) then
    let '(nodelay, w) := fd_call fd w in
    if negb (ret nodelay =? 0) then (false, errno nodelay, w) else (true, 0, w)
  else (true, 0, w).

(** The stream behind a descriptor, and the world in which it has moved on. *)
Definition stream (fd : Z) (w : Net) : Sock := default no_peer (fds w !! fd).

Definition set_stream (fd : Z) (s : Sock) (w : Net) : Net :=
  mkNet (match fds w !! fd with Some _ => <[fd := s]> (fds w) | None => fds w end)
        (answers w) (clock w) (stray w).

(** ** Client

    [impl_]: [None] once it was moved from, otherwise the [fd] of the [Impl]. *)
Definition Client := option Z.
Definition Client_new : Client := Some (-1).

(** [if (impl_->fd >= 0) { shutdown; close; fd = -1; }] *)
Definition drop_connection (fd : Z) (w : Net) : Z * Net :=
  if 0 <=? fd then (-1, os_close fd (os_shutdown fd w)) else (fd, w).

Definition Connect (self : Client) (endpoint : Endpoint) (options : ClientOptions) (w : Net)
  : ClientStatus * Client * Net :=
  if (connect_timeout_ms options =? 0) || (INT_MAX <? connect_timeout_ms options) || (io_timeout_ms options =? 0)
  then (Error InvalidEndpoint (str "connect and I/O timeouts are out of range"), self, w)
  else
    let fd := match self with Some fd => fd | None => -1 end in
    let '(fd, w) := drop_connection fd w in
    let connected := UniqueFd_default in
    let '(status, connected, w) :=
      match kind endpoint with
      | Tcp => ConnectTcpSocket endpoint options connected w
      | Unix => ConnectUnixSocket endpoint options connected w
      end in
    if negb (status_ok status) then (status, Some fd, UniqueFd_destroy connected w)
    else
      let '(configured, e, w) := ConfigureConnectedSocket connected (io_timeout_ms options) w in
      if negb configured
      then (Error ConfigureFailed (ErrnoMessage "failed to configure connected socket" e), Some fd,
            UniqueFd_destroy connected w)
      else
        let '(shaken, s) := ClientHandshake strerror connected (stream connected w) in
        let w := set_stream connected s w in
        if negb shaken
        then (Error HandshakeFailed (str "wire handshake failed; server must speak RMDB wire protocol v3.1"),
              Some fd, UniqueFd_destroy connected w)
        else
          let '(fd, connected) := Release connected in
          (ClientStatus_default, Some fd, UniqueFd_destroy connected w).

Definition ConnectTcp (self : Client) (host : bytes) (port : Z) (options : ClientOptions) (w : Net) :=
  Connect self (Endpoint_Tcp host port) options w.
Definition ConnectUnix (self : Client) (path : bytes) (options : ClientOptions) (w : Net) :=
  Connect self (Endpoint_Unix path) options w.

Definition Execute {St} (self : Client) (sql : bytes) (options : ExecuteOptions) (c : St) (w : Net)
  : ExecuteResult * St * Client * Net :=
  match self with
  | None => (mkResult TransportError [] 0 [] (str "connection is not open"), c, self, w)
  | Some fd =>
    let '(result, c, s) := ExecStreamResult strerror write_error fd (stream fd w) sql options c in
    let w := set_stream fd s w in
    if negb (connection_reusable result) && (0 <=? fd)
    then let '(fd, w) := drop_connection fd w in (result, c, Some fd, w)
    else (result, c, Some fd, w)
  end.

Definition Close (self : Client) (w : Net) : Client * Net :=
  match self with
  | None => (None, w)
  | Some fd => let '(fd, w) := drop_connection fd w in (Some fd, w)
  end.

Definition is_open (self : Client) : bool := match self with Some fd => 0 <=? fd | None => false end.

(** [~Impl] *)
Definition Impl_destroy (impl : Client) (w : Net) : Net :=
  match impl with Some fd => if 0 <=? fd then os_close fd w else w | None => w end.

(** [~Client]: [Close()], then the member [impl_]. *)
Definition Client_destroy (self : Client) (w : Net) : Net :=
  let '(self, w) := Close self w in Impl_destroy self w.

(** [Client(Client&&) = default]: the new and the old object. *)
Definition Client_move (other : Client) : Client * Client := (other, None).

(** [operator=(Client&&) = default] between two objects. *)
Definition Client_move_assign (self other : Client) (w : Net) : Client * Client * Net :=
  (other, None, Impl_destroy self w).

End Client.
