(* ===== verification/ClientFacts.v ===== *)
(** * The client library: ownership of descriptors

    Every operation of [Client] moves descriptors between the process's table and the
    objects that own them.  [transfer] states that accounting once, for any operation;
    it composes, so the operations follow from the system calls.  The main theorem
    runs arbitrary programs over arbitrarily many clients. *)

From S2P Require Import Prelude Wire WireCodec WireText WireIO WireTransport WireClient Client.

(** The descriptor table [w] with the descriptors [o] owned becomes [w'] with [o']
    owned: all other descriptors stay open, none appears, and no call was made on a
    closed descriptor. *)
Definition transfer (w : Net) (o : gset Z) (w' : Net) (o' : gset Z) : Prop :=
  o ⊆ dom (fds w) → o' ⊆ dom (fds w') ∧ dom (fds w') ∖ o' = dom (fds w) ∖ o ∧ stray w' = stray w.

(** The descriptors a holder or a client owns. *)
Definition held (fd : Z) : gset Z := if 0 <=? fd then {[fd]} else ∅.
Definition owned (c : Client) : gset Z := match c with Some fd => held fd | None => ∅ end.

Create HintDb own.

Lemma transfer_refl w o : transfer w o w o.
Proof. done. Qed.

Lemma transfer_trans w1 o1 w2 o2 w3 o3 :
  transfer w1 o1 w2 o2 → transfer w2 o2 w3 o3 → transfer w1 o1 w3 o3.
Proof.
  intros H1 H2 Ho. destruct (H1 Ho) as (Ho2 & E2 & S2). destruct (H2 Ho2) as (Ho3 & E3 & S3).
  split_and!; [done|congruence|congruence].
Qed.

Lemma transfer_assume w o w' o' : (o ⊆ dom (fds w) → transfer w o w' o') → transfer w o w' o'.
Proof. intros H Ho. by apply H. Qed.

(** An operation that owns [o] leaves what others own alone. *)
Lemma transfer_frame w o w' o' f :
  transfer w o w' o' → o ## f → transfer w (o ∪ f) w' (o' ∪ f).
Proof. intros H Hd Ho. destruct (H ltac:(set_solver)) as (Ho' & E & ->). split_and!; set_solver. Qed.

Lemma transfer_fresh w o w' o' : transfer w o w' o' → o ⊆ dom (fds w) → (o' ∖ o) ## dom (fds w).
Proof. intros H Ho. destruct (H Ho) as (_ & E & _). set_solver. Qed.

Lemma held_nonneg fd : 0 ≤ fd → held fd = {[fd]}.
Proof. intros H. unfold held. by rewrite (proj2 (Z.leb_le 0 fd)). Qed.
Lemma held_neg fd : fd < 0 → held fd = ∅.
Proof. intros H. unfold held. by rewrite (proj2 (Z.leb_gt 0 fd)). Qed.

(** ** System calls *)

Lemma answer_fds w a w' : answer w = (a, w') → fds w' = fds w ∧ stray w' = stray w.
Proof. unfold answer. destruct (answers w); by intros [= <- <-]. Qed.

Lemma answer_transfer w a w' o : answer w = (a, w') → transfer w o w' o.
Proof. intros H. apply answer_fds in H as [Hf Hs]. unfold transfer. rewrite Hf, Hs. done. Qed.

Lemma fd_call_transfer fd w a w' o : fd_call fd w = (a, w') → fd ∈ o → transfer w o w' o.
Proof.
  unfold fd_call. intros H Hin Ho. destruct (fds w !! fd) eqn:E; [by eapply answer_transfer|].
  apply not_elem_of_dom in E. set_solver.
Qed.

Lemma os_poll_transfer fd t w a w' o : os_poll fd t w = (a, w') → fd ∈ o → transfer w o w' o.
Proof.
  unfold os_poll. destruct (fd_call fd w) as [b w1] eqn:E. intros [= <- <-].
  by eapply fd_call_transfer.
Qed.

Lemma os_socket_transfer w fd e w' : os_socket w = (fd, e, w') → transfer w ∅ w' (held fd).
Proof.
  unfold os_socket. destruct (answer w) as [a w1] eqn:Ea. apply answer_fds in Ea as [E1 S1].
  destruct (ret a <? 0) eqn:Er; [intros [= <- <- <-]; rewrite held_neg by lia; unfold transfer; rewrite E1, S1; done|].
  destruct (fds w1 !! ret a) eqn:El; intros [= <- <- <-];
    [rewrite held_neg by lia; unfold transfer; rewrite E1, S1; done|].
  apply Z.ltb_ge in Er. rewrite held_nonneg by done. apply not_elem_of_dom in El.
  intros _. cbn. rewrite dom_insert_L, E1 in *. split_and!; set_solver.
Qed.

Lemma os_close_transfer fd w : transfer w {[fd]} (os_close fd w) ∅.
Proof.
  intros Ho. unfold os_close. destruct (fds w !! fd) eqn:E.
  - cbn. rewrite dom_delete_L. split_and!; set_solver.
  - apply not_elem_of_dom in E. set_solver.
Qed.

Lemma os_shutdown_transfer fd w o : fd ∈ o → transfer w o (os_shutdown fd w) o.
Proof. unfold os_shutdown. destruct (fd_call fd w) eqn:E. intros. by eapply fd_call_transfer. Qed.

Lemma set_stream_transfer fd s w o : transfer w o (set_stream fd s w) o.
Proof.
  unfold set_stream. intros Ho. cbn. destruct (fds w !! fd) eqn:E; [|split_and!; set_solver].
  apply elem_of_dom_2 in E. rewrite dom_insert_L. split_and!; set_solver.
Qed.

Lemma UniqueFd_destroy_transfer fd w : transfer w (held fd) (UniqueFd_destroy fd w) ∅.
Proof.
  unfold UniqueFd_destroy, held. destruct (0 <=? fd); [apply os_close_transfer|apply transfer_refl].
Qed.

Lemma UniqueFd_destroy_frame fd w f : held fd ## f → transfer w (held fd ∪ f) (UniqueFd_destroy fd w) f.
Proof.
  intros Hd. pose proof (transfer_frame _ _ _ _ f (UniqueFd_destroy_transfer fd w) Hd) as Ht.
  by rewrite union_empty_l_L in Ht.
Qed.

Lemma drop_connection_transfer fd w fd' w' :
  drop_connection fd w = (fd', w') → transfer w (held fd) w' (held fd') ∧ fd' < 0.
Proof.
  unfold drop_connection, held. destruct (0 <=? fd) eqn:E; intros [= <- <-]; [|split; [rewrite E; apply transfer_refl|lia]].
  split; [|lia]. eapply transfer_trans; [|apply os_close_transfer].
  apply os_shutdown_transfer. set_solver.
Qed.

#[export] Hint Resolve transfer_refl fd_call_transfer os_poll_transfer answer_transfer : own.

(** Case analysis along the system calls of a function. *)
Ltac own_step :=
  match goal with
  | |- context [let '(_, _) := ?c in _] => destruct c as [? ?] eqn:?
  | |- context [if ?b then _ else _] => destruct b eqn:?
  | H : context [let '(_, _) := ?c in _] |- _ => destruct c as [? ?] eqn:?
  | H : context [if ?b then _ else _] |- _ => destruct b eqn:?
  | H : (_, _) = (_, _) |- _ => injection H as ? ?; subst
  end.

(** Chains the [transfer] facts of the calls made, newest first. *)
Ltac own_chain fd :=
  repeat match goal with
  | |- transfer ?w ?o ?w ?o => apply transfer_refl
  | H : fd_call fd ?w = (_, ?w') |- transfer _ _ ?w' _ =>
      eapply transfer_trans; [|exact (fd_call_transfer fd w _ w' _ H ltac:(eassumption))]
  | H : os_poll fd _ ?w = (_, ?w') |- transfer _ _ ?w' _ =>
      eapply transfer_trans; [|exact (os_poll_transfer fd _ w _ w' _ H ltac:(eassumption))]
  end.

Section Facts.
Context (strerror gai_strerror : Z → bytes) (write_error : Sock → bytes).

Notation poll_loop := (poll_loop strerror).
Notation connect_candidate := (connect_candidate strerror).
Notation ConnectAddress := (ConnectAddress strerror).
Notation Connect := (Connect strerror gai_strerror).

Lemma poll_loop_transfer fuel fd deadline o : fd ∈ o → ∀ w st w',
  poll_loop fuel fd deadline w = (st, w') → transfer w o w' o.
Proof.
  intros Hin. induction fuel as [|fuel IH]; intros w st w'; cbn.
  - intros [= <- <-]. apply transfer_refl.
  - destruct (deadline <=? clock w); [intros [= <- <-]; apply transfer_refl|].
    destruct (os_poll _ _ w) as [p w1] eqn:Ep. intros H.
    eapply transfer_trans; [by eapply os_poll_transfer|].
    repeat own_step; try apply transfer_refl; [by eapply IH|..]; own_chain fd.
Qed.

Lemma poll_loop_error fuel fd deadline w st w' :
  poll_loop fuel fd deadline w = (Some st, w') → status_ok st = false.
Proof.
  revert w. induction fuel as [|fuel IH]; intros w; cbn; [by intros [= <- _]|].
  intros H. repeat own_step; simplify_eq; try done. by eapply IH.
Qed.

Lemma connect_candidate_transfer fd a deadline o : fd ∈ o → ∀ w st w',
  connect_candidate fd a deadline w = (st, w') →
  transfer w o w' o ∧ (∀ e, st = Some e → status_ok e = false).
Proof.
  intros Hin w st w' H. unfold Client.connect_candidate in H.
  repeat own_step; repeat case_match; simplify_eq;
    (split; [|intros ? ?; simplify_eq; try done; by eapply poll_loop_error]); own_chain fd;
    (eapply transfer_trans; [|by eapply poll_loop_transfer]); own_chain fd.
Qed.

Lemma ConnectAddress_transfer a deadline connected w st connected' w' :
  ConnectAddress a deadline connected w = (st, connected', w') →
  transfer w (held connected) w' (held connected') ∧
  (if status_ok st then 0 ≤ connected' else connected' = connected).
Proof.
  unfold Client.ConnectAddress. destruct (os_socket w) as [[fd e] w1] eqn:Es.
  pose proof (os_socket_transfer _ _ _ _ Es) as Ht.
  pose proof (transfer_frame _ _ _ _ (held connected) Ht ltac:(set_solver)) as Hf.
  pose proof (transfer_fresh _ _ _ _ Ht ltac:(set_solver)) as Hd.
  rewrite union_empty_l_L in Hf. intros H.
  destruct (fd <? 0) eqn:Efd; apply Z.ltb_lt in Efd || apply Z.ltb_ge in Efd.
  { injection H as <- <- <-. split; [|done]. rewrite (held_neg fd), union_empty_l_L in Hf by done.
    unfold UniqueFd_destroy. by rewrite (proj2 (Z.leb_gt 0 fd)) by lia. }
  destruct (connect_candidate fd a deadline w1) as [r w2] eqn:Ec.
  rewrite (held_nonneg fd) in * by done.
  apply (connect_candidate_transfer _ _ _ ({[fd]} ∪ held connected)) in Ec as [Hc He]; [|set_solver].
  pose proof (transfer_trans _ _ _ _ _ _ Hf Hc) as Hw. destruct r as [st1|].
  - injection H as <- <- <-. rewrite (He _ eq_refl). split; [|done].
    apply transfer_assume. intros Ho. eapply transfer_trans; [exact Hw|].
    rewrite <- (held_nonneg fd) in * by done. apply UniqueFd_destroy_frame. set_solver.
  - injection H as <- <- <-. split; [|done]. apply transfer_assume. intros Ho.
    eapply transfer_trans; [exact Hw|]. cbn. rewrite (held_nonneg fd) by done.
    rewrite (union_comm_L {[fd]}). apply UniqueFd_destroy_frame. set_solver.
Qed.

Lemma connect_addresses_transfer l deadline last connected w st connected' w' :
  connected < 0 → status_ok last = false →
  connect_addresses strerror l deadline last connected w = (st, connected', w') →
  transfer w (held connected) w' (held connected') ∧
  (if status_ok st then 0 ≤ connected' else connected' < 0).
Proof.
  intros Hn. revert last w. induction l as [|a l IH]; intros last w Hl; cbn.
  - intros [= <- <- <-]. rewrite Hl. split; [apply transfer_refl|done].
  - destruct (ConnectAddress a deadline connected w) as [[st1 c1] w1] eqn:Ea.
    apply ConnectAddress_transfer in Ea as [Ht Hs].
    destruct (status_ok st1) eqn:Ek; cbn.
    + intros [= <- <- <-]. by rewrite Ek.
    + subst c1. case_bool_decide.
      * intros [= <- <- <-]. rewrite Ek. done.
      * intros H'. apply IH in H' as [Ht' Hs']; [|done]. split; [|done]. by eapply transfer_trans.
Qed.

Lemma ConfigureConnectedSocket_transfer fd t w b e w' o :
  fd ∈ o → ConfigureConnectedSocket fd t w = (b, e, w') → transfer w o w' o.
Proof.
  intros Hin H. unfold ConfigureConnectedSocket in H. repeat own_step; simplify_eq; own_chain fd.
Qed.

(** A descriptor for the endpoint, or an error and none. *)
Lemma connect_endpoint_transfer endpoint options w st connected w' :
  match kind endpoint with
  | Tcp => ConnectTcpSocket strerror gai_strerror endpoint options UniqueFd_default w
  | Unix => ConnectUnixSocket strerror endpoint options UniqueFd_default w
  end = (st, connected, w') →
  transfer w ∅ w' (held connected) ∧ (if status_ok st then 0 ≤ connected else connected < 0).
Proof.
  change ∅ with (held UniqueFd_default). unfold ConnectTcpSocket, ConnectUnixSocket.
  destruct (kind endpoint); intros H.
  - destruct (_ || _); [simplify_eq; split; [apply transfer_refl|done]|].
    destruct (answer w) as [a w1] eqn:Ea. apply (answer_transfer _ _ _ (held UniqueFd_default)) in Ea.
    destruct (negb _); [by simplify_eq|].
    apply connect_addresses_transfer in H as [Ht Hs]; [|done..]. split; [|done]. by eapply transfer_trans.
  - destruct (_ =? 0); [simplify_eq; split; [apply transfer_refl|done]|].
    destruct (_ <=? _); [simplify_eq; split; [apply transfer_refl|done]|].
    apply ConnectAddress_transfer in H as [Ht Hs]. split; [done|]. destruct (status_ok st); [done|by subst].
Qed.

Lemma Connect_transfer c endpoint options w st c' w' :
  Connect c endpoint options w = (st, c', w') →
  transfer w (owned c) w' (owned c') ∧ (status_ok st = true → is_open c' = true) ∧
  (status_ok st = false → is_open c' = true → (c', w') = (c, w)).
Proof.
  unfold Client.Connect. intros H.
  destruct (_ || _ || _); [simplify_eq; split_and!; [apply transfer_refl|done..]|].
  assert (Hown : held (match c with Some fd => fd | None => -1 end) = owned c) by (by destruct c).
  set (fd0 := match c with Some fd => fd | None => -1 end) in *.
  destruct (drop_connection fd0 w) as [fd w1] eqn:Ed. apply drop_connection_transfer in Ed as [Hd Hfd].
  rewrite Hown in Hd. rewrite (held_neg fd) in Hd by done.
  destruct (match kind endpoint with Tcp => _ | Unix => _ end) as [[st1 conn] w2] eqn:Ec.
  apply connect_endpoint_transfer in Ec as [Hc Hs].
  pose proof (transfer_trans _ _ _ _ _ _ Hd Hc) as Hw.
  assert (Hclosed : ∀ w3, transfer w2 (held conn) w3 (held conn) →
    transfer w (owned c) (UniqueFd_destroy conn w3) (owned (Some fd)) ∧
    (is_open (Some fd) = true → (Some fd, UniqueFd_destroy conn w3) = (c, w))).
  { intros w3 H3. cbn [owned]. rewrite (held_neg fd) by done. split.
    - eapply transfer_trans; [exact Hw|]. eapply transfer_trans; [exact H3|]. apply UniqueFd_destroy_transfer.
    - cbn. intros ?%Z.leb_le. lia. }
  destruct (status_ok st1) eqn:Es; cbn [negb] in H.
  2:{ simplify_eq. rewrite Es. destruct (Hclosed w2 (transfer_refl _ _)). done. }
  destruct (ConfigureConnectedSocket conn _ w2) as [[ok e] w3] eqn:Ef.
  apply (ConfigureConnectedSocket_transfer _ _ _ _ _ _ (held conn)) in Ef; [|rewrite held_nonneg by done; set_solver].
  destruct ok; cbn [negb] in H; [|simplify_eq; by destruct (Hclosed w3)].
  destruct (ClientHandshake strerror conn (stream conn w3)) as [shaken s].
  pose proof (transfer_trans _ _ _ _ _ _ Ef (set_stream_transfer conn s w3 (held conn))) as H4.
  destruct shaken; cbn [negb] in H; [|simplify_eq; by destruct (Hclosed (set_stream conn s w3))].
  cbn in H. simplify_eq. split_and!; [|cbn; by rewrite (proj2 (Z.leb_le 0 conn))|done].
  by eapply transfer_trans.
Qed.

Lemma Execute_transfer {St} c sql options (x : St) w r x' c' w' :
  Execute strerror write_error c sql options x w = (r, x', c', w') →
  transfer w (owned c) w' (owned c') ∧ is_open c' = is_open c && connection_reusable r.
Proof.
  unfold Execute. destruct c as [fd|]; [|intros [= <- <- <- <-]; split; [apply transfer_refl|done]].
  destruct (ExecStreamResult strerror write_error fd (stream fd w) sql options x) as [[r1 x1] s] eqn:E.
  pose proof (set_stream_transfer fd s w (held fd)) as Ht.
  destruct (connection_reusable r1) eqn:Er; cbn [negb andb].
  - intros [= <- <- <- <-]. rewrite Er, andb_true_r. done.
  - destruct (0 <=? fd) eqn:Ef.
    + destruct (drop_connection fd (set_stream fd s w)) as [fd' w1] eqn:Ed.
      apply drop_connection_transfer in Ed as [Hd Hn]. intros [= <- <- <- <-]. rewrite Er, andb_false_r.
      split; [by eapply transfer_trans|]. cbn. by apply Z.leb_gt.
    + intros [= <- <- <- <-]. cbn. by rewrite Ef.
Qed.

Lemma Close_transfer c w c' w' :
  Close c w = (c', w') → transfer w (owned c) w' (owned c') ∧ is_open c' = false.
Proof.
  unfold Close. destruct c as [fd|]; [|intros [= <- <-]; split; [apply transfer_refl|done]].
  destruct (drop_connection fd w) as [fd' w1] eqn:Ed. apply drop_connection_transfer in Ed as [Hd Hn].
  intros [= <- <-]. split; [done|]. cbn. by apply Z.leb_gt.
Qed.

Lemma Impl_destroy_transfer c w : transfer w (owned c) (Impl_destroy c w) ∅.
Proof. destruct c as [fd|]; [apply UniqueFd_destroy_transfer|apply transfer_refl]. Qed.

Lemma Client_destroy_transfer c w : transfer w (owned c) (Client_destroy c w) ∅.
Proof.
  unfold Client_destroy. destruct (Close c w) as [c' w'] eqn:E. apply Close_transfer in E as [Ht _].
  eapply transfer_trans; [exact Ht|apply Impl_destroy_transfer].
Qed.

(** ** Programs over clients

    The objects in scope by name, and what a C++ program may do with them.  An
    operation on a name that is not in scope, or a constructor for one that is, is not
    a program: [None]. *)
Inductive client_op :=
| New (v : string)                                        (** [Client v;] *)
| DoConnect (v : string) (endpoint : Endpoint) (options : ClientOptions)
| DoExecute (v : string) (sql : bytes) (options : @ExecuteOptions unit)
| DoClose (v : string)
| MoveNew (v other : string)                              (** [Client v(std::move(other));] *)
| MoveAssign (v other : string)                           (** [v = std::move(other);] *)
| Destroy (v : string).                                   (** end of the scope of [v] *)

Definition step_client (op : client_op) (objs : gmap string Client) (w : Net)
  : option (gmap string Client * Net) :=
  match op with
  | New v => match objs !! v with Some _ => None | None => Some (<[v := Client_new]> objs, w) end
  | DoConnect v endpoint options =>
    c ← objs !! v;
    let '(_, c, w) := Connect c endpoint options w in Some (<[v := c]> objs, w)
  | DoExecute v sql options =>
    c ← objs !! v;
    let '(_, _, c, w) := Execute strerror write_error c sql options tt w in Some (<[v := c]> objs, w)
  | DoClose v => c ← objs !! v; let '(c, w) := Close c w in Some (<[v := c]> objs, w)
  | MoveNew v other =>
    match objs !! v with
    | Some _ => None
    | None => c ← objs !! other;
        let '(c, old) := Client_move c in Some (<[v := c]> (<[other := old]> objs), w)
    end
  | MoveAssign v other =>
    if bool_decide (v = other) then None else
    c ← objs !! v; d ← objs !! other;
    let '(c, d, w) := Client_move_assign c d w in Some (<[v := c]> (<[other := d]> objs), w)
  | Destroy v => c ← objs !! v; Some (delete v objs, Client_destroy c w)
  end.

Fixpoint run_clients (ops : list client_op) (objs : gmap string Client) (w : Net)
  : option (gmap string Client * Net) :=
  match ops with
  | [] => Some (objs, w)
  | op :: ops => '(objs, w) ← step_client op objs w; run_clients ops objs w
  end.

Definition own_of (objs : gmap string Client) (v : string) : gset Z := from_option owned ∅ (objs !! v).

(** The open descriptors are those of [base] and one for each open client. *)
Record accounted (base : gset Z) (n : nat) (objs : gmap string Client) (w : Net) : Prop := {
  acc_dom : ∀ fd, fd ∈ dom (fds w) ↔ fd ∈ base ∨ ∃ v, fd ∈ own_of objs v;
  acc_base : ∀ v, own_of objs v ## base;
  acc_distinct : ∀ v1 v2, v1 ≠ v2 → own_of objs v1 ## own_of objs v2;
  acc_stray : stray w = n }.

(** What [v] owns changes as [transfer] says. *)
Lemma accounted_transfer base n objs w v objs' w' o' :
  accounted base n objs w → transfer w (own_of objs v) w' o' →
  own_of objs' v = o' → (∀ u, u ≠ v → own_of objs' u = own_of objs u) →
  accounted base n objs' w'.
Proof.
  intros [Hdom Hb Hd Hs] Ht Hv Hu.
  destruct (Ht ltac:(intros fd Hfd; apply Hdom; right; by exists v)) as (Hin & Heq & Hst).
  assert (Hrest : ∀ fd, fd ∉ o' → fd ∈ dom (fds w') ↔ fd ∈ dom (fds w) ∧ fd ∉ own_of objs v) by set_solver.
  assert (Hnew : ∀ fd, fd ∈ o' → fd ∈ dom (fds w) → fd ∈ own_of objs v) by set_solver.
  split; [|intros u|intros u1 u2 Hne|by rewrite Hst].
  - intros fd. destruct (decide (fd ∈ o')) as [Ho|Ho].
    { split; [|by intros _; apply Hin]. intros _. right. exists v. by rewrite Hv. }
    rewrite (Hrest fd Ho), Hdom. split.
    + intros [[?|[u ?]] ?]; [by left|]. destruct (decide (u = v)) as [->|]; [done|].
      right. exists u. by rewrite Hu.
    + intros [?|[u Hin']]; [split; [by left|]; specialize (Hb v); set_solver|].
      destruct (decide (u = v)) as [->|Hne]; [by rewrite Hv in Hin'|]. rewrite Hu in Hin' by done.
      split; [right; by exists u|]. specialize (Hd u v Hne). set_solver.
  - destruct (decide (u = v)) as [->|]; [|rewrite Hu by done; apply Hb]. rewrite Hv.
    intros fd Ho Hfd. apply (Hb v fd); [|done]. apply Hnew; [done|]. apply Hdom. by left.
  - assert (Hone : ∀ u, u ≠ v → o' ## own_of objs u).
    { intros u Hne' fd Ho Hfd. apply (Hd v u (not_eq_sym Hne') fd); [|done].
      apply Hnew; [done|]. apply Hdom. right. by exists u. }
    destruct (decide (u1 = v)) as [->|H1], (decide (u2 = v)) as [->|H2]; rewrite ?Hv, ?Hu by done;
      [done|by apply Hone|symmetry; by apply Hone|by apply Hd].
Qed.

(** What [other] owned, [v], which owned nothing, owns afterwards. *)
Lemma accounted_move base n objs w v other objs' :
  accounted base n objs w → v ≠ other → own_of objs v = ∅ →
  own_of objs' v = own_of objs other → own_of objs' other = ∅ →
  (∀ u, u ≠ v → u ≠ other → own_of objs' u = own_of objs u) →
  accounted base n objs' w.
Proof.
  intros [Hdom Hb Hd Hs] Hne Hv Hv' Ho' Hu.
  assert (Hsame : ∀ u, u ≠ v → own_of objs' u ⊆ own_of objs u).
  { intros u Huv. destruct (decide (u = other)) as [->|]; [rewrite Ho'|rewrite Hu by done]; set_solver. }
  split; [|intros u|intros u1 u2 Hne'|done].
  - intros fd. rewrite Hdom. split; (intros [?|[u Hin]]; [by left|right]).
    + destruct (decide (u = other)) as [->|]; [exists v; by rewrite Hv'|]. exists u.
      destruct (decide (u = v)) as [->|]; [set_solver|by rewrite Hu].
    + destruct (decide (u = v)) as [->|]; [exists other; by rewrite <- Hv'|exists u; by apply Hsame].
  - destruct (decide (u = v)) as [->|]; [rewrite Hv'|]; [apply Hb|]. specialize (Hb u). set_solver.
  - assert (Hone : ∀ u, u ≠ v → own_of objs' v ## own_of objs' u).
    { intros u Huv. destruct (decide (u = other)) as [->|]; [rewrite Ho'; set_solver|].
      rewrite Hv', Hu by done. by apply Hd. }
    destruct (decide (u1 = v)) as [->|H1]; [by apply Hone|].
    destruct (decide (u2 = v)) as [->|H2]; [symmetry; by apply Hone|].
    specialize (Hd u1 u2 Hne'). set_solver.
Qed.

Lemma own_of_insert objs v c u : own_of (<[v := c]> objs) u = if decide (v = u) then owned c else own_of objs u.
Proof. unfold own_of. destruct (decide (v = u)) as [->|]; [by rewrite lookup_insert_eq|by rewrite lookup_insert_ne]. Qed.
Lemma own_of_delete objs v u : own_of (delete v objs) u = if decide (v = u) then ∅ else own_of objs u.
Proof. unfold own_of. destruct (decide (v = u)) as [->|]; [by rewrite lookup_delete_eq|by rewrite lookup_delete_ne]. Qed.
Lemma own_of_lookup objs v c : objs !! v = Some c → own_of objs v = owned c.
Proof. unfold own_of. by intros ->. Qed.
Lemma own_of_absent objs v : objs !! v = None → own_of objs v = ∅.
Proof. unfold own_of. by intros ->. Qed.

Hint Rewrite own_of_insert own_of_delete : own.
Ltac own_solve := intros; autorewrite with own; repeat case_decide; congruence || done.

(** One object's operation. *)
Lemma accounted_update base n objs w v c c' w' :
  accounted base n objs w → own_of objs v = owned c → transfer w (owned c) w' (owned c') →
  accounted base n (<[v := c']> objs) w'.
Proof. intros Ha Hc Ht. eapply (accounted_transfer _ _ _ _ v); [done|by rewrite Hc|own_solve..]. Qed.

Lemma step_client_accounted base n op objs w objs' w' :
  accounted base n objs w → step_client op objs w = Some (objs', w') → accounted base n objs' w'.
Proof.
  intros Ha H. destruct op as [v|v ep op|v sql op|v|v other|v other|v]; cbn in H.
  - destruct (objs !! v) eqn:Ev; [done|]. injection H as <- <-.
    eapply (accounted_update _ _ _ _ _ None); [done|by apply own_of_absent|apply transfer_refl].
  - apply bind_Some in H as (c & Hc & H). destruct (Connect c ep op w) as [[st c'] w1] eqn:E.
    injection H as <- <-. apply Connect_transfer in E as (Ht & _). eapply accounted_update; [done|by apply own_of_lookup|done].
  - apply bind_Some in H as (c & Hc & H).
    destruct (Execute strerror write_error c sql op () w) as [[[r x] c'] w1] eqn:E.
    injection H as <- <-. apply Execute_transfer in E as (Ht & _). eapply accounted_update; [done|by apply own_of_lookup|done].
  - apply bind_Some in H as (c & Hc & H). destruct (Close c w) as [c' w1] eqn:E.
    injection H as <- <-. apply Close_transfer in E as (Ht & _). eapply accounted_update; [done|by apply own_of_lookup|done].
  - destruct (objs !! v) eqn:Ev; [done|]. apply bind_Some in H as (c & Hc & H). injection H as <- <-.
    assert (v ≠ other) by congruence.
    eapply (accounted_move _ _ objs _ v other); [done|done|by apply own_of_absent|..|own_solve].
    + autorewrite with own. rewrite decide_True by done. by rewrite (own_of_lookup _ _ _ Hc).
    + own_solve.
  - case_bool_decide as Hne; [done|]. apply bind_Some in H as (c & Hc & H). apply bind_Some in H as (d & Hd & H).
    injection H as <- <-.
    pose proof (accounted_update _ _ _ _ v c None _ Ha (own_of_lookup _ _ _ Hc) (Impl_destroy_transfer c w)) as Ha'.
    eapply (accounted_move _ _ _ _ v other); [exact Ha'|done|own_solve|..|own_solve].
    + autorewrite with own. rewrite decide_True, decide_False by done. by rewrite (own_of_lookup _ _ _ Hd).
    + own_solve.
  - apply bind_Some in H as (c & Hc & H). injection H as <- <-.
    eapply (accounted_transfer _ _ _ _ v); [done| |own_solve..].
    rewrite (own_of_lookup _ _ _ Hc). apply Client_destroy_transfer.
Qed.

Lemma run_clients_accounted base n ops objs w objs' w' :
  accounted base n objs w → run_clients ops objs w = Some (objs', w') → accounted base n objs' w'.
Proof.
  revert objs w. induction ops as [|op ops IH]; intros objs w Ha; cbn; [by intros [= <- <-]|].
  intros ([objs1 w1] & Hs & Hr)%bind_Some. eapply IH; [by eapply step_client_accounted|done].
Qed.

Lemma accounted_start w : accounted (dom (fds w)) (stray w) ∅ w.
Proof.
  assert (He : ∀ v, own_of ∅ v = ∅) by (intros v; apply own_of_absent, lookup_empty).
  split; [|intros; rewrite He; set_solver..|done].
  intros fd. split; [by left|]. intros [?|[v Hv]]; [done|]. rewrite He in Hv. set_solver.
Qed.

(** C28. Descriptors are owned.  A program that creates, connects, uses, moves, closes
    and destroys any number of clients, whatever the system calls answer, ends with
    exactly the descriptors it started with and one more for each open client, no two
    clients sharing one; no descriptor is used or closed after it was closed; and when
    the last client is gone no descriptor is left behind. *)
Theorem clients_own_descriptors ops w objs w' :
  run_clients ops ∅ w = Some (objs, w') →
  (∀ fd, fd ∈ dom (fds w') ↔ fd ∈ dom (fds w) ∨ ∃ v, objs !! v = Some (Some fd) ∧ 0 ≤ fd) ∧
  (∀ v fd, objs !! v = Some (Some fd) → 0 ≤ fd → fd ∉ dom (fds w)) ∧
  (∀ v1 v2 fd, objs !! v1 = Some (Some fd) → objs !! v2 = Some (Some fd) → 0 ≤ fd → v1 = v2) ∧
  stray w' = stray w ∧
  (objs = ∅ → dom (fds w') = dom (fds w)).
Proof.
  intros Hr. pose proof (run_clients_accounted _ _ _ _ _ _ _ (accounted_start w) Hr) as [Hdom Hb Hd Hs].
  assert (Hown : ∀ v fd, fd ∈ own_of objs v ↔ objs !! v = Some (Some fd) ∧ 0 ≤ fd).
  { intros v fd. unfold own_of, owned, held. destruct (objs !! v) as [[g|]|]; cbn; [|set_solver..].
    destruct (0 <=? g) eqn:E; split_bools; [|set_solver by lia]. rewrite elem_of_singleton. naive_solver. }
  split_and!.
  - intros fd. rewrite Hdom. by setoid_rewrite Hown.
  - intros v fd Hv Hfd. pose proof (proj2 (Hown v fd) (conj Hv Hfd)). specialize (Hb v). set_solver.
  - intros v1 v2 fd H1 H2 Hfd. destruct (decide (v1 = v2)) as [|Hne]; [done|].
    pose proof (proj2 (Hown v1 fd) (conj H1 Hfd)). pose proof (proj2 (Hown v2 fd) (conj H2 Hfd)).
    specialize (Hd v1 v2 Hne). set_solver.
  - done.
  - intros ->. apply set_eq. intros fd. rewrite Hdom. split; [|by left].
    intros [?|[v Hv]]; [done|]. apply Hown in Hv as [Hv _]. by rewrite lookup_empty in Hv.
Qed.

(** The connection state is visible.  A successful [Connect] leaves the client
    open, a failed one leaves it closed (or, when only the options were invalid,
    untouched); after [Execute] the client is open exactly when it was before and the
    result calls the connection reusable; [Close] closes; and executing on a client
    that is not open reports a transport error and touches no descriptor. *)
Theorem client_lifecycle {St} c w :
  (∀ endpoint options st c' w', Connect c endpoint options w = (st, c', w') →
     (status_ok st = true → is_open c' = true) ∧
     (status_ok st = false → is_open c' = true → (c', w') = (c, w))) ∧
  (∀ sql options (x : St) r x' c' w', Execute strerror write_error c sql options x w = (r, x', c', w') →
     is_open c' = is_open c && connection_reusable r ∧
     (is_open c = false → status r = TransportError ∧ x' = x ∧ fds w' = fds w)) ∧
  (∀ c' w', Close c w = (c', w') → is_open c' = false).
Proof.
  split_and!.
  - intros * H. apply Connect_transfer in H. tauto.
  - intros * H. split; [by apply Execute_transfer in H as [_ ?]|]. intros Hc.
    unfold Execute in H. destruct c as [fd|]; [|by simplify_eq]. cbn in Hc. apply Z.leb_gt in Hc.
    unfold ExecStreamResult in H. rewrite (proj2 (Z.ltb_lt fd 0)), (proj2 (Z.leb_gt 0 fd)) in H by done.
    rewrite andb_false_r in H. injection H as <- <- <- <-. split_and!; [done..|]. cbn. unfold stream.
    destruct (fds w !! fd) eqn:E; [|done]. by apply insert_id.
  - intros * H. by apply Close_transfer in H as [_ ?].
Qed.
End Facts.

(** ** A concrete program *)

Definition yes : Answer := mkAnswer 0 0 0 [] no_peer 1.
Definition no (e : Z) : Answer := mkAnswer (-1) e 0 [] no_peer 1.

(** A server that answers the handshake and one statement, behind a connection that is
    in progress first and whose [poll] is interrupted once. *)
Definition sample_script : list Answer :=
  let answering := mkSock (handshake_bytes ++ frame_image (mkFrame kTagCommandOk 0 [])) [RChunk 2; REintr] [] [SChunk 3] in
  [mkAnswer 3 0 0 [] answering 1; yes; yes; no EINPROGRESS; no EINTR; mkAnswer 1 0 0 [] no_peer 1; yes; yes;
   yes; yes; yes; yes; yes; yes].

Definition sample_net : Net := mkNet {[0 := no_peer; 1 := no_peer; 2 := no_peer]} sample_script 0 0.

Definition sample_ops : list client_op :=
  [New "a"; DoConnect "a" (Endpoint_Unix (str "/tmp/rucbase.sock")) ClientOptions_default;
   DoExecute "a" (str "show tables;") (mkOptions true None None);
   MoveNew "b" "a"; DoExecute "a" (str "x;") (mkOptions true None None)]%string.

Definition sample_objs : gmap string Client := {["a" := None; "b" := Some 3]}%string.

Definition run_sample ops : option (gmap string Client * Net) :=
  run_clients (λ _, []) (λ _, []) (λ _, []) ops ∅ sample_net.

(** The connection is made, moves to [b], and the moved-from client refuses to work. *)
Example sample_program : fst <$> run_sample sample_ops = Some sample_objs.
Proof. vm_compute. reflexivity. Qed.

Lemma clients_own_descriptors_witness :
  ∃ w', run_sample (sample_ops ++ [Destroy "b"; Destroy "a"]%string) = Some (∅, w') ∧
        dom (fds w') = dom (fds sample_net) ∧ stray w' = 0%nat.
Proof.
  destruct (run_sample (sample_ops ++ [Destroy "b"; Destroy "a"]%string)) as [[objs w']|] eqn:E;
    [|vm_compute in E; discriminate E].
  assert (objs = ∅) as -> by (vm_compute in E; injection E as <- _; reflexivity).
  exists w'. split; [done|].
  apply (clients_own_descriptors (λ _, []) (λ _, []) (λ _, [])) in E as (_ & _ & _ & Hs & Hall).
  split; [by apply Hall|exact Hs].
Defined.
