(* ===== verification/SqlClient.v ===== *)
(** * The command-line client

    Models [src/rucbase_client/main.cpp] and [src/src/common/banner.h]: splitting text
    into statements, sending them over a [Client], printing results, and the script
    and interactive modes.  Standard output and standard error are the bytes written
    so far; standard input is the list of lines still to be read. *)

From S2P Require Import Prelude Wire WireCodec WireText WireIO WireTransport WireClient Client.

(** ** Characters *)

Definition ch_newline : byte := Byte.x0a.
Definition ch_quote : byte := Byte.x27.
Definition ch_star : byte := Byte.x2a.
Definition ch_minus : byte := Byte.x2d.
Definition ch_slash : byte := Byte.x2f.
Definition ch_semicolon : byte := Byte.x3b.
Definition ch_nul : byte := Byte.x00.

Notation "x == y" := (bool_decide (x = y)) (at level 70) : byte_scope.
Local Open Scope byte_scope.

(** [std::isspace] in the C locale. *)
Definition isspace (ch : byte) : bool :=
  (ch == Byte.x20) || ((9 <=? byte.unsigned ch) && (byte.unsigned ch <=? 13)).

(** The set of blanks of [Trim]. *)
Definition trimmed (ch : byte) : bool :=
  (ch == Byte.x20) || (ch == Byte.x09) || (ch == Byte.x0d) || (ch == Byte.x0a).

(** [find_first_not_of] and [find_last_not_of]; [None] is [npos]. *)
Fixpoint find_first_not_of (p : byte → bool) (input : bytes) : option nat :=
  match input with
  | [] => None
  | ch :: input => if p ch then S <$> find_first_not_of p input else Some O
  end.

Fixpoint find_last_not_of (p : byte → bool) (input : bytes) : option nat :=
  match input with
  | [] => None
  | ch :: input =>
    match find_last_not_of p input with
    | Some i => Some (S i)
    | None => if p ch then None else Some O
    end
  end.

Definition substr (input : bytes) (pos count : nat) : bytes := take count (drop pos input).

Definition Trim (input : bytes) : bytes :=
  match find_first_not_of trimmed input with
  | None => []
  | Some begin_ =>
    match find_last_not_of trimmed input with
    | None => []
    | Some end_ => substr input begin_ (end_ - begin_ + 1)
    end
  end.

(** ** TakeCompleteStatements *)

Record ScanState := mkScan {
  statements : list bytes; statement_start : nat;
  in_string : bool; in_line_comment : bool; in_block_comment : bool; tail_has_sql : bool }.

(** One turn of the loop at [index]; the flag says that the body did [++index]. *)
Definition scan_turn (input : bytes) (index : nat) (ch next : byte) (s : ScanState) : ScanState * bool :=
  let '(mkScan stmts start str line block sql) := s in
  if line then
    if ch == ch_newline then (mkScan stmts start str false block sql, false) else (s, false)
  else if block then
    if (ch == ch_star) && (next == ch_slash) then (mkScan stmts start str line false sql, true) else (s, false)
  else if str then
    if ch == ch_quote then
      if next == ch_quote then (s, true) else (mkScan stmts start false line block sql, false)
    else (s, false)
  else if (ch == ch_minus) && (next == ch_minus) then (mkScan stmts start str true block sql, true)
  else if (ch == ch_slash) && (next == ch_star) then (mkScan stmts start str line true sql, true)
  else if ch == ch_quote then (mkScan stmts start true line block true, false)
  else if ch == ch_semicolon then
    (mkScan (if sql then stmts ++ [substr input start (index - start + 1)] else stmts) (index + 1)
       str line block false, false)
  else if negb (isspace ch) then (mkScan stmts start str line block true, false)
  else (s, false).

(** The [for] loop: [rest] is [input] from [index] on. *)
Fixpoint scan_loop (input : bytes) (index : nat) (rest : bytes) (s : ScanState) : ScanState :=
  match rest with
  | [] => s
  | ch :: rest' =>
    let next := match rest' with next :: _ => next | [] => ch_nul end in
    match scan_turn input index ch next s with
    | (s, false) => scan_loop input (index + 1) rest' s
    | (s, true) =>
      match rest' with
      | [] => s
      | _ :: rest'' => scan_loop input (index + 2) rest'' s
      end
    end
  end.

(** The statements and what is left in [input]. *)
Definition TakeCompleteStatements (input : bytes) : list bytes * bytes :=
  let s := scan_loop input 0 input (mkScan [] 0 false false false false) in
  (statements s,
   if negb (tail_has_sql s) && negb (in_block_comment s) then [] else drop (statement_start s) input).

Definition IsExitCommand (command : bytes) : bool :=
  let trimmed := Trim command in
  bool_decide (trimmed = str "exit") || bool_decide (trimmed = str "exit;") ||
  bool_decide (trimmed = str "bye") || bool_decide (trimmed = str "bye;").

Example take_examples :
  TakeCompleteStatements (str "select ';' -- ; no" ++ newline ++ str "from t; ; /* ; */ ; upda") =
    ([str "select ';' -- ; no" ++ newline ++ str "from t;"], str " upda") ∧
  TakeCompleteStatements (str "a;b;/* open ") = ([str "a;"; str "b;"], str "/* open ") ∧
  TakeCompleteStatements (str "insert 'it''s;' ; -- done") = ([str "insert 'it''s;' ;"], []).
Proof. vm_compute. split_and!; reflexivity. Qed.

(** ** Sending statements *)

(** The terminal. *)
Record Console := mkConsole { cout : bytes; cerr : bytes }.
Definition print (s : bytes) (con : Console) : Console := mkConsole (cout con ++ s) (cerr con).
Definition eprint (s : bytes) (con : Console) : Console := mkConsole (cout con) (cerr con ++ s).

(** [std::cout << s; if (s.back() != '\n') std::cout << '\n';] *)
Definition print_line (s : bytes) (con : Console) : Console :=
  let con := print s con in
  if match last s with Some ch => ch == ch_newline | None => false end then con else print newline con.

Definition escape (code : string) : bytes := Byte.x1b :: str code.
Definition kRed : bytes := escape "[1;31m".
Definition kBlue : bytes := escape "[1;34m".
Definition kReset : bytes := escape "[0m".

Section Client.
Context (strerror gai_strerror : Z → bytes) (write_error : Sock → bytes).

(** The client, the operating system and the terminal. *)
Record Cli := mkCli { client : Client; net : Net; console : Console }.

Definition client_execute {St} (sql : bytes) (options : @ExecuteOptions St) (c : St) (s : Cli)
  : ExecuteResult * St * Cli :=
  let '(result, c, cl, w) := Execute strerror write_error (client s) sql options c (net s) in
  (result, c, mkCli cl w (console s)).

Definition printing (f : Console → Console) (s : Cli) : Cli := mkCli (client s) (net s) (f (console s)).

(** What [SendSql] prints of a result. *)
Definition show_result (result : ExecuteResult) (highlight_errors : bool) (con : Console) : Console :=
  if negb (result_ok result) then
    let con := if highlight_errors then print kRed con else con in
    let con := match diagnostic result with
               | [] => print (str "EXEC_STREAM failed" ++ newline) con
               | _ => print_line (diagnostic result) con
               end in
    if highlight_errors then print kReset con else con
  else if bool_decide (status result = CommandOk) then print (str "Query OK" ++ newline) con
  else match text result with
  | [] => con
  | _ => print_line (text result) con
  end.

Definition SendSql (sql : bytes) (highlight_errors : bool) (s : Cli) : ExecuteResult * Cli :=
  let command := Trim sql in
  let '(result, _, s) := client_execute command (mkOptions (St := unit) true None None) tt s in
  (result, printing (show_result result highlight_errors) s).

(** The [on_row] callback of [FetchDatabaseName] over the captured [database_name]. *)
Definition database_row (database_name : bytes) (row : list Cell) : callback_outcome * bytes :=
  match row with
  | [cell] =>
    if negb (is_null cell) && (cell_sql_type cell =? kTypeChar)
    then (CbContinue, str_val cell) else (CbContinue, database_name)
  | _ => (CbContinue, database_name)
  end.

Definition FetchDatabaseName (s : Cli) : bytes * Cli :=
  let '(result, database_name, s) :=
    client_execute (str "show database;") (mkOptions false None (Some database_row)) [] s in
  if negb (result_ok result) || negb (row_count result =? 1) || negb (zlen (columns result) =? 1) ||
     match columns result with c :: _ => negb (column_sql_type c =? kTypeChar) | [] => false end
  then (str "?", s)
  else match Trim database_name with [] => (str "?", s) | name => (name, s) end.

(** [for (const std::string& statement : statements)] of [RunSqlText]. *)
Fixpoint run_statements (l : list bytes) (s : Cli) : bool * Cli :=
  match l with
  | [] => (true, s)
  | statement :: l =>
    if IsExitCommand statement then (true, s)
    else
      let '(result, s) := SendSql statement false s in
      if negb (result_ok result) then (false, s) else run_statements l s
  end.

(** The statements of a script. *)
Definition script_statements (sql : bytes) : list bytes :=
  let '(stmts, sql) := TakeCompleteStatements sql in
  match Trim sql with [] => stmts | tail => stmts ++ [tail] end.

Definition RunSqlText (sql : bytes) (s : Cli) : bool * Cli := run_statements (script_statements sql) s.

(** [file] is what the path holds, [None] when it cannot be opened. *)
Definition RunScriptFile (path : bytes) (file : option bytes) (s : Cli) : bool * Cli :=
  match file with
  | None => (false, printing (eprint (str "failed to open SQL file: " ++ path ++ newline)) s)
  | Some content => RunSqlText content s
  end.

(** The inner loop of [RunInteractive]: an exit code, or go on. *)
Fixpoint interactive_statements (l : list bytes) (s : Cli) : option Z * Cli :=
  match l with
  | [] => (None, s)
  | statement :: l =>
    if IsExitCommand statement
    then (Some 0, printing (print (str "The client will be closed." ++ newline)) s)
    else
      let '(result, s) := SendSql statement true s in
      if negb (result_ok result) && negb (connection_reusable result) then (Some 1, s)
      else interactive_statements l s
  end.

Definition primary_prompt (database_name : bytes) : bytes := str "RUCBase(" ++ database_name ++ str ")> ".
Definition continuation_prompt (database_name : bytes) : bytes :=
  replicate (length (primary_prompt database_name) - 3) Byte.x20.

Fixpoint interactive_loop (database_name pending : bytes) (stdin : list bytes) (s : Cli) : Z * Cli :=
  let prompt := match pending with
                | [] => primary_prompt database_name
                | _ => continuation_prompt database_name ++ str "-> "
                end in
  let s := printing (print prompt) s in
  match stdin with
  | [] =>
    let s := printing (print newline) s in
    (0, match Trim pending with
        | [] => s
        | _ => printing (eprint (str "incomplete SQL statement discarded" ++ newline)) s
        end)
  | line :: stdin =>
    let pending := (pending ++ line) ++ newline in
    if IsExitCommand pending
    then (0, printing (print (str "The client will be closed." ++ newline)) s)
    else
      let '(stmts, pending) := TakeCompleteStatements pending in
      match interactive_statements stmts s with
      | (Some exit_code, s) => (exit_code, s)
      | (None, s) => interactive_loop database_name pending stdin s
      end
  end.

Definition RunInteractive (database_name : bytes) (stdin : list bytes) (s : Cli) : Z * Cli :=
  interactive_loop database_name [] stdin s.

Definition PrintRucbaseBanner (con : Console) : Console :=
  print (newline ++
    kRed ++ str "██████╗ ██╗   ██╗ ██████╗" ++ kBlue ++ str " ██████╗  █████╗ ███████╗███████╗" ++ newline ++
    kRed ++ str "██╔══██╗██║   ██║██╔════╝" ++ kBlue ++ str " ██╔══██╗██╔══██╗██╔════╝██╔════╝" ++ newline ++
    kRed ++ str "██████╔╝██║   ██║██║     " ++ kBlue ++ str " ██████╔╝███████║███████╗█████╗  " ++ newline ++
    kRed ++ str "██╔══██╗██║   ██║██║     " ++ kBlue ++ str " ██╔══██╗██╔══██║╚════██║██╔══╝  " ++ newline ++
    kRed ++ str "██║  ██║╚██████╔╝╚██████╗" ++ kBlue ++ str " ██████╔╝██║  ██║███████║███████╗" ++ newline ++
    kRed ++ str "╚═╝  ╚═╝ ╚═════╝  ╚═════╝" ++ kBlue ++ str " ╚═════╝ ╚═╝  ╚═╝╚══════╝╚══════╝" ++ newline ++
    kReset ++ newline) con.

(** [RunClient] once the command line is read: [-h], [-p], and [-e] or [-f]. *)
Definition run_client (server_host : bytes) (server_port : Z) (execute_sql : option bytes)
    (script_file : option (bytes * option bytes)) (stdin : list bytes) (w : Net) (con : Console)
  : Z * Net * Console :=
  match execute_sql, script_file with
  | Some _, Some _ => (1, w, eprint (str "-e and -f cannot be used together" ++ newline) con)
  | _, _ =>
    let '(connect_status, cl, w) :=
      ConnectTcp strerror gai_strerror Client_new server_host (u16 server_port) ClientOptions_default w in
    if negb (status_ok connect_status)
    then (1, Client_destroy cl w,
          eprint (message connect_status ++ newline ++ str "Hint: start the server first, e.g." ++ newline ++
                  str "  ./bin/rmdb -p " ++ to_string server_port ++ str " <database_name>" ++ newline) con)
    else
      let s := mkCli cl w con in
      let '(exit_code, s) :=
        match execute_sql, script_file with
        | Some sql, _ => let '(ok, s) := RunSqlText sql s in ((if ok then 0 else 1), s)
        | None, Some (path, file) => let '(ok, s) := RunScriptFile path file s in ((if ok then 0 else 1), s)
        | None, None =>
          let '(database_name, s) := FetchDatabaseName s in
          let s := printing (λ con,
            let con := PrintRucbaseBanner con in
            let con := print (str "Connected to " ++ server_host ++ str ":" ++ to_string server_port ++ newline) con in
            let con := print (str "Database: " ++ database_name ++ newline) con in
            print (str "Type 'help;' for server help, 'exit;' to quit." ++ newline ++ newline) con) s in
          let '(exit_code, s) := RunInteractive database_name stdin s in
          (exit_code, printing (print (str "Bye." ++ newline)) s)
        end in
      (exit_code, Client_destroy (client s) (net s), console s)
  end.

End Client.
