(* ===== verification/SqlClientFacts.v ===== *)
(** * The command-line client: what the statement splitter guarantees

    [TakeCompleteStatements] scans with three flags and indices into its argument.
    [segments] below is the same scan on lexical modes, without indices; the two agree
    ([take_segments]), and the properties of the splitter are proved on [segments]. *)

From S2P Require Import Prelude Wire WireCodec WireText WireIO WireTransport WireClient Client ClientFacts SqlClient.
Local Open Scope byte_scope.

(** ** Lexical modes *)

Inductive mode := Ground | InString | InLine | InBlock.

#[global] Instance mode_eq_dec : EqDecision mode.
Proof. solve_decision. Defined.

(** What a character is: part of a comment or a blank, SQL, or the end of a statement. *)
Inductive class := Blank | Sql | Sep.

#[global] Instance class_eq_dec : EqDecision class.
Proof. solve_decision. Defined.

(** The mode behind the character, whether it takes the next one along, its class. *)
Definition lex (m : mode) (ch next : byte) : mode * bool * class :=
  match m with
  | InLine => (if ch == ch_newline then Ground else InLine, false, Blank)
  | InBlock => if (ch == ch_star) && (next == ch_slash) then (Ground, true, Blank) else (InBlock, false, Blank)
  | InString =>
    if ch == ch_quote then if next == ch_quote then (InString, true, Blank) else (Ground, false, Blank)
    else (InString, false, Blank)
  | Ground =>
    if (ch == ch_minus) && (next == ch_minus) then (InLine, true, Blank)
    else if (ch == ch_slash) && (next == ch_star) then (InBlock, true, Blank)
    else if ch == ch_quote then (InString, false, Sql)
    else if ch == ch_semicolon then (Ground, false, Sep)
    else if negb (isspace ch) then (Ground, false, Sql)
    else (Ground, false, Blank)
  end.

Definition peek (rest : bytes) : byte := match rest with next :: _ => next | [] => ch_nul end.

(** The part of a statement read so far, its mode, and whether it holds SQL. *)
Record Part := mkPart { part_text : bytes; part_mode : mode; part_sql : bool }.
Definition fresh_part : Part := mkPart [] Ground false.

Definition saw (c : class) (sql : bool) : bool := match c with Sql => true | _ => sql end.

(** Complete parts with their flag, and the part that is open at the end. *)
Fixpoint segments (p : Part) (rest : bytes) : list (bytes * bool) * Part :=
  match rest with
  | [] => ([], p)
  | ch :: rest' =>
    let '(m, skip, c) := lex (part_mode p) ch (peek rest') in
    let sql := saw c (part_sql p) in
    match c, skip, rest' with
    | Sep, _, _ =>
      let '(segs, q) := segments fresh_part rest' in ((part_text p ++ [ch], sql) :: segs, q)
    | _, true, ch2 :: rest'' => segments (mkPart (part_text p ++ [ch; ch2]) m sql) rest''
    | _, _, _ => segments (mkPart (part_text p ++ [ch]) m sql) rest'
    end
  end.

(** ** The scan computes the segments *)

Definition is_mode (m : mode) (s : ScanState) : Prop :=
  in_string s = bool_decide (m = InString) ∧ in_line_comment s = bool_decide (m = InLine) ∧
  in_block_comment s = bool_decide (m = InBlock).

Definition kept (segs : list (bytes * bool)) : list bytes := (filter (λ x, x.2 = true) segs).*1.

(** A two-step induction on the text, as the scan walks it. *)
Lemma two_step_ind (P : bytes → Prop) :
  (∀ rest, (∀ rest', (length rest' < length rest)%nat → P rest') → P rest) → ∀ rest, P rest.
Proof. intros H rest. induction (well_founded_ltof _ (@length byte) rest) as [r _ IH]. by apply H. Qed.

(** One turn of the source's loop, by mode. *)
Lemma scan_turn_lex input index ch next s m :
  is_mode m s →
  let '(m', skip, c) := lex m ch next in
  let s' := (scan_turn input index ch next s).1 in
  (scan_turn input index ch next s).2 = skip ∧ is_mode m' s' ∧
  match c with
  | Sep => statements s' = (if tail_has_sql s
             then statements s ++ [substr input (statement_start s) (index - statement_start s + 1)] else statements s) ∧
           statement_start s' = (index + 1)%nat ∧ tail_has_sql s' = false
  | _ => statements s' = statements s ∧ statement_start s' = statement_start s ∧
         tail_has_sql s' = saw c (tail_has_sql s)
  end.
Proof.
  destruct s as [stmts start st li bl sql]. unfold is_mode; cbn. intros (-> & -> & ->).
  destruct m; cbn; repeat (case_match; cbn in *); simplify_eq; try done.
Qed.

Lemma lex_skip_peek m ch rest m' c : lex m ch (peek rest) = (m', true, c) → ∃ ch2 rest', rest = ch2 :: rest'.
Proof.
  destruct rest as [|ch2 rest']; [|by eauto]. cbn.
  destruct m; cbn; repeat case_match; intros; simplify_eq; split_bools; simplify_eq.
Qed.

(** ** Walking the segments *)

Inductive reads (m : mode) (ch : byte) (rest : bytes) : Prop :=
| reads_sep : lex m ch (peek rest) = (Ground, false, Sep) → m = Ground → ch = ch_semicolon → reads m ch rest
| reads_one m' c : lex m ch (peek rest) = (m', false, c) → c ≠ Sep → reads m ch rest
| reads_two m' ch2 rest' : rest = ch2 :: rest' → lex m ch ch2 = (m', true, Blank) →
    ch2 = ch_minus ∨ ch2 = ch_star ∨ ch2 = ch_slash ∨ ch2 = ch_quote → reads m ch rest.

Lemma lex_reads m ch rest : reads m ch rest.
Proof.
  destruct (lex m ch (peek rest)) as [[m' []] c] eqn:E.
  - destruct (lex_skip_peek _ _ _ _ _ E) as (ch2 & rest' & ->). cbn in E.
    assert (c = Blank ∧ (ch2 = ch_minus ∨ ch2 = ch_star ∨ ch2 = ch_slash ∨ ch2 = ch_quote)) as [-> H].
    { destruct m; cbn in E; repeat case_match; simplify_eq; split_bools; simplify_eq; tauto. }
    by eapply reads_two.
  - destruct (decide (c = Sep)) as [->|Hc]; [|by eapply reads_one].
    assert (m' = Ground ∧ m = Ground ∧ ch = ch_semicolon) as (-> & -> & ->); [|by apply reads_sep].
    destruct m; cbn in E; repeat case_match; simplify_eq; split_bools; simplify_eq; done.
Qed.

Lemma segments_sep p rest :
  part_mode p = Ground →
  segments p (ch_semicolon :: rest) =
  ((part_text p ++ [ch_semicolon], part_sql p) :: (segments fresh_part rest).1, (segments fresh_part rest).2).
Proof. destruct p as [t m s]. cbn. intros ->. cbn. by destruct (segments fresh_part rest). Qed.

Lemma segments_one p ch rest m c :
  lex (part_mode p) ch (peek rest) = (m, false, c) → c ≠ Sep →
  segments p (ch :: rest) = segments (mkPart (part_text p ++ [ch]) m (saw c (part_sql p))) rest.
Proof. cbn [segments]. intros -> Hc. by destruct c. Qed.

Lemma segments_two p ch ch2 rest m :
  lex (part_mode p) ch ch2 = (m, true, Blank) →
  segments p (ch :: ch2 :: rest) = segments (mkPart (part_text p ++ [ch; ch2]) m (part_sql p)) rest.
Proof. cbn [segments peek]. by intros ->. Qed.

(** Nothing is lost. *)
Lemma segments_concat rest : ∀ p,
  concat (segments p rest).1.*1 ++ part_text (segments p rest).2 = part_text p ++ rest.
Proof.
  induction rest as [[|ch rest] IH] using two_step_ind; intros p; [by rewrite app_nil_r|].
  destruct (lex_reads (part_mode p) ch rest) as [_ Hm ->|m c E Hc|m ch2 rest' -> E _].
  - rewrite segments_sep by done. cbn. specialize (IH rest ltac:(cbn; lia) fresh_part). cbn in IH.
    by rewrite <- !app_assoc, IH.
  - erewrite segments_one by done. rewrite IH by (cbn; lia). cbn. by rewrite <- app_assoc.
  - erewrite segments_two by done. rewrite IH by (cbn; lia). cbn. by rewrite <- app_assoc.
Qed.

(** The text in front of the open part only goes into the first segment. *)
Lemma segments_shift x rest : ∀ t m s,
  segments (mkPart (x ++ t) m s) rest =
  match segments (mkPart t m s) rest with
  | ([], q) => ([], mkPart (x ++ part_text q) (part_mode q) (part_sql q))
  | ((seg, b) :: segs, q) => ((x ++ seg, b) :: segs, q)
  end.
Proof.
  induction rest as [[|ch rest] IH] using two_step_ind; intros t m s; [done|].
  destruct (lex_reads m ch rest) as [_ Hm ->|m' c E Hc|m' ch2 rest' -> E _].
  - rewrite !segments_sep by done. cbn. by rewrite <- app_assoc.
  - rewrite !(segments_one _ _ _ m' c) by done. cbn. rewrite <- app_assoc. apply IH. cbn; lia.
  - rewrite !(segments_two _ _ _ _ m') by done. cbn. rewrite <- app_assoc. apply IH. cbn; lia.
Qed.

(** A character that neither starts nor ends a two-character token cuts the scan. *)
Definition cuts (e : byte) : Prop :=
  e ≠ ch_minus ∧ e ≠ ch_star ∧ e ≠ ch_slash ∧ e ≠ ch_quote.

Lemma lex_cuts m e x y : cuts e → lex m e x = lex m e y.
Proof.
  intros (H1 & H2 & H3 & H4). unfold lex.
  rewrite (bool_decide_eq_false_2 (e = ch_minus)), (bool_decide_eq_false_2 (e = ch_star)),
    (bool_decide_eq_false_2 (e = ch_slash)), (bool_decide_eq_false_2 (e = ch_quote)) by done.
  by destruct m.
Qed.

Lemma peek_app x e y : peek (x ++ e :: y) = peek (x ++ [e]).
Proof. by destruct x. Qed.

Lemma segments_cut e y x : cuts e → ∀ p,
  segments p (x ++ e :: y) =
  ((segments p (x ++ [e])).1 ++ (segments (segments p (x ++ [e])).2 y).1,
   (segments (segments p (x ++ [e])).2 y).2).
Proof.
  intros He. induction x as [x IH] using two_step_ind. intros p. destruct x as [|ch x]; cbn [app].
  - destruct (lex_reads (part_mode p) e y) as [_ Hm ->|m' c E Hc|m' ch2 rest' -> E _].
    + rewrite !segments_sep by done. done.
    + rewrite !(segments_one _ _ _ m' c); [|by rewrite (lex_cuts _ _ _ (peek y))|done..].
      cbn. by destruct (segments _ y).
    + rewrite (lex_cuts _ _ _ ch_nul) in E by done.
      by destruct (lex_skip_peek _ _ [] _ _ E) as (? & ? & ?).
  - destruct (lex_reads (part_mode p) ch (x ++ [e])) as [_ Hm ->|m' c E Hc|m' ch2 rest' Hr E H2].
    + rewrite !segments_sep by done. cbn. by rewrite (IH x) by (cbn; lia).
    + rewrite !(segments_one _ _ _ m' c) by (done || by rewrite peek_app). apply IH. cbn; lia.
    + destruct x as [|x0 x]; cbn in Hr; injection Hr as <- <-.
      { destruct He as (?&?&?&?). naive_solver. }
      cbn [app]. rewrite !(segments_two _ _ _ _ m') by done. apply IH. cbn; lia.
Qed.

(** The first segment, read on its own, is one complete statement. *)
Lemma segments_first rest : ∀ p seg b segs q,
  segments p rest = ((seg, b) :: segs, q) →
  ∃ x y, rest = x ++ ch_semicolon :: y ∧ seg = part_text p ++ x ++ [ch_semicolon] ∧
    segments p (x ++ [ch_semicolon]) = ([(seg, b)], fresh_part) ∧ segments fresh_part y = (segs, q).
Proof.
  induction rest as [[|ch rest] IH] using two_step_ind; intros p seg b segs q; [done|].
  destruct (lex_reads (part_mode p) ch rest) as [_ Hm ->|m' c E Hc|m' ch2 rest' -> E H2].
  - rewrite segments_sep by done. intros [= <- <- <- <-]. exists [], rest.
    cbn [app]. rewrite segments_sep by done. by destruct (segments fresh_part rest).
  - rewrite (segments_one _ _ _ m' c) by done. intros H.
    apply IH in H as (x & y & -> & -> & Hs & Hq); [|cbn; lia]. exists (ch :: x), y. split_and!; [done| |..|done].
    + cbn. by rewrite <- app_assoc.
    + cbn [app]. rewrite (segments_one _ _ _ m' c) by (done || by rewrite <- (peek_app _ _ y)). done.
  - rewrite (segments_two _ _ _ _ m') by done. intros H.
    apply IH in H as (x & y & -> & -> & Hs & Hq); [|cbn; lia]. exists (ch :: ch2 :: x), y. split_and!; [done| |..|done].
    + cbn. by rewrite <- app_assoc.
    + cbn [app]. by rewrite (segments_two _ _ _ _ m').
Qed.

(** Every segment, and the open part, read alone give themselves. *)
Lemma segments_each rest : ∀ segs q, segments fresh_part rest = (segs, q) →
  Forall (λ sb, segments fresh_part sb.1 = ([sb], fresh_part)) segs ∧ segments fresh_part (part_text q) = ([], q).
Proof.
  induction rest as [rest IH] using two_step_ind. intros [|[seg b] segs] q H.
  - split; [constructor|]. pose proof (segments_concat rest fresh_part) as Hc. rewrite H in Hc. cbn in Hc. by rewrite Hc.
  - apply segments_first in H as (x & y & -> & -> & Hs & Hq).
    destruct (IH y) with (segs := segs) (q := q) as [H1 H2]; [rewrite length_app; cbn; lia|done|].
    split; [constructor; [done|done]|done].
Qed.

(** ** The source's scan is [segments] *)

Lemma scan_loop_segments input rest : ∀ pre t s m,
  input = pre ++ t ++ rest → statement_start s = length pre → is_mode m s →
  let s' := scan_loop input (length pre + length t) rest s in
  let '(segs, q) := segments (mkPart t m (tail_has_sql s)) rest in
  statements s' = statements s ++ kept segs ∧
  drop (statement_start s') input = part_text q ∧
  is_mode (part_mode q) s' ∧ tail_has_sql s' = part_sql q.
Proof.
  induction rest as [[|ch rest] IH] using two_step_ind; intros pre t s m Hin Hst Hm.
  - cbn. rewrite app_nil_r. split_and!; try done. by rewrite Hst, Hin, drop_app_length, app_nil_r.
  - assert (Hturn := scan_turn_lex input (length pre + length t) ch (peek rest) s m Hm).
    cbn [scan_loop]. change (match rest with next :: _ => next | [] => ch_nul end) with (peek rest).
    destruct (scan_turn input (length pre + length t) ch (peek rest) s) as [s1 sk]. cbn in Hturn.
    destruct (lex_reads m ch rest) as [E -> ->|m' c E Hc|m' ch2 rest' -> E _].
    + rewrite E in Hturn. destruct Hturn as (-> & Hm1 & Hs1 & Hst1 & Hq1).
      rewrite segments_sep by done. cbn [part_text part_sql].
      specialize (IH rest ltac:(cbn; lia) (pre ++ t ++ [ch_semicolon]) [] s1 Ground).
      rewrite Hq1 in IH. cbn [length] in IH. rewrite !length_app in IH. cbn [length] in IH.
      replace (length pre + (length t + 1) + 0)%nat with (length pre + length t + 1)%nat in IH by lia.
      destruct (segments fresh_part rest) as [segs q] eqn:Eq. fold fresh_part in IH. rewrite Eq in IH. cbn [fst snd].
      destruct IH as (IHs & IHd & IHm & IHq); [by rewrite Hin, <- !app_assoc|by rewrite Hst1; lia|done|].
      split_and!; [|done..]. rewrite IHs, Hs1. unfold kept. cbn. destruct (tail_has_sql s); cbn; [|done].
      rewrite <- app_assoc. cbn. do 3 f_equal. unfold substr. rewrite Hst, Hin, drop_app_length.
      replace (length pre + length t - length pre + 1)%nat with (length (t ++ [ch_semicolon])) by (rewrite length_app; cbn; lia).
      replace (t ++ ch_semicolon :: rest) with ((t ++ [ch_semicolon]) ++ rest) by (by rewrite <- app_assoc).
      by rewrite take_app_length.
    + rewrite E in Hturn. destruct Hturn as (-> & Hm1 & H1).
      assert (statements s1 = statements s ∧ statement_start s1 = statement_start s ∧
              tail_has_sql s1 = saw c (tail_has_sql s)) as (Hs1 & Hst1 & Hq1) by (by destruct c).
      rewrite (segments_one _ _ _ m' c) by done. cbn [part_text part_sql].
      specialize (IH rest ltac:(cbn; lia) pre (t ++ [ch]) s1 m').
      rewrite Hq1, length_app, Nat.add_assoc, Hs1 in IH. apply IH; [by rewrite Hin, <- !app_assoc|congruence|done].
    + cbn [peek] in Hturn. rewrite E in Hturn. destruct Hturn as (-> & Hm1 & Hs1 & Hst1 & Hq1).
      rewrite (segments_two _ _ _ _ m') by done. cbn [part_text part_sql].
      specialize (IH rest' ltac:(cbn; lia) pre (t ++ [ch; ch2]) s1 m').
      rewrite Hq1, length_app, Nat.add_assoc, Hs1 in IH. apply IH; [by rewrite Hin, <- !app_assoc|congruence|done].
Qed.

(** What the splitter leaves of the open part. *)
Definition leftover (q : Part) : bytes :=
  if negb (part_sql q) && negb (bool_decide (part_mode q = InBlock)) then [] else part_text q.

Lemma take_segments input :
  TakeCompleteStatements input =
  (kept (segments fresh_part input).1, leftover (segments fresh_part input).2).
Proof.
  unfold TakeCompleteStatements, leftover.
  pose proof (scan_loop_segments input input [] [] (mkScan [] 0 false false false false) Ground eq_refl eq_refl
    ltac:(done)) as H. cbn [length] in H. change (0 + 0)%nat with 0%nat in H.
  change (segments (mkPart [] Ground _) input) with (segments fresh_part input) in H.
  destruct (segments fresh_part input) as [segs q]. cbn [fst snd].
  destruct H as (Hs & Hd & (_ & _ & Hb) & Hq). cbn in Hs. by rewrite Hs, Hb, Hq, Hd.
Qed.

Lemma kept_cons seg b segs : kept ((seg, b) :: segs) = if b then seg :: kept segs else kept segs.
Proof. by destruct b. Qed.

Lemma leftover_fresh : leftover fresh_part = [].
Proof. done. Qed.

Lemma take_alone sb : segments fresh_part sb.1 = ([sb], fresh_part) →
  TakeCompleteStatements sb.1 = (if sb.2 then [sb.1] else [], []).
Proof. intros H. rewrite take_segments, H. destruct sb as [seg []]; done. Qed.

(** Splitting loses nothing and never splits inside a string or a comment.  The
    text is cut into parts that end with a semicolon, and a rest; the statements are
    the parts that hold SQL, in order, and the others hold white space and comments
    only.  A statement given alone to the splitter is one complete statement again,
    and the text that is kept holds no complete statement and is kept as it is; the
    rest is dropped only when it holds no SQL and no open block comment. *)
Theorem take_statements_correct input : ∃ (parts : list (bytes * bool)) rest,
  input = concat parts.*1 ++ rest ∧
  (TakeCompleteStatements input).1 = (filter (λ part : bytes * bool, part.2 = true) parts).*1 ∧
  Forall (λ part : bytes * bool, TakeCompleteStatements part.1 = (if part.2 then [part.1] else [], [])) parts ∧
  TakeCompleteStatements rest = ([], (TakeCompleteStatements input).2) ∧
  (TakeCompleteStatements input).2 ∈ [[]; rest].
Proof.
  destruct (segments fresh_part input) as [segs q] eqn:E. exists segs, (part_text q).
  pose proof (segments_each _ _ _ E) as [Hs Hq]. pose proof (segments_concat input fresh_part) as Hc.
  rewrite !take_segments, E, Hq in *. cbn [fst snd] in *. split_and!; [done..| |done|].
  - apply (Forall_impl _ _ _ Hs). apply take_alone.
  - unfold leftover. destruct (_ && _); set_solver.
Qed.

(** ** Line by line *)

(** The text behind leading white space and comments. *)
Fixpoint sql_part (m : mode) (rest : bytes) : bytes :=
  match rest with
  | [] => []
  | ch :: rest' =>
    match lex m ch (peek rest') with
    | (m, skip, Blank) =>
      match skip, rest' with
      | true, _ :: rest'' => sql_part m rest''
      | _, _ => sql_part m rest'
      end
    | _ => rest
    end
  end.

Definition SqlText (s : bytes) : bytes := sql_part Ground s.

Example SqlText_example :
  SqlText (str "  -- note; " ++ newline ++ str "/* more */ select 1;") = str "select 1;".
Proof. reflexivity. Qed.

(** The statements that the turns of [interactive_loop] take off [lines], and what is then
    pending, if no turn ends the loop. *)
Fixpoint feed (pending : bytes) (lines : list bytes) : list bytes * bytes :=
  match lines with
  | [] => ([], pending)
  | line :: lines =>
    let '(stmts, pending) := TakeCompleteStatements ((pending ++ line) ++ newline) in
    let '(more, pending) := feed pending lines in
    (stmts ++ more, pending)
  end.

Definition unlines (lines : list bytes) : bytes := concat (map (λ line, line ++ newline) lines).

Definition ends_line (x : bytes) : Prop := x = [] ∨ ∃ x', x = x' ++ newline.

Lemma newline_cuts : cuts ch_newline.
Proof. by split_and!. Qed.

Lemma ends_line_suffix (x y z : bytes) : x ++ y = z ++ newline → ends_line y.
Proof.
  destruct y as [|e y' _] using rev_ind; [by left|]. rewrite app_assoc. intros H.
  apply app_inj_tail in H as [_ ->]. right. by exists y'.
Qed.

Lemma lex_newline m next :
  lex m ch_newline next = (match m with InLine => Ground | m => m end, false, Blank).
Proof. by destruct m. Qed.

Lemma peek_line x y : peek ((x ++ newline) ++ y) = peek (x ++ newline).
Proof. by destruct x. Qed.

(** Reading on behind a line break. *)
Lemma segments_line p x y : ends_line x →
  segments p (x ++ y) = ((segments p x).1 ++ (segments (segments p x).2 y).1, (segments (segments p x).2 y).2).
Proof.
  intros [->|[x' ->]]; [cbn; by destruct (segments p y)|].
  rewrite <- app_assoc. apply (segments_cut ch_newline), newline_cuts.
Qed.

(** Inside a string there is SQL; behind a line break no line comment is open. *)
Lemma segments_string rest : ∀ p, (part_mode p = InString → part_sql p = true) →
  part_mode (segments p rest).2 = InString → part_sql (segments p rest).2 = true.
Proof.
  induction rest as [[|ch rest] IH] using two_step_ind; intros p Hp; [done|].
  destruct (lex_reads (part_mode p) ch rest) as [_ Hm ->|m c E Hc|m ch2 rest' -> E _].
  - rewrite segments_sep by done. apply IH; [cbn; lia|done].
  - rewrite (segments_one _ _ _ m c) by done. apply IH; [cbn; lia|]. cbn. intros ->.
    destruct (part_mode p); cbn in E; repeat case_match; simplify_eq; cbn; try done; by rewrite Hp.
  - rewrite (segments_two _ _ _ _ m) by done. apply IH; [cbn; lia|]. cbn. intros ->.
    destruct (part_mode p); cbn in E; repeat case_match; simplify_eq; cbn; by rewrite Hp.
Qed.

Lemma segments_newline p x : part_mode (segments p (x ++ newline)).2 ≠ InLine.
Proof.
  revert p. induction x as [x IH] using two_step_ind. intros p.
  destruct x as [|ch x]; cbn [app]; [change newline with [ch_newline]; rewrite (segments_one p _ [] _ _ (lex_newline _ _)) by done; by destruct p as [t []]|].
  destruct (lex_reads (part_mode p) ch (x ++ newline)) as [_ Hm ->|m c E Hc|m ch2 rest' Hr E H2].
  - rewrite segments_sep by done. apply IH. cbn; lia.
  - rewrite (segments_one _ _ _ m c) by done. apply IH. cbn; lia.
  - destruct x as [|x0 x]; cbn in Hr; injection Hr as <- <-; [by destruct H2 as [|[|[]]]|].
    cbn [app]. rewrite (segments_two _ _ _ _ m) by done. apply IH. cbn; lia.
Qed.

Lemma segments_sql_stays rest : ∀ t m q, segments (mkPart t m true) rest = ([], q) → part_sql q = true.
Proof.
  induction rest as [[|ch rest] IH] using two_step_ind; intros t m q; [by intros [= <-]|].
  destruct (lex_reads m ch rest) as [_ -> ->|m' c E Hc|m' ch2 rest' -> E _].
  - rewrite segments_sep by done. done.
  - rewrite (segments_one _ _ _ m' c) by done. cbn. replace (saw c true) with true by (by destruct c).
    apply IH. cbn; lia.
  - rewrite (segments_two _ _ _ _ m') by done. apply IH. cbn; lia.
Qed.

(** A text of white space and closed comments. *)
Definition blank (x : bytes) : Prop := segments fresh_part x = ([], mkPart x Ground false) ∧ ends_line x.

Lemma sql_part_blank y x : ∀ t m q,
  segments (mkPart t m false) (x ++ newline) = ([], q) → part_mode q = Ground → part_sql q = false →
  sql_part m ((x ++ newline) ++ y) = sql_part Ground y.
Proof.
  induction x as [x IH] using two_step_ind. intros t m q Hs Hm Hq. destruct x as [|ch x].
  { change ([] ++ newline) with [ch_newline] in *.
    rewrite (segments_one (mkPart t m false) _ [] _ _ (lex_newline m _)) in Hs by done. injection Hs as <-.
    cbn [app sql_part]. rewrite lex_newline. cbn in Hm. by rewrite Hm. }
  cbn [app] in *. destruct (lex_reads m ch (x ++ newline)) as [_ -> ->|m' c E Hc|m' ch2 rest' Hr E H2].
  - by rewrite segments_sep in Hs.
  - rewrite (segments_one _ _ _ m' c) in Hs by done. cbn [sql_part].
    rewrite peek_line, E. destruct c; [|apply segments_sql_stays in Hs; congruence|done].
    eapply IH; [cbn; lia|done..].
  - destruct x as [|x0 x]; cbn in Hr; injection Hr as <- <-; [by destruct H2 as [|[|[]]]|].
    cbn [app] in *. rewrite (segments_two _ _ _ _ m') in Hs by done. cbn [sql_part peek]. rewrite E.
    eapply IH; [cbn; lia|done..].
Qed.

Lemma SqlText_blank x y : blank x → SqlText (x ++ y) = SqlText y.
Proof. intros [Hs [->|[x' ->]]]; [done|]. by eapply sql_part_blank. Qed.

Lemma blank_nil : blank [].
Proof. split; [done|by left]. Qed.

Lemma blank_app x y : blank x → blank y → blank (x ++ y).
Proof.
  intros [Hx Ex] [Hy Ey]. split.
  - rewrite segments_line, Hx by done. cbn.
    pose proof (segments_shift x y [] Ground false) as H. rewrite app_nil_r in H.
    change (mkPart [] Ground false) with fresh_part in H. rewrite Hy in H. cbn in H. by rewrite H.
  - destruct Ey as [->|[y' ->]]; [by rewrite app_nil_r|]. right. exists (x ++ y'). by rewrite app_assoc.
Qed.

Lemma kept_shift x segs seg b : blank x →
  SqlText <$> kept ((x ++ seg, b) :: segs) = SqlText <$> kept ((seg, b) :: segs).
Proof. intros Hx. rewrite !kept_cons. destruct b; [|done]. cbn. by rewrite SqlText_blank. Qed.

(** Behind a line break the open part is kept as it is, or blank and dropped. *)
Lemma leftover_line line segs q p : (part_mode p = InString → part_sql p = true) →
  segments p (line ++ newline) = (segs, q) →
  leftover q = part_text q ∨ leftover q = [] ∧ part_mode q = Ground ∧ part_sql q = false.
Proof.
  intros Hp Hs. pose proof (segments_newline p line) as Hn. pose proof (segments_string (line ++ newline) p Hp) as Hstr.
  rewrite Hs in *. cbn in Hn, Hstr. unfold leftover. destruct (part_sql q) eqn:Eq; [by left|].
  destruct (part_mode q); cbn; try tauto. by specialize (Hstr eq_refl).
Qed.

(** A dropped text in front of the open part changes no statement. *)
Lemma shifted_segments pre q line s2 q2 : blank pre → segments q line = (s2, q2) →
  let whole := segments (mkPart (pre ++ part_text q) (part_mode q) (part_sql q)) line in
  SqlText <$> kept whole.1 = SqlText <$> kept s2 ∧
  ∃ pre2, blank pre2 ∧ whole.2 = mkPart (pre2 ++ part_text q2) (part_mode q2) (part_sql q2).
Proof.
  intros Hpre Hs. destruct q as [t m s]. cbn. rewrite segments_shift, Hs. destruct s2 as [|[seg b] segs].
  - split; [done|]. by exists pre.
  - split; [by apply kept_shift|]. exists []. split; [apply blank_nil|]. by destruct q2.
Qed.

(** The lines read so far left the open part [q] pending; the whole text has [pre], a
    blank text that was dropped, in front of it. *)
Lemma feed_correct lines : ∀ pre q,
  blank pre → segments fresh_part (part_text q) = ([], q) → ends_line (part_text q) → leftover q = part_text q →
  let whole := segments (mkPart (pre ++ part_text q) (part_mode q) (part_sql q)) (unlines lines) in
  SqlText <$> (feed (part_text q) lines).1 = SqlText <$> kept whole.1 ∧
  SqlText (feed (part_text q) lines).2 = SqlText (leftover whole.2).
Proof.
  induction lines as [|line lines IH]; intros pre q Hpre Hq Hel Hleft.
  { cbn. split; [done|]. unfold leftover in *. cbn [part_sql part_mode part_text] in *.
    destruct (_ && _); [by rewrite <- Hleft|by rewrite SqlText_blank]. }
  change (unlines (line :: lines)) with ((line ++ newline) ++ unlines lines). cbn [feed].
  assert (Hl : ends_line (line ++ newline)) by (right; by exists line).
  destruct (segments q (line ++ newline)) as [s2 q2] eqn:E2.
  assert (Htext : segments fresh_part (part_text q ++ line ++ newline) = (s2, q2)).
  { rewrite segments_line, Hq by done. cbn. by rewrite E2. }
  rewrite <- (app_assoc (part_text q)), take_segments, Htext. cbn [fst snd].
  destruct (shifted_segments pre q _ _ _ Hpre E2) as (Hk & pre2 & Hpre2 & HA).
  rewrite segments_line by done. cbv zeta in *. rewrite HA. cbn [fst snd].
  pose proof (segments_each _ _ _ Htext) as [_ Hq2].
  assert (Hel2 : ends_line (part_text q2)).
  { pose proof (segments_concat (part_text q ++ line ++ newline) fresh_part) as Hc. rewrite Htext in Hc. cbn in Hc.
    rewrite app_assoc in Hc. by eapply ends_line_suffix. }
  assert (Hrest : let rest := segments (mkPart (pre2 ++ part_text q2) (part_mode q2) (part_sql q2)) (unlines lines) in
    SqlText <$> (feed (leftover q2) lines).1 = SqlText <$> kept rest.1 ∧
    SqlText (feed (leftover q2) lines).2 = SqlText (leftover rest.2)).
  { rewrite app_assoc in Htext.
    destruct (leftover_line (part_text q ++ line) s2 q2 fresh_part) as [Hk2|(Hk2 & Hm2 & Hs2)]; [done|done|..].
    - rewrite Hk2. by apply IH.
    - rewrite Hk2. specialize (IH (pre2 ++ part_text q2) fresh_part).
      cbn [part_text part_mode part_sql fresh_part] in IH. rewrite app_nil_r in IH. rewrite Hm2, Hs2.
      apply IH; [|done|by left|done]. apply blank_app; [done|]. split; [|done]. rewrite Hq2.
      by destruct q2; cbn in *; subst. }
  destruct (feed (leftover q2) lines) as [more pending]. cbn [fst snd] in *. destruct Hrest as [Hr1 Hr2].
  split; [|done]. unfold kept in *. rewrite filter_app, !fmap_app. by rewrite Hk, Hr1.
Qed.

Lemma feed_lines lines :
  SqlText <$> (feed [] lines).1 = SqlText <$> (TakeCompleteStatements (unlines lines)).1 ∧
  SqlText (feed [] lines).2 = SqlText (TakeCompleteStatements (unlines lines)).2.
Proof.
  rewrite take_segments. apply (feed_correct lines [] fresh_part); [apply blank_nil|done|by left|done].
Qed.

(** ** What is sent *)

Section Sending.
Context (strerror gai_strerror : Z → bytes) (write_error : Sock → bytes).

Notation Execute := (Execute strerror write_error).

(** Commands executed one after the other over a client. *)
Fixpoint exec_all (commands : list bytes) (c : Client) (w : Net) : list ExecuteResult * Client * Net :=
  match commands with
  | [] => ([], c, w)
  | command :: commands =>
    let '(r, _, c, w) := Execute c command (mkOptions true None None) tt w in
    let '(rs, c, w) := exec_all commands c w in (r :: rs, c, w)
  end.

Lemma SendSql_exec sql hl s :
  let '(r, s') := SendSql strerror write_error sql hl s in
  ∃ x, Execute (client s) (Trim sql) (mkOptions true None None) tt (net s) = (r, x, client s', net s').
Proof.
  unfold SendSql, client_execute.
  destruct (Execute (client s) (Trim sql) (mkOptions true None None) () (net s)) as [[[r x] c] w]. by exists x.
Qed.

(** [sent] was executed from [s] to [s'] with [results]; no exit command is sent. *)
Definition executed (sent : list bytes) (results : list ExecuteResult) (s s' : Cli) : Prop :=
  exec_all (Trim <$> sent) (client s) (net s) = (results, client s', net s') ∧
  Forall (λ st, IsExitCommand st = false) sent.

Lemma executed_nil s s' : client s' = client s → net s' = net s → executed [] [] s s'.
Proof. intros Hc Hn. split; [|constructor]. cbn. by rewrite Hc, Hn. Qed.

Lemma executed_cons st sent hl s r s1 results s' :
  SendSql strerror write_error st hl s = (r, s1) → IsExitCommand st = false →
  executed sent results s1 s' → executed (st :: sent) (r :: results) s s'.
Proof.
  intros H He [Hr Hf]. pose proof (SendSql_exec st hl s) as Hx. rewrite H in Hx. destruct Hx as [x Hx].
  split; [|by constructor]. cbn. by rewrite Hx, Hr.
Qed.

Lemma executed_app l1 r1 s0 s1 l2 r2 s2 :
  executed l1 r1 s0 s1 → executed l2 r2 s1 s2 → executed (l1 ++ l2) (r1 ++ r2) s0 s2.
Proof.
  intros [E1 F1] [E2 F2]. split; [|by apply Forall_app]. rewrite fmap_app.
  revert E1. generalize (client s0) (net s0) r1. induction (Trim <$> l1) as [|c l IH]; intros c0 w0 rs; cbn.
  - by intros [= <- -> ->].
  - destruct (Execute c0 c (mkOptions true None None) () w0) as [[[r x] c1] w1].
    destruct (exec_all l c1 w1) as [[rs' c2] w2] eqn:E. intros [= <- -> ->]. by rewrite (IH _ _ _ E).
Qed.

Definition all_but_last (good : ExecuteResult → Prop) (results : list ExecuteResult) : Prop :=
  ∃ before bad, results = before ++ [bad] ∧ Forall good before ∧ ¬ good bad.

Lemma all_but_last_cons good r results : good r → all_but_last good results → all_but_last good (r :: results).
Proof. intros Hr (before & bad & -> & Hb & Hn). exists (r :: before), bad. split_and!; [done|by constructor|done]. Qed.

Lemma all_but_last_app good rs results : Forall good rs → all_but_last good results → all_but_last good (rs ++ results).
Proof. induction 1; [done|]. intros. cbn. apply all_but_last_cons; auto. Qed.

Definition succeeded (r : ExecuteResult) : Prop := result_ok r = true.
Definition usable (r : ExecuteResult) : Prop := connection_reusable r = true.

Lemma result_ok_reusable r : result_ok r = true → connection_reusable r = true.
Proof. unfold result_ok, connection_reusable. intros ->. done. Qed.

Lemma run_statements_sent l : ∀ s ok s', run_statements strerror write_error l s = (ok, s') →
  ∃ sent rest results, l = sent ++ rest ∧ executed sent results s s' ∧
    if ok then Forall succeeded results ∧ (∀ st, head rest = Some st → IsExitCommand st = true)
    else all_but_last succeeded results.
Proof.
  induction l as [|st l IH]; intros s ok s'; cbn.
  - intros [= <- <-]. exists [], [], []. split_and!; [done|by apply executed_nil|done|done].
  - destruct (IsExitCommand st) eqn:He.
    { intros [= <- <-]. exists [], (st :: l), []. split_and!; [done|by apply executed_nil|done|]. by intros ? [= <-]. }
    destruct (SendSql strerror write_error st false s) as [r s1] eqn:Es.
    destruct (result_ok r) eqn:Er; cbn.
    + intros (sent & rest & results & -> & Hx & Hok)%IH. exists (st :: sent), rest, (r :: results).
      split_and!; [done|by eapply executed_cons|]. destruct ok; [|by apply all_but_last_cons].
      destruct Hok. split; [by constructor|done].
    + intros [= <- <-]. exists [st], l, [r].
      split_and!; [done|by eapply executed_cons, executed_nil|]. exists [], r. split_and!; [done..|].
      unfold succeeded. by rewrite Er.
Qed.

Lemma interactive_statements_sent l : ∀ s code s', interactive_statements strerror write_error l s = (code, s') →
  ∃ sent rest results, l = sent ++ rest ∧ executed sent results s s' ∧
    match code with
    | None => rest = [] ∧ Forall usable results
    | Some code => code = 0 ∧ Forall usable results ∧ (∃ st, head rest = Some st ∧ IsExitCommand st = true) ∨
                   code = 1 ∧ all_but_last usable results
    end.
Proof.
  induction l as [|st l IH]; intros s code s'; cbn.
  - intros [= <- <-]. exists [], [], []. split_and!; [done|by apply executed_nil|done|done].
  - destruct (IsExitCommand st) eqn:He.
    { intros [= <- <-]. exists [], (st :: l), []. split_and!; [done|by apply executed_nil|]. left. split_and!; [done..|by exists st]. }
    destruct (SendSql strerror write_error st true s) as [r s1] eqn:Es.
    destruct (connection_reusable r) eqn:Er; cbn; rewrite ?andb_false_r, ?andb_true_r.
    + intros (sent & rest & results & -> & Hx & Hc)%IH. exists (st :: sent), rest, (r :: results).
      split_and!; [done|by eapply executed_cons|]. destruct code as [code|].
      * destruct Hc as [(-> & Hc & He')|[-> Hc]]; [left; split_and!; [done|by constructor|done]|right; split; [done|by apply all_but_last_cons]].
      * destruct Hc. split; [done|by constructor].
    + assert (result_ok r = false) as ->.
      { apply not_true_is_false. intros H%result_ok_reusable. congruence. }
      intros [= <- <-]. exists [st], l, [r].
      split_and!; [done|by eapply executed_cons, executed_nil|]. right. split; [done|].
      exists [], r. split_and!; [done..|]. unfold usable. by rewrite Er.
Qed.

(** How the loop over [stdin] ends, with [results] for the statements sent and [rest] not
    sent: at the end of the input, at a statement that is an exit command, at an exit command
    without a semicolon, or at a connection that cannot be used any more. *)
Definition loop_ended (pending : bytes) (stdin sent rest : list bytes) (results : list ExecuteResult) (code : Z) : Prop :=
  code = 0 ∧ Forall usable results ∧
    (rest = [] ∨ (∃ st, head rest = Some st ∧ IsExitCommand st = true) ∨
     ∃ before line after, stdin = before ++ line :: after ∧ sent = (feed pending before).1 ∧
       IsExitCommand (((feed pending before).2 ++ line) ++ newline) = true) ∨
  code = 1 ∧ all_but_last usable results.

Lemma loop_ended_turn pending line stdin stmts p1 sent rest results rs code :
  TakeCompleteStatements ((pending ++ line) ++ newline) = (stmts, p1) → Forall usable rs →
  loop_ended p1 stdin sent rest results code →
  loop_ended pending (line :: stdin) (stmts ++ sent) rest (rs ++ results) code.
Proof.
  intros Ht Hu [(-> & Hr & Hc)|[-> Hc]]; [left|right; split; [done|by apply all_but_last_app]].
  split_and!; [done|by apply Forall_app|]. destruct Hc as [->|[Hc|(before & l & after & -> & -> & He)]]; [by left|by right; left|].
  right; right. exists (line :: before), l, after. cbn [feed]. rewrite Ht. by destruct (feed p1 before).
Qed.

Lemma interactive_loop_sent db stdin : ∀ pending s code s',
  interactive_loop strerror write_error db pending stdin s = (code, s') →
  ∃ sent rest results, (feed pending stdin).1 = sent ++ rest ∧ executed sent results s s' ∧
    loop_ended pending stdin sent rest results code.
Proof.
  induction stdin as [|line stdin IH]; intros pending s code s'; cbn [interactive_loop feed].
  - intros [= <- <-]. exists [], [], []. split_and!; [done|apply executed_nil; by destruct (Trim pending)|].
    left. split_and!; [done..|by left].
  - destruct (IsExitCommand ((pending ++ line) ++ newline)) eqn:Hexit.
    { intros [= <- <-]. exists [], (let '(stmts, p) := TakeCompleteStatements ((pending ++ line) ++ newline) in
        let '(more, p) := feed p stdin in (stmts ++ more, p)).1, [].
      split_and!; [done|by apply executed_nil|]. left. split_and!; [done..|]. right; right. by exists [], line, stdin. }
    destruct (TakeCompleteStatements ((pending ++ line) ++ newline)) as [stmts p1] eqn:Et.
    set (s0 := printing _ s). destruct (interactive_statements strerror write_error stmts s0) as [c1 s1] eqn:Ei.
    apply interactive_statements_sent in Ei as (sent & rest & results & -> & Hx & Hc).
    assert (Hx0 : executed sent results s s1) by (by destruct Hx).
    destruct (feed p1 stdin) as [more p2] eqn:Ef. cbn [fst]. destruct c1 as [c1|].
    + intros [= <- <-]. exists sent, (rest ++ more), results. split_and!; [by rewrite app_assoc|done|].
      destruct Hc as [(-> & Hu & st & Hst & He)|Hc]; [left|by right]. split_and!; [done..|]. right; left. exists st.
      by destruct rest.
    + destruct Hc as [-> Hu]. intros H. apply IH in H as (sent2 & rest2 & results2 & Hm & Hx2 & Hc2).
      rewrite Ef in Hm. cbn in Hm. exists (sent ++ sent2), rest2, (results ++ results2).
      split_and!; [by rewrite app_nil_r, Hm, app_assoc|by eapply executed_app|].
      rewrite app_nil_r in Et. by eapply loop_ended_turn.
Qed.

(** C29. A text given as a script and the same text typed line by line.  Both send the
    complete statements of the text in order, one [Execute] each, trimmed, and never an exit
    command; the interactive mode, which drops blank text between its turns, up to white space
    and comments in front of a statement.  A script stops at the first statement that fails
    and also sends the unfinished tail of the text.  The interactive mode never sends the
    tail; it goes on after a failure that leaves the connection usable, and otherwise ends
    with code 1.  It ends with code 0 when all complete statements were sent, before a
    statement that is an exit command, or when the pending text with the line just read is an
    exit command, and has then sent all complete statements of the lines before. *)
Theorem interactive_equals_script db stdin s :
  let '(complete, tail) := TakeCompleteStatements (unlines stdin) in
  (let '(ok, s') := RunSqlText strerror write_error (unlines stdin) s in
   ∃ sent rest results, complete ++ (match Trim tail with [] => [] | text => [text] end) = sent ++ rest ∧
     executed sent results s s' ∧
     if ok then Forall succeeded results ∧ (∀ st, head rest = Some st → IsExitCommand st = true)
     else all_but_last succeeded results) ∧
  (let '(code, s') := RunInteractive strerror write_error db stdin s in
   ∃ sent rest results, SqlText <$> complete = SqlText <$> (sent ++ rest) ∧ executed sent results s s' ∧
     (code = 0 ∧ Forall usable results ∧
        (rest = [] ∨ (∃ st, head rest = Some st ∧ IsExitCommand st = true) ∨
         ∃ before line after pending, stdin = before ++ line :: after ∧
           SqlText <$> sent = SqlText <$> (TakeCompleteStatements (unlines before)).1 ∧
           SqlText pending = SqlText (TakeCompleteStatements (unlines before)).2 ∧
           IsExitCommand ((pending ++ line) ++ newline) = true) ∨
      code = 1 ∧ all_but_last usable results)).
Proof.
  destruct (TakeCompleteStatements (unlines stdin)) as [complete tail] eqn:Et. split.
  - destruct (RunSqlText strerror write_error (unlines stdin) s) as [ok s'] eqn:E.
    apply run_statements_sent in E as (sent & rest & results & Hs & Hx & Hok). exists sent, rest, results.
    split_and!; [|done..]. rewrite <- Hs. unfold script_statements. rewrite Et. destruct (Trim tail); [by rewrite app_nil_r|done].
  - destruct (RunInteractive strerror write_error db stdin s) as [code s'] eqn:E.
    apply interactive_loop_sent in E as (sent & rest & results & Hs & Hx & Hc). exists sent, rest, results.
    split_and!; [|done|].
    + rewrite <- Hs. destruct (feed_lines stdin) as [-> _]. by rewrite Et.
    + destruct Hc as [(-> & Hu & Hc)|Hc]; [left; split_and!; [done..|]|by right].
      destruct Hc as [->|[Hc|(before & line & after & -> & -> & He)]]; [by left|by right; left|right; right].
      destruct (feed_lines before) as [H1 H2]. by exists before, line, after, (feed [] before).2.
Qed.
End Sending.
