(* ===== verification/Lexer.v ===== *)
(** * The scanner and the parser's public face

    Models [src/src/parser/lex.l], the literal conversions and diagnostics of
    [src/src/parser/parser.cpp], and [ParseContext] of
    [src/src/parser/parser_internal.h].

    The rules of [lex.l] are functions from the rest of the input to the length of the
    text they match (0: no match); the scanner takes the longest match and, among equal
    lengths, the first rule, as Flex does. *)

From S2P Require Import Prelude Ast WireText SqlClient.
Local Open Scope byte_scope.

(** ** Errors *)

Record ParseError := mkParseError { line : Z; column : Z; message : bytes }.

(** ** Literals *)

Definition is_digit (ch : byte) : bool := (48 <=? byte.unsigned ch) && (byte.unsigned ch <=? 57).
Definition is_alpha (ch : byte) : bool :=
  ((65 <=? byte.unsigned ch) && (byte.unsigned ch <=? 90)) || ((97 <=? byte.unsigned ch) && (byte.unsigned ch <=? 122)).
Definition digit (ch : byte) : Z := byte.unsigned ch - 48.

(** The length of the longest prefix whose characters satisfy [p]. *)
Fixpoint run_length (p : byte → bool) (l : bytes) : nat :=
  match l with
  | ch :: l => if p ch then S (run_length p l) else O
  | [] => O
  end.

(** The value of a sequence of digits. *)
Definition digits_value (l : bytes) : Z := fold_left (λ v ch, v * 10 + digit ch) l 0.

(** [std::from_chars(begin, end, int&)]: the value and the rest, or the error code. *)
Definition from_chars (l : bytes) : option (Z * bytes) :=
  let '(negative, l) := match l with ch :: l' => if ch == ch_minus then (true, l') else (false, l) | [] => (false, l) end in
  let n := run_length is_digit l in
  if (n =? 0)%nat then None
  else
    let v := digits_value (take n l) in
    let v := if negative then - v else v in
    if (- 2 ^ 31 <=? v) && (v <=? INT_MAX) then Some (v, drop n l) else None.

Definition ch_plus : byte := Byte.x2b.
Definition ch_dot : byte := Byte.x2e.

Definition ParseIntegerLiteral (text : bytes) : option Z :=
  match text with
  | [] => None
  | ch :: text' =>
    match from_chars (if ch == ch_plus then text' else text) with
    | Some (v, []) => Some v
    | _ => None
    end
  end.

(** The binary32 nearest to [num / den] for positive [den], ties to even, as a bit
    pattern without sign; [None] when the result overflows, or is subnormal and not
    exact: the cases in which [strtof] sets [ERANGE]. *)
Definition binary32_of (num den : Z) : option Z :=
  if num =? 0 then Some 0
  else
    let l := Z.log2 num - Z.log2 den in
    (** [e] is [floor (log2 (num / den))]. *)
    let e := if num * 2 ^ Z.max 0 (- l) <? den * 2 ^ Z.max 0 l then l - 1 else l in
    let q := Z.max (e - 23) (-149) in
    let n := num * 2 ^ Z.max 0 (- q) in
    let d := den * 2 ^ Z.max 0 q in
    let bits := (q + 149) * 2 ^ 23 + round_half_even n d in
    if 0x7f800000 <=? bits then None
    else if (e <? -126) && negb (n mod d =? 0) then None
    else Some bits.

(** [std::strtof] on the texts of [value_float]: a sign, digits, a point, digits. *)
Definition strtof (text : bytes) : option (Z * bytes) :=
  let '(negative, l) := match text with
    | ch :: l => if ch == ch_minus then (true, l) else if ch == ch_plus then (false, l) else (false, text)
    | [] => (false, text)
    end in
  let n := run_length is_digit l in
  let whole := take n l in
  let '(fraction, rest) := match drop n l with
    | ch :: l => if ch == ch_dot then let k := run_length is_digit l in (take k l, drop k l) else ([], ch :: l)
    | [] => ([], [])
    end in
  bits ← binary32_of (digits_value (whole ++ fraction)) (10 ^ zlen fraction);
  Some ((if negative then bits + 2 ^ 31 else bits), rest).

Definition ParseFloatLiteral (text : bytes) : option Z :=
  match text with
  | [] => None
  | _ => match strtof text with Some (v, []) => Some v | _ => None end
  end.

Example float_literals :
  ParseFloatLiteral (str "1.5") = Some 0x3fc00000 ∧ ParseFloatLiteral (str "-0.1") = Some 0xbdcccccd ∧
  ParseFloatLiteral (str "+16777217.") = Some 0x4b800000 ∧
  ParseFloatLiteral (str "340282350000000000000000000000000000000.0") = Some 0x7f7fffff ∧
  ParseFloatLiteral (str "340282366920938463463374607431768211456.0") = None.
Proof. vm_compute. split_and!; reflexivity. Qed.

(** The loop of [DecodeStringLiteral] over the text between the quotes. *)
Fixpoint decode_quotes (l : bytes) : bytes :=
  match l with
  | [] => []
  | ch :: l' =>
    match l' with
    | next :: l'' => if (ch == ch_quote) && (next == ch_quote) then next :: decode_quotes l'' else ch :: decode_quotes l'
    | [] => [ch]
    end
  end.

Definition DecodeStringLiteral (text : bytes) : bytes :=
  if (length text <? 2)%nat then [] else decode_quotes (take (length text - 2) (drop 1 text)).

(** ** Tokens *)

Inductive Token :=
| SHOW | DATABASE | TABLES | CREATE | TABLE | DROP | DESC | INSERT | INTO | VALUES | DELETE | FROM | ASC | ORDER | BY
| WHERE | UPDATE | SET_ | SELECT | INT | CHAR | FLOAT | INDEX | UNIQUE | AND | JOIN | HELP
| TXN_BEGIN | TXN_COMMIT | TXN_ABORT | TXN_ROLLBACK
| LEQ | NEQ | GEQ
| Op (ch : byte)                       (** [return yytext[0]] *)
| IDENTIFIER (text : string) | VALUE_STRING (text : string)
| VALUE_INT (integer : Z) | VALUE_FLOAT (floating_point : Z)
| INVALID (recorded : ParseError).     (** with the error the scanner records *)

#[global] Instance ParseError_eq_dec : EqDecision ParseError.
Proof. solve_decision. Defined.
#[global] Instance Token_eq_dec : EqDecision Token.
Proof. solve_decision. Defined.

(** A token with [yylloc->first_line] and [yylloc->first_column]. *)
Record LToken := mkLToken { token : Token; tok_line : Z; tok_column : Z }.

(** The keyword rules in the order of [lex.l]. *)
Definition keywords : list (string * Token) :=
  [("SHOW", SHOW); ("DATABASE", DATABASE); ("BEGIN", TXN_BEGIN); ("COMMIT", TXN_COMMIT); ("ABORT", TXN_ABORT);
   ("ROLLBACK", TXN_ROLLBACK); ("TABLES", TABLES); ("CREATE", CREATE); ("TABLE", TABLE); ("DROP", DROP);
   ("DESC", DESC); ("INSERT", INSERT); ("INTO", INTO); ("VALUES", VALUES); ("DELETE", DELETE); ("FROM", FROM);
   ("WHERE", WHERE); ("UPDATE", UPDATE); ("SET", SET_); ("SELECT", SELECT); ("INT", INT); ("CHAR", CHAR);
   ("FLOAT", FLOAT); ("INDEX", INDEX); ("UNIQUE", UNIQUE); ("AND", AND); ("JOIN", JOIN); ("HELP", HELP);
   ("ORDER", ORDER); ("BY", BY); ("ASC", ASC)]%string.

(** [%option caseless] *)
Definition upper (ch : byte) : byte :=
  if (97 <=? byte.unsigned ch) && (byte.unsigned ch <=? 122) then byte.of_Z (byte.unsigned ch - 32) else ch.

Fixpoint is_prefix (p l : bytes) : bool :=
  match p, l with
  | [], _ => true
  | x :: p, y :: l => (x == y) && is_prefix p l
  | _, _ => false
  end.

(** A literal pattern: its length when the input starts with it. *)
Definition literal (p l : bytes) : nat := if is_prefix p (map upper l) then length p else O.

(** ** The rules *)

Inductive Action :=
| Skip                    (** no [return] *)
| Comment                 (** [BEGIN(STATE_COMMENT)] *)
| Return_ (t : bytes → Z → Z → Token).   (** from [yytext] and the location *)

Definition fixed (t : Token) : Action := Return_ (λ _ _ _, t).

Definition single_ops : bytes := str ";(),*=><.".
Definition is_op (ch : byte) : bool := existsb (λ c, ch == c) single_ops.

Definition m_line_comment (l : bytes) : nat :=
  if is_prefix (str "--") l then (2 + run_length (λ ch, negb (ch == ch_newline)) (drop 2 l))%nat else O.
Definition m_white_space (l : bytes) : nat := run_length (λ ch, (ch == Byte.x20) || (ch == Byte.x09)) l.
Definition m_new_line (l : bytes) : nat :=
  if is_prefix [Byte.x0d; Byte.x0a] l then 2%nat
  else match l with ch :: _ => if (ch == Byte.x0d) || (ch == Byte.x0a) then 1%nat else O | [] => O end.
Definition m_single_op (l : bytes) : nat := match l with ch :: _ => if is_op ch then 1%nat else O | [] => O end.
Definition is_identifier_char (ch : byte) : bool := (ch == Byte.x5f) || is_alpha ch || is_digit ch.
Definition m_identifier (l : bytes) : nat :=
  match l with ch :: l => if is_alpha ch then S (run_length is_identifier_char l) else O | [] => O end.

(** [{sign}?] *)
Definition m_sign (l : bytes) : nat :=
  match l with ch :: _ => if (ch == ch_plus) || (ch == ch_minus) then 1%nat else O | [] => O end.
Definition m_int (l : bytes) : nat :=
  let s := m_sign l in
  match run_length is_digit (drop s l) with O => O | n => (s + n)%nat end.
Definition m_float (l : bytes) : nat :=
  match m_int l with
  | O => O
  | n => match drop n l with
         | ch :: l' => if ch == ch_dot then (n + 1 + run_length is_digit l')%nat else O
         | [] => O
         end
  end.

(** [([^']|'')*] behind the opening quote: its longest match, and whether a closing
    quote follows. *)
Fixpoint quoted (l : bytes) : nat * bool :=
  match l with
  | [] => (O, false)
  | ch :: l' =>
    if ch == ch_quote then
      match l' with
      | next :: l'' => if next == ch_quote then let '(n, c) := quoted l'' in (S (S n), c) else (O, true)
      | [] => (O, true)
      end
    else let '(n, c) := quoted l' in (S n, c)
  end.
Definition m_string (l : bytes) : nat :=
  match l with
  | ch :: l => if ch == ch_quote then let '(n, closed) := quoted l in if closed then (n + 2)%nat else O else O
  | [] => O
  end.
Definition m_open_string (l : bytes) : nat :=
  match l with ch :: l => if ch == ch_quote then S (quoted l).1 else O | [] => O end.
Definition m_any (l : bytes) : nat := match l with ch :: _ => if ch == ch_newline then O else 1%nat | [] => O end.

Definition invalid (line column : Z) (message : string) : Token :=
  INVALID (mkParseError line column (str message)).

Definition text_string (text : bytes) : string := String.string_of_list_byte text.

(** The rules of the initial state, in order. *)
Definition rules (l : bytes) : list (nat * Action) :=
  [(literal (str "/*") l, Comment);
   (m_line_comment l, Skip);
   (m_white_space l, Skip);
   (m_new_line l, Skip)] ++
  map (λ '(k, t), (literal (str k) l, fixed t)) keywords ++
  [(literal (str ">=") l, fixed GEQ);
   (literal (str "<=") l, fixed LEQ);
   (literal (str "!=") l, fixed NEQ);
   (literal (str "<>") l, fixed NEQ);
   (m_single_op l, Return_ (λ text _ _, Op (hd ch_nul text)));
   (m_identifier l, Return_ (λ text _ _, IDENTIFIER (text_string text)));
   (m_int l, Return_ (λ text line column,
      match ParseIntegerLiteral text with
      | Some v => VALUE_INT v
      | None => invalid line column "integer literal is out of range"
      end));
   (m_float l, Return_ (λ text line column,
      match ParseFloatLiteral text with
      | Some v => VALUE_FLOAT v
      | None => invalid line column "floating-point literal is out of range"
      end));
   (m_string l, Return_ (λ text _ _, VALUE_STRING (text_string (DecodeStringLiteral text))));
   (m_open_string l, Return_ (λ _ line column, invalid line column "unterminated string literal"));
   (m_any l, Return_ (λ _ line column, invalid line column "unexpected character"))].

(** The longest match, the first among equals. *)
Fixpoint longest {A} (best : nat * A) (l : list (nat * A)) : nat * A :=
  match l with
  | [] => best
  | c :: l => longest (if (best.1 <? c.1)%nat then c else best) l
  end.

Definition match_rule (l : bytes) : nat * Action := longest (O, Skip) (rules l).

(** ** The scanner *)

(** [YY_USER_ACTION]: [last_line] and [last_column] behind the text. *)
Fixpoint move_location (line column : Z) (text : bytes) : Z * Z :=
  match text with
  | [] => (line, column)
  | ch :: text => if ch == ch_newline then move_location (line + 1) 1 text else move_location line (column + 1) text
  end.

Definition peek_char (l : bytes) : byte := match l with ch :: _ => ch | [] => ch_nul end.

(** The start condition; [STATE_COMMENT] with [block_comment_line] and [_column]. *)
Inductive Start := INITIAL | STATE_COMMENT (line column : Z).

(** The tokens up to the end of the input or the first [INVALID] of an open comment,
    and the location the parser sees at the end: that of the last text matched.  Every
    match is at least one character long, so the length of the input is enough fuel. *)
Fixpoint scan (fuel : nat) (start : Start) (first last : Z * Z) (l : bytes) : list LToken * (Z * Z) :=
  match fuel with
  | O => ([], first)
  | S fuel =>
    match start, l with
    | INITIAL, [] => ([], first)
    | INITIAL, _ =>
      let '(n, action) := match_rule l in
      let text := take n l in
      let next := move_location last.1 last.2 text in
      match action with
      | Skip => scan fuel INITIAL last next (drop n l)
      | Comment => scan fuel (STATE_COMMENT last.1 last.2) last next (drop n l)
      | Return_ t =>
        let '(tokens, e) := scan fuel INITIAL last next (drop n l) in
        (mkLToken (t text last.1 last.2) last.1 last.2 :: tokens, e)
      end
    | STATE_COMMENT cl cc, [] =>
      ([mkLToken (invalid cl cc "unterminated block comment") first.1 first.2], first)
    | STATE_COMMENT cl cc, ch :: l' =>
      if (ch == ch_star) && (peek_char l' == ch_slash)
      then scan fuel INITIAL last (move_location last.1 last.2 [ch; peek_char l']) (drop 1 l')
      else scan fuel (STATE_COMMENT cl cc) last (move_location last.1 last.2 [ch]) l'
    end
  end.

(** [yylloc] starts at line 1, column 1. *)
Definition tokenize (sql : bytes) : list LToken * (Z * Z) :=
  scan (S (length sql)) INITIAL (1, 1) (1, 1) sql.

Example tokenize_example :
  map token (tokenize (str "Select a.x, 'it''s' /* c ; */ from t where a>=-10; -- end")).1 =
  [SELECT; IDENTIFIER "a"; Op ch_dot; IDENTIFIER "x"; Op Byte.x2c; VALUE_STRING "it's"; FROM; IDENTIFIER "t"; WHERE;
   IDENTIFIER "a"; GEQ; VALUE_INT (-10); Op ch_semicolon]%string.
Proof. vm_compute. reflexivity. Qed.

(** ** Positions and diagnostics *)

(** [sql.find(ch, begin)] *)
Fixpoint find_char (ch : byte) (l : bytes) : option nat :=
  match l with
  | [] => None
  | c :: l => if c == ch then Some O else S <$> find_char ch l
  end.

Definition find_from (sql : bytes) (ch : byte) (begin_ : nat) : option nat :=
  (λ i, (begin_ + i)%nat) <$> find_char ch (drop begin_ sql).

(** [for (int current_line = 1; current_line < target_line; ++current_line)]: the
    offset of the target line, [n] lines further on. *)
Fixpoint line_begin (sql : bytes) (n : nat) (begin_ : nat) : option nat :=
  match n with
  | O => Some begin_
  | S n => newline ← find_from sql ch_newline begin_; line_begin sql n (newline + 1)
  end.

Definition FindLine (sql : bytes) (target_line : Z) : option bytes :=
  if target_line <? 1 then None
  else
    begin_ ← line_begin sql (Z.to_nat (target_line - 1)) 0;
    let end_ := match find_from sql ch_newline begin_ with Some e => e | None => length sql end in
    let end_ := if (begin_ <? end_)%nat && bool_decide (sql !! (end_ - 1)%nat = Some Byte.x0d) then (end_ - 1)%nat else end_ in
    Some (substr sql begin_ (end_ - begin_)).

(** The line and column of a byte offset within the text. *)
Definition ErrorAtOffset (sql : bytes) (offset : nat) (message : bytes) : ParseError :=
  let '(line, column) := move_location 1 1 (take offset sql) in mkParseError line column message.

Definition FormatError (sql : bytes) (error : ParseError) : bytes :=
  let line_number := Z.max (line error) 1 in
  let column_number := Z.max (column error) 1 in
  let output := str "Parser Error at line " ++ to_string line_number ++ str " column " ++ to_string column_number ++
    str ": " ++ (match message error with [] => str "syntax error" | m => m end) ++ newline in
  match FindLine sql line_number with
  | None => output
  | Some source_line =>
    let caret_offset := Nat.min (Z.to_nat (column_number - 1)) (length source_line) in
    output ++ source_line ++ newline ++
    map (λ ch, if ch == Byte.x09 then Byte.x09 else Byte.x20) (take caret_offset source_line) ++
    str "^" ++ newline
  end.

(** ** ParseContext *)

Record ParseContext := mkParseContext { ctx_statement : option Statement; ctx_error : option ParseError }.

Definition RecordError (context : ParseContext) (line column : Z) (message : bytes) : ParseContext :=
  match ctx_error context with
  | Some _ => context
  | None => mkParseContext (ctx_statement context) (Some (mkParseError line column message))
  end.
