(* ===== verification/Grammar.v ===== *)
(** * The SQL grammar and the parser

    Models [src/src/parser/yacc.y] and [Parse] of [src/src/parser/parser.cpp].

    The productions of [yacc.y] are inductive relations between a token sequence and
    the semantic value the actions build, one relation per non-terminal and one rule per
    alternative.  The parser Bison generates from them is modelled by predictive
    functions that fail at the first token that cannot continue the input, which is
    where an LALR(1) parser reports its error; [GrammarFacts] proves that they accept
    exactly the relations.  Bison's bound on the depth of its stack ([YYMAXDEPTH]) and
    the wording of its messages (an argument of [Parse]) are not modelled. *)

From S2P Require Import Prelude Ast SqlClient Lexer.

Notation LP := (Op Byte.x28).
Notation RP := (Op Byte.x29).
Notation STAR := (Op Byte.x2a).
Notation COMMA := (Op Byte.x2c).
Notation DOT := (Op Byte.x2e).
Notation SEMI := (Op Byte.x3b).
Notation LESS := (Op Byte.x3c).
Notation EQUALS := (Op Byte.x3d).
Notation GREATER := (Op Byte.x3e).

(** ** The productions *)

Section List.
Context {A : Type} (item : list Token → A → Prop).

(** [x_list: x | x_list ',' x] *)
Inductive d_list : list Token → list A → Prop :=
| d_list_one ts a : item ts a → d_list ts [a]
| d_list_snoc ts l ts' a : d_list ts l → item ts' a → d_list (ts ++ COMMA :: ts') (l ++ [a]).
End List.

Inductive d_name : list Token → string → Prop :=
| d_identifier x : d_name [IDENTIFIER x] x.

Inductive d_value : list Token → Expr → Prop :=
| d_value_int n : d_value [VALUE_INT n] (IntLit n)
| d_value_float n : d_value [VALUE_FLOAT n] (FloatLit n)
| d_value_string s : d_value [VALUE_STRING s] (StringLit s).

Inductive d_column_reference : list Token → string * string → Prop :=
| d_qualified ts t us c : d_name ts t → d_name us c → d_column_reference (ts ++ DOT :: us) (t, c)
| d_unqualified ts c : d_name ts c → d_column_reference ts (""%string, c).

Inductive d_comparison_operator : list Token → AstCompOp → Prop :=
| d_eq : d_comparison_operator [EQUALS] Eq
| d_lt : d_comparison_operator [LESS] Lt
| d_gt : d_comparison_operator [GREATER] Gt
| d_ne : d_comparison_operator [NEQ] Ne
| d_le : d_comparison_operator [LEQ] Le
| d_ge : d_comparison_operator [GEQ] Ge.

Inductive d_comparison_operand : list Token → Expr → Prop :=
| d_operand_value ts e : d_value ts e → d_comparison_operand ts e
| d_operand_column ts t c : d_column_reference ts (t, c) → d_comparison_operand ts (Col t c).

Inductive d_comparison : list Token → Expr → Prop :=
| d_compare ts c us op vs e : d_column_reference ts c → d_comparison_operator us op → d_comparison_operand vs e →
    d_comparison (ts ++ us ++ vs) (BinaryExpr (Some c) op (Some e)).

Inductive d_predicate : list Token → Expr → Prop :=
| d_predicate_one ts e : d_comparison ts e → d_predicate ts e
| d_predicate_and ts p us e : d_predicate ts p → d_comparison us e →
    d_predicate (ts ++ AND :: us) (LogicalExpr And (Some p) (Some e)).

Inductive d_optional_where : list Token → option Expr → Prop :=
| d_no_where : d_optional_where [] None
| d_where ts p : d_predicate ts p → d_optional_where (WHERE :: ts) (Some p).

(** [scalar_expression] and [function_call]. *)
Inductive d_scalar : list Token → Expr → Prop :=
| d_scalar_value ts e : d_value ts e → d_scalar ts e
| d_scalar_column ts t c : d_column_reference ts (t, c) → d_scalar ts (Col t c)
| d_call_none f : d_scalar [IDENTIFIER f; LP; RP] (FunctionCallExpr f [] false)
| d_call_list f ts es : d_list d_scalar ts es →
    d_scalar (IDENTIFIER f :: LP :: ts ++ [RP]) (FunctionCallExpr f (map Some es) false)
| d_call_star f : d_scalar [IDENTIFIER f; LP; STAR; RP] (FunctionCallExpr f [Some (StarExpr "")] false)
| d_parens ts e : d_scalar ts e → d_scalar (LP :: ts ++ [RP]) e.

Inductive d_set_clause : list Token → AstSetClause → Prop :=
| d_set ts c us e : d_column_reference ts c → d_scalar us e →
    d_set_clause (ts ++ EQUALS :: us) (mkAstSet (Some c) (Some e)).

Inductive d_select_item : list Token → Expr → Prop :=
| d_item ts t c : d_column_reference ts (t, c) → d_select_item ts (Col t c).

Inductive d_select_list : list Token → list (option Expr) → Prop :=
| d_star : d_select_list [STAR] [Some (StarExpr "")]
| d_items ts es : d_list d_select_item ts es → d_select_list ts (map Some es).

Definition table_ref (t : string) : FromNode := TableRef (inl t) "".

Inductive d_from_tree : list Token → FromNode → Prop :=
| d_from_table ts t : d_name ts t → d_from_tree ts (table_ref t)
| d_from_cross ts f us t : d_from_tree ts f → d_name us t →
    d_from_tree (ts ++ COMMA :: us) (JoinNode Cross (Some f) (Some (table_ref t)) None)
| d_from_inner ts f us t : d_from_tree ts f → d_name us t →
    d_from_tree (ts ++ JOIN :: us) (JoinNode Inner (Some f) (Some (table_ref t)) None).

Inductive d_order_direction : list Token → OrderByDir → Prop :=
| d_asc : d_order_direction [ASC] Asc
| d_desc : d_order_direction [DESC] Desc
| d_default : d_order_direction [] Default.

Inductive d_optional_order_by : list Token → list (option (option Expr * OrderByDir)) → Prop :=
| d_no_order : d_optional_order_by [] []
| d_order ts t c us d : d_column_reference ts (t, c) → d_order_direction us d →
    d_optional_order_by (ORDER :: BY :: ts ++ us) [Some (Some (Col t c), d)].

Inductive d_column_type : list Token → TypeLen → Prop :=
| d_int : d_column_type [INT] (mkTypeLen DInt 4)
| d_char n : d_column_type [CHAR; LP; VALUE_INT n; RP] (mkTypeLen DString n)
| d_float : d_column_type [FLOAT] (mkTypeLen DFloat 4).

Inductive d_column_definition : list Token → AstColDef → Prop :=
| d_coldef ts c us ty : d_name ts c → d_column_type us ty → d_column_definition (ts ++ us) (mkColDef c ty).

(** [stmt] with [utility_stmt], [ddl_stmt], [dml_stmt] and [transaction_stmt]. *)
Inductive d_stmt : list Token → Statement → Prop :=
| d_begin : d_stmt [TXN_BEGIN] TxnBeginStmt
| d_commit : d_stmt [TXN_COMMIT] TxnCommitStmt
| d_abort : d_stmt [TXN_ABORT] TxnAbortStmt
| d_rollback : d_stmt [TXN_ROLLBACK] TxnRollbackStmt
| d_show_database : d_stmt [SHOW; DATABASE] ShowDatabaseStmt
| d_show_tables : d_stmt [SHOW; TABLES] ShowTablesStmt
| d_help : d_stmt [HELP] HelpStmt
| d_set_knob k v : d_stmt [SET_; IDENTIFIER k; EQUALS; IDENTIFIER v] (SetKnobStmt k v)
| d_create_table ts t us defs : d_name ts t → d_list d_column_definition us defs →
    d_stmt (CREATE :: TABLE :: ts ++ LP :: us ++ [RP]) (CreateTableStmt t defs)
| d_drop_table ts t : d_name ts t → d_stmt (DROP :: TABLE :: ts) (DropTableStmt t)
| d_desc_table ts t : d_name ts t → d_stmt (DESC :: ts) (DescTableStmt t)
| d_create_index ts t us cs : d_name ts t → d_list d_name us cs →
    d_stmt (CREATE :: INDEX :: ts ++ LP :: us ++ [RP]) (CreateIndexStmt t cs false)
| d_create_unique ts t us cs : d_name ts t → d_list d_name us cs →
    d_stmt (CREATE :: UNIQUE :: INDEX :: ts ++ LP :: us ++ [RP]) (CreateIndexStmt t cs true)
| d_drop_index ts t us cs : d_name ts t → d_list d_name us cs →
    d_stmt (DROP :: INDEX :: ts ++ LP :: us ++ [RP]) (DropIndexStmt t cs)
| d_insert ts t us vs : d_name ts t → d_list d_value us vs →
    d_stmt (INSERT :: INTO :: ts ++ VALUES :: LP :: us ++ [RP]) (Insert_ (mkInsert t (map Some vs)))
| d_delete ts t us w : d_name ts t → d_optional_where us w →
    d_stmt (DELETE :: FROM :: ts ++ us) (Delete_ (mkDelete t w))
| d_update ts t us sets vs w : d_name ts t → d_list d_set_clause us sets → d_optional_where vs w →
    d_stmt (UPDATE :: ts ++ SET_ :: us ++ vs) (Update_ (mkUpdate t (map Some sets) w))
| d_select ts items us f vs w ws o :
    d_select_list ts items → d_from_tree us f → d_optional_where vs w → d_optional_order_by ws o →
    d_stmt (SELECT :: ts ++ FROM :: us ++ vs ++ ws) (Select_ (mkSelect items (Some f) w [] None o None)).

(** [start: stmt ';'] *)
Inductive d_start : list Token → Statement → Prop :=
| d_statement ts s : d_stmt ts s → d_start (ts ++ [SEMI]) s.

(** ** The parser *)

(** A value and the tokens behind it, or the tokens from the offending one on. *)
Inductive presult (A : Type) := PDone (a : A) (rest : list Token) | PFail (rest : list Token).
Arguments PDone {A} a rest.
Arguments PFail {A} rest.

Definition parser (A : Type) := list Token → presult A.

#[global] Instance parser_ret : MRet parser := λ A a ts, PDone a ts.
#[global] Instance parser_bind : MBind parser := λ A B f p ts,
  match p ts with PDone a rest => f a rest | PFail rest => PFail rest end.

Definition fail {A} : parser A := PFail.

(** Shifts the token [t]. *)
Definition expect (t : Token) : parser unit := λ ts,
  match ts with
  | u :: rest => if bool_decide (u = t) then PDone tt rest else PFail ts
  | [] => PFail ts
  end.

(** Goes by the next token, without shifting it. *)
Definition if_next {A} (t : Token) (p q : parser A) : parser A := λ ts,
  if bool_decide (head ts = Some t) then p ts else q ts.
Definition if_identifier {A} (p q : parser A) : parser A := λ ts,
  match ts with IDENTIFIER _ :: _ => p ts | _ => q ts end.

Definition p_name : parser string := λ ts,
  match ts with IDENTIFIER x :: rest => PDone x rest | _ => PFail ts end.

(** [(',' x)*], with fuel for as many rounds as there are tokens. *)
Fixpoint p_more {A} (fuel : nat) (item : parser A) (acc : list A) : parser (list A) :=
  match fuel with
  | S fuel => if_next COMMA (expect COMMA;; a ← item; p_more fuel item (acc ++ [a])) (mret acc)
  | O => mret acc
  end.

Definition p_list {A} (item : parser A) : parser (list A) :=
  a ← item; ((λ ts, p_more (length ts) item [a] ts) : parser (list A)).

Definition p_value : parser Expr := λ ts,
  match ts with
  | VALUE_INT n :: rest => PDone (IntLit n) rest
  | VALUE_FLOAT n :: rest => PDone (FloatLit n) rest
  | VALUE_STRING s :: rest => PDone (StringLit s) rest
  | _ => PFail ts
  end.

(** What follows an identifier that is a table or a column name. *)
Definition p_column_rest (x : string) : parser (string * string) :=
  if_next DOT (expect DOT;; c ← p_name; mret (x, c)) (mret (""%string, x)).

Definition p_column_reference : parser (string * string) := x ← p_name; p_column_rest x.

Definition p_comparison_operator : parser AstCompOp := λ ts,
  match ts with
  | EQUALS :: rest => PDone Eq rest
  | LESS :: rest => PDone Lt rest
  | GREATER :: rest => PDone Gt rest
  | NEQ :: rest => PDone Ne rest
  | LEQ :: rest => PDone Le rest
  | GEQ :: rest => PDone Ge rest
  | _ => PFail ts
  end.

Definition p_column : parser Expr := x ← p_column_reference; mret (Col x.1 x.2).

Definition p_comparison_operand : parser Expr := if_identifier p_column p_value.

Definition p_comparison : parser Expr :=
  c ← p_column_reference; op ← p_comparison_operator; e ← p_comparison_operand;
  mret (BinaryExpr (Some c) op (Some e)).

(** [(AND comparison)*] *)
Fixpoint p_and (fuel : nat) (p : Expr) : parser Expr :=
  match fuel with
  | S fuel => if_next AND (expect AND;; e ← p_comparison; p_and fuel (LogicalExpr And (Some p) (Some e))) (mret p)
  | O => mret p
  end.

Definition p_predicate : parser Expr :=
  e ← p_comparison; ((λ ts, p_and (length ts) e ts) : parser Expr).

Definition p_optional_where : parser (option Expr) :=
  if_next WHERE (expect WHERE;; p ← p_predicate; mret (Some p)) (mret None).

(** Nesting takes at least one token a level, so the number of tokens is enough fuel. *)
Fixpoint p_scalar (fuel : nat) : parser Expr :=
  match fuel with
  | O => fail
  | S fuel =>
    if_next LP (expect LP;; e ← p_scalar fuel; expect RP;; mret e)
    (if_identifier
      (x ← p_name;
       if_next LP
         (expect LP;;
          if_next RP (expect RP;; mret (FunctionCallExpr x [] false))
          (if_next STAR (expect STAR;; expect RP;; mret (FunctionCallExpr x [Some (StarExpr "")] false))
           (es ← p_list (p_scalar fuel); expect RP;; mret (FunctionCallExpr x (map Some es) false))))
         (c ← p_column_rest x; mret (Col c.1 c.2)))
      p_value)
  end.

Definition p_scalar_expression : parser Expr := λ ts, p_scalar (S (length ts)) ts.

Definition p_set_clause : parser AstSetClause :=
  c ← p_column_reference; expect EQUALS;; e ← p_scalar_expression; mret (mkAstSet (Some c) (Some e)).

Definition p_select_item : parser Expr := p_column.

Definition p_select_list : parser (list (option Expr)) :=
  if_next STAR (expect STAR;; mret [Some (StarExpr "")]) (es ← p_list p_select_item; mret (map Some es)).

Fixpoint p_from_more (fuel : nat) (f : FromNode) : parser FromNode :=
  match fuel with
  | S fuel =>
    if_next COMMA (expect COMMA;; t ← p_name; p_from_more fuel (JoinNode Cross (Some f) (Some (table_ref t)) None))
    (if_next JOIN (expect JOIN;; t ← p_name; p_from_more fuel (JoinNode Inner (Some f) (Some (table_ref t)) None))
     (mret f))
  | O => mret f
  end.

Definition p_from_tree : parser FromNode :=
  t ← p_name; ((λ ts, p_from_more (length ts) (table_ref t) ts) : parser FromNode).

Definition p_order_direction : parser OrderByDir :=
  if_next ASC (expect ASC;; mret Asc) (if_next DESC (expect DESC;; mret Desc) (mret Default)).

Definition p_optional_order_by : parser (list (option (option Expr * OrderByDir))) :=
  if_next ORDER
    (expect ORDER;; expect BY;; e ← p_column; d ← p_order_direction; mret [Some (Some e, d)])
    (mret []).

Definition p_value_int : parser Z := λ ts,
  match ts with VALUE_INT n :: rest => PDone n rest | _ => PFail ts end.

Definition p_column_type : parser TypeLen := λ ts,
  match ts with
  | INT :: rest => PDone (mkTypeLen DInt 4) rest
  | FLOAT :: rest => PDone (mkTypeLen DFloat 4) rest
  | CHAR :: rest =>
    (expect LP;;
     n ← p_value_int;
     expect RP;; mret (mkTypeLen DString n)) rest
  | _ => PFail ts
  end.

Definition p_column_definition : parser AstColDef := c ← p_name; ty ← p_column_type; mret (mkColDef c ty).

(** ['(' x_list ')'] *)
Definition p_parens {A} (item : parser A) : parser (list A) :=
  expect LP;; l ← p_list item; expect RP;; mret l.

Definition p_stmt : parser Statement := λ ts,
  match ts with
  | TXN_BEGIN :: ts => PDone TxnBeginStmt ts
  | TXN_COMMIT :: ts => PDone TxnCommitStmt ts
  | TXN_ABORT :: ts => PDone TxnAbortStmt ts
  | TXN_ROLLBACK :: ts => PDone TxnRollbackStmt ts
  | HELP :: ts => PDone HelpStmt ts
  | SHOW :: DATABASE :: ts => PDone ShowDatabaseStmt ts
  | SHOW :: TABLES :: ts => PDone ShowTablesStmt ts
  | SHOW :: ts => PFail ts
  | SET_ :: ts => (k ← p_name; expect EQUALS;; v ← p_name; mret (SetKnobStmt k v)) ts
  | CREATE :: TABLE :: ts => (t ← p_name; defs ← p_parens p_column_definition; mret (CreateTableStmt t defs)) ts
  | CREATE :: INDEX :: ts => (t ← p_name; cs ← p_parens p_name; mret (CreateIndexStmt t cs false)) ts
  | CREATE :: UNIQUE :: ts =>
    (expect INDEX;; t ← p_name; cs ← p_parens p_name; mret (CreateIndexStmt t cs true)) ts
  | CREATE :: ts => PFail ts
  | DROP :: TABLE :: ts => (t ← p_name; mret (DropTableStmt t)) ts
  | DROP :: INDEX :: ts => (t ← p_name; cs ← p_parens p_name; mret (DropIndexStmt t cs)) ts
  | DROP :: ts => PFail ts
  | DESC :: ts => (t ← p_name; mret (DescTableStmt t)) ts
  | INSERT :: ts =>
    (expect INTO;; t ← p_name; expect VALUES;; vs ← p_parens p_value; mret (Insert_ (mkInsert t (map Some vs)))) ts
  | DELETE :: ts => (expect FROM;; t ← p_name; w ← p_optional_where; mret (Delete_ (mkDelete t w))) ts
  | UPDATE :: ts =>
    (t ← p_name; expect SET_;; sets ← p_list p_set_clause; w ← p_optional_where;
     mret (Update_ (mkUpdate t (map Some sets) w))) ts
  | SELECT :: ts =>
    (items ← p_select_list; expect FROM;; f ← p_from_tree; w ← p_optional_where; o ← p_optional_order_by;
     mret (Select_ (mkSelect items (Some f) w [] None o None))) ts
  | _ => PFail ts
  end.

(** ** Parse *)

Record ParseResult := mkParseResult { statement : option Statement; error : option ParseError }.

Definition parse_ok (r : ParseResult) : bool :=
  match statement r, error r with Some _, None => true | _, _ => false end.

Section Parse.
(** The message of Bison's [yyerror] call: the tokens, and those from the offending
    one on. *)
Context (syntax_message : list Token → list Token → bytes).

(** The error at the offending token, or at the end of the input: the scanner's own
    where it returned [INVALID], [yyerror]'s otherwise. *)
Definition error_at (tokens : list LToken) (eof : Z * Z) (rest : list Token) (context : ParseContext) : ParseContext :=
  let all := map token tokens in
  match drop (length tokens - length rest) tokens with
  | [] => RecordError context eof.1 eof.2 (syntax_message all rest)
  | t :: _ =>
    match token t with
    | INVALID e => RecordError context (line e) (column e) (message e)
    | _ => RecordError context (tok_line t) (tok_column t) (syntax_message all rest)
    end
  end.

(** [yyparse(&context)]: its status and the context.  The statement is stored when the
    semicolon is shifted; the end of the input is only looked for afterwards. *)
Definition yyparse (tokens : list LToken) (eof : Z * Z) : Z * ParseContext :=
  let context := mkParseContext None None in
  match p_stmt (map token tokens) with
  | PFail rest => (1, error_at tokens eof rest context)
  | PDone stmt rest =>
    match expect SEMI rest with
    | PFail rest => (1, error_at tokens eof rest context)
    | PDone _ [] => (0, mkParseContext (Some stmt) None)
    | PDone _ rest => (1, error_at tokens eof rest (mkParseContext (Some stmt) None))
    end
  end.

Definition Parse (sql : bytes) : ParseResult :=
  match find_char ch_nul sql with
  | Some nul => mkParseResult None (Some (ErrorAtOffset sql nul (str "NUL byte is not allowed in SQL")))
  | None =>
    if INT_MAX <? zlen sql
    then mkParseResult None (Some (mkParseError 1 1 (str "SQL statement is too large")))
    else
      let '(tokens, eof) := tokenize sql in
      let '(status, context) := yyparse tokens eof in
      let context :=
        match ctx_error context with
        | Some _ => context
        | None =>
          if negb (status =? 0)
          then mkParseContext (ctx_statement context) (Some (mkParseError 1 1 (str "syntax error")))
          else match ctx_statement context with
               | None => mkParseContext None (Some (mkParseError 1 1 (str "empty SQL statement")))
               | Some _ => context
               end
        end in
      mkParseResult (ctx_statement context) (ctx_error context)
  end.

End Parse.

Example parse_examples :
  let P s := Parse (λ _ _, []) (str s) in
  statement (P "select a.x, y from a, b join c where a.x >= 3 and y = 'z' order by y desc;") =
    Some (Select_ (mkSelect [Some (Col "a" "x"); Some (Col "" "y")]
      (Some (JoinNode Inner (Some (JoinNode Cross (Some (table_ref "a")) (Some (table_ref "b")) None))
               (Some (table_ref "c")) None))
      (Some (LogicalExpr And (Some (BinaryExpr (Some ("a", "x")) Ge (Some (IntLit 3))))
                             (Some (BinaryExpr (Some ("", "y")) Eq (Some (StringLit "z"))))))
      [] None [Some (Some (Col "" "y"), Desc)] None)) ∧
  statement (P "update t set a = f(1, (b), g()), c = 2.5 where t.c < 7;") =
    Some (Update_ (mkUpdate "t"
      [Some (mkAstSet (Some ("", "a")) (Some (FunctionCallExpr "f"
          [Some (IntLit 1); Some (Col "" "b"); Some (FunctionCallExpr "g" [] false)] false)));
       Some (mkAstSet (Some ("", "c")) (Some (FloatLit 0x40200000)))]
      (Some (BinaryExpr (Some ("t", "c")) Lt (Some (IntLit 7)))))) ∧
  (P "select * from t where 'x") =
    mkParseResult None (Some (mkParseError 1 23 (str "unterminated string literal")) ) ∧
  parse_ok (P "help; help;") = false ∧ statement (P "help; help;") = Some HelpStmt.
Proof. vm_compute. split_and!; reflexivity. Qed.
