(* ===== verification/GrammarFacts.v ===== *)
(** * The parser accepts exactly the grammar

    Soundness and completeness of the parser of [Grammar] with respect to the
    productions, non-terminal by non-terminal, and what [Parse] promises its caller. *)

From S2P Require Import Prelude Ast SqlClient Lexer Grammar.

(** ** Running a parser *)

Lemma pbind_done {A B} (p : parser A) (f : A → parser B) ts b rest :
  (p ≫= f) ts = PDone b rest ↔ ∃ a mid, p ts = PDone a mid ∧ f a mid = PDone b rest.
Proof. unfold mbind, parser_bind. destruct (p ts); naive_solver. Qed.

Lemma pbind_run {A B} (p : parser A) (f : A → parser B) ts a mid :
  p ts = PDone a mid → (p ≫= f) ts = f a mid.
Proof. unfold mbind, parser_bind. by intros ->. Qed.

Lemma expect_done t ts u rest : expect t ts = PDone u rest → ts = t :: rest.
Proof. unfold expect. destruct ts as [|u' ts]; [done|]. case_bool_decide; naive_solver. Qed.

Lemma expect_run t ts : expect t (t :: ts) = PDone tt ts.
Proof. unfold expect. by rewrite bool_decide_eq_true_2. Qed.

Lemma if_next_done {A} t (p q : parser A) ts a rest :
  if_next t p q ts = PDone a rest → (head ts = Some t ∧ p ts = PDone a rest) ∨ (head ts ≠ Some t ∧ q ts = PDone a rest).
Proof. unfold if_next. case_bool_decide; tauto. Qed.

Lemma if_next_yes {A} t (p q : parser A) ts : if_next t p q (t :: ts) = p (t :: ts).
Proof. unfold if_next. by rewrite bool_decide_eq_true_2. Qed.

Lemma if_next_no {A} t (p q : parser A) ts : head ts ≠ Some t → if_next t p q ts = q ts.
Proof. unfold if_next. intros. by rewrite bool_decide_eq_false_2. Qed.

Lemma if_identifier_done {A} (p q : parser A) ts a rest :
  if_identifier p q ts = PDone a rest → p ts = PDone a rest ∨ q ts = PDone a rest.
Proof. unfold if_identifier. destruct ts as [|[] ts]; auto. Qed.

(** Takes a successful run apart. *)
Ltac p_inv := repeat match goal with
  | H : (_ ≫= _) _ = PDone _ _ |- _ => apply pbind_done in H as (? & ? & ? & ?)
  | H : expect _ _ = PDone _ _ |- _ => apply expect_done in H; subst
  | H : if_next _ _ _ _ = PDone _ _ |- _ => apply if_next_done in H as [[? H]|[? H]]
  | H : if_identifier _ _ _ = PDone _ _ |- _ => apply if_identifier_done in H as [H|H]
  | H : mret _ _ = PDone _ _ |- _ => injection H as ? ?; subst
  | H : (let '(_, _) := ?x in _) _ = PDone _ _ |- _ => is_var x; destruct x
  | H : PDone _ _ = PDone _ _ |- _ => injection H as ? ?; subst
  | H : PFail _ = PDone _ _ |- _ => discriminate H
  end.

Lemma if_identifier_yes {A} (p q : parser A) x ts : if_identifier p q (IDENTIFIER x :: ts) = p (IDENTIFIER x :: ts).
Proof. done. Qed.

Lemma p_name_run x ts : p_name (IDENTIFIER x :: ts) = PDone x ts.
Proof. done. Qed.

(** Runs the tokens that are there. *)
Ltac p_run := repeat first
  [ rewrite (pbind_run _ _ _ _ _ (expect_run _ _))
  | rewrite (pbind_run _ _ _ _ _ (p_name_run _ _))
  | rewrite if_next_yes
  | rewrite if_identifier_yes
  | rewrite if_next_no by (cbn; congruence)
  | erewrite pbind_run by eassumption ].

Definition sound {A} (p : parser A) (d : list Token → A → Prop) : Prop :=
  ∀ ts a rest, p ts = PDone a rest → ∃ pre, ts = pre ++ rest ∧ d pre a.

(** Replaces the runs of a parser that is known to be sound by what they read. *)
Ltac p_sound L := repeat match type of L with sound ?p _ =>
  match goal with H : p _ = PDone _ _ |- _ => apply L in H as (? & ? & ?); subst end end.

(** The tokens that may not follow a phrase: they would continue it. *)
Definition stop (bad : list Token) (rest : list Token) : Prop :=
  match rest with t :: _ => t ∉ bad | [] => True end.

Definition complete {A} (p : parser A) (d : list Token → A → Prop) (bad : list Token) : Prop :=
  ∀ pre a rest, d pre a → stop bad rest → p (pre ++ rest) = PDone a rest.

Lemma stop_weaken bad bad' rest : bad ⊆ bad' → stop bad' rest → stop bad rest.
Proof. destruct rest; [done|]. cbn. set_solver. Qed.

Lemma complete_weaken {A} p (d : _ → A → Prop) bad bad' : bad ⊆ bad' → complete p d bad → complete p d bad'.
Proof. intros Hb Hc pre a rest Hd Hs. apply Hc; [done|]. by eapply stop_weaken. Qed.

Lemma stop_nil rest : stop [] rest.
Proof. destruct rest; [done|]. cbn. set_solver. Qed.

Lemma stop_head t bad rest : stop bad rest → t ∈ bad → head rest ≠ Some t.
Proof. destruct rest; [done|]. cbn. intros ? ? [= ->]. done. Qed.

Ltac stop_solve := cbn; set_solver.

(** ** Names, values, column references *)

Lemma p_name_sound : sound p_name d_name.
Proof. intros [|[] ts] a rest; cbn; intros H; p_inv; try done. eexists [_]. split; [done|constructor]. Qed.

Lemma p_name_complete : complete p_name d_name [].
Proof. by intros ? a rest [x] _. Qed.

Lemma p_value_sound : sound p_value d_value.
Proof. intros [|[] ts] a rest; cbn; intros H; p_inv; try done; eexists [_]; (split; [done|constructor]). Qed.

Lemma p_value_complete : complete p_value d_value [].
Proof. by intros ? a rest [] _. Qed.

Lemma p_column_rest_done x ts c rest :
  p_column_rest x ts = PDone c rest →
  (c = (""%string, x) ∧ ts = rest) ∨ ∃ y, c = (x, y) ∧ ts = DOT :: IDENTIFIER y :: rest.
Proof.
  unfold p_column_rest. intros H. p_inv; [right|by left]. p_sound p_name_sound.
  match goal with H : d_name _ _ |- _ => destruct H as [y] end. by exists y.
Qed.

Lemma p_column_rest_column x ts c rest :
  p_column_rest x ts = PDone c rest → ∃ pre, ts = pre ++ rest ∧ d_column_reference (IDENTIFIER x :: pre) c.
Proof.
  intros [[-> ->]|(y & -> & ->)]%p_column_rest_done.
  - exists []. split; [done|]. apply d_unqualified. constructor.
  - eexists [_; _]. split; [done|]. apply (d_qualified [_] _ [_]); constructor.
Qed.

Lemma p_column_reference_sound : sound p_column_reference d_column_reference.
Proof.
  intros ts c rest H. unfold p_column_reference in H. p_inv. p_sound p_name_sound.
  match goal with H : d_name _ _, H' : p_column_rest _ _ = _ |- _ =>
    destruct H as [x]; apply p_column_rest_column in H' as (pre & -> & Hd) end.
  by exists (IDENTIFIER x :: pre).
Qed.

Lemma p_column_rest_plain x ts : stop [DOT] ts → p_column_rest x ts = PDone (""%string, x) ts.
Proof. intros Hs. unfold p_column_rest. rewrite if_next_no; [done|]. destruct ts; cbn in *; set_solver. Qed.

Lemma p_column_rest_dot x y ts : p_column_rest x (DOT :: IDENTIFIER y :: ts) = PDone (x, y) ts.
Proof. unfold p_column_rest. p_run. done. Qed.

Lemma p_column_reference_complete : complete p_column_reference d_column_reference [DOT].
Proof.
  intros pre c rest [ts t us c' [t'] [c'']|ts c' [x]] Hs.
  - exact (p_column_rest_dot t' c'' rest).
  - exact (p_column_rest_plain x rest Hs).
Qed.

Lemma p_column_sound : sound p_column (λ ts e, ∃ t c, e = Col t c ∧ d_column_reference ts (t, c)).
Proof.
  intros ts e rest H. unfold p_column in H. p_inv. p_sound p_column_reference_sound.
  match goal with H : d_column_reference ?pre ?x |- _ => exists pre; split; [done|]; exists x.1, x.2; by destruct x end.
Qed.

Lemma p_column_complete t c : complete p_column (λ ts e, e = Col t c ∧ d_column_reference ts (t, c)) [DOT].
Proof.
  intros pre e rest [-> Hd] Hs. unfold p_column.
  by rewrite (pbind_run _ _ _ _ _ (p_column_reference_complete _ _ rest Hd Hs)).
Qed.

(** ** Comparisons *)

Lemma p_comparison_operator_sound : sound p_comparison_operator d_comparison_operator.
Proof.
  intros [|t ts] a rest H; [done|]. unfold p_comparison_operator in H.
  destruct t as [| | | | | | | | | | | | | | | | | | | | | | | | | | | | | | | | | |ch| | | | |]; try done;
    [..|destruct ch; try done]; injection H as <- <-; (eexists [_]; split; [done|constructor]).
Qed.

Lemma p_comparison_operator_complete : complete p_comparison_operator d_comparison_operator [].
Proof. by intros ? a rest [] _. Qed.

Lemma p_comparison_operand_sound : sound p_comparison_operand d_comparison_operand.
Proof.
  intros ts a rest H. unfold p_comparison_operand in H. p_inv.
  - apply p_column_sound in H as (pre & -> & t & c & -> & Hd). exists pre. split; [done|by constructor].
  - p_sound p_value_sound. eexists; split; [done|by constructor].
Qed.

Lemma p_comparison_operand_complete : complete p_comparison_operand d_comparison_operand [DOT].
Proof.
  intros pre a rest [ts e Hv|ts t c Hc] Hs; unfold p_comparison_operand.
  - by destruct Hv.
  - pose proof (p_column_complete t c ts _ rest (conj eq_refl Hc) Hs) as H.
    destruct Hc as [? ? ? ? [] []|? ? []]; exact H.
Qed.

Lemma p_comparison_sound : sound p_comparison d_comparison.
Proof.
  intros ts a rest H. unfold p_comparison in H. p_inv. p_sound p_column_reference_sound.
  p_sound p_comparison_operator_sound. p_sound p_comparison_operand_sound.
  eexists. split; [|by econstructor]. by rewrite <- !app_assoc.
Qed.

(** No phrase starts with one of these. *)
Lemma operator_no_dot us op rest : d_comparison_operator us op → stop [DOT] (us ++ rest).
Proof. intros []; stop_solve. Qed.

Lemma p_comparison_complete : complete p_comparison d_comparison [DOT].
Proof.
  intros pre a rest [ts c us op vs e H1 H2 H3] Hs. unfold p_comparison. rewrite <- !app_assoc.
  rewrite (pbind_run _ _ _ _ _ (p_column_reference_complete _ _ _ H1 (operator_no_dot _ _ _ H2))).
  rewrite (pbind_run _ _ _ _ _ (p_comparison_operator_complete _ _ (vs ++ rest) H2 (stop_nil _))).
  by rewrite (pbind_run _ _ _ _ _ (p_comparison_operand_complete _ _ _ H3 Hs)).
Qed.

(** ** Lists *)

Section Lists.
Context {A : Type}.
Implicit Types (p : parser A) (d : list Token → A → Prop).

(** The list as the loop reads it: what follows the first item. *)
Inductive d_tail d : list Token → list A → Prop :=
| d_tail_nil : d_tail d [] []
| d_tail_cons ts a us l : d ts a → d_tail d us l → d_tail d (COMMA :: ts ++ us) (a :: l).

Lemma d_tail_snoc d us l ts a : d_tail d us l → d ts a → d_tail d (us ++ COMMA :: ts) (l ++ [a]).
Proof.
  induction 1 as [|ts' a' us l Ha Ht IH]; intros Hd.
  - cbn. rewrite <- (app_nil_r ts). by constructor; [|constructor].
  - cbn. rewrite <- app_assoc. constructor; [done|by apply IH].
Qed.

Lemma d_list_unfold d ts l : d_list d ts l → ∃ ts0 a us l', ts = ts0 ++ us ∧ l = a :: l' ∧ d ts0 a ∧ d_tail d us l'.
Proof.
  induction 1 as [ts a Ha|ts l ts' a Hl (ts0 & a0 & us & l' & -> & -> & Ha & Ht) Hi].
  - exists ts, a, [], []. rewrite app_nil_r. split_and!; [done..|constructor].
  - exists ts0, a0, (us ++ COMMA :: ts'), (l' ++ [a]). rewrite <- app_assoc. split_and!; [done..|by apply d_tail_snoc].
Qed.

Lemma d_list_fold d us l : d_tail d us l → ∀ ts l0, d_list d ts l0 → d_list d (ts ++ us) (l0 ++ l).
Proof.
  induction 1 as [|ts' a us l Ha Ht IH]; intros ts l0 H0; [by rewrite !app_nil_r|].
  rewrite (app_assoc ts (COMMA :: ts') us : ts ++ (COMMA :: ts' ++ us) = _).
  replace (l0 ++ a :: l) with ((l0 ++ [a]) ++ l) by (by rewrite <- app_assoc).
  apply IH. by constructor.
Qed.

Lemma d_list_bounded d n ts l :
  d_list d ts l → (length ts ≤ n)%nat → d_list (λ us a, d us a ∧ (length us ≤ n)%nat) ts l.
Proof.
  induction 1 as [ts a Ha|ts l ts' a Hl IH Hi]; [by constructor|]. rewrite length_app. cbn. intros Hn.
  constructor; [apply IH; lia|split; [done|lia]].
Qed.

Lemma p_more_sound p d fuel : sound p d → ∀ acc ts l rest,
  p_more fuel p acc ts = PDone l rest → ∃ us l', ts = us ++ rest ∧ l = acc ++ l' ∧ d_tail d us l'.
Proof.
  intros Hp. induction fuel as [|fuel IH]; intros acc ts l rest; cbn; intros H; p_inv;
    try (exists [], []; split_and!; [done|by rewrite app_nil_r|constructor]).
  p_sound Hp. match goal with H : p_more _ _ _ _ = _ |- _ => apply IH in H as (us & l' & -> & -> & Ht) end.
  eexists (COMMA :: _ ++ us), (_ :: l'). split_and!; [cbn; by rewrite <- app_assoc|by rewrite <- app_assoc|by constructor].
Qed.

Lemma p_list_sound p d : sound p d → sound (p_list p) (d_list d).
Proof.
  intros Hp ts l rest H. unfold p_list in H. p_inv. p_sound Hp.
  match goal with H : p_more _ _ _ _ = _ |- _ => apply (p_more_sound _ _ _ Hp) in H as (us & l' & -> & -> & Ht) end.
  eexists. split; [apply app_assoc|]. apply (d_list_fold _ _ _ Ht). by constructor.
Qed.

(** The items are followed by a comma or by what follows the list. *)
Lemma p_more_complete p d bad fuel : complete p d bad → COMMA ∉ bad → ∀ us l, d_tail d us l → ∀ acc rest,
  (length us ≤ fuel)%nat → stop (COMMA :: bad) rest → p_more fuel p acc (us ++ rest) = PDone (acc ++ l) rest.
Proof.
  intros Hp Hc us l Ht. revert fuel. induction Ht as [|ts a us l Ha Ht IH]; intros fuel acc rest Hf Hs.
  - rewrite app_nil_r. destruct fuel; cbn; [done|]. by rewrite if_next_no by (by eapply stop_head; [|left]).
  - destruct fuel as [|fuel]; cbn in Hf; [lia|]. rewrite length_app in Hf. cbn [app p_more].
    rewrite if_next_yes, (pbind_run _ _ _ _ _ (expect_run _ _)), <- app_assoc.
    erewrite pbind_run; [|apply Hp; [done|]].
    + rewrite IH by (done || lia). by rewrite <- app_assoc.
    + destruct Ht; [by eapply stop_weaken; [|exact Hs]; set_solver|done].
Qed.

Lemma p_list_complete p d bad : complete p d bad → COMMA ∉ bad → complete (p_list p) (d_list d) (COMMA :: bad).
Proof.
  intros Hp Hc ts l rest (ts0 & a & us & l' & -> & -> & Ha & Ht)%d_list_unfold Hs. unfold p_list. rewrite <- app_assoc.
  erewrite pbind_run; [|apply Hp; [done|]].
  - by rewrite (p_more_complete p d bad) with (l := l') by (done || rewrite length_app; lia).
  - destruct Ht; [by eapply stop_weaken; [|exact Hs]; set_solver|done].
Qed.

Lemma p_parens_sound p d : sound p d → sound (p_parens p) (λ ts l, ∃ us, ts = LP :: us ++ [RP] ∧ d_list d us l).
Proof.
  intros Hp ts l rest H. unfold p_parens in H. p_inv. pose proof (p_list_sound _ _ Hp) as Hl. p_sound Hl.
  match goal with H : d_list d ?us _ |- _ => exists (LP :: us ++ [RP]); split; [cbn; by rewrite <- app_assoc|by exists us] end.
Qed.

Lemma p_parens_run p d bad us l rest : complete p d bad → COMMA ∉ bad → RP ∉ bad →
  d_list d us l → p_parens p (LP :: us ++ RP :: rest) = PDone l rest.
Proof.
  intros Hp Hc Hr Hl. unfold p_parens. rewrite (pbind_run _ _ _ _ _ (expect_run _ _)).
  erewrite pbind_run; [|apply (p_list_complete p d bad); [done..|]].
  - by rewrite (pbind_run _ _ _ _ _ (expect_run _ _)).
  - cbn. intros [?|?]%elem_of_cons; done.
Qed.
End Lists.

(** ** Predicates *)

Inductive and_tail : Expr → list Token → Expr → Prop :=
| and_tail_nil p : and_tail p [] p
| and_tail_cons p ts e us q : d_comparison ts e → and_tail (LogicalExpr And (Some p) (Some e)) us q →
    and_tail p (AND :: ts ++ us) q.

Lemma and_tail_snoc p us q ts e : and_tail p us q → d_comparison ts e →
  and_tail p (us ++ AND :: ts) (LogicalExpr And (Some q) (Some e)).
Proof.
  induction 1 as [p|p ts' e' us q He Ht IH]; intros Hd.
  - cbn. rewrite <- (app_nil_r ts). econstructor; [done|constructor].
  - cbn. rewrite <- app_assoc. econstructor; [done|by apply IH].
Qed.

Lemma d_predicate_unfold ts q : d_predicate ts q →
  ∃ ts0 p us, ts = ts0 ++ us ∧ d_comparison ts0 p ∧ and_tail p us q.
Proof.
  induction 1 as [ts e He|ts q us e Hq (ts0 & p & us0 & -> & Hp & Ht) He].
  - exists ts, e, []. rewrite app_nil_r. split_and!; [done..|constructor].
  - exists ts0, p, (us0 ++ AND :: us). rewrite <- app_assoc. split_and!; [done..|by apply and_tail_snoc].
Qed.

Lemma d_predicate_fold p us q : and_tail p us q → ∀ ts, d_predicate ts p → d_predicate (ts ++ us) q.
Proof.
  induction 1 as [p|p ts' e us q He Ht IH]; intros ts Hp; [by rewrite app_nil_r|].
  rewrite (app_assoc ts (AND :: ts') us : ts ++ (AND :: ts' ++ us) = _). apply IH. by constructor.
Qed.

Lemma p_and_sound fuel : ∀ p ts q rest, p_and fuel p ts = PDone q rest → ∃ us, ts = us ++ rest ∧ and_tail p us q.
Proof.
  induction fuel as [|fuel IH]; intros p ts q rest; cbn; intros H; p_inv;
    try (exists []; split; [done|constructor]).
  p_sound p_comparison_sound. match goal with H : p_and _ _ _ = _ |- _ => apply IH in H as (us & -> & Ht) end.
  eexists (AND :: _ ++ us). split; [cbn; by rewrite <- app_assoc|by econstructor].
Qed.

Lemma p_predicate_sound : sound p_predicate d_predicate.
Proof.
  intros ts q rest H. unfold p_predicate in H. p_inv. p_sound p_comparison_sound.
  match goal with H : p_and _ _ _ = _ |- _ => apply p_and_sound in H as (us & -> & Ht) end.
  eexists. split; [apply app_assoc|]. apply (d_predicate_fold _ _ _ Ht). by constructor.
Qed.

Lemma p_and_complete p us q : and_tail p us q → ∀ fuel rest, (length us ≤ fuel)%nat → stop [AND; DOT] rest →
  p_and fuel p (us ++ rest) = PDone q rest.
Proof.
  induction 1 as [p|p ts e us q He Ht IH]; intros fuel rest Hf Hs.
  - destruct fuel; cbn; [done|]. by rewrite if_next_no by (by eapply stop_head; [|left]).
  - destruct fuel as [|fuel]; cbn in Hf; [lia|]. rewrite length_app in Hf. cbn [app p_and].
    rewrite if_next_yes, (pbind_run _ _ _ _ _ (expect_run _ _)), <- app_assoc.
    erewrite pbind_run; [|apply p_comparison_complete; [done|]].
    + apply IH; [lia|done].
    + destruct Ht; [by eapply stop_weaken; [|exact Hs]; set_solver|stop_solve].
Qed.

Lemma p_predicate_complete : complete p_predicate d_predicate [AND; DOT].
Proof.
  intros ts q rest (ts0 & p & us & -> & Hp & Ht)%d_predicate_unfold Hs. unfold p_predicate. rewrite <- app_assoc.
  erewrite pbind_run; [|apply p_comparison_complete; [done|]].
  - apply p_and_complete; [done|rewrite length_app; lia|done].
  - destruct Ht; [by eapply stop_weaken; [|exact Hs]; set_solver|stop_solve].
Qed.

Lemma p_optional_where_sound : sound p_optional_where d_optional_where.
Proof.
  intros ts w rest H. unfold p_optional_where in H. p_inv.
  - p_sound p_predicate_sound. eexists (WHERE :: _). split; [done|by constructor].
  - exists []. split; [done|constructor].
Qed.

Lemma p_optional_where_complete : complete p_optional_where d_optional_where [WHERE; AND; DOT].
Proof.
  intros pre w rest [|ts p Hp] Hs; unfold p_optional_where; cbn [app].
  - by rewrite if_next_no by (by eapply stop_head; [|left]).
  - rewrite if_next_yes, (pbind_run _ _ _ _ _ (expect_run _ _)).
    erewrite pbind_run; [|apply p_predicate_complete; [done|]]; [done|].
    eapply stop_weaken; [|exact Hs]. set_solver.
Qed.

(** ** Scalar expressions *)

Lemma p_scalar_sound fuel : sound (p_scalar fuel) d_scalar.
Proof.
  induction fuel as [|fuel IH]; intros ts e rest H; cbn in H; [done|]. pose proof (p_list_sound _ _ IH) as IHl.
  p_inv; p_sound p_value_sound; p_sound p_name_sound; p_sound IH; p_sound IHl;
    repeat match goal with
    | H : d_name _ _ |- _ => destruct H
    | H : p_column_rest _ _ = _ |- _ => apply p_column_rest_column in H as (? & -> & ?)
    end.
  - eexists (LP :: _ ++ [RP]). split; [cbn; by rewrite <- app_assoc|by apply d_parens].
  - eexists [_; _; _]. split; [done|apply d_call_none].
  - eexists [_; _; _; _]. split; [done|apply d_call_star].
  - eexists (_ :: LP :: _ ++ [RP]). split; [cbn; by rewrite <- app_assoc|by apply d_call_list].
  - eexists (_ :: _). split; [done|]. apply d_scalar_column. by rewrite <- surjective_pairing.
  - eexists. split; [done|by apply d_scalar_value].
Qed.

(** Every phrase has a first token; a scalar expression's is none of these. *)
Lemma d_scalar_head ts e : d_scalar ts e → ∃ t us, ts = t :: us ∧ t ∉ [RP; STAR].
Proof.
  intros [? ? []|? ? ? [? ? ? ? [] []|? ? []]| | | |]; eexists _, _; (split; [reflexivity|set_solver]).
Qed.

Lemma d_list_head {A} (d : list Token → A → Prop) (bad : list Token) ts l :
  (∀ ts a, d ts a → ∃ t us, ts = t :: us ∧ t ∉ bad) → d_list d ts l → ∃ t us, ts = t :: us ∧ t ∉ bad.
Proof.
  intros Hd (ts0 & a & us & l' & -> & -> & Ha & _)%d_list_unfold.
  destruct (Hd _ _ Ha) as (t & us' & -> & Ht). by exists t, (us' ++ us).
Qed.

Lemma p_scalar_complete n :
  ∀ fuel, (n ≤ fuel)%nat →
  complete (p_scalar (S fuel)) (λ ts e, d_scalar ts e ∧ (length ts ≤ n)%nat) [DOT; LP].
Proof.
  induction n as [n IH] using lt_wf_ind. intros fuel Hf pre e rest [Hd Hl] Hs. cbn [p_scalar].
  assert (Hn : stop [DOT] rest) by (eapply stop_weaken; [|exact Hs]; set_solver).
  assert (IHi : ∀ m, (m < n)%nat → complete (p_scalar fuel) (λ ts e, d_scalar ts e ∧ (length ts ≤ m)%nat) [DOT; LP]).
  { intros m Hm. destruct fuel as [|fuel]; [lia|]. apply IH; lia. }
  destruct Hd as [ts e [] |ts t c Hc|f|f ts es Hes|f|ts e He]; cbn [app] in *; try done.
  - inversion Hc as [ts0 t0 us c0 H1 H2|ts0 c0 H1]; subst; destruct H1; [destruct H2|]; cbn [app]; p_run.
    + by rewrite (pbind_run _ _ _ _ _ (p_column_rest_dot _ _ _)).
    + rewrite if_next_no by (by eapply stop_head; [exact Hs|set_solver]).
      by rewrite (pbind_run _ _ _ _ _ (p_column_rest_plain _ _ Hn)).
  - p_run. rewrite <- app_assoc. cbn [app].
    destruct (d_list_head d_scalar [RP; STAR] _ _ d_scalar_head Hes) as (t & us & -> & Ht). cbn [app].
    rewrite !if_next_no by (cbn; set_solver). cbn [length] in Hl. rewrite length_app in Hl. cbn in Hl.
    change (t :: us ++ RP :: rest) with ((t :: us) ++ RP :: rest).
    erewrite pbind_run; [|eapply (p_list_complete _ _ [DOT; LP])].
    + by p_run.
    + eapply (IHi (length (t :: us))). cbn. lia.
    + set_solver.
    + apply d_list_bounded; [done|lia].
    + stop_solve.
  - cbn [length] in Hl. rewrite length_app in Hl. cbn in Hl. p_run. rewrite <- app_assoc. cbn [app].
    erewrite pbind_run; [|eapply (IHi (length ts)); [lia|split; [exact He|lia]|stop_solve]].
    by p_run.
Qed.

Lemma p_scalar_expression_sound : sound p_scalar_expression d_scalar.
Proof. intros ts e rest H. by eapply p_scalar_sound. Qed.

Lemma p_scalar_expression_complete : complete p_scalar_expression d_scalar [DOT; LP].
Proof.
  intros pre e rest Hd Hs. unfold p_scalar_expression.
  apply (p_scalar_complete (length pre)); [rewrite length_app; lia|done|done].
Qed.

Lemma p_set_clause_sound : sound p_set_clause d_set_clause.
Proof.
  intros ts a rest H. unfold p_set_clause in H. p_inv. p_sound p_column_reference_sound.
  p_sound p_scalar_expression_sound. eexists. split; [|by econstructor]. by rewrite <- app_assoc.
Qed.

Lemma p_set_clause_complete : complete p_set_clause d_set_clause [DOT; LP].
Proof.
  intros pre a rest [ts c us e Hc He] Hs. unfold p_set_clause. rewrite <- app_assoc. cbn [app].
  erewrite pbind_run; [|apply p_column_reference_complete; [done|stop_solve]]. p_run.
  by erewrite pbind_run; [|apply p_scalar_expression_complete].
Qed.

(** ** The clauses of SELECT *)

Lemma p_select_item_sound : sound p_select_item d_select_item.
Proof. intros ts e rest (pre & -> & t & c & -> & Hd)%p_column_sound. exists pre. split; [done|by constructor]. Qed.

Lemma p_select_item_complete : complete p_select_item d_select_item [DOT].
Proof. intros pre e rest [ts t c Hc] Hs. by apply (p_column_complete t c). Qed.

Lemma p_select_list_sound : sound p_select_list d_select_list.
Proof.
  intros ts l rest H. unfold p_select_list in H. p_inv.
  - eexists [_]. split; [done|constructor].
  - pose proof (p_list_sound _ _ p_select_item_sound) as Hl. p_sound Hl. eexists. split; [done|by constructor].
Qed.

Lemma d_select_item_head ts e : d_select_item ts e → ∃ t us, ts = t :: us ∧ t ∉ [STAR].
Proof. intros [? ? ? [? ? ? ? [] []|? ? []]]; eexists _, _; (split; [reflexivity|set_solver]). Qed.

Lemma p_select_list_complete : complete p_select_list d_select_list [COMMA; DOT].
Proof.
  intros pre l rest [|ts es Hes] Hs; unfold p_select_list; cbn [app]; [by p_run|].
  pose proof (p_list_complete _ _ _ p_select_item_complete ltac:(set_solver) _ _ rest Hes Hs) as Hrun.
  destruct (d_list_head _ _ _ _ d_select_item_head Hes) as (t & us & -> & Ht).
  rewrite if_next_no by (cbn; set_solver). by rewrite (pbind_run _ _ _ _ _ Hrun).
Qed.

Inductive from_tail : FromNode → list Token → FromNode → Prop :=
| from_tail_nil f : from_tail f [] f
| from_tail_cons f k j ts t us g : (k = COMMA ∧ j = Cross) ∨ (k = JOIN ∧ j = Inner) → d_name ts t →
    from_tail (JoinNode j (Some f) (Some (table_ref t)) None) us g → from_tail f (k :: ts ++ us) g.

Lemma from_tail_snoc f us g k j ts t : from_tail f us g → (k = COMMA ∧ j = Cross) ∨ (k = JOIN ∧ j = Inner) →
  d_name ts t → from_tail f (us ++ k :: ts) (JoinNode j (Some g) (Some (table_ref t)) None).
Proof.
  induction 1 as [f|f k' j' ts' t' us g Hk Hn Ht IH]; intros Hk' Hn'.
  - cbn. rewrite <- (app_nil_r ts). by econstructor; [| |constructor].
  - cbn. rewrite <- app_assoc. econstructor; [done..|by apply IH].
Qed.

Lemma d_from_tree_unfold ts g : d_from_tree ts g → ∃ t us, ts = IDENTIFIER t :: us ∧ from_tail (table_ref t) us g.
Proof.
  induction 1 as [ts t []|ts f us t Hf (t0 & us0 & -> & Ht) Hn|ts f us t Hf (t0 & us0 & -> & Ht) Hn].
  - eexists _, []. split; [done|constructor].
  - exists t0, (us0 ++ COMMA :: us). split; [done|]. by apply (from_tail_snoc _ _ _ _ Cross); [|left|].
  - exists t0, (us0 ++ JOIN :: us). split; [done|]. by apply (from_tail_snoc _ _ _ _ Inner); [|right|].
Qed.

Lemma d_from_tree_fold f us g : from_tail f us g → ∀ ts, d_from_tree ts f → d_from_tree (ts ++ us) g.
Proof.
  induction 1 as [f|f k j ts' t us g Hk Hn Ht IH]; intros ts Hf; [by rewrite app_nil_r|].
  rewrite (app_assoc ts (k :: ts') us : ts ++ (k :: ts' ++ us) = _). apply IH.
  destruct Hk as [[-> ->]|[-> ->]]; by constructor.
Qed.

Lemma p_from_more_sound fuel : ∀ f ts g rest, p_from_more fuel f ts = PDone g rest → ∃ us, ts = us ++ rest ∧ from_tail f us g.
Proof.
  induction fuel as [|fuel IH]; intros f ts g rest; cbn; intros H; p_inv;
    try (exists []; split; [done|constructor]); p_sound p_name_sound;
    match goal with H : p_from_more _ _ _ = _ |- _ => apply IH in H as (us & -> & Ht) end.
  - eexists (COMMA :: _ ++ us). split; [cbn; by rewrite <- app_assoc|by econstructor; [left| |]].
  - eexists (JOIN :: _ ++ us). split; [cbn; by rewrite <- app_assoc|by econstructor; [right| |]].
Qed.

Lemma p_from_tree_sound : sound p_from_tree d_from_tree.
Proof.
  intros ts g rest H. unfold p_from_tree in H. p_inv. p_sound p_name_sound.
  match goal with H : p_from_more _ _ _ = _ |- _ => apply p_from_more_sound in H as (us & -> & Ht) end.
  eexists. split; [apply app_assoc|]. apply (d_from_tree_fold _ _ _ Ht). by constructor.
Qed.

Lemma p_from_more_complete f us g : from_tail f us g → ∀ fuel rest, (length us ≤ fuel)%nat → stop [COMMA; JOIN] rest →
  p_from_more fuel f (us ++ rest) = PDone g rest.
Proof.
  induction 1 as [f|f k j ts t us g Hk Hn Ht IH]; intros fuel rest Hf Hs.
  - destruct fuel; cbn; [done|]. by rewrite !if_next_no by (eapply stop_head; [exact Hs|set_solver]).
  - destruct fuel as [|fuel]; cbn in Hf; [lia|]. rewrite length_app in Hf. cbn [p_from_more].
    destruct Hn as [x]. destruct Hk as [[-> ->]|[-> ->]]; cbn [app]; p_run; apply IH; (done || lia).
Qed.

Lemma p_from_tree_complete : complete p_from_tree d_from_tree [COMMA; JOIN].
Proof.
  intros ts g rest (t & us & -> & Ht)%d_from_tree_unfold Hs. unfold p_from_tree. cbn [app]. p_run.
  apply p_from_more_complete; [done|rewrite length_app; lia|done].
Qed.

Lemma p_order_direction_sound : sound p_order_direction d_order_direction.
Proof.
  intros ts d rest H. unfold p_order_direction in H. p_inv; [eexists [_]|eexists [_]|exists []]; (split; [done|constructor]).
Qed.

Lemma p_order_direction_complete : complete p_order_direction d_order_direction [ASC; DESC].
Proof.
  intros pre d rest [] Hs; unfold p_order_direction; cbn [app]; [by p_run..|].
  by rewrite !if_next_no by (eapply stop_head; [exact Hs|set_solver]).
Qed.

Lemma p_optional_order_by_sound : sound p_optional_order_by d_optional_order_by.
Proof.
  intros ts o rest H. unfold p_optional_order_by in H. p_inv; [|exists []; split; [done|constructor]].
  match goal with H : p_column _ = _ |- _ => apply p_column_sound in H as (us & -> & t & c & -> & Hd) end.
  p_sound p_order_direction_sound. eexists (ORDER :: BY :: us ++ _). split; [cbn; by rewrite <- app_assoc|by constructor].
Qed.

Lemma p_optional_order_by_complete : complete p_optional_order_by d_optional_order_by [ORDER; ASC; DESC; DOT].
Proof.
  intros pre o rest [|ts t c us d Hc Hd] Hs; unfold p_optional_order_by; cbn [app].
  - by rewrite !if_next_no by (eapply stop_head; [exact Hs|set_solver]).
  - p_run. rewrite <- app_assoc.
    erewrite pbind_run; [|apply (p_column_complete t c); [done|]].
    + erewrite pbind_run; [|apply p_order_direction_complete; [done|]]; [done|].
      eapply stop_weaken; [|exact Hs]. set_solver.
    + destruct Hd; [stop_solve..|]. eapply stop_weaken; [|exact Hs]. set_solver.
Qed.

(** ** Column definitions *)

Lemma p_column_type_sound : sound p_column_type d_column_type.
Proof.
  intros [|[] ts] a rest H; cbn in H; try done; p_inv; [eexists [_]; (split; [done|constructor])| |eexists [_]; (split; [done|constructor])].
  match goal with H : p_value_int ?l = _ |- _ => destruct l as [|[] ?]; try done; cbn in H; p_inv end.
  eexists [_; _; _; _]. split; [done|constructor].
Qed.

Lemma p_column_type_complete : complete p_column_type d_column_type [].
Proof. by intros pre a rest [] _. Qed.

Lemma p_column_definition_sound : sound p_column_definition d_column_definition.
Proof.
  intros ts a rest H. unfold p_column_definition in H. p_inv. p_sound p_name_sound. p_sound p_column_type_sound.
  eexists. split; [|by constructor]. by rewrite <- app_assoc.
Qed.

Lemma p_column_definition_complete : complete p_column_definition d_column_definition [].
Proof.
  intros pre a rest [ts c us ty [x] Ht] Hs. unfold p_column_definition. cbn [app]. p_run.
  by erewrite pbind_run; [|apply p_column_type_complete; [done|apply stop_nil]].
Qed.

(** ** Statements *)

(** Parenthesised lists in statements. *)
Ltac p_sound_parens L := pose proof (p_parens_sound _ _ L) as Hparens; p_sound Hparens; clear Hparens;
  repeat match goal with H : ∃ us, _ = LP :: us ++ [RP] ∧ _ |- _ => destruct H as (? & ? & ?); subst end.

Lemma p_stmt_sound : sound p_stmt d_stmt.
Proof.
  intros ts s rest H. unfold p_stmt in H. pose proof (p_list_sound _ _ p_set_clause_sound) as Hsets.
  destruct ts as [|[] ts]; try done;
    lazymatch type of H with
    | match ?l with _ => _ end = _ => destruct l as [|[] ?]; try done
    | _ => idtac
    end;
    p_inv; p_sound p_name_sound; p_sound p_optional_where_sound; p_sound p_select_list_sound;
    p_sound p_from_tree_sound; p_sound p_optional_order_by_sound; p_sound Hsets;
    p_sound_parens p_column_definition_sound; p_sound_parens p_name_sound; p_sound_parens p_value_sound.
  all: try match goal with |- context [SetKnobStmt] =>
    repeat match goal with H : d_name _ _ |- _ => destruct H end end.
  all: eexists; split; [|econstructor; eassumption]; cbn; by rewrite <- ?app_assoc; cbn; rewrite <- ?app_assoc.
Qed.

(** What may not follow a statement. *)
Definition continues : list Token := [WHERE; AND; DOT; LP; COMMA; JOIN; ORDER; ASC; DESC].

Lemma where_stop vs w rest bad : d_optional_where vs w → WHERE ∉ bad → stop bad rest → stop bad (vs ++ rest).
Proof. by intros []. Qed.
Lemma order_stop ws o rest bad : d_optional_order_by ws o → ORDER ∉ bad → stop bad rest → stop bad (ws ++ rest).
Proof. by intros []. Qed.

Ltac p_next L := erewrite pbind_run; [|apply L; [eassumption|..]].
Ltac p_stop Hs := eapply stop_weaken; [|exact Hs]; unfold continues; set_solver.

Lemma p_stmt_complete : complete p_stmt d_stmt continues.
Proof.
  intros pre s rest Hd Hs.
  destruct Hd as [ | | | | | | |k v|ts t us defs [x] Hl|ts t [x]|ts t [x]|ts t us cs [x] Hl|ts t us cs [x] Hl
    |ts t us cs [x] Hl|ts t us vs [x] Hl|ts t us w [x] Hw|ts t us sets vs w [x] Hl Hw
    |ts items us f vs w ws o Hi Hf Hw Ho]; try done; cbn [app p_stmt]; rewrite <- ?app_assoc; cbn [app]; p_run; try done.
  - erewrite pbind_run; [|eapply (p_parens_run _ _ _ _ _ _ p_column_definition_complete); [set_solver..|done]]. done.
  - erewrite pbind_run; [|eapply (p_parens_run _ _ _ _ _ _ p_name_complete); [set_solver..|done]]. done.
  - erewrite pbind_run; [|eapply (p_parens_run _ _ _ _ _ _ p_name_complete); [set_solver..|done]]. done.
  - erewrite pbind_run; [|eapply (p_parens_run _ _ _ _ _ _ p_name_complete); [set_solver..|done]]. done.
  - erewrite pbind_run; [|eapply (p_parens_run _ _ _ _ _ _ p_value_complete); [set_solver..|done]]. done.
  - p_next p_optional_where_complete; [done|]. p_stop Hs.
  - erewrite pbind_run; [|eapply (p_list_complete _ _ _ p_set_clause_complete); [set_solver|done|]].
    + p_next p_optional_where_complete; [done|]. p_stop Hs.
    + eapply where_stop; [done|set_solver|p_stop Hs].
  - p_next p_select_list_complete; [|stop_solve]. p_run. rewrite <- !app_assoc. p_next p_from_tree_complete.
    + p_next p_optional_where_complete.
      * p_next p_optional_order_by_complete; [done|p_stop Hs].
      * eapply order_stop; [done|set_solver|p_stop Hs].
    + eapply where_stop; [done|set_solver|]. eapply order_stop; [done|set_solver|p_stop Hs].
Qed.

Lemma p_stmt_semi ts s rest : d_stmt ts s → p_stmt (ts ++ SEMI :: rest) = PDone s (SEMI :: rest).
Proof. intros Hd. apply p_stmt_complete; [done|]. unfold continues. stop_solve. Qed.

(** The statement of a token sequence, when there is one, is unique. *)
Lemma d_start_unique ts s1 s2 : d_start ts s1 → d_start ts s2 → s1 = s2.
Proof.
  intros [us1 t1 H1] H2. inversion H2 as [us2 t2 H2' E]; subst.
  apply app_inj_tail in E as [<- _].
  pose proof (p_stmt_semi _ _ [] H1) as E1. pose proof (p_stmt_semi _ _ [] H2') as E2. congruence.
Qed.

Section Parse.
Context (syntax_message : list Token → list Token → bytes).

Lemma error_at_some tokens eof rest s : is_Some (ctx_error (error_at syntax_message tokens eof rest (mkParseContext s None))).
Proof. unfold error_at. repeat case_match; by eexists. Qed.

Lemma error_at_statement tokens eof rest c :
  ctx_statement (error_at syntax_message tokens eof rest c) = ctx_statement c.
Proof. unfold error_at, RecordError. repeat case_match; done. Qed.

Lemma yyparse_accepts tokens eof s : yyparse syntax_message tokens eof = (0, mkParseContext (Some s) None) ↔
  d_start (map token tokens) s.
Proof.
  unfold yyparse. split.
  - destruct (p_stmt (map token tokens)) as [s' rest|rest] eqn:E; [|done].
    destruct (expect SEMI rest) as [u [|t rest']|rest'] eqn:Ex; [|done..].
    apply expect_done in Ex. intros [= ->]. subst.
    apply p_stmt_sound in E as (pre & -> & Hd). by constructor.
  - intros H. inversion H as [ts s' Hd E]; subst. by rewrite (p_stmt_semi _ _ [] Hd), expect_run.
Qed.

(** A run that does not accept records an error. *)
Lemma yyparse_rejects tokens eof status c : yyparse syntax_message tokens eof = (status, c) →
  (status = 0 ∧ ctx_error c = None ∧ is_Some (ctx_statement c)) ∨ (status = 1 ∧ is_Some (ctx_error c)).
Proof.
  unfold yyparse. destruct (p_stmt (map token tokens)) as [s rest|rest]; [destruct (expect SEMI rest) as [u [|t rest']|rest']|];
    intros [= <- <-]; [left|right..]; (split; [done|]); [split; [done|by eexists]|apply error_at_some..].
Qed.

Lemma find_char_spec ch l : find_char ch l = None ↔ ch ∉ l.
Proof.
  induction l as [|c l IH]; cbn; [set_solver|]. case_bool_decide; [set_solver|].
  destruct (find_char ch l); cbn in *; [|set_solver]. split; [done|]. intros H'. exfalso.
  assert (ch ∉ l) by set_solver. naive_solver.
Qed.

Lemma Parse_cases sql :
  (ch_nul ∈ sql ∨ INT_MAX < zlen sql) ∧ statement (Parse syntax_message sql) = None ∧
    is_Some (error (Parse syntax_message sql)) ∨
  ch_nul ∉ sql ∧ zlen sql ≤ INT_MAX ∧
    let c := (yyparse syntax_message (tokenize sql).1 (tokenize sql).2).2 in
    Parse syntax_message sql = mkParseResult (ctx_statement c) (ctx_error c).
Proof.
  unfold Parse. destruct (find_char ch_nul sql) as [nul|] eqn:En.
  { left. split_and!; [left|done|by eexists]. destruct (decide (ch_nul ∈ sql)) as [|Hn]; [done|].
    apply find_char_spec in Hn. congruence. }
  apply find_char_spec in En. destruct (INT_MAX <? zlen sql) eqn:El.
  { left. split_and!; [right; by apply Z.ltb_lt|done|by eexists]. }
  right. split_and!; [done|by apply Z.ltb_ge|].
  destruct (tokenize sql) as [tokens eof]. cbn [fst snd].
  destruct (yyparse syntax_message tokens eof) as [status c] eqn:E. cbn [snd].
  apply yyparse_rejects in E as [(-> & He & [s Hs])|(-> & [e He])]; destruct c; cbn in *; by subst.
Qed.

(** C10. Parsing implements the grammar.  [Parse] succeeds with a statement exactly when
    the text has no NUL byte, is no larger than [INT_MAX], and its tokens, up to the
    end of the input, are derived by the grammar's start symbol with that statement as
    their semantic value; the grammar derives at most one statement from a sequence of
    tokens; and when [Parse] does not succeed it always reports an error. *)
Theorem parse_exact sql :
  (∀ s, Parse syntax_message sql = mkParseResult (Some s) None ↔
     ch_nul ∉ sql ∧ zlen sql ≤ INT_MAX ∧ d_start (map token (tokenize sql).1) s) ∧
  (∀ s1 s2, d_start (map token (tokenize sql).1) s1 → d_start (map token (tokenize sql).1) s2 → s1 = s2) ∧
  (parse_ok (Parse syntax_message sql) = false → is_Some (error (Parse syntax_message sql))).
Proof.
  split_and!; [|apply d_start_unique|].
  - intros s. destruct (Parse_cases sql) as [(Hbad & Hs & He)|(Hn & Hl & ->)].
    + split; [intros H; by rewrite H in Hs|]. intros (? & ? & _). destruct Hbad; [done|lia].
    + split.
      * intros [= H1 H2]. split_and!; [done..|]. apply (yyparse_accepts _ (tokenize sql).2).
        destruct (yyparse _ _ _) as [status c] eqn:E. apply yyparse_rejects in E as [(-> & He & Hs)|(-> & [e He])].
        -- cbn in *. destruct c; cbn in *. by subst.
        -- cbn in H2. congruence.
      * intros (_ & _ & Hd). by rewrite (proj2 (yyparse_accepts _ (tokenize sql).2 _) Hd).
  - destruct (Parse_cases sql) as [(_ & _ & He)|(_ & _ & ->)]; [done|].
    destruct (yyparse _ _ _) as [status c] eqn:E. apply yyparse_rejects in E as [(-> & He & [s Hs])|(-> & He)]; [|done].
    unfold parse_ok. cbn. by rewrite Hs, He.
Qed.

(** A statement and an error.  A second statement behind the semicolon is rejected,
    but the result then holds the first statement and the error, although the
    documentation of [ParseResult] says that only one of the two is valid. *)
Theorem parse_statement_and_error :
  let r := Parse syntax_message (str "help; help;") in
  parse_ok r = false ∧ statement r = Some HelpStmt ∧ is_Some (error r).
Proof. vm_compute. split_and!; [done..|by eexists]. Qed.
End Parse.
