(* ===== verification/LexerFacts.v ===== *)
(** * The scanner: progress, literals, and agreement with the client's splitter

    The scanner always moves on, so its fuel is enough; literals survive printing and
    scanning; and the client, which cuts its input into statements without scanning
    it, cuts where the scanner sees a semicolon. *)

From stdpp Require Import pretty.
From S2P Require Import Prelude Ast WireText WireIO SqlClient SqlClientFacts Lexer Grammar GrammarFacts.
Local Open Scope byte_scope.

(** The rules are unfolded last when terms are compared. *)
#[local] Strategy 1000 [longest rules].

(** ** Longest match *)

Lemma longest_spec {A} (l : list (nat * A)) : ∀ best,
  let r := longest best l in (r = best ∨ r ∈ l) ∧ (best.1 ≤ r.1)%nat ∧ (∀ c, c ∈ l → (c.1 ≤ r.1)%nat).
Proof.
  induction l as [|c l IH]; intros best; cbn [longest]; cbv zeta; [split_and!; [by left|lia|set_solver]|].
  cbv zeta in IH. specialize (IH (if (best.1 <? c.1)%nat then c else best)) as (H1 & H2 & H3).
  destruct (best.1 <? c.1)%nat eqn:E; [apply Nat.ltb_lt in E|apply Nat.ltb_ge in E].
  - split_and!; [right; destruct H1 as [->|?]; [left|by right]|lia|]. intros x [->|Hx]%elem_of_cons; [done|by apply H3].
  - split_and!; [destruct H1; [by left|right; by right]|lia|]. intros x [->|Hx]%elem_of_cons; [lia|by apply H3].
Qed.

Lemma longest_in {A} (l : list (nat * A)) best : (best.1 < (longest best l).1)%nat → longest best l ∈ l.
Proof. intros H. destruct (longest_spec l best) as ([E|?] & _ & _); [|done]. rewrite E in H. lia. Qed.

(** A match that is longer than those before it and no shorter than those behind it. *)
Lemma longest_pick {A} (l1 l2 : list (nat * A)) c : ∀ best,
  (best.1 < c.1)%nat → Forall (λ x, (x.1 < c.1)%nat) l1 → Forall (λ x, (x.1 ≤ c.1)%nat) l2 →
  longest best (l1 ++ c :: l2) = c.
Proof.
  induction l1 as [|x l1 IH]; intros best Hb H1 H2; cbn [app longest].
  - rewrite (proj2 (Nat.ltb_lt _ _) Hb). clear Hb. induction H2 as [|y l2 Hy H2 IH]; cbn [longest]; [done|].
    by rewrite (proj2 (Nat.ltb_ge _ _) Hy).
  - inversion H1; subst. apply IH; [|done..]. by destruct (best.1 <? x.1)%nat.
Qed.

Lemma match_rule_ge l n a i : rules l !! i = Some (n, a) → (n ≤ (match_rule l).1)%nat.
Proof.
  intros H. apply list_elem_of_lookup_2 in H.
  destruct (longest_spec (rules l) (O, Skip)) as (_ & _ & Hmax). apply (Hmax (n, a) H).
Qed.

Lemma rules_new_line l : rules l !! 3%nat = Some (m_new_line l, Skip).
Proof. reflexivity. Qed.

Lemma m_new_line_lf l : m_new_line (ch_newline :: l) = 1%nat.
Proof. reflexivity. Qed.

Lemma rules_any l :
  rules l !! 45%nat = Some (m_any l, Return_ (λ _ line column, invalid line column "unexpected character")).
Proof. reflexivity. Qed.

Lemma m_any_pos ch l : ch ≠ ch_newline → m_any (ch :: l) = 1%nat.
Proof. intros H. unfold m_any. by rewrite bool_decide_eq_false_2. Qed.

Lemma match_rule_pos l : l ≠ [] → (1 ≤ (match_rule l).1)%nat.
Proof.
  destruct l as [|ch l]; [done|]. intros _. destruct (decide (ch = ch_newline)) as [->|Hne].
  - rewrite <- (m_new_line_lf l). exact (match_rule_ge _ _ _ _ (rules_new_line _)).
  - rewrite <- (m_any_pos ch l Hne). exact (match_rule_ge _ _ _ _ (rules_any _)).
Qed.

Lemma match_rule_in l : l ≠ [] → match_rule l ∈ rules l.
Proof.
  intros Hl. pose proof (match_rule_pos l Hl) as Hp. unfold match_rule in *.
  generalize dependent (rules l). intros r Hp. by apply longest_in.
Qed.

#[local] Opaque match_rule.

(** Any fuel beyond the length of the input gives the same tokens. *)
Lemma scan_fuel l : ∀ f1 f2 start first last, (length l < f1)%nat → (length l < f2)%nat →
  scan f1 start first last l = scan f2 start first last l.
Proof.
  induction l as [l IH] using two_step_ind. intros [|f1] [|f2] start first last H1 H2; [lia..|].
  assert (Hdrop : ∀ n s a b, l ≠ [] → (1 ≤ n)%nat → scan f1 s a b (drop n l) = scan f2 s a b (drop n l)).
  { intros n s a b Hl Hn. assert (length (drop n l) < length l)%nat
      by (rewrite length_drop; destruct l; [done|cbn in *; lia]). apply IH; lia. }
  cbn [scan]. destruct start as [|cl cc], l as [|ch l]; [done| |done|].
  - pose proof (match_rule_pos (ch :: l) ltac:(done)) as Hp. destruct (match_rule (ch :: l)) as [n []]; cbn in Hp;
      by rewrite Hdrop.
  - destruct (_ && _); [|apply (Hdrop 1%nat); [done|lia]].
    destruct l as [|c l]; [by apply (Hdrop 1%nat)|]. by apply (Hdrop 2%nat); [|lia].
Qed.

(** ** Which rule wins *)

Definition rule_lengths (l : bytes) : list nat := (rules l).*1.

#[local] Transparent match_rule.

Lemma match_rule_at l i n a :
  rules l !! i = Some (n, a) → (0 < n)%nat →
  Forall (λ k, (k < n)%nat) (take i (rule_lengths l)) → Forall (λ k, (k ≤ n)%nat) (drop (S i) (rule_lengths l)) →
  match_rule l = (n, a).
Proof.
  unfold match_rule, rule_lengths. generalize (rules l). intros r Hi Hn Hb Ha.
  rewrite <- (take_drop_middle r i (n, a)) by done. apply longest_pick; [done|..].
  - rewrite <- fmap_take in Hb. by apply Forall_fmap in Hb.
  - rewrite <- fmap_drop in Ha. by apply Forall_fmap in Ha.
Qed.

#[local] Opaque match_rule.

(** The rule_lengths of all rules, to be evaluated. *)
Lemma rule_lengths_eq l : rule_lengths l =
  [literal (str "/*") l; m_line_comment l; m_white_space l; m_new_line l] ++
  map (λ k, literal (str k) l) keywords.*1 ++
  [literal (str ">=") l; literal (str "<=") l; literal (str "!=") l; literal (str "<>") l; m_single_op l;
   m_identifier l; m_int l; m_float l; m_string l; m_open_string l; m_any l].
Proof. reflexivity. Qed.

Ltac eval_rules := rewrite rule_lengths_eq; vm_compute; repeat (apply Forall_cons; split; [lia|]); apply Forall_nil; exact I.

Lemma match_semicolon l :
  ∃ t, match_rule (ch_semicolon :: l) = (1%nat, Return_ t) ∧ ∀ line column, t [ch_semicolon] line column = SEMI.
Proof.
  eexists. split; [apply (match_rule_at _ 39); [reflexivity|lia|eval_rules|eval_rules]|]. done.
Qed.

Lemma match_newline l : match_rule (ch_newline :: l) = (1%nat, Skip).
Proof. apply (match_rule_at _ 3); [reflexivity|lia|eval_rules|eval_rules]. Qed.

Lemma match_block_comment l : match_rule (ch_slash :: ch_star :: l) = (2%nat, Comment).
Proof. apply (match_rule_at _ 0); [reflexivity|lia|eval_rules|eval_rules]. Qed.

(** All other rules match at most the first character of a line comment. *)
Lemma match_line_comment l :
  match_rule (ch_minus :: ch_minus :: l) = ((2 + run_length (λ ch, negb (ch == ch_newline)) l)%nat, Skip).
Proof.
  apply (match_rule_at _ 1); [reflexivity|lia|..]; generalize (run_length (λ ch, negb (ch == ch_newline)) l); intros n.
  - rewrite rule_lengths_eq. apply Forall_cons. split; [vm_compute; lia|constructor].
  - apply (Forall_impl (λ k, (k ≤ 1)%nat)); [eval_rules|]. intros; cbn in *; lia.
Qed.

(** ** Characters that mean nothing to the splitter *)

Definition plain (ch : byte) : bool :=
  negb ((ch == ch_quote) || (ch == ch_semicolon) || (ch == ch_minus) || (ch == ch_slash)).

Lemma plain_upper ch : plain (upper ch) = true → plain ch = true.
Proof. by destruct ch. Qed.
Lemma plain_identifier ch : is_identifier_char ch = true → plain ch = true.
Proof. by destruct ch. Qed.
Lemma plain_digit ch : is_digit ch = true → plain ch = true.
Proof. by destruct ch. Qed.
Lemma plain_blank ch : (ch == Byte.x20) || (ch == Byte.x09) = true → plain ch = true.
Proof. by destruct ch. Qed.

Definition all_plain (l : bytes) : Prop := Forall (λ ch, plain ch = true) l.

Lemma run_length_plain p l : (∀ ch, p ch = true → plain ch = true) → all_plain (take (run_length p l) l).
Proof.
  intros Hp. induction l as [|ch l IH]; cbn; [constructor|]. destruct (p ch) eqn:E; cbn; [|constructor].
  constructor; [by apply Hp|done].
Qed.

Lemma all_plain_drop n l : all_plain l → all_plain (drop n l).
Proof. apply Forall_drop. Qed.

Lemma is_prefix_take p l : is_prefix p (map upper l) = true → map upper (take (length p) l) = p.
Proof.
  revert l. induction p as [|x p IH]; intros [|y l]; cbn; [done..|]. intros H. split_bools.
  f_equal; [done|by apply IH].
Qed.

Lemma literal_plain p l : all_plain (drop 1 p) → all_plain (drop 1 (take (literal p l) l)).
Proof.
  intros Hp. unfold literal. destruct (is_prefix p (map upper l)) eqn:E; [|constructor].
  apply is_prefix_take in E.
  replace (drop 1 p) with (upper <$> drop 1 (take (length p) l)) in Hp by (rewrite fmap_drop; by f_equal).
  unfold all_plain in Hp. rewrite Forall_fmap in Hp.
  apply (Forall_impl _ _ _ Hp). intros ch. apply plain_upper.
Qed.

Lemma m_int_plain l : all_plain (drop 1 (take (m_int l) l)).
Proof.
  unfold m_int. set (s := m_sign l). assert (Hs : (s ≤ 1)%nat) by (unfold s, m_sign; repeat case_match; lia).
  destruct (run_length is_digit (drop s l)) as [|n] eqn:E; [constructor|].
  pose proof (run_length_plain is_digit (drop s l) plain_digit) as Hd. rewrite E in Hd.
  rewrite take_drop_commute in Hd. destruct s as [|[]]; [|done|lia]. by apply all_plain_drop.
Qed.

Lemma m_float_plain l : all_plain (drop 1 (take (m_float l) l)).
Proof.
  unfold m_float. pose proof (m_int_plain l) as Hi. destruct (m_int l) as [|n] eqn:En; [constructor|].
  destruct (drop (S n) l) as [|ch l'] eqn:Ed; [constructor|]. case_bool_decide as Hdot; [|constructor].
  subst ch. set (k := run_length is_digit l').
  assert (Hl : l = take (S n) l ++ ch_dot :: l') by (by rewrite <- Ed, take_drop).
  assert (Hlen : length (take (S n) l) = S n).
  { rewrite length_take. pose proof (f_equal length Ed) as Hx. rewrite length_drop in Hx. cbn in Hx. lia. }
  replace (take (S n + 1 + k) l) with (take (S n) l ++ ch_dot :: take k l').
  - rewrite drop_app_le by lia. apply Forall_app. split; [done|]. constructor; [done|]. by apply run_length_plain, plain_digit.
  - rewrite Hl at 2. rewrite take_app_ge by lia. rewrite Hlen. by replace (S n + 1 + k - S n)%nat with (S k) by lia.
Qed.

Lemma single_plain (l : bytes) n : (n ≤ 1)%nat → all_plain (drop 1 (take n l)).
Proof. intros H. rewrite drop_ge; [constructor|]. rewrite length_take. lia. Qed.

(** The keywords and what they stand for. *)
Lemma keywords_plain : Forall (λ '(k, t), all_plain (drop 1 (str k)) ∧ t ≠ SEMI) keywords.
Proof. repeat constructor; done. Qed.

(** A match that is neither a string nor a comment has only plain characters behind
    its first one, and is a semicolon only if it starts with one. *)
Definition harmless (l : bytes) (x : nat * Action) : Prop :=
  (1 ≤ x.1)%nat → all_plain (drop 1 (take x.1 l)) ∧ x.2 ≠ Comment ∧
  (∀ t line column, x.2 = Return_ t → head l ≠ Some ch_semicolon → t (take x.1 l) line column ≠ SEMI).

Lemma harmless_fixed l n t : t ≠ SEMI → all_plain (drop 1 (take n l)) → harmless l (n, fixed t).
Proof. intros Ht Hp _. split_and!; [done|done|]. by intros ? ? ? [= <-]. Qed.

Lemma harmless_skip l n : all_plain (drop 1 (take n l)) → harmless l (n, Skip).
Proof. intros Hp _. by split_and!. Qed.

Lemma harmless_return l n t : all_plain (drop 1 (take n l)) → (∀ x line column, t x line column ≠ SEMI) →
  harmless l (n, Return_ t).
Proof. intros Hp Ht _. split_and!; [done|done|]. by intros ? ? ? [= <-]. Qed.

Lemma rules_harmless l :
  head l ≠ Some ch_quote → is_prefix (str "--") l = false → literal (str "/*") l = O → Forall (harmless l) (rules l).
Proof.
  intros Hq Hc Hb. unfold rules. rewrite Forall_app. split.
  { repeat apply Forall_cons_2; [|..|constructor].
    - rewrite Hb. intros H. cbn in H. lia.
    - unfold m_line_comment. rewrite Hc. intros H. cbn in H. lia.
    - apply harmless_skip. apply all_plain_drop, run_length_plain, plain_blank.
    - apply harmless_skip. unfold m_new_line. destruct (is_prefix [Byte.x0d; Byte.x0a] l) eqn:E;
        [|apply single_plain; repeat case_match; lia].
      destruct l as [|a [|b l]]; try constructor; [|constructor]. cbn in E. split_bools. subst. done. }
  rewrite Forall_app. split.
  { apply Forall_map. apply (Forall_impl _ _ _ keywords_plain). intros [k t] [Hk Ht].
    apply harmless_fixed; [done|by apply literal_plain]. }
  repeat apply Forall_cons_2; [apply harmless_fixed; [done|apply literal_plain; by repeat constructor]..| | | | | | | |constructor].
  - intros _. split_and!; [|done|].
    + cbn [fst]. apply single_plain. unfold m_single_op. repeat case_match; lia.
    + intros t line column [= <-]. cbn [fst]. destruct l as [|ch l]; [done|]. intros Hh. cbn [m_single_op]. destruct (is_op ch); cbn; [|discriminate]. intros [= ->]. by apply Hh.
  - apply harmless_return; [|done]. unfold m_identifier. destruct l as [|ch l]; [constructor|].
    destruct (is_alpha ch); [|constructor]. cbn. apply run_length_plain, plain_identifier.
  - apply harmless_return; [apply m_int_plain|]. intros x line column. by destruct (ParseIntegerLiteral x).
  - apply harmless_return; [apply m_float_plain|]. intros x line column. by destruct (ParseFloatLiteral x).
  - intros H. cbn [fst] in H. exfalso. unfold m_string in H. destruct l as [|ch l]; [cbn in H; lia|].
    rewrite bool_decide_eq_false_2 in H; [lia|]. intros ->. done.
  - intros H. cbn [fst] in H. exfalso. unfold m_open_string in H. destruct l as [|ch l]; [cbn in H; lia|].
    rewrite bool_decide_eq_false_2 in H; [lia|]. intros ->. done.
  - apply harmless_return; [|done]. apply single_plain. unfold m_any. repeat case_match; lia.
Qed.

(** ** The splitter over a lexeme *)

(** Reading [x] with [y] behind it takes the splitter from mode [m] to [m'] without
    an end of statement. *)
Definition runs (m : mode) (x y : bytes) (m' : mode) : Prop :=
  ∀ t s, ∃ s', segments (mkPart t m s) (x ++ y) = segments (mkPart (t ++ x) m' s') y.

Lemma runs_nil m y : runs m [] y m.
Proof. intros t s. exists s. by rewrite app_nil_r. Qed.

Lemma runs_app m x1 x2 y m1 m2 : runs m x1 (x2 ++ y) m1 → runs m1 x2 y m2 → runs m (x1 ++ x2) y m2.
Proof.
  intros H1 H2 t s. destruct (H1 t s) as [s1 E1]. destruct (H2 (t ++ x1) s1) as [s2 E2]. exists s2.
  by rewrite <- app_assoc, E1, E2, app_assoc.
Qed.

Lemma runs_one m ch y m' c : lex m ch (peek y) = (m', false, c) → c ≠ Sep → runs m [ch] y m'.
Proof. intros E Hc t s. eexists. cbn [app]. by rewrite (segments_one _ _ _ m' c). Qed.

Lemma runs_two m ch ch2 y m' : lex m ch ch2 = (m', true, Blank) → runs m [ch; ch2] y m'.
Proof. intros E t s. eexists. cbn [app]. by rewrite (segments_two _ _ _ _ m'). Qed.

Lemma lex_plain ch next : plain ch = true → ∃ c, lex Ground ch next = (Ground, false, c) ∧ c ≠ Sep.
Proof.
  unfold plain. rewrite negb_true_iff. intros H. split_bools. unfold lex.
  rewrite (bool_decide_eq_false_2 (ch = ch_minus)), (bool_decide_eq_false_2 (ch = ch_slash)),
    (bool_decide_eq_false_2 (ch = ch_quote)), (bool_decide_eq_false_2 (ch = ch_semicolon)) by done.
  destruct (isspace ch); by eexists.
Qed.

Lemma runs_plain x y : all_plain x → runs Ground x y Ground.
Proof.
  induction 1 as [|ch x Hch Hx IH]; [apply runs_nil|]. apply (runs_app Ground [ch] x y Ground); [|done].
  destruct (lex_plain ch (peek (x ++ y)) Hch) as (c & E & Hc). by eapply runs_one.
Qed.

Lemma runs_lexeme ch l n :
  ch ≠ ch_quote → ch ≠ ch_semicolon → is_prefix (str "--") (ch :: l) = false → literal (str "/*") (ch :: l) = O →
  (1 ≤ n)%nat → all_plain (drop 1 (take n (ch :: l))) → runs Ground (take n (ch :: l)) (drop n (ch :: l)) Ground.
Proof.
  intros Hq Hs Hm Hb Hn Hp. destruct n as [|n]; [lia|]. cbn in Hp |- *.
  apply (runs_app Ground [ch] (take n l) (drop n l) Ground); [|by apply runs_plain].
  rewrite take_drop. set (c := if isspace ch then Blank else Sql). apply (runs_one _ _ _ _ c); [|unfold c; by destruct (isspace ch)].
  unfold lex. rewrite (bool_decide_eq_false_2 (ch = ch_quote)), (bool_decide_eq_false_2 (ch = ch_semicolon)) by done.
  destruct ((ch == ch_minus) && _) eqn:E1.
  { split_bools. subst ch. destruct l as [|ch2 l]; cbn in *; [done|]. by subst. }
  destruct ((ch == ch_slash) && _) eqn:E2.
  { split_bools. subst ch. destruct l as [|ch2 l]; cbn in *; [done|]. by subst. }
  unfold c. by destruct (isspace ch).
Qed.

(** ** Strings *)

Lemma quoted_spec l :
  match quoted l with
  | (n, true) => ∃ rest, drop n l = ch_quote :: rest ∧ runs InString (take n l ++ [ch_quote]) rest Ground
  | (n, false) => n = length l ∧ runs InString l [] InString
  end.
Proof.
  induction l as [l IH] using two_step_ind. destruct l as [|ch l]; [split; [done|apply runs_nil]|]. cbn [quoted].
  case_bool_decide as Hq; [subst ch|].
  - destruct l as [|next l]; [eexists; split; [done|]; by eapply runs_one|].
    case_bool_decide as Hn; [subst next|].
    + specialize (IH l ltac:(cbn; lia)). destruct (quoted l) as [n []].
      * destruct IH as (rest & Hd & Hr). exists rest. split; [done|]. cbn [take app].
        apply (runs_app InString [ch_quote; ch_quote] _ _ InString); [by apply runs_two|done].
      * destruct IH as [-> Hr]. split; [done|].
        apply (runs_app InString [ch_quote; ch_quote] l [] InString); [by apply runs_two|done].
    + eexists. split; [done|]. cbn [take app]. apply (runs_one _ _ _ _ Blank); [|done]. unfold lex. cbn [peek].
      rewrite bool_decide_eq_true_2 by done. by rewrite bool_decide_eq_false_2.
  - assert (Hone : ∀ y, runs InString [ch] y InString).
    { intros y. apply (runs_one _ _ _ _ Blank); [|done]. unfold lex. by rewrite bool_decide_eq_false_2. }
    specialize (IH l ltac:(cbn; lia)). destruct (quoted l) as [n []].
    + destruct IH as (rest & Hd & Hr). exists rest. split; [done|]. by apply (runs_app InString [ch] (take n l ++ [ch_quote]) rest InString).
    + destruct IH as [-> Hr]. split; [done|]. by apply (runs_app InString [ch] l [] InString).
Qed.

Lemma runs_open_quote x y m : runs InString x y m → runs Ground (ch_quote :: x) y m.
Proof. intros H. apply (runs_app Ground [ch_quote] x y InString); [|done]. by eapply runs_one. Qed.

(** No rule but those for strings matches more than a quote. *)
Lemma rule_lengths_quote l :
  Forall (λ k, k = O) (take 43 (rule_lengths (ch_quote :: l))) ∧
  drop 43 (rule_lengths (ch_quote :: l)) =
    [let '(n, closed) := quoted l in if closed then (n + 2)%nat else O; S (quoted l).1; 1%nat].
Proof. split; [rewrite rule_lengths_eq; vm_compute; repeat constructor|reflexivity]. Qed.

Definition string_action : Action :=
  Return_ (λ text _ _, VALUE_STRING (text_string (DecodeStringLiteral text))).

Lemma match_closed_string l n : quoted l = (n, true) → match_rule (ch_quote :: l) = ((n + 2)%nat, string_action).
Proof.
  intros Eq. destruct (rule_lengths_quote l) as [Hz Hd]. rewrite Eq in Hd. apply (match_rule_at _ 43).
  - change (rules (ch_quote :: l) !! 43%nat) with
      (Some (let '(n, closed) := quoted l in if closed then (n + 2)%nat else O, string_action)). by rewrite Eq.
  - lia.
  - apply (Forall_impl _ _ _ Hz). intros; cbn in *; lia.
  - change (S 43) with (43 + 1)%nat. rewrite <- drop_drop, Hd. cbn. repeat constructor; lia.
Qed.

Lemma match_string l : ∃ t, (∀ x line column, t x line column ≠ SEMI) ∧
  match_rule (ch_quote :: l) = (let '(n, closed) := quoted l in if closed then (n + 2)%nat else S n, Return_ t).
Proof.
  destruct (rule_lengths_quote l) as [Hz Hd]. destruct (quoted l) as [n []] eqn:Eq.
  - eexists. split; [|by apply match_closed_string]. done.
  - eexists. split; [|apply (match_rule_at _ 44)].
    + instantiate (1 := λ _ line column, invalid line column "unterminated string literal"). done.
    + change (rules (ch_quote :: l) !! 44%nat) with
        (Some (S (quoted l).1, Return_ (λ (_ : bytes) line column, invalid line column "unterminated string literal"))). by rewrite Eq.
    + lia.
    + change (take 44) with (@take nat (43 + 1)). rewrite <- take_take_drop, Hd. apply Forall_app. split.
      * apply (Forall_impl _ _ _ Hz). intros; cbn in *; lia.
      * apply Forall_singleton. lia.
    + change (S 44) with (43 + 2)%nat. rewrite <- drop_drop, Hd. apply Forall_singleton. lia.
Qed.

(** ** The client and the server agree on where statements end *)

(** The scanner's start condition and the splitter's mode at the same place. *)
Inductive agree : Start → mode → bytes → Prop :=
| agree_ground l : agree INITIAL Ground l
| agree_line l : l = [] ∨ head l = Some ch_newline → agree INITIAL InLine l
| agree_string : agree INITIAL InString []
| agree_block line column l : agree (STATE_COMMENT line column) InBlock l.

(** As many semicolons as segments, and the last token is one where nothing follows
    the last segment. *)
Definition matched (tokens : list LToken) (l : bytes) (r : list (bytes * bool) * Part) : Prop :=
  length (filter (λ t, token t = SEMI) tokens) = length r.1 ∧
  (l ≠ [] → part_text r.2 = [] → ∃ before t, tokens = before ++ [t] ∧ token t = SEMI).

Lemma matched_step m x y m' t s tokens l :
  runs m x y m' → x ≠ [] → l = x ++ y →
  (∀ t s, matched tokens y (segments (mkPart t m' s) y)) →
  matched tokens l (segments (mkPart t m s) l).
Proof.
  intros Hr Hx -> Hm. destruct (Hr t s) as [s' ->]. destruct (Hm (t ++ x) s') as [H1 H2]. split; [done|].
  intros _ Ht. destruct y as [|ch y]; [|by apply H2]. cbn in Ht. by apply app_nil in Ht as [_ ?].
Qed.

Lemma matched_token tokens l r t : token t ≠ SEMI → matched tokens l r → matched (t :: tokens) l r.
Proof.
  intros Ht [H1 H2]. split.
  - by rewrite filter_cons_False.
  - intros Hl Hr. destruct (H2 Hl Hr) as (before & t' & -> & ?). by exists (t :: before), t'.
Qed.

(** The scan of a line comment stops in front of its line break. *)
Lemma runs_line_comment l :
  let n := run_length (λ ch, negb (ch == ch_newline)) l in
  runs InLine (take n l) (drop n l) InLine ∧ (drop n l = [] ∨ head (drop n l) = Some ch_newline).
Proof.
  induction l as [|ch l IH]; cbn; [split; [apply runs_nil|by left]|]. destruct (decide (ch = ch_newline)) as [->|Hne].
  - rewrite bool_decide_eq_true_2 by done. cbn. split; [apply runs_nil|by right].
  - rewrite bool_decide_eq_false_2 by done. cbn. destruct IH as [IH1 IH2]. split; [|done].
    apply (runs_app InLine [ch] _ _ InLine); [|done]. apply (runs_one _ _ _ _ Blank); [|done].
    unfold lex. by rewrite bool_decide_eq_false_2.
Qed.

(** One lexeme other than a semicolon. *)
Lemma initial_step fuel first last l n a m m' t s :
  l ≠ [] → match_rule l = (n, a) → (1 ≤ n)%nat → runs m (take n l) (drop n l) m' →
  (∀ f line column, a = Return_ f → f (take n l) line column ≠ SEMI) →
  (∀ first last' t s, matched
    (scan fuel (match a with Comment => STATE_COMMENT last.1 last.2 | _ => INITIAL end) first last' (drop n l)).1
    (drop n l) (segments (mkPart t m' s) (drop n l))) →
  matched (scan (S fuel) INITIAL first last l).1 l (segments (mkPart t m s) l).
Proof.
  intros Hl Hm Hn Hr Ht IH.
  assert (Hx : take n l ≠ []) by (destruct l, n; [done|done|lia|done]).
  assert (Hstep : ∀ tokens, (∀ t s, matched tokens (drop n l) (segments (mkPart t m' s) (drop n l))) →
    matched tokens l (segments (mkPart t m s) l)).
  { intros tokens Htok. by eapply matched_step; [exact Hr|done|by rewrite take_drop|]. }
  cbn [scan]. destruct l as [|ch l]; [destruct (Hl eq_refl)|]. rewrite Hm. destruct a as [| |f]; [apply Hstep; intros; apply IH..|].
  specialize (IH last (move_location last.1 last.2 (take n (ch :: l)))).
  destruct (scan fuel INITIAL last _ _) as [tokens e]. cbn [fst] in *.
  apply matched_token; [by apply Ht|]. by apply Hstep.
Qed.

Lemma semicolon_step fuel first last l t s :
  (∀ first last, matched (scan fuel INITIAL first last l).1 l (segments fresh_part l)) →
  matched (scan (S fuel) INITIAL first last (ch_semicolon :: l)).1 (ch_semicolon :: l)
    (segments (mkPart t Ground s) (ch_semicolon :: l)).
Proof.
  intros IH. destruct (match_semicolon l) as (f & Hm & Hf). cbn [scan]. rewrite Hm, segments_sep by done.
  change (take 1 (ch_semicolon :: l)) with [ch_semicolon]. change (drop 1 (ch_semicolon :: l)) with l.
  specialize (IH last (move_location last.1 last.2 [ch_semicolon])).
  assert (Hnil : l = [] → (scan fuel INITIAL last (move_location last.1 last.2 [ch_semicolon]) l).1 = []).
  { intros ->. by destruct fuel. }
  destruct (scan fuel INITIAL last _ l) as [tokens e]. cbn [fst snd] in *. destruct IH as [IH1 IH2]. rewrite Hf.
  set (t' := mkLToken SEMI last.1 last.2). clear Hm Hf. split.
  - rewrite filter_cons_True by done. cbn. by rewrite IH1.
  - intros _ Hq. destruct l as [|ch l]; [rewrite (Hnil eq_refl); by exists [], t'|].
    destruct (IH2 ltac:(discriminate) Hq) as (before & t2 & -> & ?). by exists (t' :: before), t2.
Qed.

(** The lexemes that start with something else than a quote or a comment. *)
Lemma plain_lexeme ch l n a :
  ch ≠ ch_quote → ch ≠ ch_semicolon → is_prefix (str "--") (ch :: l) = false → literal (str "/*") (ch :: l) = O →
  match_rule (ch :: l) = (n, a) →
  (1 ≤ n)%nat ∧ a ≠ Comment ∧ runs Ground (take n (ch :: l)) (drop n (ch :: l)) Ground ∧
  (∀ f line column, a = Return_ f → f (take n (ch :: l)) line column ≠ SEMI).
Proof.
  intros Hq Hs Hm Hb Hr.
  pose proof (match_rule_in (ch :: l) ltac:(discriminate)) as Hin.
  pose proof (match_rule_pos (ch :: l) ltac:(discriminate)) as Hn. rewrite Hr in Hin, Hn. cbn [fst] in Hn.
  pose proof (rules_harmless (ch :: l) ltac:(cbn; congruence) Hm Hb) as Hh. rewrite Forall_forall in Hh.
  destruct (Hh _ Hin Hn) as (Hp & Hc & Ht). cbn [fst snd] in *. split_and!; [exact Hn|exact Hc|by apply runs_lexeme|].
  intros f line column Hf. apply Ht; [exact Hf|]. cbn. congruence.
Qed.

Lemma literal_comment ch l : literal (str "/*") (ch :: l) = O ∨ ∃ l', ch = ch_slash ∧ l = ch_star :: l'.
Proof.
  unfold literal, ch_slash, ch_star. destruct l as [|ch2 l]; cbn; [left; by rewrite andb_false_r|].
  destruct (decide (upper ch = Byte.x2f)) as [E1|E1]; [|left; by rewrite bool_decide_eq_false_2 by congruence].
  destruct (decide (upper ch2 = Byte.x2a)) as [E2|E2]; [|left; rewrite (bool_decide_eq_false_2 (_ = upper ch2)) by congruence; by rewrite andb_false_r].
  right. exists l. split; [by destruct ch|]. f_equal. by destruct ch2.
Qed.

Lemma line_comment_prefix ch l : is_prefix (str "--") (ch :: l) = false ∨ ∃ l', ch = ch_minus ∧ l = ch_minus :: l'.
Proof.
  destruct (is_prefix (str "--") (ch :: l)) eqn:E; [right|by left]. destruct l as [|ch2 l]; cbn in E; split_bools; [done|].
  by exists l; subst.
Qed.

(** The scanner agrees with the splitter behind any lexeme of [l]. *)
Definition rest_agrees (fuel : nat) (l : bytes) : Prop := ∀ n st f' l' m' t s, l ≠ [] → (1 ≤ n)%nat → agree st m' (drop n l) →
  matched (scan fuel st f' l' (drop n l)).1 (drop n l) (segments (mkPart t m' s) (drop n l)).

(** A string literal, closed or not. *)
Lemma quote_step fuel first last l t s : rest_agrees fuel (ch_quote :: l) →
  matched (scan (S fuel) INITIAL first last (ch_quote :: l)).1 (ch_quote :: l) (segments (mkPart t Ground s) (ch_quote :: l)).
Proof.
  intros Hdrop.
  destruct (match_string l) as (f & Hf' & Hm). pose proof (quoted_spec l) as Hs. destruct (quoted l) as [n []].
  - destruct Hs as (rest & Hd & Hr). replace (n + 2)%nat with (S (n + 1)) in Hm by lia.
    eapply initial_step; [discriminate|exact Hm|lia| |intros ? ? ? [= <-]; apply Hf'|].
    + cbn [take drop]. apply runs_open_quote. rewrite <- take_take_drop, <- drop_drop, Hd. exact Hr.
    + intros. apply Hdrop; [discriminate|lia|constructor].
  - destruct Hs as [-> Hr].
    eapply initial_step; [discriminate|exact Hm|lia| |intros ? ? ? [= <-]; apply Hf'|].
    + cbn [take drop]. apply runs_open_quote. rewrite firstn_all, drop_all. exact Hr.
    + intros. apply Hdrop; [discriminate|lia|]. cbn [drop]. rewrite drop_all. constructor.
Qed.

Lemma scan_agrees l : ∀ fuel start first last m t s, (length l < fuel)%nat → agree start m l →
  matched (scan fuel start first last l).1 l (segments (mkPart t m s) l).
Proof.
  induction l as [l IH] using two_step_ind. intros [|fuel] start first last m t s Hf Ha; [lia|].
  assert (Hdrop : rest_agrees fuel l).
  { intros n st f' l' m' t' s' Hl Hn Hag. assert (length (drop n l) < length l)%nat.
    { rewrite length_drop. destruct l; [destruct (Hl eq_refl)|cbn in *; lia]. }
    apply IH; [done|lia|done]. }
  destruct Ha as [l|l Hl| |line column l].
  - destruct l as [|ch l]; [by split|].
    destruct (decide (ch = ch_semicolon)) as [->|Hsemi].
    { apply semicolon_step. intros. apply (Hdrop 1%nat INITIAL first0 last0 Ground); [discriminate|lia|constructor]. }
    destruct (decide (ch = ch_quote)) as [->|Hquote].
    { by apply quote_step. }
    destruct (line_comment_prefix ch l) as [Hline|(l' & -> & ->)].
    2:{ destruct (runs_line_comment l') as [Hr Hend].
      eapply initial_step; [discriminate|apply match_line_comment|lia| |discriminate|].
      - cbn [take drop Nat.add]. apply (runs_app Ground [ch_minus; ch_minus] _ _ InLine); [by apply runs_two|exact Hr].
      - intros. apply Hdrop; [discriminate|lia|]. constructor. exact Hend. }
    destruct (literal_comment ch l) as [Hblock|(l' & -> & ->)].
    2:{ eapply initial_step; [discriminate|apply match_block_comment|lia| |discriminate|].
      - by apply (runs_two Ground ch_slash ch_star _ InBlock).
      - intros. apply Hdrop; [discriminate|lia|constructor]. }
    destruct (match_rule (ch :: l)) as [n a] eqn:Hm.
    destruct (plain_lexeme _ _ _ _ Hquote Hsemi Hline Hblock Hm) as (Hn & Hc & Hr & Ht).
    eapply initial_step; [discriminate|exact Hm|exact Hn|exact Hr|exact Ht|].
    intros. apply Hdrop; [discriminate|exact Hn|]. destruct a; [constructor|destruct (Hc eq_refl)|constructor].
  - destruct l as [|ch l]; [by split|]. destruct Hl as [?|[= ->]]; [discriminate|].
    eapply (initial_step _ _ _ _ 1 Skip _ Ground); [discriminate|apply match_newline|lia| |discriminate|].
    + by apply (runs_one _ _ _ _ Blank).
    + intros. apply Hdrop; [discriminate|lia|constructor].
  - by split.
  - destruct l as [|ch l]; [by split|]. cbn [scan].
    destruct ((ch == ch_star) && (peek_char l == ch_slash)) eqn:E.
    + split_bools. subst ch. destruct l as [|ch2 l]; cbn [peek_char] in *; [done|]. subst ch2. cbn [drop].
      eapply (matched_step _ [ch_star; ch_slash] l Ground); [by apply runs_two|discriminate|done|].
      intros. apply (Hdrop 2%nat); [discriminate|lia|constructor].
    + eapply (matched_step _ [ch] l InBlock); [|discriminate|done|].
      * apply (runs_one _ _ _ _ Blank); [|done]. unfold lex.
        change (peek l) with (peek_char l). by rewrite E.
      * intros. apply (Hdrop 1%nat); [discriminate|lia|constructor].
Qed.

(** C11. The client and the server agree on where a statement ends.  A statement the
    client cuts out of its input scans, on the server, to tokens of which the last is
    a semicolon and no other is: the text of one statement is never taken for two, and
    no part of it is left over.  The text that the client keeps back contains no
    semicolon token. *)
Theorem splitter_agrees_with_scanner input :
  (∀ stmt, stmt ∈ (TakeCompleteStatements input).1 →
    ∃ before, map token (tokenize stmt).1 = before ++ [SEMI] ∧ SEMI ∉ before) ∧
  SEMI ∉ map token (tokenize (TakeCompleteStatements input).2).1.
Proof.
  assert (Hscan : ∀ l, matched (tokenize l).1 l (segments fresh_part l)).
  { intros l. apply scan_agrees; [lia|constructor]. }
  assert (Hnone : ∀ tokens : list LToken, filter (λ t, token t = SEMI) tokens = [] → SEMI ∉ map token tokens).
  { intros tokens Hf (t & Ht & Hin)%list_elem_of_fmap.
    assert (t ∈ filter (λ t, token t = SEMI) tokens) as Hx by (by apply list_elem_of_filter). rewrite Hf in Hx. set_solver. }
  destruct (segments fresh_part input) as [segs q] eqn:E. destruct (segments_each _ _ _ E) as [Hs Hq].
  rewrite take_segments, E. cbn [fst snd]. split.
  - intros stmt Hin. unfold kept in Hin. apply list_elem_of_fmap in Hin as ([stmt' b] & -> & Hin).
    apply list_elem_of_filter in Hin as [_ Hin]. rewrite Forall_forall in Hs. specialize (Hs _ Hin). cbn [fst] in *.
    destruct (Hscan stmt') as [H1 H2]. rewrite Hs in H1, H2. cbn [fst snd length] in H1.
    destruct H2 as (before & t & Ht & Hsemi); [intros ->; discriminate Hs|done|].
    rewrite Ht in *. exists (map token before). rewrite map_app. cbn. rewrite Hsemi. split; [done|].
    apply Hnone. rewrite filter_app, length_app in H1. rewrite filter_cons_True in H1 by done. cbn in H1.
    apply nil_length_inv. lia.
  - apply Hnone, nil_length_inv. unfold leftover. destruct (_ && _); [done|].
    destruct (Hscan (part_text q)) as [H1 _]. by rewrite Hq in H1.
Qed.

(** ** Literals *)

Definition all_digits (l : bytes) : Prop := Forall (λ ch, is_digit ch = true) l.

Lemma digits_value_snoc ds ch : digits_value (ds ++ [ch]) = digits_value ds * 10 + digit ch.
Proof. unfold digits_value. by rewrite fold_left_app. Qed.

Lemma pretty_char_digit (x : N) : (x < 10)%N →
  is_digit (Ascii.byte_of_ascii (pretty_N_char x)) = true ∧ digit (Ascii.byte_of_ascii (pretty_N_char x)) = Z.of_N x.
Proof.
  intros Hx. assert (x = 0 ∨ x = 1 ∨ x = 2 ∨ x = 3 ∨ x = 4 ∨ x = 5 ∨ x = 6 ∨ x = 7 ∨ x = 8 ∨ x = 9)%N as H by lia.
  by repeat (destruct H as [->|H]; [done|]); subst.
Qed.

Lemma str_cons c s : str (String c s) = Ascii.byte_of_ascii c :: str s.
Proof. done. Qed.

Lemma pretty_N_go_digits x : ∀ s, ∃ ds, str (pretty_N_go x s) = ds ++ str s ∧ all_digits ds ∧
  digits_value ds = Z.of_N x ∧ ((0 < x)%N → ds ≠ []).
Proof.
  induction (N.lt_wf_0 x) as [x _ IH]. intros s. destruct (decide (x = 0)%N) as [->|Hx].
  { exists []. rewrite pretty_N_go_0. split_and!; [done|constructor|done|lia]. }
  rewrite pretty_N_go_step by lia.
  destruct (IH (x / 10)%N ltac:(apply N.div_lt; lia) (String (pretty_N_char (x `mod` 10)) s)) as (ds & -> & Hd & Hv & _).
  destruct (pretty_char_digit (x `mod` 10)) as [Hc Hcv]; [apply N.mod_lt; lia|].
  exists (ds ++ [Ascii.byte_of_ascii (pretty_N_char (x `mod` 10))]). split_and!.
  - by rewrite str_cons, <- app_assoc.
  - apply Forall_app. split; [done|]. by repeat constructor.
  - rewrite digits_value_snoc, Hv, Hcv, <- (N2Z.inj_mul _ 10), <- N2Z.inj_add. f_equal.
    pose proof (N.div_mod x 10 ltac:(lia)). lia.
  - intros _ H. by apply app_nil in H as [_ ?].
Qed.

(** A decimal number: digits, with a minus sign in front of a negative one. *)
Lemma to_string_digits z : ∃ d ds, all_digits (d :: ds) ∧ digits_value (d :: ds) = Z.abs z ∧
  to_string z = if z <? 0 then ch_minus :: d :: ds else d :: ds.
Proof.
  assert (Hpos : ∀ p, ∃ d ds, all_digits (d :: ds) ∧ digits_value (d :: ds) = Zpos p ∧ str (pretty_N_go (Npos p) "") = d :: ds).
  { intros p. destruct (pretty_N_go_digits (Npos p) "") as ([|d ds] & -> & Hd & Hv & Hne); [by destruct Hne|].
    exists d, ds. by rewrite app_nil_r. }
  unfold to_string. destruct z as [|p|p].
  - exists Byte.x30, []. split_and!; [by repeat constructor|done|done].
  - destruct (Hpos p) as (d & ds & Hd & Hv & Hs). exists d, ds. split_and!; [done|done|]. exact Hs.
  - destruct (Hpos p) as (d & ds & Hd & Hv & Hs). exists d, ds. split_and!; [done|done|].
    change (str (pretty (Zneg p))) with (ch_minus :: str (pretty_N_go (Npos p) "")). by rewrite Hs.
Qed.

Lemma run_length_all p l : Forall (λ ch, p ch = true) l → run_length p l = length l.
Proof. induction 1 as [|ch l Hc Hl IH]; cbn; [done|]. by rewrite Hc, IH. Qed.

Lemma from_chars_digits d ds : all_digits (d :: ds) → d ≠ ch_minus → ∀ (negative : bool),
  from_chars (if negative then ch_minus :: d :: ds else d :: ds) =
  let v := if negative then - digits_value (d :: ds) else digits_value (d :: ds) in
  if (- 2 ^ 31 <=? v) && (v <=? INT_MAX) then Some (v, []) else None.
Proof.
  intros Hd Hm negative. unfold from_chars.
  assert (E : (match (if negative then ch_minus :: d :: ds else d :: ds) with
    | ch :: l' => if ch == ch_minus then (true, l') else (false, if negative then ch_minus :: d :: ds else d :: ds)
    | [] => (false, if negative then ch_minus :: d :: ds else d :: ds) end) = (negative, d :: ds)).
  { destruct negative; [done|]. by rewrite bool_decide_eq_false_2. }
  rewrite E, (run_length_all is_digit (d :: ds)) by done. cbn [length Nat.eqb].
  change (take (S (length ds)) (d :: ds)) with (take (length (d :: ds)) (d :: ds)).
  change (drop (S (length ds)) (d :: ds)) with (drop (length (d :: ds)) (d :: ds)).
  by rewrite firstn_all, drop_all.
Qed.

Lemma ParseIntegerLiteral_to_string z : ParseIntegerLiteral (to_string z) = if decide (is_s32 z) then Some z else None.
Proof.
  destruct (to_string_digits z) as (d & ds & Hd & Hv & ->). unfold ParseIntegerLiteral.
  assert (Hdd : d ≠ ch_minus ∧ d ≠ ch_plus) by (inversion Hd; split; intros ->; done).
  destruct Hdd as [Hm Hp]. pose proof (from_chars_digits d ds Hd Hm (z <? 0)) as Hf.
  assert (Hz : (if z <? 0 then - digits_value (d :: ds) else digits_value (d :: ds)) = z).
  { rewrite Hv. destruct (z <? 0) eqn:E; split_bools; lia. }
  rewrite Hz in Hf. cbv zeta in Hf.
  assert (E : (match (if z <? 0 then ch_minus :: d :: ds else d :: ds) with
    | [] => None
    | ch :: text' => match from_chars (if ch == ch_plus then text' else if z <? 0 then ch_minus :: d :: ds else d :: ds) with
      | Some (v, []) => Some v | _ => None end end) =
    match from_chars (if z <? 0 then ch_minus :: d :: ds else d :: ds) with Some (v, []) => Some v | _ => None end).
  { destruct (z <? 0); [done|]. by rewrite bool_decide_eq_false_2. }
  rewrite E, Hf. unfold INT_MAX in *. case_decide as Hr; destruct (_ && _) eqn:Eb; split_bools; try done; exfalso.
  - apply andb_false_iff in Eb as [Eb|Eb]; split_bools; word_lia.
  - apply Hr. word_lia.
Qed.

(** A number is one lexeme of the integer rule. *)
Definition int_action : Action := Return_ (λ text line column,
  match ParseIntegerLiteral text with
  | Some v => VALUE_INT v
  | None => invalid line column "integer literal is out of range"
  end).

Lemma no_string ch l : ch ≠ ch_quote → m_string (ch :: l) = O ∧ m_open_string (ch :: l) = O.
Proof. intros H. unfold m_string, m_open_string. by rewrite bool_decide_eq_false_2. Qed.

Lemma match_integer d ds (negative : bool) : all_digits (d :: ds) →
  let text := if negative then ch_minus :: d :: ds else d :: ds in match_rule text = (length text, int_action).
Proof.
  intros Hd text. assert (Hlen : m_int text = length text).
  { unfold m_int, text. inversion Hd as [|? ? Hd0 Hds]; subst.
    destruct negative; cbn [m_sign drop]; [|rewrite (bool_decide_eq_false_2 (d = ch_plus)), (bool_decide_eq_false_2 (d = ch_minus)) by (intros ->; done); cbn [drop orb]].
    - change (run_length is_digit (drop 1 _)) with (run_length is_digit (d :: ds)). by rewrite run_length_all.
    - by rewrite run_length_all. }
  apply (match_rule_at _ 41).
  - by rewrite <- Hlen.
  - unfold text. destruct negative; cbn; lia.
  - apply (Forall_impl (λ k, k = O)); [|unfold text; destruct negative; cbn; lia].
    inversion Hd as [|? ? Hd0 Hds]; subst. unfold text. rewrite rule_lengths_eq. clear Hlen text Hds Hd.
    destruct negative, d; try discriminate Hd0; vm_compute; repeat constructor.
  - assert (Hf : m_float text = O).
    { unfold m_float. rewrite Hlen. destruct (length text) as [|n] eqn:En; [done|]. by rewrite <- En, drop_all. }
    change (drop 42 (rule_lengths text)) with [m_float text; m_string text; m_open_string text; m_any text].
    rewrite Hf. assert (Ht : ∃ c tl, text = c :: tl ∧ c ≠ ch_quote).
    { unfold text. destruct negative; [by eexists _, _|]. exists d, ds. split; [done|]. inversion Hd. by intros ->. }
    destruct Ht as (c & tl & -> & Hc). destruct (no_string c tl Hc) as [-> ->].
    repeat apply Forall_cons_2; [cbn; lia..| |constructor]. cbn. destruct (c == ch_newline); lia.
Qed.

(** An input that is a single lexeme. *)
Lemma tokenize_single l t : l ≠ [] → match_rule l = (length l, Return_ t) → map token (tokenize l).1 = [t l 1 1].
Proof.
  intros Hl Hm. unfold tokenize. cbn [scan]. destruct l as [|ch l]; [destruct (Hl eq_refl)|]. rewrite Hm.
  rewrite firstn_all, drop_all. by destruct (length (ch :: l)).
Qed.

(** [quote_sql s]: the string literal for [s]. *)
Definition double_quotes (s : bytes) : bytes :=
  concat (map (λ ch, if ch == ch_quote then [ch_quote; ch_quote] else [ch]) s).
Definition quote_sql (s : bytes) : bytes := ch_quote :: double_quotes s ++ [ch_quote].

Lemma double_quotes_cons ch s :
  double_quotes (ch :: s) = (if ch == ch_quote then [ch_quote; ch_quote] else [ch]) ++ double_quotes s.
Proof. done. Qed.

Lemma quoted_double s : quoted (double_quotes s ++ [ch_quote]) = (length (double_quotes s), true).
Proof.
  induction s as [|ch s IH]; [done|]. rewrite double_quotes_cons. case_bool_decide as Hq; cbn [app quoted].
  - by rewrite !bool_decide_eq_true_2, IH.
  - by rewrite bool_decide_eq_false_2, IH.
Qed.

Lemma decode_double s : decode_quotes (double_quotes s) = s.
Proof.
  induction s as [|ch s IH]; [done|]. rewrite double_quotes_cons. case_bool_decide as Hq; cbn [app].
  - subst. cbn [decode_quotes]. rewrite !bool_decide_eq_true_2 by done. cbn. by rewrite IH.
  - cbn [decode_quotes]. destruct (double_quotes s) as [|next l]; [by rewrite <- IH|].
    rewrite (bool_decide_eq_false_2 (ch = ch_quote)) by done. cbn [andb]. by rewrite IH.
Qed.

Lemma DecodeStringLiteral_quote s : DecodeStringLiteral (quote_sql s) = s.
Proof.
  unfold DecodeStringLiteral, quote_sql. cbn [length drop]. rewrite length_app. cbn [length].
  replace (S (length (double_quotes s) + 1) <? 2)%nat with false by (symmetry; apply Nat.ltb_ge; lia).
  replace (S (length (double_quotes s) + 1) - 2)%nat with (length (double_quotes s)) by lia.
  by rewrite drop_0, take_app_length, decode_double.
Qed.

(** Literals survive printing and scanning.  An [int] printed in decimal scans to
    one token with that value, and a number outside the range of [int] to a diagnosed
    error; any string, put between quotes with its quotes doubled, scans to one token
    with that string. *)
Theorem literal_roundtrip :
  (∀ z, is_s32 z → map token (tokenize (to_string z)).1 = [VALUE_INT z]) ∧
  (∀ z, ¬ is_s32 z →
    map token (tokenize (to_string z)).1 = [INVALID (mkParseError 1 1 (str "integer literal is out of range"))]) ∧
  (∀ s, map token (tokenize (quote_sql s)).1 = [VALUE_STRING (text_string s)]).
Proof.
  assert (Hint : ∀ z, map token (tokenize (to_string z)).1 =
    [if decide (is_s32 z) then VALUE_INT z else invalid 1 1 "integer literal is out of range"]).
  { intros z. destruct (to_string_digits z) as (d & ds & Hd & _ & Hz).
    assert (Hne : to_string z ≠ []) by (rewrite Hz; destruct (z <? 0); discriminate).
    pose proof (match_integer d ds (z <? 0) Hd) as Hm. cbv zeta in Hm. rewrite <- Hz in Hm.
    rewrite (tokenize_single _ _ Hne Hm), ParseIntegerLiteral_to_string. clear. by case_decide. }
  split_and!; intros.
  - by rewrite Hint, decide_True.
  - by rewrite Hint, decide_False.
  - pose proof (match_closed_string _ _ (quoted_double s)) as Hm.
    erewrite tokenize_single; [|discriminate|].
    2:{ fold (quote_sql s) in Hm. rewrite Hm. f_equal. unfold quote_sql. cbn. rewrite length_app. cbn. lia. }
    cbn. by rewrite DecodeStringLiteral_quote.
Qed.
