(* ===== verification/Options.v ===== *)
(** * Command lines

    Models the option parsing of the client ([RunClient] and [PrintUsage] of
    [src/rucbase_client/main.cpp]) and of the server ([parse_options] and [start] of
    [src/src/server/server.cpp]), over a model of [getopt], [getopt_long] and [strtol] as
    the C library documents them: options before and after operands, clustered letters,
    attached and separate arguments, abbreviated long options, and [--].  Diagnostics that
    the C library writes by itself are not part of the outputs below. *)

From S2P Require Import Prelude Wire WireCodec WireText WireIO WireTransport WireClient Client SqlClient Lexer.
Local Open Scope byte_scope.

(** ** [getopt] *)

(** What one call of [getopt_long] reports. *)
Inductive event :=
| Opt (c : byte) (optarg : option bytes)
| Missing (c : byte)              (** the argument of [c] is missing *)
| Unknown (c : byte)              (** no such letter; [optopt] is [c] *)
| LongOpt (val : Z)
| LongRefused (val : Z)           (** a value for an option without one; [optopt] is [val] *)
| LongUnknown (arg : bytes).      (** no such name; [optopt] is 0 *)

(** The letters, and whether they take an argument. *)
Notation letters := (byte → option bool).

(** The letters of one argument; the last one may want the next argument. *)
Fixpoint cluster (short : letters) (l : bytes) : list event * option byte :=
  match l with
  | [] => ([], None)
  | c :: l =>
    match short c with
    | None => let '(evs, want) := cluster short l in (Unknown c :: evs, want)
    | Some false => let '(evs, want) := cluster short l in (Opt c None :: evs, want)
    | Some true => match l with [] => ([], Some c) | _ => ([Opt c (Some l)], None) end
    end
  end.

Definition ch_equals : byte := Byte.x3d.

(** Options that take no value, by name; [arg] starts with two dashes. *)
Definition long_event (long : list (bytes * Z)) (arg : bytes) : event :=
  let text := drop 2 arg in
  let n := run_length (λ ch, negb (ch == ch_equals)) text in
  let name := take n text in
  let found :=
    match List.filter (λ x : bytes * Z, bool_decide (x.1 = name)) long with
    | x :: _ => Some x.2
    | [] =>
      match List.filter (λ x : bytes * Z, bool_decide (take n x.1 = name)) long with
      | [x] => Some x.2
      | _ => None
      end
    end in
  match found with
  | None => LongUnknown arg
  | Some val => match drop n text with [] => LongOpt val | _ => LongRefused val end
  end.

(** All calls until -1: what they report, and the operands, which are moved behind the
    options. *)
Fixpoint getopt_long (short : letters) (long : option (list (bytes * Z))) (args : list bytes) : list event * list bytes :=
  match args with
  | [] => ([], [])
  | a :: rest =>
    if bool_decide (a = [ch_minus; ch_minus]) then ([], rest)
    else
      match a with
      | c0 :: c1 :: l =>
        if c0 == ch_minus then
          match (if c1 == ch_minus then long else None) with
          | Some table =>
            let '(evs, ops) := getopt_long short long rest in (long_event table a :: evs, ops)
          | None =>
            let '(evs, want) := cluster short (c1 :: l) in
            match want with
            | None => let '(evs', ops) := getopt_long short long rest in (evs ++ evs', ops)
            | Some c =>
              match rest with
              | [] => (evs ++ [Missing c], [])
              | v :: rest => let '(evs', ops) := getopt_long short long rest in (evs ++ Opt c (Some v) :: evs', ops)
              end
            end
          end
        else let '(evs, ops) := getopt_long short long rest in (evs, a :: ops)
      | _ => let '(evs, ops) := getopt_long short long rest in (evs, a :: ops)
      end
  end.

(** ** [strtol(text, &end, 10)]: the value and what is left at [end] *)

Definition LONG_MAX : Z := 2 ^ 63 - 1.

Definition strtol (text : bytes) : Z * bytes :=
  let l := drop (run_length isspace text) text in
  let '(negative, l) :=
    match l with
    | ch :: l' => if ch == ch_minus then (true, l') else if ch == ch_plus then (false, l') else (false, l)
    | [] => (false, l)
    end in
  let n := run_length is_digit l in
  if (n =? 0)%nat then (0, text)
  else
    let v := digits_value (take n l) in
    (Z.max (- LONG_MAX - 1) (Z.min LONG_MAX (if negative : bool then - v else v)), drop n l).

(** ** The client *)

Definition kDefaultPort : Z := 8765.
Definition kHelpOption : Z := 1000.
Definition dquote : bytes := [Byte.x22].

Definition PrintUsage (prog : bytes) : bytes :=
  str "Usage: " ++ prog ++ str " [options]" ++ newline ++ newline ++
  str "RUCBase interactive SQL client (staff-provided)." ++ newline ++ newline ++
  str "Options:" ++ newline ++
  str "  -h <host>     Server host (default: 127.0.0.1)" ++ newline ++
  str "  -p <port>     Server port (default: " ++ to_string kDefaultPort ++ str ")" ++ newline ++
  str "  -e <sql>      Execute SQL and exit" ++ newline ++
  str "  -f <file>     Execute SQL statements from a file and exit" ++ newline ++
  str "  --help        Show this help" ++ newline ++ newline ++
  str "Interactive tips:" ++ newline ++
  str "  - End a statement with ';'" ++ newline ++
  str "  - Multi-line and multi-statement input are supported" ++ newline ++
  str "  - Type exit; or bye; (or Ctrl-D) to quit" ++ newline ++ newline ++
  str "Examples:" ++ newline ++
  str "  " ++ prog ++ newline ++
  str "  " ++ prog ++ str " -h 127.0.0.1 -p 8765" ++ newline ++
  str "  " ++ prog ++ str " -e " ++ dquote ++ str "show tables;" ++ dquote ++ newline ++
  str "  " ++ prog ++ str " -f demo.sql" ++ newline.

Definition ch_h : byte := Byte.x68.
Definition ch_p : byte := Byte.x70.
Definition ch_e : byte := Byte.x65.
Definition ch_f : byte := Byte.x66.
Definition ch_b : byte := Byte.x62.

(** ":h:p:e:f:" and the long options. *)
Definition client_letters : letters := λ c,
  if (c == ch_h) || (c == ch_p) || (c == ch_e) || (c == ch_f) then Some true else None.
Definition client_long : list (bytes * Z) := [(str "help", kHelpOption)].

Record ClientArgs := mkArgs {
  server_host : bytes; server_port : Z; execute_sql : option bytes; script_file : option bytes }.

Definition default_args : ClientArgs := mkArgs (str "127.0.0.1") kDefaultPort None None.

(** The port of the client: [None] is the diagnostic. *)
Definition client_port (optarg : bytes) : option Z :=
  let '(value, end_) := strtol optarg in
  if bool_decide (end_ = optarg) || negb (bool_decide (end_ = [])) || (value <=? 0) || (65535 <? value)
  then None else Some value.

(** The [switch]: the exit code and what is printed, or the settings so far. *)
Definition client_option (prog : bytes) (ev : event) (a : ClientArgs) : (Z * (Console → Console)) + ClientArgs :=
  let fail (text : bytes) := inl (1, eprint (text ++ newline ++ PrintUsage prog)) in
  match ev with
  | Opt c (Some optarg) =>
    if c == ch_h then inr (mkArgs optarg (server_port a) (execute_sql a) (script_file a))
    else if c == ch_p then
      match client_port optarg with
      | None => inl (1, eprint (str "invalid port: " ++ optarg ++ newline))
      | Some value => inr (mkArgs (server_host a) value (execute_sql a) (script_file a))
      end
    else if c == ch_e then inr (mkArgs (server_host a) (server_port a) (Some optarg) (script_file a))
    else if c == ch_f then inr (mkArgs (server_host a) (server_port a) (execute_sql a) (Some optarg))
    else inl (1, id)
  | Opt c None => inl (1, id)
  | LongOpt _ => inl (0, print (PrintUsage prog))
  | Missing c => fail (str "option requires an argument: -" ++ [c])
  | Unknown c => fail (str "unknown option: -" ++ [c])
  | LongRefused val => fail (str "unknown option: -" ++ [byte.of_Z val])
  | LongUnknown arg => fail (str "unknown option: " ++ arg)
  end.

Fixpoint client_options (prog : bytes) (evs : list event) (a : ClientArgs) : (Z * (Console → Console)) + ClientArgs :=
  match evs with
  | [] => inr a
  | ev :: evs => match client_option prog ev a with inl r => inl r | inr a => client_options prog evs a end
  end.

(** [RunClient] up to the end of the command line. *)
Definition parse_client (prog : bytes) (args : list bytes) : (Z * (Console → Console)) + ClientArgs :=
  let '(evs, ops) := getopt_long client_letters (Some client_long) args in
  match client_options prog evs default_args with
  | inl r => inl r
  | inr a =>
    match ops with
    | op :: _ => inl (1, eprint (str "unexpected argument: " ++ op ++ newline ++ PrintUsage prog))
    | [] => inr a
    end
  end.

Section RunClient.
Context (strerror gai_strerror : Z → bytes) (write_error : Sock → bytes).

(** [RunClient]; [read_file] is what opening and reading a file gives. *)
Definition RunClient (prog : bytes) (args : list bytes) (read_file : bytes → option bytes)
    (stdin : list bytes) (w : Net) (con : Console) : Z * Net * Console :=
  match parse_client prog args with
  | inl (code, f) => (code, w, f con)
  | inr a =>
    run_client strerror gai_strerror write_error (server_host a) (server_port a) (execute_sql a)
      ((λ path, (path, read_file path)) <$> script_file a) stdin w con
  end.
End RunClient.

(** ** The server *)

(** "b:p:" *)
Definition server_letters : letters := λ c, if (c == ch_b) || (c == ch_p) then Some true else None.

Definition print_usage (program : bytes) : bytes :=
  str "Usage: " ++ program ++ str " [-b ipv4_address] [-p port] <database>" ++ newline.

Definition server_port_of (optarg : bytes) : option Z :=
  let '(value, end_) := strtol optarg in
  if bool_decide (optarg = []) || negb (bool_decide (end_ = [])) || (value <? 1) || (65535 <? value)
  then None else Some value.

Record ServerArgs := mkServerArgs { address : bytes; port_ : Z }.

Fixpoint server_options (program : bytes) (evs : list event) (a : ServerArgs) : bytes + ServerArgs :=
  match evs with
  | [] => inr a
  | Opt c (Some optarg) :: evs =>
    if c == ch_b then server_options program evs (mkServerArgs optarg (port_ a))
    else if c == ch_p then
      match server_port_of optarg with
      | None => inl (str "Invalid port: " ++ optarg ++ newline)
      | Some value => server_options program evs (mkServerArgs (address a) value)
      end
    else inl (print_usage program)
  | _ :: _ => inl (print_usage program)
  end.

(** The diagnostic, or the database with the address to listen on. *)
Definition parse_options (program : bytes) (args : list bytes) : bytes + (bytes * ServerArgs) :=
  let '(evs, ops) := getopt_long server_letters None args in
  match server_options program evs (mkServerArgs (str "127.0.0.1") kDefaultPort) with
  | inl text => inl text
  | inr a => match ops with [database] => inr (database, a) | _ => inl (print_usage program) end
  end.

Example client_lines :
  parse_client (str "c") [str "-hexample.org"; str "-p"; str "99"; str "-e"; str "show tables;"] =
    inr (mkArgs (str "example.org") 99 (Some (str "show tables;")) None) ∧
  (λ r, match r with inl (code, f) => Some (code, cerr (f (mkConsole [] []))) | _ => None end)
    (parse_client (str "c") [str "-p70000"]) = Some (1, str "invalid port: 70000" ++ newline) ∧
  (λ r, match r with inl (code, f) => Some code | _ => None end) (parse_client (str "c") [str "--he"]) = Some 0 ∧
  getopt_long client_letters (Some client_long) [str "x"; str "-xp"; str "7"; str "--"; str "-y"] =
    ([Unknown Byte.x78; Opt ch_p (Some (str "7"))], [str "x"; str "-y"]).
Proof. vm_compute. split_and!; reflexivity. Qed.

Example server_lines :
  parse_options (str "rmdb") [str "db"; str "-p"; str "+99"] = inr (str "db", mkServerArgs (str "127.0.0.1") 99) ∧
  parse_options (str "rmdb") [str "--help"] = inl (print_usage (str "rmdb")) ∧
  parse_options (str "rmdb") [] = inl (print_usage (str "rmdb")).
Proof. vm_compute. split_and!; reflexivity. Qed.
