(* ===== verification/OptionsFacts.v ===== *)
(** * Facts about command lines

    [getopt_long] reads back every way of writing options and operands; the settings of
    client and server are the last value given for each letter; and both programs accept
    the same texts as ports. *)

From S2P Require Import Prelude Wire WireCodec WireText WireIO WireTransport WireClient Client SqlClient Lexer.
From S2P Require Import GrammarFacts LexerFacts Options.
Local Open Scope byte_scope.

(** ** Ports *)

Lemma isspace_not_digit ch : is_digit ch = true → isspace ch = false.
Proof. destruct ch; vm_compute; done. Qed.

Lemma run_length_le p l : (run_length p l ≤ length l)%nat.
Proof. induction l as [|ch l IH]; cbn; [lia|]. destruct (p ch); cbn; lia. Qed.

Lemma run_length_split p l : ∃ k r, l = k ++ r ∧ run_length p l = length k ∧ Forall (λ ch, p ch = true) k ∧
  match r with [] => True | ch :: _ => p ch = false end.
Proof.
  induction l as [|ch l (k & r & -> & Hn & Hk & Hr)]; [by exists [], []|]. cbn. destruct (p ch) eqn:E.
  - exists (ch :: k), r. split_and!; [done|cbn; by rewrite Hn|by constructor|done].
  - exists [], (ch :: k ++ r). by split_and!.
Qed.

Lemma run_length_app p k r : Forall (λ ch, p ch = true) k → match r with [] => True | ch :: _ => p ch = false end →
  run_length p (k ++ r) = length k.
Proof.
  intros Hk Hr. induction Hk as [|ch k Hc Hk IH]; cbn.
  - destruct r as [|ch r]; cbn; [done|]. by rewrite Hr.
  - by rewrite Hc, IH.
Qed.

Lemma digits_nonneg l : all_digits l → 0 ≤ digits_value l.
Proof.
  intros H. unfold digits_value. assert (∀ v, 0 ≤ v → 0 ≤ fold_left (λ v ch, v * 10 + digit ch) l v) as Hf; [|by apply Hf].
  induction H as [|ch l Hc Hl IH]; cbn; [done|]. intros v Hv. apply IH. unfold is_digit, digit in *. lia.
Qed.

(** The texts of ports: blanks, an optional plus sign, and digits with a value in range. *)
Definition port_text (t : bytes) (v : Z) : Prop := ∃ ws sign ds,
  t = ws ++ sign ++ ds ∧ Forall (λ ch, isspace ch = true) ws ∧ (sign = [] ∨ sign = [ch_plus]) ∧
  ds ≠ [] ∧ all_digits ds ∧ digits_value ds = v ∧ 1 ≤ v ≤ 65535.

(** [strtol] on a text of blanks, a sign and digits. *)
Lemma strtol_port ws sign ds : Forall (λ ch, isspace ch = true) ws → sign = [] ∨ sign = [ch_plus] →
  ds ≠ [] → all_digits ds → digits_value ds ≤ 65535 → strtol (ws ++ sign ++ ds) = (digits_value ds, []).
Proof.
  intros Hws Hsign Hne Hds Hv. destruct ds as [|d ds]; [done|]. pose proof (digits_nonneg _ Hds) as H0.
  assert (Hd : is_digit d = true) by by inversion Hds.
  assert (Hmid : drop (run_length isspace (ws ++ sign ++ d :: ds)) (ws ++ sign ++ d :: ds) = sign ++ d :: ds).
  { rewrite run_length_app; [by rewrite drop_app_length|done|].
    destruct Hsign as [->| ->]; cbn; [by apply isspace_not_digit|done]. }
  unfold strtol. rewrite Hmid.
  assert (Hsg : match sign ++ d :: ds with
    | ch :: l' => if ch == ch_minus then (true, l') else if ch == ch_plus then (false, l') else (false, sign ++ d :: ds)
    | [] => (false, sign ++ d :: ds) end = (false, d :: ds)).
  { destruct Hsign as [->| ->]; cbn; [|done]. rewrite !bool_decide_eq_false_2; [done|by intros ->..]. }
  rewrite Hsg, (run_length_all is_digit (d :: ds)) by done. cbn [length Nat.eqb].
  change (S (length ds)) with (length (d :: ds)). rewrite firstn_all, drop_all. f_equal. unfold LONG_MAX. lia.
Qed.

(** And only on those it leaves nothing and gives a positive value. *)
Lemma strtol_port_inv t v : strtol t = (v, []) → 1 ≤ v ≤ 65535 → port_text t v.
Proof.
  unfold strtol. destruct (run_length_split isspace t) as (ws & r & -> & Hn & Hws & Hr). rewrite Hn, drop_app_length.
  assert (Hend : ∀ (neg : bool) sign l, r = sign ++ l →
    (let n := run_length is_digit l in
     if (n =? 0)%nat then (0, ws ++ r)
     else (Z.max (- LONG_MAX - 1) (Z.min LONG_MAX (if neg then - digits_value (take n l) else digits_value (take n l))), drop n l))
      = (v, []) → 1 ≤ v ≤ 65535 → neg = false ∧ l ≠ [] ∧ all_digits l ∧ digits_value l = v).
  { intros neg sign l Hr' Hs Hv. cbn zeta in Hs. destruct (run_length_split is_digit l) as (ds & x & -> & Hds & Hall & _).
    rewrite Hds in Hs. destruct ds as [|d ds]; cbn [length Nat.eqb] in Hs; [simplify_eq; lia|].
    change (S (length ds)) with (length (d :: ds)) in Hs. rewrite drop_app_length, take_app_length in Hs.
    apply pair_eq in Hs as [Hs ->]. rewrite app_nil_r. pose proof (digits_nonneg _ Hall). unfold LONG_MAX in Hs.
    destruct neg; [lia|]. split_and!; [done|done|done|lia]. }
  destruct r as [|ch r].
  - intros Hs Hv. by destruct (Hend false [] [] eq_refl Hs Hv) as (_ & ? & _).
  - destruct (bool_decide (ch = ch_minus)) eqn:Em; [|destruct (bool_decide (ch = ch_plus)) eqn:Ep].
    + intros Hs Hv. by destruct (Hend true [ch] r eq_refl Hs Hv) as (? & _).
    + apply bool_decide_eq_true in Ep as ->. intros Hs Hv. destruct (Hend false [ch_plus] r eq_refl Hs Hv) as (_ & H1 & H2 & H3).
      exists ws, [ch_plus], r. split_and!; auto; lia.
    + intros Hs Hv. destruct (Hend false [] (ch :: r) eq_refl Hs Hv) as (_ & H1 & H2 & H3).
      exists ws, [], (ch :: r). split_and!; auto; lia.
Qed.

Lemma port_text_iff t v : port_text t v ↔ strtol t = (v, []) ∧ 1 ≤ v ≤ 65535.
Proof.
  split.
  - intros (ws & sign & ds & -> & Hws & Hsign & Hne & Hds & <- & Hv). split; [|done]. apply strtol_port; try done. lia.
  - intros [H1 H2]. by apply strtol_port_inv.
Qed.

Lemma client_port_iff t v : client_port t = Some v ↔ port_text t v.
Proof.
  rewrite port_text_iff. unfold client_port. destruct (strtol t) as [value end_] eqn:E. split.
  - intros H. destruct (bool_decide (end_ = t)) eqn:E1; [done|]. destruct (bool_decide (end_ = [])) eqn:E2; [|done].
    apply bool_decide_eq_true in E2 as ->. cbn in H. destruct (value <=? 0) eqn:?; [done|].
    destruct (65535 <? value) eqn:?; [done|]. cbn in H. simplify_eq. split; [done|lia].
  - intros [[= -> ->] Hv]. rewrite bool_decide_eq_false_2 by (intros <-; vm_compute in E; simplify_eq; lia).
    rewrite bool_decide_eq_true_2 by done. cbn. by rewrite (proj2 (Z.leb_gt v 0)), (proj2 (Z.ltb_ge 65535 v)) by lia.
Qed.

Lemma server_port_iff t v : server_port_of t = Some v ↔ port_text t v.
Proof.
  rewrite port_text_iff. unfold server_port_of. destruct (strtol t) as [value end_] eqn:E. split.
  - intros H. destruct (bool_decide (t = [])) eqn:E1; [done|]. destruct (bool_decide (end_ = [])) eqn:E2; [|done].
    apply bool_decide_eq_true in E2 as ->. cbn in H. destruct (value <? 1) eqn:?; [done|].
    destruct (65535 <? value) eqn:?; [done|]. cbn in H. simplify_eq. split; [done|lia].
  - intros [[= -> ->] Hv]. rewrite bool_decide_eq_false_2 by (intros ->; vm_compute in E; simplify_eq; lia).
    rewrite bool_decide_eq_true_2 by done. cbn. by rewrite (proj2 (Z.ltb_ge v 1)), (proj2 (Z.ltb_ge 65535 v)) by lia.
Qed.

(** ** Writing command lines *)

(** An option with its argument, attached to the letter or in a word of its own, or an
    operand. *)
Inductive item := Setting (c : byte) (v : bytes) (attached : bool) | Operand (v : bytes).

Definition render_item (i : item) : list bytes :=
  match i with
  | Setting c v attached => if attached && negb (bool_decide (v = [])) then [ch_minus :: c :: v] else [[ch_minus; c]; v]
  | Operand v => [v]
  end.
Definition render (l : list item) : list bytes := concat (render_item <$> l).

(** A word that [getopt] takes for an operand. *)
Definition is_operand (v : bytes) : bool := match v with ch :: _ :: _ => negb (ch == ch_minus) | _ => true end.

Definition item_ok (short : letters) (i : item) : Prop :=
  match i with Setting c v _ => short c = Some true ∧ c ≠ ch_minus | Operand v => is_operand v = true end.

Definition settings (l : list item) : list event :=
  omap (λ i, match i with Setting c v _ => Some (Opt c (Some v)) | Operand _ => None end) l.
Definition operands (l : list item) : list bytes :=
  omap (λ i, match i with Operand v => Some v | _ => None end) l.

Lemma getopt_render short long l rest : Forall (item_ok short) l →
  getopt_long short long (render l ++ rest) =
  let '(evs, ops) := getopt_long short long rest in (settings l ++ evs, operands l ++ ops).
Proof.
  induction 1 as [|[c v attached|v] l Hi Hl IH]; [change (render [] ++ rest) with rest; by destruct (getopt_long short long rest)|..];
    unfold render in *; csimpl; rewrite <- ?app_assoc.
  - destruct Hi as [Hc Hm]. destruct (attached && negb (bool_decide (v = []))) eqn:Ea; cbn [app].
    + destruct v as [|ch v]; [by rewrite andb_false_r in Ea|]. cbn [getopt_long].
      rewrite (bool_decide_eq_false_2 (_ = [ch_minus; ch_minus])) by congruence.
      rewrite (bool_decide_eq_true_2 (ch_minus = ch_minus)), (bool_decide_eq_false_2 (c = ch_minus)) by done.
      cbn [cluster]. rewrite Hc, IH. by destruct (getopt_long short long rest).
    + cbn [getopt_long]. rewrite (bool_decide_eq_false_2 (_ = [ch_minus; ch_minus])) by congruence.
      rewrite (bool_decide_eq_true_2 (ch_minus = ch_minus)), (bool_decide_eq_false_2 (c = ch_minus)) by done.
      cbn [cluster]. rewrite Hc, IH. by destruct (getopt_long short long rest).
  - cbn in Hi. cbn [app getopt_long]. rewrite IH. destruct v as [|ch [|ch' v]].
    + rewrite bool_decide_eq_false_2 by done. by destruct (getopt_long short long rest).
    + rewrite bool_decide_eq_false_2 by done. by destruct (getopt_long short long rest).
    + cbn in Hi. apply negb_true_iff, bool_decide_eq_false in Hi.
      rewrite (bool_decide_eq_false_2 (_ = [ch_minus; ch_minus])), (bool_decide_eq_false_2 (ch = ch_minus)) by congruence.
      by destruct (getopt_long short long rest).
Qed.

(** What an item means to the client: a later setting of a letter replaces an earlier one. *)
Definition client_item (a : ClientArgs) (i : item) : ClientArgs :=
  match i with
  | Setting c v _ =>
    if c == ch_h then mkArgs v (server_port a) (execute_sql a) (script_file a)
    else if c == ch_p then mkArgs (server_host a) (digits_value (List.filter is_digit v)) (execute_sql a) (script_file a)
    else if c == ch_e then mkArgs (server_host a) (server_port a) (Some v) (script_file a)
    else mkArgs (server_host a) (server_port a) (execute_sql a) (Some v)
  | Operand _ => a
  end.

Definition server_item (a : ServerArgs) (i : item) : ServerArgs :=
  match i with
  | Setting c v _ =>
    if c == ch_b then mkServerArgs v (port_ a) else mkServerArgs (address a) (digits_value (List.filter is_digit v))
  | Operand _ => a
  end.

(** Every port that is given has the text of a port. *)
Definition port_ok (i : item) : Prop :=
  match i with Setting c v _ => c = ch_p → ∃ n, port_text v n | Operand _ => True end.

Lemma filter_all (p : byte → bool) (b : bool) l : Forall (λ ch, p ch = b) l → List.filter p l = if b then l else [].
Proof. induction 1 as [|ch l Hc Hl IH]; [by destruct b|]. cbn. rewrite Hc. destruct b; by rewrite IH. Qed.

Lemma port_text_value t v : port_text t v → digits_value (List.filter is_digit t) = v.
Proof.
  intros (ws & sign & ds & -> & Hws & Hsign & _ & Hds & <- & _). rewrite !List.filter_app.
  rewrite (filter_all _ false ws), (filter_all _ true ds); [|done|].
  - by destruct Hsign as [->| ->].
  - apply (Forall_impl _ _ _ Hws). intros ch Hch. destruct (is_digit ch) eqn:E; [|done].
    apply isspace_not_digit in E. congruence.
Qed.

Lemma client_letters_true c : client_letters c = Some true → c = ch_h ∨ c = ch_p ∨ c = ch_e ∨ c = ch_f.
Proof. unfold client_letters. repeat case_bool_decide; auto; done. Qed.

Lemma server_letters_true c : server_letters c = Some true → c = ch_b ∨ c = ch_p.
Proof. unfold server_letters. repeat case_bool_decide; auto; done. Qed.

Lemma client_options_settings prog l : ∀ a, Forall (item_ok client_letters) l → Forall port_ok l →
  client_options prog (settings l) a = inr (fold_left client_item l a).
Proof.
  induction l as [|[c v x|v] l IH]; intros a Hl Hp; [done|..];
    inversion Hl as [|? ? Hi Hl']; inversion Hp as [|? ? Hpi Hp']; subst; [|by apply IH].
  destruct Hi as [Hc _]. change (settings (Setting c v x :: l)) with (Opt c (Some v) :: settings l).
  cbn [client_options client_option fold_left client_item].
  destruct (client_letters_true _ Hc) as [->|[->|[->| ->]]]; [by apply IH| |by apply IH..].
  destruct (Hpi eq_refl) as [n Hn]. change (ch_p == ch_h) with false. change (ch_p == ch_p) with true. cbn iota.
  rewrite (proj2 (client_port_iff v n) Hn), (port_text_value _ _ Hn). by apply IH.
Qed.

Lemma server_options_settings prog l : ∀ a, Forall (item_ok server_letters) l → Forall port_ok l →
  server_options prog (settings l) a = inr (fold_left server_item l a).
Proof.
  induction l as [|[c v x|v] l IH]; intros a Hl Hp; [done|..];
    inversion Hl as [|? ? Hi Hl']; inversion Hp as [|? ? Hpi Hp']; subst; [|by apply IH].
  destruct Hi as [Hc _]. change (settings (Setting c v x :: l)) with (Opt c (Some v) :: settings l).
  cbn [server_options fold_left server_item].
  destruct (server_letters_true _ Hc) as [->| ->]; [by apply IH|].
  destruct (Hpi eq_refl) as [n Hn]. change (ch_p == ch_b) with false. change (ch_p == ch_p) with true. cbn iota.
  rewrite (proj2 (server_port_iff v n) Hn), (port_text_value _ _ Hn). by apply IH.
Qed.

(** ** The theorems *)

(** Client and server accept the same texts as a port number: blanks, an optional plus
    sign and digits, with nothing behind them and a value from 1 to 65535; every other
    text, out-of-range and overflowing numbers included, is refused by both. *)
Theorem port_exact t :
  client_port t = server_port_of t ∧ (∀ v, client_port t = Some v ↔ port_text t v) ∧
  (∀ n, 1 ≤ n ≤ 65535 → client_port (to_string n) = Some n).
Proof.
  split_and!; [|apply client_port_iff|].
  - destruct (client_port t) as [v|] eqn:E.
    + symmetry. by apply server_port_iff, client_port_iff.
    + destruct (server_port_of t) as [v|] eqn:E'; [|done]. apply server_port_iff, client_port_iff in E'. congruence.
  - intros n Hn. apply client_port_iff. destruct (to_string_digits n) as (d & ds & Hds & Hv & ->).
    rewrite (proj2 (Z.ltb_ge n 0)) by lia. exists [], [], (d :: ds). split_and!; auto; lia.
Qed.

Lemma port_exact_witness : client_port (to_string 5432) = Some 5432.
Proof. apply (port_exact (to_string 5432)). lia. Defined.

Lemma getopt_line short long l : Forall (item_ok short) l → getopt_long short long (render l) = (settings l, operands l).
Proof. intros Hl. rewrite <- (app_nil_r (render l)), (getopt_render _ _ _ [] Hl). cbn. by rewrite !app_nil_r. Qed.

Lemma parse_options_line prog l database :
  Forall (item_ok server_letters) l → Forall port_ok l → operands l = [database] →
  parse_options prog (render l) = inr (database, fold_left server_item l (mkServerArgs (str "127.0.0.1") kDefaultPort)).
Proof. intros Hl Hp Ho. unfold parse_options. by rewrite getopt_line, server_options_settings, Ho. Qed.

(** Command lines are read as they were written.  However the options of the client
    and of the server are written (arguments attached to their letter or in a word of
    their own, in any order, repeated, mixed with operands), parsing gives the settings,
    later ones replacing earlier ones.  The client then wants no operand and the server
    exactly one, the database. *)
Theorem command_lines_read prog l :
  (Forall (item_ok client_letters) l → Forall port_ok l → operands l = [] →
    parse_client prog (render l) = inr (fold_left client_item l default_args)) ∧
  (Forall (item_ok client_letters) l → Forall port_ok l → operands l ≠ [] →
    ∃ op f, head (operands l) = Some op ∧ parse_client prog (render l) = inl (1, f) ∧
      ∀ con, cout (f con) = cout con ∧ cerr (f con) = cerr con ++ str "unexpected argument: " ++ op ++ newline ++ PrintUsage prog) ∧
  (∀ database, Forall (item_ok server_letters) l → Forall port_ok l → operands l = [database] →
    parse_options prog (render l) = inr (database, fold_left server_item l (mkServerArgs (str "127.0.0.1") kDefaultPort))).
Proof.
  split_and!; [| |apply parse_options_line]; unfold parse_client.
  - intros Hl Hp Ho. by rewrite getopt_line, client_options_settings, Ho.
  - intros Hl Hp Ho. destruct (operands l) as [|op ops] eqn:E; [done|]. exists op. eexists.
    rewrite getopt_line, client_options_settings, ?E by done. by split_and!.
Qed.

Definition sample_line : list item :=
  [Setting ch_p (str "99") true; Setting ch_h (str "example.org") false; Setting ch_e (str "show tables;") false;
   Setting ch_p (str " +100") false].

Lemma command_lines_read_witness :
  parse_client (str "c") (render sample_line) = inr (mkArgs (str "example.org") 100 (Some (str "show tables;")) None).
Proof.
  refine (proj1 (command_lines_read (str "c") sample_line) _ _ _).
  - repeat constructor; done.
  - repeat constructor; intros Hc; try done; [exists 99|exists 100]; apply client_port_iff; vm_compute; reflexivity.
  - reflexivity.
Defined.

(** The diagnostic for [--help=x] names the internal value of the option, cut to a byte. *)
Lemma help_value_diagnostic :
  (λ r, match r with inl (code, f) => Some (code, take 19 (cerr (f (mkConsole [] [])))) | _ => None end)
    (parse_client (str "c") [str "--help=x"]) = Some (1, str "unknown option: -" ++ [Byte.xe8] ++ newline).
Proof. vm_compute. reflexivity. Qed.
