(* ===== verification/Transactions.v ===== *)
(** * Transactions, their write sets and the identities of locks

    Models the data of [src/src/transaction/txn_defs.h], [transaction.h] and
    [concurrency/lock_manager.h]: transaction states, write records with their constructors,
    lock identities with the key they are hashed by, the abort exception, [Transaction] with
    its accessors, and the requests of the lock table.  [begin], [commit], [abort] and the
    operations of [LockManager] are exercises; [Server] states what the sessions rely on.

    [WriteRecord] declares its destructor, so it has no move constructor: where
    [append_write_record] says [std::move] the record is copied.

    [write_set_owns_images]: the images of a write set are values of their own.
    [lock_ids_identified]: what the hashed containers of lock identities need. *)

From S2P Require Import Prelude Common Record RecordFacts WireText.

(** ** [txn_defs.h] *)

Definition INVALID_TXN_ID : Z := -1.

Inductive TransactionState := DEFAULT | GROWING | SHRINKING | COMMITTED | ABORTED.
Inductive IsolationLevel := READ_UNCOMMITTED | REPEATABLE_READ | READ_COMMITTED | SERIALIZABLE.
Inductive WType := INSERT_TUPLE | DELETE_TUPLE | UPDATE_TUPLE.

Record WriteRecord := mkWrite { wtype_ : WType; tab_name_ : string; rid_ : Rid; record_ : RmRecord.t }.

Definition WriteRecord_default : WriteRecord := mkWrite INSERT_TUPLE "" (mkRid (-1) (-1)) RmRecord.empty.

(** The constructor for insertions. *)
Definition WriteRecord_insert (wtype : WType) (tab_name : string) (rid : Rid) : WriteRecord :=
  mkWrite wtype tab_name rid RmRecord.empty.

(** The constructor for deletions and updates: the object, and the parameter [record] after
    it was moved from. *)
Definition WriteRecord_image (wtype : WType) (tab_name : string) (rid : Rid) (record : RmRecord.t)
  : WriteRecord * RmRecord.t :=
  let '(r, record) := RmRecord.move_construct record in (mkWrite wtype tab_name rid r, record).

(** The implicit copy constructor and the destructor. *)
Definition WriteRecord_copy (h : RmRecord.heap) (other : WriteRecord) : result (RmRecord.heap * WriteRecord) :=
  '(h, r) ← RmRecord.copy_construct h (record_ other);
  Ok (h, mkWrite (wtype_ other) (tab_name_ other) (rid_ other) r).

Definition WriteRecord_destroy (h : RmRecord.heap) (w : WriteRecord) : result RmRecord.heap :=
  '(h, _) ← RmRecord.release h (record_ w); Ok h.

Inductive LockDataType := TABLE | RECORD.

#[global] Instance LockDataType_eq_dec : EqDecision LockDataType.
Proof. solve_decision. Defined.

Record LockDataId := mkLockId { lock_fd : Z; lock_rid : Rid; lock_type : LockDataType }.

#[global] Instance LockDataId_eq_dec : EqDecision LockDataId.
Proof. solve_decision. Defined.
#[global] Instance LockDataId_countable : Countable LockDataId.
Proof.
  refine (inj_countable' (λ x, (lock_fd x, lock_rid x, bool_decide (lock_type x = TABLE)))
                         (λ y, mkLockId y.1.1 y.1.2 (if y.2 : bool then TABLE else RECORD)) _).
  by intros [? ? []].
Defined.

(** The two constructors; a failing [assert] ends the process. *)
Definition LockDataId_table (fd : Z) (type : LockDataType) : result LockDataId :=
  if bool_decide (type = TABLE) then Ok (mkLockId fd (mkRid (-1) (-1)) type) else Crash.

Definition LockDataId_record (fd : Z) (rid : Rid) (type : LockDataType) : result LockDataId :=
  if bool_decide (type = RECORD) then Ok (mkLockId fd rid type) else Crash.

Definition lock_type_ordinal (t : LockDataType) : Z := match t with TABLE => 0 | RECORD => 1 end.

(** [LockDataId::hash_key], an unsigned 64-bit number. *)
Definition lock_hash_key (x : LockDataId) : Z :=
  match lock_type x with
  | TABLE => u32 (lock_fd x)
  | RECORD =>
    Z.lor (Z.lor (Z.lor (u64 (Z.shiftl (lock_type_ordinal (lock_type x)) 63)) (u64 (Z.shiftl (u32 (lock_fd x)) 31)))
                 (u64 (Z.shiftl (u32 (page_no (lock_rid x))) 16)))
          (u32 (slot_no (lock_rid x)))
  end.

Definition Rid_eqb (x y : Rid) : bool := (page_no x =? page_no y) && (slot_no x =? slot_no y).

Definition LockDataId_eqb (x other : LockDataId) : bool :=
  if negb (lock_type_ordinal (lock_type x) =? lock_type_ordinal (lock_type other)) then false
  else if negb (lock_fd x =? lock_fd other) then false
  else Rid_eqb (lock_rid x) (lock_rid other).

Inductive AbortReason := LOCK_ON_SHIRINKING | UPGRADE_CONFLICT | DEADLOCK_PREVENTION.

Record TransactionAbortException := mkAbort { txn_id_ : Z; abort_reason_ : AbortReason }.

Definition abort_info (e : TransactionAbortException) : bytes :=
  match abort_reason_ e with
  | LOCK_ON_SHIRINKING =>
    str "Transaction " ++ to_string (txn_id_ e) ++ str " aborted because it cannot request locks on SHRINKING phase" ++ [Byte.x0a]
  | UPGRADE_CONFLICT =>
    str "Transaction " ++ to_string (txn_id_ e) ++ str " aborted because another transaction is waiting for upgrading" ++ [Byte.x0a]
  | DEADLOCK_PREVENTION => str "Transaction " ++ to_string (txn_id_ e) ++ str " aborted for deadlock prevention" ++ [Byte.x0a]
  end.

(** ** [transaction.h] *)

(** The order of an [unordered_set] is not part of the model. *)
Record Transaction := mkTxn {
  txn_id : Z; txn_mode : bool; txn_state : TransactionState; isolation_level : IsolationLevel; thread_id : Z;
  txn_prev_lsn : Z; start_ts : Z; write_set : list WriteRecord; lock_set : gset LockDataId }.

Definition Transaction_make (id : Z) (isolation : IsolationLevel) (this_thread : Z) : Transaction :=
  mkTxn id false DEFAULT isolation this_thread INVALID_LSN 0 [] ∅.

Definition set_txn_mode (mode : bool) (t : Transaction) : Transaction :=
  mkTxn (txn_id t) mode (txn_state t) (isolation_level t) (thread_id t) (txn_prev_lsn t) (start_ts t) (write_set t) (lock_set t).
Definition set_start_ts (ts : Z) (t : Transaction) : Transaction :=
  mkTxn (txn_id t) (txn_mode t) (txn_state t) (isolation_level t) (thread_id t) (txn_prev_lsn t) ts (write_set t) (lock_set t).
Definition set_state (s : TransactionState) (t : Transaction) : Transaction :=
  mkTxn (txn_id t) (txn_mode t) s (isolation_level t) (thread_id t) (txn_prev_lsn t) (start_ts t) (write_set t) (lock_set t).
Definition set_prev_lsn (lsn : Z) (t : Transaction) : Transaction :=
  mkTxn (txn_id t) (txn_mode t) (txn_state t) (isolation_level t) (thread_id t) lsn (start_ts t) (write_set t) (lock_set t).
Definition set_write_set (ws : list WriteRecord) (t : Transaction) : Transaction :=
  mkTxn (txn_id t) (txn_mode t) (txn_state t) (isolation_level t) (thread_id t) (txn_prev_lsn t) (start_ts t) ws (lock_set t).

(** The parameter stays the caller's to destroy. *)
Definition append_write_record (h : RmRecord.heap) (t : Transaction) (record : WriteRecord)
  : result (RmRecord.heap * Transaction) :=
  '(h, w) ← WriteRecord_copy h record; Ok (h, set_write_set (write_set t ++ [w]) t).

(** The destructor, through that of [write_set_]. *)
Fixpoint destroy_write_set (h : RmRecord.heap) (ws : list WriteRecord) : result RmRecord.heap :=
  match ws with
  | [] => Ok h
  | w :: ws => h ← WriteRecord_destroy h w; destroy_write_set h ws
  end.

Definition Transaction_destroy (h : RmRecord.heap) (t : Transaction) : result RmRecord.heap :=
  destroy_write_set h (write_set t).

(** ** [lock_manager.h] *)

Inductive LockMode := SHARED | EXCLUSIVE | INTENTION_SHARED | INTENTION_EXCLUSIVE | S_IX.
Inductive GroupLockMode := NON_LOCK | IS | IX | S_lock | X_lock | SIX.

Definition GroupLockModeStr (m : GroupLockMode) : string :=
  match m with NON_LOCK => "NON_LOCK" | IS => "IS" | IX => "IX" | S_lock => "S" | X_lock => "X" | SIX => "SIX" end.

Record LockRequest := mkRequest { req_txn_id_ : Z; lock_mode_ : LockMode; granted_ : bool }.
Definition LockRequest_make (id : Z) (mode : LockMode) : LockRequest := mkRequest id mode false.

Record LockRequestQueue := mkQueue { request_queue_ : list LockRequest; group_lock_mode_ : GroupLockMode }.
Definition LockRequestQueue_default : LockRequestQueue := mkQueue [] NON_LOCK.

(** ** Lock identities *)

Definition lock_id_ints (x : LockDataId) : Prop :=
  is_s32 (lock_fd x) ∧ is_s32 (page_no (lock_rid x)) ∧ is_s32 (slot_no (lock_rid x)).

(** The rows of a table with fewer than [2 ^ 15] pages of fewer than [2 ^ 16] slots. *)
Definition small_row (x : LockDataId) : Prop :=
  is_s32 (lock_fd x) ∧ 0 ≤ page_no (lock_rid x) < 2 ^ 15 ∧ 0 ≤ slot_no (lock_rid x) < 2 ^ 16.

Lemma LockDataId_eqb_spec x y : LockDataId_eqb x y = true ↔ x = y.
Proof.
  destruct x as [f [p s] t], y as [f' [p' s'] t']. unfold LockDataId_eqb, Rid_eqb. cbn.
  split.
  - destruct t, t'; cbn; try done; destruct (f =? f') eqn:Ef; cbn; try done; intros H; split_bools; by subst.
  - intros [= -> -> -> ->]. destruct t'; cbn; by rewrite !Z.eqb_refl.
Qed.

(** Fields that do not overlap are added. *)
Lemma lor_shifted a b n : 0 ≤ n → 0 ≤ b < 2 ^ n → Z.lor (Z.shiftl a n) b = a * 2 ^ n + b.
Proof.
  intros Hn Hb. rewrite Z.shiftl_mul_pow2 by done. symmetry.
  assert (Hd : Z.land (a * 2 ^ n) b = 0).
  { apply Z.bits_inj'. intros i Hi. rewrite Z.bits_0, Z.land_spec. destruct (Z.lt_ge_cases i n) as [Hl|Hl].
    - by rewrite Z.mul_pow2_bits_low.
    - rewrite <- (Z.mod_small b (2 ^ n)), Z.mod_pow2_bits_high, andb_false_r by lia. done. }
  by rewrite Z.add_nocarry_lxor, Z.lxor_lor.
Qed.

Lemma u64_shift a n : 0 ≤ n → 0 ≤ a → a * 2 ^ n < 2 ^ 64 → u64 (Z.shiftl a n) = a * 2 ^ n.
Proof. intros Hn Ha Hl. rewrite Z.shiftl_mul_pow2 by done. apply u64_small. split; [apply Z.mul_nonneg_nonneg; lia|done]. Qed.

(** The type and the file descriptor of a row never meet. *)
Lemma row_key_head fd :
  Z.lor (u64 (Z.shiftl (lock_type_ordinal RECORD) 63)) (u64 (Z.shiftl (u32 fd) 31)) = (2 ^ 32 + u32 fd) * 2 ^ 31.
Proof.
  pose proof (u32_range fd) as Hr. unfold is_u32 in Hr. rewrite (u64_shift (u32 fd)) by lia.
  change (u64 (Z.shiftl (lock_type_ordinal RECORD) 63)) with (Z.shiftl 1 63). rewrite lor_shifted; lia.
Qed.

Lemma row_key x : lock_type x = RECORD → small_row x →
  lock_hash_key x = (2 ^ 32 + u32 (lock_fd x)) * 2 ^ 31 + page_no (lock_rid x) * 2 ^ 16 + slot_no (lock_rid x).
Proof.
  destruct x as [f [p s] t]; cbn [lock_fd lock_rid lock_type page_no slot_no]; intros -> (Hf & Hp & Hs).
  cbn [lock_fd lock_rid page_no slot_no] in *. unfold lock_hash_key. cbn [lock_fd lock_rid lock_type page_no slot_no].
  pose proof (u32_range f) as Hr. unfold is_u32 in Hr. rewrite row_key_head.
  rewrite (u32_small p), (u32_small s) by (unfold is_u32; lia). rewrite (u64_shift p) by lia.
  set (F := 2 ^ 32 + u32 f). assert (E1 : Z.lor (F * 2 ^ 31) (p * 2 ^ 16) = (F * 2 ^ 15 + p) * 2 ^ 16).
  { rewrite <- Z.shiftl_mul_pow2, lor_shifted by lia. lia. }
  rewrite E1, <- Z.shiftl_mul_pow2, lor_shifted by lia. lia.
Qed.

(** The highest bit tells rows from tables. *)
Lemma row_key_high x : lock_type x = RECORD → Z.testbit (lock_hash_key x) 63 = true.
Proof.
  intros Ht. unfold lock_hash_key. rewrite Ht, !Z.lor_spec.
  by change (Z.testbit (u64 (Z.shiftl (lock_type_ordinal RECORD) 63)) 63) with true.
Qed.

Lemma table_key_high x : lock_type x = TABLE → Z.testbit (lock_hash_key x) 63 = false.
Proof.
  intros Ht. unfold lock_hash_key. rewrite Ht. pose proof (u32_range (lock_fd x)) as Hr. unfold is_u32 in Hr.
  destruct (decide (u32 (lock_fd x) = 0)) as [->|Hn]; [done|]. apply Z.bits_above_log2; [lia|].
  apply Z.lt_trans with 32; [apply Z.log2_lt_pow2|]; lia.
Qed.

Lemma u32_inj a b : is_s32 a → is_s32 b → u32 a = u32 b → a = b.
Proof. intros Ha Hb H. by rewrite <- (s32_u32 a), <- (s32_u32 b), H. Qed.

Lemma lor_u64 a b : is_u64 a → is_u64 b → is_u64 (Z.lor a b).
Proof.
  intros [Ha Ha'] [Hb Hb']. split; [by apply Z.lor_nonneg|].
  destruct (decide (Z.lor a b = 0)) as [->|Hn]; [done|]. apply Z.log2_lt_pow2.
  - assert (0 ≤ Z.lor a b) by (by apply Z.lor_nonneg). lia.
  - rewrite Z.log2_lor by done. apply Z.max_lub_lt.
    + destruct (decide (a = 0)) as [->|]; [done|]. apply Z.log2_lt_pow2; lia.
    + destruct (decide (b = 0)) as [->|]; [done|]. apply Z.log2_lt_pow2; lia.
Qed.

Lemma lock_key_u64 x : is_u64 (lock_hash_key x).
Proof.
  assert (Hw : ∀ z, is_u64 (u32 z)) by (intros z; pose proof (u32_range z); unfold is_u32, is_u64 in *; lia).
  assert (Hu : ∀ z, is_u64 (u64 z)) by (intros z; unfold is_u64, u64; apply Z.mod_pos_bound; lia).
  unfold lock_hash_key. destruct (lock_type x); [done|]. repeat apply lor_u64; auto.
Qed.

(** Lock identities work as keys of the hashed containers.  [==] holds exactly for
    equal identities and equal identities have equal keys; the key is a 64-bit number; a
    table and a row never share a key, nor do two tables, nor two rows of files with fewer
    than 32768 pages and pages with fewer than 65536 slots. *)
Theorem lock_ids_identified x y : lock_id_ints x → lock_id_ints y →
  (LockDataId_eqb x y = true ↔ x = y) ∧ is_u64 (lock_hash_key x) ∧
  (LockDataId_eqb x y = true → lock_hash_key x = lock_hash_key y) ∧
  (lock_hash_key x = lock_hash_key y → lock_type x = lock_type y) ∧
  (∀ f g, LockDataId_table f TABLE = Ok x → LockDataId_table g TABLE = Ok y → lock_hash_key x = lock_hash_key y → x = y) ∧
  (lock_type x = RECORD → lock_type y = RECORD → small_row x → small_row y → lock_hash_key x = lock_hash_key y → x = y).
Proof.
  intros Hx Hy. split_and!.
  - apply LockDataId_eqb_spec.
  - apply lock_key_u64.
  - by intros ->%LockDataId_eqb_spec.
  - intros Hk. destruct (lock_type x) eqn:Ex, (lock_type y) eqn:Ey; try done.
    + pose proof (table_key_high x Ex). pose proof (row_key_high y Ey). congruence.
    + pose proof (table_key_high y Ey). pose proof (row_key_high x Ex). congruence.
  - intros f g [= <-] [= <-] Hk. destruct Hx as [Hf _], Hy as [Hg _]. cbn in *. by rewrite (u32_inj f g).
  - intros Ex Ey Sx Sy. rewrite (row_key x), (row_key y) by done.
    destruct x as [f [p s] t], y as [f' [p' s'] t'], Sx as (Hf & Hp & Hs), Sy as (Hf' & Hp' & Hs'); cbn in *; subst.
    intros Hk. assert (Hu : u32 f = u32 f') by lia. apply u32_inj in Hu; [|done..]. subst.
    assert (p = p') as -> by lia. assert (s = s') as -> by lia. done.
Qed.

Lemma lock_ids_identified_witness :
  lock_hash_key (mkLockId 3 (mkRid 1 2) RECORD) ≠ lock_hash_key (mkLockId 3 (mkRid 2 1) RECORD).
Proof.
  intros Hk. destruct (lock_ids_identified (mkLockId 3 (mkRid 1 2) RECORD) (mkLockId 3 (mkRid 2 1) RECORD)) as (_ & _ & _ & _ & _ & H).
  1, 2: unfold lock_id_ints, is_s32; cbn; lia.
  discriminate H; [reflexivity|reflexivity|unfold small_row, is_s32; cbn; lia..|exact Hk].
Defined.

(** ** Write sets *)

Section Images.
Import RmRecord.
Implicit Types (h : heap) (locals : gmap nat RmRecord.t) (vals : gmap nat bytes) (t : Transaction) (w : WriteRecord).

(** The images of the write set as variables from [base] on, beside the [locals]. *)
Definition images (base : nat) (ws : list WriteRecord) : gmap nat RmRecord.t := map_seq base (record_ <$> ws).
Definition variables (locals : gmap nat RmRecord.t) (base : nat) (ws : list WriteRecord) : gmap nat RmRecord.t :=
  images base ws ∪ locals.
Definition below (base : nat) (locals : gmap nat RmRecord.t) : Prop := ∀ i, (base ≤ i)%nat → locals !! i = None.

Lemma variables_free locals base ws i : below base locals → (base + length ws ≤ i)%nat → variables locals base ws !! i = None.
Proof.
  intros Hb Hi. unfold variables, images. rewrite lookup_union_None, lookup_map_seq_None, length_fmap. split; [lia|apply Hb; lia].
Qed.

Lemma variables_local locals base ws i r : below base locals → locals !! i = Some r → variables locals base ws !! i = Some r.
Proof.
  intros Hb Hi. unfold variables, images. rewrite lookup_union_r; [done|]. apply lookup_map_seq_None. left.
  destruct (decide (i < base)%nat); [done|]. rewrite Hb in Hi by lia. done.
Qed.

Lemma variables_snoc locals base ws w :
  variables locals base (ws ++ [w]) = <[(base + length ws)%nat := record_ w]> (variables locals base ws).
Proof. unfold variables, images. rewrite fmap_app. change (record_ <$> [w]) with [record_ w]. by rewrite map_seq_snoc, length_fmap, insert_union_l. Qed.

Lemma below_up base locals : below base locals → below (S base) locals.
Proof. intros Hb i Hi. apply Hb. lia. Qed.

Lemma variables_tail locals base w ws : below base locals →
  delete base (variables locals base (w :: ws)) = variables locals (S base) ws.
Proof.
  intros Hb. unfold variables, images. cbn. rewrite <- insert_union_l, delete_insert_id; [done|].
  rewrite lookup_union_None, lookup_map_seq_None. split; [lia|by apply Hb].
Qed.

Lemma destroy_write_set_owns ws base h locals vals : below base locals → owns (h, variables locals base ws) vals →
  ∃ h', destroy_write_set h ws = Ok h' ∧ owns (h', locals) (filter (λ p, (p.1 < base)%nat) vals).
Proof.
  revert base h vals. induction ws as [|w ws IH]; intros base h vals Hb H; cbn [destroy_write_set].
  - exists h. split; [done|]. unfold variables, images in H. cbn in H. rewrite (left_id_L ∅ (∪)) in H.
    rewrite map_filter_id; [done|]. intros i v Hi. cbn. destruct (decide (i < base)%nat); [done|].
    assert (Hn : locals !! i = None) by (apply Hb; lia). pose proof (owns_dead _ _ i H Hn) as Hd. congruence.
  - assert (Hx : variables locals base (w :: ws) !! base = Some (record_ w)).
    { unfold variables, images. cbn. by rewrite <- insert_union_l, lookup_insert_eq. }
    destruct (owns_release _ _ _ _ _ H Hx) as (h1 & Hrel & Hown & _). rewrite variables_tail in Hown by done.
    destruct (IH _ _ _ (below_up _ _ Hb) Hown) as (h2 & Hd & Hown'). exists h2.
    unfold WriteRecord_destroy. rewrite Hrel. split; [exact Hd|].
    replace (filter (λ p : nat * bytes, (p.1 < base)%nat) vals)
      with (filter (λ p : nat * bytes, (p.1 < S base)%nat) (delete base vals)); [done|].
    apply map_eq. intros i. apply option_eq. intros v. rewrite !map_lookup_filter_Some, lookup_delete_Some. cbn.
    split; [intros [[? ?] ?]|intros [? ?]]; split_and?; auto; lia.
Qed.

(** C25. The images a transaction keeps for its rollback are values of their own.  Making a
    write record moves the image out of its argument; appending it to the write set copies
    it, so that afterwards the write set holds the same bytes in a block that no other
    record and no other entry shares, the argument still holds its own, and type, table and
    row are those of the argument, behind the earlier entries; destroying the transaction
    frees exactly the blocks of its write set, and nothing is freed twice or leaks. *)
Theorem write_set_owns_images h locals t vals base :
  below base locals → owns (h, variables locals base (write_set t)) vals →
  (∀ x y r wtype tab rid, (y < base)%nat → locals !! y = None → locals !! x = Some r →
    let '(w, arg) := WriteRecord_image wtype tab rid r in
    ∃ v, vals !! x = Some v ∧ (wtype_ w, tab_name_ w, rid_ w) = (wtype, tab, rid) ∧
    owns (h, variables (<[y := record_ w]> (<[x := arg]> locals)) base (write_set t)) (<[y := v]> (<[x := []]> vals))) ∧
  (∀ x w, locals !! x = Some (record_ w) →
    ∃ v h' t' e, vals !! x = Some v ∧ append_write_record h t w = Ok (h', t') ∧ write_set t' = write_set t ++ [e] ∧
      (wtype_ e, tab_name_ e, rid_ e) = (wtype_ w, tab_name_ w, rid_ w) ∧
      owns (h', variables locals base (write_set t')) (<[(base + length (write_set t))%nat := v]> vals)) ∧
  (∃ h', Transaction_destroy h t = Ok h' ∧ owns (h', locals) (filter (λ p, (p.1 < base)%nat) vals) ∧
    (locals = ∅ → h' = ∅)).
Proof.
  intros Hb H. split_and!.
  - intros x y r wtype tab rid Hyb Hy Hx. cbn. pose proof (variables_local locals base (write_set t) x r Hb Hx) as Hvx.
    destruct (owns_live _ _ _ _ H Hvx) as (v & Hv & _). exists v. split_and!; [done|done|].
    assert (x < base)%nat as Hxb by (destruct (decide (x < base)%nat); [done|]; rewrite Hb in Hx by lia; done).
    assert (Hvy : variables locals base (write_set t) !! y = None).
    { unfold variables, images. rewrite lookup_union_None, lookup_map_seq_None. split; [lia|done]. }
    pose proof (owns_move _ _ _ y x r v H Hvy Hvx Hv) as Hm. unfold variables in *.
    rewrite !insert_union_r in Hm; [by destruct r|..]; unfold images; apply lookup_map_seq_None; lia.
  - intros x w Hx. pose proof (variables_local locals base (write_set t) x _ Hb Hx) as Hvx.
    destruct (copy_construct_owns _ _ _ (base + length (write_set t)) x _ H (variables_free _ _ _ _ Hb (le_n _)) Hvx)
      as (v & h' & r & Hv & Hc & Hown). unfold append_write_record, WriteRecord_copy. rewrite Hc. cbn.
    do 4 eexists. split_and!; [done|reflexivity|reflexivity|reflexivity|]. cbn [write_set set_write_set]. by rewrite variables_snoc.
  - destruct (destroy_write_set_owns _ _ _ _ _ Hb H) as (h' & Hd & Hown). exists h'. split_and!; [done|done|].
    intros ->. apply map_eq. intros l. rewrite lookup_empty. destruct (h' !! l) as [b|] eqn:E; [|done].
    destruct (ow_heap _ _ Hown l) as (x & r & Hx & _); [by exists b|]. cbn in Hx. by rewrite lookup_empty in Hx.
Qed.

(** One local holding two bytes, appended as the image of a deletion. *)
Definition image_heap : heap := {[1%positive := str "ab"]}.
Definition image_record : RmRecord.t := mk (Some 1%positive) 2 true.
Definition image_txn : Transaction := Transaction_make 7 SERIALIZABLE 0.

Lemma write_set_owns_images_witness :
  ∃ h' t', append_write_record image_heap image_txn (mkWrite DELETE_TUPLE "t" (mkRid 1 0) image_record) = Ok (h', t') ∧
    owns (h', variables {[0%nat := image_record]} 1 (write_set t')) (<[1%nat := str "ab"]> {[0%nat := str "ab"]}).
Proof.
  destruct (write_set_owns_images image_heap {[0%nat := image_record]} image_txn {[0%nat := str "ab"]} 1) as (_ & Happ & _).
  - intros i Hi. apply lookup_singleton_ne. lia.
  - unfold variables, images. cbn. rewrite (left_id_L ∅ (∪)). split; cbn [fst snd].
    + intros x. destruct (decide (x = 0%nat)) as [->|Hn]; [|by rewrite !lookup_singleton_ne by done].
      rewrite !lookup_singleton_eq. split; [reflexivity|]. exists 1%positive. by vm_compute.
    + intros x y r s l Hx Hy _ _. apply lookup_singleton_Some in Hx as [<- _], Hy as [<- _]. done.
    + intros l Hl. unfold image_heap in Hl. apply lookup_singleton_is_Some in Hl as <-. exists 0%nat, image_record. split; [apply lookup_singleton_eq|done].
  - destruct (Happ 0%nat (mkWrite DELETE_TUPLE "t" (mkRid 1 0) image_record) (lookup_singleton_eq _ _))
      as (v & h' & t' & e & Hv & Ha & _ & _ & Ho). rewrite lookup_singleton_eq in Hv. injection Hv as <-.
    exists h', t'. split; [exact Ha|exact Ho].
Defined.

End Images.
