(* ===== verification/Server.v ===== *)
(** * The server: query results, responses and sessions

    Models [src/src/common/wire_result.h] (the result buffer of a statement and its
    memory accounting), [src/src/common/context.h], and the request half of
    [src/src/server/server.cpp]: [handle_client], [handle_request], [execute_sql], the
    [send_*] family and the transaction bookkeeping of a session.

    The transaction manager is an interface: its [begin], [commit] and [abort] are
    exercise stubs in the repository, so they are the operations of a class, and what
    their comments promise is a class of laws. *)

From S2P Require Import Prelude Errors Common Wire WireCodec WireIO WireTransport WireClient Transactions.

(** ** [common/wire_result.h] *)

Module Result.

Record WireResultColumn := mkColumn { name : bytes; type : ColType }.
Record WireResultCell := mkRCell { cell_type : ColType; rint : Z; rfloat : Z; rstr : bytes }.

Definition kMaxBufferedBytes : Z := 16 * 1024 * 1024.
Definition kMaxRawTextBytes : Z := 1 * 1024 * 1024.

(** Object sizes of the 64-bit ABI: a [std::string] is 32 bytes and a vector 24. *)
Definition sizeof_WireResultColumn : Z := 40.
Definition sizeof_WireResultCell : Z := 48.
Definition sizeof_vector : Z := 24.

Record WireResultSet := mkSet {
  has_query_result : bool; raw_text : bool; buffered_bytes : Z;
  rcolumns : list WireResultColumn; rrows : list (list WireResultCell) }.

Definition WireResultSet_default : WireResultSet := mkSet false false 0 [] [].

Definition try_account (r : WireResultSet) (bytes : Z) : option WireResultSet :=
  if (kMaxBufferedBytes <? buffered_bytes r) || (kMaxBufferedBytes - buffered_bytes r <? bytes)
  then None
  else Some (mkSet (has_query_result r) (raw_text r) (buffered_bytes r + bytes) (rcolumns r) (rrows r)).

(** The members of [QueryResultBuilder]: the buffered set after the call, and whether
    the call threw (a failed call has already replaced or kept the buffer). *)
Definition reset_query (_ : WireResultSet) : WireResultSet := WireResultSet_default.

Definition columns_bytes (cs : list WireResultColumn) : Z :=
  foldl (λ bytes c, u64 (bytes + zlen (name c))) (u64 (zlen cs * sizeof_WireResultColumn)) cs.

Definition set_columns (_ : WireResultSet) (cs : list WireResultColumn) : result unit * WireResultSet :=
  let r := mkSet true false 0 [] [] in
  match try_account r (columns_bytes cs) with
  | None => (Throw (InternalError "query result schema exceeds the 16 MiB teaching wire buffer"), r)
  | Some r => (Ok tt, mkSet (has_query_result r) (raw_text r) (buffered_bytes r) cs (rrows r))
  end.

Definition set_raw_text (old : WireResultSet) (column_name txt : bytes) : result unit * WireResultSet :=
  if kMaxRawTextBytes <? zlen txt
  then (Throw (InternalError "raw text result exceeds the 1 MiB wire frame limit"), old)
  else
    let r := mkSet true true 0 [] [] in
    match try_account r (u64 (sizeof_WireResultColumn + zlen column_name + zlen txt)) with
    | None => (Throw (InternalError "raw text result exceeds the teaching wire buffer"), r)
    | Some r =>
      (Ok tt, mkSet (has_query_result r) (raw_text r) (buffered_bytes r)
                (rcolumns r ++ [mkColumn column_name TYPE_STRING])
                (rrows r ++ [[mkRCell TYPE_STRING 0 0 txt]]))
    end.

Definition row_bytes (row : list WireResultCell) : Z :=
  foldl (λ bytes c, u64 (bytes + zlen (rstr c)))
        (u64 (2 * sizeof_vector + zlen row * sizeof_WireResultCell)) row.

Definition add_row (r : WireResultSet) (row : list WireResultCell) : result unit * WireResultSet :=
  match try_account r (row_bytes row) with
  | None => (Throw (InternalError "query result exceeds the 16 MiB teaching wire buffer"), r)
  | Some r =>
    (Ok tt, mkSet (has_query_result r) (raw_text r) (buffered_bytes r) (rcolumns r) (rrows r ++ [row]))
  end.

(** [take]: the moved-from set keeps its scalars and loses its vectors. *)
Definition take_result (r : WireResultSet) : WireResultSet * WireResultSet :=
  (r, mkSet (has_query_result r) (raw_text r) (buffered_bytes r) [] []).

End Result.
Import Result.

(** ** Sending a statement's result *)

Definition send_error (fd : Z) (s : Sock) (diagnostic : bytes) : bool * Sock :=
  let diagnostic :=
    match last diagnostic with
    | Some b => if bool_decide (b = Byte.x0a) then diagnostic else diagnostic ++ [Byte.x0a]
    | None => diagnostic
    end in
  let diagnostic :=
    if kMaxDiagnosticBytes <? zlen diagnostic then ztake kMaxDiagnosticBytes diagnostic else diagnostic in
  WriteFrame fd s kTagError 0 diagnostic.

(** The schema loop: [None] when a type has no wire tag. *)
Fixpoint wire_columns (cs : list WireResultColumn) : option (list ColumnDef) :=
  match cs with
  | [] => Some []
  | c :: cs =>
    match ColTypeToWire (coltype_ordinal (type c)) with
    | None => None
    | Some sql_type =>
      match wire_columns cs with
      | None => None
      | Some columns => Some (mkColumnDef (name c) sql_type :: columns)
      end
    end
  end.

Fixpoint check_cells (row : list WireResultCell) (cs : list WireResultColumn) : bool :=
  match row, cs with
  | cell :: row, c :: cs => bool_decide (cell_type cell = type c) && check_cells row cs
  | _, _ => true
  end.

(** The shape check before META: the error of the first row that does not fit. *)
Fixpoint check_rows (rows : list (list WireResultCell)) (cs : list WireResultColumn) : option string :=
  match rows with
  | [] => None
  | row :: rows =>
    if negb (zlen row =? zlen cs) then Some "query result row does not match its schema"%string
    else if negb (check_cells row cs) then Some "query result cell type does not match its schema"%string
    else check_rows rows cs
  end.

(** [wire::Cell cell{.sql_type = ..., .int_val = ..., ...}] for each column. *)
Fixpoint wire_cells (row : list WireResultCell) (columns : list ColumnDef) : list Cell :=
  match row, columns with
  | c :: row, col :: columns =>
    mkCell false (column_sql_type col) (rint c) (rfloat c) (rstr c) :: wire_cells row columns
  | _, _ => []
  end.

Fixpoint send_rows (fd : Z) (s : Sock) (rows : list (list WireResultCell)) (columns : list ColumnDef)
  : bool * Sock :=
  match rows with
  | [] => (true, s)
  | row :: rows =>
    match TryEncodeRow (wire_cells row columns) with
    | inl _ => (false, s)
    | inr payload =>
      match WriteFrame fd s kTagRow 0 payload with
      | (false, s) => (false, s)
      | (true, s) => send_rows fd s rows columns
      end
    end
  end.

Definition send_query_result (fd : Z) (s : Sock) (r : WireResultSet) : bool * Sock :=
  match wire_columns (rcolumns r) with
  | None => send_error fd s (str "unsupported query result type")
  | Some columns =>
    match check_rows (rrows r) (rcolumns r) with
    | Some e => send_error fd s (str e)
    | None =>
      match TryEncodeMeta columns with
      | inl diagnostic => send_error fd s (str diagnostic)
      | inr payload =>
        match WriteFrame fd s kTagMeta 0 payload with
        | (false, s) => (false, s)
        | (true, s) =>
          match send_rows fd s (rrows r) columns with
          | (false, s) => (false, s)
          | (true, s) => WriteFrame fd s kTagResultEnd 0 (EncodeResultEnd (zlen (rrows r)))
          end
        end
      end
    end
  end.

Definition send_raw_text_result (fd : Z) (s : Sock) (r : WireResultSet) : bool * Sock :=
  match rcolumns r, rrows r with
  | [column], [[cell]] =>
    match TryEncodeMeta [mkColumnDef (name column) kTypeChar] with
    | inl diagnostic => send_error fd s (str diagnostic)
    | inr meta =>
      match TryEncodeRow [mkCell false kTypeChar 0 0 (rstr cell)] with
      | inl diagnostic => send_error fd s (str diagnostic)
      | inr row =>
        match WriteFrame fd s kTagMeta kFlagRawText meta with
        | (false, s) => (false, s)
        | (true, s) =>
          match WriteFrame fd s kTagRow 0 row with
          | (false, s) => (false, s)
          | (true, s) => WriteFrame fd s kTagResultEnd 0 (EncodeResultEnd 1)
          end
        end
      end
    end
  | _, _ => send_error fd s (str "raw text result must contain one CHAR cell")
  end.

Definition send_statement_result (fd : Z) (s : Sock) (r : WireResultSet) : bool * Sock :=
  if has_query_result r && raw_text r then send_raw_text_result fd s r
  else if has_query_result r then send_query_result fd s r
  else WriteFrame fd s kTagCommandOk 0 [].

(** ** Transactions of a session *)

(** [TransactionManager]: the transaction table, and the operations a session uses. *)
Class TransactionManager (K : Type) := {
  txn_map : K → gmap Z Transaction;
  tm_update : K → Z → (Transaction → Transaction) → K;
  tm_begin : K → option Z * K;
  tm_commit : K → Z → K;
  tm_abort : K → Z → K;
}.

(** What the comments of the stubs ask for: [commit] and [abort] remove the transaction
    from the table, an update stays inside it, and [begin] enters a transaction under its
    fresh valid id. *)
Class TransactionManagerLaws (K : Type) `{TransactionManager K} := {
  commit_removes k id : txn_map (tm_commit k id) = delete id (txn_map k);
  abort_removes k id : txn_map (tm_abort k id) = delete id (txn_map k);
  update_alters k id f : txn_map (tm_update k id f) = alter f id (txn_map k);
  begin_inserts k : ∃ id t, tm_begin k = (Some id, (tm_begin k).2) ∧ id ≠ INVALID_TXN_ID ∧
    txn_map k !! id = None ∧ txn_id t = id ∧ txn_map (tm_begin k).2 = <[id := t]> (txn_map k);
}.

Record ClientSession := mkSession { socket_fd : Z; transaction_id : Z }.

(** [Context]: the borrowed transaction pointer and the result buffer. *)
Record Context_ := mkContext { transaction : option Z; ctx_result : WireResultSet }.

(** What the pipeline after the parser does with a statement. *)
Inductive run_outcome :=
| RunOk                    (** [portal_.run] returned *)
| RunAbort                 (** [TransactionAbortException] *)
| RunError (e : RMDBError)
| RunStd (what : bytes).   (** any other [std::exception] *)

(** [parser::Parse]: a statement, an error already formatted for the client, or
    neither. *)
Inductive parse_outcome (Stmt : Type) := Parsed (stmt : Stmt) | ParseFailed (msg : bytes) | ParseNothing.
Arguments Parsed {Stmt} _.
Arguments ParseFailed {Stmt} _.
Arguments ParseNothing {Stmt}.

Section Session.
Context {K : Type} `{TransactionManager K} {Stmt : Type}.
Context (parse : bytes → parse_outcome Stmt).
(** Analyzer, optimizer, portal: they change the kernel, the session's transaction id
    and the context. *)
Context (run_statement : K → Z → Context_ → Stmt → run_outcome * K * Z * Context_).
Context (strerror : Z → bytes) (errno_text : string).

Definition get_transaction (k : K) (id : Z) : option Transaction :=
  if id =? INVALID_TXN_ID then None else txn_map k !! id.

(** [begin] returning null is dereferenced. *)
Definition prepare_transaction (k : K) (session : ClientSession) (ctx : Context_)
  : result (K * ClientSession * Context_) :=
  let begin_ :=
    match tm_begin k with
    | (Some id, k) => Ok (tm_update k id (set_txn_mode false),
                          mkSession (socket_fd session) id, mkContext (Some id) (ctx_result ctx))
    | (None, _) => Crash
    end in
  match get_transaction k (transaction_id session) with
  | None => begin_
  | Some t =>
    match txn_state t with
    | COMMITTED | ABORTED => begin_
    | _ => Ok (k, session, mkContext (Some (txn_id t)) (ctx_result ctx))
    end
  end.

Definition finish_session_transaction (session : ClientSession) (ctx : Context_)
  : ClientSession * Context_ :=
  (mkSession (socket_fd session) INVALID_TXN_ID, mkContext None (ctx_result ctx)).

Definition cleanup_failed_request (k : K) (session : ClientSession) (ctx : Context_)
  : K * ClientSession * Context_ :=
  let txn := match transaction ctx with
             | Some id => txn_map k !! id
             | None => get_transaction k (transaction_id session)
             end in
  match txn with
  | None => (k, session, ctx)
  | Some t =>
    if txn_mode t then (k, session, ctx)
    else
      let '(session, ctx) := finish_session_transaction session ctx in
      (tm_abort k (txn_id t), session, ctx)
  end.

Definition abort_session_transaction (k : K) (session : ClientSession) : K * ClientSession :=
  match get_transaction k (transaction_id session) with
  | None => (k, mkSession (socket_fd session) INVALID_TXN_ID)
  | Some t => (tm_abort k (txn_id t), mkSession (socket_fd session) INVALID_TXN_ID)
  end.

Definition execute_sql (k : K) (session : ClientSession) (s : Sock) (sql : bytes)
  : bool * K * ClientSession * Sock :=
  let fd := socket_fd session in
  let ctx := mkContext None WireResultSet_default in
  let caught (k : K) (session : ClientSession) (ctx : Context_) (message : bytes) :=
    let '(k, session, _) := cleanup_failed_request k session ctx in
    let '(ok, s) := send_error fd s message in (ok, k, session, s) in
  match parse sql with
  | ParseNothing =>
    caught k session ctx
      (str (what errno_text (InternalError "parser returned neither a statement nor an error")))
  | ParseFailed msg => caught k session ctx msg
  | Parsed stmt =>
    let '(out, k, tid, ctx) := run_statement k (transaction_id session) ctx stmt in
    let session := mkSession fd tid in
    match out with
    | RunOk => let '(ok, s) := send_statement_result fd s (ctx_result ctx) in (ok, k, session, s)
    | RunAbort =>
      let '(k, session) :=
        match transaction ctx with
        | Some id => (tm_abort k id, (finish_session_transaction session ctx).1)
        | None => (k, session)
        end in
      let '(ok, s) := WriteFrame fd s kTagTransactionAbort 0 (str "abort") in (ok, k, session, s)
    | RunError e => caught k session ctx (str (what errno_text e))
    | RunStd what => caught k session ctx (str "internal server error: " ++ what)
    end
  end.

Definition handle_request (k : K) (session : ClientSession) (s : Sock) (request : Frame)
  : bool * K * ClientSession * Sock :=
  let fd := socket_fd session in
  if negb (frame_flags request =? 0) || negb (frame_tag request =? kTagExecStream)
  then let '(ok, s) := send_error fd s (str "unsupported request (only EXEC_STREAM is implemented)") in
       (ok, k, session, s)
  else if zlen (frame_payload request) =? 0
  then let '(ok, s) := send_error fd s (str "empty SQL") in (ok, k, session, s)
  else execute_sql k session s (frame_payload request).

(** [while (ReadFrame(fd, &request) && handle_request(&session, request))]; a frame
    takes at least eight bytes off the stream, so the stream's length bounds it. *)
Fixpoint request_loop (fuel : nat) (k : K) (session : ClientSession) (s : Sock)
  : option (K * ClientSession * Sock) :=
  match fuel with
  | O => None
  | S fuel =>
    match ReadFrame strerror (socket_fd session) s with
    | (false, _, s) => Some (k, session, s)
    | (true, request, s) =>
      match handle_request k session s request with
      | (false, k, session, s) => Some (k, session, s)
      | (true, k, session, s) => request_loop fuel k session s
      end
    end
  end.

Definition handle_client (k : K) (fd : Z) (s : Sock) : K * ClientSession * Sock :=
  let session := mkSession fd INVALID_TXN_ID in
  let '(k, session, s) :=
    match ReadAndCheckHandshake strerror fd s with
    | (false, s) => (k, session, s)
    | (true, s) => default (k, session, s) (request_loop (S (length (inbox s))) k session s)
    end in
  let '(k, session) := abort_session_transaction k session in
  (k, session, s).

End Session.
