(* ===== verification/ServerFacts.v ===== *)
(** * Correctness of the server's responses and sessions

    The memory bound of the result buffer, the shape of what each [send_*] puts on the
    wire, the delivery of a query result from the server's buffer to the client's
    callbacks, and the transaction bookkeeping of a connection. *)

From S2P Require Import Prelude Errors Common Wire WireCodec WireText WireIO WireTransport WireClient WireExchange Transactions Server.
Import Result.

(** ** The result buffer *)

Definition zsum {A} (f : A → Z) (l : list A) : Z := foldr (λ x a, f x + a) 0 l.

Lemma zsum_nonneg {A} (f : A → Z) l : (∀ x, 0 ≤ f x) → 0 ≤ zsum f l.
Proof. intros H. induction l as [|x l IH]; cbn; [lia|]. pose proof (H x). unfold zsum in IH. lia. Qed.
Lemma zsum_app {A} (f : A → Z) l k : zsum f (l ++ k) = zsum f l + zsum f k.
Proof. induction l as [|x l IH]; cbn; [done|]. unfold zsum in *. cbn. lia. Qed.

(** The bytes of names and strings that a result set holds. *)
Definition names_data (cs : list WireResultColumn) : Z := zsum (λ c, zlen (name c)) cs.
Definition row_data (row : list WireResultCell) : Z := zsum (λ c, zlen (rstr c)) row.
Definition data_bytes (r : WireResultSet) : Z := names_data (rcolumns r) + zsum row_data (rrows r).

Definition buffer_ok (r : WireResultSet) : Prop :=
  data_bytes r ≤ buffered_bytes r ≤ kMaxBufferedBytes ∧ 0 ≤ buffered_bytes r.

(** The calls on a [QueryResultBuilder]. *)
Inductive builder_op :=
| OpReset
| OpColumns (cs : list WireResultColumn)
| OpRaw (column_name txt : bytes)
| OpRow (row : list WireResultCell).

Definition apply_op (r : WireResultSet) (op : builder_op) : WireResultSet :=
  match op with
  | OpReset => reset_query r
  | OpColumns cs => (set_columns r cs).2
  | OpRaw n t => (set_raw_text r n t).2
  | OpRow row => (add_row r row).2
  end.

(** The arguments are objects in a 64-bit address space: their sizes do not wrap. *)
Definition op_addressable (op : builder_op) : Prop :=
  match op with
  | OpReset => True
  | OpColumns cs => zlen cs * sizeof_WireResultColumn + names_data cs < 2 ^ 64
  | OpRaw n t => sizeof_WireResultColumn + zlen n + zlen t < 2 ^ 64
  | OpRow row => 2 * sizeof_vector + zlen row * sizeof_WireResultCell + row_data row < 2 ^ 64
  end.

Lemma accumulate_sizes {A} (f : A → Z) l acc :
  (∀ x, 0 ≤ f x) → 0 ≤ acc → acc + zsum f l < 2 ^ 64 →
  foldl (λ bytes x, u64 (bytes + f x)) acc l = acc + zsum f l.
Proof.
  intros Hf. revert acc. induction l as [|x l IH]; intros acc Hacc Hlt; cbn [foldl zsum foldr] in *.
  - unfold zsum. cbn. lia.
  - fold (zsum f l) in *. change (zsum f (x :: l)) with (f x + zsum f l) in *.
    pose proof (Hf x). pose proof (zsum_nonneg f l Hf).
    rewrite u64_small by word_lia. rewrite IH by lia. lia.
Qed.

Lemma columns_bytes_eq cs :
  op_addressable (OpColumns cs) → columns_bytes cs = zlen cs * sizeof_WireResultColumn + names_data cs.
Proof.
  cbn. intros H. unfold columns_bytes, names_data in *. pose proof (zlen_nonneg cs).
  pose proof (zsum_nonneg (λ c, zlen (name c)) cs ltac:(intros; apply zlen_nonneg)).
  unfold sizeof_WireResultColumn in *. rewrite u64_small by word_lia.
  apply (accumulate_sizes (λ c, zlen (name c))); [intros; apply zlen_nonneg|lia|lia].
Qed.

Lemma row_bytes_eq row :
  op_addressable (OpRow row) →
  row_bytes row = 2 * sizeof_vector + zlen row * sizeof_WireResultCell + row_data row.
Proof.
  cbn. intros H. unfold row_bytes, row_data in *. pose proof (zlen_nonneg row).
  pose proof (zsum_nonneg (λ c, zlen (rstr c)) row ltac:(intros; apply zlen_nonneg)).
  unfold sizeof_vector, sizeof_WireResultCell in *. rewrite u64_small by word_lia.
  apply (accumulate_sizes (λ c, zlen (rstr c))); [intros; apply zlen_nonneg|lia|lia].
Qed.

Lemma try_account_spec r n r' :
  0 ≤ n → try_account r n = Some r' →
  buffered_bytes r' = buffered_bytes r + n ∧ buffered_bytes r' ≤ kMaxBufferedBytes ∧
  rcolumns r' = rcolumns r ∧ rrows r' = rrows r.
Proof.
  intros Hn. unfold try_account. destruct (_ || _) eqn:E; [done|]. split_bools.
  intros [= <-]. cbn. split_and!; try done; lia.
Qed.

Lemma apply_op_ok r op : buffer_ok r → op_addressable op → buffer_ok (apply_op r op).
Proof.
  assert (∀ b1 b2, buffer_ok (mkSet b1 b2 0 [] [])) as Hempty.
  { intros b1 b2. unfold buffer_ok, data_bytes, kMaxBufferedBytes. cbn. lia. }
  intros Hr Ha. destruct op as [|cs|n t|row]; cbn [apply_op].
  - apply Hempty.
  - unfold set_columns. rewrite columns_bytes_eq by done. cbn in Ha. pose proof (zlen_nonneg cs).
    pose proof (zsum_nonneg (λ c, zlen (name c)) cs ltac:(intros; apply zlen_nonneg)).
    fold (names_data cs) in *. unfold sizeof_WireResultColumn in *.
    destruct (try_account _ _) as [r'|] eqn:E; cbn [snd]; [|apply Hempty].
    apply try_account_spec in E as (Hb & Hm & Hc & Hrw); [|lia].
    cbn [rrows buffered_bytes] in Hrw, Hb. unfold buffer_ok, data_bytes.
    cbn [rcolumns rrows buffered_bytes]. rewrite Hrw. change (zsum row_data []) with 0. lia.
  - unfold set_raw_text. cbn in Ha. pose proof (zlen_nonneg n). pose proof (zlen_nonneg t).
    unfold sizeof_WireResultColumn in *.
    destruct (_ <? _); [done|]. rewrite u64_small by word_lia.
    destruct (try_account _ _) as [r'|] eqn:E; cbn [snd]; [|apply Hempty].
    apply try_account_spec in E as (Hb & Hm & Hc & Hrw); [|lia].
    unfold buffer_ok, data_bytes. cbn. rewrite Hrw, Hc.
    unfold names_data, row_data, zsum. cbn in *. lia.
  - unfold add_row. rewrite row_bytes_eq by done. cbn in Ha. pose proof (zlen_nonneg row).
    pose proof (zsum_nonneg (λ c, zlen (rstr c)) row ltac:(intros; apply zlen_nonneg)).
    fold (row_data row) in *. unfold sizeof_vector, sizeof_WireResultCell in *.
    destruct (try_account _ _) as [r'|] eqn:E; cbn [snd]; [|done].
    destruct Hr as [[H1 H2] H3]. apply try_account_spec in E as (Hb & Hm & Hc & Hrw); [|lia].
    unfold buffer_ok, data_bytes in *. cbn [rcolumns rrows buffered_bytes].
    rewrite Hrw, Hc, zsum_app. change (zsum row_data [row]) with (row_data row + 0). lia.
Qed.

(** The result buffer of a statement is bounded: whatever calls are made on the
    builder, in any order, failed ones included, the names and strings it holds never
    exceed the bytes it has accounted for, and those never exceed 16 MiB. *)
Theorem result_buffer_bounded ops :
  Forall op_addressable ops →
  let r := foldl apply_op WireResultSet_default ops in
  data_bytes r ≤ buffered_bytes r ≤ kMaxBufferedBytes.
Proof.
  intros Hops. cbv zeta. assert (buffer_ok (foldl apply_op WireResultSet_default ops)) as H;
    [|apply H].
  assert (buffer_ok WireResultSet_default) as H0.
  { unfold buffer_ok, data_bytes, kMaxBufferedBytes. cbn. lia. }
  revert H0. generalize WireResultSet_default.
  induction Hops as [|op ops Hop _ IH]; intros r Hr; cbn [foldl]; [done|].
  apply IH. by apply apply_op_ok.
Qed.

Definition sample_ops : list builder_op :=
  [OpColumns [mkColumn (str "id") TYPE_INT; mkColumn (str "name") TYPE_STRING];
   OpRow [mkRCell TYPE_INT 1 0 []; mkRCell TYPE_STRING 0 0 (str "ab")]].

Lemma result_buffer_bounded_witness :
  data_bytes (foldl apply_op WireResultSet_default sample_ops) ≤
  buffered_bytes (foldl apply_op WireResultSet_default sample_ops) ≤ kMaxBufferedBytes.
Proof. apply (result_buffer_bounded sample_ops). repeat constructor; vm_compute; reflexivity. Defined.

(** ** What the server puts on the wire *)

(** [s'] is [s] after the frames [fs] were written in full. *)
Definition sends (s s' : Sock) (fs : list Frame) : Prop :=
  ∃ sched, Forall benign_send sched ∧ s' = emitted s (frames_image fs) sched.

Lemma sends_nil s : Forall benign_send (send_sched s) → sends s s [].
Proof. intros H. exists (send_sched s). split; [done|]. unfold emitted. cbn. rewrite app_nil_r. by destruct s. Qed.

Lemma sends_app s s1 s2 fs gs : sends s s1 fs → sends s1 s2 gs → sends s s2 (fs ++ gs).
Proof.
  intros (sc1 & H1 & ->) (sc2 & H2 & ->). exists sc2. split; [done|].
  by rewrite emitted_emitted, frames_image_app.
Qed.

Lemma sends_benign s s' fs : sends s s' fs → Forall benign_send (send_sched s').
Proof. by intros (sc & H & ->). Qed.

Lemma WriteFrame_sends fd s f :
  0 ≤ fd → frame_ok f → Forall benign_send (send_sched s) →
  ∃ s', WriteFrame fd s (frame_tag f) (frame_flags f) (frame_payload f) = (true, s') ∧ sends s s' [f].
Proof.
  intros Hfd Hok Hb. destruct (WriteFrame_complete fd s f Hfd Hok Hb) as (sc & Hsc & ->).
  eexists. split; [done|]. exists sc. split; [done|]. unfold frames_image. cbn. by rewrite app_nil_r.
Qed.

Lemma send_error_sends fd s d :
  0 ≤ fd → Forall benign_send (send_sched s) →
  ∃ s' p, send_error fd s d = (true, s') ∧ sends s s' [mkFrame kTagError 0 p].
Proof.
  intros Hfd Hb. unfold send_error. cbv zeta.
  set (d1 := match last d with Some b => _ | None => _ end).
  set (d2 := if kMaxDiagnosticBytes <? zlen d1 then _ else _).
  assert (zlen d2 ≤ kMaxDiagnosticBytes) as Hd2.
  { unfold d2. destruct (kMaxDiagnosticBytes <? zlen d1) eqn:E; split_bools; [|done].
    rewrite zlen_ztake; [done|]. unfold kMaxDiagnosticBytes in *. lia. }
  destruct (WriteFrame_sends fd s (mkFrame kTagError 0 d2)) as (s' & Hw & Hs); [done| |done|].
  { split_and!; cbn; try done; unfold kTagError, kMaxDiagnosticBytes, kMaxPayloadBytes in *; word_lia. }
  exists s', d2. done.
Qed.

(** A schema and rows in the buffer, and what they are on the wire. *)
Definition to_column (c : WireResultColumn) : ColumnDef :=
  mkColumnDef (name c) (match type c with TYPE_INT => kTypeInt32 | TYPE_FLOAT => kTypeFloat32 | TYPE_STRING => kTypeChar end).

Lemma wire_columns_eq cs : wire_columns cs = Some (map to_column cs).
Proof.
  induction cs as [|c cs IH]; [done|]. cbn [wire_columns map]. rewrite IH.
  unfold to_column at 2. by destruct (type c).
Qed.

(** A row has the schema's shape, with members in the range of their C++ types. *)
Definition row_shaped (cs : list WireResultColumn) (row : list WireResultCell) : Prop :=
  map cell_type row = map type cs ∧ Forall (λ c, is_s32 (rint c) ∧ is_u32 (rfloat c)) row.

Lemma check_cells_shape row cs :
  zlen row = zlen cs → check_cells row cs = true ↔ map cell_type row = map type cs.
Proof.
  revert cs. induction row as [|c row IH]; intros [|d cs] Hl; try done.
  rewrite !zlen_cons in Hl. cbn [check_cells map]. rewrite andb_true_iff, bool_decide_eq_true, IH by lia.
  split; [intros [-> ->]; done|by intros [= -> ->]].
Qed.

Lemma check_rows_shape rows cs :
  check_rows rows cs = None ↔ Forall (λ row, map cell_type row = map type cs) rows.
Proof.
  induction rows as [|row rows IH]; [done|]. cbn [check_rows].
  destruct (zlen row =? zlen cs) eqn:E; cbn [negb]; split_bools.
  - destruct (check_cells row cs) eqn:Ec; cbn [negb].
    + rewrite IH, Forall_cons. apply check_cells_shape in Ec; [|done]. tauto.
    + split; [done|]. intros H. inversion H as [|? ? H1 H2]; subst.
      apply check_cells_shape in H1; congruence.
  - split; [done|]. intros H. inversion H as [|? ? H1 H2]; subst.
    apply (f_equal zlen) in H1. rewrite !zlen_map in H1. done.
Qed.

Lemma wire_cells_types row cs :
  map cell_type row = map type cs →
  map cell_sql_type (wire_cells row (map to_column cs)) = map column_sql_type (map to_column cs).
Proof.
  revert cs. induction row as [|c row IH]; intros [|d cs] H; try done.
  cbn [map] in H. injection H as Hc H. cbn [wire_cells map]. by rewrite IH.
Qed.

Lemma to_column_known c : IsKnownSqlType (column_sql_type (to_column c)) = true.
Proof. unfold to_column. by destruct (type c). Qed.

(** The sent row is encodable exactly when it is within a frame. *)
Lemma wire_cells_fits cs row :
  cs ≠ [] → row_shaped cs row → zlen (row_image (wire_cells row (map to_column cs))) ≤ kMaxPayloadBytes →
  row_fits (map to_column cs) (wire_cells row (map to_column cs)).
Proof.
  intros _ [Hty Hwf] Hlen. split_and!; [by apply wire_cells_types| | |done].
  - clear Hlen. revert cs Hty. induction Hwf as [|c row Hc Hrow IH]; intros [|d cs] Hty; try done.
    cbn [map] in Hty. injection Hty as _ Hty. cbn [wire_cells map]. constructor; [done|by apply IH].
  - assert (∀ l cs, Forall (λ c, zlen (cell_image c) ≤ kMaxPayloadBytes) (wire_cells l (map to_column cs)) →
        Forall cell_ok (wire_cells l (map to_column cs))) as Hgen.
    { induction l as [|c l IH]; intros [|d ds] H; cbn [wire_cells map] in *; try done; try constructor.
      - split; [apply to_column_known|]. intros _ Hc. apply Forall_inv in H.
        rewrite zlen_cell_image in H. cbn [is_null cell_sql_type str_val] in *. rewrite Hc in H. cbn in H.
        unfold kMaxPayloadBytes in H. lia.
      - apply IH. by inversion H. }
    apply Hgen. clear Hgen Hty Hwf. revert Hlen.
    generalize (wire_cells row (map to_column cs)) as cells. intros cells.
    induction cells as [|c cells IH]; intros Hlen; [constructor|].
    rewrite row_image_cons, zlen_app in Hlen. pose proof (zlen_nonneg (row_image cells)).
    pose proof (zlen_nonneg (cell_image c)). constructor; [lia|]. apply IH. lia.
Qed.

Lemma TryEncodeRow_fits cols row : cols ≠ [] → row_fits cols row → TryEncodeRow row = inr (row_image row).
Proof.
  intros Hne (Hty & _ & Hok & Hlen). apply TryEncodeRow_iff. split_and!; try done.
  intros ->. by destruct cols.
Qed.

(** Every row is written, or the first one too large for a frame ends the call. *)
Lemma send_rows_sends fd s rows cs :
  0 ≤ fd → cs ≠ [] → Forall (row_shaped cs) rows → Forall benign_send (send_sched s) →
  ∃ ok s' n, send_rows fd s rows (map to_column cs) = (ok, s') ∧
    sends s s' (map row_frame (take n (map (λ r, wire_cells r (map to_column cs)) rows))) ∧
    (ok = true ↔ Forall (row_fits (map to_column cs)) (map (λ r, wire_cells r (map to_column cs)) rows)) ∧
    (ok = true → n = length rows).
Proof.
  intros Hfd Hne Hrows. revert s. induction Hrows as [|row rows Hrow Hrows IH]; intros s Hb; cbn [send_rows].
  { exists true, s, 0%nat. split_and!; try done. by apply sends_nil. }
  assert (map to_column cs ≠ []) as Hne' by (by destruct cs).
  set (cells := wire_cells row (map to_column cs)) in *. cbn [map].
  destruct (TryEncodeRow cells) as [e|p] eqn:E.
  - exists false, s, 0%nat. split_and!; try done; [by apply sends_nil|]. split; [done|].
    intros H. apply Forall_inv in H. fold cells in H. apply TryEncodeRow_fits in H; [|done]. by rewrite E in H.
  - assert (row_fits (map to_column cs) cells) as Hfit.
    { apply TryEncodeRow_iff in E as (_ & _ & Hp & Hle). subst p. by apply wire_cells_fits. }
    rewrite TryEncodeRow_fits with (cols := map to_column cs) in E by done. injection E as <-.
    destruct (WriteFrame_sends fd s (row_frame cells)) as (s1 & Hw & Hs1);
      [done|by eapply row_frame_ok|done|].
    cbn [row_frame frame_tag frame_flags frame_payload] in Hw. rewrite Hw.
    destruct (IH s1) as (ok & s2 & n & -> & Hs2 & Hiff & Hn); [by eapply sends_benign|].
    exists ok, s2, (S n). split_and!; [done| | |].
    + cbn [take map]. exact (sends_app _ _ _ [_] _ Hs1 Hs2).
    + rewrite Forall_cons. fold cells. tauto.
    + intros Hok. by rewrite Hn.
Qed.

(** The members of a result are values of their C++ types. *)
Definition result_sane (r : WireResultSet) : Prop :=
  Forall (Forall (λ c, is_s32 (rint c) ∧ is_u32 (rfloat c))) (rrows r) ∧ zlen (rrows r) < 2 ^ 64.

Definition wire_schema (r : WireResultSet) : list ColumnDef := map to_column (rcolumns r).
Definition wire_rows (r : WireResultSet) : list (list Cell) := map (λ row, wire_cells row (wire_schema r)) (rrows r).

Lemma sane_shaped r :
  result_sane r → check_rows (rrows r) (rcolumns r) = None → Forall (row_shaped (rcolumns r)) (rrows r).
Proof.
  intros [Hs _] Hc. apply check_rows_shape in Hc. rewrite Forall_forall in Hs, Hc |- *.
  intros row Hrow. split; auto.
Qed.

Lemma schema_nonempty cols : schema_fits cols → cols ≠ [].
Proof. intros (H & _) ->. rewrite zlen_nil in H. lia. Qed.

Lemma response_rows n rows cols fs :
  cols ≠ [] → Forall (row_fits cols) rows → 0 ≤ n → is_u64 (n + zlen rows) →
  response Rows (n + zlen rows) fs → response Rows n (map row_frame rows ++ fs).
Proof.
  intros Hne H. revert n. induction H as [|row rows Hrow Hrows IH]; intros n Hn Hu Hfs.
  - by rewrite zlen_nil, Z.add_0_r in Hfs.
  - rewrite zlen_cons in *. pose proof (zlen_nonneg rows). cbn [map app].
    apply (resp_row n _ _ cols (map canon_cell row)); [done|done|by apply row_decodes|].
    rewrite u64_small by word_lia. apply IH; [lia|word_lia|]. by rewrite <- Z.add_assoc.
Qed.

Lemma result_frames_response fl cols rows :
  schema_fits cols → Forall (row_fits cols) rows → zlen rows < 2 ^ 64 →
  response AwaitFirst 0 (result_frames fl cols rows).
Proof.
  intros Hc Hr Hn. pose proof (zlen_nonneg rows). pose proof Hc as (H1 & H2 & H3).
  assert (is_u64 (zlen rows)) by word_lia.
  apply (resp_meta 0 _ _ cols); [done|by apply DecodeMeta_iff|].
  apply (response_rows 0 rows cols); [by apply schema_nonempty|done|lia|word_lia|].
  apply resp_end; [done|done|]. cbn [end_frame frame_payload]. by apply DecodeResultEnd_iff.
Qed.

Lemma error_response n p : response AwaitFirst n [mkFrame kTagError 0 p].
Proof. apply resp_error; cbn; auto. Qed.

Lemma schema_fits_iff cols p :
  TryEncodeMeta cols = inr p ↔ schema_fits cols ∧ p = be 2 (zlen cols) ++ columns_image cols.
Proof. rewrite TryEncodeMeta_iff. unfold schema_fits. naive_solver. Qed.

(** A result set that reaches the wire: its schema fits META and each row a frame. *)
Definition deliverable (r : WireResultSet) : Prop :=
  result_sane r ∧ check_rows (rrows r) (rcolumns r) = None ∧ schema_fits (wire_schema r) ∧
  Forall (row_fits (wire_schema r)) (wire_rows r).

(** Past its checks, [send_query_result] writes META, then rows until one does not
    fit, then RESULT_END if they all did. *)
Lemma send_query_result_checked fd s r :
  0 ≤ fd → result_sane r → Forall benign_send (send_sched s) →
  check_rows (rrows r) (rcolumns r) = None → schema_fits (wire_schema r) →
  ∃ ok s' n, send_query_result fd s r = (ok, s') ∧
    (ok = true ↔ Forall (row_fits (wire_schema r)) (wire_rows r)) ∧
    sends s s' (if ok then result_frames 0 (wire_schema r) (wire_rows r)
                else meta_frame 0 (wire_schema r) :: map row_frame (take n (wire_rows r))).
Proof.
  intros Hfd Hsane Hb Hc Hsch. unfold send_query_result. rewrite wire_columns_eq, Hc. fold (wire_schema r).
  rewrite (proj2 (schema_fits_iff (wire_schema r) _) (conj Hsch eq_refl)).
  destruct (WriteFrame_sends fd s (meta_frame 0 (wire_schema r))) as (s1 & Hw & Hs1);
    [done|by apply meta_frame_ok|done|].
  cbn [meta_frame frame_tag frame_flags frame_payload] in Hw. rewrite Hw.
  destruct (send_rows_sends fd s1 (rrows r) (rcolumns r)) as (ok & s2 & n & Hr & Hs2 & Hiff & Hn);
    [done| |by apply sane_shaped|by eapply sends_benign|].
  { intros Hn. apply (schema_nonempty _ Hsch). unfold wire_schema. by rewrite Hn. }
  fold (wire_schema r) (wire_rows r) in *. rewrite Hr. destruct ok.
  - assert (is_u64 (zlen (rrows r))) as Hu by (destruct Hsane; pose proof (zlen_nonneg (rrows r)); word_lia).
    destruct (WriteFrame_sends fd s2 (end_frame (zlen (rrows r)))) as (s3 & Hw3 & Hs3);
      [done|by apply end_frame_ok|by eapply sends_benign|].
    cbn [end_frame frame_tag frame_flags frame_payload] in Hw3. rewrite Hw3.
    exists true, s3, n. split_and!; [done|done|]. specialize (Hn eq_refl) as ->.
    rewrite take_ge in Hs2 by (unfold wire_rows; by rewrite length_map).
    unfold result_frames. replace (zlen (wire_rows r)) with (zlen (rrows r)) by (unfold wire_rows; by rewrite zlen_map).
    exact (sends_app _ _ _ [_] _ Hs1 (sends_app _ _ _ _ _ Hs2 Hs3)).
  - exists false, s2, n. split_and!; [done|done|]. exact (sends_app _ _ _ [_] _ Hs1 Hs2).
Qed.

Lemma send_query_result_response fd s r :
  0 ≤ fd → result_sane r → Forall benign_send (send_sched s) →
  ∃ ok s' fs, send_query_result fd s r = (ok, s') ∧ sends s s' fs ∧ (ok = true → response AwaitFirst 0 fs).
Proof.
  intros Hfd Hsane Hb.
  assert (∀ d, ∃ ok s' fs, send_error fd s d = (ok, s') ∧ sends s s' fs ∧ (ok = true → response AwaitFirst 0 fs))
    as Herr.
  { intros d. destruct (send_error_sends fd s d Hfd Hb) as (s' & p & -> & Hs).
    eexists _, _, _. split_and!; [done|exact Hs|]. intros _. apply error_response. }
  destruct (check_rows (rrows r) (rcolumns r)) as [e|] eqn:Ec.
  { unfold send_query_result. rewrite wire_columns_eq, Ec. apply Herr. }
  destruct (TryEncodeMeta (wire_schema r)) as [e|p] eqn:Em.
  { unfold send_query_result. rewrite wire_columns_eq, Ec. fold (wire_schema r). rewrite Em. apply Herr. }
  apply schema_fits_iff in Em as [Hsch _].
  destruct (send_query_result_checked fd s r Hfd Hsane Hb Ec Hsch) as (ok & s' & n & -> & Hiff & Hs).
  eexists _, _, _. split_and!; [done|exact Hs|]. intros ->. apply result_frames_response; [done|by apply Hiff|].
  unfold wire_rows. rewrite zlen_map. apply Hsane.
Qed.

Lemma send_raw_text_response fd s r :
  0 ≤ fd → Forall benign_send (send_sched s) →
  ∃ s' fs, send_raw_text_result fd s r = (true, s') ∧ sends s s' fs ∧ response AwaitFirst 0 fs.
Proof.
  intros Hfd Hb.
  assert (∀ d, ∃ s' fs, send_error fd s d = (true, s') ∧ sends s s' fs ∧ response AwaitFirst 0 fs) as Herr.
  { intros d. destruct (send_error_sends fd s d Hfd Hb) as (s' & p & -> & Hs).
    eexists _, _. split_and!; [done|exact Hs|apply error_response]. }
  unfold send_raw_text_result.
  destruct (rcolumns r) as [|c [|c2 cs]]; [apply Herr| |apply Herr].
  destruct (rrows r) as [|[|cell [|cell2 row]] [|row2 rows]]; try apply Herr.
  set (cols := [mkColumnDef (name c) kTypeChar]). set (row := [mkCell false kTypeChar 0 0 (rstr cell)]).
  destruct (TryEncodeMeta cols) as [e|p] eqn:Em; [apply Herr|].
  destruct (TryEncodeRow row) as [e|q] eqn:Er; [apply Herr|].
  apply schema_fits_iff in Em as [Hsch ->]. apply TryEncodeRow_iff in Er as (_ & Hok & -> & Hlen).
  assert (row_fits cols row) as Hfit.
  { split_and!; try done. repeat constructor; cbn; lia. }
  destruct (WriteFrame_sends fd s (meta_frame kFlagRawText cols)) as (s1 & Hw1 & Hs1);
    [done|by apply meta_frame_ok|done|].
  cbn [meta_frame frame_tag frame_flags frame_payload] in Hw1. rewrite Hw1.
  destruct (WriteFrame_sends fd s1 (row_frame row)) as (s2 & Hw2 & Hs2);
    [done|by eapply row_frame_ok|by eapply sends_benign|].
  cbn [row_frame frame_tag frame_flags frame_payload] in Hw2. rewrite Hw2.
  destruct (WriteFrame_sends fd s2 (end_frame 1)) as (s3 & Hw3 & Hs3);
    [done|by apply end_frame_ok|by eapply sends_benign|].
  cbn [end_frame frame_tag frame_flags frame_payload] in Hw3. rewrite Hw3.
  exists s3, (result_frames kFlagRawText cols [row]). split_and!; [done| |].
  - exact (sends_app _ _ _ [_] _ Hs1 (sends_app _ _ _ [_] _ Hs2 Hs3)).
  - by apply result_frames_response; [|constructor|].
Qed.

Lemma send_statement_result_response fd s r :
  0 ≤ fd → result_sane r → Forall benign_send (send_sched s) →
  ∃ ok s' fs, send_statement_result fd s r = (ok, s') ∧ sends s s' fs ∧ (ok = true → response AwaitFirst 0 fs).
Proof.
  intros Hfd Hsane Hb. unfold send_statement_result.
  destruct (has_query_result r && raw_text r).
  { destruct (send_raw_text_response fd s r Hfd Hb) as (s' & fs & -> & Hs & Hr). by eexists _, _, _. }
  destruct (has_query_result r); [by apply send_query_result_response|].
  destruct (WriteFrame_sends fd s (mkFrame kTagCommandOk 0 [])) as (s' & Hw & Hs); [done| |done|].
  { split_and!; cbn; try done. }
  cbn [frame_tag frame_flags frame_payload] in Hw. rewrite Hw.
  eexists _, _, _. split_and!; [done|exact Hs|]. intros _. by apply resp_command_ok.
Qed.

(** ** One request, one response *)

Section Requests.
Context {K : Type} `{TransactionManager K} {Stmt : Type}.
Context (parse : bytes → parse_outcome Stmt).
Context (run_statement : K → Z → Context_ → Stmt → run_outcome * K * Z * Context_).
Context (strerror : Z → bytes) (errno_text : string).

(** The pipeline fills the result buffer with values of their C++ types. *)
Definition pipeline_sane : Prop :=
  ∀ k tid ctx stmt, result_sane (ctx_result ctx) →
    result_sane (ctx_result (run_statement k tid ctx stmt).2).

Lemma cleanup_keeps_fd k session ctx :
  socket_fd (cleanup_failed_request k session ctx).1.2 = socket_fd session.
Proof.
  unfold cleanup_failed_request, finish_session_transaction. cbv zeta.
  destruct (match transaction ctx with Some _ => _ | None => _ end) as [t|]; [|done].
  by destruct (txn_mode t).
Qed.

Lemma handle_request_response k session s request :
  0 ≤ socket_fd session → pipeline_sane → Forall benign_send (send_sched s) →
  ∃ ok k' session' s' fs,
    handle_request parse run_statement errno_text k session s request = (ok, k', session', s') ∧
    socket_fd session' = socket_fd session ∧ sends s s' fs ∧ (ok = true → response AwaitFirst 0 fs).
Proof.
  intros Hfd Hp Hb.
  assert (∀ d (k' : K) session', socket_fd session' = socket_fd session → ∃ ok k'' session'' s' fs,
     (let '(ok, s0) := send_error (socket_fd session) s d in (ok, k', session', s0)) = (ok, k'', session'', s') ∧
     socket_fd session'' = socket_fd session ∧ sends s s' fs ∧ (ok = true → response AwaitFirst 0 fs)) as Herr.
  { intros d k' session' Hs'. destruct (send_error_sends (socket_fd session) s d Hfd Hb) as (s' & p & -> & Hs).
    eexists _, _, _, _, _. split_and!; [done|done|exact Hs|]. intros _. apply error_response. }
  unfold handle_request. destruct (_ || _); [by apply Herr|]. destruct (_ =? 0); [by apply Herr|].
  unfold execute_sql. cbv zeta.
  destruct (parse (frame_payload request)) as [stmt|msg|].
  2,3: destruct (cleanup_failed_request k session (mkContext None WireResultSet_default)) as [[k1 ss1] ctx1] eqn:E;
    apply Herr; rewrite <- (cleanup_keeps_fd k session (mkContext None WireResultSet_default)), E; done.
  pose proof (Hp k (transaction_id session) (mkContext None WireResultSet_default) stmt) as Hsane.
  destruct (run_statement _ _ _ _) as [[[out k1] tid] ctx]. cbn [snd ctx_result] in Hsane.
  destruct out as [| |e|w].
  3,4: destruct (cleanup_failed_request k1 (mkSession (socket_fd session) tid) ctx) as [[k2 ss2] ctx2] eqn:E;
    apply Herr; pose proof (cleanup_keeps_fd k1 (mkSession (socket_fd session) tid) ctx) as Hk; by rewrite E in Hk.
  - destruct (send_statement_result_response (socket_fd session) s (ctx_result ctx) Hfd) as (ok & s' & fs & -> & H1 & H2);
      [apply Hsane; split; [constructor|done]|done|]. by eexists _, _, _, _, _.
  - destruct (WriteFrame_sends (socket_fd session) s (mkFrame kTagTransactionAbort 0 (str "abort")))
      as (s' & Hw & Hs); [done|split_and!; cbn; try done|done|].
    cbn [frame_tag frame_flags frame_payload] in Hw.
    destruct (transaction ctx) as [id|]; rewrite Hw; eexists _, _, _, _, _;
      (split_and!; [done|done|exact Hs|]); intros _; apply resp_error; cbn; auto.
Qed.

(** The request loop returns within its fuel, and every request but possibly the last
    was answered by a complete response. *)
Lemma request_loop_responses fuel k session s :
  0 ≤ socket_fd session → pipeline_sane → benign s → (length (inbox s) < fuel)%nat →
  ∃ k' session' s' rs tail,
    request_loop parse run_statement strerror errno_text fuel k session s = Some (k', session', s') ∧
    Forall (response AwaitFirst 0) rs ∧ outbox s' = outbox s ++ frames_image (concat rs ++ tail).
Proof.
  intros Hfd Hp. revert k session s Hfd. induction fuel as [|fuel IH]; intros k session s Hfd [Hb1 Hb2] Hf; [lia|].
  cbn [request_loop]. unfold ReadFrame.
  destruct (ReadFrameInternal strerror (socket_fd session) s) as [[[st d] f] s1] eqn:E.
  apply ReadFrameInternal_sound in E as (n & sc & Hn & -> & Hsuf & Hok).
  destruct st.
  2,3: eexists _, _, _, [], []; split_and!; [done|constructor|]; cbn; by rewrite app_nil_r.
  destruct (Hok eq_refl) as (_ & _ & Hn8 & _).
  destruct (handle_request_response k session (advance s n sc) f Hfd Hp) as
    (ok & k' & session' & s' & fs & -> & Hfd' & (sc2 & Hsc2 & ->) & Hresp); [done|].
  destruct ok.
  - destruct (IH k' session' (emitted (advance s n sc) (frames_image fs) sc2)) as
      (k2 & ss2 & s2 & rs & tl & -> & Hrs & Hout); [by rewrite Hfd'| | |].
    { split; cbn; [by eapply Forall_suffix|done]. }
    { cbn [inbox emitted advance]. rewrite zlen_frame_image in Hn8.
      pose proof (zlen_nonneg (frame_payload f)). unfold zdrop, zlen in *. rewrite length_drop. lia. }
    eexists _, _, _, (fs :: rs), tl. split_and!; [done|by constructor; [apply Hresp|]|].
    rewrite Hout. cbn [outbox emitted advance concat].
    by rewrite <- (app_assoc fs), (frames_image_app fs), app_assoc.
  - eexists _, _, _, [], fs. split_and!; [done|constructor|]. done.
Qed.
End Requests.

(** C20. Every request gets one answer: on a connection whose writes do not fail, the
    server always writes whole frames, and when it keeps the connection open those
    frames are exactly one complete response in the client's grammar, for every
    request frame, every parser and every outcome of the statement. *)
Theorem request_answered {K} `{TransactionManager K} {Stmt}
    (parse : bytes → parse_outcome Stmt)
    (run_statement : K → Z → Context_ → Stmt → run_outcome * K * Z * Context_) errno_text k session s request :
  0 ≤ socket_fd session → pipeline_sane run_statement → Forall benign_send (send_sched s) →
  ∃ ok k' session' s' fs,
    handle_request parse run_statement errno_text k session s request = (ok, k', session', s') ∧
    outbox s' = outbox s ++ frames_image fs ∧ (ok = true → response AwaitFirst 0 fs).
Proof.
  intros Hfd Hp Hb.
  destruct (handle_request_response parse run_statement errno_text k session s request Hfd Hp Hb)
    as (ok & k' & session' & s' & fs & -> & _ & (sc & _ & ->) & Hr).
  by eexists _, _, _, _, fs.
Qed.

(** A manager with one table and nothing else. *)
Definition TableManager : Type := gmap Z Transaction.
#[global] Instance table_manager : TransactionManager TableManager := {|
  txn_map := λ k, k;
  tm_update := λ k id f, alter f id k;
  tm_begin := λ k, let id := fresh (dom k ∪ {[INVALID_TXN_ID]}) in (Some id, <[id := Transaction_make id SERIALIZABLE 0]> k);
  tm_commit := λ k id, delete id k;
  tm_abort := λ k id, delete id k |}.

#[global] Instance table_manager_laws : TransactionManagerLaws TableManager.
Proof.
  split; [done|done|done|]. intros k.
  pose proof (is_fresh (dom k ∪ {[INVALID_TXN_ID]})) as Hf.
  exists (fresh (dom k ∪ {[INVALID_TXN_ID]})), (Transaction_make (fresh (dom k ∪ {[INVALID_TXN_ID]})) SERIALIZABLE 0).
  split_and!; try done; [set_solver|apply not_elem_of_dom; set_solver].
Qed.

Definition echo_run (k : TableManager) (tid : Z) (ctx : Context_) (stmt : bytes)
  : run_outcome * TableManager * Z * Context_ :=
  (RunOk, k, tid, mkContext (transaction ctx)
     (mkSet true false 0 [mkColumn (str "sql") TYPE_STRING] [[mkRCell TYPE_STRING 0 0 stmt]])).

Lemma request_answered_witness :
  ∃ ok k' session' s' fs,
    handle_request Parsed echo_run "" (∅ : TableManager) (mkSession 3 INVALID_TXN_ID)
      (mkSock [] [] [] [SChunk 2; SEintr]) (mkFrame kTagExecStream 0 (str "select")) = (ok, k', session', s') ∧
    outbox s' = [] ++ frames_image fs ∧ (ok = true → response AwaitFirst 0 fs).
Proof.
  apply (request_answered Parsed echo_run "" (∅ : TableManager) (mkSession 3 INVALID_TXN_ID)
      (mkSock [] [] [] [SChunk 2; SEintr]) (mkFrame kTagExecStream 0 (str "select"))).
  - cbn. lia.
  - intros k tid ctx stmt _. split; [|done]. repeat constructor; cbn; lia.
  - repeat constructor.
Defined.

(** C3. End to end: a query result that fits the protocol, sent by the server over a
    connection that may split or interrupt every call, is delivered to the client's
    callbacks as the same schema and the same rows in the same order; the client
    reports [ResultSet] with the number of rows and the rendered table, and both sides
    stay in step: what follows the response on the stream is untouched. *)
Theorem query_result_delivered {St} strerror write_error fd cfd s cs r (options : ExecuteOptions (St := St)) c sql rest :
  0 ≤ fd → 0 ≤ cfd → deliverable r → Forall benign_send (send_sched s) → benign cs →
  willing options → 1 ≤ zlen sql ≤ kMaxPayloadBytes →
  ∃ s' wire, send_query_result fd s r = (true, s') ∧ outbox s' = outbox s ++ wire ∧
    (inbox cs = wire ++ rest →
     ∃ cs', inbox cs' = rest ∧
       ExecStreamResult strerror write_error cfd cs sql options c =
       (mkResult ResultSet (wire_schema r) (zlen (rrows r))
          (if format_text options then table_text (wire_schema r) (map (map canon_cell) (wire_rows r)) else []) [],
        foldl (deliver_row options) (deliver_meta options c (wire_schema r)) (map (map canon_cell) (wire_rows r)),
        cs')).
Proof.
  intros Hfd Hcfd (Hsane & Hc & Hsch & Hrows) Hb Hcb Hw Hsql.
  destruct (send_query_result_checked fd s r Hfd Hsane Hb Hc Hsch) as (ok & s' & n & Hq & Hiff & Hs).
  rewrite (proj2 Hiff Hrows) in *. destruct Hs as (sc & _ & ->).
  eexists _, (frames_image (result_frames 0 (wire_schema r) (wire_rows r))). split_and!; [done|done|].
  intros Hin. destruct (client_reads_result strerror write_error options cfd cs sql (wire_schema r) (wire_rows r) c rest)
    as (cs' & _ & Hrest & _ & Hex); try done.
  { unfold wire_rows. rewrite zlen_map. apply Hsane. }
  exists cs'. split; [done|]. rewrite Hex. unfold wire_rows at 1. by rewrite zlen_map.
Qed.

Definition sample_result : WireResultSet :=
  mkSet true false 0 [mkColumn (str "id") TYPE_INT; mkColumn (str "name") TYPE_STRING]
    [[mkRCell TYPE_INT 7 0 []; mkRCell TYPE_STRING 0 0 (str "x")]].

Definition collect : ExecuteOptions (St := list (list Cell)) :=
  mkOptions true None (Some (λ c row, (CbContinue, c ++ [row]))).

Definition sample_stream : bytes := frames_image (result_frames 0 (wire_schema sample_result) (wire_rows sample_result)).

Lemma query_result_delivered_witness :
  ∃ s' wire, send_query_result 3 (mkSock [] [] [] [SChunk 4; SEintr]) sample_result = (true, s') ∧
    outbox s' = [] ++ wire ∧
    (sample_stream = wire ++ [] →
     ∃ cs', inbox cs' = [] ∧
       ExecStreamResult (λ _, []) (λ _, []) 4 (mkSock sample_stream [RChunk 1; REintr] [] []) (str "q") collect [] =
       (mkResult ResultSet (wire_schema sample_result) 1
          (table_text (wire_schema sample_result) (map (map canon_cell) (wire_rows sample_result))) [],
        map (map canon_cell) (wire_rows sample_result), cs')).
Proof.
  refine (query_result_delivered (λ _, []) (λ _, []) 3 4 (mkSock [] [] [] [SChunk 4; SEintr])
    (mkSock sample_stream [RChunk 1; REintr] [] []) sample_result collect [] (str "q") [] _ _ _ _ _ _ _).
  - lia.
  - lia.
  - split_and!; [split; [repeat constructor; cbn; lia|done]|reflexivity| |].
    + split_and!; [vm_compute; discriminate|vm_compute; discriminate| |vm_compute; discriminate].
      repeat constructor; vm_compute; discriminate.
    + repeat constructor; vm_compute; discriminate.
  - repeat constructor.
  - split; repeat constructor.
  - by split; intros cb [= <-].
  - vm_compute. split; discriminate.
Defined.

(** C40. A result row that does not fit a frame is found out only after META: the
    server then stops in the middle of the response, reports failure so that the
    connection is closed, and sends no ERROR frame. *)
Theorem oversized_row_truncates_response fd s r :
  0 ≤ fd → result_sane r → Forall benign_send (send_sched s) →
  check_rows (rrows r) (rcolumns r) = None → schema_fits (wire_schema r) →
  ¬ Forall (row_fits (wire_schema r)) (wire_rows r) →
  ∃ s' n, send_query_result fd s r = (false, s') ∧
    outbox s' = outbox s ++ frames_image (meta_frame 0 (wire_schema r) :: map row_frame (take n (wire_rows r))).
Proof.
  intros Hfd Hsane Hb Hc Hsch Hn.
  destruct (send_query_result_checked fd s r Hfd Hsane Hb Hc Hsch) as (ok & s' & n & Hq & Hiff & Hs).
  destruct ok; [by destruct Hn; apply Hiff|]. destruct Hs as (sc & _ & ->). by eexists _, n.
Qed.

(** One CHAR cell, and its row on the wire. *)
Definition text_result (txt : bytes) : WireResultSet :=
  mkSet true false 0 [mkColumn (str "c") TYPE_STRING] [[mkRCell TYPE_STRING 0 0 txt]].

Lemma text_result_not_fits txt :
  kMaxPayloadBytes < 5 + zlen txt → ¬ Forall (row_fits (wire_schema (text_result txt))) (wire_rows (text_result txt)).
Proof.
  intros Hl H. apply Forall_inv in H. destruct H as (_ & _ & _ & H).
  change (wire_cells _ _) with [mkCell false kTypeChar 0 0 txt] in H.
  unfold row_image in H. cbn [map concat] in H. rewrite app_nil_r, zlen_cell_image in H.
  change (1 + (4 + zlen txt) ≤ kMaxPayloadBytes) in H. lia.
Qed.

(** A full mebibyte: accepted by the buffer, too large for a ROW. *)
Definition mebibyte : bytes := replicate (Z.to_nat kMaxPayloadBytes) Byte.x61.

Lemma zlen_mebibyte : zlen mebibyte = kMaxPayloadBytes.
Proof. unfold zlen, mebibyte. rewrite length_replicate, Z2Nat.id; [done|]. unfold kMaxPayloadBytes. lia. Qed.

Lemma mebibyte_not_fits :
  ¬ Forall (row_fits (wire_schema (text_result mebibyte))) (wire_rows (text_result mebibyte)).
Proof. apply text_result_not_fits. rewrite zlen_mebibyte. lia. Qed.

Lemma oversized_row_truncates_response_witness :
  ∃ s' n, send_query_result 3 (mkSock [] [] [] []) (text_result mebibyte) = (false, s') ∧
    outbox s' = [] ++ frames_image (meta_frame 0 (wire_schema (text_result mebibyte))
                    :: map row_frame (take n (wire_rows (text_result mebibyte)))).
Proof.
  refine (oversized_row_truncates_response 3 (mkSock [] [] [] []) (text_result mebibyte) _ _ _ _ _ mebibyte_not_fits).
  - lia.
  - split; [repeat constructor; cbn; lia|done].
  - constructor.
  - reflexivity.
  - split_and!; [vm_compute; discriminate|vm_compute; discriminate| |vm_compute; discriminate].
    repeat constructor; vm_compute; discriminate.
Defined.

(** ** Connections and their transactions *)

(** The transaction table is keyed by the transactions' own ids. *)
Definition keyed {K} `{TransactionManager K} (k : K) : Prop :=
  ∀ id t, txn_map k !! id = Some t → txn_id t = id.

(** A connection's transcript: the server echoes the handshake if and only if the
    client opened with exactly the eight bytes of the protocol version it speaks, and
    sends nothing otherwise; after the echo it sends a sequence of complete
    responses, with at most one unfinished response at the end of the connection. *)
Theorem connection_transcript {K} `{TransactionManager K} {Stmt} (parse : bytes → parse_outcome Stmt)
    run_statement strerror errno_text (k : K) fd s :
  0 ≤ fd → pipeline_sane run_statement → benign s →
  let s' := (handle_client parse run_statement strerror errno_text k fd s).2 in
  (ztake 8 (inbox s) ≠ handshake_bytes ∧ outbox s' = outbox s) ∨
  (ztake 8 (inbox s) = handshake_bytes ∧ ∃ rs tail, Forall (response AwaitFirst 0) rs ∧
     outbox s' = outbox s ++ handshake_bytes ++ frames_image (concat rs ++ tail)).
Proof.
  intros Hfd Hp Hb. cbv zeta. unfold handle_client.
  destruct (decide (ztake 8 (inbox s) = handshake_bytes)) as [Heq|Hne].
  - right. split; [done|]. apply starts_with in Heq; [|done].
    destruct (ReadAndCheckHandshake_complete strerror fd s (zdrop 8 (inbox s)) Hfd Hb Heq)
      as (s1 & -> & Hb1 & Hin1 & Hout1).
    destruct (request_loop_responses parse run_statement strerror errno_text (S (length (inbox s1)))
      k (mkSession fd INVALID_TXN_ID) s1 Hfd Hp Hb1 ltac:(lia)) as (k2 & ss2 & s2 & rs & tl & -> & Hrs & Hout).
    exists rs, tl. split; [done|]. unfold id. cbn [from_option].
    destruct (abort_session_transaction k2 ss2). cbn [snd]. by rewrite Hout, Hout1, <- app_assoc.
  - left. split; [done|]. destruct (ReadAndCheckHandshake strerror fd s) as [ok s1] eqn:E.
    apply ReadAndCheckHandshake_sound in E as [_ H2]; [|done]. destruct (H2 Hne) as [-> Ho].
    destruct (abort_session_transaction k (mkSession fd INVALID_TXN_ID)). done.
Qed.

Lemma connection_transcript_witness :
  let s := mkSock (handshake_bytes ++ frame_image (mkFrame kTagExecStream 0 (str "q"))) [RChunk 3] [] [] in
  let s' := (handle_client Parsed echo_run (λ _, []) "" (∅ : TableManager) 3 s).2 in
  (ztake 8 (inbox s) ≠ handshake_bytes ∧ outbox s' = outbox s) ∨
  (ztake 8 (inbox s) = handshake_bytes ∧ ∃ rs tail, Forall (response AwaitFirst 0) rs ∧
     outbox s' = outbox s ++ handshake_bytes ++ frames_image (concat rs ++ tail)).
Proof.
  cbv zeta. apply connection_transcript.
  - lia.
  - intros k tid ctx stmt _. split; [|done]. repeat constructor; cbn; lia.
  - split; repeat constructor.
Defined.

(** A failed statement rolls back exactly its implicit transaction: it leaves the
    session without a transaction and removes that one from the table, while a session
    in an explicit transaction, or in none, is left as it was. *)
Theorem failed_request_cleanup {K} `{TransactionManagerLaws K} (k : K) session ctx :
  let txn := match transaction ctx with
             | Some id => txn_map k !! id
             | None => get_transaction k (transaction_id session)
             end in
  let '(k', session', ctx') := cleanup_failed_request k session ctx in
  match txn with
  | Some t =>
    if txn_mode t then k' = k ∧ session' = session ∧ ctx' = ctx
    else txn_map k' = delete (txn_id t) (txn_map k) ∧ txn_map k' !! txn_id t = None ∧
         transaction_id session' = INVALID_TXN_ID ∧ socket_fd session' = socket_fd session ∧
         transaction ctx' = None ∧ ctx_result ctx' = ctx_result ctx
  | None => k' = k ∧ session' = session ∧ ctx' = ctx
  end.
Proof.
  unfold cleanup_failed_request, finish_session_transaction. cbv zeta.
  destruct (match transaction ctx with Some _ => _ | None => _ end) as [t|]; [|done].
  destruct (txn_mode t); [done|]. rewrite abort_removes. split_and!; try done. apply lookup_delete_eq.
Qed.

Definition one_txn (mode : bool) : TableManager := {[5 := set_state GROWING (set_txn_mode mode (Transaction_make 5 SERIALIZABLE 0))]}.

Lemma one_txn_keyed mode : keyed (one_txn mode).
Proof. intros id t. unfold one_txn. cbn. rewrite lookup_singleton_Some. by intros [<- <-]. Qed.

Lemma failed_request_cleanup_witness :
  let '(k', session', ctx') :=
    cleanup_failed_request (one_txn false) (mkSession 3 5) (mkContext None WireResultSet_default) in
  txn_map k' = ∅ ∧ transaction_id session' = INVALID_TXN_ID.
Proof.
  pose proof (failed_request_cleanup (one_txn false) (mkSession 3 5)
    (mkContext None WireResultSet_default)) as H.
  vm_compute in H. vm_compute. by destruct H as (H1 & _ & H2 & _).
Defined.

(** When a connection ends, no transaction of its session survives: the session
    forgets its id, the table no longer holds it, and every other transaction is
    untouched. *)
Theorem disconnect_releases_transaction {K} `{TransactionManagerLaws K} (k : K) session :
  keyed k →
  let '(k', session') := abort_session_transaction k session in
  transaction_id session' = INVALID_TXN_ID ∧ get_transaction k' (transaction_id session) = None ∧
  ∀ id, id ≠ transaction_id session → txn_map k' !! id = txn_map k !! id.
Proof.
  intros Hk. unfold abort_session_transaction.
  destruct (get_transaction k (transaction_id session)) as [t|] eqn:E; [|done].
  unfold get_transaction in *. destruct (_ =? _); [done|]. rewrite abort_removes.
  rewrite (Hk _ _ E). split_and!; [done|apply lookup_delete_eq|].
  intros id Hid. by apply lookup_delete_ne.
Qed.

Lemma disconnect_releases_transaction_witness :
  let '(k', session') := abort_session_transaction (one_txn true) (mkSession 3 5) in
  transaction_id session' = INVALID_TXN_ID ∧ get_transaction k' 5 = None ∧
  ∀ id, id ≠ 5 → txn_map k' !! id = txn_map (one_txn true) !! id.
Proof. exact (disconnect_releases_transaction (one_txn true) (mkSession 3 5) (one_txn_keyed true)). Defined.

(** ** Invariants of the kernel over a connection *)

Section Invariant.
Context {K : Type} `{TransactionManager K} {Stmt : Type} (parse : bytes → parse_outcome Stmt).
Context (run_statement : K → Z → Context_ → Stmt → run_outcome * K * Z * Context_).
Context (strerror : Z → bytes) (errno_text : string) (I : K → Prop).
Context (abort_keeps : ∀ k id, I k → I (tm_abort k id)).
Context (run_keeps : ∀ k tid sql stmt out k' tid' ctx', I k → parse sql = Parsed stmt →
  run_statement k tid (mkContext None WireResultSet_default) stmt = (out, k', tid', ctx') → I k').

Lemma cleanup_keeps k session ctx : I k → I (cleanup_failed_request k session ctx).1.1.
Proof. intros Hk. unfold cleanup_failed_request. repeat case_match; cbn; auto. Qed.

Lemma execute_sql_keeps k session s sql : I k → I (execute_sql parse run_statement errno_text k session s sql).1.1.2.
Proof.
  intros Hk. unfold execute_sql. cbv zeta.
  assert (∀ fd k session ctx message, I k → I (let '(k, session, _) := cleanup_failed_request k session ctx in
    let '(ok, s) := send_error fd s message in (ok, k, session, s)).1.1.2) as Hcaught.
  { intros fd k0 se ctx message Hk0. pose proof (cleanup_keeps k0 se ctx Hk0) as Hc.
    destruct (cleanup_failed_request k0 se ctx) as [[k1 se1] ctx1]. by destruct (send_error fd s message). }
  destruct (parse sql) as [stmt|msg|] eqn:Ep; [|by apply Hcaught|by apply Hcaught].
  destruct (run_statement _ _ _ stmt) as [[[out k'] tid] ctx] eqn:Er. pose proof (run_keeps _ _ _ _ _ _ _ _ Hk Ep Er) as Hk'.
  destruct out; [by destruct (send_statement_result _ _ _)| |by apply Hcaught|by apply Hcaught].
  destruct (transaction ctx); destruct (WriteFrame _ _ _ _ _); cbn; auto.
Qed.

Lemma handle_request_keeps k session s request :
  I k → I (handle_request parse run_statement errno_text k session s request).1.1.2.
Proof.
  intros Hk. unfold handle_request. case_match; [by destruct (send_error _ _ _)|].
  case_match; [by destruct (send_error _ _ _)|]. by apply execute_sql_keeps.
Qed.

Lemma request_loop_keeps fuel k session s r :
  I k → request_loop parse run_statement strerror errno_text fuel k session s = Some r → I r.1.1.
Proof.
  revert k session s. induction fuel as [|fuel IH]; intros k session s Hk; cbn [request_loop]; [done|].
  destruct (ReadFrame _ _ _) as [[[] request] s1]; [|by intros [= <-]].
  pose proof (handle_request_keeps k session s1 request Hk) as Hr.
  destruct (handle_request _ _ _ _ _ _ _) as [[[[] k1] se1] s2]; [by apply IH|by intros [= <-]].
Qed.

Lemma handle_client_keeps k fd s : I k → I (handle_client parse run_statement strerror errno_text k fd s).1.1.
Proof.
  intros Hk. assert (∀ k session, I k → I (abort_session_transaction k session).1) as Ha.
  { intros k0 se Hk0. unfold abort_session_transaction. case_match; cbn; auto. }
  assert (∀ p : K * ClientSession * Sock, I p.1.1 →
    I (let '(k, session, s) := p in let '(k, session) := abort_session_transaction k session in (k, session, s)).1.1) as Hend.
  { intros [[k0 se] s0] Hk0. pose proof (Ha k0 se Hk0) as H0. by destruct (abort_session_transaction k0 se). }
  unfold handle_client. destruct (ReadAndCheckHandshake _ _ _) as [[] s1]; [|by apply (Hend (k, mkSession fd INVALID_TXN_ID, s1))].
  apply Hend. destruct (request_loop _ _ _ _ _ _ _ _) as [r|] eqn:E; [|done]. by eapply request_loop_keeps.
Qed.
End Invariant.
