(* ===== verification/System.v ===== *)
(** * The system manager: files and catalog together

    Models [src/src/record/rm_manager.h], the file operations of
    [src/src/index/index_manager.cpp] with the constructor of [BPlusTree], and
    [src/src/system/sm_manager.cpp]: the DDL and the utility statements that are
    implemented.  Everything runs against the storage interface of [Disk]. *)

From S2P Require Import Prelude Common Catalog Planner Record IndexFile Disk Server.
Import Result.

(** ** [RmManager] *)

Record RmFileHandle := mkFh { fh_fd : Z; file_hdr : RmFileHdr }.

(** The header as [write_page] sees it: five 32-bit integers. *)
Definition file_hdr_bytes (h : RmFileHdr) : bytes :=
  int_bytes (record_size h) ++ int_bytes (num_pages h) ++ int_bytes (num_records_per_page h) ++
  int_bytes (first_free_page_no h) ++ int_bytes (bitmap_size h).

Definition sizeof_RmFileHdr : Z := 20.

Definition int_at (bs : bytes) (off : Z) : Z := s32 (le_combine (ztake 4 (zdrop off bs))).

Definition file_hdr_of (bs : bytes) : RmFileHdr :=
  mkFileHdr (int_at bs 0) (int_at bs 4) (int_at bs 8) (int_at bs 12) (int_at bs 16).

Section RmManager.
Context {D : Type} `{Storage D}.

Definition rm_create_file (filename : string) (record_size : Z) : M D unit :=
  _ ← lift (throw_if ((record_size <? 1) || (RM_MAX_RECORD_SIZE <? record_size)) (InvalidRecordSizeError record_size));
  _ ← create_file filename;
  fd ← open_file filename;
  file_hdr ← lift (new_file_hdr record_size);
  _ ← write_page fd RM_FILE_HDR_PAGE (file_hdr_bytes file_hdr);
  close_file fd.

Definition rm_destroy_file (filename : string) : M D unit := destroy_file filename.

(** [RmFileHandle]'s constructor reads the header; there is no handler around it. *)
Definition rm_open_file (filename : string) : M D RmFileHandle :=
  fd ← open_file filename;
  bs ← read_page fd RM_FILE_HDR_PAGE sizeof_RmFileHdr;
  _ ← set_fd2pageno fd (num_pages (file_hdr_of bs));
  mret (mkFh fd (file_hdr_of bs)).

Definition rm_close_file (h : RmFileHandle) : M D unit :=
  _ ← write_page (fh_fd h) RM_FILE_HDR_PAGE (file_hdr_bytes (file_hdr h));
  _ ← discard_file_pages (fh_fd h);
  close_file (fh_fd h).

(** ** [IndexManager] *)

Record BPlusTree := mkTree { tree_fd : Z; tree_header : IndexFileHeader }.

Definition index_file (index : IndexMeta) : string := make_index_name (idx_tab index) (col_name <$> idx_cols index).

Definition create_index (index : IndexMeta) : M D unit :=
  file_header ← lift (new_index_header index);
  header_data ← lift (serialize file_header (Some (replicate (Z.to_nat (serialized_size_ file_header)) Byte.x00)));
  _ ← create_file (index_file index);
  fd ← open_file (index_file index);
  _ ← write_page fd INDEX_FILE_HEADER_PAGE header_data;
  _ ← write_page fd INDEX_LEAF_HEADER_PAGE (page_bytes leaf_header_page);
  _ ← write_page fd INDEX_INITIAL_ROOT_PAGE (page_bytes root_page);
  _ ← set_fd2pageno fd INDEX_INITIAL_PAGE_COUNT;
  close_file fd.

Definition destroy_index (table_name : string) (index_columns : list string) : M D unit :=
  destroy_file (make_index_name table_name index_columns).

(** [BPlusTree::BPlusTree] *)
Definition new_tree (fd : Z) : M D BPlusTree :=
  buf ← read_page fd INDEX_FILE_HEADER_PAGE PAGE_SIZE;
  file_header ← lift (deserialize (Some buf) PAGE_SIZE);
  file_size ← get_file_size fd;
  _ ← lift (throw_if (file_size <? 0) (InternalError "BPlusTree: cannot stat index file"));
  let physical_pages := Z.quot file_size PAGE_SIZE + (if Z.rem file_size PAGE_SIZE =? 0 then 0 else 1) in
  _ ← lift (throw_if (INT_MAX <? physical_pages) (InternalError "BPlusTree: index file is too large"));
  _ ← set_fd2pageno fd (Z.max (page_count_ file_header) physical_pages);
  mret (mkTree fd file_header).

Definition open_index (table_name : string) (index_columns : list string) : M D BPlusTree :=
  fd ← open_file (make_index_name table_name index_columns);
  catch_rethrow (new_tree fd) (close_file fd).

Definition close_index (t : BPlusTree) : M D unit :=
  header_data ← lift (serialize (tree_header t)
                        (Some (replicate (Z.to_nat (serialized_size_ (tree_header t))) Byte.x00)));
  _ ← write_page (tree_fd t) INDEX_FILE_HEADER_PAGE header_data;
  _ ← discard_file_pages (tree_fd t);
  close_file (tree_fd t).

(** ** [SmManager] *)

(** [db_], [fhs_] by table name and [indexes_] by file name; [sm_disk] is what the managers
    behind the pointers share. *)
Record SmManager := mkSm {
  sm_db : DbMeta; sm_fhs : gmap string RmFileHandle; sm_indexes : gmap string BPlusTree; sm_disk : D }.

Definition on_disk {A} (m : M D A) : M SmManager A := λ s,
  let '(r, d) := m (sm_disk s) in (r, mkSm (sm_db s) (sm_fhs s) (sm_indexes s) d).

Definition get_sm : M SmManager SmManager := λ s, (Ok s, s).
Definition set_db (db : DbMeta) : M SmManager unit := λ s, (Ok tt, mkSm db (sm_fhs s) (sm_indexes s) (sm_disk s)).
Definition set_fhs (fhs : gmap string RmFileHandle) : M SmManager unit := λ s, (Ok tt, mkSm (sm_db s) fhs (sm_indexes s) (sm_disk s)).

(** The JSON text of a catalog, as in [Catalog]. *)
Context (dump : Json → bytes).

Definition write_meta_file (db : DbMeta) : M SmManager unit := on_disk (write_meta (print_db dump db)).

Definition flush_meta : M SmManager unit := s ← get_sm; write_meta_file (sm_db s).

(** The validation loop over the column definitions: the record size. *)
Fixpoint check_defs (col_defs : list ColDef) (col_names : list string) (record_size : Z) : result Z :=
  match col_defs with
  | [] => Ok record_size
  | mkDef name type len :: col_defs =>
    _ ← throw_if (bool_decide (name ∈ col_names)) (ColumnExistsError name);
    let fixed_length_mismatch := match type with TYPE_STRING => false | _ => negb (len =? 4) end in
    _ ← throw_if ((len <=? 0) || fixed_length_mismatch) (InvalidColLengthError len);
    _ ← throw_if (RM_MAX_RECORD_SIZE <? len) (InvalidRecordSizeError len);
    let next_record_size := record_size + len in
    _ ← throw_if (RM_MAX_RECORD_SIZE <? next_record_size) (InvalidRecordSizeError next_record_size);
    check_defs col_defs (col_names ++ [name]) next_record_size
  end.

(** The columns, one after the other. *)
Fixpoint layout_cols (tab_name : string) (col_defs : list ColDef) (curr_offset : Z) : list ColMeta :=
  match col_defs with
  | [] => []
  | mkDef name type len :: col_defs =>
    mkCol tab_name name type len curr_offset false :: layout_cols tab_name col_defs (curr_offset + len)
  end.

(** The handler of [create_table]. *)
Definition undo_create_table (tab_name : string) : M SmManager unit :=
  s ← get_sm;
  _ ← match sm_fhs s !! tab_name with
      | Some handle => _ ← on_disk (rm_close_file handle); set_fhs (delete tab_name (sm_fhs s))
      | None => mret tt
      end;
  on_disk (rm_destroy_file tab_name).

Definition create_table (tab_name : string) (col_defs : list ColDef) : M SmManager unit :=
  s ← get_sm;
  _ ← lift (throw_if (is_table (sm_db s) tab_name) (TableExistsError tab_name));
  _ ← lift (throw_if (bool_decide (is_Some (sm_fhs s !! tab_name))) (InternalError ("Record handle already exists: " +:+ tab_name)));
  _ ← lift (throw_if (bool_decide (length col_defs = 0%nat)) (InvalidRecordSizeError 0));
  record_size ← lift (check_defs col_defs [] 0);
  let tab := mkTab tab_name (layout_cols tab_name col_defs 0) [] in
  let next_db := mkDb (db_name (sm_db s)) (<[tab_name := tab]> (tabs (sm_db s))) in
  _ ← on_disk (rm_create_file tab_name record_size);
  catch_rethrow
    (handle ← on_disk (rm_open_file tab_name);
     _ ← set_fhs (<[tab_name := handle]> (sm_fhs s));
     _ ← write_meta_file next_db;
     set_db next_db)
    (undo_create_table tab_name).

End RmManager.
Arguments SmManager D : clear implicits.

(** ** Utility results *)

Definition string_cell (value : bytes) : WireResultCell := mkRCell TYPE_STRING 0 0 value.

Fixpoint add_string_rows (rows : list (list bytes)) : M WireResultSet unit :=
  match rows with
  | [] => mret tt
  | values :: rows => _ ← (λ r, add_row r (string_cell <$> values)); add_string_rows rows
  end.

Definition set_string_result (column_names : list bytes) (row_values : list (list bytes)) : M WireResultSet unit :=
  _ ← (λ r, set_columns r ((λ n, mkColumn n TYPE_STRING) <$> column_names));
  add_string_rows row_values.

Definition show_database (db : DbMeta) : M WireResultSet unit :=
  set_string_result [str "Database"] [[str (db_name db)]].

Definition show_tables (db : DbMeta) : M WireResultSet unit :=
  set_string_result [str "Tables"] ((λ p, [str (tab_name p.2)]) <$> ordered_tabs db).

Definition desc_table (db : DbMeta) (tab_name : string) : M WireResultSet unit :=
  tab ← lift (get_table db tab_name);
  set_string_result [str "Field"; str "Type"; str "Index"]
    ((λ c, [str (col_name c); str (coltype2str (col_type c)); if col_index c then str "YES" else str "NO"]) <$> tab_cols tab).

(** ** Database names *)

Fixpoint has_slash (s : string) : bool :=
  match s with
  | EmptyString => false
  | String c s => bool_decide (String c "" = "/"%string) || has_slash s
  end.

(** [database_path]: a name that is one component of a path; on this platform a path is
    equal to its [filename()] exactly when it has no separator. *)
Definition database_path (db_name : string) : result string :=
  _ ← throw_if (bool_decide (db_name = ""%string) || has_slash db_name || bool_decide (db_name = "."%string) ||
                bool_decide (db_name = ".."%string))
        (BaseError ("Invalid database name: " +:+ db_name));
  Ok db_name.
