(* ===== verification/SystemFacts.v ===== *)
(** * Correctness of the system manager

    CREATE TABLE changes the catalog, the handles, the files and [db.meta] together or
    not at all, index files can be opened after they are created, and the utility
    statements return what the catalog holds. *)

From S2P Require Import Prelude Common Catalog CatalogFacts Planner Record RecordFacts IndexFile IndexFacts Disk Server System.
Import Result.

Lemma bind_run {D A B} (m : M D A) (f : A → M D B) d :
  (m ≫= f) d = match m d with
               | (Ok a, d) => f a d | (Throw e, d) => (Throw e, d) | (Crash, d) => (Crash, d) end.
Proof. done. Qed.

(** ** The record file header *)

Lemma int_at_app a z b : is_s32 z → int_at (a ++ int_bytes z ++ b) (zlen a) = z.
Proof.
  intros Hz. unfold int_at. rewrite zdrop_app_exact by done. rewrite ztake_app_exact by apply int_bytes_length.
  unfold int_bytes. rewrite le_combine_split. change (8 * Z.of_nat 4) with 32. rewrite Z.mod_small by apply u32_range.
  by apply s32_u32.
Qed.

Definition file_hdr_ok (h : RmFileHdr) : Prop :=
  Forall is_s32 [record_size h; num_pages h; num_records_per_page h; first_free_page_no h; bitmap_size h].

Lemma file_hdr_roundtrip h rest : file_hdr_ok h → file_hdr_of (file_hdr_bytes h ++ rest) = h.
Proof.
  intros H. unfold file_hdr_ok in H. repeat (apply Forall_cons in H as [? H]). destruct h as [a b c d e]. cbn in *.
  unfold file_hdr_of, file_hdr_bytes. cbn [record_size num_pages num_records_per_page first_free_page_no bitmap_size].
  assert (∀ pre z post off, is_s32 z → off = zlen pre → int_at (pre ++ int_bytes z ++ post) off = z) as Hat
    by (intros pre z post off Hz ->; by apply int_at_app).
  rewrite <- !app_assoc. f_equal.
  - by apply (Hat []).
  - by apply Hat.
  - rewrite (app_assoc (int_bytes a)). by apply Hat.
  - rewrite (app_assoc (int_bytes a)), (app_assoc (int_bytes a ++ _)). by apply Hat.
  - rewrite (app_assoc (int_bytes a)), (app_assoc (int_bytes a ++ _)), (app_assoc ((int_bytes a ++ _) ++ _)). by apply Hat.
Qed.

Lemma file_hdr_bytes_length h : zlen (file_hdr_bytes h) = 20.
Proof. unfold file_hdr_bytes. by autorewrite with ldb. Qed.

Lemma new_file_hdr_total rs : 1 ≤ rs ≤ RM_MAX_RECORD_SIZE → ∃ hdr, new_file_hdr rs = Ok hdr.
Proof.
  unfold new_file_hdr, RM_MAX_RECORD_SIZE. intros H. zbool. cbn [orb throw_if]. step_ok.
  assert (0 ≤ first_guess rs).
  { unfold first_guess, PAGE_SIZE, OFFSET_PAGE_HDR, sizeof_RmPageHdr. rewrite Z.quot_div_nonneg by lia. apply Z.div_pos; lia. }
  destruct (layout_loop_spec (S (Z.to_nat (first_guess rs))) (first_guess rs) rs) as (m & -> & _); [lia|lia|lia|]. by eexists.
Qed.

Lemma new_file_hdr_ok rs hdr : new_file_hdr rs = Ok hdr → file_hdr_ok hdr.
Proof.
  intros H. unfold new_file_hdr in H. apply bind_ok in H as ([] & Hr & H). apply throw_if_ok in Hr. split_bools.
  unfold RM_MAX_RECORD_SIZE in *. assert (0 ≤ first_guess rs ≤ 4084) as Hg.
  { unfold first_guess, PAGE_SIZE, OFFSET_PAGE_HDR, sizeof_RmPageHdr. rewrite Z.quot_div_nonneg by lia.
    split; [apply Z.div_pos; lia|]. apply Z.div_le_upper_bound; nia. }
  destruct (layout_loop_spec (S (Z.to_nat (first_guess rs))) (first_guess rs) rs) as (m & Hm & Hb & _); [lia|lia|lia|].
  rewrite Hm in H. injection H as <-. assert (0 ≤ bitmap_bytes m ≤ 4096) as Hbm.
  { unfold bitmap_bytes, Bitmap.BITMAP_WIDTH. rewrite Z.quot_div_nonneg by lia.
    split; [apply Z.div_pos; lia|]. apply Z.div_le_upper_bound; lia. }
  unfold file_hdr_ok. cbn. assert (∀ z, -1 ≤ z ≤ 9000 → is_s32 z) as Hs by (unfold is_s32; intros; lia).
  unfold RM_FIRST_RECORD_PAGE, RM_NO_PAGE. repeat (apply Forall_cons; split; [apply Hs; lia|]). constructor.
Qed.

(** ** Files under a reliable storage layer *)

Lemma file_bytes_ge (f : file) n bs : f !! n = Some bs → n * PAGE_SIZE + zlen bs ≤ file_bytes f.
Proof.
  intros Hn%elem_of_map_to_list. unfold file_bytes. induction (map_to_list f) as [|[k x] l IH]; [by apply elem_of_nil in Hn|].
  cbn [fmap list_fmap foldr]. apply elem_of_cons in Hn as [[= <- <-]|Hn]; [lia|]. specialize (IH Hn). lia.
Qed.

Section Files.
Context {D : Type} `{Reliable D}.

(** Open descriptors belong to files that exist. *)
Definition open_exist (d : D) : Prop := ∀ fd p, opened d !! fd = Some p → is_Some (files d !! p).

Lemma not_open d p : open_exist d → files d !! p = None → ∀ fd, opened d !! fd ≠ Some p.
Proof. intros Ho Hn fd Hfd. destruct (Ho fd p Hfd). congruence. Qed.

(** A new record file holds its header page and is closed again; a failed attempt
    changes nothing. *)
Lemma rm_create_file_spec tab rs d r d' :
  open_exist d → 1 ≤ rs ≤ RM_MAX_RECORD_SIZE → rm_create_file tab rs d = (r, d') →
  opened d' = opened d ∧ meta d' = meta d ∧
  match r with
  | Ok _ => ∃ hdr, new_file_hdr rs = Ok hdr ∧ files d !! tab = None ∧
      files d' = <[tab := {[RM_FILE_HDR_PAGE := file_hdr_bytes hdr]}]> (files d)
  | Throw _ => files d' = files d
  | Crash => False
  end.
Proof.
  intros Ho Hrs. unfold rm_create_file. rewrite bind_run. unfold lift at 1. unfold RM_MAX_RECORD_SIZE in *. zbool.
  cbn [orb throw_if]. rewrite bind_run. destruct (create_file tab d) as [r1 d1] eqn:E1.
  apply create_law in E1 as (Ho1 & Hm1 & Hf1). destruct r1 as [[]|e|]; [|intros [= <- <-]; done|done].
  destruct Hf1 as [Hnone Hf1].
  destruct (open_works tab d1) as (fd & d2 & E2).
  { rewrite Hf1, lookup_insert_eq. done. } { rewrite Ho1. by apply not_open. }
  rewrite bind_run, E2. apply open_law in E2 as (Hf2 & Hm2 & _ & _ & _ & Hfd & Ho2). rewrite bind_run. unfold lift at 1.
  destruct (new_file_hdr_total rs) as [hdr Eh]; [done|]. rewrite Eh.
  rewrite bind_run.
  destruct (write_works fd tab RM_FILE_HDR_PAGE (file_hdr_bytes hdr) d2) as (d3 & E3); [done|by rewrite file_hdr_bytes_length|..].
  { by rewrite Ho2, lookup_insert_eq. } { by rewrite Hf2, Hf1, lookup_insert_eq. }
  rewrite E3. apply write_law in E3 as (Ho3 & Hm3 & p & f & Hp & Hpf & Hf3); [|done|by rewrite file_hdr_bytes_length]. rewrite Ho2, lookup_insert_eq in Hp. injection Hp as <-.
  rewrite Hf2, Hf1, lookup_insert_eq in Hpf. injection Hpf as <-.
  destruct (close_works fd d3) as (d4 & E4). { by rewrite Ho3, Ho2, lookup_insert_eq. }
  rewrite E4. intros [= <- <-]. apply close_law in E4 as (Hf4 & Hm4 & _ & Ho4). split_and!.
  - rewrite Ho4, Ho3, Ho2, Ho1. rewrite delete_insert_id; [done|]. by rewrite <- Ho1.
  - congruence.
  - exists hdr. split_and!; [done|done|]. rewrite Hf4, Hf3, Hf2, Hf1, insert_insert_eq. unfold page_of.
    rewrite lookup_empty. cbn. unfold overwrite. rewrite zdrop_nil, app_nil_r. done.
Qed.

(** Opening a record file gives a handle with the header of its page 0. *)
Lemma rm_open_file_spec tab hdr d :
  files d !! tab = Some {[RM_FILE_HDR_PAGE := file_hdr_bytes hdr]} → file_hdr_ok hdr →
  (∀ fd, opened d !! fd ≠ Some tab) →
  ∃ h d', rm_open_file tab d = (Ok h, d') ∧ file_hdr h = hdr ∧ files d' = files d ∧ meta d' = meta d ∧
    opened d !! fh_fd h = None ∧ opened d' = <[fh_fd h := tab]> (opened d).
Proof.
  intros Hf Hh Hno. unfold rm_open_file. rewrite bind_run.
  destruct (open_works tab d) as (fd & d1 & E1); [by rewrite Hf|done|]. rewrite E1.
  apply open_law in E1 as (Hf1 & Hm1 & _ & _ & _ & Hfd & Ho1). rewrite bind_run.
  destruct (read_works fd tab {[RM_FILE_HDR_PAGE := file_hdr_bytes hdr]} RM_FILE_HDR_PAGE sizeof_RmFileHdr d1) as (bs & d2 & E2); [done|done|..].
  { by rewrite Ho1, lookup_insert_eq. } { by rewrite Hf1, Hf. }
  { pose proof (file_bytes_ge _ _ _ (lookup_singleton_eq (M := gmap Z) RM_FILE_HDR_PAGE (file_hdr_bytes hdr))) as Hge. by rewrite file_hdr_bytes_length in Hge. }
  rewrite E2. apply read_law in E2 as (Hf2 & Ho2 & Hm2 & p & f & Hp & Hpf & _ & ->); [|done|done]. rewrite Ho1, lookup_insert_eq in Hp.
  injection Hp as <-. rewrite Hf1, Hf in Hpf. injection Hpf as <-.
  assert (file_hdr_of (padded sizeof_RmFileHdr (page_of {[RM_FILE_HDR_PAGE := file_hdr_bytes hdr]} RM_FILE_HDR_PAGE)) = hdr) as Hhdr.
  { unfold page_of, padded. rewrite lookup_singleton_eq. cbn [default]. rewrite ztake_app_exact by apply file_hdr_bytes_length.
    rewrite <- (app_nil_r (file_hdr_bytes hdr)). by apply file_hdr_roundtrip. }
  rewrite bind_run. destruct (set_pageno_law fd (num_pages hdr) d2) as (d3 & E3 & Hf3 & Ho3 & Hm3). rewrite Hhdr, E3.
  eexists _, d3. split; [done|]. cbn [file_hdr fh_fd]. split_and!; congruence.
Qed.

(** Closing it gives the descriptor back; only its own file may change. *)
Lemma rm_close_file_spec tab h d :
  opened d !! fh_fd h = Some tab → is_Some (files d !! tab) →
  ∃ d', rm_close_file h d = (Ok tt, d') ∧ opened d' = delete (fh_fd h) (opened d) ∧ meta d' = meta d ∧
    dom (files d') = dom (files d) ∧ ∀ q, q ≠ tab → files d' !! q = files d !! q.
Proof.
  intros Ho Hf. unfold rm_close_file. rewrite bind_run.
  destruct (write_works (fh_fd h) tab RM_FILE_HDR_PAGE (file_hdr_bytes (file_hdr h)) d) as (d1 & E1); [done|by rewrite file_hdr_bytes_length|done|done|].
  rewrite E1. apply write_law in E1 as (Ho1 & Hm1 & p & f & Hp & Hpf & Hf1); [|done|by rewrite file_hdr_bytes_length]. assert (p = tab) as -> by congruence. rewrite bind_run.
  destruct (discard_works (fh_fd h) d1) as (d2 & E2). rewrite E2. apply discard_law in E2 as (Ho2 & Hm2 & Hd2 & _ & Hf2).
  destruct (close_works (fh_fd h) d2) as (d3 & E3). { by rewrite Ho2, Ho1, Ho. }
  exists d3. rewrite E3. apply close_law in E3 as (Hf3 & Hm3 & _ & Ho3). split_and!.
  - done.
  - congruence.
  - congruence.
  - rewrite Hf3, Hd2, Hf1. rewrite dom_insert_lookup_L; [done|]. by rewrite Hpf.
  - intros q Hq. rewrite Hf3, Hf2 by (rewrite Ho1, Ho; congruence). by rewrite Hf1, lookup_insert_ne by done.
Qed.
End Files.

(** ** Column definitions *)

Lemma check_defs_spec defs : ∀ seen off rs tab,
  check_defs defs seen off = Ok rs → 0 ≤ off ≤ RM_MAX_RECORD_SIZE → Forall (λ d, def_name d ≠ ""%string) defs →
  let cols := layout_cols tab defs off in
  laid_out tab off cols ∧ (∀ n, n ∈ names cols → n ∉ seen) ∧ NoDup (names cols) ∧ off ≤ rs ≤ RM_MAX_RECORD_SIZE ∧
  (defs ≠ [] → off < rs).
Proof.
  induction defs as [|[name type len] defs IH]; intros seen off rs tab H Hoff Hne; cbn [check_defs layout_cols] in *.
  { injection H as <-. cbn. split_and!; try done; [lia| |constructor|lia]. intros n Hn. by apply elem_of_nil in Hn. }
  apply Forall_cons in Hne as [Hn Hne]. cbn in Hn. cbv zeta in H.
  repeat (apply bind_ok in H as ([] & ?E & H)). repeat match goal with X : throw_if _ _ = Ok _ |- _ => apply throw_if_ok in X end.
  split_bools. destruct (IH _ _ _ tab H) as (Hl & Hs & Hnd & Hb & _); [lia|done|]. cbv zeta.
  unfold names. rewrite fmap_cons. fold (names (layout_cols tab defs (off + len))). cbn [col_name laid_out col_tab col_offset col_len].
  split_and!; try done; try lia.
  - unfold column_invalid. cbn [col_name col_len col_type]. rewrite bool_decide_false by done. zbool.
    destruct type; split_bools; subst; done.
  - intros n [-> | Hin]%elem_of_cons; [done|]. intros Hseen. apply (Hs n Hin), elem_of_app. by left.
  - constructor; [|done]. intros Hin. apply (Hs name Hin), elem_of_app. right. by apply list_elem_of_singleton.
Qed.

(** A table the validation accepts is well formed. *)
Lemma new_table_wf tab defs rs :
  tab ≠ ""%string → Forall (λ d, def_name d ≠ ""%string) defs → defs ≠ [] → check_defs defs [] 0 = Ok rs →
  tab_wf (mkTab tab (layout_cols tab defs 0) []) ∧ 1 ≤ rs ≤ RM_MAX_RECORD_SIZE.
Proof.
  intros Ht Hn Hd Hc. destruct (check_defs_spec defs [] 0 rs tab Hc) as (Hl & _ & Hnd & Hb & Hpos); [unfold RM_MAX_RECORD_SIZE; lia|done|].
  specialize (Hpos Hd). split; [|lia]. unfold tab_wf. cbn [tab_name tab_cols tab_indexes]. split_and!; try done.
  - destruct defs as [|[? ? ?] ?]; done.
  - clear. generalize 0. induction defs as [|[name type len] defs IH]; intros off; cbn [layout_cols]; constructor; [|apply IH].
    cbn. by rewrite bool_decide_false by set_solver.
  - constructor.
Qed.

Lemma check_defs_range defs seen off :
  0 ≤ off ≤ RM_MAX_RECORD_SIZE →
  match check_defs defs seen off with
  | Ok rs => off ≤ rs ≤ RM_MAX_RECORD_SIZE ∧ (defs ≠ [] → off < rs) | Throw _ => True | Crash => False end.
Proof.
  revert seen off. induction defs as [|[name type len] defs IH]; intros seen off Hoff; cbn [check_defs]; [split; [lia|done]|]. cbv zeta.
  destruct (bool_decide _); [done|]. cbn [throw_if]. step_ok.
  destruct (_ || _) eqn:E1; [done|]. cbn [throw_if]. step_ok.
  destruct (_ <? len) eqn:E2; [done|]. cbn [throw_if]. step_ok.
  destruct (_ <? off + len) eqn:E3; [done|]. cbn [throw_if]. step_ok.
  split_bools. specialize (IH (seen ++ [name]) (off + len)). destruct (check_defs defs _ _); [|done|apply IH; lia].
  destruct IH as [? _]; [lia|]. split; [lia|]. intros _. lia.
Qed.

Section CreateTable.
Context {D : Type} `{Reliable D} (dump : Json → bytes).

(** The handler undoes everything the body did. *)
Lemma undo_create_table_spec tab h s d0 fhs0 :
  sm_fhs s = <[tab := h]> fhs0 → fhs0 !! tab = None →
  opened (sm_disk s) = <[fh_fd h := tab]> (opened d0) → opened d0 !! fh_fd h = None → (∀ fd, opened d0 !! fd ≠ Some tab) →
  files d0 !! tab = None → (∃ f, files (sm_disk s) = <[tab := f]> (files d0)) →
  ∃ d', undo_create_table tab s = (Ok tt, mkSm (sm_db s) fhs0 (sm_indexes s) d') ∧
    files d' = files d0 ∧ opened d' = opened d0 ∧ meta d' = meta (sm_disk s).
Proof.
  intros Hfhs Hnew Hop Hfd Hno Hnone [f Hf]. unfold undo_create_table. rewrite bind_run. unfold get_sm at 1.
  rewrite Hfhs, lookup_insert_eq, bind_run, bind_run. unfold on_disk at 1.
  destruct (rm_close_file_spec tab h (sm_disk s)) as (d1 & E1 & Ho1 & Hm1 & Hd1 & Hf1).
  { by rewrite Hop, lookup_insert_eq. } { by rewrite Hf, lookup_insert_eq. }
  rewrite E1. cbn [set_fhs sm_db sm_fhs sm_indexes sm_disk]. unfold on_disk, rm_destroy_file. cbn [sm_disk sm_db sm_fhs sm_indexes].
  assert (opened d1 = opened d0) as Hod by (rewrite Ho1, Hop; by apply delete_insert_id).
  destruct (destroy_works tab d1) as (d2 & E2).
  { apply elem_of_dom. rewrite Hd1, Hf, dom_insert_L. set_solver. } { by rewrite Hod. }
  rewrite E2. apply destroy_law in E2 as (Ho2 & Hm2 & _ & Hf2). exists d2. split_and!.
  - by rewrite delete_insert_id.
  - rewrite Hf2. apply map_eq. intros q. destruct (decide (q = tab)) as [->|Hq]; [by rewrite lookup_delete_eq|].
    rewrite lookup_delete_ne, Hf1, Hf, lookup_insert_ne by done. done.
  - congruence.
  - congruence.
Qed.

(** The catalog with the new table. *)
Definition with_table (tab : string) (defs : list ColDef) (db : DbMeta) : DbMeta :=
  mkDb (db_name db) (<[tab := mkTab tab (layout_cols tab defs 0) []]> (tabs db)).

Lemma create_table_spec tab defs (s : SmManager D) r s' :
  open_exist (sm_disk s) → create_table dump tab defs s = (r, s') →
  match r with
  | Ok _ => ∃ rs hdr h, check_defs defs [] 0 = Ok rs ∧ defs ≠ [] ∧ tabs (sm_db s) !! tab = None ∧
      new_file_hdr rs = Ok hdr ∧ file_hdr h = hdr ∧
      sm_db s' = with_table tab defs (sm_db s) ∧
      sm_fhs s' = <[tab := h]> (sm_fhs s) ∧ sm_indexes s' = sm_indexes s ∧
      files (sm_disk s') = <[tab := {[RM_FILE_HDR_PAGE := file_hdr_bytes hdr]}]> (files (sm_disk s)) ∧
      opened (sm_disk s') = <[fh_fd h := tab]> (opened (sm_disk s)) ∧
      meta (sm_disk s') = Some (print_db dump (sm_db s'))
  | Throw e => sm_db s' = sm_db s ∧ sm_fhs s' = sm_fhs s ∧ sm_indexes s' = sm_indexes s ∧
      files (sm_disk s') = files (sm_disk s) ∧ opened (sm_disk s') = opened (sm_disk s) ∧
      (meta (sm_disk s') = meta (sm_disk s) ∨
       ∃ d1 d2, write_meta (print_db dump (with_table tab defs (sm_db s))) d1 = (Throw e, d2) ∧ meta (sm_disk s') = meta d2)
  | Crash => False
  end.
Proof.
  intros Hoe. destruct s as [db fhs ixs d]. unfold create_table. rewrite bind_run. unfold get_sm at 1. cbn [sm_db sm_fhs sm_indexes sm_disk] in *.
  rewrite bind_run. unfold lift at 1. destruct (is_table db tab) eqn:Et; cbn [throw_if]; [intros [= <- <-]; by auto 10|].
  rewrite bind_run. unfold lift at 1. destruct (bool_decide (is_Some (fhs !! tab))) eqn:Ef; cbn [throw_if]; [intros [= <- <-]; by auto 10|].
  rewrite bind_run. unfold lift at 1. destruct (bool_decide (length defs = 0%nat)) eqn:Ed; cbn [throw_if]; [intros [= <- <-]; by auto 10|].
  unfold is_table in Et. split_bools. apply eq_None_not_Some in Et, Ef.
  assert (defs ≠ []) as Hne by (intros ->; done).
  rewrite bind_run. unfold lift at 1. destruct (check_defs defs [] 0) as [rs|e|] eqn:Ec; [|intros [= <- <-]; by auto 10|].
  2: { pose proof (check_defs_range defs [] 0) as Hr. rewrite Ec in Hr. exfalso. apply Hr. unfold RM_MAX_RECORD_SIZE. lia. }
  pose proof (check_defs_range defs [] 0) as Hr. rewrite Ec in Hr. destruct Hr as [Hrange Hpos]; [unfold RM_MAX_RECORD_SIZE; lia|].
  specialize (Hpos Hne). cbv zeta. rewrite bind_run. unfold on_disk at 1. cbn [sm_db sm_fhs sm_indexes sm_disk].
  destruct (rm_create_file tab rs d) as [r1 d1] eqn:E1.
  apply rm_create_file_spec in E1 as (Ho1 & Hm1 & Hf1); [|done|lia].
  destruct r1 as [[]|e|]; [|intros [= <- <-]; cbn [sm_db sm_fhs sm_indexes sm_disk]; by auto 10|done]. destruct Hf1 as (hdr & Hhdr & Hnone & Hf1).
  assert (∀ fd, opened d !! fd ≠ Some tab) as Hno by (by apply not_open).
  destruct (rm_open_file_spec tab hdr d1) as (h & d2 & E2 & Hh & Hf2 & Hm2 & Hfd & Ho2).
  { by rewrite Hf1, lookup_insert_eq. } { by eapply new_file_hdr_ok. } { by rewrite Ho1. }
  rewrite Ho1 in Ho2, Hfd. unfold catch_rethrow. rewrite bind_run. unfold on_disk at 1. cbn [sm_db sm_fhs sm_indexes sm_disk]. rewrite E2.
  rewrite bind_run. unfold set_fhs at 1. cbn [sm_db sm_fhs sm_indexes sm_disk]. rewrite bind_run. unfold write_meta_file, on_disk at 1.
  cbn [sm_db sm_fhs sm_indexes sm_disk]. destruct (write_meta _ d2) as [r3 d3] eqn:E3. pose proof (meta_law _ _ _ _ E3) as (Hf3 & Ho3 & Hm3).
  destruct r3 as [[]|e|]; [| |done].
  - intros [= <- <-]. cbn [sm_db sm_fhs sm_indexes sm_disk]. exists rs, hdr, h. split_and!; try done; congruence.
  - destruct (undo_create_table_spec tab h (mkSm db (<[tab := h]> fhs) ixs d3) d fhs) as (d4 & E4 & Hf4 & Ho4 & Hm4); cbn [sm_db sm_fhs sm_indexes sm_disk]; try done.
    { congruence. } { eexists. by rewrite Hf3, Hf2, Hf1. }
    rewrite E4. intros [= <- <-]. cbn [sm_db sm_fhs sm_indexes sm_disk]. split_and!; try done. right. by exists d2, d3.
Qed.
End CreateTable.

(** C13. CREATE TABLE is atomic in memory and in the table files, on a disk without I/O
    failures ([Reliable]; on a failing one see [create_table_leaves_file]): when it throws
    (a name in use, an invalid column list, a file that exists, a metadata file that cannot
    be written), catalog, handles, files and descriptors are as before, and so is [db.meta],
    unless writing it was what failed: then it is what that attempt left.  When it returns,
    the table is in the catalog and in [db.meta], its handle is open on a new file whose
    page 0 is the header for the record size, and a well-formed catalog stays well formed
    for non-empty names. *)
Theorem create_table_atomic {D} `{Reliable D} dump tab defs (s : SmManager D) r s' :
  open_exist (sm_disk s) → create_table dump tab defs s = (r, s') →
  match r with
  | Ok _ => ∃ rs hdr h, check_defs defs [] 0 = Ok rs ∧ new_file_hdr rs = Ok hdr ∧ file_hdr h = hdr ∧
      sm_db s' = with_table tab defs (sm_db s) ∧
      sm_fhs s' = <[tab := h]> (sm_fhs s) ∧ sm_indexes s' = sm_indexes s ∧
      files (sm_disk s') = <[tab := {[RM_FILE_HDR_PAGE := file_hdr_bytes hdr]}]> (files (sm_disk s)) ∧
      opened (sm_disk s') = <[fh_fd h := tab]> (opened (sm_disk s)) ∧
      meta (sm_disk s') = Some (print_db dump (sm_db s')) ∧
      (db_wf (sm_db s) → tab ≠ ""%string → Forall (λ d, def_name d ≠ ""%string) defs → db_wf (sm_db s'))
  | Throw e => sm_db s' = sm_db s ∧ sm_fhs s' = sm_fhs s ∧ sm_indexes s' = sm_indexes s ∧
      files (sm_disk s') = files (sm_disk s) ∧ opened (sm_disk s') = opened (sm_disk s) ∧
      (meta (sm_disk s') = meta (sm_disk s) ∨
       ∃ d1 d2, write_meta (print_db dump (with_table tab defs (sm_db s))) d1 = (Throw e, d2) ∧ meta (sm_disk s') = meta d2)
  | Crash => False
  end.
Proof.
  intros Hoe Hc. apply create_table_spec in Hc; [|done]. destruct r as [[]|e|]; [|done|done].
  destruct Hc as (rs & hdr & h & Hd & Hne & Hnew & Hh & Hfh & Hdb & Hfhs & Hix & Hf & Ho & Hm). exists rs, hdr, h. split_and!; try done.
  intros [Hn Hwf] Ht Hnames. rewrite Hdb. split; [done|]. cbn [tabs]. apply map_Forall_insert_2; [|done].
  split; [done|]. by apply (new_table_wf tab defs rs).
Qed.

Definition sample_defs : list ColDef := [mkDef "id" TYPE_INT 4; mkDef "name" TYPE_STRING 8].

Lemma create_table_atomic_witness :
  let S := @create_table Mem (mem_storage false) (λ _, str "{}") "t" sample_defs in
  let s fails := mkSm (mkDb "db" ∅) ∅ ∅ (mkMem ∅ ∅ None fails) in
  (∃ s', S (s false) = (Ok tt, s') ∧ db_wf (sm_db s')) ∧
  (∃ e s', S (s true) = (Throw e, s') ∧ mem_files (sm_disk s') = ∅).
Proof.
  assert (∀ b, @open_exist Mem (mem_storage false) (mem_laws false) (mkMem ∅ ∅ None b)) as Hoe
    by (intros b fd p Hp; discriminate Hp).
  cbv zeta. split.
  - destruct (create_table _ _ _ _) as [r s'] eqn:E.
    pose proof (@create_table_atomic Mem (mem_storage false) (mem_laws false) mem_reliable (λ _, str "{}") "t" sample_defs
      (mkSm (mkDb "db" ∅) ∅ ∅ (mkMem ∅ ∅ None false)) r s' (Hoe false) E) as Ha.
    assert (r = Ok tt) as -> by (vm_compute in E; congruence). exists s'. split; [done|].
    destruct Ha as (rs & hdr & h & _ & _ & _ & _ & _ & _ & _ & _ & _ & Hwf). apply Hwf; [split; [done|apply map_Forall_empty]|done|].
    repeat (apply Forall_cons; split; [done|]). constructor.
  - destruct (create_table _ _ _ _) as [r s'] eqn:E.
    pose proof (@create_table_atomic Mem (mem_storage false) (mem_laws false) mem_reliable (λ _, str "{}") "t" sample_defs
      (mkSm (mkDb "db" ∅) ∅ ∅ (mkMem ∅ ∅ None true)) r s' (Hoe true) E) as Ha.
    assert (r = Throw (InternalError "cannot write database metadata: db.meta")) as -> by (vm_compute in E; congruence).
    eexists _, s'. split; [done|]. by destruct Ha as (_ & _ & _ & Hf & _).
Defined.

(** ** Index files *)

(** Only the header page matters when a tree is opened. *)
Lemma padded_prefix n bs : zlen bs ≤ n → ∃ rest, padded n bs = bs ++ rest.
Proof.
  intros Hn. unfold padded, ztake. rewrite take_app_ge by (unfold zlen in Hn; lia). by eexists.
Qed.

Lemma new_index_header_wide i :
  max_serialized_columns < zlen (idx_cols i) → new_index_header i = Throw (InternalError "Invalid number of index columns").
Proof.
  intros H. unfold new_index_header. cbv zeta. by rewrite (proj2 (Z.ltb_lt _ _) H), orb_true_r.
Qed.

Lemma file_bytes_le f n :
  0 ≤ n → (∀ k bs, f !! k = Some bs → k * PAGE_SIZE + zlen bs ≤ n) → 0 ≤ file_bytes f ≤ n.
Proof.
  intros Hn Hf. unfold file_bytes.
  assert (Forall (λ '(k, bs), k * PAGE_SIZE + zlen bs ≤ n) (map_to_list f)) as Hall.
  { apply Forall_forall. intros [k bs] Hk. apply elem_of_map_to_list in Hk. by apply Hf. }
  induction Hall as [|[k bs] l Hk _ IH]; cbn [fmap list_fmap foldr]; lia.
Qed.

Section Index.
Context {D : Type} `{Reliable D}.

Definition index_pages (h : IndexFileHeader) : file :=
  <[INDEX_INITIAL_ROOT_PAGE := page_bytes root_page]>
    (<[INDEX_LEAF_HEADER_PAGE := page_bytes leaf_header_page]> {[INDEX_FILE_HEADER_PAGE := header_bytes h]}).

Lemma page_bytes_length p : zlen (page_bytes p) = PAGE_SIZE.
Proof. unfold page_bytes. autorewrite with ldb. unfold zlen. rewrite length_replicate. done. Qed.

(** One page of an open file. *)
Lemma write_new_page fd p f n bs d :
  0 ≤ n → zlen bs ≤ PAGE_SIZE → opened d !! fd = Some p → files d !! p = Some f → f !! n = None →
  ∃ d', write_page fd n bs d = (Ok tt, d') ∧ opened d' = opened d ∧ meta d' = meta d ∧
    files d' = <[p := <[n := bs]> f]> (files d).
Proof.
  intros Hn0 Hlen Ho Hf Hn. destruct (write_works fd p n bs d) as (d' & E); [done|done|done|by rewrite Hf|]. exists d'. split; [done|].
  apply write_law in E as (Ho' & Hm & q & g & Hq & Hg & Hf'); [|done|done]. split_and!; [done|done|].
  assert (q = p) as -> by congruence. assert (g = f) as -> by congruence. rewrite Hf'. unfold page_of. rewrite Hn. cbn.
  unfold overwrite. by rewrite zdrop_nil, app_nil_r.
Qed.

Lemma create_index_spec i h d r d' :
  open_exist d → new_index_header i = Ok h → header_ok h → create_index i d = (r, d') →
  opened d' = opened d ∧ meta d' = meta d ∧
  match r with
  | Ok _ => files d !! index_file i = None ∧ files d' = <[index_file i := index_pages h]> (files d)
  | Throw _ => files d' = files d
  | Crash => False
  end.
Proof.
  intros Hoe Hh Hok. unfold create_index. rewrite bind_run. unfold lift at 1. rewrite Hh.
  pose proof (header_size_range h Hok) as Hsz.
  assert (serialize h (Some (replicate (Z.to_nat (serialized_size_ h)) Byte.x00)) = Ok (header_bytes h)) as Hser.
  { apply serialize_bytes; [done|]. unfold zlen. rewrite length_replicate. lia. }
  rewrite bind_run. unfold lift at 1. rewrite Hser. rewrite bind_run.
  destruct (create_file (index_file i) d) as [r1 d1] eqn:E1. apply create_law in E1 as (Ho1 & Hm1 & Hf1).
  destruct r1 as [[]|e|]; [|by intros [= <- <-]|done]. destruct Hf1 as [Hnone Hf1].
  assert (∀ fd, opened d !! fd ≠ Some (index_file i)) as Hno by (by apply not_open).
  destruct (open_works (index_file i) d1) as (fd & d2 & E2); [by rewrite Hf1, lookup_insert_eq|by rewrite Ho1|].
  rewrite bind_run, E2. apply open_law in E2 as (Hf2 & Hm2 & _ & _ & _ & Hfd & Ho2).
  assert (opened d2 !! fd = Some (index_file i)) as Hopen by (by rewrite Ho2, lookup_insert_eq).
  destruct (write_new_page fd (index_file i) ∅ INDEX_FILE_HEADER_PAGE (header_bytes h) d2) as (d3 & E3 & Ho3 & Hm3 & Hf3); [done|rewrite header_bytes_length by done; lia|done|by rewrite Hf2, Hf1, lookup_insert_eq|done|].
  rewrite bind_run, E3.
  destruct (write_new_page fd (index_file i) {[INDEX_FILE_HEADER_PAGE := header_bytes h]} INDEX_LEAF_HEADER_PAGE (page_bytes leaf_header_page) d3)
    as (d4 & E4 & Ho4 & Hm4 & Hf4); [done|by rewrite page_bytes_length|congruence|by rewrite Hf3, lookup_insert_eq|done|].
  rewrite bind_run, E4.
  destruct (write_new_page fd (index_file i) (<[INDEX_LEAF_HEADER_PAGE := page_bytes leaf_header_page]> {[INDEX_FILE_HEADER_PAGE := header_bytes h]})
    INDEX_INITIAL_ROOT_PAGE (page_bytes root_page) d4) as (d5 & E5 & Ho5 & Hm5 & Hf5); [done|by rewrite page_bytes_length|congruence|by rewrite Hf4, lookup_insert_eq|done|].
  rewrite bind_run, E5, bind_run. destruct (set_pageno_law fd INDEX_INITIAL_PAGE_COUNT d5) as (d6 & E6 & Hf6 & Ho6 & Hm6). rewrite E6.
  destruct (close_works fd d6) as (d7 & E7); [by rewrite Ho6, Ho5, Ho4, Ho3, Hopen|]. rewrite E7. intros [= <- <-].
  apply close_law in E7 as (Hf7 & Hm7 & _ & Ho7). split_and!; [|congruence|done|].
  - rewrite Ho7, Ho6, Ho5, Ho4, Ho3, Ho2. rewrite delete_insert_id by done. done.
  - rewrite Hf7, Hf6, Hf5, Hf4, Hf3, Hf2, Hf1, !insert_insert_eq. done.
Qed.

Lemma open_index_spec i h d :
  header_ok h → page_count_ h = INDEX_INITIAL_PAGE_COUNT → files d !! index_file i = Some (index_pages h) →
  (∀ fd, opened d !! fd ≠ Some (index_file i)) →
  ∃ t d', open_index (idx_tab i) (col_name <$> idx_cols i) d = (Ok t, d') ∧ tree_header t = h ∧ files d' = files d ∧
    opened d' = <[tree_fd t := index_file i]> (opened d) ∧ meta d' = meta d.
Proof.
  intros Hok Hpc Hf Hno. unfold open_index. fold (index_file i). rewrite bind_run.
  destruct (open_works (index_file i) d) as (fd & d1 & E1); [by rewrite Hf|done|]. rewrite E1.
  apply open_law in E1 as (Hf1 & Hm1 & _ & _ & _ & Hfd & Ho1).
  assert (opened d1 !! fd = Some (index_file i)) as Hopen by (by rewrite Ho1, lookup_insert_eq).
  unfold catch_rethrow, new_tree. rewrite bind_run.
  destruct (read_works fd (index_file i) (index_pages h) INDEX_FILE_HEADER_PAGE PAGE_SIZE d1) as (bs & d2 & E2); [done|done|done|by rewrite Hf1|..].
  { pose proof (file_bytes_ge (index_pages h) INDEX_INITIAL_ROOT_PAGE (page_bytes root_page) (lookup_insert_eq _ _ _)) as Hge.
    rewrite page_bytes_length in Hge. unfold INDEX_INITIAL_ROOT_PAGE, INDEX_FILE_HEADER_PAGE in *. unfold PAGE_SIZE in *. lia. }
  rewrite E2. apply read_law in E2 as (Hf2 & Ho2 & Hm2 & p & f & Hp & Hpf & _ & ->); [|done|done]. assert (p = index_file i) as -> by congruence.
  assert (f = index_pages h) as -> by congruence. change (page_of (index_pages h) INDEX_FILE_HEADER_PAGE) with (header_bytes h).
  pose proof (header_size_range h Hok) as Hsz.
  destruct (padded_prefix PAGE_SIZE (header_bytes h)) as [rest ->]; [rewrite header_bytes_length; [lia|done]|].
  rewrite bind_run. unfold lift at 1. rewrite deserialize_bytes by (done || lia).
  rewrite bind_run. destruct (size_law fd d2) as (n & -> & Hn). specialize (Hn (index_file i) (index_pages h)).
  rewrite Ho2, Hf2, Hf1 in Hn. specialize (Hn Hopen Hf).
  assert (0 ≤ n ≤ 12288) as Hrange.
  { rewrite Hn. apply file_bytes_le; [lia|]. intros k bs Hk. unfold index_pages in Hk. rewrite !lookup_insert_Some, lookup_singleton_Some in Hk.
    unfold INDEX_INITIAL_ROOT_PAGE, INDEX_LEAF_HEADER_PAGE, INDEX_FILE_HEADER_PAGE in Hk.
    destruct Hk as [[<- <-]|[_ [[<- <-]|[_ [<- <-]]]]]; rewrite ?page_bytes_length, ?header_bytes_length by done; unfold PAGE_SIZE in *; lia. }
  rewrite bind_run. unfold lift at 1. rewrite (proj2 (Z.ltb_ge n 0)) by lia. cbn [throw_if]. cbv zeta. rewrite bind_run. unfold lift at 1.
  rewrite (proj2 (Z.ltb_ge INT_MAX _)).
  2: { unfold PAGE_SIZE, INT_MAX. rewrite Z.quot_div_nonneg by lia. pose proof (Z.div_le_upper_bound n 4096 3). destruct (_ =? 0); lia. }
  cbn [throw_if]. rewrite bind_run.
  destruct (set_pageno_law fd (Z.max (page_count_ h) (Z.quot n PAGE_SIZE + (if Z.rem n PAGE_SIZE =? 0 then 0 else 1))) d2) as (d3 & -> & Hf3 & Ho3 & Hm3).
  eexists _, d3. split; [done|]. cbn [tree_header tree_fd]. split_and!; congruence.
Qed.
End Index.

(** An index of a well-formed table can be opened after it is created: over a
    storage layer whose page and file operations work, [create_index] either throws and
    changes no file and no descriptor, or leaves a closed file with the header, the
    sentinel and an empty root leaf, on which [open_index] gives a tree with exactly the
    header that was computed. *)
Theorem index_create_open {D} `{Reliable D} t i (d : D) r d' :
  tab_wf t → index_wf (tab_name t) (tab_cols t) i → open_exist d → create_index i d = (r, d') →
  opened d' = opened d ∧
  match r with
  | Ok _ => ∃ h, new_index_header i = Ok h ∧ files d' = <[index_file i := index_pages h]> (files d) ∧
      ∃ tree d'', open_index (idx_tab i) (col_name <$> idx_cols i) d' = (Ok tree, d'') ∧ tree_header tree = h ∧
        opened d'' = <[tree_fd tree := index_file i]> (opened d)
  | Throw _ => files d' = files d
  | Crash => False
  end.
Proof.
  intros Ht Hi Hoe Hc. destruct (decide (zlen (idx_cols i) ≤ max_serialized_columns)) as [Hn|Hn].
  2: { unfold create_index in Hc. rewrite bind_run, new_index_header_wide in Hc by lia. by injection Hc as <- <-. }
  destruct (new_index_spec t i Ht Hi Hn) as (h & Hh & Hok & _ & _ & _ & Hpc & _).
  apply (create_index_spec i h) in Hc as (Ho & Hm & Hf); [|done..]. split; [done|]. destruct r as [[]|e|]; [|done|done].
  destruct Hf as [Hnone Hf]. exists h. split_and!; [done|done|].
  destruct (open_index_spec i h d' Hok Hpc) as (tree & d2 & E & Hth & _ & Ho2 & _).
  { by rewrite Hf, lookup_insert_eq. } { rewrite Ho. by apply not_open. }
  exists tree, d2. split_and!; [done|done|congruence].
Qed.

Definition sample_index : IndexMeta := IndexMeta_make "t" [mkCol "t" "id" TYPE_INT 4 0 true] true.

Lemma index_create_open_witness :
  let d := mkMem ∅ ∅ None false in
  ∃ d' tree d'', @create_index Mem (mem_storage false) sample_index d = (Ok tt, d') ∧
    @open_index Mem (mem_storage false) "t" ["id"%string] d' = (Ok tree, d'') ∧ key_length_ (tree_header tree) = 4.
Proof.
  intros d. destruct (@create_index Mem (mem_storage false) sample_index d) as [r d'] eqn:E.
  assert (tab_wf sample_table) as Hwf by exact (proj2 (proj2 sample_db_wf "t"%string sample_table eq_refl)).
  assert (index_wf "t" (tab_cols sample_table) sample_index) as Hi.
  { destruct Hwf as (_ & _ & _ & _ & _ & H & _). exact (Forall_inv H). }
  pose proof (@index_create_open Mem (mem_storage false) (mem_laws false) mem_reliable sample_table sample_index d r d' Hwf Hi
    ltac:(intros fd p Hp; discriminate Hp) E) as [_ Ha].
  assert (r = Ok tt) as -> by (change (fst (r, d') = Ok tt); rewrite <- E; vm_compute; reflexivity).
  destruct Ha as (h & Hh & _ & tree & d'' & Ho & Hth & _). exists d', tree, d''. split_and!; [done|exact Ho|].
  rewrite Hth. vm_compute in Hh. by injection Hh as <-.
Defined.

(** ** Failing writes *)

(** Without a working disk CREATE TABLE is not atomic: when the header page of the
    new file cannot be written the statement throws and leaves the catalog alone, but the
    file stays and its descriptor stays open, and the same statement then fails because
    the file exists. *)
Theorem create_table_leaves_file :
  let create := @create_table Mem (mem_storage true) (λ _, str "{}") "t" sample_defs in
  let s := mkSm (mkDb "db" ∅) ∅ ∅ (mkMem ∅ ∅ None false) in
  ∃ s1 s2, create s = (Throw UnixError, s1) ∧ sm_db s1 = sm_db s ∧
    mem_files (sm_disk s1) = {["t"%string := ∅]} ∧ mem_open (sm_disk s1) = {[1 := "t"%string]} ∧
    create s1 = (Throw (FileExistsError "t"), s2).
Proof. cbv zeta. eexists _, _. split_and!; vm_compute; reflexivity. Qed.

(** ** Utility results *)

Lemma add_string_rows_ok rows r r' :
  add_string_rows rows r = (Ok tt, r') →
  rcolumns r' = rcolumns r ∧ rrows r' = rrows r ++ (map (map string_cell) rows) ∧ raw_text r' = raw_text r.
Proof.
  revert r. induction rows as [|row rows IH]; intros r; cbn [add_string_rows].
  { intros [= <-]. by rewrite app_nil_r. }
  rewrite bind_run. unfold add_row at 1. destruct (try_account r _) as [r1|] eqn:E; [|done]. intros H. apply IH in H as (Hc & Hr & Ht).
  unfold try_account in E. destruct (_ || _); [done|]. injection E as <-. cbn in *. rewrite Hc, Hr, Ht. by rewrite <- app_assoc.
Qed.

Lemma set_string_result_ok names rows r r' :
  set_string_result names rows r = (Ok tt, r') →
  rcolumns r' = (λ n, mkColumn n TYPE_STRING) <$> names ∧ rrows r' = map (map string_cell) rows ∧ raw_text r' = false.
Proof.
  unfold set_string_result. rewrite bind_run. unfold set_columns at 1. cbv zeta. destruct (try_account _ _) as [r1|] eqn:E; [|done].
  intros H. apply add_string_rows_ok in H as (Hc & Hr & Ht). unfold try_account in E. destruct (_ || _); [done|]. injection E as <-. done.
Qed.

Lemma mark_indexes n (idxs : list IndexMeta) :
  bool_decide (n ∈ marks idxs) = existsb (λ i, bool_decide (n ∈ names (idx_cols i))) idxs.
Proof.
  apply Bool.eq_iff_eq_true. rewrite bool_decide_eq_true, existsb_exists. unfold marks. rewrite elem_of_union_list. split.
  - intros (X & HX & Hn). apply list_elem_of_fmap in HX as (i & -> & Hi). exists i. split; [by apply list_elem_of_In|].
    apply bool_decide_eq_true. by apply elem_of_list_to_set in Hn.
  - intros (i & Hi & Hn). apply list_elem_of_In in Hi. apply bool_decide_eq_true in Hn.
    exists (list_to_set (names (idx_cols i))). split; [|by apply elem_of_list_to_set]. apply list_elem_of_fmap. by exists i.
Qed.

(** SHOW TABLES returns every table of the catalog once, in the order of the names;
    DESC returns the columns in declaration order with their type, and YES exactly for
    the columns some index of the table uses.  Whatever the result buffer held before is
    gone. *)
Theorem utility_results db r r' :
  db_wf db →
  (show_tables db r = (Ok tt, r') →
   ∃ ns, rrows r' = (λ n, [string_cell (str n)]) <$> ns ∧ StronglySorted (λ x y, x ≤ y)%string ns ∧ NoDup ns ∧
     ∀ n, n ∈ ns ↔ is_Some (tabs db !! n)) ∧
  (∀ tab t, tabs db !! tab = Some t → desc_table db tab r = (Ok tt, r') →
   rrows r' = (λ c, string_cell <$> [str (col_name c); str (coltype2str (col_type c));
     if existsb (λ i, bool_decide (col_name c ∈ names (idx_cols i))) (tab_indexes t) then str "YES" else str "NO"]) <$> tab_cols t).
Proof.
  intros Hdb. split.
  - intros H. apply set_string_result_ok in H as (_ & Hr & _). exists (fst <$> ordered_tabs db). split_and!.
    + rewrite Hr. assert (Forall (λ p, tab_name p.2 = p.1) (ordered_tabs db)) as Hn.
      { rewrite ordered_tabs_perm. apply Forall_forall. intros [k t] Hk. apply elem_of_map_to_list in Hk. exact (proj1 (proj2 Hdb k t Hk)). }
      clear Hr. induction Hn as [|p l Hp _ IH]; [done|]. cbn [fmap list_fmap map] in IH |- *. rewrite IH, Hp. done.
    + assert (StronglySorted by_key (ordered_tabs db)) as Hs.
      { apply StronglySorted_merge_sort.
        - intros p q o. unfold by_key. apply transitivity.
        - intros p q. unfold by_key. apply total. apply _. }
      clear Hr. induction Hs as [|p l _ IH Hp]; [constructor|]. rewrite fmap_cons. constructor; [exact IH|].
      apply Forall_fmap. exact Hp.
    + rewrite ordered_tabs_perm. apply NoDup_fst_map_to_list.
    + intros n. rewrite ordered_tabs_perm, list_elem_of_fmap. split.
      * intros ([k t] & -> & Hk). apply elem_of_map_to_list in Hk. by eexists.
      * intros [t Ht]. exists (n, t). split; [done|]. by apply elem_of_map_to_list.
  - intros tab t Ht H. unfold desc_table in H. rewrite bind_run in H. unfold lift at 1 in H. unfold get_table in H. rewrite Ht in H.
    apply set_string_result_ok in H as (_ & Hr & _). rewrite Hr.
    destruct (proj2 Hdb tab t Ht) as [_ (_ & _ & _ & _ & Hi & _)].
    clear Hr. induction Hi as [|c l Hc _ IH]; [done|]. cbn [fmap list_fmap map] in IH |- *. rewrite IH, Hc, mark_indexes. done.
Qed.

Lemma utility_results_witness :
  ∃ r, desc_table sample_db "t" WireResultSet_default = (Ok tt, r) ∧
    rrows r = [string_cell <$> [str "id"; str "INT"; str "YES"]; string_cell <$> [str "name"; str "STRING"; str "NO"]].
Proof.
  destruct (desc_table sample_db "t" WireResultSet_default) as [u r] eqn:E.
  assert (u = Ok tt) as -> by (change (fst (u, r) = Ok tt); rewrite <- E; vm_compute; reflexivity).
  exists r. split; [done|]. exact (proj2 (utility_results sample_db WireResultSet_default r sample_db_wf) "t"%string sample_table eq_refl E).
Defined.
