(* ===== verification/DiskManager.v ===== *)
(** * The disk manager and the databases on disk

    Models what [src/src/storage/disk_manager.cpp] and [disk_manager.h] implement (page
    numbers, directories, file sizes, names of open files, the log file), and [is_dir],
    [create_db], [drop_db] and [write_meta_file] of [src/src/system/sm_manager.cpp], over a
    model of the file system.  [create_file] and [open_file] are exercises with empty
    bodies: arguments here.

    The file system maps the paths in use (relative to the working directory, in canonical
    form) to what is there.  Every system call that can fail takes an answer from a script,
    so that failures and short transfers may happen at any point; behind the end of the
    script calls succeed. *)

From S2P Require Import Prelude Errors Common Catalog System.

(** ** The file system *)

Inductive Node := DirNode | RegNode (content : bytes) | SpecialNode.

Inductive Answer := Proceed | FailWith (errno : Z) | Short (n : nat).

Record OpenFile := mkOpen { of_path : string; of_offset : Z }.

Record FS := mkFS { nodes : gmap string Node; fds : gmap Z OpenFile; script : list Answer }.

Definition EBADF : Z := 9.
Definition EINVAL : Z := 22.
Definition EEXIST : Z := 17.
Definition ENOENT : Z := 2.

(** What a call throws: an exception of the program or one of the standard library. *)
Inductive thrown := Rmdb (e : RMDBError) | StdError (what : string).

Inductive outcome (A : Type) := Return (a : A) | Raise (t : thrown) | Undefined.
Arguments Return {A} a.
Arguments Raise {A} t.
Arguments Undefined {A}.

Definition IO (S A : Type) : Type := S → outcome A * S.

#[global] Instance IO_ret S : MRet (IO S) := λ A a s, (Return a, s).
#[global] Instance IO_bind S : MBind (IO S) := λ A B f m s,
  match m s with
  | (Return a, s) => f a s
  | (Raise t, s) => (Raise t, s)
  | (Undefined, s) => (Undefined, s)
  end.

Definition raise {S A} (t : thrown) : IO S A := λ s, (Raise t, s).
Definition raise_if {S} (b : bool) (t : thrown) : IO S unit := if b then raise t else mret tt.
Definition of_result {S A} (r : result A) : IO S A := λ s,
  match r with Ok a => (Return a, s) | Throw e => (Raise (Rmdb e), s) | Crash => (Undefined, s) end.

(** [try { m } catch (...) { handler; throw; }] for a handler that does not throw. *)
Definition rethrow {S A} (m : IO S A) (handler : S → S) : IO S A := λ s,
  match m s with (Raise t, s) => (Raise t, handler s) | r => r end.

Definition get {S} : IO S S := λ s, (Return s, s).

(** ** [DiskManager] *)

Record DiskManager := mkDM {
  path2fd_ : gmap string Z; fd2path_ : gmap Z string; log_fd_ : Z; fd2pageno_ : gmap Z Z; os : FS }.

Definition DiskManager_new (f : FS) : DiskManager := mkDM ∅ ∅ (-1) ∅ f.

Definition set_os (f : FS) (d : DiskManager) : DiskManager := mkDM (path2fd_ d) (fd2path_ d) (log_fd_ d) (fd2pageno_ d) f.
Definition set_log_fd (fd : Z) (d : DiskManager) : DiskManager := mkDM (path2fd_ d) (fd2path_ d) fd (fd2pageno_ d) (os d).

(** The next answer of the script. *)
Definition next_answer (f : FS) : Answer * FS :=
  match script f with [] => (Proceed, f) | a :: l => (a, mkFS (nodes f) (fds f) l) end.

Definition set_nodes (n : gmap string Node) (f : FS) : FS := mkFS n (fds f) (script f).

Definition node_at (path : string) (d : DiskManager) : option Node := nodes (os d) !! path.

(** *** Page numbers *)

Definition MAX_FD : Z := 8192.

(** An access to [fd2pageno_] outside the array is undefined. *)
Definition in_table (fd : Z) : bool := (0 <=? fd) && (fd <? MAX_FD).

Definition set_fd2pageno (fd start_page_no : Z) : IO DiskManager unit := λ d,
  if in_table fd then (Return tt, mkDM (path2fd_ d) (fd2path_ d) (log_fd_ d) (<[fd := start_page_no]> (fd2pageno_ d)) (os d))
  else (Undefined, d).

Definition get_fd2pageno (fd : Z) : IO DiskManager Z := λ d,
  if in_table fd then (Return (default 0 (fd2pageno_ d !! fd)), d) else (Undefined, d).

(** [fd2pageno_[fd]++] on a [std::atomic<int>], which wraps around. *)
Definition allocate_page (fd : Z) : IO DiskManager Z := λ d,
  if in_table fd
  then let n := default 0 (fd2pageno_ d !! fd) in
       (Return n, mkDM (path2fd_ d) (fd2path_ d) (log_fd_ d) (<[fd := s32 (n + 1)]> (fd2pageno_ d)) (os d))
  else (Undefined, d).

Definition deallocate_page (page_id : Z) : IO DiskManager unit := mret tt.

(** *** Directories and files *)

Definition dir_at (path : string) (d : DiskManager) : bool := match node_at path d with Some DirNode => true | _ => false end.
Definition file_at (path : string) (d : DiskManager) : bool := match node_at path d with Some (RegNode _) => true | _ => false end.

Definition is_dir (path : string) : IO DiskManager bool := λ d, (Return (dir_at path d), d).
Definition is_file (path : string) : IO DiskManager bool := λ d, (Return (file_at path d), d).

(** The path up to its last separator; [None] for a name in the working directory. *)
Fixpoint parent (path : string) : option string :=
  match path with
  | EmptyString => None
  | String c rest =>
    match parent rest with
    | Some p => Some (String c p)
    | None => if bool_decide (String c "" = "/"%string) then Some ""%string else None
    end
  end.

Definition parent_ok (path : string) (f : FS) : bool :=
  match parent path with
  | None => true
  | Some p => match nodes f !! p with Some DirNode => true | _ => false end
  end.

(** [fs::create_directory(path, error)]: a directory that exists is no error. *)
Definition create_directory (path : string) (f : FS) : (Z + bool) * FS :=
  let '(a, f) := next_answer f in
  match a with
  | FailWith e => (inl e, f)
  | _ =>
    match nodes f !! path with
    | Some DirNode => (inr false, f)
    | Some _ => (inl EEXIST, f)
    | None => if parent_ok path f then (inr true, set_nodes (<[path := DirNode]> (nodes f)) f) else (inl ENOENT, f)
    end
  end.

(** The paths below [path]. *)
Fixpoint strip (pre p : string) : option string :=
  match pre, p with
  | EmptyString, _ => Some p
  | String c pre, String c' p => if Ascii.eqb c c' then strip pre p else None
  | String _ _, EmptyString => None
  end.

Definition below (path p : string) : bool := match strip (path +:+ "/") p with Some _ => true | None => false end.

(** What [remove_all] removes: first what is below, longer paths first, then [path]. *)
Definition longer (p q : string) : Prop := (String.length q ≤ String.length p)%nat.
#[global] Instance longer_dec p q : Decision (longer p q) := decide (String.length q ≤ String.length p)%nat.

Definition tree (path : string) (n : gmap string Node) : list string :=
  merge_sort longer (List.filter (below path) (map_to_list n).*1) ++ (if decide (is_Some (n !! path)) then [path] else []).

Fixpoint remove_each (l : list string) (removed : Z) (f : FS) : (Z + Z) * FS :=
  match l with
  | [] => (inr removed, f)
  | p :: l =>
    let '(a, f) := next_answer f in
    match a with
    | FailWith e => (inl e, f)
    | _ => remove_each l (removed + 1) (set_nodes (delete p (nodes f)) f)
    end
  end.

(** [fs::remove_all(path, error)]: the number of files removed. *)
Definition remove_all (path : string) (f : FS) : (Z + Z) * FS := remove_each (tree path (nodes f)) 0 f.

Section Messages.
(** [error_code::message()] and [filesystem_error::what()]. *)
Context (message : Z → string) (fs_what : string → Z → string).

Definition create_dir (path : string) : IO DiskManager unit := λ d,
  let '(r, f) := create_directory path (os d) in
  let d := set_os f d in
  match r with
  | inr true => (Return tt, d)
  | inl e => (Raise (Rmdb (InternalError ("cannot create directory " +:+ path +:+ ": " +:+ message e))), d)
  | inr false => (Raise (Rmdb (FileExistsError path)), d)
  end.

Definition destroy_dir (path : string) : IO DiskManager unit := λ d,
  let '(r, f) := remove_all path (os d) in
  let d := set_os f d in
  match r with
  | inl e => (Raise (Rmdb (InternalError ("cannot remove directory " +:+ path +:+ ": " +:+ message e))), d)
  | inr removed => if removed =? 0 then (Raise (Rmdb (FileNotFoundError path)), d) else (Return tt, d)
  end.

(** [st_size] of a path; the system decides what it is for what is no regular file. *)
Context (other_size : Z).
Definition st_size (n : Node) : Z := match n with RegNode bs => zlen bs | _ => other_size end.

Definition get_file_size (file_name : string) : IO DiskManager Z := λ d,
  match node_at file_name d with
  | None => (Return (-1), d)
  | Some n =>
    if (st_size n <? 0) || (INT_MAX <? st_size n)
    then (Raise (Rmdb (InternalError ("file is too large for the teaching storage manager: " +:+ file_name))), d)
    else (Return (st_size n), d)
  end.

(** [get_file_size(int)] *)
Definition get_fd_size (fd : Z) : IO DiskManager Z := λ d,
  (Return match fds (os d) !! fd with
          | Some o => match node_at (of_path o) d with Some n => st_size n | None => -1 end
          | None => -1
          end, d).

Definition get_file_name (fd : Z) : IO DiskManager string := λ d,
  match fd2path_ d !! fd with None => (Raise (Rmdb (FileNotOpenError fd)), d) | Some p => (Return p, d) end.

Section Files.
(** The exercises. *)
Context (open_file : string → IO DiskManager Z) (create_file : string → IO DiskManager unit).

Definition get_file_fd (file_name : string) : IO DiskManager Z := λ d,
  match path2fd_ d !! file_name with None => open_file file_name d | Some fd => (Return fd, d) end.

(** *** The log file *)

Definition LOG_FILE_NAME : string := "db.log".
Definition DB_META_NAME : string := "db.meta".

Definition SetLogFd (log_fd : Z) : IO DiskManager unit := λ d, (Return tt, set_log_fd log_fd d).
Definition GetLogFd : IO DiskManager Z := λ d, (Return (log_fd_ d), d).

(** The content behind a descriptor. *)
Definition fd_content (fd : Z) (f : FS) : option (OpenFile * bytes) :=
  o ← fds f !! fd;
  match nodes f !! of_path o with Some (RegNode bs) => Some (o, bs) | _ => None end.

(** [lseek], [read] and [write]: the result or [errno]. *)
Definition os_lseek (fd : Z) (offset : bytes → Z) (f : FS) : (Z + Z) * FS :=
  match fd_content fd f with
  | None => (inl EBADF, f)
  | Some (o, bs) =>
    let off := offset bs in
    if off <? 0 then (inl EINVAL, f)
    else (inr off, mkFS (nodes f) (<[fd := mkOpen (of_path o) off]> (fds f)) (script f))
  end.

Definition os_read (fd size : Z) (f : FS) : (Z + bytes) * FS :=
  let '(a, f) := next_answer f in
  match fd_content fd f, a with
  | None, _ => (inl EBADF, f)
  | _, FailWith e => (inl e, f)
  | Some (o, bs), _ =>
    let got := ztake (match a with Short n => Z.min (Z.of_nat n) size | _ => size end) (zdrop (of_offset o) bs) in
    (inr got, mkFS (nodes f) (<[fd := mkOpen (of_path o) (of_offset o + zlen got)]> (fds f)) (script f))
  end.

(** The bytes of a file after [data] is written at [off]; a hole reads as zeros. *)
Definition written (bs : bytes) (off : Z) (data : bytes) : bytes :=
  ztake off (bs ++ replicate (Z.to_nat (off - zlen bs)) Byte.x00) ++ data ++ zdrop (off + zlen data) bs.

Definition os_write (fd : Z) (data : bytes) (f : FS) : (Z + Z) * FS :=
  let '(a, f) := next_answer f in
  match fd_content fd f, a with
  | None, _ => (inl EBADF, f)
  | _, FailWith e => (inl e, f)
  | Some (o, bs), _ =>
    let put := match a with Short n => take n data | _ => data end in
    (inr (zlen put),
     mkFS (<[of_path o := RegNode (written bs (of_offset o) put)]> (nodes f))
          (<[fd := mkOpen (of_path o) (of_offset o + zlen put)]> (fds f)) (script f))
  end.

Definition sys {A} (call : FS → (Z + A) * FS) : IO DiskManager A := λ d,
  let '(r, f) := call (os d) in
  match r with
  | inl _ => (Raise (Rmdb UnixError), set_os f d)
  | inr a => (Return a, set_os f d)
  end.

(** Both log operations open the log when it is not open yet. *)
Definition open_log : IO DiskManager Z :=
  d ← get;
  _ ← (if log_fd_ d =? -1 then fd ← open_file LOG_FILE_NAME; SetLogFd fd else mret tt);
  fd ← GetLogFd;
  _ ← raise_if (fd <? 0) (Rmdb (FileNotOpenError fd));
  mret fd.

(** The bytes stored in [log_data], and the return value.  A subtraction that overflows is
    undefined, and so is reading a negative size, which [read] takes for a huge one. *)
Definition read_log (size offset : Z) : IO DiskManager (bytes * Z) :=
  fd ← open_log;
  file_size ← get_file_size LOG_FILE_NAME;
  if file_size <? offset then mret ([], -1)
  else if INT_MAX <? file_size - offset then λ d, (Undefined, d)
  else
    let size := Z.min size (file_size - offset) in
    if size =? 0 then mret ([], 0)
    else if size <? 0 then λ d, (Undefined, d)
    else
      _ ← sys (os_lseek fd (λ _, offset));
      got ← sys (os_read fd size);
      _ ← raise_if (negb (zlen got =? size)) (Rmdb (InternalError "short read from database log"));
      mret (got, zlen got).

Definition write_log (log_data : bytes) : IO DiskManager unit :=
  fd ← open_log;
  _ ← sys (os_lseek fd zlen);
  bytes_write ← sys (os_write fd log_data);
  raise_if (negb (bytes_write =? zlen log_data)) (Rmdb UnixError).

(** ** Databases *)

Context (dump : Json → bytes).

(** [write_meta_file], where [path] is a regular file or new: the file is truncated only
    once the text is complete. *)
Definition write_meta_file_at (path : string) (db : DbMeta) : IO DiskManager unit := λ d,
  let serialized := print_db dump db in
  let '(a, f) := next_answer (os d) in
  let d := set_os f d in
  if match a with FailWith _ => true | _ => negb (parent_ok path f) || dir_at path d end
  then (Raise (Rmdb (InternalError ("cannot open database metadata: " +:+ path))), d)
  else
    let '(b, f) := next_answer f in
    let put := match b with FailWith _ => [] | Short n => take n serialized | Proceed => serialized end in
    let d := set_os (set_nodes (<[path := RegNode put]> (nodes f)) f) d in
    if bool_decide (put = serialized) then (Return tt, d)
    else (Raise (Rmdb (InternalError ("cannot write database metadata: " +:+ path))), d).

(** [db_path / name] *)
Definition in_dir (db_path name : string) : string := db_path +:+ "/" +:+ name.

Definition sm_is_dir (db_name : string) : IO DiskManager bool :=
  db_path ← of_result (database_path db_name); is_dir db_path.

(** The handler of [create_db]: [fs::remove_all] with the error ignored. *)
Definition undo_create_db (db_path : string) (d : DiskManager) : DiskManager := set_os (remove_all db_path (os d)).2 d.

(** The [try] block of [create_db]. *)
Definition fill_db (db_path db_name : string) : IO DiskManager unit :=
  _ ← write_meta_file_at (in_dir db_path DB_META_NAME) (mkDb db_name ∅);
  create_file (in_dir db_path LOG_FILE_NAME).

Definition create_db (db_name : string) : IO DiskManager unit :=
  db_path ← of_result (database_path db_name);
  d ← get;
  _ ← raise_if (bool_decide (is_Some (node_at db_path d))) (Rmdb (DatabaseExistsError db_name));
  created ← (λ d, let '(r, f) := create_directory db_path (os d) in
                  match r with
                  | inl e => (Raise (StdError (fs_what db_path e)), set_os f d)
                  | inr b => (Return b, set_os f d)
                  end);
  _ ← raise_if (negb created) (Rmdb (DatabaseExistsError db_name));
  rethrow (fill_db db_path db_name) (undo_create_db db_path).

(** [open_name] is [db_.name_]. *)
Definition drop_db (open_name : string) (db_name : string) : IO DiskManager unit :=
  db_path ← of_result (database_path db_name);
  d ← get;
  _ ← raise_if (negb (dir_at db_path d) || negb (file_at (in_dir db_path DB_META_NAME) d)) (Rmdb (DatabaseNotFoundError db_name));
  _ ← raise_if (bool_decide (open_name = db_name)) (Rmdb (InternalError ("cannot drop an open database: " +:+ db_name)));
  removed ← (λ d, let '(r, f) := remove_all db_path (os d) in
                  match r with
                  | inl e => (Raise (StdError (fs_what db_path e)), set_os f d)
                  | inr n => (Return n, set_os f d)
                  end);
  raise_if (removed =? 0) (Rmdb (DatabaseNotFoundError db_name)).

End Files.
End Messages.
