(* ===== verification/DiskManagerFacts.v ===== *)
(** * Facts about the disk manager and the databases on disk

    Creating a database is all or nothing and dropping it undoes it; the log file is an
    append-only sequence of bytes; page numbers of a file are handed out once. *)

From Stdlib Require Import Ascii.
From S2P Require Import Prelude Errors Common Catalog System DiskManager.

(** ** Paths *)

Lemma string_assoc (s t u : string) : s +:+ (t +:+ u) = (s +:+ t) +:+ u.
Proof. induction s as [|c s IH]; [done|]. change (String c (s +:+ (t +:+ u)) = String c ((s +:+ t) +:+ u)). by rewrite IH. Qed.

Lemma string_right_id (s : string) : s +:+ "" = s.
Proof. induction s as [|c s IH]; [done|]. change (String c (s +:+ "") = String c s). by rewrite IH. Qed.

Lemma strip_iff pre p r : strip pre p = Some r ↔ p = pre +:+ r.
Proof.
  revert p. induction pre as [|c pre IH]; intros p; [split; [by intros [= ->]|by intros ->]|].
  destruct p as [|c' p]; cbn; [done|]. change (String c pre +:+ r) with (String c (pre +:+ r)).
  destruct (Ascii.eqb_spec c c') as [->|Hne]; [rewrite IH|]; split; congruence.
Qed.

Lemma below_iff path p : below path p = true ↔ ∃ r, p = path +:+ "/" +:+ r.
Proof.
  unfold below. destruct (strip (path +:+ "/") p) as [r|] eqn:E.
  - apply strip_iff in E as ->. rewrite <- string_assoc. split; [eauto|done].
  - split; [done|]. intros [r ->]. rewrite string_assoc in E. by rewrite (proj2 (strip_iff _ _ r) eq_refl) in E.
Qed.

Lemma parent_app s t q : parent t = Some q → parent (s +:+ t) = Some (s +:+ q).
Proof.
  intros H. induction s as [|c s IH]; [done|]. change (String c s +:+ t) with (String c (s +:+ t)).
  cbn [parent]. by rewrite IH.
Qed.

Lemma parent_below path r :
  parent (path +:+ "/" +:+ r) = Some (match parent r with Some q => path +:+ "/" +:+ q | None => path end).
Proof.
  destruct (parent r) as [q|] eqn:E.
  - apply parent_app. change (parent (String "/"%char r) = Some (String "/"%char q)). cbn [parent]. by rewrite E.
  - rewrite <- (string_right_id path) at 2. apply parent_app. change (parent (String "/"%char r) = Some ""%string).
    cbn [parent]. by rewrite E.
Qed.

Lemma parent_shorter p q : parent p = Some q → (String.length q < String.length p)%nat.
Proof.
  revert q. induction p as [|c p IH]; cbn; intros q; [done|]. destruct (parent p) as [q'|] eqn:E.
  - intros [= <-]. specialize (IH _ eq_refl). cbn. lia.
  - case_bool_decide; [|done]. intros [= <-]. cbn. lia.
Qed.

(** Every path that is used has its directories. *)
Definition fs_wf (n : gmap string Node) : Prop := ∀ p q x, n !! p = Some x → parent p = Some q → n !! q = Some DirNode.

Lemma nothing_below n path p : fs_wf n → n !! path = None → below path p = true → n !! p = None.
Proof.
  intros Hwf Hn (r & ->)%below_iff. remember (String.length r) as k eqn:Hk. revert r Hk.
  induction k as [k IH] using lt_wf_ind. intros r ->.
  destruct (n !! (path +:+ "/" +:+ r)) as [x|] eqn:E; [|done].
  pose proof (Hwf _ _ _ E (parent_below path r)) as Hp. destruct (parent r) as [q|] eqn:Eq; [|congruence].
  apply parent_shorter in Eq. rewrite (IH (String.length q) Eq q eq_refl) in Hp. done.
Qed.

(** ** [remove_all] *)

Lemma next_answer_nodes f a f' : next_answer f = (a, f') → nodes f' = nodes f ∧ fds f' = fds f.
Proof. unfold next_answer. destruct (script f); by intros [= <- <-]. Qed.

Lemma remove_each_spec l : ∀ k f r f', remove_each l k f = (r, f') →
  (∀ p, p ∉ l → nodes f' !! p = nodes f !! p) ∧ fds f' = fds f ∧
  (Forall (λ a, a = Proceed) (script f) → Forall (λ a, a = Proceed) (script f') ∧ ∃ n, r = inr n) ∧
  (∀ n, r = inr n → n = k + zlen l ∧ ∀ p, p ∈ l → nodes f' !! p = None).
Proof.
  induction l as [|q l IH]; intros k f r f'; cbn [remove_each].
  - intros [= <- <-]. split_and!; [done|done|by eauto|]. intros n [= <-]. rewrite zlen_nil. split; [lia|].
    by intros p ?%elem_of_nil.
  - destruct (next_answer f) as [a f1] eqn:Ea. destruct (next_answer_nodes _ _ _ Ea) as [Hn Hf].
    assert (Hs : Forall (λ a, a = Proceed) (script f) → a = Proceed ∧ Forall (λ a, a = Proceed) (script f1)).
    { unfold next_answer in Ea. destruct (script f) as [|b sc] eqn:Es; simplify_eq; intros Hall; [by rewrite Es|].
      by inversion Hall. }
    assert (Hgo : ∀ f2, f2 = set_nodes (delete q (nodes f1)) f1 → remove_each l (k + 1) f2 = (r, f') →
      (∀ p, p ∉ q :: l → nodes f' !! p = nodes f !! p) ∧ fds f' = fds f ∧
      (Forall (λ a, a = Proceed) (script f1) → Forall (λ a, a = Proceed) (script f') ∧ ∃ n, r = inr n) ∧
      (∀ n, r = inr n → n = k + zlen (q :: l) ∧ ∀ p, p ∈ q :: l → nodes f' !! p = None)).
    { intros f2 -> H. apply IH in H as (H1 & H2 & H3 & H4). split_and!.
      - intros p Hp. rewrite not_elem_of_cons in Hp. rewrite H1 by tauto. cbn. rewrite lookup_delete_ne; [by rewrite Hn|]. intros ->. tauto.
      - by rewrite H2.
      - exact H3.
      - intros n Hr. destruct (H4 n Hr) as [-> H5]. rewrite zlen_cons. split; [lia|]. intros p Hp.
        destruct (decide (p ∈ l)) as [Hin|Hni]; [by apply H5|]. apply elem_of_cons in Hp as [->|?]; [|done].
        rewrite H1 by done. cbn. apply lookup_delete_eq. }
    destruct a; intros H.
    + destruct (Hgo _ eq_refl H) as (H1 & H2 & H3 & H4). split_and!; [done..|tauto|done].
    + simplify_eq. split_and!; [by intros; rewrite Hn|done| |done]. intros Hall. by destruct (Hs Hall).
    + destruct (Hgo _ eq_refl H) as (H1 & H2 & H3 & H4). split_and!; [done..|tauto|done].
Qed.

(** The path itself and what is below it. *)
Definition within (path p : string) : Prop := p = path ∨ below path p = true.

Lemma tree_elem path n p : p ∈ tree path n ↔ is_Some (n !! p) ∧ within path p.
Proof.
  unfold tree, within. rewrite elem_of_app, (merge_sort_Permutation longer), list_elem_of_In, List.filter_In, <- list_elem_of_In.
  rewrite list_elem_of_fmap. assert (Hin : (∃ y : string * Node, p = y.1 ∧ y ∈ map_to_list n) ↔ is_Some (n !! p)).
  { split; [intros ([q x] & -> & Hx%elem_of_map_to_list); by exists x|].
    intros [x Hx]. exists (p, x). by rewrite elem_of_map_to_list. }
  rewrite Hin. destruct (decide (is_Some (n !! path))) as [Hp|Hp]; rewrite ?list_elem_of_singleton, ?elem_of_nil; naive_solver.
Qed.

Lemma within_dec path p : within path p ∨ ¬ within path p.
Proof. unfold within. destruct (decide (p = path)); destruct (below path p); naive_solver. Qed.

(** Nothing outside the path changes; without a failing call everything within is gone. *)
Lemma remove_all_spec path f r f' : remove_all path f = (r, f') →
  (∀ p, ¬ within path p → nodes f' !! p = nodes f !! p) ∧ fds f' = fds f ∧
  (Forall (λ a, a = Proceed) (script f) → Forall (λ a, a = Proceed) (script f') ∧ ∃ n, r = inr n) ∧
  (∀ n, r = inr n → (n = 0 ↔ ∀ p, within path p → nodes f !! p = None) ∧ ∀ p, within path p → nodes f' !! p = None).
Proof.
  intros H. apply remove_each_spec in H as (H1 & H2 & H3 & H4). split_and!; [|done|done|].
  - intros p Hp. apply H1. rewrite tree_elem. tauto.
  - intros n Hn. destruct (H4 n Hn) as [-> H5]. split.
    + split.
      * intros Hz p Hp. destruct (nodes f !! p) as [x|] eqn:E; [|done]. exfalso.
        assert (Hin : p ∈ tree path (nodes f)) by (apply tree_elem; eauto).
        assert (Hnil : tree path (nodes f) = []) by (apply zlen_nil_iff; lia). rewrite Hnil in Hin. by apply elem_of_nil in Hin.
      * intros Hp. destruct (tree path (nodes f)) as [|p l] eqn:E; [done|].
        assert (Hin : p ∈ tree path (nodes f)) by (rewrite E; by left). apply tree_elem in Hin as [[x Hx] Hw].
        rewrite (Hp p Hw) in Hx. done.
    + intros p Hp. destruct (nodes f !! p) as [x|] eqn:E.
      * apply H5, tree_elem. eauto.
      * rewrite H1; [done|]. rewrite tree_elem, E. intros [[? ?] _]. done.
Qed.

(** ** Databases *)

Lemma database_path_ok db p : database_path db = Ok p → p = db ∧ has_slash db = false ∧ db ≠ ""%string.
Proof.
  unfold database_path. intros ([] & H%throw_if_ok & [= ->])%bind_ok.
  apply orb_false_iff in H as [[[H1 H2]%orb_false_iff H3]%orb_false_iff H4]. by rewrite bool_decide_eq_false in H1.
Qed.

Lemma database_path_no_crash db : database_path db ≠ Crash.
Proof. unfold database_path. apply bind_no_crash; [apply throw_if_no_crash|done]. Qed.

Section Databases.
Context (fs_what : string → Z → string) (dump : Json → bytes) (create_file : string → IO DiskManager unit).

(** What [create_file] is documented to do: a new file is empty, and a file that exists is
    not created again. *)
Definition creates : Prop := ∀ p d r d', create_file p d = (r, d') →
  fds (os d') = fds (os d) ∧ (∃ used, script (os d) = used ++ script (os d')) ∧
  match r with
  | Return _ => node_at p d = None ∧ nodes (os d') = <[p := RegNode []]> (nodes (os d))
  | Raise _ => nodes (os d') = nodes (os d)
  | Undefined => False
  end.

(** The directory, the catalog of an empty database and an empty log. *)
Definition database_nodes (db : string) (n : gmap string Node) : gmap string Node :=
  <[in_dir db LOG_FILE_NAME := RegNode []]>
    (<[in_dir db DB_META_NAME := RegNode (print_db dump (mkDb db ∅))]> (<[db := DirNode]> n)).

Lemma in_dir_below db name : below db (in_dir db name) = true.
Proof. apply below_iff. by exists name. Qed.

Lemma not_below_self db : below db db = false.
Proof.
  destruct (below db db) eqn:E; [|done]. apply below_iff in E as [r Hr].
  assert (Hl : ∀ s t, String.length (s +:+ t) = (String.length s + String.length t)%nat).
  { induction s as [|c s IH]; intros t; [done|]. change (S (String.length (s +:+ t)) = S (String.length s + String.length t)). by rewrite IH. }
  apply (f_equal String.length) in Hr. rewrite !Hl in Hr. cbn in Hr. lia.
Qed.

Lemma in_dir_ne db name : in_dir db name ≠ db.
Proof. intros H. pose proof (in_dir_below db name) as Hb. rewrite H, not_below_self in Hb. done. Qed.

Lemma meta_ne_log db : in_dir db DB_META_NAME ≠ in_dir db LOG_FILE_NAME.
Proof.
  unfold in_dir. induction db as [|c db IH]; [done|]. intros H. apply IH.
  change (String c (db +:+ "/" +:+ DB_META_NAME) = String c (db +:+ "/" +:+ LOG_FILE_NAME)) in H. congruence.
Qed.

Lemma database_nodes_outside db n p : ¬ within db p → database_nodes db n !! p = n !! p.
Proof.
  intros Hp. assert (p ≠ db) by (intros ->; apply Hp; by left).
  assert (∀ name, p ≠ in_dir db name) by (intros name ->; apply Hp; right; apply in_dir_below).
  unfold database_nodes. by rewrite !lookup_insert_ne by done.
Qed.

(** The body of the [try] block. *)
Lemma fill_db_spec db d r d' : creates → node_at db d = Some DirNode → node_at (in_dir db DB_META_NAME) d = None →
  fill_db create_file dump db db d = (r, d') →
  (∀ p, ¬ within db p → node_at p d' = node_at p d) ∧ fds (os d') = fds (os d) ∧
  match r with
  | Return _ => nodes (os d') = <[in_dir db LOG_FILE_NAME := RegNode []]>
      (<[in_dir db DB_META_NAME := RegNode (print_db dump (mkDb db ∅))]> (nodes (os d)))
  | Raise _ => True
  | Undefined => False
  end.
Proof.
  intros Hc Hdir Hmeta. unfold fill_db, mbind, IO_bind, write_meta_file_at.
  destruct (next_answer (os d)) as [a f1] eqn:E1. destruct (next_answer_nodes _ _ _ E1) as [Hn1 Hf1].
  destruct (match a with FailWith _ => true | _ => _ end) eqn:Ef.
  { intros [= <- <-]. split_and!; [|done|done]. intros p _. unfold node_at. cbn. by rewrite Hn1. }
  destruct (next_answer f1) as [b f2] eqn:E2. destruct (next_answer_nodes _ _ _ E2) as [Hn2 Hf2].
  set (put := match b with Proceed => _ | _ => _ end).
  assert (Hout : ∀ p x (n : gmap string Node), ¬ within db p → <[in_dir db DB_META_NAME := x]> n !! p = n !! p).
  { intros p x n Hp. apply lookup_insert_ne. intros <-. apply Hp. right. apply in_dir_below. }
  case_bool_decide as Hput.
  - intros H. apply Hc in H as (H1 & _ & H2). cbn in H1. split_and!.
    + intros p Hp. destruct r; unfold node_at in *; cbn in H2.
      * destruct H2 as [_ ->]. rewrite lookup_insert_ne; [rewrite Hout by done; by rewrite Hn2, Hn1|].
        intros <-. apply Hp. right. apply in_dir_below.
      * rewrite H2, Hout by done. by rewrite Hn2, Hn1.
      * done.
    + congruence.
    + destruct r; [|done..]. destruct H2 as [_ ->]. cbn. by rewrite Hput, Hn2, Hn1.
  - intros [= <- <-]. split_and!; [|cbn; congruence|done]. intros p Hp. unfold node_at. cbn. rewrite Hout by done. by rewrite Hn2, Hn1.
Qed.

(** The directory was made, filling it threw [t], and then removing it failed. *)
Definition removal_failed (db : string) (d : DiskManager) (t : thrown) (d' : DiskManager) : Prop :=
  ∃ f d1 e, create_directory db (os d) = (inr true, f) ∧ fill_db create_file dump db db (set_os f d) = (Raise t, d1) ∧
    remove_all db (os d1) = (inl e, os d').

(** All or nothing, unless removing the new directory fails as well. *)
Definition created_or_undone (db : string) (d : DiskManager) (r : outcome unit) (d' : DiskManager) : Prop :=
  (∀ p, ¬ within db p → node_at p d' = node_at p d) ∧
  match r with
  | Return _ => node_at db d = None ∧ nodes (os d') = database_nodes db (nodes (os d))
  | Raise t => nodes (os d') = nodes (os d) ∨ removal_failed db d t d'
  | Undefined => False
  end.

(** The [try] block with its handler, once the directory is made. *)
Lemma try_create_db db d f r d' : creates → fs_wf (nodes (os d)) → node_at db d = None →
  create_directory db (os d) = (inr true, set_nodes (<[db := DirNode]> (nodes (os d))) f) →
  rethrow (fill_db create_file dump db db) (undo_create_db db) (set_os (set_nodes (<[db := DirNode]> (nodes (os d))) f) d) = (r, d') →
  created_or_undone db d r d'.
Proof.
  intros Hc Hwf Hnone Hdir. unfold rethrow, created_or_undone. set (d0 := set_os _ d).
  assert (Hmeta : node_at (in_dir db DB_META_NAME) d0 = None).
  { unfold node_at, d0. cbn. rewrite lookup_insert_ne by (symmetry; apply in_dir_ne).
    apply (nothing_below _ db); [done|done|apply in_dir_below]. }
  destruct (fill_db _ _ _ _ d0) as [r1 d1] eqn:E1.
  destruct (fill_db_spec db d0 r1 d1 Hc) as (Hout & _ & Hr); [apply lookup_insert_eq|done|exact E1|].
  assert (Hd0 : ∀ p, ¬ within db p → node_at p d0 = node_at p d).
  { intros p Hp. unfold node_at, d0. cbn. apply lookup_insert_ne. intros <-. apply Hp. by left. }
  destruct r1 as [[]|t|]; intros [= <- <-]; [| |done].
  - split; [intros p Hp; by rewrite Hout, Hd0|]. by split.
  - unfold undo_create_db. destruct (remove_all db (os d1)) as [rr f2] eqn:Er.
    destruct (remove_all_spec _ _ _ _ Er) as (R1 & _ & _ & R2). cbn [snd]. split.
    + intros p Hp. unfold node_at in *. cbn. rewrite R1, Hout, Hd0; done.
    + destruct rr as [e|n]; [right; eexists _, d1, e; split_and!; [exact Hdir|exact E1|exact Er]|left]. destruct (R2 n eq_refl) as [_ R3]. cbn.
      apply map_eq. intros p. destruct (within_dec db p) as [Hp|Hp].
      * rewrite R3 by done. destruct Hp as [->|Hp]; [done|]. symmetry. by apply (nothing_below _ db).
      * rewrite R1 by done. unfold node_at in *. by rewrite Hout, Hd0.
Qed.

Lemma create_db_spec db d r d' : creates → fs_wf (nodes (os d)) →
  create_db fs_what create_file dump db d = (r, d') → created_or_undone db d r d'.
Proof.
  intros Hc Hwf. unfold create_db, mbind at 1, IO_bind at 1, of_result.
  assert (Hkept : ∀ t d1, nodes (os d1) = nodes (os d) → created_or_undone db d (Raise t) d1).
  { intros t d1 Hd1. split; [|by left]. intros p _. unfold node_at. by rewrite Hd1. }
  destruct (database_path db) as [p|e|] eqn:Ep; [|by intros [= <- <-]; apply Hkept|by destruct (database_path_no_crash db)].
  destruct (database_path_ok _ _ Ep) as (-> & _ & _). unfold mbind at 1, IO_bind at 1, get, raise_if, raise.
  case_bool_decide as Hex; [by intros [= <- <-]; apply Hkept|].
  assert (Hnone : node_at db d = None) by (destruct (node_at db d); [by destruct Hex|done]).
  unfold mbind at 1 2 3, IO_bind at 1 2 3, mret, IO_ret, create_directory.
  destruct (next_answer (os d)) as [a f1] eqn:Ea. destruct (next_answer_nodes _ _ _ Ea) as [Hn Hf].
  assert (Hn' := Hnone). unfold node_at in Hn'. rewrite Hn, Hn'.
  destruct a as [|e|k]; [|by intros [= <- <-]; apply Hkept; cbn|].
  all: destruct (parent_ok db f1) eqn:Ep1; [|by intros [= <- <-]; apply Hkept; cbn].
  all: apply try_create_db; try done.
  all: unfold create_directory; by rewrite Ea, Hn, Hn', Ep1.
Qed.

(** C15. [create_db] is all or nothing.  For a valid name that is not in use it makes the
    directory, the metadata of an empty database and an empty log, and touches nothing
    else.  When it throws, whatever the reason (a name that is refused, a path that
    exists, a directory, metadata file or log that cannot be made), the file system is as
    it was before, unless the removal of the directory it had just made, which runs on
    what that attempt left, fails as well; and even then nothing outside that directory
    changes. *)
Theorem create_db_atomic db d r d' : creates → fs_wf (nodes (os d)) →
  create_db fs_what create_file dump db d = (r, d') → created_or_undone db d r d'.
Proof. apply create_db_spec. Qed.

(** What [drop_db] does to the file system. *)
Lemma drop_db_spec open_name db d r d' : drop_db fs_what open_name db d = (r, d') →
  (∀ p, ¬ within db p → node_at p d' = node_at p d) ∧
  match r with
  | Return _ => dir_at db d = true ∧ open_name ≠ db ∧ ∀ p, within db p → node_at p d' = None
  | Raise (Rmdb _) => nodes (os d') = nodes (os d)
  | Raise (StdError _) => ∃ e, (remove_all db (os d)).1 = inl e
  | Undefined => False
  end.
Proof.
  unfold drop_db, mbind at 1, IO_bind at 1, of_result.
  destruct (database_path db) as [p|e|] eqn:Ep; [|by intros [= <- <-]|by destruct (database_path_no_crash db)].
  destruct (database_path_ok _ _ Ep) as (-> & _ & _). unfold mbind at 1, IO_bind at 1, get, raise_if, raise.
  destruct (dir_at db d) eqn:Ed; cbn [negb orb]; [|by intros [= <- <-]].
  destruct (file_at (in_dir db DB_META_NAME) d); cbn [negb]; [|by intros [= <- <-]].
  unfold mbind at 1 2, IO_bind at 1 2, mret, IO_ret. case_bool_decide as Ho; [by intros [= <- <-]|].
  unfold mbind, IO_bind. destruct (remove_all db (os d)) as [rr f] eqn:Er.
  destruct (remove_all_spec _ _ _ _ Er) as (R1 & _ & _ & R2). destruct rr as [e|n].
  { intros [= <- <-]. split; [intros p Hp; unfold node_at; cbn; by apply R1|]. by exists e. }
  destruct (R2 n eq_refl) as [R3 R4]. destruct (n =? 0) eqn:En.
  - apply Z.eqb_eq in En. intros _. exfalso. apply (proj1 R3) with (p := db) in En; [|by left].
    unfold dir_at, node_at in Ed. by rewrite En in Ed.
  - intros [= <- <-]. split; [intros p Hp; unfold node_at; cbn; by apply R1|]. split_and!; [done|done|].
    intros p Hp. unfold node_at. cbn. by apply R4.
Qed.

(** C39. Dropping undoes creating, and databases do not disturb each other.  Whatever
    [drop_db] returns, nothing outside the directory of the database changes; it refuses
    the database that is open, and its own exceptions leave everything as it was.  After a
    successful [create_db], [drop_db] of the same name (not the open database, and no
    call failing) succeeds and leaves the file system as it was before both. *)
Theorem create_drop_roundtrip open_name db d d1 :
  creates → fs_wf (nodes (os d)) → create_db fs_what create_file dump db d = (Return tt, d1) →
  (∀ r d2, drop_db fs_what open_name db d1 = (r, d2) →
    (∀ p, ¬ within db p → node_at p d2 = node_at p d1) ∧
    (open_name = db → ∃ e, r = Raise (Rmdb e)) ∧
    (∀ e, r = Raise (Rmdb e) → nodes (os d2) = nodes (os d1))) ∧
  (open_name ≠ db → Forall (λ a, a = Proceed) (script (os d1)) →
    ∃ d2, drop_db fs_what open_name db d1 = (Return tt, d2) ∧ nodes (os d2) = nodes (os d)).
Proof.
  intros Hc Hwf Hcreate. destruct (create_db_spec _ _ _ _ Hc Hwf Hcreate) as (Hout & Hnone & Hn1).
  assert (Hname : database_path db = Ok db).
  { unfold create_db, mbind at 1, IO_bind at 1, of_result in Hcreate.
    destruct (database_path db) as [p| |] eqn:E; try done. by destruct (database_path_ok _ _ E) as (-> & _). }
  assert (Hdir : dir_at db d1 = true).
  { unfold dir_at, node_at. rewrite Hn1. unfold database_nodes. rewrite !lookup_insert_ne by apply in_dir_ne.
    by rewrite lookup_insert_eq. }
  assert (Hfile : file_at (in_dir db DB_META_NAME) d1 = true).
  { unfold file_at, node_at. rewrite Hn1. unfold database_nodes.
    rewrite lookup_insert_ne by (symmetry; apply meta_ne_log). by rewrite lookup_insert_eq. }
  split.
  - intros r d2 Hd. pose proof (drop_db_spec _ _ _ _ _ Hd) as [H1 H2]. split_and!; [done| |by intros e ->].
    intros ->. unfold drop_db, mbind, IO_bind, of_result, get, raise_if, raise, mret, IO_ret in Hd.
    rewrite Hname, Hdir, Hfile in Hd. cbn [negb orb] in Hd. rewrite bool_decide_eq_true_2 in Hd by done. simplify_eq. by eexists.
  - intros Hne Hsc. destruct (drop_db fs_what open_name db d1) as [r d2] eqn:Hd. pose proof (drop_db_spec _ _ _ _ _ Hd) as [H1 H2].
    unfold drop_db, mbind, IO_bind, of_result, get, raise_if, raise, mret, IO_ret in Hd.
    rewrite Hname, Hdir, Hfile in Hd. cbn [negb orb] in Hd. rewrite bool_decide_eq_false_2 in Hd by done.
    destruct (remove_all db (os d1)) as [rr f] eqn:Er. destruct (remove_all_spec _ _ _ _ Er) as (R1 & _ & R2 & R3).
    destruct (R2 Hsc) as [_ [n ->]]. destruct (R3 n eq_refl) as [R4 R5]. destruct (n =? 0) eqn:En; simplify_eq.
    + exfalso. apply Z.eqb_eq in En. unfold dir_at, node_at in Hdir.
      by rewrite (proj1 R4 En db) in Hdir by by left.
    + eexists. split; [done|]. cbn. apply map_eq. intros p. destruct (within_dec db p) as [Hp|Hp].
      * rewrite R5 by done. destruct Hp as [->|Hp]; [done|]. symmetry. by apply (nothing_below _ db).
      * rewrite R1 by done. by apply Hout.
Qed.
End Databases.

(** A file system in memory with a [create_file] as documented. *)
Definition mem_create (p : string) : IO DiskManager unit := λ d,
  match node_at p d with
  | Some _ => (Raise (Rmdb (FileExistsError p)), d)
  | None => (Return tt, set_os (set_nodes (<[p := RegNode []]> (nodes (os d))) (os d)) d)
  end.

Lemma mem_creates : creates mem_create.
Proof.
  intros p d r d'. unfold mem_create. destruct (node_at p d) eqn:E; intros [= <- <-]; cbn; (split_and!; [done|by exists []|done..]).
Qed.

Definition sample_disk : DiskManager := DiskManager_new (mkFS {[ "other"%string := DirNode; "other/db.meta"%string := RegNode (str "x") ]} ∅ []).
Definition no_what (p : string) (e : Z) : string := p.
Definition no_dump (j : Json) : bytes := [].

Lemma sample_disk_wf : fs_wf (nodes (os sample_disk)).
Proof.
  intros p q x. cbn. intros [[<- <-]|[_ [<- <-]%lookup_singleton_Some]]%lookup_insert_Some Hq; vm_compute in Hq; by simplify_eq.
Qed.

Definition sample_created : outcome unit * DiskManager := create_db no_what mem_create no_dump "shop" sample_disk.

(** The directory is made, and then writing the metadata fails. *)
Definition faulty_disk : DiskManager := DiskManager_new (mkFS (nodes (os sample_disk)) ∅ [Proceed; Proceed; Short 0]).

Lemma create_db_atomic_witness :
  nodes (os sample_created.2) = database_nodes no_dump "shop" (nodes (os sample_disk)) ∧
  nodes (os (create_db no_what mem_create no_dump "shop" faulty_disk).2) = nodes (os faulty_disk).
Proof.
  pose proof (create_db_atomic no_what no_dump mem_create "shop" sample_disk (Return tt) sample_created.2 mem_creates
    sample_disk_wf ltac:(vm_compute; reflexivity)) as [_ [_ H]].
  split; [exact H|vm_compute; reflexivity].
Defined.

Lemma create_drop_roundtrip_witness :
  ∃ d2, drop_db no_what "other" "shop" sample_created.2 = (Return tt, d2) ∧ nodes (os d2) = nodes (os sample_disk).
Proof.
  refine (proj2 (create_drop_roundtrip no_what no_dump mem_create "other" "shop" sample_disk sample_created.2 mem_creates
    sample_disk_wf _) _ _).
  - vm_compute. reflexivity.
  - discriminate.
  - vm_compute. constructor.
Defined.

(** ** The log file *)

Section LogFile.
Context (open_file : string → IO DiskManager Z) (other_size : Z).

(** The log is open and holds [bs]. *)
Definition log_holds (bs : bytes) (d : DiskManager) : Prop :=
  0 ≤ log_fd_ d ∧ ∃ off, fds (os d) !! log_fd_ d = Some (mkOpen LOG_FILE_NAME off) ∧
  nodes (os d) !! LOG_FILE_NAME = Some (RegNode bs).

Lemma open_log_held bs d : log_holds bs d → open_log open_file d = (Return (log_fd_ d), d).
Proof.
  intros [H0 _]. unfold open_log, mbind, IO_bind, get, GetLogFd, raise_if, mret, IO_ret.
  assert (log_fd_ d =? -1 = false) as -> by lia. assert (log_fd_ d <? 0 = false) as -> by lia. done.
Qed.

Lemma written_end bs data : written bs (zlen bs) data = bs ++ data.
Proof.
  unfold written. rewrite Z.sub_diag. cbn [Z.to_nat replicate]. rewrite app_nil_r, ztake_all by done.
  rewrite zdrop_all by (pose proof (zlen_nonneg data); lia). by rewrite app_nil_r.
Qed.

(** Seeking to a position that exists. *)
Lemma lseek_held bs d offset : log_holds bs d → 0 ≤ offset bs →
  sys (os_lseek (log_fd_ d) offset) d =
  (Return (offset bs), set_os (mkFS (nodes (os d)) (<[log_fd_ d := mkOpen LOG_FILE_NAME (offset bs)]> (fds (os d))) (script (os d))) d).
Proof.
  intros (H0 & off & Hfd & Hn) Ho. unfold sys, os_lseek, fd_content. rewrite Hfd. cbn. rewrite Hn. cbn.
  by rewrite (proj2 (Z.ltb_ge (offset bs) 0) Ho).
Qed.

(** A write, complete or not, adds to the end. *)
Lemma write_log_spec bs d data r d' : log_holds bs d → write_log open_file data d = (r, d') →
  ∃ k, log_holds (bs ++ take k data) d' ∧
  match r with Return _ => take k data = data | Raise t => t = Rmdb UnixError | Undefined => False end.
Proof.
  intros H. unfold write_log. unfold mbind at 1, IO_bind at 1. rewrite (open_log_held _ _ H).
  unfold mbind at 1, IO_bind at 1. rewrite (lseek_held bs d zlen H) by apply zlen_nonneg. destruct H as (H0 & off & Hfd & Hn).
  unfold mbind, IO_bind, sys, os_write. cbn [os set_os].
  set (f := mkFS _ _ _). destruct (next_answer f) as [a f1] eqn:Ea. destruct (next_answer_nodes _ _ _ Ea) as [Hn1 Hf1].
  assert (Hc : fd_content (log_fd_ d) f1 = Some (mkOpen LOG_FILE_NAME (zlen bs), bs)).
  { unfold fd_content. rewrite Hf1, Hn1. cbn. rewrite lookup_insert_eq. cbn. by rewrite Hn. }
  rewrite Hc. assert (Hheld : ∀ put, log_holds (bs ++ put)
    (set_os (mkFS (<[LOG_FILE_NAME := RegNode (written bs (zlen bs) put)]> (nodes f1))
       (<[log_fd_ d := mkOpen LOG_FILE_NAME (zlen bs + zlen put)]> (fds f1)) (script f1)) (set_os f d))).
  { intros put. split; [done|]. eexists. cbn. rewrite !lookup_insert_eq. by rewrite written_end. }
  destruct a as [|e|n].
  - cbn [of_path of_offset]. unfold raise_if, raise, mret, IO_ret. rewrite Z.eqb_refl. intros [= <- <-].
    exists (length data). rewrite firstn_all. split; [apply Hheld|done].
  - intros [= <- <-]. exists 0%nat. rewrite take_0, app_nil_r. split; [|done]. split; [done|]. eexists. cbn. rewrite Hn1, Hf1. cbn.
    by rewrite lookup_insert_eq.
  - cbn [of_path of_offset]. unfold raise_if, raise, mret, IO_ret.
    destruct (zlen (take n data) =? zlen data) eqn:El; cbn [negb]; intros [= <- <-]; exists n; (split; [apply Hheld|]); [|done].
    apply Z.eqb_eq in El. unfold zlen in El. rewrite length_take in El. apply take_ge. lia.
Qed.

(** A read changes nothing, and delivers what is in the file from [offset] on. *)
Lemma read_log_spec bs d size offset r d' : log_holds bs d → zlen bs ≤ INT_MAX → 0 ≤ size → 0 ≤ offset →
  read_log other_size open_file size offset d = (r, d') →
  log_holds bs d' ∧ (Forall (λ a, a = Proceed) (script (os d)) → ∃ x, r = Return x) ∧
  match r with
  | Return (got, n) => if zlen bs <? offset then got = [] ∧ n = -1 else got = ztake size (zdrop offset bs) ∧ n = zlen got
  | Raise t => t = Rmdb UnixError ∨ t = Rmdb (InternalError "short read from database log")
  | Undefined => False
  end.
Proof.
  intros H Hmax Hsize Hoff. unfold read_log. unfold mbind at 1, IO_bind at 1. rewrite (open_log_held _ _ H).
  unfold mbind at 1, IO_bind at 1, get_file_size, node_at. pose proof H as (H0 & off & Hfd & Hn). rewrite Hn. cbn [st_size].
  pose proof (zlen_nonneg bs) as Hz. rewrite (proj2 (Z.ltb_ge (zlen bs) 0)), (proj2 (Z.ltb_ge INT_MAX (zlen bs))) by done.
  cbn [orb]. destruct (zlen bs <? offset) eqn:Eo; [intros [= <- <-]; split_and!; [done|by eauto|done|done]|].
  apply Z.ltb_ge in Eo. rewrite (proj2 (Z.ltb_ge INT_MAX (zlen bs - offset))) by lia.
  set (n := Z.min size (zlen bs - offset)). assert (Hn0 : 0 ≤ n) by lia.
  assert (Htake : ztake n (zdrop offset bs) = ztake size (zdrop offset bs)).
  { unfold n. destruct (Z.min_spec size (zlen bs - offset)) as [[_ ->]|[Hle ->]]; [done|].
    rewrite !ztake_all; [done|rewrite zlen_zdrop by lia; lia..]. }
  assert (Hlen : zlen (ztake n (zdrop offset bs)) = n) by (apply zlen_ztake; rewrite zlen_zdrop by lia; lia).
  destruct (n =? 0) eqn:En.
  { apply Z.eqb_eq in En. intros [= <- <-]. split; [done|]. split; [by eauto|]. cbv beta iota.
    rewrite <- Htake, (proj1 (zlen_nil_iff (ztake n (zdrop offset bs)))) by lia. done. }
  rewrite (proj2 (Z.ltb_ge n 0) Hn0). unfold mbind at 1, IO_bind at 1. rewrite (lseek_held bs d (λ _, offset) H) by done.
  unfold mbind, IO_bind, sys, os_read. cbn [os set_os]. set (f := mkFS _ _ _).
  destruct (next_answer f) as [a f1] eqn:Ea. destruct (next_answer_nodes _ _ _ Ea) as [Hn1 Hf1].
  assert (Hc : fd_content (log_fd_ d) f1 = Some (mkOpen LOG_FILE_NAME offset, bs)).
  { unfold fd_content. rewrite Hf1, Hn1. cbn. rewrite lookup_insert_eq. cbn. by rewrite Hn. }
  assert (Hpro : Forall (λ a, a = Proceed) (script (os d)) → a = Proceed).
  { unfold next_answer in Ea. cbn in Ea. intros Hall. destruct Hall; by simplify_eq. }
  assert (Hheld : ∀ o, log_holds bs (set_os (mkFS (nodes f1) (<[log_fd_ d := mkOpen LOG_FILE_NAME o]> (fds f1)) (script f1)) (set_os f d))).
  { intros o. split; [done|]. exists o. cbn. rewrite lookup_insert_eq, Hn1. done. }
  rewrite Hc. destruct a as [|e|k]; cbn [of_path of_offset].
  - unfold raise_if, mret, IO_ret. rewrite Hlen, Z.eqb_refl. cbn [negb]. intros [= <- <-].
    split_and!; [apply Hheld|by eauto|done|done].
  - intros [= <- <-]. split_and!; [|by intros ?%Hpro|by left]. split; [done|]. exists offset. cbn. rewrite Hf1, Hn1. cbn.
    by rewrite lookup_insert_eq.
  - set (got := ztake (Z.min (Z.of_nat k) n) (zdrop offset bs)). unfold raise_if, raise, mret, IO_ret.
    destruct (zlen got =? n) eqn:Eg; cbn [negb]; intros [= <- <-]; (split; [apply Hheld|split; [by intros ?%Hpro|]]); [|by right].
    apply Z.eqb_eq in Eg. split; [|done]. rewrite <- Htake. unfold got in *.
    destruct (Z.min_spec (Z.of_nat k) n) as [[Hlt Hm]|[_ ->]]; [|done]. rewrite Hm in Eg.
    rewrite zlen_ztake in Eg by (rewrite zlen_zdrop by lia; lia). lia.
Qed.

Fixpoint write_logs (chunks : list bytes) : IO DiskManager unit :=
  match chunks with [] => mret tt | c :: chunks => _ ← write_log open_file c; write_logs chunks end.

Lemma write_logs_spec chunks : ∀ bs d d', log_holds bs d → write_logs chunks d = (Return tt, d') → log_holds (bs ++ concat chunks) d'.
Proof.
  induction chunks as [|c chunks IH]; intros bs d d' H; cbn [write_logs concat].
  - unfold mret, IO_ret. intros [= <-]. by rewrite app_nil_r.
  - unfold mbind, IO_bind. destruct (write_log open_file c d) as [r d1] eqn:E.
    destruct (write_log_spec _ _ _ _ _ H E) as (k & H1 & Hr). destruct r; [|done..]. rewrite Hr in H1.
    intros H2. rewrite app_assoc. by eapply IH.
Qed.

(** C26. The log file is an append-only sequence of bytes.  [write_log] adds its data at
    the end, or throws and has added a prefix of it; what is in the log before stays.
    [read_log] never changes the log: behind the end it returns -1, elsewhere the bytes
    from its offset on, as many as there are up to the size asked for, or it throws.
    After a sequence of writes, reading at the position and with the size of any of them
    gives it back. *)
Theorem log_file_append_only bs d : log_holds bs d → zlen bs ≤ INT_MAX →
  (∀ data r d', write_log open_file data d = (r, d') →
    ∃ k, log_holds (bs ++ take k data) d' ∧
    match r with Return _ => take k data = data | Raise t => t = Rmdb UnixError | Undefined => False end) ∧
  (∀ size offset r d', 0 ≤ size → 0 ≤ offset → read_log other_size open_file size offset d = (r, d') →
    log_holds bs d' ∧
    match r with
    | Return (got, n) => if zlen bs <? offset then got = [] ∧ n = -1 else got = ztake size (zdrop offset bs) ∧ n = zlen got
    | Raise t => t = Rmdb UnixError ∨ t = Rmdb (InternalError "short read from database log")
    | Undefined => False
    end) ∧
  (∀ before c chunks d1, write_logs (before ++ c :: chunks) d = (Return tt, d1) →
    zlen (bs ++ concat (before ++ c :: chunks)) ≤ INT_MAX → Forall (λ a, a = Proceed) (script (os d1)) →
    ∃ d2, read_log other_size open_file (zlen c) (zlen (bs ++ concat before)) d1 = (Return (c, zlen c), d2)).
Proof.
  intros H Hmax. split_and!.
  - intros data r d'. by apply write_log_spec.
  - intros size offset r d' Hs Ho Hr. by destruct (read_log_spec _ _ _ _ _ _ H Hmax Hs Ho Hr) as (? & _ & ?).
  - intros before c chunks d1 Hw Hlen Hp. pose proof (write_logs_spec _ _ _ _ H Hw) as H1.
    destruct (read_log other_size open_file (zlen c) (zlen (bs ++ concat before)) d1) as [r d2] eqn:Er.
    destruct (read_log_spec _ _ _ _ _ _ H1 Hlen (zlen_nonneg _) (zlen_nonneg _) Er) as (_ & Hret & Hr).
    destruct (Hret Hp) as [[got n] ->]. exists d2. rewrite concat_app in Hr. cbn [concat] in Hr.
    rewrite !app_assoc in Hr. rewrite <- (app_assoc (bs ++ concat before)) in Hr.
    rewrite zdrop_app_exact, ztake_app_exact in Hr by done. pose proof (zlen_nonneg (c ++ concat chunks)).
    rewrite (proj2 (Z.ltb_ge _ _)) in Hr by (rewrite (zlen_app (bs ++ concat before)); lia). by destruct Hr as [-> ->].
Qed.
End LogFile.

Definition no_open (p : string) : IO DiskManager Z := λ d, (Return (-1), d).
Definition log_disk : DiskManager :=
  set_log_fd 5 (DiskManager_new (mkFS {[ LOG_FILE_NAME := RegNode (str "ab") ]} {[ 5 := mkOpen LOG_FILE_NAME 0 ]} [])).

Lemma log_file_append_only_witness :
  ∃ d2, read_log 0 no_open 3 4 (write_logs no_open [str "cd"; str "efg"; str "h"] log_disk).2 = (Return (str "efg", 3), d2).
Proof.
  refine (proj2 (proj2 (log_file_append_only no_open 0 (str "ab") log_disk _ _)) [str "cd"] (str "efg") [str "h"] _ _ _ _).
  - split; [vm_compute; discriminate|]. exists 0. split; vm_compute; reflexivity.
  - vm_compute. discriminate.
  - vm_compute. reflexivity.
  - vm_compute. discriminate.
  - vm_compute. constructor.
Defined.

(** ** Page numbers *)

Fixpoint allocate_pages (fd : Z) (k : nat) : IO DiskManager (list Z) :=
  match k with O => mret [] | S k => n ← allocate_page fd; ns ← allocate_pages fd k; mret (n :: ns) end.

Lemma allocate_page_spec fd d : in_table fd = true →
  ∃ d', allocate_page fd d = (Return (default 0 (fd2pageno_ d !! fd)), d') ∧
    fd2pageno_ d' = <[fd := s32 (default 0 (fd2pageno_ d !! fd) + 1)]> (fd2pageno_ d) ∧ os d' = os d.
Proof. intros H. unfold allocate_page. rewrite H. by eexists. Qed.

Lemma allocate_pages_spec fd d k : in_table fd = true → ∀ base d0, 0 ≤ base → base + Z.of_nat k ≤ INT_MAX →
  fd2pageno_ d0 = <[fd := base]> (fd2pageno_ d) →
  ∃ d1, allocate_pages fd k d0 = (Return ((λ i, base + Z.of_nat i) <$> seq 0 k), d1) ∧
    fd2pageno_ d1 = <[fd := base + Z.of_nat k]> (fd2pageno_ d).
Proof.
  intros Hin. induction k as [|k IH]; intros base d0 Hb Hk H0.
  - exists d0. by rewrite Z.add_0_r.
  - cbn [allocate_pages]. unfold mbind at 1, IO_bind at 1. destruct (allocate_page_spec fd d0 Hin) as (d1 & -> & H1 & _).
    assert (Hd : default 0 (fd2pageno_ d0 !! fd) = base) by by rewrite H0, lookup_insert_eq.
    rewrite Hd in *. rewrite H0, insert_insert_eq in H1. assert (s32 (base + 1) = base + 1) as Hw by (unfold INT_MAX in Hk; unfold s32; rewrite Z.mod_small; lia).
    rewrite Hw in H1. destruct (IH (base + 1) d1 ltac:(lia) ltac:(lia) H1) as (d2 & H2 & H3).
    unfold mbind, IO_bind. rewrite H2. exists d2. unfold mret, IO_ret. split.
    + repeat f_equal. cbn [seq fmap list_fmap]. f_equal; [lia|]. rewrite <- (fmap_S_seq 0 k), <- list_fmap_compose.
      apply list_fmap_ext. intros i x _. cbn. lia.
    + rewrite H3. f_equal. lia.
Qed.

(** The page numbers of a file are handed out once.  Calls of [allocate_page] on a
    descriptor within the table give consecutive numbers from the one that
    [set_fd2pageno] set, as long as these are below the largest [int]; they do not touch
    the counters of other files; and after them [get_fd2pageno] is the next number.  A
    descriptor outside the table is never accepted. *)
Theorem page_numbers_consecutive fd start k d d0 : in_table fd = true → 0 ≤ start → start + Z.of_nat k ≤ INT_MAX →
  set_fd2pageno fd start d = (Return tt, d0) →
  (∃ d1, allocate_pages fd k d0 = (Return ((λ i, start + Z.of_nat i) <$> seq 0 k), d1) ∧
    get_fd2pageno fd d1 = (Return (start + Z.of_nat k), d1) ∧
    (∀ fd', fd' ≠ fd → get_fd2pageno fd' d1 = ((get_fd2pageno fd' d).1, d1))) ∧
  (∀ fd', in_table fd' = false → (allocate_page fd' d).1 = Undefined).
Proof.
  intros Hin Hs Hk Hset. split; [|intros fd' Hf; unfold allocate_page; by rewrite Hf].
  assert (H0 : fd2pageno_ d0 = <[fd := start]> (fd2pageno_ d)).
  { unfold set_fd2pageno in Hset. rewrite Hin in Hset. by simplify_eq. }
  destruct (allocate_pages_spec fd d k Hin start _ Hs Hk H0) as (d1 & H1 & H2). exists d1. split; [exact H1|].
  unfold get_fd2pageno. split.
  - by rewrite Hin, H2, lookup_insert_eq.
  - intros fd' Hne. destruct (in_table fd'); [|done]. by rewrite H2, lookup_insert_ne.
Qed.

Lemma page_numbers_consecutive_witness :
  (allocate_pages 5 3 (set_fd2pageno 5 7 sample_disk).2).1 = Return [7; 8; 9].
Proof.
  destruct (page_numbers_consecutive 5 7 3 sample_disk (set_fd2pageno 5 7 sample_disk).2) as [(d1 & H & _) _].
  - reflexivity.
  - discriminate.
  - vm_compute. discriminate.
  - reflexivity.
  - rewrite H. reflexivity.
Defined.

(** ** Directories *)

(** [create_dir] and [destroy_dir] do what they say or throw.  Creating succeeds only
    where nothing was and changes only that path; when it throws, nothing changes, and a
    directory that exists gives [FileExistsError].  Destroying removes the path with all
    that is below and nothing else; only a path with nothing there gives
    [FileNotFoundError]; an error of the system may leave part of the tree. *)
Theorem directories_correct message path d r d' :
  (create_dir message path d = (r, d') →
    match r with
    | Return _ => node_at path d = None ∧ nodes (os d') = <[path := DirNode]> (nodes (os d))
    | Raise t => nodes (os d') = nodes (os d) ∧ (t = Rmdb (FileExistsError path) → dir_at path d = true)
    | Undefined => False
    end) ∧
  (destroy_dir message path d = (r, d') →
    (∀ p, ¬ within path p → node_at p d' = node_at p d) ∧
    match r with
    | Return _ => (∃ p, within path p ∧ is_Some (node_at p d)) ∧ ∀ p, within path p → node_at p d' = None
    | Raise t => t = Rmdb (FileNotFoundError path) → nodes (os d') = nodes (os d) ∧ ∀ p, within path p → node_at p d = None
    | Undefined => False
    end).
Proof.
  split.
  - unfold create_dir, create_directory, dir_at, node_at. destruct (next_answer (os d)) as [a f] eqn:Ea.
    destruct (next_answer_nodes _ _ _ Ea) as [Hn _]. rewrite Hn.
    destruct a; [| intros [= <- <-]; by cbn|]; (destruct (nodes (os d) !! path) as [[]|]; [..|destruct (parent_ok path f)]);
      intros [= <- <-]; cbn; rewrite ?Hn; done.
  - unfold destroy_dir. destruct (remove_all path (os d)) as [rr f] eqn:Er.
    destruct (remove_all_spec _ _ _ _ Er) as (R1 & _ & _ & R2).
    destruct rr as [e|n]; [intros [= <- <-]; split; [|done]; intros p Hp; unfold node_at; cbn; by apply R1|].
    destruct (R2 n eq_refl) as [R3 R4]. destruct (n =? 0) eqn:En; intros [= <- <-].
    + apply Z.eqb_eq in En. pose proof (proj1 R3 En) as Hnone. split; [intros p Hp; unfold node_at; cbn; by apply R1|].
      intros _. split; [|exact Hnone]. cbn. apply map_eq. intros p.
      destruct (within_dec path p) as [Hp|Hp]; [by rewrite R4, Hnone|by rewrite R1].
    + split; [intros p Hp; unfold node_at; cbn; by apply R1|]. split; [|intros p Hp; unfold node_at; cbn; by apply R4].
      apply Z.eqb_neq in En. destruct (tree path (nodes (os d))) as [|p l] eqn:Et.
      * exfalso. apply En. unfold remove_all in Er. rewrite Et in Er. cbn in Er. congruence.
      * assert (p ∈ tree path (nodes (os d))) as [Hs Hw]%tree_elem by (rewrite Et; by left). by exists p.
Qed.
