(* ===== verification/Execution.v ===== *)
(** * Execution: inserting records and reading them back

    Models the constructor and [next] of [src/src/execution/executor_insert.h] and the
    part of [QlManager::select_from] ([execution_manager.cpp]) that turns a record into
    result cells.

    The record file and the B+ tree are exercises, so [InsertExecutor] runs against the
    interface [TableStore].  A missing handle ([std::out_of_range], which is not an
    [RMDBError]) is [Crash]. *)

From S2P Require Import Prelude Common Catalog Ast Analyzer Planner Record IndexFile Disk Server System.
Import Result.

(** ** The store of one table *)

Class TableStore (T : Type) := {
  insert_record : bytes → M T Rid;
  delete_record : Rid → M T unit;
  insert_entry : string → bytes → Rid → M T unit;
  delete_entry : string → bytes → Rid → M T bool }.

(** ** [InsertExecutor] *)

(** The constructor's checks; [handles] are the open record files with their headers. *)
Definition new_insert (db : DbMeta) (handles : gmap string RmFileHandle) (table : string) (values : list Value)
  : result (TabMeta * Z) :=
  tab ← get_table db table;
  _ ← throw_if (negb (zlen values =? zlen (tab_cols tab))) InvalidValueCountError;
  match handles !! table with
  | Some fh => Ok (tab, record_size (file_hdr fh))
  | None => Crash
  end.

(** [memcpy(rec.data + offset, ..)] inside the record. *)
Definition put (rec : bytes) (offset : Z) (bs : bytes) : result bytes :=
  if (offset <? 0) || (zlen rec <? offset + zlen bs) then Crash
  else Ok (ztake offset rec ++ bs ++ zdrop (offset + zlen bs) rec).

Fixpoint fill_record (cols : list ColMeta) (values : list Value) (rec : bytes) : result bytes :=
  match cols, values with
  | col :: cols, val :: values =>
    _ ← throw_if (negb (bool_decide (col_type col = v_type val)))
          (IncompatibleTypeError (coltype2str (col_type col)) (coltype2str (v_type val)));
    raw ← match v_raw val with
          | None => v ← init_raw val (col_len col); Ok (default [] (v_raw v))
          | Some raw =>
            if negb (zlen raw =? col_len col)
            then Throw (InternalError "Insert value raw size does not match column length") else Ok raw
          end;
    rec ← put rec (col_offset col) raw;
    fill_record cols values rec
  | _, _ => Ok rec
  end.

Section Insert.
Context {T : Type} `{TableStore T}.

(** The handler: entries in reverse order, then the record. *)
Fixpoint undo_entries (inserted : list (string * bytes)) (rid : Rid) : M T unit :=
  match inserted with
  | [] => mret tt
  | (index, key) :: inserted => _ ← delete_entry index key rid; undo_entries inserted rid
  end.

(** The index loop of table [tab_name_]; [inserted] has the latest entry first.
    [indexes_.at] of a file that is not open throws inside the [try] block, too. *)
Fixpoint insert_entries (indexes_ : gmap string BPlusTree) (tab_name_ : string) (indexes : list IndexMeta) (rec : bytes) (rid : Rid)
    (inserted : list (string * bytes)) : M T unit :=
  match indexes with
  | [] => mret tt
  | index :: indexes => λ t,
    let ih := make_index_name tab_name_ (col_name <$> idx_cols index) in
    let key := make_key index rec in
    match indexes_ !! ih with
    | None => (_ ← undo_entries inserted rid; _ ← delete_record rid; lift Crash) t
    | Some _ =>
      match insert_entry ih key rid t with
      | (Ok _, t) => insert_entries indexes_ tab_name_ indexes rec rid ((ih, key) :: inserted) t
      | (Throw e, t) => (_ ← undo_entries inserted rid; _ ← delete_record rid; lift (Throw e)) t
      | (Crash, t) => (Crash, t)
      end
    end
  end.

(** [InsertExecutor::next]: the new record's position. *)
Definition insert_next (indexes_ : gmap string BPlusTree) (tab : TabMeta) (record_size : Z) (values : list Value) (junk : bytes) : M T Rid :=
  _ ← lift (throw_if (record_size <? 0) (InvalidRecordSizeError record_size));
  let rec := ztake record_size junk ++ replicate (Z.to_nat (record_size - zlen junk)) Byte.x00 in
  rec ← lift (fill_record (tab_cols tab) values rec);
  rid ← insert_record rec;
  _ ← insert_entries indexes_ (tab_name tab) (tab_indexes tab) rec rid [];
  mret rid.

End Insert.

(** ** [QlManager::select_from] *)

(** [WireResultCell cell{}], then the bytes of the field; a string ends at its first
    zero byte. *)
Definition zero_byte (b : byte) : bool := bool_decide (b = Byte.x00).

Definition string_of_field (field : bytes) : bytes :=
  match list_find (λ b, Is_true (zero_byte b)) field with
  | Some (i, _) => take i field
  | None => field
  end.

Definition read_cell (tuple : bytes) (col : ColMeta) : result WireResultCell :=
  let field := ztake (col_len col) (zdrop (col_offset col) tuple) in
  let word := le_combine (ztake 4 (zdrop (col_offset col) tuple)) in
  match col_type col with
  | TYPE_INT => if zlen tuple <? col_offset col + 4 then Crash else Ok (mkRCell TYPE_INT (s32 word) 0 [])
  | TYPE_FLOAT => if zlen tuple <? col_offset col + 4 then Crash else Ok (mkRCell TYPE_FLOAT 0 word [])
  | TYPE_STRING =>
    if zlen tuple <? col_offset col + col_len col then Crash else Ok (mkRCell TYPE_STRING 0 0 (string_of_field field))
  end.

(** The column captions: the selected names, or the schema's where they run out. *)
Fixpoint result_columns (captions : list string) (proj_cols : list ColMeta) : list WireResultColumn :=
  match proj_cols with
  | [] => []
  | col :: proj_cols =>
    match captions with
    | caption :: captions => mkColumn (str caption) (col_type col) :: result_columns captions proj_cols
    | [] => mkColumn (str (col_name col)) (col_type col) :: result_columns [] proj_cols
    end
  end.
