(* ===== verification/ExecutionFacts.v ===== *)
(** * Correctness of execution

    An inserted record is the concatenation of its encoded values and reads back as the
    literals of the statement; inserting keeps the table and its indexes consistent,
    failures included; and every analyzed SELECT gets an executor tree with the right
    schema. *)

From S2P Require Import Prelude Common Catalog CatalogFacts Ast Analyzer AnalyzerFacts Planner PlannerFacts Record RecordFacts IndexFile IndexFacts Disk Server System SystemFacts Execution.
Import Result.

Lemma laid_out_start tab off cols : laid_out tab off cols → ∀ c, c ∈ cols → off ≤ col_offset c ∧ len_ok (col_type c) (col_len c) ∧
  col_offset c + col_len c ≤ off + lengths cols.
Proof.
  revert off. induction cols as [|d cols IH]; intros off Hl c Hc; [by apply elem_of_nil in Hc|].
  pose proof (laid_out_lengths _ _ _ Hl) as [Hf _]. apply Forall_cons in Hf as [Hd Hf].
  destruct Hl as (_ & Ho & _ & _ & Hl). rewrite lengths_cons.
  assert (0 ≤ lengths cols) as Hp. { clear -Hf. induction Hf as [|x l [Hx _] _ IH]; [done|]. rewrite lengths_cons. lia. }
  apply elem_of_cons in Hc as [-> | Hc]; [split_and!; [lia|done|lia]|]. destruct (IH _ Hl c Hc) as (H1 & H2 & H3). destruct Hd. split_and!; [lia|done|lia].
Qed.

(** ** The bytes of a record *)

(** A bound value for a column. *)
Definition value_for (v : Value) (c : ColMeta) : Prop :=
  v_type v = col_type c ∧ ∃ bs, v_raw v = Some bs ∧ zlen bs = col_len c.

Definition raw (v : Value) : bytes := default [] (v_raw v).

Lemma fill_record_spec tab cols values pre rest :
  laid_out tab (zlen pre) cols → Forall2 value_for values cols → zlen rest = lengths cols →
  fill_record cols values (pre ++ rest) = Ok (pre ++ concat (raw <$> values)).
Proof.
  intros Hl Hv. revert pre rest Hl. induction Hv as [|v c values cols [Ht (bs & Hr & Hlen)] _ IH]; intros pre rest Hl Hrest.
  { cbn. apply zlen_nil_iff in Hrest as ->. done. }
  pose proof (laid_out_lengths _ _ _ Hl) as [Hf _]. apply Forall_cons in Hf as [[Hc _] Hf].
  assert (0 ≤ lengths cols) as Hp. { clear -Hf. induction Hf as [|x l [Hx _] _ IH]; [done|]. rewrite lengths_cons. lia. }
  destruct Hl as (_ & Ho & _ & _ & Hl). rewrite lengths_cons in Hrest. cbn [fill_record].
  rewrite (bool_decide_true (col_type c = v_type v)) by done. cbn [negb throw_if]. step_ok. rewrite Hr, Hlen, Z.eqb_refl. cbn [negb].
  step_ok. unfold put. rewrite Ho, Hlen, zlen_app, Hrest. pose proof (zlen_nonneg pre). zbool. cbn [orb]. step_ok.
  rewrite ztake_app_exact by done. rewrite <- zdrop_zdrop, zdrop_app_exact by lia. rewrite app_assoc.
  rewrite IH; [|by rewrite zlen_app, Hlen|rewrite zlen_zdrop; lia].
  rewrite fmap_cons. cbn [concat]. unfold raw at 2. rewrite Hr. cbn. by rewrite <- app_assoc.
Qed.

(** Field [c] of the record is the image of its value. *)
Lemma record_fields tab cols values pre :
  laid_out tab (zlen pre) cols → Forall2 value_for values cols →
  Forall2 (λ v c, ztake (col_len c) (zdrop (col_offset c) (pre ++ concat (raw <$> values))) = raw v ∧
    col_offset c + col_len c ≤ zlen (pre ++ concat (raw <$> values)) ∧ 0 ≤ col_offset c) values cols.
Proof.
  intros Hl Hv. revert pre Hl. induction Hv as [|v c values cols [Ht (bs & Hr & Hlen)] _ IH]; intros pre Hl; [constructor|].
  destruct Hl as (_ & Ho & _ & _ & Hl). rewrite fmap_cons. cbn [concat]. assert (raw v = bs) as Hraw by (unfold raw; by rewrite Hr).
  rewrite Hraw. pose proof (zlen_nonneg pre). pose proof (zlen_nonneg (concat (raw <$> values))). constructor.
  - rewrite Ho. split_and!; [|rewrite !zlen_app; lia|lia]. rewrite zdrop_app_exact, Hraw by done. by apply ztake_app_exact.
  - rewrite app_assoc. apply IH. by rewrite zlen_app, Hlen.
Qed.

Lemma concat_raw_length values cols : Forall2 value_for values cols → zlen (concat (raw <$> values)) = lengths cols.
Proof.
  induction 1 as [|v c values cols [_ (bs & Hr & Hl)] _ IH]; [done|]. rewrite fmap_cons, lengths_cons. cbn [concat].
  rewrite zlen_app, IH. unfold raw. rewrite Hr. cbn. lia.
Qed.

(** ** Literals in, literals out *)

(** What the lexer guarantees of a literal. *)
Definition literal_ok (e : option Expr) : Prop :=
  match e with
  | Some (IntLit z) => is_s32 z
  | Some (FloatLit bits) => is_u32 bits
  | Some (StringLit s) => Byte.x00 ∉ str s
  | _ => True
  end.

Definition literal_cell (e : option Expr) (cell : WireResultCell) : Prop :=
  match e with
  | Some (IntLit z) => cell = mkRCell TYPE_INT z 0 []
  | Some (FloatLit bits) => cell = mkRCell TYPE_FLOAT 0 bits []
  | Some (StringLit s) => cell = mkRCell TYPE_STRING 0 0 (str s)
  | _ => False
  end.

Lemma string_of_field_padded s n : Byte.x00 ∉ s → string_of_field (s ++ replicate n Byte.x00) = s.
Proof.
  intros Hs. unfold string_of_field.
  assert (∀ s, Byte.x00 ∉ s → list_find (λ b, Is_true (zero_byte b)) (s ++ replicate n Byte.x00) =
    if bool_decide (n = 0%nat) then None else Some (length s, Byte.x00)) as Hf.
  { clear. induction s as [|b s IH]; intros Hs.
    - destruct n; [done|]. by rewrite bool_decide_false.
    - cbn [app list_find]. apply not_elem_of_cons in Hs as [Hb Hs]. 
      assert (zero_byte b = false) as Hz by (unfold zero_byte; apply bool_decide_eq_false; congruence).
      rewrite decide_False by (rewrite Hz; by intros []). rewrite IH by done. by destruct (bool_decide _). }
  rewrite Hf by done. case_bool_decide as E; [subst n; by rewrite app_nil_r|]. by rewrite take_app_length.
Qed.

Lemma bind_value_cell e c v tuple :
  bind_value (e, c) = Ok v → literal_ok e → len_ok (col_type c) (col_len c) →
  ztake (col_len c) (zdrop (col_offset c) tuple) = raw v → col_offset c + col_len c ≤ zlen tuple →
  ∃ cell, read_cell tuple c = Ok cell ∧ literal_cell e cell.
Proof.
  destruct e as [e|]; [|done]. cbn [bind_value]. intros H Hlit [Hp Hlen] Hf Hin.
  apply bind_ok in H as (w & Hw & H). apply bind_ok in H as ([] & Ht & H). apply throw_if_ok, negb_false_iff, bool_decide_eq_true in Ht.
  pose proof (convert_fresh _ _ Hw) as Hnone. unfold read_cell. rewrite <- Ht in Hlen |- *. unfold init_raw in H. cbv zeta in H.
  rewrite Hnone in H. apply bind_ok in H as ([] & _ & H). apply bind_ok in H as ([] & _ & H).
  assert (∀ z, is_u32 z → le_combine (le_split 4 z) = z) as Hle.
  { intros z Hz. rewrite le_combine_split. change (8 * Z.of_nat 4) with 32. by apply Z.mod_small. }
  destruct e; cbn in Hw; try done; injection Hw as <-; cbn [v_type set_int set_float set_str Value_default v_bits v_str] in *.
  - rewrite Hlen in Hf, Hin. rewrite (proj2 (Z.ltb_ge _ _)) by lia. eexists. split; [done|]. cbn. f_equal.
    apply bind_ok in H as ([] & _ & [= <-]). unfold raw in Hf. cbn in Hf. rewrite Hf, Hle by apply u32_range. by apply s32_u32.
  - rewrite Hlen in Hf, Hin. rewrite (proj2 (Z.ltb_ge _ _)) by lia. eexists. split; [done|]. cbn. f_equal.
    apply bind_ok in H as ([] & _ & [= <-]). unfold raw in Hf. cbn in Hf. by rewrite Hf, Hle.
  - rewrite (proj2 (Z.ltb_ge _ _)) by lia. eexists. split; [done|]. cbn. f_equal. rewrite Hf.
    apply bind_ok in H as ([] & _ & [= <-]). unfold raw. cbn. by apply string_of_field_padded.
Qed.

Lemma bind_values_for es cols values :
  length es = length cols → Forall2 (λ p v, bind_value p = Ok v) (zip es cols) values → Forall2 value_for values cols.
Proof.
  intros Hn H. revert es values Hn H. induction cols as [|c cols IH]; intros [|e es] values Hn H; try done.
  { inversion H. constructor. }
  cbn [zip zip_with] in H. inversion H as [|? v ? vs Hv Hvs]; subst. injection Hn as Hn. constructor; [|by eapply IH].
  destruct e as [e|]; [|done]. cbn in Hv. apply bind_ok in Hv as (w & _ & Hv). apply bind_ok in Hv as ([] & Hcmp & Hv).
  apply throw_if_ok, negb_false_iff, bool_decide_eq_true in Hcmp.
  apply init_raw_ok in Hv as (Hty & _ & _ & bs & Hbs & Hlen). split; [congruence|eauto].
Qed.

(** C35. INSERT stores what SELECT shows: for a statement the analyzer accepts, the record
    [InsertExecutor] builds has the table's record length, and reading its columns as
    [select_from] does gives back the literals of the statement, in order: the same
    integers, the same float bits, and the same strings without their padding. *)
Theorem insert_select_roundtrip db s q t rec0 :
  db_wf db → analyze_insert db s = Ok q → tabs db !! ins_tab s = Some t → Forall literal_ok (ins_values s) →
  zlen rec0 = lengths (tab_cols t) →
  ∃ rec cells, fill_record (tab_cols t) (bound_values q) rec0 = Ok rec ∧ zlen rec = lengths (tab_cols t) ∧
    for_each (read_cell rec) (tab_cols t) = Ok cells ∧ Forall2 literal_cell (ins_values s) cells.
Proof.
  intros Hdb H Ht Hlit H0. unfold analyze_insert in H. apply bind_ok in H as (t' & Ht' & H). apply get_table_ok in Ht'.
  assert (t' = t) as -> by congruence. apply bind_ok in H as ([] & Hn & H).
  apply throw_if_ok, negb_false_iff, bool_decide_eq_true in Hn. apply bind_ok in H as (values & Hvs & [= <-]). cbn [bound_values].
  apply for_each_ok in Hvs. pose proof (bind_values_for _ _ _ Hn Hvs) as Hv.
  destruct (db_table db Hdb _ _ Ht) as [_ (_ & _ & _ & Hl & _)]. exists (concat (raw <$> values)).
  pose proof (fill_record_spec (tab_name t) (tab_cols t) values [] rec0 Hl Hv H0) as Hfill. cbn [app] in Hfill.
  pose proof (record_fields (tab_name t) (tab_cols t) values [] Hl Hv) as Hrf. cbn [app] in Hrf.
  pose proof (laid_out_lengths _ _ _ Hl) as [Hok _].
  assert (∃ cells, Forall2 (λ c cell, read_cell (concat (raw <$> values)) c = Ok cell) (tab_cols t) cells ∧
    Forall2 literal_cell (ins_values s) cells) as (cells & Hc & Hlc).
  { revert Hrf Hvs Hlit Hok. generalize (concat (raw <$> values)) as rec. clear -Hn. revert Hn.
    generalize (tab_cols t) as cols. intros cols. generalize (ins_values s) as es. intros es. revert es values.
    induction cols as [|c cols IH]; intros [|e es] values Hn rec Hrf Hvs Hlit Hok; try done; [by exists []|].
    cbn [zip zip_with] in Hvs. inversion Hvs as [|? v ? vs Hv Hvs']; subst. injection Hn as Hn.
    apply Forall2_cons in Hrf as [(Hf & Hin & _) Hrf]. apply Forall_cons in Hlit as [Hle Hlit]. apply Forall_cons in Hok as [Hlo Hok].
    destruct (bind_value_cell e c v rec Hv Hle Hlo Hf Hin) as (cell & Hcell & Hlc).
    destruct (IH es vs Hn rec Hrf Hvs' Hlit Hok) as (cells & Hcs & Hlcs). exists (cell :: cells). by split; constructor. }
  exists cells. split_and!; [done|by apply concat_raw_length|by apply for_each_ok|done].
Qed.

Lemma insert_select_roundtrip_witness :
  ∃ q rec cells, analyze_insert sample_db sample_insert = Ok q ∧
    fill_record (tab_cols sample_table) (bound_values q) (replicate 12 Byte.xff) = Ok rec ∧
    for_each (read_cell rec) (tab_cols sample_table) = Ok cells ∧
    Forall2 literal_cell [Some (IntLit (-1)); Some (StringLit "bob")] cells.
Proof.
  destruct (analyze_insert sample_db sample_insert) as [q|e|] eqn:E; [|vm_compute in E; discriminate..].
  destruct (insert_select_roundtrip sample_db sample_insert q sample_table (replicate 12 Byte.xff) sample_db_wf E eq_refl)
    as (rec & cells & H1 & _ & H2 & H3); [|reflexivity|by exists q, rec, cells].
  constructor; [split; vm_compute; [discriminate|reflexivity]|constructor; [|constructor]].
  apply (bool_decide_unpack _). vm_compute. exact I.
Defined.

(** ** The table and its indexes *)

(** What the record file and the B+ tree promise: a record is stored at a free position,
    an entry that is refused leaves the tree as it was, and what was stored can be
    removed. *)
Class StoreLaws (T : Type) `{TableStore T} := {
  records : T → gmap Rid bytes;
  has_entry : T → string → bytes → Rid → Prop;
  insert_record_law bs t r t' : insert_record bs t = (r, t') →
    (∀ n k i, has_entry t' n k i ↔ has_entry t n k i) ∧
    match r with
    | Ok rid => records t !! rid = None ∧ records t' = <[rid := bs]> (records t)
    | Throw _ => records t' = records t
    | Crash => False
    end;
  delete_record_law rid t : is_Some (records t !! rid) →
    ∃ t', delete_record rid t = (Ok tt, t') ∧ records t' = delete rid (records t) ∧
      ∀ n k i, has_entry t' n k i ↔ has_entry t n k i;
  insert_entry_law n k rid t r t' : ¬ has_entry t n k rid → insert_entry n k rid t = (r, t') →
    records t' = records t ∧
    match r with
    | Ok _ => ∀ n' k' i, has_entry t' n' k' i ↔ has_entry t n' k' i ∨ (n' = n ∧ k' = k ∧ i = rid)
    | Throw _ => ∀ n' k' i, has_entry t' n' k' i ↔ has_entry t n' k' i
    | Crash => False
    end;
  delete_entry_law n k rid t : has_entry t n k rid →
    ∃ t', delete_entry n k rid t = (Ok true, t') ∧ records t' = records t ∧
      ∀ n' k' i, has_entry t' n' k' i ↔ has_entry t n' k' i ∧ ¬ (n' = n ∧ k' = k ∧ i = rid) }.

Lemma tab_wf_indexes tab : tab_wf tab → Forall (λ x, idx_tab x = tab_name tab) (tab_indexes tab).
Proof.
  intros (_ & _ & _ & _ & _ & Hi & _). eapply Forall_impl; [exact Hi|]. cbn. intros x (_ & _ & _ & ->). done.
Qed.

Section Store.
Context {T : Type} `{StoreLaws T}.

(** Entries refer to records, and every index of the table has exactly one entry per
    record, under the record's key. *)
Definition consistent (tab : TabMeta) (t : T) : Prop :=
  (∀ n k i, has_entry t n k i → is_Some (records t !! i)) ∧
  ∀ x k i, x ∈ tab_indexes tab →
    has_entry t (index_file x) k i ↔ ∃ rec, records t !! i = Some rec ∧ k = make_key x rec.

(** The entries of [t0] and those inserted so far for [rid]. *)
Definition extended (t0 : T) (inserted : list (string * bytes)) (rid : Rid) (t : T) : Prop :=
  ∀ n k i, has_entry t n k i ↔ has_entry t0 n k i ∨ ((n, k) ∈ inserted ∧ i = rid).

Lemma undo_entries_spec inserted rid t0 t :
  NoDup inserted → (∀ n k, ¬ has_entry t0 n k rid) → extended t0 inserted rid t →
  ∃ t', undo_entries inserted rid t = (Ok tt, t') ∧ records t' = records t ∧ ∀ n k i, has_entry t' n k i ↔ has_entry t0 n k i.
Proof.
  revert t. induction inserted as [|[n k] inserted IH]; intros t Hnd Hno Hex; cbn [undo_entries].
  { exists t. split_and!; try done. intros n k i. rewrite (Hex n k i), elem_of_nil. tauto. }
  apply NoDup_cons in Hnd as [Hn Hnd]. rewrite bind_run.
  destruct (delete_entry_law n k rid t) as (t1 & -> & Hr1 & He1); [apply Hex; right; split; [by left|done]|].
  destruct (IH t1) as (t2 & -> & Hr2 & He2); [done|done| |exists t2; split_and!; [done|congruence|done]].
  intros n' k' i. rewrite He1, (Hex n' k' i), elem_of_cons. split.
  - intros [[Ha|[[[= -> ->]|Hin] ->]] Hne]; [by left|tauto|right; done].
  - intros [Ha|[Hin ->]].
    + split; [by left|]. intros (-> & -> & ->). by apply (Hno n k).
    + split; [right; split; [by right|done]|]. intros (-> & -> & _). done.
Qed.

(** What the handler leaves, whatever it rethrows. *)
Lemma undo_insert_spec {A} inserted rid rec t0 t (x : result A) :
  NoDup inserted → records t0 !! rid = None → (∀ n k, ¬ has_entry t0 n k rid) →
  records t = <[rid := rec]> (records t0) → extended t0 inserted rid t →
  ∃ t', (_ ← undo_entries inserted rid; _ ← delete_record rid; lift x) t = (x, t') ∧
    records t' = records t0 ∧ ∀ n k i, has_entry t' n k i ↔ has_entry t0 n k i.
Proof.
  intros Hnd Hfree Hno Hrec Hex. rewrite bind_run. destruct (undo_entries_spec inserted rid t0 t) as (t2 & -> & Hr2 & He2); [done..|].
  rewrite bind_run. destruct (delete_record_law rid t2) as (t3 & -> & Hr3 & He3); [by rewrite Hr2, Hrec, lookup_insert_eq|].
  exists t3. split; [done|]. split; [|intros n k i; by rewrite He3, He2].
  rewrite Hr3, Hr2, Hrec. by rewrite delete_insert_id.
Qed.

Lemma insert_entries_spec handles tab indexes rec rid inserted t0 t r t' :
  Forall (λ x, idx_tab x = tab) indexes → NoDup (inserted.*1 ++ (index_file <$> indexes)) → records t0 !! rid = None → (∀ n k, ¬ has_entry t0 n k rid) →
  records t = <[rid := rec]> (records t0) → extended t0 inserted rid t →
  insert_entries handles tab indexes rec rid inserted t = (r, t') →
  match r with
  | Ok _ => records t' = records t ∧
      ∀ n k i, has_entry t' n k i ↔ has_entry t0 n k i ∨
        (((n, k) ∈ inserted ∨ ∃ x, x ∈ indexes ∧ n = index_file x ∧ k = make_key x rec) ∧ i = rid)
  | Throw _ => records t' = records t0 ∧ ∀ n k i, has_entry t' n k i ↔ has_entry t0 n k i
  | Crash => (∃ x, x ∈ indexes ∧ handles !! index_file x = None) ∧
      records t' = records t0 ∧ ∀ n k i, has_entry t' n k i ↔ has_entry t0 n k i
  end.
Proof.
  revert inserted t. induction indexes as [|x xs IH]; intros inserted t Htab Hnd Hfree Hno Hrec Hex; cbn [insert_entries].
  { intros [= <- <-]. split; [done|]. intros n k i. rewrite (Hex n k i). split; [tauto|].
    intros [?|[[?|(x & Hx & _)] ->]]; [by left|by right|by apply elem_of_nil in Hx]. }
  apply Forall_cons in Htab as [Hx Htab]. cbv zeta.
  assert (make_index_name tab (col_name <$> idx_cols x) = index_file x) as -> by (unfold index_file; by rewrite Hx).
  rewrite fmap_cons in Hnd. assert (NoDup inserted) as Hndi by (apply NoDup_app in Hnd as [? _]; by eapply NoDup_fmap_1).
  assert (index_file x ∉ inserted.*1) as Hnew.
  { apply NoDup_app in Hnd as (_ & Hd & _). intros Hin. apply (Hd _ Hin). by left. }
  destruct (handles !! index_file x) as [tree|] eqn:Eh.
  2: { destruct (undo_insert_spec inserted rid rec t0 t (Crash : result unit)) as (t2 & -> & Hr2 & He2); [done..|]. intros [= <- <-].
       split; [|done]. exists x. split; [by left|done]. }
  destruct (insert_entry (index_file x) (make_key x rec) rid t) as [r1 t1] eqn:E.
  apply insert_entry_law in E as [Hr1 He1].
  2: { intros He. apply Hex in He as [Ha|[Ha _]]; [by apply (Hno _ _ Ha)|]. apply Hnew. by apply (list_elem_of_fmap_2 fst) in Ha. }
  destruct r1 as [[]|e|]; [| |done].
  - intros Hrun. apply IH in Hrun; [|..].
    + destruct r as [[]|e|]; [|done|destruct Hrun as [(y & Hy & Hn) ?]; split; [|done]; exists y; split; [by right|done]].
      destruct Hrun as [Hr2 He2]. split; [congruence|]. intros n k i. rewrite He2, elem_of_cons. split.
      * intros [?|[[[[= -> ->]|?]|(y & Hy & ?)] ->]]; [by left| | |]; right; (split; [|done]).
        -- right. exists x. split; [by left|done].
        -- by left.
        -- right. exists y. split; [by right|done].
      * intros [?|[[?|(y & [-> | Hy]%elem_of_cons & -> & ->)] ->]]; [by left| | |]; right; (split; [|done]).
        -- left. by right.
        -- left. by left.
        -- right. by exists y.
    + done.
    + rewrite fmap_cons, <- app_comm_cons. by rewrite Permutation_middle.
    + done.
    + done.
    + congruence.
    + intros n k i. rewrite He1, (Hex n k i), elem_of_cons. split.
      * intros [[?|[? ->]]|(-> & -> & ->)]; [by left|right; split; [by right|done]|right; split; [by left|done]].
      * intros [?|[[[= -> ->]|?] ->]]; [left; by left|right; done|left; by right].
  - destruct (undo_insert_spec inserted rid rec t0 t1 (Throw e : result unit)) as (t2 & -> & Hr2 & He2); [done..|congruence| |].
    { intros n k i. by rewrite He1, (Hex n k i). }
    by intros [= <- <-].
Qed.

Lemma insert_next_spec handles tab values junk (t : T) r t' :
  tab_wf tab → NoDup (index_file <$> tab_indexes tab) → Forall2 value_for values (tab_cols tab) → consistent tab t →
  insert_next handles tab (lengths (tab_cols tab)) values junk t = (r, t') →
  match r with
  | Ok rid => records t !! rid = None ∧ records t' = <[rid := concat (raw <$> values)]> (records t) ∧ consistent tab t'
  | Throw _ => records t' = records t ∧ ∀ n k i, has_entry t' n k i ↔ has_entry t n k i
  | Crash => (∃ x, x ∈ tab_indexes tab ∧ handles !! index_file x = None) ∧
      records t' = records t ∧ ∀ n k i, has_entry t' n k i ↔ has_entry t n k i
  end.
Proof.
  intros Hwf Hnd Hv [Hlive Hcons]. pose proof (tab_wf_indexes _ Hwf) as Htab. destruct Hwf as (_ & _ & _ & Hl & _). pose proof (laid_out_lengths _ _ _ Hl) as [Hok _].
  assert (0 ≤ lengths (tab_cols tab)) as Hpos.
  { clear -Hok. induction Hok as [|c l [Hc _] _ IH]; [done|]. rewrite lengths_cons. lia. }
  unfold insert_next. rewrite bind_run. unfold lift at 1. rewrite (proj2 (Z.ltb_ge _ 0)) by done. cbn [throw_if]. cbv zeta.
  rewrite bind_run. unfold lift at 1. fold (filled (lengths (tab_cols tab)) junk).
  pose proof (fill_record_spec (tab_name tab) (tab_cols tab) values [] (filled (lengths (tab_cols tab)) junk) Hl Hv (zlen_filled _ _ Hpos)) as Hfill.
  cbn [app] in Hfill. rewrite Hfill.
  rewrite bind_run. destruct (insert_record _ t) as [r1 t1] eqn:E1. apply insert_record_law in E1 as [He1 Hr1].
  destruct r1 as [rid|e|]; [|by intros [= <- <-]|done]. destruct Hr1 as [Hfree Hr1].
  assert (∀ n k, ¬ has_entry t n k rid) as Hno by (intros n k Hh; destruct (Hlive n k rid Hh); congruence).
  rewrite bind_run. destruct (insert_entries _ _ _ _ rid [] t1) as [r2 t2] eqn:E2.
  apply (insert_entries_spec _ _ _ _ _ [] t) in E2; [|done|done|done|done|done|].
  2: { intros n k i. rewrite He1, elem_of_nil. tauto. }
  destruct r2 as [[]|e|]; [|by intros [= <- <-]..]. destruct E2 as [Hr2 He2]. intros [= <- <-].
  split_and!; [done|congruence|]. split.
  - intros n k i. rewrite He2, Hr2, Hr1. intros [Hh|[_ ->]]; [|by rewrite lookup_insert_eq].
    rewrite lookup_insert_is_Some. destruct (decide (rid = i)); [by left|right]. split; [done|by apply (Hlive n k)].
  - intros x k i Hx. rewrite He2, Hr2, Hr1, (Hcons x k i Hx). split.
    + intros [(rec & Hrec & ->)|[[Hn|(y & Hy & Hf & ->)] ->]].
      * exists rec. rewrite lookup_insert_ne; [done|]. intros ->. congruence.
      * by apply elem_of_nil in Hn.
      * eexists. rewrite lookup_insert_eq. split; [done|].
        apply list_elem_of_lookup in Hx as [a Ha], Hy as [b Hb].
        assert (a = b) as ->.
        { eapply (NoDup_lookup _ a b (index_file x)); [done| |]; rewrite list_lookup_fmap; [by rewrite Ha|by rewrite Hb, Hf]. }
        congruence.
    + intros (rec & Hrec & ->). rewrite lookup_insert_Some in Hrec. destruct Hrec as [[<- <-]|[Hne Hrec]].
      * right. split; [right; by exists x|done].
      * left. by exists rec.
Qed.
End Store.

(** C14. INSERT keeps a table and its indexes together: for bound values on a
    well-formed table whose indexes have different files, a returning insert has stored
    the encoded record at a free position and one entry per index under its key, so that
    the table stays consistent; an insert that throws, as on a duplicate key of a unique
    index or because an index of the table is not open ([Crash]), has removed the record
    and all entries again. *)
Theorem insert_consistent {T} `{StoreLaws T} handles tab values junk (t : T) r t' :
  tab_wf tab → NoDup (index_file <$> tab_indexes tab) → Forall2 value_for values (tab_cols tab) → consistent tab t →
  insert_next handles tab (lengths (tab_cols tab)) values junk t = (r, t') →
  match r with
  | Ok rid => records t !! rid = None ∧ records t' = <[rid := concat (raw <$> values)]> (records t) ∧ consistent tab t'
  | Throw _ => records t' = records t ∧ ∀ n k i, has_entry t' n k i ↔ has_entry t n k i
  | Crash => (∃ x, x ∈ tab_indexes tab ∧ handles !! index_file x = None) ∧
      records t' = records t ∧ ∀ n k i, has_entry t' n k i ↔ has_entry t n k i
  end.
Proof. apply insert_next_spec. Qed.

(** An implementation in memory: the names of the unique indexes, records and entries. *)
Record MemStore := mkStore { st_unique : list string; st_records : gmap Rid bytes; st_entries : list (string * bytes * Rid) }.

Definition free_rid (t : MemStore) : Rid := mkRid 1 (fresh (set_map (D := gset Z) slot_no (dom (st_records t)))).

#[global] Instance mem_store : TableStore MemStore := {|
  insert_record bs t := (Ok (free_rid t), mkStore (st_unique t) (<[free_rid t := bs]> (st_records t)) (st_entries t));
  delete_record rid t :=
    match st_records t !! rid with
    | Some _ => (Ok tt, mkStore (st_unique t) (delete rid (st_records t)) (st_entries t))
    | None => (Throw (RecordNotFoundError (page_no rid) (slot_no rid)), t)
    end;
  insert_entry n k rid t :=
    if bool_decide (n ∈ st_unique t) && existsb (λ e, bool_decide (e.1 = (n, k))) (st_entries t)
    then (Throw DuplicateKeyError, t)
    else (Ok tt, mkStore (st_unique t) (st_records t) ((n, k, rid) :: st_entries t));
  delete_entry n k rid t :=
    (Ok (bool_decide ((n, k, rid) ∈ st_entries t)), mkStore (st_unique t) (st_records t) (filter (.≠ (n, k, rid)) (st_entries t))) |}.

#[global] Instance mem_store_laws : StoreLaws MemStore.
Proof.
  refine (@Build_StoreLaws MemStore mem_store st_records (λ t n k i, (n, k, i) ∈ st_entries t) _ _ _ _); cbn.
  - intros bs t r t' [= <- <-]. cbn. split; [done|]. split; [|done]. apply not_elem_of_dom. intros Hd.
    apply (is_fresh (set_map (D := gset Z) slot_no (dom (st_records t)))). apply elem_of_map. by exists (free_rid t).
  - intros rid t [bs Hb]. rewrite Hb. by eexists.
  - intros n k rid t r t' Hno. destruct (_ && _); intros [= <- <-]; [done|]. cbn. split; [done|]. intros n' k' i. rewrite elem_of_cons.
    split; [intros [[= -> -> ->]|?]; tauto|intros [?|(-> & -> & ->)]; tauto].
  - intros n k rid t Hin. rewrite bool_decide_true by done. eexists. split; [done|]. cbn. split; [done|]. intros n' k' i.
    rewrite list_elem_of_filter. split.
    + intros [Hne Hh]. split; [done|]. intros (-> & -> & ->). done.
    + intros [Hh Hne]. split; [|done]. intros [= -> -> ->]. tauto.
Defined.

Definition sample_values : list Value :=
  [mkValue TYPE_INT 7 [] (Some (le_split 4 7)); mkValue TYPE_STRING 0 (str "bob") (Some (str "bob" ++ replicate 5 Byte.x00))].

Definition empty_store : MemStore := mkStore ["t_id.idx"%string] ∅ [].

(** The unique index of the sample table, open. *)
Definition sample_indexes : gmap string BPlusTree := {["t_id.idx"%string := mkTree 5 (mkHeader (-1) 3 2 1 [0] [4] 4 339 1360 2 2 true 52)]}.

Lemma insert_consistent_witness :
  ∃ rid t1 e t2, insert_next sample_indexes sample_table 12 sample_values [] empty_store = (Ok rid, t1) ∧ consistent sample_table t1 ∧
    insert_next sample_indexes sample_table 12 sample_values [] t1 = (Throw e, t2) ∧ st_records t2 = st_records t1.
Proof.
  assert (tab_wf sample_table) as Hwf by exact (proj2 (proj2 sample_db_wf "t"%string sample_table eq_refl)).
  assert (Forall2 value_for sample_values (tab_cols sample_table)) as Hv
    by (repeat constructor; eexists; split; reflexivity).
  assert (consistent sample_table empty_store) as Hc.
  { split; [intros n k i Hh; by apply elem_of_nil in Hh|]. intros x k i _. split; [intros Hh; by apply elem_of_nil in Hh|].
    intros (rec & Hr & _). cbn in Hr. by rewrite lookup_empty in Hr. }
  destruct (insert_next sample_indexes sample_table 12 sample_values [] empty_store) as [r1 t1] eqn:E1.
  pose proof (insert_consistent sample_indexes sample_table sample_values [] empty_store r1 t1 Hwf (NoDup_singleton _) Hv Hc E1) as H1.
  destruct r1 as [rid|e|]; [|apply (f_equal fst) in E1; vm_compute in E1; discriminate..].
  destruct H1 as (_ & _ & Hc1).
  destruct (insert_next sample_indexes sample_table 12 sample_values [] t1) as [r2 t2] eqn:E2.
  pose proof (insert_consistent sample_indexes sample_table sample_values [] t1 r2 t2 Hwf (NoDup_singleton _) Hv Hc1 E2) as H2.
  destruct r2 as [rid2|e|]; [|exists rid, t1, e, t2; split_and!; [done|exact Hc1|exact E2|exact (proj1 H2)]|].
  all: exfalso; apply (f_equal snd) in E1; cbn [snd] in E1; subst t1; apply (f_equal fst) in E2; vm_compute in E2; discriminate.
Defined.
