(* ===== verification/BufferPool.v ===== *)
(** * Pages, the buffer pool and page guards

    Models [src/src/storage/page.h], [page_guard.h], [page_guard.cpp] and the class of
    [buffer_pool_manager.h] with its constructor.  Pinning and eviction
    ([buffer_pool_manager.cpp]) are exercises with empty bodies: they are the class
    [BufferPool], with the instance [skeleton_pool] for the bodies as they stand.
    What their comments promise is [PoolLaws]; [mem_pool] in [BufferPoolFacts] is an
    implementation that keeps the promises.

    A [Page*] is the index of its frame.  The latch is not modelled: the operations are
    the critical sections, one after the other. *)

From S2P Require Import Prelude Common Record IndexFile Disk System Execution.

Definition INVALID_PAGE_ID : Z := -1.

(** ** [PageId] *)

Record PageId := mkPageId { pid_fd : Z; pid_page_no : Z }.

Definition PageId_default : PageId := mkPageId (-1) INVALID_PAGE_ID.

#[global] Instance PageId_eq_dec : EqDecision PageId.
Proof. solve_decision. Defined.
#[global] Instance PageId_countable : Countable PageId.
Proof.
  refine (inj_countable' (λ p, (pid_fd p, pid_page_no p)) (λ x, mkPageId x.1 x.2) _). by intros [].
Defined.

Definition PageId_eqb (x y : PageId) : bool := (pid_fd x =? pid_fd y) && (pid_page_no x =? pid_page_no y).

Definition PageId_lt (x y : PageId) : bool :=
  if negb (pid_fd x =? pid_fd y) then pid_fd x <? pid_fd y else pid_page_no x <? pid_page_no y.

Definition hash_key (x : PageId) : Z := Z.lor (u64 (Z.shiftl (u32 (pid_fd x)) 16)) (u32 (pid_page_no x)).

(** ** [Page] *)

Record Page := mkPage { id_ : PageId; data_ : bytes; is_dirty_ : bool; pin_count_ : Z }.

Definition zero_page : bytes := replicate (Z.to_nat PAGE_SIZE) Byte.x00.

Definition Page_new : Page := mkPage PageId_default zero_page false 0.

Definition OFFSET_LSN : Z := 0.
Definition get_page_lsn (p : Page) : Z := int_at (data_ p) OFFSET_LSN.
Definition set_page_lsn (p : Page) (page_lsn : Z) : Page :=
  mkPage (id_ p) (int_bytes page_lsn ++ zdrop 4 (data_ p)) (is_dirty_ p) (pin_count_ p).

(** ** [BufferPoolManager] *)

(** The replacer by its list of unpinned frames; [D] is the disk manager. *)
Record BufferPoolManager {D : Type} := mkPool {
  pool_size_ : nat; pages_ : list Page; page_table_ : gmap PageId nat; free_list_ : list nat;
  disk_manager_ : D; replacer_ : list nat }.
Arguments BufferPoolManager : clear implicits.

Section Pool.
Context {D : Type}.
Notation pool := (BufferPoolManager D).

Definition BufferPoolManager_new (pool_size : nat) (disk_manager : D) : pool :=
  mkPool D pool_size (replicate pool_size Page_new) ∅ (seq 0 pool_size) disk_manager [].

Definition set_pages (b : pool) (pages : list Page) : pool :=
  mkPool D (pool_size_ b) pages (page_table_ b) (free_list_ b) (disk_manager_ b) (replacer_ b).

(** Writing through [get_data()], and [BufferPoolManager::mark_dirty(Page* )]. *)
Definition write_data (f : nat) (data : bytes) (b : pool) : pool :=
  set_pages b (alter (λ p, mkPage (id_ p) data (is_dirty_ p) (pin_count_ p)) f (pages_ b)).
Definition mark_page_dirty (f : nat) (b : pool) : pool :=
  set_pages b (alter (λ p, mkPage (id_ p) (data_ p) true (pin_count_ p)) f (pages_ b)).

(** One turn of the loop of [get_pin_snapshot]. *)
Definition add_pins (snapshot : gmap PageId Z) (page : Page) : gmap PageId Z :=
  if 0 <? pin_count_ page then <[id_ page := default 0 (snapshot !! id_ page) + pin_count_ page]> snapshot
  else snapshot.

Definition get_pin_snapshot (b : pool) : gmap PageId Z := foldl add_pins ∅ (pages_ b).

(** The operations left as exercises; [None] is [nullptr], and [new_page] reads the
    file descriptor from the page id it overwrites. *)
Class BufferPool := {
  fetch_page : PageId → M pool (option nat);
  new_page : PageId → M pool (option nat * PageId);
  unpin_page : PageId → bool → pool → bool * pool;
  flush_page : PageId → M pool bool;
  delete_page : PageId → M pool bool;
  flush_all_pages : Z → M pool unit }.

(** The bodies as they stand. *)
Definition skeleton_pool : BufferPool := {|
  fetch_page _ := mret None;
  new_page page_id := mret (None, page_id);
  unpin_page _ _ b := (true, b);
  flush_page _ := mret true;
  delete_page _ := mret true;
  flush_all_pages _ := mret tt |}.

(** ** [PageGuard] *)

(** [has_pool] is whether [buffer_pool_manager_] is not null. *)
Record PageGuard := mkGuard { has_pool : bool; page_ : option nat; page_id_ : PageId; dirty_ : bool }.

Definition PageGuard_default : PageGuard := mkGuard false None PageId_default false.

Definition guard_valid (g : PageGuard) : bool := bool_decide (page_ g ≠ None).

Definition mark_dirty (g : PageGuard) : PageGuard :=
  match page_ g with Some _ => mkGuard (has_pool g) (page_ g) (page_id_ g) true | None => g end.

Definition PageGuard_move (other : PageGuard) : PageGuard * PageGuard :=
  (mkGuard (has_pool other) (page_ other) (page_id_ other) (dirty_ other), PageGuard_default).

Context `{BufferPool}.

Definition guard_drop (g : PageGuard) (b : pool) : bool * PageGuard * pool :=
  match page_ g with
  | None => (true, g, b)
  | Some _ =>
    if negb (has_pool g) then (false, PageGuard_default, b)
    else let '(ok, b) := unpin_page (page_id_ g) (dirty_ g) b in (ok, PageGuard_default, b)
  end.

Definition PageGuard_destroy (g : PageGuard) (b : pool) : pool := (guard_drop g b).2.

(** [operator=] of two different guards. *)
Definition PageGuard_move_assign (self other : PageGuard) (b : pool) : PageGuard * PageGuard * pool :=
  let '(_, _, b) := guard_drop self b in
  let '(self, other) := PageGuard_move other in (self, other, b).

(** [page->get_page_id()]; a frame outside the array is undefined behaviour. *)
Definition page_of_frame (f : nat) : M pool Page := λ b,
  (match pages_ b !! f with Some p => Ok p | None => Crash end, b).

Definition guard_of (page : option nat) : M pool PageGuard :=
  match page with
  | None => mret PageGuard_default
  | Some f => p ← page_of_frame f; mret (mkGuard true (Some f) (id_ p) false)
  end.

Definition fetch_page_guard (page_id : PageId) : M pool PageGuard :=
  page ← fetch_page page_id; guard_of page.

Definition new_page_guard (page_id : PageId) : M pool (PageGuard * PageId) :=
  '(page, page_id) ← new_page page_id; g ← guard_of page; mret (g, page_id).

(** ** [discard_file_pages] *)

Fixpoint delete_pages (resident_pages : list PageId) : M pool unit :=
  match resident_pages with
  | [] => mret tt
  | page_id :: rest => _ ← delete_page page_id; delete_pages rest
  end.

Definition resident_pages (fd : Z) (b : pool) : list PageId :=
  filter (λ page_id, pid_fd page_id = fd) (map_to_list (page_table_ b)).*1.

Definition pool_discard_file_pages (fd : Z) : M pool unit :=
  _ ← flush_all_pages fd;
  (λ b, delete_pages (resident_pages fd b) b) : M pool unit.
End Pool.
Arguments BufferPool : clear implicits.

(** ** What the pool promises *)

Section Views.
Context {D : Type} (disk_page : D → PageId → option bytes).
Notation pool := (BufferPoolManager D).

Definition resident (b : pool) (q : PageId) : option Page := page_table_ b !! q ≫= λ f, pages_ b !! f.
Definition pins (b : pool) (q : PageId) : Z := from_option pin_count_ 0 (resident b q).

(** The contents of a page: those of its frame, otherwise those on disk. *)
Definition stored (b : pool) (q : PageId) : option bytes :=
  match resident b q with Some p => Some (data_ p) | None => disk_page (disk_manager_ b) q end.

(** A page whose contents eviction would lose. *)
Definition unsaved (b : pool) (q : PageId) : Prop :=
  ∃ p, resident b q = Some p ∧ is_dirty_ p = false ∧ disk_page (disk_manager_ b) q ≠ Some (data_ p).

(** Only pages that somebody still holds are unsaved. *)
Definition guarded (b : pool) : Prop := ∀ q, unsaved b q → 0 < pins b q.

Record frames_ok (b : pool) : Prop := {
  fo_length : length (pages_ b) = pool_size_ b;
  fo_table q f : page_table_ b !! q = Some f → ∃ p, pages_ b !! f = Some p ∧ id_ p = q;
  fo_pinned f p : pages_ b !! f = Some p → pin_count_ p ≠ 0 → page_table_ b !! id_ p = Some f;
  fo_page f p : pages_ b !! f = Some p → 0 ≤ pin_count_ p ∧ zlen (data_ p) = PAGE_SIZE }.

Definition same_pins (b b' : pool) : Prop := ∀ q, pins b' q = pins b q.

(** The pages that were pinned have not moved. *)
Definition keeps_frames (b b' : pool) : Prop :=
  pool_size_ b' = pool_size_ b ∧
  ∀ q f, page_table_ b !! q = Some f → 0 < pins b q → page_table_ b' !! q = Some f.

(** They have not changed either. *)
Definition keeps_pinned (b b' : pool) : Prop :=
  keeps_frames b b' ∧ ∀ q, 0 < pins b q → resident b' q = resident b q.

Definition same_contents (b b' : pool) : Prop :=
  (∀ q, stored b' q = stored b q) ∧ (∀ q, unsaved b' q → unsaved b q).
End Views.

(** The comments of [buffer_pool_manager.cpp]: a page in the page table is pinned and
    returned; otherwise an unpinned frame is reused, its page written back when dirty,
    or there is none; a pinned page is never reused or deleted; [unpin_page] fails
    exactly when the page is not pinned; a new page is written to disk.  An exception of the disk manager keeps the
    pins and what is pinned. *)
Class PoolLaws (D : Type) `{!BufferPool D} := {
  disk_page : D → PageId → option bytes;
  pool_inv : BufferPoolManager D → Prop;
  pool_inv_write f data b : pool_inv b → pool_inv (write_data f data b);

  fetch_law q b r b' : frames_ok b → pool_inv b → fetch_page q b = (r, b') →
    frames_ok b' ∧ pool_inv b' ∧ keeps_frames b b' ∧
    match r with
    | Ok (Some f) => page_table_ b' !! q = Some f ∧ pins b' q = pins b q + 1 ∧
        (∀ q', q' ≠ q → pins b' q' = pins b q') ∧ (guarded disk_page b → same_contents disk_page b b')
    | Ok None => b' = b ∧ resident b q = None
    | Throw _ => resident b q = None ∧ same_pins b b' ∧ keeps_pinned b b'
    | Crash => False
    end;
  new_law q0 b r b' : frames_ok b → pool_inv b → new_page q0 b = (r, b') →
    frames_ok b' ∧ pool_inv b' ∧ keeps_frames b b' ∧
    match r with
    | Ok (Some f, q) => pid_fd q = pid_fd q0 ∧ pins b q = 0 ∧ page_table_ b' !! q = Some f ∧ pins b' q = 1 ∧
        (∀ q', q' ≠ q → pins b' q' = pins b q') ∧
        (guarded disk_page b → stored disk_page b q = None ∧ stored disk_page b' q = Some zero_page ∧
           (∀ q', q' ≠ q → stored disk_page b' q' = stored disk_page b q') ∧
           ∀ q', unsaved disk_page b' q' → unsaved disk_page b q')
    | Ok (None, _) => b' = b
    | Throw _ => same_pins b b' ∧ keeps_pinned b b'
    | Crash => False
    end;
  unpin_law q d b ok b' : frames_ok b → pool_inv b → unpin_page q d b = (ok, b') →
    if decide (pins b q = 0) then ok = false ∧ b' = b
    else ok = true ∧ frames_ok b' ∧ pool_inv b' ∧ pool_size_ b' = pool_size_ b ∧ page_table_ b' = page_table_ b ∧
      pins b' q = pins b q - 1 ∧ (∀ q', q' ≠ q → pins b' q' = pins b q') ∧
      same_contents disk_page b b' ∧ (d = true → ¬ unsaved disk_page b' q);
  delete_law q b r b' : frames_ok b → pool_inv b → delete_page q b = (r, b') →
    frames_ok b' ∧ pool_inv b' ∧ same_pins b b' ∧ keeps_pinned b b' ∧
    match r with
    | Ok ok => if decide (pins b q = 0)
        then ok = true ∧ page_table_ b' = delete q (page_table_ b) ∧ (guarded disk_page b → same_contents disk_page b b')
        else ok = false ∧ b' = b
    | Throw _ => True
    | Crash => False
    end;
  flush_all_law fd b r b' : frames_ok b → pool_inv b → flush_all_pages fd b = (r, b') →
    frames_ok b' ∧ pool_inv b' ∧ same_pins b b' ∧ pool_size_ b' = pool_size_ b ∧ page_table_ b' = page_table_ b ∧
    (∀ q, stored disk_page b' q = stored disk_page b q) ∧
    match r with
    | Ok _ => (∀ q, unsaved disk_page b' q → unsaved disk_page b q ∧ pid_fd q ≠ fd)
    | Throw _ => ∀ q, unsaved disk_page b' q → unsaved disk_page b q
    | Crash => False
    end }.

(** A pool with an unpinned frame can bring in every page that exists. *)
Class LivePool (D : Type) `{PoolLaws D} := {
  fetch_works q b : frames_ok b → pool_inv b → is_Some (stored disk_page b q) →
    (size (get_pin_snapshot b) < pool_size_ b)%nat → ∃ f b', fetch_page q b = (Ok (Some f), b') }.
