(* ===== verification/BufferPoolFacts.v ===== *)
(** * The page guards release what they take

    [pin_snapshot_lookup]: the diagnostic snapshot counts exactly the pins.  Page by page,
    [visit_read] and [visit_write] give the meaning of a guard's life; the program-level
    claim is that guards release every pin exactly once, also when an exception unwinds
    them, and that what is written through a guard and marked dirty is kept. *)

From S2P Require Import Prelude Common Record IndexFile Disk System Execution BufferPool.

Section Snapshot.
Context {D : Type}.
Notation pool := (BufferPoolManager D).
Implicit Types b : pool.

Lemma pins_nonneg b q : frames_ok b → 0 ≤ pins b q.
Proof.
  intros Hok. unfold pins, resident. destruct (page_table_ b !! q) as [f|]; cbn; [|done].
  destruct (pages_ b !! f) eqn:E; cbn; [|done]. by apply (fo_page _ Hok) in E as [? _].
Qed.

Lemma resident_frame b q p : resident b q = Some p ↔ ∃ f, page_table_ b !! q = Some f ∧ pages_ b !! f = Some p.
Proof. unfold resident. by rewrite bind_Some. Qed.

Lemma pins_frame b f p : frames_ok b → pages_ b !! f = Some p → pin_count_ p ≠ 0 → pins b (id_ p) = pin_count_ p.
Proof. intros Hok Hp Hn. unfold pins, resident. by rewrite (fo_pinned _ Hok _ _ Hp Hn); cbn; rewrite Hp. Qed.

(** The snapshot of the first frames. *)
Lemma add_pins_fold l : (∀ f g p r, l !! f = Some p → l !! g = Some r → pin_count_ p ≠ 0 → pin_count_ r ≠ 0 →
    id_ p = id_ r → f = g) → Forall (λ p, 0 ≤ pin_count_ p) l → ∀ q n,
  foldl add_pins ∅ l !! q = Some n ↔ ∃ p, p ∈ l ∧ id_ p = q ∧ pin_count_ p = n ∧ 0 < n.
Proof.
  induction l as [|r l IH] using rev_ind; intros Hd Hn q n; [cbn; rewrite lookup_empty; set_solver|].
  rewrite foldl_app. cbn [foldl]. apply Forall_app in Hn as [Hn Hr]. apply Forall_singleton in Hr.
  assert (Hd' : ∀ f g p r, l !! f = Some p → l !! g = Some r → pin_count_ p ≠ 0 → pin_count_ r ≠ 0 →
    id_ p = id_ r → f = g) by (intros f g p r' Hf Hg; apply Hd; by apply lookup_app_l_Some).
  specialize (IH Hd' Hn). unfold add_pins at 1.
  destruct (0 <? pin_count_ r) eqn:Er; [apply Z.ltb_lt in Er|apply Z.ltb_ge in Er].
  2:{ rewrite IH. split; intros (p & Hp & ? & ? & ?); exists p; [split_and!; set_solver|].
      apply elem_of_app in Hp as [?|Hp%list_elem_of_singleton]; [done|subst; lia]. }
  assert (Hnone : foldl add_pins ∅ l !! id_ r = None).
  { destruct (foldl add_pins ∅ l !! id_ r) as [m|] eqn:E; [|done]. apply IH in E as (p & Hp & Hid & Hm & ?).
    apply list_elem_of_lookup in Hp as [f Hf].
    assert (f = length l); [|apply lookup_lt_Some in Hf; lia].
    eapply (Hd f (length l) p r); [by apply lookup_app_l_Some|by apply list_lookup_middle|lia..|done]. }
  rewrite Hnone. cbn. destruct (decide (q = id_ r)) as [->|Hq].
  - rewrite lookup_insert_eq. split; [intros [= <-]; exists r; split_and!; [set_solver|done..]|].
    intros (p & Hp & Hid & Hm & ?). apply elem_of_app in Hp as [Hp|Hp%list_elem_of_singleton]; [|by subst].
    assert (foldl add_pins ∅ l !! id_ r = Some n) by (apply IH; by exists p). congruence.
  - rewrite lookup_insert_ne by done. rewrite IH. split; intros (p & Hp & ? & ? & ?); exists p; set_solver.
Qed.

Lemma pin_snapshot_lookup b q n : frames_ok b → get_pin_snapshot b !! q = Some n ↔ pins b q = n ∧ 0 < n.
Proof.
  intros Hok. unfold get_pin_snapshot. rewrite add_pins_fold.
  - split.
    + intros (p & Hp & <- & <- & ?). apply list_elem_of_lookup in Hp as [f Hf]. split; [|done].
      eapply pins_frame; [done|done|lia].
    + intros [Hp ?]. unfold pins in Hp. destruct (resident b q) as [p|] eqn:E; cbn in Hp; [|lia].
      apply resident_frame in E as (f & Hf & Hpf). exists p.
      destruct (fo_table _ Hok _ _ Hf) as (p' & Hp' & <-). simplify_eq. split_and!; [by eapply list_elem_of_lookup_2|done..].
  - intros f g p r Hf Hg Hp Hr Hid. apply (fo_pinned _ Hok) in Hf; [|done]. apply (fo_pinned _ Hok) in Hg; [|done].
    congruence.
  - apply Forall_lookup. intros f p Hf. by apply (fo_page _ Hok) in Hf as [? _].
Qed.

Lemma pin_snapshot_pins b b' : frames_ok b → frames_ok b' → same_pins b b' → get_pin_snapshot b' = get_pin_snapshot b.
Proof.
  intros Hok Hok' Hs. apply map_eq. intros q. apply option_eq. intros n.
  by rewrite !pin_snapshot_lookup, Hs by done.
Qed.
End Snapshot.

(** ** The life of one guard *)

Section Guards.
Context {D : Type} `{PoolLaws D}.
Notation pool := (BufferPoolManager D).
Notation stored := (stored disk_page).
Notation unsaved := (unsaved disk_page).
Notation guarded := (guarded disk_page).
Implicit Types b : pool.

Record good b : Prop := { good_frames : frames_ok b; good_inv : pool_inv b; good_guarded : guarded b }.

Lemma resident_pages_eq b b' q : page_table_ b' = page_table_ b → pages_ b' = pages_ b → resident b' q = resident b q.
Proof. unfold resident. by intros -> ->. Qed.

Lemma pins_pos_frame b q : 0 < pins b q → ∃ f p, page_table_ b !! q = Some f ∧ pages_ b !! f = Some p ∧ pins b q = pin_count_ p.
Proof.
  unfold pins. destruct (resident b q) as [p|] eqn:E; cbn; [|lia]. apply resident_frame in E as (f & ? & ?). eauto.
Qed.

Lemma keeps_frames_refl b : keeps_frames b b.
Proof. split; [done|]. by intros. Qed.

Lemma keeps_frames_trans b1 b2 b3 :
  (∀ q, 0 < pins b1 q → 0 < pins b2 q) → keeps_frames b1 b2 → keeps_frames b2 b3 → keeps_frames b1 b3.
Proof. intros Hp [Hs1 H1] [Hs2 H2]. split; [congruence|]. intros q f Hf Hq. apply H2; [by apply H1|by apply Hp]. Qed.

(** Writing into a pinned frame. *)
Lemma resident_write b q f data q' : frames_ok b → page_table_ b !! q = Some f →
  resident (write_data f data b) q' =
  if decide (q' = q) then (λ p, mkPage (id_ p) data (is_dirty_ p) (pin_count_ p)) <$> resident b q else resident b q'.
Proof.
  intros Hok Hf. unfold resident. cbn [page_table_ pages_ write_data set_pages]. case_decide as Hq.
  - subst q'. rewrite Hf. cbn. by rewrite list_lookup_alter_eq.
  - destruct (page_table_ b !! q') as [f'|] eqn:E; [|done]. cbn. apply list_lookup_alter_ne. intros ->.
    destruct (fo_table _ Hok _ _ E) as (p & Hp & Hid), (fo_table _ Hok _ _ Hf) as (p' & Hp' & Hid'). congruence.
Qed.

Lemma write_data_law b q f data : frames_ok b → pool_inv b → page_table_ b !! q = Some f → zlen data = PAGE_SIZE →
  let b' := write_data f data b in
  frames_ok b' ∧ pool_inv b' ∧ pool_size_ b' = pool_size_ b ∧ page_table_ b' = page_table_ b ∧ same_pins b b' ∧
  (∀ q', stored b' q' = if decide (q' = q) then Some data else stored b q') ∧
  (∀ q', q' ≠ q → unsaved b' q' ↔ unsaved b q').
Proof.
  intros Hok Hi Hf Hlen b'. pose proof (resident_write b q f data) as Hres.
  destruct (fo_table _ Hok _ _ Hf) as (p & Hp & Hid).
  assert (Hrq : resident b q = Some p) by (apply resident_frame; eauto).
  split_and!; [|by apply pool_inv_write|done|done|..].
  - assert (Hlook : ∀ g r, pages_ b' !! g = Some r → ∃ r0, pages_ b !! g = Some r0 ∧ id_ r = id_ r0 ∧
        pin_count_ r = pin_count_ r0 ∧ (zlen (data_ r0) = PAGE_SIZE → zlen (data_ r) = PAGE_SIZE)).
    { intros g r Hg. cbn in Hg. destruct (decide (f = g)) as [<-|Hne].
      - rewrite list_lookup_alter_eq, Hp in Hg. cbn in Hg. simplify_eq. by exists p.
      - rewrite list_lookup_alter_ne in Hg by done. by exists r. }
    split; unfold b'; cbn [pages_ page_table_ pool_size_ write_data set_pages].
    + rewrite <- (fo_length _ Hok). apply length_alter.
    + intros q' f' Hf'. destruct (fo_table _ Hok _ _ Hf') as (r & Hr & Hr').
      destruct (decide (f = f')) as [<-|Hne].
      * rewrite list_lookup_alter_eq, Hr. by eexists.
      * rewrite list_lookup_alter_ne by done. by exists r.
    + intros g r Hg. destruct (Hlook g r Hg) as (r0 & Hr0 & -> & -> & _). by apply (fo_pinned _ Hok).
    + intros g r Hg. destruct (Hlook g r Hg) as (r0 & Hr0 & _ & -> & Hd).
      destruct (fo_page _ Hok _ _ Hr0). auto.
  - intros q'. unfold pins, b'. rewrite (Hres q' Hok Hf). case_decide; [subst; by rewrite Hrq|done].
  - intros q'. unfold BufferPool.stored, b'. rewrite (Hres q' Hok Hf). case_decide; [subst; by rewrite Hrq|done].
  - intros q' Hq. unfold BufferPool.unsaved, b'. rewrite (Hres q' Hok Hf). by rewrite decide_False.
Qed.

(** Taking a guard. *)
Record opened (q : PageId) (f : nat) b b' : Prop := {
  op_good : good b'; op_frames : keeps_frames b b'; op_table : page_table_ b' !! q = Some f;
  op_pins : pins b' q = pins b q + 1; op_others q' : q' ≠ q → pins b' q' = pins b q';
  op_stored q' : stored b' q' = stored b q'; op_unsaved q' : unsaved b' q' → unsaved b q' }.

Lemma opened_pins q f b b' : good b → opened q f b b' → ∀ q', pins b q' ≤ pins b' q'.
Proof.
  intros [Hok _ _] Ho q'. destruct (decide (q' = q)) as [->|]; [rewrite (op_pins _ _ _ _ Ho); lia|].
  rewrite (op_others _ _ _ _ Ho q') by done. lia.
Qed.

Lemma fetch_guard_law q b r b' : frames_ok b → pool_inv b → fetch_page_guard q b = (r, b') →
  frames_ok b' ∧ pool_inv b' ∧ keeps_frames b b' ∧
  match r with
  | Ok g => g = PageGuard_default ∧ b' = b ∧ resident b q = None ∨
      ∃ f, g = mkGuard true (Some f) q false ∧ fetch_page q b = (Ok (Some f), b') ∧ page_table_ b' !! q = Some f ∧
        pins b' q = pins b q + 1 ∧ (∀ q', q' ≠ q → pins b' q' = pins b q') ∧ (guarded b → opened q f b b')
  | Throw _ => resident b q = None ∧ same_pins b b' ∧ keeps_pinned b b'
  | Crash => False
  end.
Proof.
  intros Hok Hi. unfold fetch_page_guard, mbind, M_bind.
  destruct (fetch_page q b) as [[[f|]|e|] b1] eqn:E; pose proof (fetch_law q b _ b1 Hok Hi E) as (Hok' & Hi' & Hk & Hl); cbn.
  - destruct Hl as (Ht & Hp & Ho & Hc). unfold mbind, M_bind, page_of_frame.
    destruct (fo_table _ Hok' _ _ Ht) as (p & Hpf & <-). rewrite Hpf. intros [= <- <-]. split_and!; [done..|].
    right. exists f. split_and!; [done..|]. intros Hg. destruct (Hc Hg) as [Hs Hu]. split; try done.
    split; [done..|]. intros q' Hq. apply Hu, Hg in Hq.
    destruct (decide (q' = id_ p)) as [->|]; [rewrite Hp; lia|by rewrite Ho].
  - destruct Hl as [-> Hr]. intros [= <- <-]. split_and!; [done..|]. by left.
  - by intros [= <- <-].
  - done.
Qed.

(** Giving it back: an unsaved page is given back dirty, or somebody else holds it. *)
Record closed (q : PageId) b b' : Prop := {
  cl_good : good b'; cl_size : pool_size_ b' = pool_size_ b; cl_table : page_table_ b' = page_table_ b;
  cl_pins : pins b' q = pins b q - 1; cl_others q' : q' ≠ q → pins b' q' = pins b q';
  cl_stored q' : stored b' q' = stored b q'; cl_unsaved q' : unsaved b' q' → unsaved b q' }.

Lemma destroy_law f q d b : frames_ok b → pool_inv b → 0 < pins b q →
  guard_drop (mkGuard true (Some f) q d) b = (true, PageGuard_default, PageGuard_destroy (mkGuard true (Some f) q d) b) ∧
  let b' := PageGuard_destroy (mkGuard true (Some f) q d) b in
  frames_ok b' ∧ pool_inv b' ∧ pool_size_ b' = pool_size_ b ∧ page_table_ b' = page_table_ b ∧
  pins b' q = pins b q - 1 ∧ (∀ q', q' ≠ q → pins b' q' = pins b q') ∧
  same_contents disk_page b b' ∧ (d = true → ¬ unsaved b' q).
Proof.
  intros Hok Hi Hp. unfold PageGuard_destroy, guard_drop. cbn.
  destruct (unpin_page q d b) as [ok b'] eqn:E. pose proof (unpin_law q d b ok b' Hok Hi E) as Hl.
  rewrite decide_False in Hl by lia. destruct Hl as (-> & ?). by cbn.
Qed.

Lemma close_law f q d b : good b → 0 < pins b q → d = true ∨ (unsaved b q → 1 < pins b q) →
  closed q b (PageGuard_destroy (mkGuard true (Some f) q d) b).
Proof.
  intros [Hok Hi Hg] Hp Hu. destruct (destroy_law f q d b Hok Hi Hp) as (_ & Hok' & Hi' & Hs & Ht & Hq & Ho & [Hst Hun] & Hd).
  split; try done. split; [done..|]. intros q' Hq'. destruct (decide (q' = q)) as [->|].
  - rewrite Hq. destruct Hu as [->|Hu]; [by destruct Hd|]. specialize (Hu (Hun _ Hq')). lia.
  - rewrite Ho by done. by apply Hg, Hun.
Qed.

Lemma closed_frames q b b' : closed q b b' → keeps_frames b b'.
Proof. intros Hc. split; [apply (cl_size _ _ _ Hc)|]. intros q' f Hf _. by rewrite (cl_table _ _ _ Hc). Qed.

(** A whole visit of page [q] that leaves [v] there. *)
Record visited (q : PageId) (v : option bytes) b b' : Prop := {
  vi_good : good b'; vi_pins : same_pins b b'; vi_frames : keeps_frames b b';
  vi_stored q' : stored b' q' = if decide (q' = q) then v else stored b q';
  vi_unsaved q' : unsaved b' q' → unsaved b q'; vi_resident : is_Some (page_table_ b' !! q) }.

Lemma visited_open_close q f b b1 b2 : good b → opened q f b b1 → closed q b1 b2 → visited q (stored b q) b b2.
Proof.
  intros Hgood Ho Hc. pose proof (opened_pins _ _ _ _ Hgood Ho) as Hle. split.
  - apply (cl_good _ _ _ Hc).
  - intros q'. destruct (decide (q' = q)) as [->|].
    + rewrite (cl_pins _ _ _ Hc), (op_pins _ _ _ _ Ho). lia.
    + rewrite (cl_others _ _ _ Hc), (op_others _ _ _ _ Ho) by done. done.
  - eapply keeps_frames_trans; [|apply (op_frames _ _ _ _ Ho)|by eapply closed_frames].
    intros q' ?. specialize (Hle q'). lia.
  - intros q'. rewrite (cl_stored _ _ _ Hc), (op_stored _ _ _ _ Ho). by case_decide; subst.
  - intros q' Hq. by apply (op_unsaved _ _ _ _ Ho), (cl_unsaved _ _ _ Hc).
  - rewrite (cl_table _ _ _ Hc), (op_table _ _ _ _ Ho). by eexists.
Qed.

Lemma visit_read q f b b1 : good b → opened q f b b1 →
  visited q (stored b q) b (PageGuard_destroy (mkGuard true (Some f) q false) b1).
Proof.
  intros Hgood Ho. eapply visited_open_close; [done..|]. pose proof (pins_nonneg b q (good_frames _ Hgood)).
  pose proof (op_pins _ _ _ _ Ho). apply close_law; [apply (op_good _ _ _ _ Ho)|lia|]. right. intros Hu.
  apply (op_unsaved _ _ _ _ Ho), (good_guarded _ Hgood) in Hu. lia.
Qed.

Lemma visit_write q f b b1 data : good b → opened q f b b1 → zlen data = PAGE_SIZE →
  visited q (Some data) b (PageGuard_destroy (mkGuard true (Some f) q true) (write_data f data b1)).
Proof.
  intros Hgood Ho Hlen. pose proof (op_good _ _ _ _ Ho) as [Hok1 Hi1 Hg1].
  pose proof (pins_nonneg b q (good_frames _ Hgood)). pose proof (op_pins _ _ _ _ Ho) as Hpins.
  pose proof (opened_pins _ _ _ _ Hgood Ho) as Hle.
  destruct (write_data_law b1 q f data Hok1 Hi1 (op_table _ _ _ _ Ho) Hlen) as (Hok2 & Hi2 & Hsz & Ht & Hp & Hs & Hu).
  set (b2 := write_data f data b1) in *.
  destruct (destroy_law f q true b2 Hok2 Hi2) as (_ & Hok3 & Hi3 & Hsz3 & Ht3 & Hp3 & Ho3 & [Hs3 Hu3] & Hd3).
  { rewrite Hp. lia. }
  set (b3 := PageGuard_destroy _ b2) in *.
  assert (Hun : ∀ q', unsaved b3 q' → unsaved b q').
  { intros q' Hq. destruct (decide (q' = q)) as [->|Hne]; [by destruct Hd3|].
    apply (op_unsaved _ _ _ _ Ho), (Hu _ Hne), Hu3, Hq. }
  assert (Hpin : same_pins b b3).
  { intros q'. destruct (decide (q' = q)) as [->|Hne]; [rewrite Hp3, Hp; lia|].
    by rewrite Ho3, Hp, (op_others _ _ _ _ Ho) by done. }
  split; [split; [done..|]| |split| | |].
  - intros q' Hq. rewrite Hpin. by apply (good_guarded _ Hgood), Hun.
  - done.
  - destruct (op_frames _ _ _ _ Ho) as [Hsz1 _]. congruence.
  - intros q' f' Hf' Hq'. rewrite Ht3, Ht. by apply (op_frames _ _ _ _ Ho).
  - intros q'. rewrite Hs3, Hs, (op_stored _ _ _ _ Ho). by case_decide.
  - done.
  - rewrite Ht3, Ht, (op_table _ _ _ _ Ho). by eexists.
Qed.
(** ** Programs over guards

    The guards in scope by name, and what a program may do with them.  Writing is a
    [memcpy] into [get_data()] followed by [mark_dirty()]; the log collects what was
    written where.  An operation that is not possible in C++ is [None]. *)
Inductive guard_op :=
| NewGuard (v : string)                    (** [PageGuard v;] *)
| Fetch (v : string) (q : PageId)          (** [PageGuard v = pool.fetch_page_guard(q);] *)
| NewPage (v : string) (q : PageId)        (** [PageGuard v = pool.new_page_guard(&q);] *)
| Write (v : string) (data : bytes)
| Drop (v : string)                        (** [v.drop();] *)
| MoveConstruct (v other : string)         (** [PageGuard v(std::move(other));] *)
| MoveAssign (v other : string)            (** [v = std::move(other);] *)
| EndScope (v : string).

Notation scope := (gmap string PageGuard).
Notation log := (list (PageId * bytes)).

Definition step_guard (op : guard_op) (objs : scope) (b : pool) : option (result log * scope * pool) :=
  match op with
  | NewGuard v => match objs !! v with Some _ => None | None => Some (Ok [], <[v := PageGuard_default]> objs, b) end
  | Fetch v q =>
    match objs !! v with
    | Some _ => None
    | None => match fetch_page_guard q b with
              | (Ok g, b) => Some (Ok [], <[v := g]> objs, b)
              | (Throw e, b) => Some (Throw e, objs, b)
              | (Crash, b) => Some (Crash, objs, b)
              end
    end
  | NewPage v q =>
    match objs !! v with
    | Some _ => None
    | None => match new_page_guard q b with
              | (Ok (g, q), b) => Some (Ok (if guard_valid g then [(q, zero_page)] else []), <[v := g]> objs, b)
              | (Throw e, b) => Some (Throw e, objs, b)
              | (Crash, b) => Some (Crash, objs, b)
              end
    end
  | Write v data =>
    g ← objs !! v; f ← page_ g;
    if zlen data =? PAGE_SIZE
    then Some (Ok [(page_id_ g, data)], <[v := mark_dirty g]> objs, write_data f data b) else None
  | Drop v => g ← objs !! v; let '(_, g, b) := guard_drop g b in Some (Ok [], <[v := g]> objs, b)
  | MoveConstruct v other =>
    match objs !! v with
    | Some _ => None
    | None => g ← objs !! other;
        let '(g, old) := PageGuard_move g in Some (Ok [], <[v := g]> (<[other := old]> objs), b)
    end
  | MoveAssign v other =>
    g ← objs !! v; o ← objs !! other;
    if bool_decide (v = other) then Some (Ok [], objs, b)
    else let '(g, o, b) := PageGuard_move_assign g o b in Some (Ok [], <[v := g]> (<[other := o]> objs), b)
  | EndScope v => g ← objs !! v; Some (Ok [], delete v objs, PageGuard_destroy g b)
  end.

(** An exception leaves all scopes. *)
Definition unwind (objs : scope) (b : pool) : pool :=
  foldr (λ x b, PageGuard_destroy x.2 b) b (map_to_list objs).

Fixpoint run_guards (ops : list guard_op) (objs : scope) (b : pool) : option (result log * scope * pool) :=
  match ops with
  | [] => Some (Ok [], objs, b)
  | op :: ops =>
    '(r, objs, b) ← step_guard op objs b;
    match r with
    | Ok w => '(r, objs, b) ← run_guards ops objs b;
              Some (match r with Ok w' => Ok (w ++ w') | r => r end, objs, b)
    | r => Some (r, ∅, unwind objs b)
    end
  end.

(** The contents after the writes of a log. *)
Definition after (w : log) (σ : PageId → option bytes) : PageId → option bytes :=
  foldl (λ σ x q, if decide (q = x.1) then Some x.2 else σ q) σ w.

(** The guards that hold a pin, and how many of a scope are guards of page [q]. *)
Definition owns (objs : scope) : scope := filter (λ x, page_ x.2 ≠ None) objs.
Definition count (A : scope) (q : PageId) : Z := Z.of_nat (size (filter (λ x, page_id_ x.2 = q) A)).

Lemma owns_lookup (objs : scope) v g : owns objs !! v = Some g ↔ objs !! v = Some g ∧ page_ g ≠ None.
Proof. apply map_lookup_filter_Some. Qed.

Lemma owns_null (objs : scope) v g : objs !! v = Some g → page_ g = None → owns objs !! v = None.
Proof. intros Hv Hg. destruct (owns objs !! v) as [g'|] eqn:E; [|done]. apply owns_lookup in E as [? ?]. congruence. Qed.

Lemma owns_absent (objs : scope) v : objs !! v = None → owns objs !! v = None.
Proof. intros Hv. destruct (owns objs !! v) as [g'|] eqn:E; [|done]. apply owns_lookup in E as [? ?]. congruence. Qed.

Lemma owns_insert (objs : scope) v g :
  owns (<[v := g]> objs) = if decide (page_ g ≠ None) then <[v := g]> (owns objs) else delete v (owns objs).
Proof. unfold owns. rewrite map_filter_insert. cbn. case_decide; [done|]. by rewrite map_filter_delete. Qed.

Lemma owns_insert_null (objs : scope) v g : page_ g = None → owns (<[v := g]> objs) = delete v (owns objs).
Proof. intros Hg. rewrite owns_insert, decide_False; [done|]. by intros []. Qed.

Lemma owns_insert_valid (objs : scope) v g : page_ g ≠ None → owns (<[v := g]> objs) = <[v := g]> (owns objs).
Proof. intros Hg. by rewrite owns_insert, decide_True. Qed.

Lemma owns_delete (objs : scope) v : owns (delete v objs) = delete v (owns objs).
Proof. apply map_filter_delete. Qed.

Lemma count_insert (A : scope) v g q : A !! v = None →
  count (<[v := g]> A) q = count A q + (if decide (page_id_ g = q) then 1 else 0).
Proof.
  intros Hv. unfold count. rewrite map_filter_insert. case_decide; cbn.
  - rewrite decide_True, map_size_insert_None by (done || by rewrite map_lookup_filter, Hv). lia.
  - rewrite decide_False, (delete_id A) by done. lia.
Qed.

Lemma count_delete (A : scope) v g q : A !! v = Some g →
  count (delete v A) q = count A q - (if decide (page_id_ g = q) then 1 else 0).
Proof.
  intros Hv. rewrite <- (insert_delete_id A v g Hv) at 2. rewrite count_insert by apply lookup_delete_eq. lia.
Qed.

Lemma count_pos (A : scope) v g : A !! v = Some g → 0 < count A (page_id_ g).
Proof.
  intros Hv. pose proof (count_delete A v g (page_id_ g) Hv) as Hc. rewrite decide_True in Hc by done.
  unfold count in *. lia.
Qed.

Section Accounting.
Context (base : PageId → Z) (Hbase : ∀ q, 0 ≤ base q).

(** The pins are those of [base] and one for each guard of [A]. *)
Record accounted (A : scope) b : Prop := {
  ac_frames : frames_ok b; ac_inv : pool_inv b;
  ac_guard v g : A !! v = Some g → ∃ f, g = mkGuard true (Some f) (page_id_ g) (dirty_ g) ∧ page_table_ b !! page_id_ g = Some f;
  ac_pins q : pins b q = base q + count A q }.

(** Nothing is lost: what is unsaved is held by a guard that is marked dirty. *)
Record kept (σ : PageId → option bytes) (A : scope) b : Prop := {
  ke_unsaved q : unsaved b q → ∃ v g, A !! v = Some g ∧ page_id_ g = q ∧ dirty_ g = true;
  ke_stored q : stored b q = σ q }.

Lemma accounted_pos A b v g : accounted A b → A !! v = Some g → 0 < pins b (page_id_ g).
Proof. intros Ha Hv. rewrite (ac_pins _ _ Ha). pose proof (count_pos A v g Hv). specialize (Hbase (page_id_ g)). lia. Qed.

Lemma kept_guarded σ A b : accounted A b → kept σ A b → guarded b.
Proof. intros Ha Hk q Hq. destruct (ke_unsaved _ _ _ Hk q Hq) as (v & g & Hv & <- & _). by eapply accounted_pos. Qed.

Lemma accounted_keeps A b b' : accounted A b → frames_ok b' → pool_inv b' → keeps_frames b b' → same_pins b b' →
  accounted A b'.
Proof.
  intros Ha Hok Hi [_ Hk] Hp. split; [done..| |].
  - intros v g Hv. destruct (ac_guard _ _ Ha v g Hv) as (f & Hg & Hf). exists f. split; [done|].
    apply Hk; [done|]. by eapply accounted_pos.
  - intros q. rewrite Hp. apply (ac_pins _ _ Ha).
Qed.

Lemma accounted_take A b b' v q f : accounted A b → A !! v = None → frames_ok b' → pool_inv b' → keeps_frames b b' →
  page_table_ b' !! q = Some f → pins b' q = pins b q + 1 → (∀ q', q' ≠ q → pins b' q' = pins b q') →
  accounted (<[v := mkGuard true (Some f) q false]> A) b'.
Proof.
  intros Ha Hv Hok Hi [_ Hk] Ht Hp Ho. split; [done..| |].
  - intros u g Hu. apply lookup_insert_Some in Hu as [[<- <-]|[Hne Hu]]; [by exists f|].
    destruct (ac_guard _ _ Ha u g Hu) as (f' & Hg & Hf). exists f'. split; [done|].
    apply Hk; [done|]. by eapply accounted_pos.
  - intros q'. rewrite count_insert by done. cbn. case_decide as Hq.
    + subst q'. rewrite Hp, (ac_pins _ _ Ha). lia.
    + rewrite Ho, (ac_pins _ _ Ha) by done. lia.
Qed.

Lemma accounted_give A b v g : accounted A b → A !! v = Some g →
  guard_drop g b = (true, PageGuard_default, PageGuard_destroy g b) ∧
  accounted (delete v A) (PageGuard_destroy g b) ∧
  (∀ σ, kept σ A b → kept σ (delete v A) (PageGuard_destroy g b)).
Proof.
  intros Ha Hv. destruct (ac_guard _ _ Ha v g Hv) as (f & Hg & Hf). set (q := page_id_ g) in *. set (d := dirty_ g) in *.
  pose proof (accounted_pos _ _ _ _ Ha Hv) as Hpos. fold q in Hpos.
  destruct (destroy_law f q d b (ac_frames _ _ Ha) (ac_inv _ _ Ha) Hpos)
    as (Hdrop & Hok & Hi & _ & Ht & Hq & Ho & [Hs Hu] & Hd).
  rewrite <- Hg in *. split_and!; [done|split; [done..| |]|].
  - intros u g' Hu'. apply lookup_delete_Some in Hu' as [_ Hu']. rewrite Ht. by apply (ac_guard _ _ Ha u).
  - intros q'. rewrite (count_delete A v g q' Hv). fold q. case_decide as Hqq.
    + subst q'. rewrite Hq, (ac_pins _ _ Ha). lia.
    + rewrite Ho, (ac_pins _ _ Ha) by done. lia.
  - intros σ Hk. split; [|intros q'; rewrite Hs; apply (ke_stored _ _ _ Hk)]. intros q' Hq'.
    destruct (ke_unsaved _ _ _ Hk q' (Hu q' Hq')) as (u & g' & Hu' & <- & Hd').
    exists u, g'. split; [|done]. apply lookup_delete_Some. split; [|done]. intros <-. simplify_eq. by destruct Hd.
Qed.

(** A guard under another name. *)
Lemma accounted_rename A b v other g : accounted A b → A !! other = Some g → A !! v = None →
  accounted (<[v := g]> (delete other A)) b ∧ (∀ σ, kept σ A b → kept σ (<[v := g]> (delete other A)) b).
Proof.
  intros Ha Ho Hv.
  assert (Hfrom : ∀ u g', <[v := g]> (delete other A) !! u = Some g' → ∃ u', A !! u' = Some g').
  { intros u g' Hu. apply lookup_insert_Some in Hu as [[_ <-]|[_ Hu]]; [by exists other|].
    apply lookup_delete_Some in Hu as [_ Hu]. by exists u. }
  split; [split; [apply Ha..| |]|].
  - intros u g' Hu. apply Hfrom in Hu as [u' Hu']. by apply (ac_guard _ _ Ha u').
  - intros q. rewrite count_insert, (count_delete A other g) by (done || by rewrite lookup_delete_None; right).
    rewrite (ac_pins _ _ Ha). case_decide; lia.
  - intros σ Hk. split; [|apply (ke_stored _ _ _ Hk)]. intros q Hq.
    destruct (ke_unsaved _ _ _ Hk q Hq) as (u & g' & Hu & <- & Hd). destruct (decide (u = other)) as [->|Hne].
    + exists v, g'. split; [|done]. simplify_eq. apply lookup_insert_eq.
    + exists u, g'. split; [|done]. rewrite lookup_insert_ne by congruence. by rewrite lookup_delete_ne.
Qed.

Lemma accounted_write A b v g f data : accounted A b → A !! v = Some g → page_ g = Some f → zlen data = PAGE_SIZE →
  accounted (<[v := mark_dirty g]> A) (write_data f data b) ∧
  (∀ σ, kept σ A b → kept (after [(page_id_ g, data)] σ) (<[v := mark_dirty g]> A) (write_data f data b)).
Proof.
  intros Ha Hv Hf Hlen. destruct (ac_guard _ _ Ha v g Hv) as (f' & Hg & Ht).
  assert (f' = f) as -> by (rewrite Hg in Hf; cbn in Hf; congruence).
  assert (Hm : mark_dirty g = mkGuard true (Some f) (page_id_ g) true) by (rewrite Hg; done).
  destruct (write_data_law b (page_id_ g) f data (ac_frames _ _ Ha) (ac_inv _ _ Ha) Ht Hlen)
    as (Hok & Hi & _ & Htab & Hp & Hs & Hu).
  assert (Hid : page_id_ (mark_dirty g) = page_id_ g) by (by rewrite Hm).
  split; [split; [done..| |]|].
  - intros u g' Hu'. rewrite Htab. apply lookup_insert_Some in Hu' as [[<- <-]|[_ Hu']]; [|by apply (ac_guard _ _ Ha u)].
    rewrite Hm. by exists f.
  - intros q. rewrite Hp, (ac_pins _ _ Ha), <- (insert_delete_eq A), count_insert, (count_delete A v g), Hid
      by (done || apply lookup_delete_eq). lia.
  - intros σ Hk. split.
    + intros q Hq. destruct (decide (q = page_id_ g)) as [->|Hne].
      { exists v, (mark_dirty g). rewrite lookup_insert_eq, Hm. done. }
      apply Hu in Hq; [|done]. destruct (ke_unsaved _ _ _ Hk q Hq) as (u & g' & Hu' & <- & Hd).
      exists u, g'. rewrite lookup_insert_ne by congruence. done.
    + intros q. rewrite Hs. cbn. case_decide; [done|]. apply (ke_stored _ _ _ Hk).
Qed.

Lemma give_named objs b v g : accounted (owns objs) b → objs !! v = Some g →
  (page_ g = None ∨ has_pool g = true) ∧
  accounted (delete v (owns objs)) (PageGuard_destroy g b) ∧
  (∀ σ, kept σ (owns objs) b → kept σ (delete v (owns objs)) (PageGuard_destroy g b)).
Proof.
  intros Ha Hv. destruct (page_ g) as [f|] eqn:Eg.
  - assert (Ho : owns objs !! v = Some g) by (apply owns_lookup; by rewrite Eg).
    destruct (accounted_give _ _ _ _ Ha Ho) as (_ & ? & ?). destruct (ac_guard _ _ Ha _ _ Ho) as (f' & Hg & _).
    split_and!; [|done..]. right. by rewrite Hg.
  - rewrite (delete_id (owns objs)) by (by eapply owns_null). unfold PageGuard_destroy, guard_drop. rewrite Eg. auto.
Qed.

Lemma step_new_page b q v A r b' : accounted A b → A !! v = None → new_page_guard q b = (r, b') →
  match r with
  | Ok (g, q') => g = PageGuard_default ∧ b' = b ∨
      page_ g ≠ None ∧ accounted (<[v := g]> A) b' ∧
      (∀ σ, kept σ A b → kept (after [(q', zero_page)] σ) (<[v := g]> A) b')
  | Throw _ => accounted A b'
  | Crash => False
  end.
Proof.
  intros Ha Hv. unfold new_page_guard, mbind, M_bind.
  destruct (new_page q b) as [[[[f|] q1]|e|] b1] eqn:E;
    pose proof (new_law q b _ b1 (ac_frames _ _ Ha) (ac_inv _ _ Ha) E) as (Hok & Hi & Hk & Hl); cbn.
  - destruct Hl as (_ & Hz & Ht & Hp & Ho & Hc). unfold mbind, M_bind, page_of_frame.
    destruct (fo_table _ Hok _ _ Ht) as (p & Hpf & <-). rewrite Hpf. intros [= <- <-]. right. split; [done|].
    split; [eapply accounted_take; [done..|lia|done]|]. intros σ Hke. pose proof (kept_guarded _ _ _ Ha Hke) as Hg.
    destruct (Hc Hg) as (_ & Hnew & Hrest & Hun). split.
    + intros q' Hq'%Hun. destruct (ke_unsaved _ _ _ Hke _ Hq') as (u & g & Hu & <- & Hd).
      exists u, g. rewrite lookup_insert_ne by congruence. done.
    + intros q'. cbn. case_decide as Hq; [by subst|]. rewrite (Hrest q' Hq). apply (ke_stored _ _ _ Hke).
  - subst b1. intros [= <- <-]. by left.
  - intros [= <- <-]. destruct Hl as [Hs [Hf _]]. by eapply accounted_keeps.
  - done.
Qed.

(** Moving the guard of [other] to the new name [v]. *)
Lemma move_accounted objs b v other g : accounted (owns objs) b → objs !! v = None → objs !! other = Some g → v ≠ other →
  let objs' := <[v := (PageGuard_move g).1]> (<[other := (PageGuard_move g).2]> objs) in
  accounted (owns objs') b ∧ (∀ σ, kept σ (owns objs) b → kept σ (owns objs') b).
Proof.
  intros Ha Hv Ho Hne. replace (PageGuard_move g).1 with g by (by destruct g).
  change (PageGuard_move g).2 with PageGuard_default. cbn zeta. destruct (page_ g) as [f|] eqn:Eg.
  - rewrite owns_insert_valid, owns_insert_null by (done || by rewrite Eg).
    apply accounted_rename; [done| |by apply owns_absent]. apply owns_lookup. by rewrite Eg.
  - rewrite !owns_insert_null by done. rewrite (delete_id (owns objs)) by (by eapply owns_null).
    rewrite delete_id by (by apply owns_absent). done.
Qed.

(** One step of a program: what an exception leaves, the unwinding releases. *)
Lemma step_accounted op objs b r objs' b' : accounted (owns objs) b → step_guard op objs b = Some (r, objs', b') →
  accounted (owns objs') b' ∧
  match r with
  | Ok w => ∀ σ, kept σ (owns objs) b → kept (after w σ) (owns objs') b'
  | Throw _ => True
  | Crash => False
  end.
Proof.
  intros Ha. destruct op as [v|v q|v q|v data|v|v other|v other|v]; cbn [step_guard].
  - destruct (objs !! v) as [g|] eqn:Ev; [done|]. intros [= <- <- <-].
    rewrite owns_insert_null, delete_id by (done || by apply owns_absent). done.
  - destruct (objs !! v) as [g|] eqn:Ev; [done|]. apply owns_absent in Ev as Eo.
    destruct (fetch_page_guard q b) as [[g|e|] b1] eqn:E;
      pose proof (fetch_guard_law q b _ b1 (ac_frames _ _ Ha) (ac_inv _ _ Ha) E) as (Hok & Hi & Hk & Hl); [| |done].
    + intros [= <- <- <-]. destruct Hl as [(-> & -> & _)|(f & -> & _ & Ht & Hp & Ho & Hopen)].
      { rewrite owns_insert_null, delete_id by done. done. }
      rewrite owns_insert_valid by done. split; [by eapply accounted_take|]. intros σ Hke.
      specialize (Hopen (kept_guarded _ _ _ Ha Hke)). split.
      * intros q' Hq'%(op_unsaved _ _ _ _ Hopen). destruct (ke_unsaved _ _ _ Hke _ Hq') as (u & g & Hu & <- & Hd).
        exists u, g. rewrite lookup_insert_ne by congruence. done.
      * intros q'. cbn. rewrite (op_stored _ _ _ _ Hopen). apply (ke_stored _ _ _ Hke).
    + intros [= <- <- <-]. split; [|done]. destruct Hl as (_ & Hs & _). by eapply accounted_keeps.
  - destruct (objs !! v) as [g|] eqn:Ev; [done|]. apply owns_absent in Ev as Eo.
    destruct (new_page_guard q b) as [[[g q1]|e|] b1] eqn:E;
      pose proof (step_new_page _ _ v _ _ _ Ha Eo E) as Hl; [| |done].
    + intros [= <- <- <-]. destruct Hl as [[-> ->]|(Hg & Hacc & Hke)].
      { rewrite owns_insert_null, delete_id by done. done. }
      rewrite owns_insert_valid by done. split; [done|]. unfold guard_valid. by rewrite bool_decide_eq_true_2.
    + by intros [= <- <- <-].
  - destruct (objs !! v) as [g|] eqn:Ev; [|done]. cbn. destruct (page_ g) as [f|] eqn:Eg; [|done]. cbn.
    destruct (zlen data =? PAGE_SIZE) eqn:El; [|done]. apply Z.eqb_eq in El. intros [= <- <- <-].
    rewrite owns_insert_valid by (unfold mark_dirty; rewrite Eg; cbn; by rewrite ?Eg).
    apply accounted_write; [done| |done..]. apply owns_lookup. by rewrite Eg.
  - destruct (objs !! v) as [g|] eqn:Ev; [|done]. cbn. destruct (give_named _ _ _ _ Ha Ev) as (Hp & Hacc & Hke).
    unfold PageGuard_destroy in Hacc, Hke. destruct (guard_drop g b) as [[ok g'] b1] eqn:Ed. intros [= <- <- <-].
    rewrite owns_insert_null; [done|]. unfold guard_drop in Ed.
    destruct (page_ g) eqn:Eg; [|by simplify_eq]. destruct (has_pool g); cbn in Ed; [|by simplify_eq].
    destruct (unpin_page _ _ _). by simplify_eq.
  - destruct (objs !! v) as [g|] eqn:Ev; [done|]. destruct (objs !! other) as [g|] eqn:Eo; [|done].
    intros [= <- <- <-]. assert (v ≠ other) by congruence. by apply (move_accounted objs b v other g).
  - destruct (objs !! v) as [g|] eqn:Ev; [|done]. destruct (objs !! other) as [o|] eqn:Eo; [|done]. cbn.
    case_bool_decide as Hvo; [by intros [= <- <- <-]|]. unfold PageGuard_move_assign.
    destruct (give_named _ _ _ _ Ha Ev) as (_ & Hacc & Hke). unfold PageGuard_destroy in Hacc, Hke.
    destruct (guard_drop g b) as [[ok g'] b1] eqn:Ed. intros [= <- <- <-]. cbn in Hacc, Hke.
    rewrite <- owns_delete in Hacc, Hke.
    destruct (move_accounted (delete v objs) b1 v other o) as [H1 H2];
      [done|by apply lookup_delete_eq|by rewrite lookup_delete_ne|done|].
    rewrite insert_delete_ne, insert_delete_eq in H1, H2 by done. split; [done|]. intros σ Hσ. by apply H2, Hke.
  - destruct (objs !! v) as [g|] eqn:Ev; [|done]. cbn. destruct (give_named _ _ _ _ Ha Ev) as (_ & Hacc & Hke).
    intros [= <- <- <-]. rewrite owns_delete. done.
Qed.

Lemma unwind_list (l : list (string * PageGuard)) A b : NoDup l.*1 → accounted A b →
  (∀ v g, (v, g) ∈ l → A !! v = if decide (page_ g = None) then None else Some g) →
  accounted (foldr (λ x A, delete x.1 A) A l) (foldr (λ x b, PageGuard_destroy x.2 b) b l).
Proof.
  induction l as [|[v g] l IH]; intros Hnd Ha Hl; [done|]. cbn [foldr fst snd]. cbn in Hnd.
  apply NoDup_cons in Hnd as [Hv Hnd]. specialize (IH Hnd Ha ltac:(set_solver)).
  assert (Hlook : foldr (λ x A, delete x.1 A) A l !! v = if decide (page_ g = None) then None else Some g).
  { rewrite <- (Hl v g) by set_solver. clear -Hv. induction l as [|[u g'] l IH]; [done|]. cbn in *.
    rewrite lookup_delete_ne by set_solver. apply IH. set_solver. }
  case_decide as Hg.
  - rewrite delete_id by done. unfold PageGuard_destroy, guard_drop. by rewrite Hg.
  - by destruct (accounted_give _ _ _ _ IH Hlook) as (_ & ? & _).
Qed.

Lemma unwind_accounted objs b : accounted (owns objs) b → accounted ∅ (unwind objs b).
Proof.
  intros Ha. assert (Hempty : foldr (λ x A, delete x.1 A) (owns objs) (map_to_list objs) = ∅).
  { apply map_empty. intros v.
    assert (Hdel : ∀ (l : list (string * PageGuard)) (A : scope), v ∈ l.*1 ∨ A !! v = None →
      foldr (λ x A, delete x.1 A) A l !! v = None).
    { induction l as [|[u g] l IH]; intros A; cbn; [set_solver|].
      intros Hv. destruct (decide (u = v)) as [->|]; [apply lookup_delete_eq|].
      rewrite lookup_delete_ne by done. apply IH. set_solver. }
    apply Hdel. destruct (objs !! v) as [g|] eqn:E; [left|right; by apply owns_absent].
    apply list_elem_of_fmap. exists (v, g). split; [done|]. by apply elem_of_map_to_list. }
  rewrite <- Hempty. apply unwind_list; [apply NoDup_fst_map_to_list|done|].
  intros v g Hin. apply elem_of_map_to_list in Hin. case_decide as Hg; [by eapply owns_null|]. by apply owns_lookup.
Qed.

Lemma after_app w w' σ : after (w ++ w') σ = after w' (after w σ).
Proof. apply foldl_app. Qed.

Lemma run_accounted ops objs b r objs' b' : accounted (owns objs) b → run_guards ops objs b = Some (r, objs', b') →
  accounted (owns objs') b' ∧
  match r with
  | Ok w => ∀ σ, kept σ (owns objs) b → kept (after w σ) (owns objs') b'
  | Throw _ => objs' = ∅
  | Crash => False
  end.
Proof.
  revert objs b r. induction ops as [|op ops IH]; intros objs b r Ha; cbn [run_guards].
  - intros [= <- <- <-]. done.
  - destruct (step_guard op objs b) as [[[r1 objs1] b1]|] eqn:Es; [|done]. cbn.
    apply (step_accounted _ _ _ _ _ _ Ha) in Es as [Ha1 H1]. destruct r1 as [w|e|]; [| |done].
    + destruct (run_guards ops objs1 b1) as [[[r2 objs2] b2]|] eqn:Er; [|done]. cbn. intros [= <- <- <-].
      apply (IH _ _ _ Ha1) in Er as [Ha2 H2]. split; [done|]. destruct r2 as [w'|e|]; [|done..].
      intros σ Hσ. rewrite after_app. auto.
    + intros [= <- <- <-]. split; [|done]. by apply unwind_accounted.
Qed.
End Accounting.

(** C18. Programs over page guards (construction, [fetch_page_guard],
    [new_page_guard], writing and [mark_dirty], [drop], moves, ends of scopes) over any
    pool that keeps its promises: each page is pinned once more for every guard that
    holds it, a guard's frame holds the contents of its page, and nothing crashes.  When
    all scopes are left, normally or by an exception, the pin snapshot is the one from
    before.  What was written through guards is what the pages contain, and when all
    scopes are left nothing of it can be lost by eviction. *)
Theorem guards_release_pins ops b r objs b' :
  frames_ok b → pool_inv b → (∀ q, ¬ unsaved b q) → run_guards ops ∅ b = Some (r, objs, b') →
  (∀ q, pins b' q = pins b q + count (owns objs) q) ∧
  (∀ v g f, objs !! v = Some g → page_ g = Some f →
     ∃ p, pages_ b' !! f = Some p ∧ id_ p = page_id_ g ∧ stored b' (page_id_ g) = Some (data_ p)) ∧
  (objs = ∅ → get_pin_snapshot b' = get_pin_snapshot b) ∧
  match r with
  | Ok w => (∀ q, stored b' q = after w (stored b) q) ∧ (objs = ∅ → ∀ q, ¬ unsaved b' q)
  | Throw _ => objs = ∅
  | Crash => False
  end.
Proof.
  intros Hok Hi Hu Hrun.
  assert (Hbase : ∀ q, 0 ≤ pins b q) by (intros q; by apply pins_nonneg).
  assert (Ha : accounted (pins b) (owns ∅) b).
  { split; [done..| |]; [intros v g Hv; by apply owns_lookup in Hv as [? _]|].
    intros q. unfold owns, count. rewrite !map_filter_empty, map_size_empty. lia. }
  assert (Hk : kept (stored b) (owns ∅) b) by (split; [intros q Hq; by destruct (Hu q)|done]).
  destruct (run_accounted (pins b) Hbase _ _ _ _ _ _ Ha Hrun) as [Ha' Hr]. split_and!.
  - apply (ac_pins _ _ _ Ha').
  - intros v g f Hv Hf. destruct (ac_guard _ _ _ Ha' v g) as (f' & Hg & Ht); [apply owns_lookup; by rewrite Hf|].
    rewrite Hg in Hf. cbn in Hf. simplify_eq. destruct (fo_table _ (ac_frames _ _ _ Ha') _ _ Ht) as (p & Hp & Hid).
    exists p. split_and!; [done..|]. unfold BufferPool.stored, resident. rewrite Ht. cbn. by rewrite Hp.
  - intros ->. apply pin_snapshot_pins; [done|apply Ha'|]. intros q. rewrite (ac_pins _ _ _ Ha').
    unfold owns, count. rewrite !map_filter_empty, map_size_empty. lia.
  - destruct r as [w|e|]; [|done..]. specialize (Hr _ Hk). split; [apply (ke_stored _ _ _ Hr)|].
    intros -> q Hq. destruct (ke_unsaved _ _ _ Hr q Hq) as (v & g & Hv & _). by apply owns_lookup in Hv as [? _].
Qed.
End Guards.

(** ** Discarding the pages of a file *)

Section Discard.
Context {D : Type} `{PoolLaws D}.
Notation pool := (BufferPoolManager D).
Implicit Types b : pool.

(** What deleting a list of pages has done so far. *)
Lemma delete_pages_law l b r b' : good b → delete_pages l b = (r, b') →
  good b' ∧ same_pins b b' ∧ keeps_pinned b b' ∧
  match r with
  | Ok _ => same_contents disk_page b b' ∧
      ∀ q, page_table_ b' !! q = if decide (q ∈ l ∧ pins b q = 0) then None else page_table_ b !! q
  | Throw _ => True
  | Crash => False
  end ∨ (frames_ok b' ∧ pool_inv b' ∧ same_pins b b' ∧ keeps_pinned b b' ∧ ∃ e, r = Throw e).
Proof.
  revert b. induction l as [|q l IH]; intros b Hgood; cbn [delete_pages].
  { intros [= <- <-]. left. split_and!; [done..|]. intros q. by rewrite decide_False by set_solver. }
  unfold mbind, M_bind. destruct (delete_page q b) as [[ok|e|] b1] eqn:E;
    pose proof (delete_law q b _ b1 (good_frames _ Hgood) (good_inv _ Hgood) E) as (Hok1 & Hi1 & Hp1 & Hk1 & Hl); [| |done].
  2:{ intros [= <- <-]. right. eauto 6. }
  assert (Hstep : same_contents disk_page b b1 ∧
    ∀ q', page_table_ b1 !! q' = if decide (q' = q ∧ pins b q = 0) then None else page_table_ b !! q').
  { destruct (decide (pins b q = 0)) as [Hz|Hz].
    - destruct Hl as (_ & Ht & Hc). split; [apply Hc, Hgood|]. intros q'. rewrite Ht. case_decide as Hd.
      + destruct Hd as [-> _]. apply lookup_delete_eq.
      + apply lookup_delete_ne. intros <-. by apply Hd.
    - destruct Hl as [_ ->]. split; [done|]. intros q'. by rewrite decide_False by naive_solver. }
  destruct Hstep as [[Hs Hu] Ht].
  assert (Hgood1 : good b1) by (split; [done..|]; intros q' Hq'; rewrite Hp1; by apply (good_guarded _ Hgood), Hu).
  assert (Htrans : ∀ b2, same_pins b1 b2 → keeps_pinned b1 b2 → same_pins b b2 ∧ keeps_pinned b b2).
  { intros b2 Hp2 [Hf2 Hr2]. split; [intros q'; by rewrite Hp2|]. destruct Hk1 as [Hf1 Hr1]. split.
    - eapply keeps_frames_trans; [|exact Hf1|exact Hf2]. intros q'. by rewrite Hp1.
    - intros q' Hq'. rewrite Hr2, Hr1 by (done || by rewrite Hp1). done. }
  intros H'. apply (IH _ Hgood1) in H' as [(Hg2 & Hp2 & Hk2 & Hl2)|(Hok2 & Hi2 & Hp2 & Hk2 & He)];
    destruct (Htrans b' Hp2 Hk2) as [Hpp Hkk]; [left|right; eauto 6].
  split_and!; [done..|]. destruct r as [u|e|]; [|done..]. destruct Hl2 as [[Hs2 Hu2] Ht2]. split.
  - split; intros q'; [by rewrite Hs2|]. intros Hq'. by apply Hu, Hu2.
  - intros q'. rewrite Ht2, Ht, Hp1. destruct (decide (q' = q)) as [->|Hne].
    + destruct (decide (pins b q = 0)); repeat case_decide; try done; set_solver.
    + repeat case_decide; try done; set_solver.
Qed.

(** [discard_file_pages] on a file none of whose pages is pinned: when it
    succeeds no page of the file is left in the page table, so that a file that later
    gets the same descriptor cannot see them; the contents of all pages are kept (those
    of the file on disk), the other entries of the page table stay, and the pins are the
    same also when the disk fails. *)
Theorem discard_file_pages_correct fd b r b' :
  good b → (∀ q, pid_fd q = fd → pins b q = 0) → pool_discard_file_pages fd b = (r, b') →
  get_pin_snapshot b' = get_pin_snapshot b ∧
  match r with
  | Ok _ => (∀ q, pid_fd q = fd → page_table_ b' !! q = None ∧ disk_page (disk_manager_ b') q = stored disk_page b q) ∧
      (∀ q, pid_fd q ≠ fd → page_table_ b' !! q = page_table_ b !! q) ∧
      (∀ q, stored disk_page b' q = stored disk_page b q)
  | Throw _ => True
  | Crash => False
  end.
Proof.
  intros Hgood Hpins. unfold pool_discard_file_pages, mbind, M_bind.
  destruct (flush_all_pages fd b) as [[u|e|] b1] eqn:E;
    pose proof (flush_all_law fd b _ b1 (good_frames _ Hgood) (good_inv _ Hgood) E) as (Hok1 & Hi1 & Hp1 & Hs1 & Ht1 & Hst1 & Hl);
    [| |done].
  2:{ intros [= <- <-]. split; [|done]. by apply pin_snapshot_pins; [apply Hgood|..]. }
  assert (Hgood1 : good b1) by (split; [done..|]; intros q Hq; rewrite Hp1; by apply (good_guarded _ Hgood), Hl).
  intros H'. apply (delete_pages_law _ _ _ _ Hgood1) in H' as [(Hg2 & Hp2 & Hk2 & Hl2)|(Hok2 & Hi2 & Hp2 & _ & [e ->])];
    (split; [apply pin_snapshot_pins; [apply Hgood|done || apply Hg2|intros q; by rewrite Hp2]|]); [|done].
  destruct r as [u'|e|]; [|done..]. destruct Hl2 as [[Hst2 _] Ht2].
  assert (Hstored : ∀ q, stored disk_page b' q = stored disk_page b q) by (intros q; by rewrite Hst2).
  assert (Hin : ∀ q, q ∈ resident_pages fd b1 ↔ pid_fd q = fd ∧ is_Some (page_table_ b1 !! q)).
  { intros q. unfold resident_pages. rewrite list_elem_of_filter, list_elem_of_fmap. split.
    - intros [Hq ([q' f] & -> & Hx)]. apply elem_of_map_to_list in Hx. eauto.
    - intros [Hq [f Hf]]. split; [done|]. exists (q, f). split; [done|]. by apply elem_of_map_to_list. }
  assert (Hgone : ∀ q, pid_fd q = fd → page_table_ b' !! q = None).
  { intros q Hq. rewrite Ht2. case_decide as Hd; [done|]. destruct (page_table_ b1 !! q) eqn:Et; [|done].
    exfalso. apply Hd. split; [apply Hin; rewrite Et; eauto|]. rewrite Hp1. by apply Hpins. }
  split_and!; [|intros q Hq; rewrite Ht2, Ht1; case_decide as Hd; [|done]; by destruct Hd as [[??]%Hin _]|done].
  intros q Hq. split; [by apply Hgone|]. rewrite <- Hstored. unfold stored, resident. by rewrite Hgone.
Qed.
End Discard.
