(* ===== verification/MemPool.v ===== *)
(** * A buffer pool in memory

    An implementation of the exercises of [src/src/storage/buffer_pool_manager.cpp] along
    their comments, over a disk of pages in memory on which some pages cannot be read.
    It shows that [PoolLaws] and [LivePool] can be met, and runs the examples. *)

From S2P Require Import Prelude Errors Common Record IndexFile Disk System Execution BufferPool BufferPoolFacts.

(** The pages of the disk and the next page number. *)
Record MemDisk := mkMemDisk { md_pages : PageId → option bytes; md_next : Z }.

Notation mpool := (BufferPoolManager MemDisk).

Definition find_victim_page (b : mpool) : option nat := fst <$> list_find (λ p, pin_count_ p = 0) (pages_ b).

Definition resident_at (f : nat) (b : mpool) : option Page :=
  p ← pages_ b !! f; if decide (page_table_ b !! id_ p = Some f) then Some p else None.

(** The disk after the page of frame [f] was written back, when it is dirty. *)
Definition write_back (f : nat) (b : mpool) : PageId → option bytes :=
  match resident_at f b with
  | Some p => if is_dirty_ p then λ q, if decide (q = id_ p) then Some (data_ p) else md_pages (disk_manager_ b) q
              else md_pages (disk_manager_ b)
  | None => md_pages (disk_manager_ b)
  end.

(** Page [q] with contents [data] in frame [f], pinned once. *)
Definition load_page (f : nat) (q : PageId) (data : bytes) (pages : PageId → option bytes) (next : Z) (b : mpool) : mpool :=
  mkPool _ (pool_size_ b) (<[f := mkPage q data false 1]> (pages_ b))
    (<[q := f]> (match resident_at f b with Some p => delete (id_ p) (page_table_ b) | None => page_table_ b end))
    (free_list_ b) (mkMemDisk pages next) (replacer_ b).

(** The reads of the pages in [bad] fail. *)
Definition mem_fetch (bad : list PageId) (q : PageId) : M mpool (option nat) := λ b,
  match page_table_ b !! q with
  | Some f => (Ok (Some f), set_pages b (alter (λ p, mkPage (id_ p) (data_ p) (is_dirty_ p) (pin_count_ p + 1)) f (pages_ b)))
  | None =>
    match find_victim_page b with
    | None => (Ok None, b)
    | Some f =>
      match md_pages (disk_manager_ b) q with
      | Some data => if decide (q ∈ bad) then (Throw (InternalError "DiskManager::read_page Error"), b)
                     else (Ok (Some f), load_page f q data (write_back f b) (md_next (disk_manager_ b)) b)
      | None => (Throw (InternalError "DiskManager::read_page Error"), b)
      end
    end
  end.

Definition mem_new (q0 : PageId) : M mpool (option nat * PageId) := λ b,
  match find_victim_page b with
  | None => (Ok (None, q0), b)
  | Some f =>
    let q := mkPageId (pid_fd q0) (md_next (disk_manager_ b)) in
    (Ok (Some f, q), load_page f q zero_page (λ q', if decide (q' = q) then Some zero_page else write_back f b q')
                       (md_next (disk_manager_ b) + 1) b)
  end.

Definition mem_unpin (q : PageId) (d : bool) (b : mpool) : bool * mpool :=
  match page_table_ b !! q ≫= λ f, (f,.) <$> pages_ b !! f with
  | Some (f, p) =>
    if pin_count_ p <=? 0 then (false, b)
    else (true, set_pages b (<[f := mkPage (id_ p) (data_ p) (is_dirty_ p || d) (pin_count_ p - 1)]> (pages_ b)))
  | None => (false, b)
  end.

Definition mem_flush (q : PageId) : M mpool bool := λ b,
  match page_table_ b !! q ≫= λ f, (f,.) <$> pages_ b !! f with
  | Some (f, p) =>
    (Ok true, mkPool _ (pool_size_ b) (<[f := mkPage (id_ p) (data_ p) false (pin_count_ p)]> (pages_ b)) (page_table_ b)
                (free_list_ b) (mkMemDisk (λ q', if decide (q' = q) then Some (data_ p) else md_pages (disk_manager_ b) q')
                                  (md_next (disk_manager_ b))) (replacer_ b))
  | None => (Ok false, b)
  end.

Definition mem_delete (q : PageId) : M mpool bool := λ b,
  match page_table_ b !! q ≫= λ f, (f,.) <$> pages_ b !! f with
  | Some (f, p) =>
    if negb (pin_count_ p =? 0) then (Ok false, b)
    else (Ok true, mkPool _ (pool_size_ b) (<[f := Page_new]> (pages_ b)) (delete q (page_table_ b)) (free_list_ b)
                     (mkMemDisk (λ q', if decide (q' = q) then Some (data_ p) else md_pages (disk_manager_ b) q')
                        (md_next (disk_manager_ b))) (replacer_ b))
  | None => (Ok true, b)
  end.

Definition mem_flush_all (fd : Z) : M mpool unit := λ b,
  (Ok tt, mkPool _ (pool_size_ b)
     ((λ p, if decide (pid_fd (id_ p) = fd) then mkPage (id_ p) (data_ p) false (pin_count_ p) else p) <$> pages_ b)
     (page_table_ b) (free_list_ b)
     (mkMemDisk (λ q, if decide (pid_fd q = fd) then stored (λ d, md_pages d) b q else md_pages (disk_manager_ b) q)
        (md_next (disk_manager_ b))) (replacer_ b)).

Definition mem_pool (bad : list PageId) : BufferPool MemDisk := {|
  fetch_page := mem_fetch bad; new_page := mem_new; unpin_page := mem_unpin; flush_page := mem_flush;
  delete_page := mem_delete; flush_all_pages := mem_flush_all |}.

(** ** It keeps the promises *)

Notation mstored := (stored (λ d, md_pages d)).
Notation munsaved := (unsaved (λ d, md_pages d)).
Notation mguarded := (guarded (λ d, md_pages d)).

Record mem_inv (b : mpool) : Prop := {
  mi_disk q : is_Some (page_table_ b !! q) → is_Some (md_pages (disk_manager_ b) q);
  mi_next q : is_Some (md_pages (disk_manager_ b) q) → pid_page_no q < md_next (disk_manager_ b);
  mi_size q data : md_pages (disk_manager_ b) q = Some data → zlen data = PAGE_SIZE }.

Lemma find_victim_some b f : find_victim_page b = Some f → ∃ p, pages_ b !! f = Some p ∧ pin_count_ p = 0.
Proof.
  unfold find_victim_page. destruct (list_find _ _) as [[g p]|] eqn:E; [|done]. cbn. intros [= <-].
  apply list_find_Some in E as (? & ? & _). eauto.
Qed.

Lemma resident_at_some f b p : resident_at f b = Some p ↔ pages_ b !! f = Some p ∧ page_table_ b !! id_ p = Some f.
Proof.
  unfold resident_at. destruct (pages_ b !! f) as [p'|] eqn:E; cbn; [|naive_solver].
  case_decide; naive_solver.
Qed.

Lemma frame_inj (b : mpool) q q' f : frames_ok b → page_table_ b !! q = Some f → page_table_ b !! q' = Some f → q = q'.
Proof.
  intros Hok H1 H2. destruct (fo_table _ Hok _ _ H1) as (p & Hp & <-), (fo_table _ Hok _ _ H2) as (p' & Hp' & <-). congruence.
Qed.

Lemma page_size_zero : zlen zero_page = PAGE_SIZE.
Proof. done. Qed.

(** The frame array with one frame changed, for the page it already held. *)
Lemma resident_set (b b' : mpool) q f p' q' : frames_ok b → page_table_ b' = page_table_ b → page_table_ b !! q = Some f →
  pages_ b' = <[f := p']> (pages_ b) → resident b' q' = if decide (q' = q) then Some p' else resident b q'.
Proof.
  intros Hok Ht Hf Hp. destruct (fo_table _ Hok _ _ Hf) as (p & Hpf & _). unfold resident. rewrite Ht, Hp.
  case_decide as Hq.
  - subst. rewrite Hf. cbn. apply list_lookup_insert_eq. by eapply lookup_lt_Some.
  - destruct (page_table_ b !! q') as [g|] eqn:E; [|done]. cbn. apply list_lookup_insert_ne. intros ->.
    by apply Hq, (frame_inj b _ _ g).
Qed.

Lemma frames_set (b b' : mpool) q f p p' : frames_ok b → page_table_ b' = page_table_ b → pool_size_ b' = pool_size_ b →
  page_table_ b !! q = Some f → pages_ b !! f = Some p → pages_ b' = <[f := p']> (pages_ b) →
  id_ p' = id_ p → 0 ≤ pin_count_ p' → zlen (data_ p') = PAGE_SIZE → frames_ok b'.
Proof.
  intros Hok Ht Hs Hf Hpf Hp Hid Hpin Hlen. pose proof (lookup_lt_Some _ _ _ Hpf) as Hlt.
  destruct (fo_table _ Hok _ _ Hf) as (p0 & Hp0 & Hq). simplify_eq. split; rewrite ?Ht, ?Hp.
  - rewrite length_insert, Hs. apply (fo_length _ Hok).
  - intros q' g Hg. destruct (fo_table _ Hok _ _ Hg) as (r & Hr & <-). destruct (decide (f = g)) as [<-|].
    + rewrite list_lookup_insert_eq by done. exists p'. split; [done|]. congruence.
    + rewrite list_lookup_insert_ne by done. by exists r.
  - intros g r Hg Hn. destruct (decide (f = g)) as [<-|].
    + rewrite list_lookup_insert_eq in Hg by done. simplify_eq. by rewrite Hid.
    + rewrite list_lookup_insert_ne in Hg by done. by apply (fo_pinned _ Hok).
  - intros g r Hg. destruct (decide (f = g)) as [<-|].
    + rewrite list_lookup_insert_eq in Hg by done. by simplify_eq.
    + rewrite list_lookup_insert_ne in Hg by done. by apply (fo_page _ Hok) in Hg.
Qed.

Lemma stored_resident (b : mpool) q p : resident b q = Some p → mstored b q = Some (data_ p).
Proof. unfold stored. by intros ->. Qed.

Lemma resident_absent (b : mpool) q : page_table_ b !! q = None → resident b q = None.
Proof. unfold resident. by intros ->. Qed.

(** Bringing a page into an unpinned frame. *)
Section Load.
Context (b : mpool) (f : nat) (p0 : Page) (q : PageId) (data : bytes) (P : PageId → option bytes) (next : Z).
Context (Hok : frames_ok b) (Hp0 : pages_ b !! f = Some p0) (Hpin0 : pin_count_ p0 = 0).
Context (Hq : page_table_ b !! q = None) (Hlen : zlen data = PAGE_SIZE).
Notation b' := (load_page f q data P next b).

Definition evicted (q' : PageId) : bool := bool_decide (page_table_ b !! q' = Some f).

Lemma load_table q' : page_table_ b' !! q' = if decide (q' = q) then Some f else if evicted q' then None else page_table_ b !! q'.
Proof.
  unfold evicted. cbn [page_table_ load_page]. case_decide as E; [subst; by rewrite lookup_insert_eq|].
  rewrite lookup_insert_ne by done. case_bool_decide as Hev.
  - destruct (fo_table _ Hok _ _ Hev) as (p & Hp & <-). rewrite (proj2 (resident_at_some f b p)) by done. apply lookup_delete_eq.
  - destruct (resident_at f b) as [p|] eqn:Er; [|done]. apply resident_at_some in Er as [? Ht].
    apply lookup_delete_ne. intros <-. by apply Hev.
Qed.

Lemma load_resident q' : resident b' q' =
  if decide (q' = q) then Some (mkPage q data false 1) else if evicted q' then None else resident b q'.
Proof.
  pose proof (lookup_lt_Some _ _ _ Hp0) as Hlt. unfold resident. rewrite load_table. case_decide; cbn.
  - by rewrite list_lookup_insert_eq.
  - destruct (evicted q') eqn:Ev; [done|]. destruct (page_table_ b !! q') as [g|] eqn:E; [|done]. cbn.
    apply list_lookup_insert_ne. intros Heq. apply bool_decide_eq_false in Ev. congruence.
Qed.

Lemma evicted_pins q' : evicted q' = true → pins b q' = 0.
Proof. unfold evicted, pins, resident. intros Ev%bool_decide_eq_true. rewrite Ev. cbn. by rewrite Hp0. Qed.

Lemma load_pins q' : pins b' q' = if decide (q' = q) then 1 else pins b q'.
Proof.
  unfold pins at 1. rewrite load_resident. case_decide; [done|]. destruct (evicted q') eqn:Ev; [|done].
  by rewrite (evicted_pins q' Ev).
Qed.

Lemma load_frames : frames_ok b' ∧ keeps_frames b b'.
Proof.
  pose proof (lookup_lt_Some _ _ _ Hp0) as Hlt. split; [split|split]; [..|done|].
  - cbn. rewrite length_insert. apply (fo_length _ Hok).
  - intros q' g. rewrite load_table. case_decide.
    + intros [= <-]. cbn. rewrite list_lookup_insert_eq by done. subst. by eexists.
    + destruct (evicted q') eqn:Ev; [done|]. intros Hg. destruct (fo_table _ Hok _ _ Hg) as (r & Hr & <-). exists r.
      split; [|done]. cbn. rewrite list_lookup_insert_ne; [done|]. intros Heq. apply bool_decide_eq_false in Ev. congruence.
  - intros g r Hg Hn. rewrite load_table. cbn in Hg. destruct (decide (f = g)) as [<-|Hne].
    + rewrite list_lookup_insert_eq in Hg by done. simplify_eq. cbn. by rewrite decide_True.
    + rewrite list_lookup_insert_ne in Hg by done. pose proof (fo_pinned _ Hok _ _ Hg Hn) as Ht.
      rewrite decide_False by congruence. unfold evicted. rewrite Ht, bool_decide_eq_false_2; [done|congruence].
  - intros g r Hg. cbn in Hg. destruct (decide (f = g)) as [<-|Hne].
    + rewrite list_lookup_insert_eq in Hg by done. by simplify_eq.
    + rewrite list_lookup_insert_ne in Hg by done. by apply (fo_page _ Hok) in Hg.
  - intros q' g Hg Hpos. rewrite load_table, decide_False by congruence. destruct (evicted q') eqn:Ev; [|done].
    rewrite (evicted_pins q' Ev) in Hpos. lia.
Qed.

Lemma load_contents q' : mguarded b → P q = Some data → (∀ q', q' ≠ q → P q' = write_back f b q') →
  (q' ≠ q → mstored b' q' = mstored b q') ∧ mstored b' q = Some data ∧ (munsaved b' q' → munsaved b q').
Proof.
  intros Hg HPq HP.
  assert (Hback : ∀ q', evicted q' = false → write_back f b q' = md_pages (disk_manager_ b) q').
  { intros q1 Ev. unfold write_back. destruct (resident_at f b) as [p|] eqn:Er; [|done].
    destruct (is_dirty_ p); [|done]. rewrite decide_False; [done|]. intros ->. apply resident_at_some in Er as [_ Ht].
    apply bool_decide_eq_false in Ev. congruence. }
  split_and!.
  - intros Hne. unfold stored. rewrite load_resident, decide_False by done. cbn [disk_manager_ load_page md_pages].
    rewrite HP by done. destruct (evicted q') eqn:Ev; [|by rewrite Hback].
    pose proof (evicted_pins q' Ev) as Hz. unfold evicted in Ev. apply bool_decide_eq_true in Ev.
    destruct (fo_table _ Hok _ _ Ev) as (p & Hp & <-). simplify_eq.
    assert (Hr : resident b (id_ p0) = Some p0) by (apply resident_frame; eauto). rewrite Hr.
    unfold write_back. rewrite (proj2 (resident_at_some f b p0)) by done.
    destruct (is_dirty_ p0) eqn:Ed; [by rewrite decide_True|].
    destruct (decide (md_pages (disk_manager_ b) (id_ p0) = Some (data_ p0))) as [?|Hne']; [done|].
    exfalso. assert (0 < pins b (id_ p0)); [|lia]. apply Hg. by exists p0.
  - unfold stored. by rewrite load_resident, decide_True.
  - intros (p & Hp & Hd & Hn). rewrite load_resident in Hp. cbn [disk_manager_ load_page md_pages] in Hn. case_decide.
    + by simplify_eq.
    + destruct (evicted q') eqn:Ev; [done|]. exists p. rewrite HP, Hback in Hn by done. done.
Qed.
End Load.

(** One frame changed, its page and contents kept. *)
Lemma set_frame_law (b b' : mpool) q f p p' : frames_ok b → page_table_ b' = page_table_ b → pool_size_ b' = pool_size_ b →
  disk_manager_ b' = disk_manager_ b →
  page_table_ b !! q = Some f → pages_ b !! f = Some p → pages_ b' = <[f := p']> (pages_ b) →
  id_ p' = id_ p → data_ p' = data_ p → 0 ≤ pin_count_ p' → (is_dirty_ p' = false → is_dirty_ p = false) →
  frames_ok b' ∧ pins b q = pin_count_ p ∧ pins b' q = pin_count_ p' ∧ (∀ q', q' ≠ q → pins b' q' = pins b q') ∧
  same_contents (λ d, md_pages d) b b' ∧ (is_dirty_ p' = true → ¬ munsaved b' q).
Proof.
  intros Hok Ht Hs Hdisk Hf Hp Hp' Hid Hdata Hpin Hd. pose proof (fun q' => resident_set b b' q f p' q' Hok Ht Hf Hp') as Hr.
  assert (Hrq : resident b q = Some p) by (apply resident_frame; eauto).
  split_and!.
  - eapply frames_set; try done. rewrite Hdata. by apply (fo_page _ Hok) in Hp as [].
  - unfold pins. by rewrite Hrq.
  - unfold pins. by rewrite Hr, decide_True.
  - intros q' Hne. unfold pins. by rewrite Hr, decide_False.
  - split; intros q'.
    + unfold stored. rewrite Hr, Hdisk. case_decide; [subst; by rewrite Hrq, Hdata|done].
    + intros (r & Hr' & Hdr & Hn). rewrite Hr in Hr'. rewrite Hdisk in Hn. case_decide; [|by exists r].
      simplify_eq. exists p. rewrite <- Hdata. auto.
  - intros Hdirty (r & Hr' & Hdr & _). rewrite Hr, decide_True in Hr' by done. congruence.
Qed.

Lemma resident_pair (b : mpool) q f p :
  (page_table_ b !! q ≫= λ f, (f,.) <$> pages_ b !! f) = Some (f, p) ↔ page_table_ b !! q = Some f ∧ pages_ b !! f = Some p.
Proof.
  destruct (page_table_ b !! q) as [g|] eqn:E; cbn; [|naive_solver].
  destruct (pages_ b !! g) as [r|] eqn:E'; cbn; naive_solver.
Qed.

Lemma resident_pair_none (b : mpool) q : frames_ok b →
  (page_table_ b !! q ≫= λ f, (f,.) <$> pages_ b !! f) = None → page_table_ b !! q = None.
Proof.
  intros Hok. destruct (page_table_ b !! q) as [g|] eqn:E; [|done]. cbn.
  destruct (fo_table _ Hok _ _ E) as (p & -> & _). done.
Qed.

Lemma mem_inv_pages (b b' : mpool) : page_table_ b' = page_table_ b → disk_manager_ b' = disk_manager_ b →
  mem_inv b → mem_inv b'.
Proof. intros Ht Hd [H1 H2 H3]. split; rewrite ?Ht, ?Hd; done. Qed.

Lemma mem_unpin_law q d b ok b' : frames_ok b → mem_inv b → mem_unpin q d b = (ok, b') →
  if decide (pins b q = 0) then ok = false ∧ b' = b
  else ok = true ∧ frames_ok b' ∧ mem_inv b' ∧ pool_size_ b' = pool_size_ b ∧ page_table_ b' = page_table_ b ∧
    pins b' q = pins b q - 1 ∧ (∀ q', q' ≠ q → pins b' q' = pins b q') ∧
    same_contents (λ d, md_pages d) b b' ∧ (d = true → ¬ munsaved b' q).
Proof.
  intros Hok Hi. unfold mem_unpin. destruct (_ ≫= _) as [[f p]|] eqn:E.
  - apply resident_pair in E as [Hf Hp]. pose proof (fo_page _ Hok _ _ Hp) as [Hpos _].
    assert (Hpins : pins b q = pin_count_ p) by (unfold pins, resident; rewrite Hf; cbn; by rewrite Hp).
    rewrite Hpins. destruct (Z.leb_spec (pin_count_ p) 0).
    + intros [= <- <-]. by rewrite decide_True by lia.
    + intros [= <- <-]. rewrite decide_False by lia.
      destruct (set_frame_law b (set_pages b (<[f:=mkPage (id_ p) (data_ p) (is_dirty_ p || d) (pin_count_ p - 1)]> (pages_ b)))
        q f p _ Hok eq_refl eq_refl eq_refl Hf Hp eq_refl) as (? & _ & ? & ? & ? & Hd); cbn; [done..|lia| |].
      { by intros [? _]%orb_false_elim. }
      split_and!; try done; [by apply (mem_inv_pages b)|]. intros ->. apply Hd. cbn. apply orb_true_r.
  - apply resident_pair_none in E; [|done]. intros [= <- <-]. unfold pins. by rewrite resident_absent, decide_True.
Qed.

Lemma keeps_frames_table (b b' : mpool) : pool_size_ b' = pool_size_ b → page_table_ b' = page_table_ b → keeps_frames b b'.
Proof. intros Hs Ht. split; [done|]. by rewrite Ht. Qed.

Lemma load_inv b f q data P next : frames_ok b → mem_inv b → zlen data = PAGE_SIZE → P q = Some data →
  (∀ q', q' ≠ q → P q' = write_back f b q') → pid_page_no q < next → md_next (disk_manager_ b) ≤ next →
  mem_inv (load_page f q data P next b).
Proof.
  intros Hok [H1 H2 H3] Hlen Hq HP Hn Hle.
  assert (Hback : ∀ q' data', write_back f b q' = Some data' →
    zlen data' = PAGE_SIZE ∧ is_Some (md_pages (disk_manager_ b) q')).
  { intros q' data'. unfold write_back. destruct (resident_at f b) as [p|] eqn:Er; [|eauto].
    apply resident_at_some in Er as [Hp Ht].
    destruct (is_dirty_ p); [case_decide|]; [|eauto..]. intros [= <-]. split; [by apply (fo_page _ Hok) in Hp as []|].
    subst. apply H1. eauto. }
  assert (Hsome : ∀ q', is_Some (md_pages (disk_manager_ b) q') → is_Some (write_back f b q')).
  { intros q'. unfold write_back. destruct (resident_at f b) as [p|]; [|done]. destruct (is_dirty_ p); [case_decide|]; eauto. }
  split; cbn [page_table_ disk_manager_ load_page md_pages md_next].
  - intros q' Ht. destruct (decide (q' = q)) as [->|Hne]; [by eexists|]. rewrite HP by done. apply Hsome, H1.
    rewrite lookup_insert_ne in Ht by done. destruct (resident_at f b); [|done].
    destruct Ht as [g Hg]. apply lookup_delete_Some in Hg as [_ Hg]. eauto.
  - intros q' [data' Hd]. destruct (decide (q' = q)) as [->|Hne]; [done|]. rewrite HP in Hd by done.
    apply Hback in Hd as [_ Hd]. specialize (H2 q' Hd). lia.
  - intros q' data' Hd. destruct (decide (q' = q)) as [->|Hne]; [congruence|]. rewrite HP in Hd by done.
    by apply Hback in Hd as [? _].
Qed.

Lemma mem_fetch_law bad q b r b' : frames_ok b → mem_inv b → mem_fetch bad q b = (r, b') →
  frames_ok b' ∧ mem_inv b' ∧ keeps_frames b b' ∧
  match r with
  | Ok (Some f) => page_table_ b' !! q = Some f ∧ pins b' q = pins b q + 1 ∧
      (∀ q', q' ≠ q → pins b' q' = pins b q') ∧ (mguarded b → same_contents (λ d, md_pages d) b b')
  | Ok None => b' = b ∧ resident b q = None
  | Throw _ => resident b q = None ∧ same_pins b b' ∧ keeps_pinned b b'
  | Crash => False
  end.
Proof.
  intros Hok Hi. unfold mem_fetch. destruct (page_table_ b !! q) as [f|] eqn:Hf.
  - destruct (fo_table _ Hok _ _ Hf) as (p & Hp & Hid). pose proof (fo_page _ Hok _ _ Hp) as [Hpos _]. intros [= <- <-].
    assert (Halt : alter (λ p, mkPage (id_ p) (data_ p) (is_dirty_ p) (pin_count_ p + 1)) f (pages_ b) =
      <[f := mkPage (id_ p) (data_ p) (is_dirty_ p) (pin_count_ p + 1)]> (pages_ b)).
    { apply list_eq. intros g. destruct (decide (f = g)) as [<-|].
      - rewrite list_lookup_alter_eq, Hp, list_lookup_insert_eq by (by eapply lookup_lt_Some). done.
      - by rewrite list_lookup_alter_ne, list_lookup_insert_ne. }
    rewrite Halt. set (b1 := set_pages b _).
    destruct (set_frame_law b b1 q f p _ Hok eq_refl eq_refl eq_refl Hf Hp eq_refl) as (? & Hp0 & ? & ? & ? & _);
      cbn; [done..|lia|done|]. rewrite Hp0.
    split_and!; try done. by apply (mem_inv_pages b).
  - destruct (find_victim_page b) as [f|] eqn:Ev.
    2:{ intros [= <- <-]. by rewrite resident_absent by done. }
    apply find_victim_some in Ev as (p0 & Hp0 & Hz).
    assert (Hthrow : ∀ e, (@Throw (option nat) e, b) = (r, b') → frames_ok b' ∧ mem_inv b' ∧ keeps_frames b b' ∧
      match r with Throw _ => resident b q = None ∧ same_pins b b' ∧ keeps_pinned b b' | _ => False end).
    { intros e [= <- <-]. by rewrite resident_absent by done. }
    destruct (md_pages (disk_manager_ b) q) as [data|] eqn:Ed.
    2:{ intros Heq. apply Hthrow in Heq as (? & ? & ? & Hr). by destruct r as [|e|]. }
    case_decide. { intros Heq. apply Hthrow in Heq as (? & ? & ? & Hr). by destruct r as [|e|]. }
    intros [= <- <-]. pose proof (mi_size _ Hi _ _ Ed) as Hlen.
    assert (HPq : write_back f b q = Some data).
    { unfold write_back. destruct (resident_at f b) as [p|] eqn:Er; [|done]. apply resident_at_some in Er as [_ Ht].
      destruct (is_dirty_ p); [|done]. rewrite decide_False; [done|]. intros ->. congruence. }
    destruct (load_frames b f p0 q data (write_back f b) (md_next (disk_manager_ b)) Hok Hp0 Hz Hf Hlen) as [Hok' Hk].
    split_and!; [done| |done|..].
    + apply load_inv; try done. apply (mi_next _ Hi). by rewrite Ed.
    + rewrite (load_table b f q data (write_back f b) _ Hok). by rewrite decide_True.
    + rewrite (load_pins b f p0 q) by done. rewrite decide_True by done. unfold pins. by rewrite resident_absent.
    + intros q' Hne. rewrite (load_pins b f p0 q) by done. by rewrite decide_False.
    + intros Hg. split; intros q'; destruct (load_contents b f p0 q data (write_back f b) (md_next (disk_manager_ b)) Hok Hp0 Hz q' Hg HPq) as (H1 & H2 & H3); try done.
      destruct (decide (q' = q)) as [->|]; [|auto]. rewrite H2. unfold stored. by rewrite resident_absent.
Qed.

Lemma mem_new_law q0 b r b' : frames_ok b → mem_inv b → mem_new q0 b = (r, b') →
  frames_ok b' ∧ mem_inv b' ∧ keeps_frames b b' ∧
  match r with
  | Ok (Some f, q) => pid_fd q = pid_fd q0 ∧ pins b q = 0 ∧ page_table_ b' !! q = Some f ∧ pins b' q = 1 ∧
      (∀ q', q' ≠ q → pins b' q' = pins b q') ∧
      (mguarded b → mstored b q = None ∧ mstored b' q = Some zero_page ∧
         (∀ q', q' ≠ q → mstored b' q' = mstored b q') ∧ ∀ q', munsaved b' q' → munsaved b q')
  | Ok (None, _) => b' = b
  | Throw _ => same_pins b b' ∧ keeps_pinned b b'
  | Crash => False
  end.
Proof.
  intros Hok Hi. unfold mem_new. destruct (find_victim_page b) as [f|] eqn:Ev; [|by intros [= <- <-]].
  apply find_victim_some in Ev as (p0 & Hp0 & Hz). set (q := mkPageId _ _). intros [= <- <-].
  assert (Hd : md_pages (disk_manager_ b) q = None).
  { destruct (md_pages (disk_manager_ b) q) eqn:E; [|done]. pose proof (mi_next _ Hi q ltac:(by rewrite E)). cbn in *. lia. }
  assert (Hf : page_table_ b !! q = None).
  { destruct (page_table_ b !! q) eqn:E; [|done]. destruct (mi_disk _ Hi q ltac:(by rewrite E)). congruence. }
  set (P := λ q', _). assert (HPq : P q = Some zero_page) by (unfold P; by rewrite decide_True).
  assert (HP : ∀ q', q' ≠ q → P q' = write_back f b q') by (intros q' Hne; unfold P; by rewrite decide_False).
  destruct (load_frames b f p0 q zero_page P (md_next (disk_manager_ b) + 1) Hok Hp0 Hz Hf page_size_zero) as [Hok' Hk].
  split_and!; [done| |done|done| |..].
  - apply load_inv; try done; cbn; lia.
  - unfold pins. by rewrite resident_absent.
  - rewrite (load_table b f q zero_page P _ Hok). by rewrite decide_True.
  - rewrite (load_pins b f p0 q) by done. by rewrite decide_True.
  - intros q' Hne. rewrite (load_pins b f p0 q) by done. by rewrite decide_False.
  - intros Hg. pose proof (λ q', load_contents b f p0 q zero_page P (md_next (disk_manager_ b) + 1) Hok Hp0 Hz q' Hg HPq HP) as Hc.
    split_and!; [unfold stored; by rewrite resident_absent|apply (Hc q)|intros q' ?; by apply Hc|intros q'; apply Hc].
Qed.

Lemma mem_delete_law q b r b' : frames_ok b → mem_inv b → mem_delete q b = (r, b') →
  frames_ok b' ∧ mem_inv b' ∧ same_pins b b' ∧ keeps_pinned b b' ∧
  match r with
  | Ok ok => if decide (pins b q = 0)
      then ok = true ∧ page_table_ b' = delete q (page_table_ b) ∧ (mguarded b → same_contents (λ d, md_pages d) b b')
      else ok = false ∧ b' = b
  | Throw _ => True
  | Crash => False
  end.
Proof.
  intros Hok Hi. unfold mem_delete. destruct (_ ≫= _) as [[f p]|] eqn:E.
  2:{ apply resident_pair_none in E; [|done]. intros [= <- <-].
      rewrite decide_True by (unfold pins; by rewrite resident_absent). by rewrite delete_id. }
  apply resident_pair in E as [Hf Hp]. assert (Hr : resident b q = Some p) by (apply resident_frame; eauto).
  assert (Hpins : pins b q = pin_count_ p) by (unfold pins; by rewrite Hr). rewrite Hpins.
  destruct (Z.eqb_spec (pin_count_ p) 0) as [Hz|Hz]; cbn [negb]; intros [= <- <-]; [|by rewrite decide_False].
  rewrite decide_True by done. destruct (fo_table _ Hok _ _ Hf) as (p' & Hp' & Hid). simplify_eq.
  pose proof (lookup_lt_Some _ _ _ Hp) as Hlt. set (b' := mkPool _ _ _ _ _ _ _).
  assert (Hne : ∀ q' g, page_table_ b !! q' = Some g → q' ≠ id_ p → f ≠ g).
  { intros q' g Hg Hq ->. by apply Hq, (frame_inj b _ _ g). }
  assert (Hres : ∀ q', resident b' q' = if decide (q' = id_ p) then None else resident b q').
  { intros q'. unfold resident. cbn. case_decide; [subst; by rewrite lookup_delete_eq|]. rewrite lookup_delete_ne by done.
    destruct (page_table_ b !! q') as [g|] eqn:Eg; [|done]. cbn. apply list_lookup_insert_ne. by eapply Hne. }
  assert (Hsp : same_pins b b').
  { intros q'. unfold pins at 1. rewrite Hres. case_decide; [subst; by rewrite Hpins, Hz|done]. }
  split_and!; [split; cbn|split; cbn|done|split; [split; [done|]|]|done|done|].
  - rewrite length_insert. apply (fo_length _ Hok).
  - intros q' g [Hq Hg]%lookup_delete_Some. destruct (fo_table _ Hok _ _ Hg) as (r & Hr' & <-). exists r. split; [|done].
    rewrite list_lookup_insert_ne; [done|]. by eapply Hne.
  - intros g r Hg Hn. destruct (decide (f = g)) as [<-|].
    + rewrite list_lookup_insert_eq in Hg by done. by simplify_eq.
    + rewrite list_lookup_insert_ne in Hg by done. pose proof (fo_pinned _ Hok _ _ Hg Hn) as Ht.
      rewrite lookup_delete_ne; [done|]. intros Hq. rewrite <- Hq in Ht. congruence.
  - intros g r Hg. destruct (decide (f = g)) as [<-|].
    + rewrite list_lookup_insert_eq in Hg by done. by simplify_eq.
    + rewrite list_lookup_insert_ne in Hg by done. by apply (fo_page _ Hok) in Hg.
  - intros q' [g [_ Hg]%lookup_delete_Some]. case_decide; [done|]. apply (mi_disk _ Hi). eauto.
  - intros q'. case_decide; [|apply (mi_next _ Hi)]. subst. intros _. apply (mi_next _ Hi), (mi_disk _ Hi). eauto.
  - intros q' data. case_decide; [|apply (mi_size _ Hi)]. intros [= <-]. by apply (fo_page _ Hok) in Hp as [].
  - intros q' g Hg Hpos. cbn. rewrite lookup_delete_ne; [done|]. intros <-. lia.
  - intros q' Hpos. rewrite Hres. rewrite decide_False; [done|]. intros ->. lia.
  - intros _. split; intros q'.
    + unfold stored. rewrite Hres. cbn. case_decide; [subst; by rewrite Hr|done].
    + intros (r & Hr' & Hd & Hn). rewrite Hres in Hr'. cbn in Hn. case_decide; [done|]. by exists r.
Qed.

Lemma mem_flush_all_law fd b r b' : frames_ok b → mem_inv b → mem_flush_all fd b = (r, b') →
  frames_ok b' ∧ mem_inv b' ∧ same_pins b b' ∧ pool_size_ b' = pool_size_ b ∧ page_table_ b' = page_table_ b ∧
  (∀ q, mstored b' q = mstored b q) ∧
  match r with
  | Ok _ => (∀ q, munsaved b' q → munsaved b q ∧ pid_fd q ≠ fd)
  | Throw _ => ∀ q, munsaved b' q → munsaved b q
  | Crash => False
  end.
Proof.
  intros Hok Hi [= <- <-]. set (clean := λ p, if decide (pid_fd (id_ p) = fd) then _ else _). set (b' := mkPool _ _ _ _ _ _ _).
  assert (Hclean : ∀ p, id_ (clean p) = id_ p ∧ data_ (clean p) = data_ p ∧ pin_count_ (clean p) = pin_count_ p ∧
    (is_dirty_ (clean p) = false → is_dirty_ p = false ∨ pid_fd (id_ p) = fd)).
  { intros p. unfold clean. case_decide; cbn; auto. }
  assert (Hid : ∀ q p, resident b q = Some p → id_ p = q).
  { intros q p (f & Hf & Hp)%resident_frame. destruct (fo_table _ Hok _ _ Hf) as (p' & ? & ?). congruence. }
  assert (Hres : ∀ q, resident b' q = clean <$> resident b q).
  { intros q. unfold resident. cbn. destruct (page_table_ b !! q); [|done]. cbn. by rewrite list_lookup_fmap. }
  split_and!; [split; cbn|split; cbn|..]; try done.
  - rewrite length_fmap. apply (fo_length _ Hok).
  - intros q f Hf. destruct (fo_table _ Hok _ _ Hf) as (p & Hp & Hq). exists (clean p).
    split; [by rewrite list_lookup_fmap, Hp|]. by rewrite (proj1 (Hclean p)).
  - intros f p. rewrite list_lookup_fmap. intros (p' & Hp & ->)%fmap_Some. destruct (Hclean p') as (-> & _ & -> & _).
    by apply (fo_pinned _ Hok).
  - intros f p. rewrite list_lookup_fmap. intros (p' & Hp & ->)%fmap_Some. destruct (Hclean p') as (_ & -> & -> & _).
    by apply (fo_page _ Hok) in Hp.
  - intros q Hq. apply (mi_disk _ Hi) in Hq. case_decide; [|done]. unfold stored. by destruct (resident b q).
  - intros q. case_decide; [|apply (mi_next _ Hi)]. intros Hs. apply (mi_next _ Hi). unfold stored in Hs.
    destruct (resident b q) eqn:E; [|done]. apply (mi_disk _ Hi). apply resident_frame in E as (f & ? & _). eauto.
  - intros q data. case_decide; [|apply (mi_size _ Hi)]. unfold stored. destruct (resident b q) as [p|] eqn:E; [|apply (mi_size _ Hi)].
    intros [= <-]. apply resident_frame in E as (f & _ & Hp). by apply (fo_page _ Hok) in Hp as [].
  - intros q. unfold pins. rewrite Hres. destruct (resident b q) as [p|]; [|done]. cbn. by destruct (Hclean p) as (_ & _ & -> & _).
  - intros q. unfold stored at 1. rewrite Hres. cbn. unfold stored.
    destruct (resident b q) as [p|]; cbn; [by destruct (Hclean p) as (_ & -> & _)|]. by case_decide.
  - intros q (p' & Hp & Hd & Hn). rewrite Hres in Hp. apply fmap_Some in Hp as (p & Hp & ->).
    pose proof (Hid q p Hp) as <-. destruct (Hclean p) as (_ & Hda & _ & Hdi). rewrite Hda in Hn. cbn in Hn.
    unfold stored in Hn. rewrite Hp in Hn. case_decide as Hfd; [done|]. destruct (Hdi Hd); [|done].
    split; [|done]. by exists p.
Qed.

Definition mem_pool_laws (bad : list PageId) : @PoolLaws MemDisk (mem_pool bad).
Proof.
  refine (@Build_PoolLaws MemDisk (mem_pool bad) (λ d, md_pages d) mem_inv _ (mem_fetch_law bad) mem_new_law
    mem_unpin_law mem_delete_law mem_flush_all_law).
  intros f data b Hi. by apply (mem_inv_pages b).
Defined.

(** When every frame is pinned the snapshot has as many pages as there are frames. *)
Lemma snapshot_full (b : mpool) : frames_ok b → find_victim_page b = None → (pool_size_ b ≤ size (get_pin_snapshot b))%nat.
Proof.
  intros Hok Hv. assert (Hall : Forall (λ p, pin_count_ p ≠ 0) (pages_ b)).
  { unfold find_victim_page in Hv. destruct (list_find _ _) eqn:E; [done|]. by apply list_find_None in E. }
  rewrite <- (fo_length _ Hok), <- size_dom, <- (length_fmap id_ (pages_ b)).
  assert (Hnd : NoDup (id_ <$> pages_ b)).
  { apply NoDup_alt. intros f g q Hf Hg. rewrite list_lookup_fmap in Hf, Hg.
    apply fmap_Some in Hf as (p & Hp & ->), Hg as (r & Hr & Hid). rewrite Forall_lookup in Hall.
    pose proof (fo_pinned _ Hok _ _ Hp (Hall _ _ Hp)). pose proof (fo_pinned _ Hok _ _ Hr (Hall _ _ Hr)). congruence. }
  rewrite <- (size_list_to_set (C := gset PageId) _ Hnd). apply subseteq_size. intros q Hq.
  apply elem_of_list_to_set, list_elem_of_fmap in Hq as (p & -> & [f Hp]%list_elem_of_lookup).
  rewrite Forall_lookup in Hall. specialize (Hall _ _ Hp). pose proof (fo_page _ Hok _ _ Hp) as [? _].
  apply elem_of_dom. exists (pin_count_ p). apply pin_snapshot_lookup; [done|]. split; [by eapply pins_frame|lia].
Qed.

Lemma mem_pool_live : @LivePool MemDisk (mem_pool []) (mem_pool_laws []).
Proof.
  split. intros q b Hok Hi [data Hs] Hroom. cbn in *. unfold mem_fetch.
  destruct (page_table_ b !! q) as [f|] eqn:E; [by eexists _, _|].
  destruct (find_victim_page b) as [f|] eqn:Ev; [|apply snapshot_full in Ev; [lia|done]].
  unfold stored in Hs. rewrite resident_absent in Hs by done. rewrite Hs.
  rewrite decide_False by set_solver. by eexists _, _.
Qed.

(** ** An example *)

Definition data_page (z : Z) : bytes := int_bytes z ++ zdrop 4 zero_page.

(** Two frames over a file of two pages. *)
Definition sample_disk : MemDisk :=
  mkMemDisk (λ q, if decide (q = mkPageId 3 0) then Some (data_page 10)
                  else if decide (q = mkPageId 3 1) then Some (data_page 11) else None) 2.
Definition sample_pool : mpool := BufferPoolManager_new 2 sample_disk.

Lemma new_pool_ok n (d : MemDisk) : frames_ok (BufferPoolManager_new n d).
Proof.
  split; cbn.
  - apply length_replicate.
  - intros q f. by rewrite lookup_empty.
  - by intros f p [-> _]%lookup_replicate.
  - by intros f p [-> _]%lookup_replicate.
Qed.

Lemma sample_pool_inv : mem_inv sample_pool.
Proof.
  split; cbn.
  - intros q. rewrite lookup_empty. by intros [].
  - intros q. repeat case_decide; subst; intros [? ?]; done.
  - intros q data. repeat case_decide; by intros [= <-].
Qed.

(** Page 0 is changed, a second guard moved onto the first, a third page brought in. *)
Definition sample_ops : list guard_op :=
  [Fetch "a" (mkPageId 3 0); Write "a" (data_page 42); Fetch "b" (mkPageId 3 1); MoveAssign "a" "b";
   NewPage "c" (mkPageId 3 (-1)); Drop "a"; EndScope "a"; EndScope "b"; EndScope "c";
   Fetch "d" (mkPageId 3 1); Fetch "e" (mkPageId 3 0); EndScope "d"; EndScope "e"].

Definition sample_run := @run_guards MemDisk (mem_pool []) sample_ops ∅ sample_pool.

(** The contents survive the eviction of page 0. *)
Lemma guards_release_pins_witness :
  ∃ w b', sample_run = Some (Ok w, ∅, b') ∧ get_pin_snapshot b' = ∅ ∧
    stored (λ d, md_pages d) b' (mkPageId 3 0) = Some (data_page 42).
Proof.
  destruct sample_run as [[[r objs] b']|] eqn:E; [|exfalso; revert E; vm_compute; discriminate].
  pose proof (@guards_release_pins MemDisk (mem_pool []) (mem_pool_laws []) sample_ops sample_pool r objs b'
    (new_pool_ok 2 sample_disk) sample_pool_inv) as H.
  destruct H as (_ & _ & Hsnap & Hr); [intros q (p & Hp & _); cbv in Hp; discriminate|exact E|].
  assert (Hobjs : objs = ∅) by (apply (f_equal (λ x, snd (fst (default (Crash, ∅, sample_pool) x)))) in E; cbn in E; rewrite <- E; vm_compute; reflexivity).
  assert (Hw : ∃ w, r = Ok w ∧ w = [(mkPageId 3 0, data_page 42); (mkPageId 3 2, zero_page)]).
  { exists [(mkPageId 3 0, data_page 42); (mkPageId 3 2, zero_page)]. split; [|reflexivity].
    apply (f_equal (λ x, fst (fst (default (Crash, ∅, sample_pool) x)))) in E. cbn in E. rewrite <- E. vm_compute. reflexivity. }
  destruct Hw as (w & -> & ->). subst objs. exists [(mkPageId 3 0, data_page 42); (mkPageId 3 2, zero_page)], b'.
  split; [reflexivity|]. split; [exact (Hsnap eq_refl)|]. destruct Hr as [Hs _]. apply (Hs (mkPageId 3 0)).
Defined.

(** Page 0 is written through a guard, then the file is discarded. *)
Definition warm_ops : list guard_op := [Fetch "a" (mkPageId 3 0); Write "a" (data_page 42); EndScope "a"].
Definition warm_pool : mpool :=
  match @run_guards MemDisk (mem_pool []) warm_ops ∅ sample_pool with
  | Some (_, _, b) => b
  | None => sample_pool
  end.

Lemma warm_pool_good : @good MemDisk (mem_pool []) (mem_pool_laws []) warm_pool.
Proof.
  destruct (@run_guards MemDisk (mem_pool []) warm_ops ∅ sample_pool)
    as [[[r objs] b']|] eqn:E; [|exfalso; revert E; vm_compute; discriminate].
  assert (warm_pool = b') as -> by (unfold warm_pool; rewrite E; done).
  assert (Hok : frames_ok sample_pool) by apply new_pool_ok.
  destruct (@run_accounted MemDisk (mem_pool []) (mem_pool_laws []) (pins sample_pool)
    (λ q, pins_nonneg sample_pool q Hok) warm_ops ∅ sample_pool r objs b') as [Ha Hr]; [|exact E|].
  { split; [done|apply sample_pool_inv|intros v g Hv; by apply owns_lookup in Hv as [? _]|].
    intros q. unfold owns, count. rewrite !map_filter_empty, map_size_empty. lia. }
  assert (objs = ∅) as -> by (apply (f_equal (λ x, snd (fst (default (Crash, ∅, sample_pool) x)))) in E; cbn in E;
    rewrite <- E; vm_compute; reflexivity).
  split; [apply Ha|apply Ha|]. intros q Hq. destruct r as [w|e|]; [| |done].
  - specialize (Hr (mstored sample_pool)). destruct Hr as [Hr _].
    { split; [|done]. intros q' (p & Hp & _). cbv in Hp. discriminate. }
    destruct (Hr q Hq) as (v & g & Hv & _). by apply owns_lookup in Hv as [? _].
  - exfalso. revert E. vm_compute. discriminate.
Qed.

Lemma discard_file_pages_correct_witness :
  ∃ b', @pool_discard_file_pages MemDisk (mem_pool []) 3 warm_pool = (Ok tt, b') ∧
    page_table_ warm_pool !! mkPageId 3 0 = Some 0%nat ∧ page_table_ b' !! mkPageId 3 0 = None ∧
    md_pages (disk_manager_ b') (mkPageId 3 0) = Some (data_page 42).
Proof.
  destruct (@pool_discard_file_pages MemDisk (mem_pool []) 3 warm_pool) as [r b'] eqn:E.
  destruct (@discard_file_pages_correct MemDisk (mem_pool []) (mem_pool_laws []) 3 warm_pool r b' warm_pool_good) as [_ Hr];
    [|exact E|].
  { intros q _. destruct (decide (pins warm_pool q = 0)) as [?|Hn]; [done|].
    assert (Hz : get_pin_snapshot warm_pool = ∅) by (vm_compute; reflexivity).
    assert (Hs : get_pin_snapshot warm_pool !! q = Some (pins warm_pool q)).
    { apply pin_snapshot_lookup; [apply warm_pool_good|]. pose proof (pins_nonneg warm_pool q (good_frames _ warm_pool_good)).
      split; [done|lia]. }
    rewrite Hz, lookup_empty in Hs. discriminate. }
  assert (r = Ok tt) as -> by (apply (f_equal fst) in E; cbn in E; rewrite <- E; vm_compute; reflexivity).
  destruct Hr as (Hgone & _ & _). destruct (Hgone (mkPageId 3 0) eq_refl) as [H1 H2].
  exists b'. split; [done|]. split; [vm_compute; reflexivity|]. split; [exact H1|].
  etransitivity; [exact H2|]. vm_compute. reflexivity.
Defined.
