(* ===== verification/RecordFile.v ===== *)
(** * Pages of record files under a guard

    Models [RmPageHandle], [RmPageGuard] and the parts of [RmFileHandle] in
    [src/src/record/rm_file_handle.h] that are implemented: construction of the views,
    [fetch_page_guard] and [is_record].  The operations on records are exercises with empty
    bodies ([Execution] states what INSERT relies on).

    [is_record_correct]: the answer is the bit of the stored page, and no pin is kept. *)

From S2P Require Import Prelude Common Record RecordFacts IndexFile Disk System Execution BufferPool BufferPoolFacts MemPool.

(** ** Views *)

(** The frame of the page and the offsets of its parts; null pointers are [None]. *)
Record RmPageHandle := mkPageHandle {
  ph_hdr : option RmFileHdr; ph_page : option nat; ph_page_hdr : Z; ph_bitmap : Z; ph_slots : Z }.

Definition RmPageHandle_default : RmPageHandle := mkPageHandle None None 0 0 0.

Definition RmPageHandle_make (fhdr : option RmFileHdr) (page : option nat) : result RmPageHandle :=
  match fhdr, page with
  | Some hdr, Some f => Ok (mkPageHandle fhdr page page_hdr_offset bitmap_offset (slots_offset hdr))
  | _, _ => Throw (InternalError "cannot construct a record page handle from null")
  end.

(** [RmPageHandle::get_slot]: the offset of a slot. *)
Definition handle_slot (h : RmPageHandle) (slot_no : Z) : option Z :=
  (λ hdr, ph_slots h + slot_no * record_size hdr) <$> ph_hdr h.

Record RmPageGuard := mkRmGuard { rm_guard : PageGuard; rm_view : RmPageHandle }.

(** A view only for a guard that holds a page. *)
Definition RmPageGuard_make (hdr : RmFileHdr) (guard : PageGuard) : result RmPageGuard :=
  if guard_valid guard
  then view ← RmPageHandle_make (Some hdr) (page_ guard); Ok (mkRmGuard guard view)
  else Ok (mkRmGuard guard RmPageHandle_default).

Definition rm_valid (g : RmPageGuard) : bool := guard_valid (rm_guard g).
Definition rm_mark_dirty (g : RmPageGuard) : RmPageGuard := mkRmGuard (mark_dirty (rm_guard g)) (rm_view g).

(** ** [RmFileHandle] *)

Section File.
Context {D : Type} `{BufferPool D} (h : RmFileHandle).
Notation pool := (BufferPoolManager D).

Definition record_page (page_no : Z) : PageId := mkPageId (fh_fd h) page_no.

Definition rm_fetch_page_guard (page_no : Z) : M pool RmPageGuard :=
  guard ← fetch_page_guard (record_page page_no); lift (RmPageGuard_make (file_hdr h) guard).

(** The bytes at [bitmap] of the page in memory. *)
Definition view_bitmap (v : RmPageHandle) (b : pool) : result bytes :=
  match ph_page v ≫= λ f, pages_ b !! f with Some p => Ok (zdrop (ph_bitmap v) (data_ p)) | None => Crash end.

(** The guard is destroyed however the scope is left. *)
Definition is_record (rid : Rid) : M pool bool := λ b,
  match rm_fetch_page_guard (page_no rid) b with
  | (Ok page, b) =>
    (if negb (rm_valid page) then Throw (InternalError "failed to fetch record page")
     else bm ← view_bitmap (rm_view page) b; Bitmap.is_set bm (slot_no rid),
     PageGuard_destroy (rm_guard page) b)
  | (Throw e, b) => (Throw e, b)
  | (Crash, b) => (Crash, b)
  end.
End File.

(** ** Correctness *)

Section Facts.
Context {D : Type} `{PoolLaws D} (h : RmFileHandle).
Notation pool := (BufferPoolManager D).
Implicit Types b : pool.

(** The slot has its bit inside the page. *)
Definition slot_in_page (rid : Rid) : Prop := 0 ≤ slot_no rid < 8 * (PAGE_SIZE - bitmap_offset).

Lemma is_set_in_page data rid : zlen data = PAGE_SIZE → slot_in_page rid →
  ∃ v, Bitmap.is_set (zdrop bitmap_offset data) (slot_no rid) = Ok v.
Proof.
  intros Hlen [H0 H1]. unfold Bitmap.is_set, Bitmap.at_, Bitmap.get_bucket, Bitmap.BITMAP_WIDTH.
  rewrite Z.quot_div_nonneg by lia.
  assert (Hb : 0 ≤ slot_no rid `div` 8 < zlen (zdrop bitmap_offset data)).
  { rewrite zlen_zdrop by (rewrite Hlen; vm_compute; split; discriminate). rewrite Hlen.
    split; [apply Z.div_pos; lia|apply Z.div_lt_upper_bound; lia]. }
  destruct (lookup_lt_is_Some_2 (zdrop bitmap_offset data) (Z.to_nat (slot_no rid `div` 8))) as [x Hx].
  { unfold zlen in Hb. lia. }
  rewrite Hx, (proj2 (Z.ltb_ge _ 0)) by lia. by eexists.
Qed.

(** [is_record] tells whether the bit of the slot is set on the page as it is stored
    (in memory or on disk), and leaves no pin behind: with the answer all pages have the
    contents and the pins they had.  It throws only when the page could not be brought
    into memory, and then no page has more or fewer pins either; for a slot whose bit lies
    inside the page it never reads outside it. *)
Theorem is_record_correct rid b r b' : good b → is_record h rid b = (r, b') → slot_in_page rid →
  same_pins b b' ∧
  match r with
  | Ok v => good b' ∧ (∀ q, stored disk_page b' q = stored disk_page b q) ∧
      ∃ data, stored disk_page b (record_page h (page_no rid)) = Some data ∧
        Bitmap.is_set (zdrop bitmap_offset data) (slot_no rid) = Ok v
  | Throw _ => resident b (record_page h (page_no rid)) = None
  | Crash => False
  end.
Proof.
  intros Hgood Hr Hslot. unfold is_record, rm_fetch_page_guard, mbind, M_bind, lift in Hr.
  set (q := record_page h (page_no rid)) in *. destruct (fetch_page_guard q b) as [[g|e|] b1] eqn:E;
    pose proof (fetch_guard_law _ _ _ _ (good_frames _ Hgood) (good_inv _ Hgood) E) as (Hok & Hi & _ & Hl).
  - destruct Hl as [(-> & -> & Hres)|(f & -> & _ & Ht & _ & _ & Ho)]; cbn in Hr.
    + simplify_eq. by split.
    + specialize (Ho (good_guarded _ Hgood)). destruct (fo_table _ Hok _ _ Ht) as (p & Hp & Hid).
      destruct (fo_page _ Hok _ _ Hp) as [_ Hlen]. destruct (is_set_in_page (data_ p) rid Hlen Hslot) as [v Hv].
      unfold view_bitmap in Hr. cbn in Hr. rewrite Hp in Hr. cbn in Hr. rewrite Hv in Hr. simplify_eq.
      pose proof (visit_read _ _ _ _ Hgood Ho) as Hvis. split; [apply (vi_pins _ _ _ _ Hvis)|].
      split; [apply (vi_good _ _ _ _ Hvis)|]. split.
      * intros q'. rewrite (vi_stored _ _ _ _ Hvis). by case_decide; subst.
      * exists (data_ p). split; [|done]. rewrite <- (op_stored _ _ _ _ Ho). unfold stored, resident. rewrite Ht. cbn. by rewrite Hp.
  - simplify_eq. by destruct Hl as (Hres & Hs & _).
  - done.
Qed.
End Facts.

(** ** An example *)

(** Page 1 of file 3 with the record of slot 1. *)
Definition record_bytes : bytes := replicate 12 Byte.x00 ++ Byte.x40 :: zdrop 13 zero_page.
Definition record_disk : MemDisk := mkMemDisk (λ q, if decide (q = mkPageId 3 1) then Some record_bytes else None) 2.
Definition record_pool : mpool := BufferPoolManager_new 2 record_disk.
Definition record_handle : RmFileHandle := mkFh 3 (mkFileHdr 8 2 100 1 13).

Lemma record_pool_good : @good MemDisk (mem_pool []) (mem_pool_laws []) record_pool.
Proof.
  split; [apply new_pool_ok| |intros q (p & Hp & _); cbv in Hp; discriminate].
  split; cbn.
  - intros q. rewrite lookup_empty. by intros [].
  - intros q. case_decide; subst; intros [? ?]; done.
  - intros q data. case_decide; [intros [= <-]; vm_compute; reflexivity|done].
Qed.

Lemma is_record_correct_witness :
  ∃ b', @is_record MemDisk (mem_pool []) record_handle (mkRid 1 1) record_pool = (Ok true, b') ∧ same_pins record_pool b' ∧
    ∃ data, stored (λ d, md_pages d) record_pool (mkPageId 3 1) = Some data ∧ Bitmap.is_set (zdrop bitmap_offset data) 1 = Ok true.
Proof.
  destruct (@is_record MemDisk (mem_pool []) record_handle (mkRid 1 1) record_pool) as [r b'] eqn:E.
  destruct (@is_record_correct MemDisk (mem_pool []) (mem_pool_laws []) record_handle (mkRid 1 1) record_pool r b' record_pool_good E)
    as [Hp Hr]; [vm_compute; split; [discriminate|reflexivity]|].
  assert (r = Ok true) as -> by (apply (f_equal fst) in E; cbn in E; rewrite <- E; vm_compute; reflexivity).
  exists b'. split; [reflexivity|]. split; [exact Hp|]. apply Hr.
Defined.
