(* ===== verification/BPlusTree.v ===== *)
(** * B+ tree pages, nodes and scans

    Models the implemented part of [src/src/index/b_plus_tree.h] and [b_plus_tree.cpp]
    and [src/src/index/index_scan.h], [index_scan.cpp]: the view of a node on a page, the
    node handle that owns a pin, the helpers of [BPlusTree] that link, relabel and count
    nodes, and the scan along the leaves.  Search, insertion and deletion are exercises
    with empty bodies.

    A node view is a frame; its accessors read and write the bytes of the page, and an
    access outside the page is undefined behaviour. *)

From S2P Require Import Prelude Errors Common Record IndexFile Disk System Execution BufferPool.

(** ** [BPlusTreeNode]: the accessors on the bytes of a page *)

Definition set_int_at (d : bytes) (off z : Z) : bytes := ztake off d ++ int_bytes z ++ zdrop (off + 4) d.

Definition get_size (d : bytes) : Z := int_at d 8.
Definition set_size (d : bytes) (size : Z) : bytes := set_int_at d 8 size.
Definition get_max_size (h : IndexFileHeader) : Z := tree_order_ h + 1.
Definition get_min_size (h : IndexFileHeader) : Z := Z.quot (get_max_size h) 2.
Definition get_next_leaf (d : bytes) : Z := int_at d 20.
Definition get_prev_leaf (d : bytes) : Z := int_at d 16.
Definition get_parent_page_no (d : bytes) : Z := int_at d 4.
Definition is_leaf_page (d : bytes) : bool := bool_decide (d !! 12%nat ≠ Some Byte.x00).
Definition is_root_page (d : bytes) : bool := get_parent_page_no d =? INDEX_NO_PAGE.
Definition set_next_leaf (d : bytes) (page_no : Z) : bytes := set_int_at d 20 page_no.
Definition set_prev_leaf (d : bytes) (page_no : Z) : bytes := set_int_at d 16 page_no.
Definition set_parent_page_no (d : bytes) (parent : Z) : bytes := set_int_at d 4 parent.

Section Node.
Context (h : IndexFileHeader).

(** [keys_] and [rids_] of the constructor. *)
Definition keys_offset : Z := sizeof_IndexPageHeader.
Definition rids_offset : Z := keys_offset + keys_region_size_ h.

Definition read_at (d : bytes) (off len : Z) : result bytes :=
  if (off <? 0) || (zlen d <? off + len) then Crash else Ok (ztake len (zdrop off d)).

Definition get_key (d : bytes) (key_idx : Z) : result bytes :=
  read_at d (keys_offset + key_idx * key_length_ h) (key_length_ h).

Definition get_rid (d : bytes) (rid_idx : Z) : result Rid :=
  bs ← read_at d (rids_offset + rid_idx * sizeof_Rid) sizeof_Rid; Ok (mkRid (int_at bs 0) (int_at bs 4)).

Definition set_key (d : bytes) (key_idx : Z) (key : bytes) : result bytes :=
  put d (keys_offset + key_idx * key_length_ h) (ztake (key_length_ h) key).

Definition set_rid (d : bytes) (rid_idx : Z) (rid : Rid) : result bytes :=
  put d (rids_offset + rid_idx * sizeof_Rid) (int_bytes (page_no rid) ++ int_bytes (slot_no rid)).

Definition key_at (d : bytes) (i : Z) : result Z := key ← get_key d i; Ok (int_at key 0).
Definition value_at (d : bytes) (i : Z) : result Z := rid ← get_rid d i; Ok (page_no rid).

(** The loop of [find_child], and its assertion. *)
Fixpoint find_child_loop (fuel : nat) (d : bytes) (child_page_no child_index : Z) : result Z :=
  match fuel with
  | O => Crash
  | S fuel =>
    if child_index <? get_size d then
      rid ← get_rid d child_index;
      if page_no rid =? child_page_no then Ok child_index else find_child_loop fuel d child_page_no (child_index + 1)
    else Crash
  end.

Definition find_child (d : bytes) (child_page_no : Z) : result Z :=
  find_child_loop (S (Z.to_nat (get_size d))) d child_page_no 0.

(** [erase_pair] is an exercise.  The child and the page without its pair; a failing
    assertion ends the process. *)
Definition remove_and_return_only_child (erase_pair : bytes → Z → result bytes) (d : bytes) : result (Z * bytes) :=
  if negb (get_size d =? 1) then Crash else
  child_page_no ← value_at d 0;
  d ← erase_pair d 0;
  if negb (get_size d =? 0) then Crash else Ok (child_page_no, d).
End Node.

(** ** [IndexNode] *)

(** The guard, and the page of the view ([None] for the empty view). *)
Record IndexNode := mkNode { guard_ : PageGuard; view_ : option nat }.

Definition IndexNode_default : IndexNode := mkNode PageGuard_default None.

Definition IndexNode_make (guard : PageGuard) : IndexNode :=
  let '(guard, _) := PageGuard_move guard in
  if guard_valid guard then mkNode guard (page_ guard) else mkNode guard None.

Definition IndexNode_move (other : IndexNode) : IndexNode * IndexNode :=
  let '(guard, old) := PageGuard_move (guard_ other) in (mkNode guard (view_ other), mkNode old None).

Definition valid (n : IndexNode) : bool := guard_valid (guard_ n).

Definition node_mark_dirty (n : IndexNode) : IndexNode := mkNode (mark_dirty (guard_ n)) (view_ n).

Definition node_release (n : IndexNode) : PageGuard * IndexNode :=
  let '(guard, old) := PageGuard_move (guard_ n) in (guard, mkNode old None).

Section Tree.
Context {D : Type} `{BufferPool D}.
Notation pool := (BufferPoolManager D).

Definition IndexNode_destroy (n : IndexNode) (b : pool) : pool := PageGuard_destroy (guard_ n) b.

(** [operator=] of two different nodes. *)
Definition IndexNode_move_assign (self other : IndexNode) (b : pool) : IndexNode * IndexNode * pool :=
  let '(guard, old, b) := PageGuard_move_assign (guard_ self) (guard_ other) b in
  (mkNode guard (view_ other), mkNode old None, b).

(** The page under the view. *)
Definition node_page (n : IndexNode) (b : pool) : result Page :=
  match view_ n ≫= λ f, pages_ b !! f with Some p => Ok p | None => Crash end.

Definition get_page_no (n : IndexNode) (b : pool) : result Z := p ← node_page n b; Ok (pid_page_no (id_ p)).

(** A setter through the view, then [mark_dirty()]. *)
Definition node_update (f : bytes → result bytes) (n : IndexNode) (b : pool) : result unit * IndexNode * pool :=
  match view_ n ≫= λ fr, (fr,.) <$> pages_ b !! fr with
  | Some (fr, p) =>
    match f (data_ p) with
    | Ok d => (Ok tt, node_mark_dirty n, write_data fr d b)
    | Throw e => (Throw e, n, b)
    | Crash => (Crash, n, b)
    end
  | None => (Crash, n, b)
  end.

(** [{ IndexNode n = make; body }]: the destructor runs however the body ends. *)
Definition scoped {A} (make : M pool IndexNode) (body : IndexNode → pool → result A * IndexNode * pool) : M pool A := λ b,
  match make b with
  | (Ok n, b) => let '(r, n, b) := body n b in (r, IndexNode_destroy n b)
  | (Throw e, b) => (Throw e, b)
  | (Crash, b) => (Crash, b)
  end.

(** A body that only reads. *)
Definition reading {A} (f : IndexNode → pool → result A) (n : IndexNode) (b : pool) : result A * IndexNode * pool :=
  (f n b, n, b).

(** ** [BPlusTree] *)

Context (t : BPlusTree).
Notation header := (tree_header t).

Definition node_id (page_no : Z) : PageId := mkPageId (tree_fd t) page_no.

Definition fetch_node (page_no : Z) : M pool IndexNode :=
  guard ← fetch_page_guard (node_id page_no); mret (IndexNode_make guard).

(** The new node and the tree with its page counted. *)
Definition create_node : M pool (IndexNode * BPlusTree) :=
  '(guard, _) ← new_page_guard (node_id INVALID_PAGE_ID);
  if guard_valid guard
  then mret (IndexNode_make guard,
             mkTree (tree_fd t)
               (mkHeader (first_free_page_ header) (page_count_ header + 1) (root_page_ header) (column_count_ header)
                  (column_types_ header) (column_lengths_ header) (key_length_ header) (tree_order_ header)
                  (keys_region_size_ header) (first_leaf_ header) (last_leaf_ header) (unique_ header)
                  (serialized_size_ header)))
  else mret (IndexNode_default, t).

(** ** Positions *)

Record IndexPosition := mkPosition { pos_page_no : Z; pos_slot_no : Z }.
Definition IndexPosition_default : IndexPosition := mkPosition INDEX_NO_PAGE (-1).
Definition IndexPosition_eqb (x y : IndexPosition) : bool :=
  (pos_page_no x =? pos_page_no y) && (pos_slot_no x =? pos_slot_no y).

Definition tree_get_rid (position : IndexPosition) : M pool Rid :=
  scoped (fetch_node (pos_page_no position)) (reading (λ n b,
    if negb (valid n) || (pos_slot_no position <? 0) then Throw IndexEntryNotFoundError
    else p ← node_page n b;
         _ ← throw_if (get_size (data_ p) <=? pos_slot_no position) IndexEntryNotFoundError;
         get_rid header (data_ p) (pos_slot_no position))).

Definition leaf_end : M pool IndexPosition :=
  scoped (fetch_node (last_leaf_ header)) (reading (λ n b,
    if negb (valid n) then Throw (InternalError "failed to fetch last leaf for index scan")
    else p ← node_page n b; Ok (mkPosition (last_leaf_ header) (get_size (data_ p))))).

Definition leaf_begin : IndexPosition := mkPosition (first_leaf_ header) 0.

(** ** Maintaining the tree *)

(** The inner scope of [update_ancestor_keys]: the parent gets the first key of the
    child; the next page to look at, or [None] to stop. *)
Definition ancestor_parent (current : Page) (parent : IndexNode) (b : pool) : result (option Z) * IndexNode * pool :=
  if negb (valid parent) then (Ok None, parent, b)
  else
    match (p ← node_page parent b;
           rank ← find_child header (data_ p) (pid_page_no (id_ current));
           old ← get_key header (data_ p) rank;
           key ← get_key header (data_ current) 0;
           Ok (rank, old, key, pid_page_no (id_ p))) with
    | Ok (rank, old, key, parent_page_no) =>
      if memcmp old key =? 0 then (Ok None, parent, b)
      else
        let '(r, parent, b) := node_update (λ d, set_key header d rank key) parent b in
        (_ ← r; Ok (Some parent_page_no), parent, b)
    | Throw e => (Throw e, parent, b)
    | Crash => (Crash, parent, b)
    end.

(** One turn of the loop. *)
Definition ancestor_turn (current_page : Z) : M pool (option Z) :=
  scoped (fetch_node current_page) (λ current b,
    if negb (valid current) then (Ok None, current, b)
    else match node_page current b with
         | Ok p =>
           if get_parent_page_no (data_ p) =? INDEX_NO_PAGE then (Ok None, current, b)
           else let '(r, b) := scoped (fetch_node (get_parent_page_no (data_ p))) (ancestor_parent p) b in (r, current, b)
         | Throw e => (Throw e, current, b)
         | Crash => (Crash, current, b)
         end).

(** [while (true)]: [fuel] bounds the number of turns. *)
Fixpoint ancestor_loop (fuel : nat) (current_page : Z) : M pool unit :=
  match fuel with
  | O => λ b, (Crash, b)
  | S fuel => next ← ancestor_turn current_page;
              match next with None => mret tt | Some page_no => ancestor_loop fuel page_no end
  end.

Definition update_ancestor_keys (fuel : nat) (node : IndexNode) : M pool unit :=
  page_no ← (λ b, (get_page_no node b, b)) : M pool Z; ancestor_loop fuel page_no.

(** The two scopes of [unlink_leaf]; the second takes the first one back when the next
    leaf cannot be had. *)
Definition link_prev (prev_page next_page : Z) : M pool unit :=
  scoped (fetch_node prev_page) (λ prev b,
    if negb (valid prev) then (Throw (InternalError "unlink_leaf failed to fetch previous leaf"), prev, b)
    else node_update (λ d, Ok (set_next_leaf d next_page)) prev b).

Definition unlink_rollback (leaf_page prev_page : Z) : M pool unit :=
  scoped (fetch_node prev_page) (λ prev b,
    if valid prev then node_update (λ d, Ok (set_next_leaf d leaf_page)) prev b else (Ok tt, prev, b)).

Definition link_next (leaf_page prev_page next_page : Z) : M pool unit :=
  scoped (fetch_node next_page) (λ next b,
    if negb (valid next) then
      let '(r, b) := unlink_rollback leaf_page prev_page b in
      (_ ← r; Throw (InternalError "unlink_leaf failed to fetch next leaf; previous link rolled back"), next, b)
    else node_update (λ d, Ok (set_prev_leaf d prev_page)) next b).

Definition unlink_leaf (leaf : IndexNode) : M pool unit := λ b,
  let failed := Throw (InternalError "unlink_leaf requires a valid leaf node") in
  if negb (valid leaf) then (failed, b)
  else match node_page leaf b with
       | Ok p =>
         if negb (is_leaf_page (data_ p)) then (failed, b)
         else (_ ← link_prev (get_prev_leaf (data_ p)) (get_next_leaf (data_ p));
               link_next (pid_page_no (id_ p)) (get_prev_leaf (data_ p)) (get_next_leaf (data_ p))) b
       | Throw e => (Throw e, b)
       | Crash => (Crash, b)
       end.

Definition record_page_deletion : BPlusTree :=
  mkTree (tree_fd t)
    (mkHeader (first_free_page_ header) (page_count_ header - 1) (root_page_ header) (column_count_ header)
       (column_types_ header) (column_lengths_ header) (key_length_ header) (tree_order_ header)
       (keys_region_size_ header) (first_leaf_ header) (last_leaf_ header) (unique_ header) (serialized_size_ header)).

Definition update_child_parent (node : IndexNode) (child_idx : Z) : M pool unit := λ b,
  if negb (valid node) then (Ok tt, b)
  else match node_page node b with
       | Ok p =>
         if is_leaf_page (data_ p) then (Ok tt, b)
         else (child_page ← lift (value_at header (data_ p) child_idx);
               scoped (fetch_node child_page) (λ child b,
                 if negb (valid child) then (Ok tt, child, b)
                 else node_update (λ d, Ok (set_parent_page_no d (pid_page_no (id_ p)))) child b)) b
       | Throw e => (Throw e, b)
       | Crash => (Crash, b)
       end.

(** ** [IndexScan] *)

Record IndexScan := mkIndexScan { position_ : IndexPosition; end_ : IndexPosition }.

Definition is_end (s : IndexScan) : bool := IndexPosition_eqb (position_ s) (end_ s).

(** The assertions are the failing cases. *)
Definition scan_next (s : IndexScan) : M pool IndexScan :=
  let '(mkPosition page slot) := position_ s in
  if is_end s then λ b, (Crash, b)
  else scoped (fetch_node page) (reading (λ n b,
    p ← node_page n b;
    _ ← assert_ (valid n && is_leaf_page (data_ p));
    _ ← assert_ (slot <? get_size (data_ p));
    Ok (mkIndexScan
          (if negb (page =? last_leaf_ header) && (slot + 1 =? get_size (data_ p))
           then mkPosition (get_next_leaf (data_ p)) 0 else mkPosition page (slot + 1)) (end_ s)))).

Definition scan_rid (s : IndexScan) : M pool Rid := tree_get_rid (position_ s).
End Tree.
