(* ===== verification/BPlusTreeFacts.v ===== *)
(** * The leaf list and the scan of the B+ tree

    [index_scan_complete]: a scan from [leaf_begin] to [leaf_end] visits every entry once
    and ends.  [unlink_leaf_correct]: unlinking takes a leaf out of the ring; what it
    leaves when it throws.  [ancestor_keys_correct]: relabelling the ancestors ends and
    makes every separator on the way to the root the first key of its child. *)

From S2P Require Import Prelude Errors Common Record IndexFile IndexFacts Disk System Execution BufferPool BufferPoolFacts BPlusTree.

(** ** Bytes of a page *)

Section Ints.
Implicit Types d : bytes.

Lemma zlen_set_int d off z : 0 ≤ off → off + 4 ≤ zlen d → zlen (set_int_at d off z) = zlen d.
Proof.
  intros H1 H2. unfold set_int_at. rewrite !zlen_app, int_bytes_length, zlen_ztake, zlen_zdrop by lia. lia.
Qed.

Lemma zdrop_app_ge {A} n (l k : list A) : zlen l ≤ n → zdrop n (l ++ k) = zdrop (n - zlen l) k.
Proof. intros Hn. unfold zdrop, zlen in *. rewrite drop_app_ge by lia. f_equal. lia. Qed.

Lemma zdrop_app_le {A} n (l k : list A) : 0 ≤ n ≤ zlen l → zdrop n (l ++ k) = zdrop n l ++ k.
Proof. intros Hn. unfold zdrop, zlen in *. by rewrite drop_app_le by lia. Qed.

Lemma ztake_app_le {A} n (l k : list A) : n ≤ zlen l → ztake n (l ++ k) = ztake n l.
Proof. intros Hn. unfold ztake, zlen in *. by rewrite take_app_le by lia. Qed.

Lemma zdrop_ztake {A} n m (l : list A) : 0 ≤ n → 0 ≤ m → ztake m (zdrop n (ztake (n + m) l)) = ztake m (zdrop n l).
Proof.
  intros Hn Hm. unfold ztake, zdrop. rewrite skipn_firstn_comm, take_take. f_equal. lia.
Qed.

(** A stretch of bytes outside a change. *)
Definition spliced (off : Z) (bs d : bytes) : bytes := ztake off d ++ bs ++ zdrop (off + zlen bs) d.

Lemma splice_before off bs d o n : 0 ≤ o → 0 ≤ n → o + n ≤ off → off + zlen bs ≤ zlen d →
  ztake n (zdrop o (spliced off bs d)) = ztake n (zdrop o d).
Proof.
  intros Ho Hn Hoff Hd. pose proof (zlen_nonneg bs). unfold spliced.
  rewrite zdrop_app_le by (rewrite zlen_ztake by lia; lia).
  rewrite ztake_app_le by (rewrite zlen_zdrop, zlen_ztake by (rewrite ?zlen_ztake by lia; lia); lia).
  unfold ztake, zdrop. rewrite skipn_firstn_comm, take_take. f_equal. lia.
Qed.

Lemma splice_after off bs d o n : 0 ≤ off → off + zlen bs ≤ o → off + zlen bs ≤ zlen d →
  ztake n (zdrop o (spliced off bs d)) = ztake n (zdrop o d).
Proof.
  intros Hoff Ho Hd. pose proof (zlen_nonneg bs). unfold spliced.
  rewrite zdrop_app_ge by (rewrite zlen_ztake by lia; lia). rewrite zlen_ztake by lia.
  rewrite zdrop_app_ge by lia. rewrite zdrop_zdrop by lia. do 2 f_equal. lia.
Qed.

Lemma splice_at off bs d : 0 ≤ off → off + zlen bs ≤ zlen d → ztake (zlen bs) (zdrop off (spliced off bs d)) = bs.
Proof.
  intros Hoff Hd. pose proof (zlen_nonneg bs). unfold spliced. rewrite zdrop_app_exact by (rewrite zlen_ztake by lia; lia).
  by apply ztake_app_exact.
Qed.

Lemma set_int_splice d off z : set_int_at d off z = spliced off (int_bytes z) d.
Proof. unfold set_int_at, spliced. by rewrite int_bytes_length. Qed.

Lemma int_at_set d off z : 0 ≤ off → off + 4 ≤ zlen d → is_s32 z → int_at (set_int_at d off z) off = z.
Proof.
  intros H1 H2 Hz. unfold int_at. rewrite set_int_splice. replace 4 with (zlen (int_bytes z)) at 1 by apply int_bytes_length.
  rewrite splice_at by (rewrite ?int_bytes_length; lia). unfold int_bytes.
  pose proof (read_int_bytes z [] Hz) as Hr. unfold read_int in Hr.
  rewrite app_nil_r, (proj2 (Z.ltb_ge _ _)) in Hr by (rewrite int_bytes_length; lia).
  rewrite (ztake_all 4 (int_bytes z)) in Hr by (rewrite int_bytes_length; lia). by injection Hr.
Qed.

Lemma int_at_set_ne d off off' z : 0 ≤ off → 0 ≤ off' → off + 4 ≤ zlen d → off' + 4 ≤ off ∨ off + 4 ≤ off' →
  int_at (set_int_at d off z) off' = int_at d off'.
Proof.
  intros H1 H2 Hd [Ho|Ho]; unfold int_at; rewrite set_int_splice; do 2 f_equal.
  - apply splice_before; rewrite ?int_bytes_length; lia.
  - apply splice_after; rewrite ?int_bytes_length; lia.
Qed.

Lemma int_at_range d off : is_s32 (int_at d off).
Proof. apply s32_range. Qed.

(** Writing back what is there. *)
Lemma set_int_same d off : 0 ≤ off → off + 4 ≤ zlen d → set_int_at d off (int_at d off) = d.
Proof.
  intros H1 H2. unfold set_int_at, int_at. set (bs := ztake 4 (zdrop off d)).
  assert (Hl : zlen bs = 4) by (unfold bs; rewrite zlen_ztake; [done|]; rewrite zlen_zdrop by lia; lia).
  assert (Hr : read_int bs = Ok (s32 (le_combine bs), [])).
  { unfold read_int. rewrite Hl. change (4 <? 4) with false. by rewrite ztake_all, zdrop_all by lia. }
  apply read_int_sound in Hr as [Hbs _].
  rewrite app_nil_r in Hbs. rewrite <- Hbs. unfold bs. rewrite <- zdrop_zdrop by lia. by rewrite !ztake_zdrop.
Qed.

Lemma set_int_twice d off y z : 0 ≤ off → off + 4 ≤ zlen d → set_int_at (set_int_at d off y) off z = set_int_at d off z.
Proof.
  intros H1 H2. unfold set_int_at at 1 3. f_equal; [|f_equal].
  - unfold set_int_at. apply ztake_app_exact. rewrite zlen_ztake; lia.
  - unfold set_int_at. rewrite app_assoc. apply zdrop_app_exact. rewrite zlen_app, int_bytes_length, zlen_ztake; lia.
Qed.
End Ints.

Section Tree.
Context {D : Type} `{PoolLaws D} (t : BPlusTree).
Notation pool := (BufferPoolManager D).
Notation stored := (stored disk_page).
Implicit Types b : pool.

Definition contents b (n : Z) : option bytes := stored b (node_id t n).

(** The handle of a page in frame [f]. *)
Definition handle (q : PageId) (f : nat) : IndexNode := mkNode (mkGuard true (Some f) q false) (Some f).

Lemma destroy_null b : IndexNode_destroy IndexNode_default b = b.
Proof. done. Qed.

Lemma fetch_node_law n b r b1 : good b → fetch_node t n b = (r, b1) →
  match r with
  | Ok nd => nd = IndexNode_default ∧ b1 = b ∧ resident b (node_id t n) = None ∨
      ∃ f p, nd = handle (node_id t n) f ∧ opened (node_id t n) f b b1 ∧ pages_ b1 !! f = Some p ∧ id_ p = node_id t n ∧
        contents b n = Some (data_ p) ∧ zlen (data_ p) = PAGE_SIZE
  | Throw e => frames_ok b1 ∧ pool_inv b1 ∧ same_pins b b1 ∧ resident b (node_id t n) = None ∧
      fetch_page (node_id t n) b = (Throw e, b1)
  | Crash => False
  end.
Proof.
  intros Hgood. unfold fetch_node, mbind, M_bind.
  destruct (fetch_page_guard (node_id t n) b) as [[g|e|] b2] eqn:E;
    pose proof (fetch_guard_law _ _ _ _ (good_frames _ Hgood) (good_inv _ Hgood) E) as (Hok & Hi & _ & Hl); [| |done].
  - intros [= <- <-]. destruct Hl as [(-> & -> & Hr)|(f & -> & _ & _ & _ & _ & Ho)]; [by left|]. right.
    specialize (Ho (good_guarded _ Hgood)). destruct (fo_table _ Hok _ _ (op_table _ _ _ _ Ho)) as (p & Hp & Hid).
    exists f, p. split_and!; [done..| |by apply (fo_page _ Hok) in Hp as []].
    unfold contents. rewrite <- (op_stored _ _ _ _ Ho). unfold BufferPool.stored, resident.
    rewrite (op_table _ _ _ _ Ho). cbn. by rewrite Hp.
  - intros [= <- <-]. destruct Hl as (Hr & Hs & _). split_and!; try done. unfold fetch_page_guard, mbind, M_bind in E.
    destruct (fetch_page (node_id t n) b) as [[[f|]|e'|] b3] eqn:E'; cbn in E; try done; [|by simplify_eq].
    unfold mbind, M_bind, page_of_frame in E. by destruct (pages_ b3 !! f).
Qed.

Lemma node_page_handle q f b p : pages_ b !! f = Some p → node_page (handle q f) b = Ok p.
Proof. intros Hp. unfold node_page, handle. cbn. by rewrite Hp. Qed.

(** A scope that changes one page. *)
Lemma scoped_update n F null b r b' : good b → (∀ d, zlen d = PAGE_SIZE → zlen (F d) = PAGE_SIZE) →
  scoped (fetch_node t n) (λ nd b, if negb (valid nd) then null nd b else node_update (λ d, Ok (F d)) nd b) b = (r, b') →
  (∃ d, r = Ok tt ∧ contents b n = Some d ∧ zlen d = PAGE_SIZE ∧ visited (node_id t n) (Some (F d)) b b') ∨
  (resident b (node_id t n) = None ∧
     let '(r1, n1, b1) := null IndexNode_default b in (r, b') = (r1, IndexNode_destroy n1 b1)) ∨
  (∃ e, r = Throw e ∧ resident b (node_id t n) = None ∧ same_pins b b' ∧ fetch_page (node_id t n) b = (Throw e, b')).
Proof.
  intros Hgood HF. unfold scoped. destruct (fetch_node t n b) as [[nd|e|] b1] eqn:E;
    pose proof (fetch_node_law n b _ b1 Hgood E) as Hl; [| |done].
  - destruct Hl as [(-> & -> & Hr)|(f & p & -> & Ho & Hp & Hid & Hc & Hlen)].
    + cbn [valid IndexNode_default guard_ negb]. destruct (null IndexNode_default b) as [[r1 n1] b1].
      intros [= <- <-]. by right; left.
    + cbn. unfold node_update, handle. cbn. rewrite Hp. cbn. intros [= <- <-]. left. exists (data_ p).
      split_and!; [done..|]. apply visit_write; auto.
  - intros [= <- <-]. destruct Hl as (_ & _ & Hs & Hr & Hf). right; right. eauto 6.
Qed.

Lemma contents_visited n v b b' m : visited (node_id t n) v b b' → contents b' m = if decide (m = n) then v else contents b m.
Proof.
  intros Hv. unfold contents. rewrite (vi_stored _ _ _ _ Hv). destruct (decide (m = n)) as [->|Hne].
  - by rewrite !decide_True.
  - rewrite decide_False; [done|]. by intros [= ->].
Qed.

(** ** The ring of leaves *)

Definition linked b (x y : Z) : Prop :=
  ∃ dx dy, contents b x = Some dx ∧ contents b y = Some dy ∧ get_next_leaf dx = y ∧ get_prev_leaf dy = x.

(** The pages of [l] are linked to each other in this order, the last one to the first. *)
Definition ring b (l : list Z) : Prop :=
  NoDup l ∧ ∀ i x y, l !! i = Some x → (l ++ take 1 l) !! S i = Some y → linked b x y.

(** The caller's node is the page [n]. *)
Definition holds b (nd : IndexNode) (n : Z) : Prop :=
  ∃ f p, valid nd = true ∧ view_ nd = Some f ∧ pages_ b !! f = Some p ∧ page_table_ b !! node_id t n = Some f.

Lemma holds_page b nd n : good b → holds b nd n → ∃ p, node_page nd b = Ok p ∧ id_ p = node_id t n ∧ contents b n = Some (data_ p).
Proof.
  intros Hgood (f & p & _ & Hv & Hp & Ht). exists p. unfold node_page, contents, BufferPool.stored, resident.
  rewrite Hv, Ht. cbn. rewrite Hp. split_and!; [done| |done].
  destruct (fo_table _ (good_frames _ Hgood) _ _ Ht) as (p' & ? & ?). congruence.
Qed.

(** What the two setters do to the links. *)
Lemma set_next_links d z : zlen d = PAGE_SIZE → is_s32 z →
  zlen (set_next_leaf d z) = PAGE_SIZE ∧ get_next_leaf (set_next_leaf d z) = z ∧ get_prev_leaf (set_next_leaf d z) = get_prev_leaf d.
Proof.
  intros Hd Hz. unfold set_next_leaf, get_next_leaf, get_prev_leaf.
  assert (20 + 4 ≤ zlen d) by (rewrite Hd; by vm_compute).
  rewrite zlen_set_int, int_at_set, int_at_set_ne by (done || lia). done.
Qed.

Lemma set_prev_links d z : zlen d = PAGE_SIZE → is_s32 z →
  zlen (set_prev_leaf d z) = PAGE_SIZE ∧ get_prev_leaf (set_prev_leaf d z) = z ∧ get_next_leaf (set_prev_leaf d z) = get_next_leaf d.
Proof.
  intros Hd Hz. unfold set_prev_leaf, get_next_leaf, get_prev_leaf.
  assert (20 + 4 ≤ zlen d) by (rewrite Hd; by vm_compute).
  rewrite zlen_set_int, int_at_set, int_at_set_ne by (done || lia). done.
Qed.

(** The exceptions of [unlink_leaf] itself, when a neighbour cannot be had. *)
Definition unlink_error (e : RMDBError) : Prop :=
  e = InternalError "unlink_leaf failed to fetch previous leaf" ∨
  e = InternalError "unlink_leaf failed to fetch next leaf; previous link rolled back".

(** The whole of [unlink_leaf] on a leaf with data [dl]. *)
Lemma unlink_leaf_cases leaf x b dl r b' : good b → holds b leaf x → contents b x = Some dl → is_leaf_page dl = true →
  unlink_leaf t leaf b = (r, b') →
  let p := get_prev_leaf dl in let n := get_next_leaf dl in
  same_pins b b' ∧
  match r with
  | Ok _ => ∃ dp, contents b p = Some dp ∧ zlen dp = PAGE_SIZE ∧ good b' ∧
      ∃ dn, (if decide (n = p) then Some (set_next_leaf dp n) else contents b n) = Some dn ∧ zlen dn = PAGE_SIZE ∧
      (∀ m, contents b' m = if decide (m = n) then Some (set_prev_leaf dn p)
                            else if decide (m = p) then Some (set_next_leaf dp n) else contents b m)
  | Throw e =>
      (good b' ∧ unlink_error e ∧ ((∀ m, contents b' m = contents b m) ∨
         ∃ dp, contents b p = Some dp ∧ zlen dp = PAGE_SIZE ∧
           ∀ m, contents b' m = if decide (m = p) then Some (set_next_leaf (set_next_leaf dp n) x) else contents b m)) ∨
      fetch_page (node_id t p) b = (Throw e, b') ∨
      (∃ dp b1, contents b p = Some dp ∧ good b1 ∧ fetch_page (node_id t n) b1 = (Throw e, b') ∧
         ∀ m, contents b1 m = if decide (m = p) then Some (set_next_leaf dp n) else contents b m)
  | Crash => False
  end.
Proof.
  intros Hgood Hh Hdl Hleaf. destruct (holds_page _ _ _ Hgood Hh) as (pg & Hpg & Hid & Hc). simplify_eq.
  destruct Hh as (f & p0 & Hv & _). unfold unlink_leaf. rewrite Hv, Hpg, Hleaf. cbn [negb].
  set (p := get_prev_leaf (data_ pg)). set (n := get_next_leaf (data_ pg)). rewrite Hid. cbn [pid_page_no node_id].
  assert (Hsp : is_s32 p) by apply int_at_range. assert (Hsn : is_s32 n) by apply int_at_range.
  unfold mbind, M_bind. destruct (link_prev t p n b) as [r1 b1] eqn:E1. unfold link_prev in E1.
  apply scoped_update in E1 as [(dp & -> & Hdp & Hlp & Hv1)|[[Hr0 E1]|(e & -> & _ & Hs & Hf)]];
    [| | |done|intros d Hd; by apply set_next_links].
  2:{ cbn in E1. injection E1 as -> ->. intros [= <- <-]. split; [done|]. left. split; [done|]. split; by left. }
  2:{ intros [= <- <-]. split; [done|]. by right; left. }
  pose proof (vi_good _ _ _ _ Hv1) as Hgood1.
  assert (Hc1 : ∀ m, contents b1 m = if decide (m = p) then Some (set_next_leaf dp n) else contents b m).
  { intros m. by apply contents_visited. }
  intros E2. unfold link_next in E2.
  apply scoped_update in E2 as [(dn & -> & Hdn & Hln & Hv2)|[[Hr0 E2]|(e & -> & _ & Hs & Hf)]];
    [| | |done|intros d Hd; by apply set_prev_links].
  - split; [intros q; by rewrite (vi_pins _ _ _ _ Hv2), (vi_pins _ _ _ _ Hv1)|]. exists dp.
    split_and!; [done|done|apply (vi_good _ _ _ _ Hv2)|]. exists dn. split; [by rewrite <- Hc1|]. split; [done|].
    intros m. by rewrite (contents_visited _ _ _ _ m Hv2), Hc1.
  - destruct (unlink_rollback t x p b1) as [r2 b2] eqn:E3. cbn in E2. injection E2 as -> ->.
    unfold unlink_rollback in E3.
    assert (E3' : scoped (fetch_node t p) (λ nd b, if negb (valid nd) then (Ok tt, nd, b)
      else node_update (λ d, Ok (set_next_leaf d x)) nd b) b1 = (r2, b2)).
    { rewrite <- E3. unfold scoped. destruct (fetch_node t p b1) as [[nd|e|] b3]; [|done..]. by destruct (valid nd). }
    destruct (vi_resident _ _ _ _ Hv1) as [fp Hfp].
    assert (Hres : resident b1 (node_id t p) ≠ None).
    { unfold resident. rewrite Hfp. cbn. by destruct (fo_table _ (good_frames _ Hgood1) _ _ Hfp) as (? & -> & _). }
    apply scoped_update in E3' as [(dp' & -> & Hdp' & _ & Hv3)|[[? _]|(e & _ & ? & _)]];
      [|done..|intros d Hd; unfold set_next_leaf; rewrite zlen_set_int; [done|done|rewrite Hd; by vm_compute]].
    rewrite Hc1, decide_True in Hdp' by done. injection Hdp' as <-.
    split; [intros q; by rewrite (vi_pins _ _ _ _ Hv3), (vi_pins _ _ _ _ Hv1)|]. cbn. left.
    split; [apply (vi_good _ _ _ _ Hv3)|]. split; [by right|]. right. exists dp. split_and!; [done..|].
    intros m. rewrite (contents_visited _ _ _ _ m Hv3), Hc1. by repeat case_decide.
  - split; [intros q; by rewrite Hs, (vi_pins _ _ _ _ Hv1)|]. right; right. by exists dp, b1.
Qed.

(** The neighbours of the first page of a ring. *)
Lemma ring_neighbours b x rest dl : ring b (x :: rest) → rest ≠ [] → contents b x = Some dl →
  ∃ first last dp, rest !! 0%nat = Some first ∧ rest !! pred (length rest) = Some last ∧
    get_next_leaf dl = first ∧ get_prev_leaf dl = last ∧ contents b last = Some dp ∧ get_next_leaf dp = x ∧
    is_Some (contents b first).
Proof.
  intros [Hnd Hl] Hne Hx. destruct rest as [|first rest]; [done|].
  destruct (lookup_lt_is_Some_2 (first :: rest) (pred (length (first :: rest)))) as [last Hlast]; [cbn; lia|].
  destruct (Hl 0%nat x first) as (dx & dy & H1 & H2 & H3 & H4); [done..|].
  rewrite Hx in H1. injection H1 as <-.
  destruct (Hl (length (first :: rest)) last x) as (dp & dx' & H5 & H6 & H7 & H8).
  - cbn in *. by destruct rest.
  - rewrite lookup_app_r by (cbn; lia). change (length (x :: first :: rest)) with (S (length (first :: rest))).
    by rewrite Nat.sub_diag.
  - rewrite Hx in H6. injection H6 as <-. exists first, last, dp. split_and!; eauto.
Qed.

(** A change to the links keeps the rest of the page. *)
Definition same_node (d d' : bytes) : Prop := ztake 16 d' = ztake 16 d ∧ zdrop 24 d' = zdrop 24 d.

Lemma same_node_set d off z : off = 16 ∨ off = 20 → zlen d = PAGE_SIZE → same_node d (set_int_at d off z).
Proof.
  intros Ho Hd. assert (24 ≤ zlen d) by (rewrite Hd; by vm_compute). rewrite set_int_splice. split.
  - change (spliced off (int_bytes z) d) with (zdrop 0 (spliced off (int_bytes z) d)).
    rewrite splice_before by (rewrite ?int_bytes_length; lia). by rewrite zdrop_0.
  - assert (Hlen : zlen (spliced off (int_bytes z) d) = zlen d) by (rewrite <- set_int_splice; apply zlen_set_int; lia).
    rewrite <- (ztake_all (zlen d - 24) (zdrop 24 (spliced _ _ _))) by (rewrite zlen_zdrop; lia).
    rewrite splice_after by (rewrite ?int_bytes_length; lia). apply ztake_all. rewrite zlen_zdrop; lia.
Qed.

(** The rest of a ring after its first page was taken out. *)
Lemma ring_unlinked b b' x rest p n : ring b (x :: rest) → rest ≠ [] →
  rest !! 0%nat = Some n → rest !! pred (length rest) = Some p →
  (∀ m d, contents b m = Some d → m ∈ rest → ∃ d', contents b' m = Some d' ∧
     get_next_leaf d' = (if decide (m = p) then n else get_next_leaf d) ∧
     get_prev_leaf d' = (if decide (m = n) then p else get_prev_leaf d)) → ring b' rest.
Proof.
  intros [Hnd Hl] Hne Hn Hp Hc. apply NoDup_cons in Hnd as [Hx Hnd]. split; [done|]. intros i u v Hu Hv.
  assert (Hfrom : ∀ m, m ∈ rest → is_Some (contents b m)).
  { intros m [j Hj]%list_elem_of_lookup. destruct (lookup_lt_is_Some_2 ((x :: rest) ++ take 1 (x :: rest)) (S (S j))) as [w Hw].
    { apply lookup_lt_Some in Hj. rewrite length_app. cbn. lia. }
    destruct (Hl (S j) m w) as (dm & _ & -> & _); [done..|]. by eexists. }
  destruct (Hfrom u) as [du Hdu]; [by eapply list_elem_of_lookup_2|].
  destruct (Hc u du Hdu) as (du' & Hdu' & Hun & _); [by eapply list_elem_of_lookup_2|].
  pose proof (lookup_lt_Some _ _ _ Hu) as Hi. destruct (decide (S i = length rest)) as [Hlast|Hmid].
  - rewrite lookup_app_r in Hv by lia. rewrite Hlast, Nat.sub_diag in Hv.
    assert (v = n) as -> by (destruct rest; naive_solver). assert (u = p) as -> by (replace (pred (length rest)) with i in Hp by lia; congruence).
    destruct (Hfrom n) as [dn Hdn]; [by eapply list_elem_of_lookup_2|].
    destruct (Hc n dn Hdn) as (dn' & Hdn' & _ & Hnp); [by eapply list_elem_of_lookup_2|].
    exists du', dn'. rewrite decide_True in Hun by done. by rewrite decide_True in Hnp by done.
  - rewrite lookup_app_l in Hv by lia.
    destruct (Hl (S i) u v) as (d1 & d2 & H1 & H2 & H3 & H4); [done|rewrite lookup_app_l by (cbn; lia); done|].
    rewrite Hdu in H1. injection H1 as <-. destruct (Hc v d2 H2) as (d2' & Hd2' & _ & Hvp); [by eapply list_elem_of_lookup_2|].
    exists du', d2'. rewrite H3 in Hun. rewrite H4 in Hvp. rewrite decide_False in Hun.
    2:{ intros Heq. assert (i = pred (length rest)); [|lia]. subst p. by eapply (NoDup_lookup rest _ _ _ Hnd). }
    rewrite decide_False in Hvp; [done|].
    intros Heq. assert (S i = 0)%nat; [|done]. rewrite Heq in Hv. by eapply (NoDup_lookup rest _ _ _ Hnd).
Qed.

(** C23. [unlink_leaf] of a leaf in the ring of leaves (the header page of the leaf list
    included): when it returns, the other pages form the ring without it, and nothing but
    link fields of its neighbours has changed, also when both neighbours are the same page.
    When it throws an exception of its own, because the pool has no page for a neighbour,
    every page is as it was.  An exception of the pool is passed on: from the fetch of the
    previous page before anything was changed, or from the fetch of the next one, where the
    rollback is passed by and exactly the link of the previous page already points past the
    leaf (b_plus_tree.cpp:582).  The pins are the same afterwards in every case. *)
Theorem unlink_leaf_correct leaf x rest b dl r b' :
  good b → holds b leaf x → contents b x = Some dl → is_leaf_page dl = true → ring b (x :: rest) → rest ≠ [] →
  unlink_leaf t leaf b = (r, b') →
  same_pins b b' ∧
  match r with
  | Ok _ => ring b' rest ∧ (∀ m, m ∉ rest → contents b' m = contents b m) ∧
      ∀ m d, contents b m = Some d → m ∈ rest → ∃ d', contents b' m = Some d' ∧ same_node d d'
  | Throw e => (unlink_error e ∧ ∀ m, contents b' m = contents b m) ∨
      fetch_page (node_id t (get_prev_leaf dl)) b = (Throw e, b') ∨
      ∃ dp b1, contents b (get_prev_leaf dl) = Some dp ∧ fetch_page (node_id t (get_next_leaf dl)) b1 = (Throw e, b') ∧
        ∀ m, contents b1 m = if decide (m = get_prev_leaf dl) then Some (set_next_leaf dp (get_next_leaf dl)) else contents b m
  | Crash => False
  end.
Proof.
  intros Hgood Hh Hdl Hleaf Hring Hne Hrun.
  destruct (unlink_leaf_cases _ _ _ _ _ _ Hgood Hh Hdl Hleaf Hrun) as [Hp Hr]. split; [done|].
  destruct (ring_neighbours _ _ _ _ Hring Hne Hdl) as (n & p & dp & Hn & Hl & Hdn & Hdp & Hcp & Hback & Hcn).
  rewrite Hdn, Hdp in Hr. assert (Hsn : is_s32 n) by (subst n; apply int_at_range).
  assert (Hsp : is_s32 p) by (subst p; apply int_at_range).
  destruct r as [u|e|]; [| |done].
  - destruct Hr as (dp' & Hcp' & Hlp & _ & dn & Hcn' & Hln & Hc'). rewrite Hcp in Hcp'. injection Hcp' as <-.
    destruct (set_next_links dp n Hlp Hsn) as (Hl1 & Hn1 & Hp1). destruct (set_prev_links dn p Hln Hsp) as (Hl2 & Hp2 & Hn2).
    assert (Hchange : ∀ m d, contents b m = Some d → m ∈ rest → ∃ d', contents b' m = Some d' ∧ same_node d d' ∧
      get_next_leaf d' = (if decide (m = p) then n else get_next_leaf d) ∧
      get_prev_leaf d' = (if decide (m = n) then p else get_prev_leaf d)).
    { intros m d Hd _. rewrite Hc'. destruct (decide (m = n)) as [->|Hmn].
      - exists (set_prev_leaf dn p). split; [done|]. rewrite Hp2, Hn2. destruct (decide (n = p)) as [->|Hnp].
        + injection Hcn' as <-. assert (d = dp) as -> by congruence. split; [|done].
          assert (same_node dp (set_next_leaf dp p)) as [? ?] by (apply same_node_set; auto).
          assert (same_node (set_next_leaf dp p) (set_prev_leaf (set_next_leaf dp p) p)) as [? ?] by (apply same_node_set; auto).
          split; congruence.
        + assert (d = dn) as -> by congruence. split; [|done]. apply same_node_set; auto.
      - destruct (decide (m = p)) as [->|Hmp].
        + exists (set_next_leaf dp n). assert (d = dp) as -> by congruence. split_and!; [done| |done|done].
          apply same_node_set; auto.
        + exists d. by split_and!. }
    split_and!.
    + eapply (ring_unlinked b b' x rest p n); [done..|]. intros m d Hd Hm.
      destruct (Hchange m d Hd Hm) as (d' & ? & _ & ? & ?). by exists d'.
    + intros m Hm. rewrite Hc', !decide_False; [done|..]; intros ->; apply Hm; by eapply list_elem_of_lookup_2.
    + intros m d Hd Hm. destruct (Hchange m d Hd Hm) as (d' & ? & ? & _). by exists d'.
  - rewrite Hdn, Hdp. destruct Hr as [(_ & He & Hr)|[Hf|(dp' & b1 & Hcp' & _ & Hf & Hb1)]];
      [left; split; [done|]|by right; left|right; right; by exists dp', b1].
    destruct Hr as [Hr|(dp' & Hcp' & Hlp & Hr)]; [done|].
    rewrite Hcp in Hcp'. injection Hcp' as <-. intros m. rewrite Hr. case_decide; [subst m|done]. rewrite Hcp. f_equal.
    unfold set_next_leaf. assert (24 ≤ zlen dp) by (rewrite Hlp; by vm_compute). rewrite set_int_twice by lia.
    rewrite <- Hback. apply set_int_same; lia.
Qed.
End Tree.

(** ** Scanning *)

Section Scan.
Context {D : Type} `{LivePool D} (t : BPlusTree).
Notation pool := (BufferPoolManager D).
Notation stored := (stored disk_page).
Notation header := (tree_header t).
Implicit Types b : pool.

(** There is a frame that nobody has pinned. *)
Definition room (k : nat) b : Prop := (size (get_pin_snapshot b) + k < pool_size_ b)%nat.

Record steady b b' : Prop := {
  st_good : good b'; st_pins : same_pins b b'; st_size : pool_size_ b' = pool_size_ b;
  st_stored q : stored b' q = stored b q }.

Lemma steady_trans b1 b2 b3 : steady b1 b2 → steady b2 b3 → steady b1 b3.
Proof.
  intros H1 H2. split; [apply H2| |rewrite (st_size _ _ H2); apply H1|intros q; rewrite (st_stored _ _ H2); apply H1].
  intros q. rewrite (st_pins _ _ H2). apply H1.
Qed.

Lemma steady_refl b : good b → steady b b.
Proof. intros Hg. by split. Qed.

Lemma steady_room k b b' : good b → steady b b' → room k b → room k b'.
Proof.
  intros Hg Hs. unfold room. rewrite (st_size _ _ Hs), (pin_snapshot_pins b b'); [done|apply Hg|apply Hs..].
Qed.

Lemma visited_steady q b b' : visited q (stored b q) b b' → steady b b'.
Proof.
  intros Hv. split; [apply Hv|apply Hv|by apply Hv|]. intros q'. rewrite (vi_stored _ _ _ _ Hv). by case_decide; subst.
Qed.

(** With room, a page that exists is found. *)
Lemma fetch_node_works n b d : good b → room 0 b → contents t b n = Some d →
  ∃ f p b1, fetch_node t n b = (Ok (handle (node_id t n) f), b1) ∧ opened (node_id t n) f b b1 ∧
    pages_ b1 !! f = Some p ∧ id_ p = node_id t n ∧ data_ p = d ∧ zlen d = PAGE_SIZE.
Proof.
  intros Hg Hroom Hc. destruct (fetch_works (node_id t n) b) as (f & b1 & Hf).
  - apply Hg.
  - apply Hg.
  - by exists d.
  - unfold room in Hroom. lia.
  - destruct (fetch_node t n b) as [[nd|e|] b2] eqn:E; pose proof (fetch_node_law t n b _ b2 Hg E) as Hl; [| |done].
    + destruct Hl as [(-> & -> & Hr)|(f' & p & -> & Ho & Hp & Hid & Hd & Hlen)].
      * exfalso. pose proof (fetch_law _ _ _ _ (good_frames _ Hg) (good_inv _ Hg) Hf) as (Hok & _ & _ & Ht & _).
        unfold fetch_node, fetch_page_guard, mbind, M_bind in E. rewrite Hf in E. cbn in E.
        unfold mbind, M_bind, page_of_frame in E. destruct (fo_table _ Hok _ _ Ht) as (p & Hp & _).
        rewrite Hp in E. cbn in E. by injection E.
      * exists f', p, b2. rewrite Hc in Hd. injection Hd as ->. by split_and!.
    + destruct Hl as (_ & _ & _ & _ & He). congruence.
Qed.

(** A scope that only reads one page. *)
Lemma scoped_read {A} n (f : IndexNode → pool → result A) d v b : good b → room 0 b → contents t b n = Some d →
  (∀ nd b1 p, valid nd = true → node_page nd b1 = Ok p → data_ p = d → id_ p = node_id t n → f nd b1 = v) →
  ∃ b', scoped (fetch_node t n) (reading f) b = (v, b') ∧ steady b b'.
Proof.
  intros Hg Hroom Hc Hf. destruct (fetch_node_works n b d Hg Hroom Hc) as (fr & p & b1 & He & Ho & Hp & Hid & Hd & _).
  eexists. unfold scoped. rewrite He. cbn. rewrite (Hf _ b1 p); [|done|by apply node_page_handle|done..].
  split; [done|]. eapply visited_steady. by apply visit_read.
Qed.

(** A leaf with its entries. *)
Definition leaf_at b (n : Z) (rids : list Rid) (next : option Z) : Prop :=
  ∃ d, contents t b n = Some d ∧ is_leaf_page d = true ∧ get_size d = zlen rids ∧
    (∀ i r, rids !! i = Some r → get_rid header d (Z.of_nat i) = Ok r) ∧
    (∀ m, next = Some m → get_next_leaf d = m).

(** The leaves of the tree from left to right: only a last leaf may be empty. *)
Fixpoint leaf_chain b (l : list (Z * list Rid)) : Prop :=
  match l with
  | [] => False
  | (n, rids) :: rest =>
    match rest with
    | [] => n = last_leaf_ header ∧ leaf_at b n rids None
    | (m, _) :: _ => n ≠ last_leaf_ header ∧ rids ≠ [] ∧ leaf_at b n rids (Some m) ∧ leaf_chain b rest
    end
  end.

Lemma leaf_at_steady b b' n rids next : steady b b' → leaf_at b n rids next → leaf_at b' n rids next.
Proof. intros Hs (d & Hd & ?). exists d. split; [|done]. unfold contents. by rewrite (st_stored _ _ Hs). Qed.

Lemma leaf_chain_steady b b' l : steady b b' → leaf_chain b l → leaf_chain b' l.
Proof.
  intros Hs. induction l as [|[n rids] rest IH]; [done|]. cbn [leaf_chain]. destruct rest as [|[m rids'] rest].
  - intros [? ?]. split; [done|]. by eapply leaf_at_steady.
  - intros (? & ? & ? & ?). split_and!; [done|done|by eapply leaf_at_steady|auto].
Qed.

(** [for (; !scan.is_end(); scan.next()) .. scan.rid() ..] *)
Fixpoint drain (fuel : nat) (s : IndexScan) : M pool (list Rid) :=
  match fuel with
  | O => λ b, (Crash, b)
  | S fuel =>
    if is_end s then mret []
    else r ← scan_rid t s; s ← scan_next t s; rs ← drain fuel s; mret (r :: rs)
  end.

Definition entries (l : list (Z * list Rid)) : list Rid := concat (snd <$> l).

(** Where the scan of the chain ends. *)
Definition chain_end (l : list (Z * list Rid)) : IndexPosition :=
  mkPosition (last_leaf_ header) (from_option (λ x, zlen x.2) 0 (last l)).

(** One entry: its record id, and the position after it. *)
Definition position_after (n : Z) (slot : nat) (rids : list Rid) (next : option Z) : IndexPosition :=
  match next with
  | Some m => if bool_decide (S slot = length rids) then mkPosition m 0 else mkPosition n (Z.of_nat (S slot))
  | None => mkPosition n (Z.of_nat (S slot))
  end.

Lemma scan_step n slot rids next e r b : good b → room 0 b → leaf_at b n rids next → rids !! slot = Some r →
  (next = None ↔ n = last_leaf_ header) → is_end (mkIndexScan (mkPosition n (Z.of_nat slot)) e) = false →
  ∃ b1 b2, scan_rid t (mkIndexScan (mkPosition n (Z.of_nat slot)) e) b = (Ok r, b1) ∧ steady b b1 ∧
    scan_next t (mkIndexScan (mkPosition n (Z.of_nat slot)) e) b1 =
      (Ok (mkIndexScan (position_after n slot rids next) e), b2) ∧ steady b b2.
Proof.
  intros Hg Hroom (d & Hd & Hleaf & Hsize & Hrids & Hnext) Hr Hlast Hend.
  pose proof (lookup_lt_Some _ _ _ Hr) as Hlt.
  assert (Hslot : Z.of_nat slot < get_size d) by (rewrite Hsize; unfold zlen; lia).
  edestruct (scoped_read n (λ nd b, if negb (valid nd) || (Z.of_nat slot <? 0) then Throw IndexEntryNotFoundError
    else p ← node_page nd b; _ ← throw_if (get_size (data_ p) <=? Z.of_nat slot) IndexEntryNotFoundError;
         get_rid header (data_ p) (Z.of_nat slot)) d (Ok r) b Hg Hroom Hd) as (b1 & Hb1 & Hs1).
  { intros nd b1 p Hv Hp Hdp _. rewrite Hv, (proj2 (Z.ltb_ge _ _)), Hp by lia. cbn. step_ok. rewrite Hdp.
    rewrite (proj2 (Z.leb_gt _ _)) by lia. cbn. by apply Hrids. }
  exists b1. pose proof (steady_room 0 _ _ Hg Hs1 Hroom) as Hroom1.
  assert (Hd1 : contents t b1 n = Some d) by (unfold contents; rewrite (st_stored _ _ Hs1); done).
  edestruct (scoped_read n (λ nd b, p ← node_page nd b; _ ← assert_ (valid nd && is_leaf_page (data_ p));
    _ ← assert_ (Z.of_nat slot <? get_size (data_ p));
    Ok (mkIndexScan (if negb (n =? last_leaf_ header) && (Z.of_nat slot + 1 =? get_size (data_ p))
           then mkPosition (get_next_leaf (data_ p)) 0 else mkPosition n (Z.of_nat slot + 1)) e)) d
    (Ok (mkIndexScan (position_after n slot rids next) e)) b1 (st_good _ _ Hs1) Hroom1 Hd1) as (b2 & Hb2 & Hs2).
  { intros nd b2 p Hv Hp Hdp _. rewrite Hp. step_ok. rewrite Hv, Hdp, Hleaf. cbn [andb]. rewrite (proj2 (Z.ltb_lt _ _)) by done.
    cbn. do 2 f_equal. unfold position_after. replace (Z.of_nat slot + 1) with (Z.of_nat (S slot)) by lia.
    destruct next as [m|].
    - rewrite (proj2 (Z.eqb_neq _ _)) by (intros Hn; by apply (proj2 Hlast) in Hn). cbn. rewrite (Hnext m) by done.
      rewrite Hsize. unfold zlen. case_bool_decide as Hb; [by rewrite Hb, Z.eqb_refl|].
      by rewrite (proj2 (Z.eqb_neq _ _)) by lia.
    - by rewrite (proj1 Hlast), Z.eqb_refl by done. }
  exists b2. split_and!; [exact Hb1|done| |by eapply steady_trans].
  unfold scan_next. cbn [position_ end_]. rewrite Hend. exact Hb2.
Qed.

(** From any position of the chain to its end. *)
Lemma drain_chain l n slot rids rest b fuel : l = (n, rids) :: rest → leaf_chain b l → good b → room 0 b →
  (slot < length rids)%nat ∨ slot = length rids ∧ rest = [] →
  (length (drop slot rids ++ entries rest) < fuel)%nat →
  ∃ b', drain fuel (mkIndexScan (mkPosition n (Z.of_nat slot)) (chain_end l)) b = (Ok (drop slot rids ++ entries rest), b') ∧ steady b b'.
Proof.
  revert n slot rids rest b l. induction fuel as [|fuel IH]; intros n slot rids rest b l -> Hc Hg Hroom Hslot Hfuel; [lia|].
  cbn [drain]. set (e := chain_end ((n, rids) :: rest)).
  assert (Hnext : ∃ next, leaf_at b n rids next ∧ (next = None ↔ n = last_leaf_ header) ∧
    (next = None ↔ rest = []) ∧ (∀ m, next = Some m → ∃ rids' rest', rest = (m, rids') :: rest' ∧ leaf_chain b rest)).
  { cbn [leaf_chain] in Hc. destruct rest as [|[m rids'] rest']; [exists None|exists (Some m)]; naive_solver. }
  destruct Hnext as (next & Hleaf & Hlast & Hrest & Hmore).
  destruct (is_end (mkIndexScan (mkPosition n (Z.of_nat slot)) e)) eqn:Eend.
  - unfold is_end, IndexPosition_eqb, e, chain_end in Eend. cbn [position_ end_ pos_page_no pos_slot_no] in Eend.
    apply andb_true_iff in Eend as [E1%Z.eqb_eq E2%Z.eqb_eq]. assert (rest = []) as -> by (by apply Hrest, Hlast).
    cbn in E2. unfold zlen in E2. assert (slot = length rids) as -> by lia.
    exists b. rewrite drop_all. split; [done|by apply steady_refl].
  - assert (Hlt : (slot < length rids)%nat).
    { destruct Hslot as [?|[-> ->]]; [done|]. exfalso. unfold is_end, IndexPosition_eqb, e, chain_end in Eend.
      cbn in Eend. rewrite (proj1 Hlast), Z.eqb_refl in Eend by (by apply Hrest). unfold zlen in Eend. by rewrite Z.eqb_refl in Eend. }
    destruct (lookup_lt_is_Some_2 rids slot Hlt) as [r Hr].
    destruct (scan_step n slot rids next e r b Hg Hroom Hleaf Hr Hlast Eend) as (b1 & b2 & H1 & _ & H2 & Hs2).
    unfold mbind, M_bind. rewrite H1, H2. rewrite (drop_S _ _ _ Hr) in Hfuel |- *. cbn [app length] in Hfuel |- *.
    pose proof (leaf_chain_steady _ _ _ Hs2 Hc) as Hc2. pose proof (steady_room 0 _ _ Hg Hs2 Hroom) as Hroom2.
    assert (Hgo : ∃ b', drain fuel (mkIndexScan (position_after n slot rids next) e) b2 =
      (Ok (drop (S slot) rids ++ entries rest), b') ∧ steady b2 b').
    { unfold position_after. destruct next as [m|].
      - destruct (Hmore m eq_refl) as (rids' & rest' & -> & Hcm). case_bool_decide as Hb.
        + rewrite Hb, drop_all. cbn [app]. change 0 with (Z.of_nat 0). change (entries ((m, rids') :: rest')) with (drop 0 rids' ++ entries rest').
          replace e with (chain_end ((m, rids') :: rest')) by done.
          eapply IH; [done|by eapply leaf_chain_steady|apply Hs2|done| |].
          * destruct rids'; [|left; cbn; lia]. right. split; [done|]. cbn [leaf_chain] in Hcm. destruct rest' as [|[??]]; [done|naive_solver].
          * rewrite Hb, drop_all in Hfuel. cbn [app] in Hfuel. change (drop 0 rids' ++ entries rest') with (entries ((m, rids') :: rest')). lia.
        + eapply IH; [done|done|apply Hs2|done|left; lia|lia].
      - assert (rest = []) as -> by (by apply Hrest).
        eapply IH; [done|done|apply Hs2|done|destruct (decide (S slot = length rids)); [by right|left; lia]|lia]. }
    destruct Hgo as (b' & Hb' & Hs'). rewrite Hb'. cbn. exists b'. split; [done|by eapply steady_trans].
Qed.

(** C19. An index scan from [leaf_begin] to [leaf_end] of a tree with a well-formed
    leaf list ends: [for (; !is_end(); next())] takes one turn per entry, no assertion
    fails, and the record ids it delivers are those of all leaves from left to right.  The
    pool needs one frame that nobody has pinned; afterwards the pages and the pins are as
    they were.  An empty tree ends at once. *)
Theorem index_scan_complete l b : good b → room 0 b → leaf_chain b l → (fst <$> head l) = Some (first_leaf_ header) →
  ∃ b', (e ← leaf_end t; drain (S (length (entries l))) (mkIndexScan (leaf_begin t) e)) b = (Ok (entries l), b') ∧
    get_pin_snapshot b' = get_pin_snapshot b ∧ ∀ q, stored b' q = stored b q.
Proof.
  intros Hg Hroom Hc Hfirst.
  assert (Hend : ∃ n rids, last l = Some (n, rids) ∧ leaf_at b n rids None ∧ n = last_leaf_ header).
  { clear Hfirst. induction l as [|[n rids] rest IH]; [done|]. cbn [leaf_chain] in Hc. destruct rest as [|[m rids'] rest].
    - destruct Hc as [-> ?]. by eexists _, _.
    - destruct Hc as (_ & _ & _ & Hc). destruct (IH Hc) as (n' & r' & ? & ?). by exists n', r'. }
  destruct Hend as (n & rids & Hl & (d & Hd & _ & Hsize & _) & ->).
  destruct (scoped_read (last_leaf_ header) (λ nd b, if negb (valid nd)
    then Throw (InternalError "failed to fetch last leaf for index scan")
    else p ← node_page nd b; Ok (mkPosition (last_leaf_ header) (get_size (data_ p)))) d (Ok (chain_end l)) b Hg Hroom Hd)
    as (b1 & Hb1 & Hs1).
  { intros nd b1 p Hv Hp Hdp _. rewrite Hv, Hp. cbn. unfold chain_end. rewrite Hl. cbn. by rewrite <- Hsize, Hdp. }
  destruct l as [|[n1 rids1] rest]; [done|]. cbn in Hfirst. injection Hfirst as ->.
  destruct (drain_chain ((first_leaf_ header, rids1) :: rest) (first_leaf_ header) 0%nat rids1 rest b1 (S (length (entries ((first_leaf_ header, rids1) :: rest)))) eq_refl)
    as (b2 & Hb2 & Hs2).
  - by eapply leaf_chain_steady.
  - apply Hs1.
  - by eapply steady_room.
  - destruct rids1; [|left; cbn; lia]. right. split; [done|]. cbn [leaf_chain] in Hc. destruct rest as [|[??]]; [done|naive_solver].
  - change (drop 0 rids1 ++ entries rest) with (entries ((first_leaf_ header, rids1) :: rest)). lia.
  - exists b2. unfold mbind, M_bind, leaf_end. rewrite Hb1. split; [exact Hb2|].
    pose proof (steady_trans _ _ _ Hs1 Hs2) as Hs. split; [|apply Hs]. apply pin_snapshot_pins; [apply Hg|apply Hs..].
Qed.
End Scan.

(** ** Separators *)

Section Keys.
Context (h : IndexFileHeader).

(** Every node's keys and record ids lie on the page. *)
Definition layout_ok : Prop :=
  0 < key_length_ h ∧ get_max_size h * key_length_ h ≤ keys_region_size_ h ∧
  keys_offset + keys_region_size_ h + get_max_size h * sizeof_Rid ≤ PAGE_SIZE.

Lemma header_layout : header_ok h → layout_ok.
Proof.
  intros Hh. destruct (ho_key h Hh) as [_ Hk]. destruct (ho_order h Hh) as (Ho & Hc & Hf). unfold page_layout_fits in Hf.
  assert (Hcond : (tree_order_ h <? 0) || (key_length_ h <=? 0) = false) by (zbool; done).
  rewrite Hc, Hcond in Hf. unfold calculate_keys_region_size in Hc. rewrite Hcond in Hc. cbn in Hf, Hc.
  injection Hf as Hf%Z.leb_le. destruct (INT_MAX <? _); [done|]. cbn in Hc. injection Hc as Hc.
  unfold layout_ok, get_max_size, keys_offset. split_and!; [lia| |unfold sizeof_IndexPageHeader, sizeof_Rid in *; lia].
  rewrite <- Hc. unfold alignof_Rid. rewrite Z.quot_div_nonneg by nia.
  pose proof (Z.div_mod ((tree_order_ h + 1) * key_length_ h + 4 - 1) 4). pose proof (Z.mod_pos_bound ((tree_order_ h + 1) * key_length_ h + 4 - 1) 4). lia.
Qed.

Context (Hlay : layout_ok).
Notation kl := (key_length_ h).
Implicit Types d : bytes.

(** Everything of a page but its keys. *)
Definition same_shape d d' : Prop :=
  zlen d' = zlen d ∧ (∀ off, 0 ≤ off → off + 4 ≤ keys_offset → int_at d' off = int_at d off) ∧
  (∀ i, 0 ≤ i → get_rid h d' i = get_rid h d i) ∧ d' !! 12%nat = d !! 12%nat.

Lemma get_key_ok d i : zlen d = PAGE_SIZE → 0 ≤ i < get_max_size h →
  get_key h d i = Ok (ztake kl (zdrop (keys_offset + i * kl) d)) ∧ zlen (ztake kl (zdrop (keys_offset + i * kl) d)) = kl.
Proof.
  intros Hd Hi. destruct Hlay as (Hk & Hr & Hp). unfold keys_offset, sizeof_IndexPageHeader, sizeof_Rid in *.
  assert (Hle : 24 + i * kl + kl ≤ zlen d) by nia.
  assert (0 ≤ i * kl) by nia. split.
  - unfold get_key, read_at, keys_offset, sizeof_IndexPageHeader.
    rewrite (proj2 (Z.ltb_ge _ _)) by lia. cbn. by rewrite (proj2 (Z.ltb_ge _ _)) by lia.
  - rewrite zlen_ztake; [done|]. rewrite zlen_zdrop by lia. lia.
Qed.

(** Storing a key. *)
Lemma set_key_law d i key : zlen d = PAGE_SIZE → 0 ≤ i < get_max_size h → zlen key = kl →
  ∃ d', set_key h d i key = Ok d' ∧ same_shape d d' ∧ get_key h d' i = Ok key ∧
    ∀ j, 0 ≤ j < get_max_size h → j ≠ i → get_key h d' j = get_key h d j.
Proof.
  intros Hd Hi Hk. destruct Hlay as (Hpos & Hr & Hp). exists (spliced (keys_offset + i * kl) key d).
  assert (Hlen : zlen (spliced (keys_offset + i * kl) key d) = zlen d).
  { unfold spliced, keys_offset, sizeof_IndexPageHeader, sizeof_Rid in *.
    rewrite !zlen_app, zlen_ztake, zlen_zdrop by nia. nia. }
  assert (Hkey : ∀ j, 0 ≤ j < get_max_size h → get_key h (spliced (keys_offset + i * kl) key d) j =
    Ok (ztake kl (zdrop (keys_offset + j * kl) (spliced (keys_offset + i * kl) key d)))).
  { intros j Hj. apply get_key_ok; [by rewrite Hlen|done]. }
  unfold keys_offset, sizeof_IndexPageHeader, sizeof_Rid in *.
  assert (Hend : 24 + i * kl + kl ≤ 24 + keys_region_size_ h) by nia. assert (0 ≤ i * kl) by nia.
  assert (Hmax : 0 ≤ get_max_size h) by lia.
  split_and!.
  - unfold set_key, put, keys_offset, sizeof_IndexPageHeader. rewrite ztake_all by lia. rewrite Hk.
    rewrite (proj2 (Z.ltb_ge _ _)) by lia. cbn. rewrite (proj2 (Z.ltb_ge _ _)) by lia. unfold spliced. by rewrite Hk.
  - unfold same_shape. split_and!.
    + done.
    + intros off H1 H2. unfold keys_offset, sizeof_IndexPageHeader in H2. unfold int_at. do 2 f_equal. apply splice_before; lia.
    + intros j Hj. unfold get_rid, read_at, rids_offset, keys_offset, sizeof_IndexPageHeader, sizeof_Rid. rewrite Hlen.
      rewrite (splice_after (24 + i * kl)) by lia. done.
    + assert (Hl12 : (12 < length (ztake (24 + i * kl) d))%nat).
      { pose proof (zlen_ztake (24 + i * kl) d ltac:(lia)). unfold zlen in *. lia. }
      unfold spliced. rewrite lookup_app_l by done. unfold ztake. apply lookup_take_lt. lia.
  - rewrite Hkey by done. f_equal. rewrite <- Hk. apply splice_at; lia.
  - intros j Hj Hne. rewrite Hkey by done. rewrite (proj1 (get_key_ok d j Hd Hj)). f_equal.
    unfold keys_offset, sizeof_IndexPageHeader. destruct (decide (j < i)).
    + apply splice_before; nia.
    + apply splice_after; nia.
Qed.

Lemma find_child_loop_shape fuel d d' c i : same_shape d d' → 0 ≤ i → find_child_loop h fuel d' c i = find_child_loop h fuel d c i.
Proof.
  intros Hs. revert i. induction fuel as [|fuel IH]; intros i Hi; [done|]. cbn [find_child_loop].
  destruct Hs as (Hl & Hint & Hrid & Hb). unfold get_size. rewrite Hint by (cbv; done).
  destruct (i <? _); [|done]. rewrite Hrid by done. destruct (get_rid h d i) as [rid|e|]; [|done..]. cbn.
  destruct (_ =? c); [done|]. apply IH. lia.
Qed.

Lemma find_child_shape d d' c : same_shape d d' → find_child h d' c = find_child h d c.
Proof.
  intros Hs. unfold find_child. rewrite (find_child_loop_shape _ d d') by done. do 3 f_equal. unfold get_size.
  destruct Hs as (_ & -> & _); [done|lia|cbv; done].
Qed.

Lemma find_child_loop_range fuel d c i r : find_child_loop h fuel d c i = Ok r → i ≤ r < get_size d ∧ value_at h d r = Ok c.
Proof.
  revert i. induction fuel as [|fuel IH]; intros i; [done|]. cbn [find_child_loop].
  destruct (Z.ltb_spec i (get_size d)); [|done]. unfold value_at. destruct (get_rid h d i) as [rid|e|] eqn:E; [|done..]. cbn.
  destruct (Z.eqb_spec (page_no rid) c) as [<-|]; [intros [= <-]; rewrite E; cbn; lia + (split; [lia|done])|].
  intros Hr. apply IH in Hr as [? ?]. split; [lia|done].
Qed.

Lemma find_child_range d c r : find_child h d c = Ok r → 0 ≤ r < get_size d ∧ value_at h d r = Ok c.
Proof. apply find_child_loop_range. Qed.

(** Taking the last child out of a root: when erasing a pair makes the count one less, it
    is defined for a page with one readable pair and no other, and the child it gives is
    the one [find_child] finds at the first position. *)
Lemma only_child_taken erase_pair d :
  (∀ d i, 0 ≤ i < get_size d → ∃ d', erase_pair d i = Ok d' ∧ get_size d' = get_size d - 1) →
  (∃ child d', remove_and_return_only_child h erase_pair d = Ok (child, d')) ↔
  get_size d = 1 ∧ ∃ child, find_child h d child = Ok 0.
Proof.
  intros He. unfold remove_and_return_only_child. destruct (get_size d =? 1) eqn:E; cbn [negb].
  2: { apply Z.eqb_neq in E. split; [by intros (? & ? & ?)|by intros []]. }
  apply Z.eqb_eq in E. destruct (He d 0) as (d' & Hd' & Hs); [lia|]. split.
  - intros (child & d1 & (c & Hc & _)%bind_ok). split; [done|]. exists c. unfold find_child. rewrite E. cbn -[value_at get_rid]. rewrite E. cbn -[get_rid].
    apply bind_ok in Hc as (rid & -> & [= <-]). cbn. by rewrite Z.eqb_refl.
  - intros [_ [c [_ Hc]%find_child_range]]. exists c, d'. rewrite Hc. cbn. rewrite Hd'. cbn. by rewrite Hs, E.
Qed.

Lemma memcmp_zero (k1 k2 : bytes) : zlen k1 = zlen k2 → (memcmp k1 k2 =? 0) = bool_decide (k1 = k2).
Proof.
  intros Hl. rewrite memcmp_lex. apply eq_bool_prop_intro. rewrite Is_true_true, Z.eqb_eq, lex_zero, bool_decide_spec.
  - split; [|by intros ->]. apply list_fmap_eq_inj. intros x y Hxy. by rewrite <- (byte.of_Z_unsigned x), <- (byte.of_Z_unsigned y), Hxy.
  - rewrite !length_fmap. unfold zlen in Hl. lia.
Qed.
End Keys.

Section Ancestors.
Context {D : Type} `{LivePool D} (t : BPlusTree).
Notation pool := (BufferPoolManager D).
Notation stored := (stored disk_page).
Notation header := (tree_header t).
Context (Hlay : layout_ok header).
Implicit Types b : pool.

(** [p] is the parent page of [n], and has it among its children. *)
Definition parent_of b (n p : Z) : Prop :=
  ∃ d dp rank, contents t b n = Some d ∧ get_parent_page_no d = p ∧ p ≠ INDEX_NO_PAGE ∧
    contents t b p = Some dp ∧ find_child header dp n = Ok rank ∧ get_size dp ≤ get_max_size header.

(** The separator of [n] in [p] is the first key of [n]. *)
Definition separated b (n p : Z) : Prop :=
  ∃ d dp rank key, contents t b n = Some d ∧ contents t b p = Some dp ∧ find_child header dp n = Ok rank ∧
    get_key header dp rank = Ok key ∧ get_key header d 0 = Ok key.

Definition pairs (l : list Z) (P : Z → Z → Prop) : Prop := ∀ i n p, l !! i = Some n → l !! S i = Some p → P n p.

Definition is_root b (n : Z) : Prop := ∃ d, contents t b n = Some d ∧ get_parent_page_no d = INDEX_NO_PAGE.

Lemma opened_room k q f b b1 : good b → opened q f b b1 → room (S k) b → room k b1.
Proof.
  intros Hg Ho. unfold room. destruct (op_frames _ _ _ _ Ho) as [-> _].
  assert (Hs : get_pin_snapshot b1 = <[q := pins b q + 1]> (get_pin_snapshot b)).
  { pose proof (pins_nonneg b q (good_frames _ Hg)). apply map_eq. intros q'. apply option_eq. intros n.
    rewrite pin_snapshot_lookup by apply (op_good _ _ _ _ Ho). destruct (decide (q' = q)) as [->|Hne].
    - rewrite lookup_insert_eq, (op_pins _ _ _ _ Ho). split; [intros [-> _]; done|intros [= <-]; lia].
    - rewrite lookup_insert_ne, (op_others _ _ _ _ Ho), pin_snapshot_lookup by (done || apply Hg). done. }
  rewrite Hs, map_size_insert. destruct (get_pin_snapshot b !! q); cbn; lia.
Qed.

(** What one scope inside another leaves. *)
Record changed (p : Z) (v : option bytes) b b' : Prop := {
  ch_good : good b'; ch_pins : same_pins b b'; ch_size : pool_size_ b' = pool_size_ b;
  ch_contents m : contents t b' m = if decide (m = p) then v else contents t b m }.

Lemma visit_inside q f p v b b1 b2 : good b → opened q f b b1 → visited (node_id t p) v b1 b2 →
  changed p v b (PageGuard_destroy (mkGuard true (Some f) q false) b2).
Proof.
  intros Hg Ho Hv. pose proof (pins_nonneg b q (good_frames _ Hg)). pose proof (op_pins _ _ _ _ Ho) as Hp.
  assert (Hc : closed q b2 (PageGuard_destroy (mkGuard true (Some f) q false) b2)).
  { apply close_law; [apply Hv|rewrite (vi_pins _ _ _ _ Hv); lia|]. right. intros Hu.
    apply (vi_unsaved _ _ _ _ Hv), (op_unsaved _ _ _ _ Ho), (good_guarded _ Hg) in Hu. rewrite (vi_pins _ _ _ _ Hv). lia. }
  split; [apply Hc| | |].
  - intros q'. destruct (decide (q' = q)) as [->|Hne].
    + rewrite (cl_pins _ _ _ Hc), (vi_pins _ _ _ _ Hv). lia.
    + by rewrite (cl_others _ _ _ Hc), (vi_pins _ _ _ _ Hv), (op_others _ _ _ _ Ho).
  - destruct (op_frames _ _ _ _ Ho) as [Hs1 _], (vi_frames _ _ _ _ Hv) as [Hs2 _]. rewrite (cl_size _ _ _ Hc). congruence.
  - intros m. unfold contents at 1. rewrite (cl_stored _ _ _ Hc). fold (contents t b2 m).
    rewrite (contents_visited t _ _ _ _ m Hv). unfold contents. by rewrite (op_stored _ _ _ _ Ho).
Qed.

(** One turn: stop at the root or at a separator that is right, or store the key. *)
Lemma ancestor_turn_root n b : good b → room 0 b → is_root b n →
  ∃ b', ancestor_turn t n b = (Ok None, b') ∧ steady b b'.
Proof.
  intros Hg Hroom (d & Hd & Hroot). destruct (fetch_node_works t n b d Hg Hroom Hd) as (f & p & b1 & He & Ho & Hp & Hid & Hdp & _).
  unfold ancestor_turn, scoped. rewrite He. cbn. rewrite (node_page_handle _ _ _ _ Hp), Hdp, Hroot. cbn.
  eexists. split; [done|]. eapply visited_steady. by apply visit_read.
Qed.

Lemma ancestor_turn_law n p d dp rank b : good b → room 1 b →
  contents t b n = Some d → get_parent_page_no d = p → p ≠ INDEX_NO_PAGE → contents t b p = Some dp →
  find_child header dp n = Ok rank → get_size dp ≤ get_max_size header →
  ∃ r b', ancestor_turn t n b = (Ok r, b') ∧
    match r with
    | None => separated b n p ∧ ∀ v, contents t b p = v → changed p v b b'
    | Some p' => p' = p ∧ ∃ dp', same_shape header dp dp' ∧ changed p (Some dp') b b' ∧
        get_key header dp' rank = get_key header d 0
    end.
Proof.
  intros Hg Hroom Hd Hpar Hp Hdp Hrank Hsize.
  destruct (find_child_range _ _ _ _ Hrank) as [Hr _].
  destruct (fetch_node_works t n b d Hg) as (f & pg & b1 & He & Ho & Hpg & Hid & Hdata & Hlen); [unfold room in *; lia|done|].
  destruct (fetch_node_works t p b1 dp (op_good _ _ _ _ Ho)) as (f' & pg' & b2 & He' & Ho' & Hpg' & Hid' & Hdata' & Hlen').
  { by eapply opened_room. }
  { unfold contents. rewrite (op_stored _ _ _ _ Ho). done. }
  destruct (get_key_ok header Hlay dp rank Hlen') as [Hold Holdl]; [lia|].
  destruct (get_key_ok header Hlay d 0 Hlen) as [Hkey Hkeyl]; [lia|].
  set (old := ztake _ _) in Hold, Holdl. set (key := ztake _ _) in Hkey, Hkeyl.
  unfold ancestor_turn, scoped at 1. rewrite He. cbn [valid handle guard_ negb guard_valid page_].
  change (negb (valid (handle (node_id t n) f))) with false. cbn iota. rewrite (node_page_handle _ _ _ _ Hpg), Hdata, Hpar.
  rewrite (proj2 (Z.eqb_neq _ _)) by done. unfold scoped. rewrite He'. unfold ancestor_parent.
  change (negb (valid (handle (node_id t p) f'))) with false. cbn iota. rewrite (node_page_handle _ _ _ _ Hpg').
  step_ok. rewrite Hdata', Hid. cbn [pid_page_no node_id]. rewrite Hrank. step_ok. rewrite Hold. step_ok.
  rewrite Hdata, Hkey. step_ok. rewrite memcmp_zero by congruence. case_bool_decide as Heq.
  - eexists None, _. split; [done|]. split.
    + exists d, dp, rank, key. split_and!; try done. by rewrite Hold, Heq.
    + intros v <-. assert (contents t b p = stored b1 (node_id t p)) as ->.
      { unfold contents. by rewrite (op_stored _ _ _ _ Ho). }
      eapply visit_inside; [done..|]. apply visit_read; [apply Ho|done].
  - destruct (set_key_law header Hlay dp rank key Hlen') as (dp' & Hset & Hshape & Hget & _); [lia|done|].
    unfold node_update, handle. cbn [view_]. cbn [mbind option_bind]. rewrite Hpg'. cbn [fmap option_fmap option_map].
    rewrite Hdata', Hset. cbn. rewrite Hid'. cbn. eexists (Some p), _. split; [done|]. split; [done|].
    exists dp'. split_and!; [done| |by rewrite Hget].
    eapply visit_inside; [done..|]. apply visit_write; [apply Ho|done|]. destruct Hshape as [-> _]. done.
Qed.

Lemma pairs_cons n l P : pairs (n :: l) P ↔ (∀ p, l !! 0%nat = Some p → P n p) ∧ pairs l P.
Proof.
  split.
  - intros Hp. split; [intros p; by apply (Hp 0%nat)|]. intros i x y. apply (Hp (S i)).
  - intros [H1 H2] [|i] x y; [intros [= <-]; apply H1|apply H2].
Qed.

(** Contents that agree up to the keys of the pages in [l]. *)
Definition reshaped (l : list Z) b b' : Prop :=
  (∀ m, m ∉ l → contents t b' m = contents t b m) ∧
  (∀ m d, contents t b m = Some d → ∃ d', contents t b' m = Some d' ∧ same_shape header d d').

Lemma same_shape_refl d : same_shape header d d.
Proof. by split_and!. Qed.

Lemma same_shape_trans d1 d2 d3 : same_shape header d1 d2 → same_shape header d2 d3 → same_shape header d1 d3.
Proof.
  intros (L1 & I1 & R1 & B1) (L2 & I2 & R2 & B2). split_and!; [congruence| | |congruence].
  - intros off ? ?. by rewrite I2, I1.
  - intros i ?. by rewrite R2, R1.
Qed.

Lemma parent_of_reshaped l b b' n p : reshaped l b b' → parent_of b n p → parent_of b' n p.
Proof.
  intros [_ Hs] (d & dp & rank & Hd & Hpar & Hp & Hdp & Hrank & Hsize).
  destruct (Hs _ _ Hd) as (d' & Hd' & Hsd), (Hs _ _ Hdp) as (dp' & Hdp' & Hsp). exists d', dp', rank. split_and!; [done| |done|done|..].
  - unfold get_parent_page_no. destruct Hsd as (_ & -> & _); [done|lia|cbv; done].
  - by rewrite (find_child_shape header dp dp').
  - unfold get_size. destruct Hsp as (_ & -> & _); [done|lia|cbv; done].
Qed.

Lemma separated_same b b' n p : contents t b' n = contents t b n → contents t b' p = contents t b p →
  separated b n p → separated b' n p.
Proof. intros Hn Hp. unfold separated. by rewrite Hn, Hp. Qed.

Lemma changed_reshaped p dp dp' b b' : contents t b p = Some dp → same_shape header dp dp' → changed p (Some dp') b b' →
  reshaped [p] b b'.
Proof.
  intros Hdp Hs Hc. split.
  - intros m Hm. rewrite (ch_contents _ _ _ _ Hc), decide_False; [done|set_solver].
  - intros m d Hd. rewrite (ch_contents _ _ _ _ Hc). case_decide; [subst|by exists d; split; [|apply same_shape_refl]].
    exists dp'. split; [done|]. congruence.
Qed.

Lemma ancestor_loop_law n rest : ∀ b, good b → room 1 b → NoDup (n :: rest) → pairs (n :: rest) (parent_of b) →
  (∀ r, last (n :: rest) = Some r → is_root b r) → pairs rest (separated b) →
  ∃ b', ancestor_loop t (S (length rest)) n b = (Ok tt, b') ∧ good b' ∧ same_pins b b' ∧ pool_size_ b' = pool_size_ b ∧
    reshaped rest b b' ∧ pairs (n :: rest) (separated b').
Proof.
  revert n. induction rest as [|p rest IH]; intros n b Hg Hroom Hnd Hpar Hroot Hsep; cbn [ancestor_loop length].
  - destruct (ancestor_turn_root n b Hg) as (b' & Hb' & Hs); [unfold room in *; lia|by apply Hroot|].
    unfold mbind, M_bind. rewrite Hb'. exists b'. split_and!; [done|apply Hs|apply Hs|apply Hs| |].
    + split; [intros m _; apply Hs|]. intros m d Hd. exists d. split; [|apply same_shape_refl].
      unfold contents. rewrite (st_stored _ _ Hs). done.
    + intros [|i] x y; cbn; intros; by simplify_eq.
  - apply pairs_cons in Hpar as [Hnp Hpar]. destruct (Hnp p eq_refl) as (d & dp & rank & Hd & Hp & Hne & Hdp & Hrank & Hsize).
    destruct (ancestor_turn_law n p d dp rank b Hg Hroom Hd Hp Hne Hdp Hrank Hsize) as (r & b1 & Hb1 & Hr).
    unfold mbind, M_bind. rewrite Hb1. apply NoDup_cons in Hnd as [Hn Hnd]. destruct r as [p'|].
    + destruct Hr as (-> & dp' & Hshape & Hc & Hkey).
      pose proof (changed_reshaped _ _ _ _ _ Hdp Hshape Hc) as Hre.
      destruct (IH p b1) as (b' & Hb' & Hg' & Hp' & Hs' & [Hsame Hshapes] & Hpairs).
      * apply (ch_good _ _ _ _ Hc).
      * unfold room in *. rewrite (ch_size _ _ _ _ Hc), (pin_snapshot_pins b b1); [done|apply Hg|apply Hc..].
      * done.
      * intros i x y Hx Hy. eapply parent_of_reshaped; [exact Hre|]. by eapply Hpar.
      * intros x Hx. destruct (Hroot x Hx) as (dx & Hdx & Hrx). destruct (proj2 Hre _ _ Hdx) as (dx' & Hdx' & Hsx).
        exists dx'. split; [done|]. unfold get_parent_page_no. destruct Hsx as (_ & -> & _); [done|lia|cbv; done].
      * apply NoDup_cons in Hnd as [Hpr _]. apply pairs_cons in Hsep as [_ Hsep].
        intros i x y Hx Hy. eapply separated_same; [..|by eapply Hsep];
          apply (proj1 Hre); intros ->%list_elem_of_singleton; apply Hpr; by eapply list_elem_of_lookup_2.
      * exists b'. apply NoDup_cons in Hnd as [Hpr _]. split_and!; [exact Hb'|done| | | |].
        -- intros q. by rewrite Hp', (ch_pins _ _ _ _ Hc).
        -- rewrite Hs'. apply (ch_size _ _ _ _ Hc).
        -- split; [intros m Hm; rewrite Hsame by set_solver; apply (proj1 Hre); set_solver|].
           intros m dm Hdm. destruct (proj2 Hre _ _ Hdm) as (d1 & Hd1 & Hs1), (Hshapes m d1 Hd1) as (d2 & Hd2 & Hs2).
           exists d2. split; [done|]. by eapply same_shape_trans.
        -- apply pairs_cons. split; [|done]. intros ? [= <-].
           assert (Hn' : contents t b' n = Some d).
           { rewrite Hsame by set_solver. rewrite (proj1 Hre) by set_solver. done. }
           assert (Hp'' : contents t b' p = Some dp') by (rewrite Hsame, (ch_contents _ _ _ _ Hc), decide_True by done; done).
           assert (zlen d = PAGE_SIZE) as Hlen.
           { destruct (fetch_node_works t n b d Hg) as (? & ? & ? & _ & _ & _ & _ & _ & ?); [unfold room in *; lia|done|done]. }
           destruct (find_child_range _ _ _ _ Hrank) as [Hr _].
           destruct (get_key_ok header Hlay d 0 Hlen) as [Hk _]; [lia|].
           eexists d, dp', rank, _. split_and!; [done|done|by rewrite (find_child_shape header dp dp')|by rewrite Hkey, Hk|done].
    + destruct Hr as [Hs Hc]. specialize (Hc _ eq_refl).
      assert (Hsame : ∀ m, contents t b1 m = contents t b m).
      { intros m. rewrite (ch_contents _ _ _ _ Hc). by case_decide; subst. }
      exists b1. split_and!; [done|apply Hc|apply Hc|apply Hc| |].
      * split; [intros m _; apply Hsame|]. intros m dm Hdm. exists dm. rewrite Hsame. split; [done|apply same_shape_refl].
      * apply pairs_cons. split; [intros ? [= <-]; by apply (separated_same b)|].
        intros i x y Hx Hy. apply (separated_same b); [done..|]. by eapply Hsep.
Qed.

(** C22. [update_ancestor_keys] on a node whose path to the root is [n :: rest] (each
    page is listed among the children of the next), where every separator above its own
    parent is right: the [while (true)] loop ends within one turn per page of the path,
    without a failed assertion, and then every separator on the path is the first key of
    its child.  Only keys of the ancestors change; the pool needs two unpinned frames, and
    the pins are the same afterwards. *)
Theorem ancestor_keys_correct node n rest b : good b → room 1 b → holds t b node n → NoDup (n :: rest) →
  pairs (n :: rest) (parent_of b) → (∀ r, last (n :: rest) = Some r → is_root b r) → pairs rest (separated b) →
  ∃ b', update_ancestor_keys t (length (n :: rest)) node b = (Ok tt, b') ∧
    pairs (n :: rest) (separated b') ∧ reshaped rest b b' ∧ get_pin_snapshot b' = get_pin_snapshot b.
Proof.
  intros Hg Hroom Hh Hnd Hpar Hroot Hsep.
  destruct (holds_page t _ _ _ Hg Hh) as (p & Hp & Hid & _).
  destruct (ancestor_loop_law n rest b Hg Hroom Hnd Hpar Hroot Hsep) as (b' & Hb' & Hg' & Hp' & _ & Hre & Hs).
  exists b'. split_and!; [|done|done|apply pin_snapshot_pins; [apply Hg|apply Hg'|done]].
  assert (Hn : get_page_no node b = Ok n) by (unfold get_page_no; rewrite Hp; step_ok; by rewrite Hid).
  unfold update_ancestor_keys, mbind, M_bind. by rewrite Hn.
Qed.
End Ancestors.
