(* ===== verification/BPlusTreeExample.v ===== *)
(** * A small tree on the pool in memory

    A root with two leaves and the header page of the leaf list, on [MemPool]: the claims
    of [BPlusTreeFacts] at concrete pages, and what an unreadable page does to
    [unlink_leaf]. *)

From S2P Require Import Prelude Errors Common Record IndexFile IndexFacts Disk System.
From S2P Require Import Execution BufferPool BufferPoolFacts MemPool BPlusTree BPlusTreeFacts.

(** Keys of one integer, nodes of at most four entries. *)
Definition small_header : IndexFileHeader :=
  mkHeader INDEX_NO_PAGE 5 4 1 [0] [4] 4 3 16 2 3 false (serialized_size 1).

Definition small_tree : BPlusTree := mkTree 7 small_header.

(** A page from its header, keys and record ids. *)
Definition node_bytes (leaf : bool) (parent prev next : Z) (keys : list Z) (rids : list Rid) : bytes :=
  ztake PAGE_SIZE
    (int_bytes INDEX_NO_PAGE ++ int_bytes parent ++ int_bytes (zlen keys) ++ int_bytes (if leaf then 1 else 0) ++
     int_bytes prev ++ int_bytes next ++
     ztake 16 (concat (int_bytes <$> keys) ++ zero_page) ++
     concat ((λ r, int_bytes (page_no r) ++ int_bytes (slot_no r)) <$> rids) ++ zero_page).

Definition page1 : bytes := node_bytes true INDEX_NO_PAGE 3 2 [] [].
Definition page2 : bytes := node_bytes true 4 1 3 [7; 8] [mkRid 10 0; mkRid 10 1].
Definition page3 : bytes := node_bytes true 4 2 1 [9] [mkRid 11 5].
(** The separator of page 2 is out of date. *)
Definition page4 : bytes := node_bytes false INDEX_NO_PAGE (-1) (-1) [1; 9] [mkRid 2 0; mkRid 3 0].

Definition tree_disk : MemDisk :=
  mkMemDisk (λ q, if decide (pid_fd q = 7) then
                    if decide (pid_page_no q = 1) then Some page1 else if decide (pid_page_no q = 2) then Some page2
                    else if decide (pid_page_no q = 3) then Some page3 else if decide (pid_page_no q = 4) then Some page4
                    else None
                  else None) 5.

Definition tree_pool : mpool := BufferPoolManager_new 3 tree_disk.

Lemma tree_pool_good bad : @good MemDisk (mem_pool bad) (mem_pool_laws bad) tree_pool.
Proof.
  split; [apply new_pool_ok| |].
  - split; cbn.
    + intros q. rewrite lookup_empty. by intros [].
    + intros q. repeat case_decide; intros [? ?]; try done; lia.
    + intros q data. repeat case_decide; intros [= <-]; vm_compute; reflexivity.
  - intros q (p & Hp & _). unfold resident in Hp. cbn in Hp. rewrite lookup_empty in Hp. done.
Qed.

#[local] Existing Instance mem_pool_live.

Lemma index_scan_complete_witness :
  ∃ b', (e ← @leaf_end MemDisk (mem_pool []) small_tree;
         @drain MemDisk (mem_pool []) small_tree 4 (mkIndexScan (leaf_begin small_tree) e)) tree_pool =
    (Ok [mkRid 10 0; mkRid 10 1; mkRid 11 5], b') ∧ get_pin_snapshot b' = ∅.
Proof.
  destruct (@index_scan_complete MemDisk (mem_pool []) (mem_pool_laws []) mem_pool_live small_tree
    [(2, [mkRid 10 0; mkRid 10 1]); (3, [mkRid 11 5])] tree_pool (tree_pool_good [])) as (b' & Hb & Hs & _).
  - vm_compute. lia.
  - cbn [leaf_chain]. split; [discriminate|]. split; [discriminate|]. split.
    + exists page2. split; [vm_compute; reflexivity|]. split; [vm_compute; reflexivity|]. split; [vm_compute; reflexivity|].
      split; [intros [|[|i]] r Hr; [injection Hr as <-; vm_compute; reflexivity..|discriminate]|].
      intros m [= <-]. vm_compute. reflexivity.
    + split; [reflexivity|]. exists page3. split; [vm_compute; reflexivity|]. split; [vm_compute; reflexivity|].
      split; [vm_compute; reflexivity|].
      split; [intros [|i] r Hr; [injection Hr as <-; vm_compute; reflexivity|discriminate]|discriminate].
  - reflexivity.
  - exists b'. split; [exact Hb|]. rewrite Hs. vm_compute. reflexivity.
Defined.

(** The caller holds leaf 2. *)
Definition leaf2 : IndexNode * mpool :=
  match @fetch_node MemDisk (mem_pool []) small_tree 2 tree_pool with
  | (Ok n, b) => (n, b)
  | (_, b) => (IndexNode_default, b)
  end.

Lemma leaf2_fetched bad : ¬ (mkPageId 7 2 ∈ bad) →
  ∃ f p b1, @fetch_node MemDisk (mem_pool bad) small_tree 2 tree_pool = (Ok (handle (mkPageId 7 2) f), b1) ∧
    leaf2 = (handle (mkPageId 7 2) f, b1) ∧
    @opened MemDisk (mem_pool bad) (mem_pool_laws bad) (mkPageId 7 2) f tree_pool b1 ∧
    pages_ b1 !! f = Some p ∧ data_ p = page2.
Proof.
  intros Hbad.
  assert (Hl : leaf2 = match @fetch_node MemDisk (mem_pool bad) small_tree 2 tree_pool with
    (Ok n, b) => (n, b) | (_, b) => (IndexNode_default, b) end).
  { unfold leaf2, fetch_node, fetch_page_guard, mbind, M_bind. cbn [fetch_page mem_pool]. unfold mem_fetch.
    cbn [page_table_ tree_pool BufferPoolManager_new]. rewrite !lookup_empty. change (find_victim_page tree_pool) with (Some 0%nat).
    cbn iota. change (md_pages (disk_manager_ tree_pool) (node_id small_tree 2)) with (Some page2). cbn iota.
    rewrite !decide_False by (done || set_solver). reflexivity. }
  destruct (@fetch_node MemDisk (mem_pool bad) small_tree 2 tree_pool) as [[n|e|] b1] eqn:E;
    pose proof (@fetch_node_law MemDisk (mem_pool bad) (mem_pool_laws bad) small_tree 2 tree_pool _ b1 (tree_pool_good bad) E) as H;
    [|exfalso; apply (f_equal (λ x, valid x.1)) in Hl; vm_compute in Hl; discriminate|done].
  destruct H as [(-> & _)|(f & p & -> & Ho & Hp & _ & Hc & _)].
  { exfalso. apply (f_equal (λ x, valid x.1)) in Hl. vm_compute in Hl. discriminate. }
  exists f, p, b1. split_and!; [done|exact Hl|exact Ho|done|].
  assert (Hc2 : @contents MemDisk (mem_pool bad) (mem_pool_laws bad) small_tree tree_pool 2 = Some page2) by (vm_compute; reflexivity).
  congruence.
Qed.

Lemma leaf2_good bad : ¬ (mkPageId 7 2 ∈ bad) →
  @good MemDisk (mem_pool bad) (mem_pool_laws bad) leaf2.2 ∧ holds small_tree leaf2.2 leaf2.1 2 ∧
  ∀ m, @contents MemDisk (mem_pool bad) (mem_pool_laws bad) small_tree leaf2.2 m =
       @contents MemDisk (mem_pool bad) (mem_pool_laws bad) small_tree tree_pool m.
Proof.
  intros Hbad. destruct (leaf2_fetched bad Hbad) as (f & p & b1 & _ & -> & Ho & Hp & _). split; [apply Ho|]. split.
  - exists f, p. split_and!; [done..|exact (op_table _ _ _ _ Ho)].
  - intros m. unfold contents. apply (op_stored _ _ _ _ Ho).
Qed.

Definition leaf_ring (bad : list PageId) (b : mpool) (l : list Z) : Prop :=
  @ring MemDisk (mem_pool bad) (mem_pool_laws bad) small_tree b l.

Lemma leaf2_ring bad : ¬ (mkPageId 7 2 ∈ bad) → leaf_ring bad leaf2.2 [2; 3; 1].
Proof.
  intros Hbad. destruct (leaf2_good bad Hbad) as (_ & _ & Hc). split; [by apply (bool_decide_unpack _); vm_compute|].
  intros [|[|[|i]]] x y Hx Hy; [injection Hx as <-; injection Hy as <-..|discriminate].
  - exists page2, page3. rewrite !Hc. by vm_compute.
  - exists page3, page1. rewrite !Hc. by vm_compute.
  - exists page1, page2. rewrite !Hc. by vm_compute.
Qed.

(** Leaf 2 taken out; and when the page of leaf 3 cannot be read: page 1 points past leaf 2
    already. *)
Lemma unlink_leaf_correct_witness :
  (∃ b', @unlink_leaf MemDisk (mem_pool []) small_tree leaf2.1 leaf2.2 = (Ok tt, b') ∧ leaf_ring [] b' [3; 1]) ∧
  ∃ e b1 b', @unlink_leaf MemDisk (mem_pool [mkPageId 7 3]) small_tree leaf2.1 leaf2.2 = (Throw e, b') ∧
    @fetch_page MemDisk (mem_pool [mkPageId 7 3]) (mkPageId 7 3) b1 = (Throw e, b') ∧
    @contents MemDisk (mem_pool [mkPageId 7 3]) (mem_pool_laws [mkPageId 7 3]) small_tree b1 1 = Some (set_next_leaf page1 3).
Proof.
  split.
  - destruct (leaf2_good [] (not_elem_of_nil _)) as (Hg & Hh & Hc).
    destruct (@unlink_leaf MemDisk (mem_pool []) small_tree leaf2.1 leaf2.2) as [r b'] eqn:E.
    destruct (@unlink_leaf_correct MemDisk (mem_pool []) (mem_pool_laws []) small_tree leaf2.1 2 [3; 1] leaf2.2 page2 r b'
      Hg Hh) as [_ Hr].
    + rewrite Hc. vm_compute. reflexivity.
    + vm_compute. reflexivity.
    + apply leaf2_ring, not_elem_of_nil.
    + discriminate.
    + exact E.
    + assert (r = Ok tt) as -> by (apply (f_equal fst) in E; cbn in E; rewrite <- E; vm_compute; reflexivity).
      exists b'. split; [reflexivity|]. apply Hr.
  - assert (Hbad : ¬ (mkPageId 7 2 ∈ [mkPageId 7 3])) by (intros ?%list_elem_of_singleton; discriminate).
    destruct (leaf2_good _ Hbad) as (Hg & Hh & Hc).
    destruct (@unlink_leaf MemDisk (mem_pool [mkPageId 7 3]) small_tree leaf2.1 leaf2.2) as [r b'] eqn:E.
    destruct (@unlink_leaf_correct MemDisk (mem_pool [mkPageId 7 3]) (mem_pool_laws [mkPageId 7 3]) small_tree leaf2.1 2 [3; 1] leaf2.2 page2 r b'
      Hg Hh) as [_ Hr].
    + rewrite Hc. vm_compute. reflexivity.
    + vm_compute. reflexivity.
    + by apply leaf2_ring.
    + discriminate.
    + exact E.
    + assert (r = Throw (InternalError "DiskManager::read_page Error")) as ->
        by (apply (f_equal fst) in E; cbn in E; rewrite <- E; vm_compute; reflexivity).
      change (get_prev_leaf page2) with 1 in Hr. change (get_next_leaf page2) with 3 in Hr.
      destruct Hr as [[[[=]|[=]] _]|[Hf|(dp & b1 & Hdp & Hf & Hb1)]].
      * exfalso. apply (f_equal fst) in Hf. vm_compute in Hf. discriminate.
      * exists (InternalError "DiskManager::read_page Error"), b1, b'. split; [reflexivity|]. split; [exact Hf|].
        rewrite Hc in Hdp. assert (dp = page1) as ->.
        { assert (Hp : @contents MemDisk (mem_pool [mkPageId 7 3]) (mem_pool_laws [mkPageId 7 3]) small_tree tree_pool 1 = Some page1)
            by (vm_compute; reflexivity). congruence. }
        specialize (Hb1 1). rewrite decide_True in Hb1 by done. exact Hb1.
Defined.

(** When the page of the next leaf cannot be read, the exception of the disk manager
    passes the rollback by: the previous page already points past the leaf, the next one
    still points back to it. *)
Lemma unlink_leaf_exception :
  ∃ e b', @unlink_leaf MemDisk (mem_pool [mkPageId 7 3]) small_tree leaf2.1 leaf2.2 = (Throw e, b') ∧
    leaf_ring [mkPageId 7 3] leaf2.2 [2; 3; 1] ∧
    ¬ leaf_ring [mkPageId 7 3] b' [2; 3; 1] ∧ ¬ leaf_ring [mkPageId 7 3] b' [3; 1].
Proof.
  assert (Hbad : ¬ (mkPageId 7 2 ∈ [mkPageId 7 3])) by (intros ?%list_elem_of_singleton; discriminate).
  destruct (@unlink_leaf MemDisk (mem_pool [mkPageId 7 3]) small_tree leaf2.1 leaf2.2) as [r b'] eqn:E.
  assert (Hr : fst (@unlink_leaf MemDisk (mem_pool [mkPageId 7 3]) small_tree leaf2.1 leaf2.2) =
    Throw (InternalError "DiskManager::read_page Error")) by (vm_compute; reflexivity).
  assert (H1 : get_next_leaf <$> mstored (snd (@unlink_leaf MemDisk (mem_pool [mkPageId 7 3]) small_tree leaf2.1 leaf2.2))
    (mkPageId 7 1) = Some 3) by (vm_compute; reflexivity).
  assert (H3 : get_prev_leaf <$> mstored (snd (@unlink_leaf MemDisk (mem_pool [mkPageId 7 3]) small_tree leaf2.1 leaf2.2))
    (mkPageId 7 3) = Some 2) by (vm_compute; reflexivity).
  rewrite E in Hr, H1, H3. cbn [fst snd] in Hr, H1, H3. subst r.
  exists (InternalError "DiskManager::read_page Error"), b'. split_and!; [done|by apply leaf2_ring|..]; intros [_ Hl].
  - destruct (Hl 2%nat 1 2 eq_refl eq_refl) as (dx & dy & Hx & _ & Hn & _). change (mstored b' (mkPageId 7 1) = Some dx) in Hx.
    rewrite Hx in H1. cbn in H1. congruence.
  - destruct (Hl 1%nat 1 3 eq_refl eq_refl) as (dx & dy & _ & Hy & _ & Hp). change (mstored b' (mkPageId 7 3) = Some dy) in Hy.
    rewrite Hy in H3. cbn in H3. congruence.
Qed.

Lemma small_layout : layout_ok small_header.
Proof. by vm_compute. Qed.

Lemma ancestor_keys_correct_witness :
  ∃ b', @update_ancestor_keys MemDisk (mem_pool []) small_tree 2 leaf2.1 leaf2.2 = (Ok tt, b') ∧
    @separated MemDisk (mem_pool []) (mem_pool_laws []) small_tree b' 2 4.
Proof.
  destruct (leaf2_good [] (not_elem_of_nil _)) as (Hg & Hh & Hc).
  destruct (@ancestor_keys_correct MemDisk (mem_pool []) (mem_pool_laws []) mem_pool_live small_tree small_layout
    leaf2.1 2 [4] leaf2.2 Hg) as (b' & Hb & Hs & _).
  - vm_compute. lia.
  - exact Hh.
  - by apply (bool_decide_unpack _); vm_compute.
  - intros [|[|i]] x y Hx Hy; [injection Hx as <-; injection Hy as <-|discriminate..].
    exists page2, page4, 0. rewrite !Hc. by vm_compute.
  - intros r [= <-]. exists page4. rewrite Hc. by vm_compute.
  - intros [|i] x y Hx Hy; discriminate.
  - exists b'. split; [exact Hb|]. by apply (Hs 0%nat).
Defined.
