(* ===== verification/Log.v ===== *)
(** * Log records

    Models the log records of [src/src/recovery/log_manager.h] and [log_defs.h]: the
    common header, BEGIN and INSERT records with their byte format, and the test for room
    in the log buffer.  A record value and a table name are the bytes they point to (that
    records behave like values is [RecordFacts]); a row has at least one byte
    ([RmManager::create_file]), so that its pointer is not null.  [deserialize] reads through
    casts of the source pointer, which is undefined at a misaligned address: the address is
    an argument.  Appending to the buffer, flushing and
    recovery are exercises with empty bodies; the other record types have no members.

    [log_insert_roundtrip]: an INSERT record that fits the buffer is written within its
    announced length and, where the casts are aligned, read back unchanged. *)

From S2P Require Import Prelude Errors Common Catalog Record IndexFile IndexFacts Disk System Execution BufferPool.

(** The enumerators of [LogType], an [int]. *)
Definition LOG_INSERT : Z := 1.
Definition LOG_begin : Z := 3.

Definition OFFSET_LOG_TYPE : Z := 0.
Definition OFFSET_LOG_LSN : Z := 4.
Definition OFFSET_LOG_TOT_LEN : Z := OFFSET_LOG_LSN + 4.
Definition OFFSET_LOG_TID : Z := OFFSET_LOG_TOT_LEN + 4.
Definition OFFSET_PREV_LSN : Z := OFFSET_LOG_TID + 4.
Definition OFFSET_LOG_DATA : Z := OFFSET_PREV_LSN + 4.
Definition LOG_HEADER_SIZE : Z := OFFSET_LOG_DATA.

(** ** [LogRecord] *)

Record LogRecord := mkLog { log_type_ : Z; lsn_ : Z; log_tot_len_ : Z; log_tid_ : Z; prev_lsn_ : Z }.

Definition log_serialize (r : LogRecord) (dest : bytes) : result bytes :=
  dest ← put dest OFFSET_LOG_TYPE (int_bytes (log_type_ r));
  dest ← put dest OFFSET_LOG_LSN (int_bytes (lsn_ r));
  dest ← put dest OFFSET_LOG_TOT_LEN (le_split 4 (log_tot_len_ r));
  dest ← put dest OFFSET_LOG_TID (int_bytes (log_tid_ r));
  put dest OFFSET_PREV_LSN (int_bytes (prev_lsn_ r)).

(** Bytes of the source buffer; reading past its end is undefined behaviour. *)
Definition bytes_at (src : bytes) (off len : Z) : result bytes :=
  if (off <? 0) || (len <? 0) || (zlen src <? off + len) then Crash else Ok (ztake len (zdrop off src)).

(** [memcpy] of an [int] out of the source. *)
Definition copy_s32 (src : bytes) (off : Z) : result Z := bs ← bytes_at src off 4; Ok (s32 (le_combine bs)).

(** [*reinterpret_cast<const T*>(src + off)] for a type with alignment [align], where [src]
    has the address [addr]. *)
Definition cast_load (align addr : Z) (src : bytes) (off len : Z) : result bytes :=
  if (addr + off) mod align =? 0 then bytes_at src off len else Crash.

Definition read_s32 (addr : Z) (src : bytes) (off : Z) : result Z := bs ← cast_load 4 addr src off 4; Ok (s32 (le_combine bs)).
Definition read_u32 (addr : Z) (src : bytes) (off : Z) : result Z := bs ← cast_load 4 addr src off 4; Ok (le_combine bs).

Definition log_deserialize (addr : Z) (src : bytes) : result LogRecord :=
  type ← read_s32 addr src OFFSET_LOG_TYPE;
  lsn ← read_s32 addr src OFFSET_LOG_LSN;
  tot_len ← read_u32 addr src OFFSET_LOG_TOT_LEN;
  tid ← read_s32 addr src OFFSET_LOG_TID;
  prev ← read_s32 addr src OFFSET_PREV_LSN;
  Ok (mkLog type lsn tot_len tid prev).

(** ** [BeginLogRecord] *)

Definition new_begin_log (txn_id : Z) : LogRecord := mkLog LOG_begin INVALID_LSN LOG_HEADER_SIZE txn_id INVALID_LSN.

(** ** [InsertLogRecord] *)

Record InsertLogRecord := mkInsertLog { insert_base : LogRecord; insert_value_ : bytes; insert_rid_ : Rid; table_name_ : bytes }.

(** [log_tot_len_] is 32 bits wide. *)
Definition new_insert_log (txn_id : Z) (insert_value : bytes) (rid : Rid) (table_name : bytes) : InsertLogRecord :=
  let len := u32 (LOG_HEADER_SIZE + 4) in
  let len := u32 (len + zlen insert_value) in
  let len := u32 (len + sizeof_Rid) in
  let len := u32 (len + (8 + zlen table_name)) in
  mkInsertLog (mkLog LOG_INSERT INVALID_LSN len txn_id INVALID_LSN) insert_value rid table_name.

Definition insert_serialize (r : InsertLogRecord) (dest : bytes) : result bytes :=
  dest ← log_serialize (insert_base r) dest;
  let offset := OFFSET_LOG_DATA in
  dest ← put dest offset (int_bytes (zlen (insert_value_ r)));
  let offset := offset + 4 in
  dest ← put dest offset (insert_value_ r);
  let offset := offset + zlen (insert_value_ r) in
  dest ← put dest offset (int_bytes (page_no (insert_rid_ r)) ++ int_bytes (slot_no (insert_rid_ r)));
  let offset := offset + sizeof_Rid in
  dest ← put dest offset (le_split 8 (zlen (table_name_ r)));
  let offset := offset + 8 in
  put dest offset (table_name_ r).

(** [Rid] has the alignment of an [int], [size_t] that of 8 bytes. *)
Definition insert_deserialize (addr : Z) (src : bytes) : result InsertLogRecord :=
  base ← log_deserialize addr src;
  size ← copy_s32 src OFFSET_LOG_DATA;
  _ ← throw_if ((size <? 0) || (RM_MAX_RECORD_SIZE <? size)) (InvalidRecordSizeError size);
  value ← bytes_at src (OFFSET_LOG_DATA + 4) size;
  let offset := OFFSET_LOG_DATA + size + 4 in
  page ← read_s32 addr src offset;
  slot ← read_s32 addr src (offset + 4);
  let offset := offset + sizeof_Rid in
  name_size ← cast_load 8 addr src offset 8;
  let offset := offset + 8 in
  name ← bytes_at src offset (le_combine name_size);
  Ok (mkInsertLog base value (mkRid page slot) name).

(** ** [LogBuffer] *)

Definition LOG_BUFFER_SIZE : Z := 1024 * PAGE_SIZE.

Record LogBuffer := mkLogBuffer { buffer_ : bytes; offset_ : Z }.

Definition LogBuffer_new : LogBuffer := mkLogBuffer (replicate (Z.to_nat (LOG_BUFFER_SIZE + 1)) Byte.x00) 0.

(** Both are [int]: a sum outside its range is undefined. *)
Definition log_is_full (b : LogBuffer) (append_size : Z) : result bool :=
  if (offset_ b + append_size <? - INT_MAX - 1) || (INT_MAX <? offset_ b + append_size) then Crash
  else Ok (LOG_BUFFER_SIZE <? offset_ b + append_size).

(** ** Round trips *)

(** Consecutive writes, as one. *)
Lemma put_next pre rest bs : zlen bs ≤ zlen rest → put (pre ++ rest) (zlen pre) bs = Ok ((pre ++ bs) ++ zdrop (zlen bs) rest).
Proof.
  intros Hl. pose proof (zlen_nonneg pre). unfold put. rewrite zlen_app.
  rewrite (proj2 (Z.ltb_ge _ 0)), (proj2 (Z.ltb_ge _ (zlen pre + zlen bs))) by lia. cbn. f_equal.
  rewrite ztake_app_exact by done. rewrite <- app_assoc. do 2 f_equal.
  unfold zdrop, zlen in *. rewrite drop_app_ge by lia. f_equal. lia.
Qed.

Lemma bytes_at_next pre bs rest off len : zlen pre = off → zlen bs = len → bytes_at (pre ++ bs ++ rest) off len = Ok bs.
Proof.
  intros <- <-. pose proof (zlen_nonneg pre). pose proof (zlen_nonneg bs). pose proof (zlen_nonneg rest).
  unfold bytes_at. rewrite !zlen_app. rewrite !(proj2 (Z.ltb_ge _ _)) by lia. cbn.
  by rewrite zdrop_app_exact, ztake_app_exact.
Qed.

Lemma copy_s32_next pre z rest off : zlen pre = off → is_s32 z → copy_s32 (pre ++ int_bytes z ++ rest) off = Ok z.
Proof.
  intros Hp Hz. unfold copy_s32. rewrite bytes_at_next by (done || apply int_bytes_length). step_ok. f_equal.
  unfold int_bytes. rewrite le_combine_split. change (Z.of_nat 4 * 8) with 32. fold (u32 (u32 z)).
  rewrite (u32_small (u32 z)) by apply u32_range. by apply s32_u32.
Qed.

Lemma cast_load_aligned align addr src off len : (addr + off) mod align = 0 → cast_load align addr src off len = bytes_at src off len.
Proof. intros Ha. unfold cast_load. by rewrite Ha. Qed.

Lemma cast_load_misaligned align addr src off len : (addr + off) mod align ≠ 0 → cast_load align addr src off len = Crash.
Proof. intros Ha%Z.eqb_neq. unfold cast_load. by rewrite Ha. Qed.

(** The same, for a source that is known to have this form. *)
Lemma copy_s32_at src pre z rest off : src = pre ++ int_bytes z ++ rest → zlen pre = off → is_s32 z → copy_s32 src off = Ok z.
Proof. intros ->. apply copy_s32_next. Qed.
Lemma read_s32_at src pre z rest addr off : (addr + off) mod 4 = 0 → src = pre ++ int_bytes z ++ rest → zlen pre = off → is_s32 z →
  read_s32 addr src off = Ok z.
Proof. intros Ha. unfold read_s32. rewrite cast_load_aligned by done. apply copy_s32_at. Qed.
Lemma bytes_at_at src pre bs rest off len : src = pre ++ bs ++ rest → zlen pre = off → zlen bs = len → bytes_at src off len = Ok bs.
Proof. intros ->. apply bytes_at_next. Qed.
Lemma read_u32_at src pre z rest addr off : (addr + off) mod 4 = 0 → src = pre ++ le_split 4 z ++ rest → zlen pre = off → is_u32 z →
  read_u32 addr src off = Ok z.
Proof.
  intros Ha Hs Hp Hz. unfold read_u32. rewrite cast_load_aligned by done. rewrite (bytes_at_at _ _ _ _ _ _ Hs Hp) by apply zlen_le_split.
  step_ok. f_equal. rewrite le_combine_split. change (Z.of_nat 4 * 8) with 32. by apply u32_small.
Qed.

(** The bytes of the header and of an INSERT record. *)
Definition log_header_bytes (r : LogRecord) : bytes :=
  int_bytes (log_type_ r) ++ int_bytes (lsn_ r) ++ le_split 4 (log_tot_len_ r) ++ int_bytes (log_tid_ r) ++ int_bytes (prev_lsn_ r).

Definition insert_log_bytes (r : InsertLogRecord) : bytes :=
  log_header_bytes (insert_base r) ++ int_bytes (zlen (insert_value_ r)) ++ insert_value_ r ++
  (int_bytes (page_no (insert_rid_ r)) ++ int_bytes (slot_no (insert_rid_ r))) ++
  le_split 8 (zlen (table_name_ r)) ++ table_name_ r.

Record log_ok (r : LogRecord) : Prop := {
  lo_type : is_s32 (log_type_ r); lo_lsn : is_s32 (lsn_ r); lo_len : is_u32 (log_tot_len_ r);
  lo_tid : is_s32 (log_tid_ r); lo_prev : is_s32 (prev_lsn_ r) }.

Lemma zlen_log_header r : zlen (log_header_bytes r) = LOG_HEADER_SIZE.
Proof. unfold log_header_bytes. by rewrite !zlen_app, !int_bytes_length, zlen_le_split. Qed.

Lemma log_serialize_bytes r dest : LOG_HEADER_SIZE ≤ zlen dest →
  log_serialize r dest = Ok (log_header_bytes r ++ zdrop LOG_HEADER_SIZE dest).
Proof.
  intros Hd. unfold LOG_HEADER_SIZE, OFFSET_LOG_DATA, OFFSET_PREV_LSN, OFFSET_LOG_TID, OFFSET_LOG_TOT_LEN, OFFSET_LOG_LSN in *.
  unfold log_serialize. change (put dest OFFSET_LOG_TYPE) with (put ([] ++ dest) (zlen (@nil byte))).
  rewrite put_next by (rewrite int_bytes_length; lia). step_ok. rewrite app_nil_l.
  assert (Hstep : ∀ pre rest bs off, zlen pre = off → zlen bs = 4 → 4 ≤ zlen rest →
    put (pre ++ rest) off bs = Ok ((pre ++ bs) ++ zdrop 4 rest)).
  { intros pre rest bs off <- <- Hr. by apply put_next. }
  unfold OFFSET_PREV_LSN, OFFSET_LOG_TID, OFFSET_LOG_TOT_LEN, OFFSET_LOG_LSN.
  assert (Hrest : ∀ n, 0 ≤ n ≤ 16 → 4 ≤ zlen (zdrop n dest)) by (intros n Hn; rewrite zlen_zdrop by lia; lia).
  rewrite int_bytes_length.
  rewrite Hstep by (rewrite ?zlen_app, ?int_bytes_length, ?zlen_le_split; first [done|apply Hrest; lia]). step_ok.
  rewrite zdrop_zdrop by lia.
  rewrite Hstep by (rewrite ?zlen_app, ?int_bytes_length, ?zlen_le_split; first [done|apply Hrest; lia]). step_ok.
  rewrite zdrop_zdrop by lia.
  rewrite Hstep by (rewrite ?zlen_app, ?int_bytes_length, ?zlen_le_split; first [done|apply Hrest; lia]). step_ok.
  rewrite zdrop_zdrop by lia.
  rewrite Hstep by (rewrite ?zlen_app, ?int_bytes_length, ?zlen_le_split; first [done|apply Hrest; lia]).
  rewrite zdrop_zdrop by lia. unfold log_header_bytes. by rewrite <- !app_assoc.
Qed.

Lemma log_deserialize_bytes addr r rest : addr mod 4 = 0 → log_ok r → log_deserialize addr (log_header_bytes r ++ rest) = Ok r.
Proof.
  intros Ha [H1 H2 H3 H4 H5]. assert (Hal : ∀ k, (addr + k * 4) mod 4 = 0) by (intros k; by rewrite Z_mod_plus_full).
  unfold log_deserialize, log_header_bytes. rewrite <- !app_assoc. set (src := _ ++ _).
  set (h1 := int_bytes (log_type_ r)) in src. set (h2 := int_bytes (lsn_ r)) in src.
  set (h3 := le_split 4 (log_tot_len_ r)) in src. set (h4 := int_bytes (log_tid_ r)) in src.
  assert (L1 : zlen h1 = 4) by apply int_bytes_length. assert (L2 : zlen h2 = 4) by apply int_bytes_length.
  assert (L3 : zlen h3 = 4) by apply zlen_le_split. assert (L4 : zlen h4 = 4) by apply int_bytes_length.
  rewrite (read_s32_at src [] (log_type_ r) _ addr OFFSET_LOG_TYPE (Hal 0) eq_refl eq_refl H1). step_ok.
  erewrite (read_s32_at src h1 (lsn_ r) _ addr OFFSET_LOG_LSN (Hal 1)); [|reflexivity|by rewrite ?zlen_app, ?L1, ?L2, ?L3, ?L4|done]. step_ok.
  erewrite (read_u32_at src (h1 ++ h2) (log_tot_len_ r) _ addr OFFSET_LOG_TOT_LEN (Hal 2)); [|by rewrite <- !app_assoc|by rewrite ?zlen_app, ?L1, ?L2, ?L3, ?L4|done]. step_ok.
  erewrite (read_s32_at src (h1 ++ h2 ++ h3) (log_tid_ r) _ addr OFFSET_LOG_TID (Hal 3)); [|by rewrite <- !app_assoc|by rewrite ?zlen_app, ?L1, ?L2, ?L3, ?L4|done]. step_ok.
  erewrite (read_s32_at src (h1 ++ h2 ++ h3 ++ h4) (prev_lsn_ r) _ addr OFFSET_PREV_LSN (Hal 4)); [|by rewrite <- !app_assoc|by rewrite ?zlen_app, ?L1, ?L2, ?L3, ?L4|done]. step_ok.
  by destruct r.
Qed.

(** What the constructor announces, when it does not wrap around. *)
Definition insert_log_size (r : InsertLogRecord) : Z :=
  LOG_HEADER_SIZE + 4 + zlen (insert_value_ r) + sizeof_Rid + 8 + zlen (table_name_ r).

Lemma zlen_insert_log r : zlen (insert_log_bytes r) = insert_log_size r.
Proof.
  unfold insert_log_bytes, insert_log_size. rewrite !zlen_app, zlen_log_header, !int_bytes_length, zlen_le_split.
  unfold sizeof_Rid. lia.
Qed.

Lemma insert_serialize_bytes r dest : insert_log_size r ≤ zlen dest →
  insert_serialize r dest = Ok (insert_log_bytes r ++ zdrop (insert_log_size r) dest).
Proof.
  intros Hd. pose proof (zlen_nonneg (insert_value_ r)) as Hv. pose proof (zlen_nonneg (table_name_ r)) as Ht.
  unfold insert_log_size, sizeof_Rid in Hd. unfold insert_serialize.
  assert (H20 : LOG_HEADER_SIZE = 20) by done. change OFFSET_LOG_DATA with LOG_HEADER_SIZE.
  rewrite log_serialize_bytes by lia. step_ok.
  assert (Hstep : ∀ pre n bs off, zlen pre = off → n = off → 0 ≤ n → off + zlen bs ≤ zlen dest →
    put (pre ++ zdrop n dest) off bs = Ok ((pre ++ bs) ++ zdrop (n + zlen bs) dest)).
  { intros pre n bs off <- -> Hn Hr. pose proof (zlen_nonneg bs). rewrite put_next by (rewrite zlen_zdrop by lia; lia).
    by rewrite zdrop_zdrop by lia. }
  cbv zeta. unfold sizeof_Rid.
  do 4 (rewrite Hstep by (rewrite ?zlen_app, ?zlen_log_header, ?int_bytes_length, ?zlen_le_split; lia); step_ok).
  rewrite Hstep by (rewrite ?zlen_app, ?zlen_log_header, ?int_bytes_length, ?zlen_le_split; lia).
  rewrite !zlen_app, !int_bytes_length, zlen_le_split. unfold insert_log_bytes, insert_log_size, sizeof_Rid.
  rewrite <- !app_assoc. repeat f_equal; lia.
Qed.

(** Where every cast of [deserialize] is aligned, for a value of [n] bytes. *)
Definition casts_aligned (addr n : Z) : bool := (addr mod 4 =? 0) && ((addr + n) mod 8 =? 0).

Lemma insert_deserialize_misaligned addr r rest : log_ok (insert_base r) → zlen (insert_value_ r) ≤ RM_MAX_RECORD_SIZE →
  is_s32 (page_no (insert_rid_ r)) → is_s32 (slot_no (insert_rid_ r)) →
  casts_aligned addr (zlen (insert_value_ r)) = false → insert_deserialize addr (insert_log_bytes r ++ rest) = Crash.
Proof.
  intros Hok Hv Hp Hs Ha. pose proof (zlen_nonneg (insert_value_ r)) as Hv0. unfold RM_MAX_RECORD_SIZE in Hv.
  destruct (Z.eqb_spec (addr mod 4) 0) as [H4|H4].
  2:{ unfold insert_deserialize, log_deserialize, read_s32.
      by rewrite (cast_load_misaligned 4 addr _ OFFSET_LOG_TYPE 4) by (unfold OFFSET_LOG_TYPE; by rewrite Z.add_0_r). }
  unfold casts_aligned in Ha. rewrite H4 in Ha. cbn in Ha. apply Z.eqb_neq in Ha.
  unfold insert_deserialize, insert_log_bytes. rewrite <- !app_assoc. rewrite log_deserialize_bytes by done. step_ok.
  set (src := _ ++ _). set (h := log_header_bytes (insert_base r)) in src. set (v := insert_value_ r) in *.
  assert (Hh : zlen h = LOG_HEADER_SIZE) by apply zlen_log_header. set (n := int_bytes (zlen v)) in src.
  assert (Hn : zlen n = 4) by apply int_bytes_length.
  assert (HD : OFFSET_LOG_DATA = 20) by done. change LOG_HEADER_SIZE with OFFSET_LOG_DATA in Hh.
  set (p := int_bytes (page_no (insert_rid_ r))) in src.
  erewrite (copy_s32_at src h (zlen v)); [|reflexivity|done|unfold is_s32; lia]. step_ok.
  rewrite (proj2 (Z.ltb_ge _ _)), (proj2 (Z.ltb_ge RM_MAX_RECORD_SIZE _)) by (unfold RM_MAX_RECORD_SIZE; lia).
  change (throw_if (false || false) ?e) with (Ok tt). step_ok. cbv zeta. unfold sizeof_Rid.
  erewrite (bytes_at_at src (h ++ n) v _ (OFFSET_LOG_DATA + 4) (zlen v)); [|by rewrite <- !app_assoc|rewrite zlen_app; lia|done]. step_ok.
  destruct (Z.eqb_spec (zlen v mod 4) 0) as [Hv4|Hv4].
  - erewrite (read_s32_at src (h ++ n ++ v) _ _ addr (OFFSET_LOG_DATA + zlen v + 4)); [|Z.div_mod_to_equations; lia|by rewrite <- !app_assoc|rewrite !zlen_app; lia|exact Hp]. step_ok.
    erewrite (read_s32_at src (h ++ n ++ v ++ p) _ _ addr (OFFSET_LOG_DATA + zlen v + 4 + 4)); [|Z.div_mod_to_equations; lia|by rewrite <- !app_assoc|rewrite !zlen_app; unfold p; rewrite int_bytes_length; lia|exact Hs]. step_ok.
    rewrite cast_load_misaligned; [done|]. intros E. apply Ha. Z.div_mod_to_equations; lia.
  - unfold read_s32. rewrite (cast_load_misaligned 4 addr _ (OFFSET_LOG_DATA + zlen v + 4) 4); [done|]. Z.div_mod_to_equations; lia.
Qed.

Lemma insert_deserialize_bytes addr r rest : casts_aligned addr (zlen (insert_value_ r)) = true → log_ok (insert_base r) → zlen (insert_value_ r) ≤ RM_MAX_RECORD_SIZE →
  is_s32 (page_no (insert_rid_ r)) → is_s32 (slot_no (insert_rid_ r)) → is_u64 (zlen (table_name_ r)) →
  insert_deserialize addr (insert_log_bytes r ++ rest) = Ok r.
Proof.
  intros [H4%Z.eqb_eq H8%Z.eqb_eq]%andb_prop Hok Hv Hp Hs Ht. pose proof (zlen_nonneg (insert_value_ r)) as Hv0. unfold RM_MAX_RECORD_SIZE in Hv.
  unfold insert_deserialize, insert_log_bytes. rewrite <- !app_assoc. rewrite log_deserialize_bytes by done. step_ok.
  set (src := _ ++ _). set (h := log_header_bytes (insert_base r)) in src. set (v := insert_value_ r) in *.
  assert (Hh : zlen h = LOG_HEADER_SIZE) by apply zlen_log_header. set (n := int_bytes (zlen v)) in src.
  assert (Hn : zlen n = 4) by apply int_bytes_length.
  assert (HD : OFFSET_LOG_DATA = 20) by done. change LOG_HEADER_SIZE with OFFSET_LOG_DATA in Hh.
  set (p := int_bytes (page_no (insert_rid_ r))) in src. set (sl := int_bytes (slot_no (insert_rid_ r))) in src.
  set (nl := le_split 8 (zlen (table_name_ r))) in src.
  erewrite (copy_s32_at src h (zlen v)); [|reflexivity|done|unfold is_s32; lia]. step_ok.
  rewrite (proj2 (Z.ltb_ge _ _)), (proj2 (Z.ltb_ge RM_MAX_RECORD_SIZE _)) by (unfold RM_MAX_RECORD_SIZE; lia).
  change (throw_if (false || false) ?e) with (Ok tt). step_ok. cbv zeta. unfold sizeof_Rid.
  erewrite (bytes_at_at src (h ++ n) v _ (OFFSET_LOG_DATA + 4) (zlen v)); [|by rewrite <- !app_assoc|rewrite zlen_app; lia|done]. step_ok.
  erewrite (read_s32_at src (h ++ n ++ v) _ _ addr (OFFSET_LOG_DATA + zlen v + 4)); [|Z.div_mod_to_equations; lia|by rewrite <- !app_assoc|rewrite !zlen_app; lia|exact Hp]. step_ok.
  erewrite (read_s32_at src (h ++ n ++ v ++ p) _ _ addr (OFFSET_LOG_DATA + zlen v + 4 + 4)); [|Z.div_mod_to_equations; lia|by rewrite <- !app_assoc|rewrite !zlen_app; unfold p; rewrite int_bytes_length; lia|exact Hs]. step_ok.
  rewrite cast_load_aligned by (Z.div_mod_to_equations; lia).
  erewrite (bytes_at_at src (h ++ n ++ v ++ p ++ sl) nl _ (OFFSET_LOG_DATA + zlen v + 4 + 8) 8);
    [|by rewrite <- !app_assoc|rewrite !zlen_app; unfold p, sl; rewrite !int_bytes_length; lia|apply zlen_le_split]. step_ok.
  erewrite (bytes_at_at src (h ++ n ++ v ++ p ++ sl ++ nl) (table_name_ r));
    [|by rewrite <- !app_assoc|rewrite !zlen_app; unfold p, sl, nl; rewrite !int_bytes_length, zlen_le_split; lia|].
  - step_ok. destruct r as [base value [page slot] name]. done.
  - unfold nl. rewrite le_combine_split. change (Z.of_nat 8 * 8) with 64. symmetry. by apply u64_small.
Qed.

(** C38. An INSERT log record built by its constructor over a row, with whatever LSNs the
    log manager gives it, and the log buffer: if its length is an [int], the length in the
    record is the number of bytes it takes.  Converted to [int], as a call of [is_full]
    converts it, it makes [is_full] say exactly whether so many bytes fit, unless the sum
    overflows.  When they fit, [serialize] writes them at the offset of the buffer, inside
    the buffer and nowhere else.  [deserialize] then reads the same record back if the
    address is a multiple of 4 and address and row together are a multiple of 8; at any
    other address one of its casts is misaligned, which is undefined. *)
Theorem log_insert_roundtrip txn_id value rid table_name lsn prev (b : LogBuffer) :
  is_s32 txn_id → is_s32 (page_no rid) → is_s32 (slot_no rid) → is_s32 lsn → is_s32 prev →
  0 < zlen value ≤ RM_MAX_RECORD_SIZE → zlen table_name ≤ INT_MAX - 1024 →
  zlen (buffer_ b) = LOG_BUFFER_SIZE + 1 → 0 ≤ offset_ b ≤ LOG_BUFFER_SIZE →
  let r0 := new_insert_log txn_id value rid table_name in
  let r := mkInsertLog (mkLog LOG_INSERT lsn (log_tot_len_ (insert_base r0)) txn_id prev) value rid table_name in
  let len := log_tot_len_ (insert_base r) in
  len = zlen (insert_log_bytes r) ∧
  log_is_full b (s32 len) =
    (if INT_MAX <? offset_ b + len then Crash else Ok (bool_decide (LOG_BUFFER_SIZE < offset_ b + zlen (insert_log_bytes r)))) ∧
  (log_is_full b (s32 len) = Ok false →
   ∃ tail', insert_serialize r (zdrop (offset_ b) (buffer_ b)) = Ok tail' ∧
     zlen tail' = zlen (zdrop (offset_ b) (buffer_ b)) ∧
     zdrop len tail' = zdrop (offset_ b + len) (buffer_ b) ∧
     ∀ addr, insert_deserialize addr tail' = if (addr mod 4 =? 0) && ((addr + zlen value) mod 8 =? 0) then Ok r else Crash).
Proof.
  intros Htx Hp Hs Hl Hpr [Hv0 Hv] Ht Hb [Ho Ho2] r0 r. pose proof (zlen_nonneg table_name) as Ht0.
  unfold RM_MAX_RECORD_SIZE in Hv. unfold INT_MAX, LOG_BUFFER_SIZE, PAGE_SIZE in *.
  assert (Hlen : log_tot_len_ (insert_base r) = insert_log_size r ∧ 0 ≤ insert_log_size r < 2 ^ 31).
  { unfold r, r0, new_insert_log, insert_log_size. cbn [insert_base log_tot_len_ insert_value_ table_name_].
    unfold LOG_HEADER_SIZE, OFFSET_LOG_DATA, OFFSET_PREV_LSN, OFFSET_LOG_TID, OFFSET_LOG_TOT_LEN, OFFSET_LOG_LSN, sizeof_Rid.
    unfold u32. rewrite !Zplus_mod_idemp_l. rewrite (Z.mod_small (_ + zlen value)) by lia. rewrite Z.mod_small; lia. }
  destruct Hlen as [Hlen Hsz]. cbv zeta. rewrite Hlen, zlen_insert_log.
  assert (Hs32 : s32 (insert_log_size r) = insert_log_size r) by (unfold s32; rewrite Z.mod_small; lia). rewrite Hs32.
  assert (Hfull : log_is_full b (insert_log_size r) = if 2 ^ 31 - 1 <? offset_ b + insert_log_size r then Crash
    else Ok (bool_decide (1024 * 4096 < offset_ b + insert_log_size r))).
  { unfold log_is_full. rewrite (proj2 (Z.ltb_ge (_ + _) (- INT_MAX - 1))) by (unfold INT_MAX; lia). cbn [orb]. unfold INT_MAX, LOG_BUFFER_SIZE, PAGE_SIZE.
    destruct (_ <? _); [done|]. f_equal. symmetry. destruct (Z.ltb_spec (1024 * 4096) (offset_ b + insert_log_size r)); [by apply bool_decide_eq_true_2|apply bool_decide_eq_false_2; lia]. }
  split; [done|]. split; [done|]. rewrite Hfull. destruct (_ <? _); [done|]. intros [= Hfits%bool_decide_eq_false].
  assert (Hd : insert_log_size r ≤ zlen (zdrop (offset_ b) (buffer_ b))) by (rewrite zlen_zdrop by lia; lia).
  eexists. split; [by apply insert_serialize_bytes|]. split_and!.
  - rewrite zlen_app, zlen_insert_log, (zlen_zdrop (insert_log_size r)) by lia. lia.
  - rewrite zdrop_app_exact by apply zlen_insert_log. rewrite zdrop_zdrop by lia. done.
  - assert (Hok : log_ok (insert_base r)) by (split; cbn; try done; apply u32_range).
    intros addr. fold (casts_aligned addr (zlen value)). destruct (casts_aligned addr (zlen value)) eqn:Ea.
    + apply insert_deserialize_bytes; try done. unfold is_u64, r; cbn [table_name_]; lia.
    + by apply insert_deserialize_misaligned.
Qed.

(** A row of four bytes, read back where address and row fit, and eight bytes further on
    where they do not. *)
Lemma log_insert_roundtrip_witness :
  let r0 := new_insert_log 3 (str "abcd") (mkRid 1 2) (str "t") in
  let r := mkInsertLog (mkLog LOG_INSERT 9 (log_tot_len_ (insert_base r0)) 3 8) (str "abcd") (mkRid 1 2) (str "t") in
  ∃ tail', insert_serialize r (zdrop (offset_ LogBuffer_new) (buffer_ LogBuffer_new)) = Ok tail' ∧
    insert_deserialize 4 tail' = Ok r ∧ insert_deserialize 8 tail' = Crash.
Proof.
  destruct (log_insert_roundtrip 3 (str "abcd") (mkRid 1 2) (str "t") 9 8 LogBuffer_new) as (_ & _ & H).
  1-5: unfold is_s32; cbn; lia.
  1-2: vm_compute; first [discriminate|split; [reflexivity|discriminate]].
  1: unfold LogBuffer_new, zlen; cbn [buffer_]; rewrite length_replicate; rewrite Z2Nat.id; [reflexivity|unfold LOG_BUFFER_SIZE, PAGE_SIZE; lia].
  1: cbn; unfold LOG_BUFFER_SIZE, PAGE_SIZE; lia.
  destruct H as (tail' & Hs & _ & _ & Hd); [vm_compute; reflexivity|].
  exists tail'. split; [exact Hs|]. split; [exact (Hd 4)|exact (Hd 8)].
Defined.
