(* ===== verification/LogMemory.v ===== *)
(** * Log records in memory and on the screen

    Models the members of [src/src/recovery/log_manager.h] that [Log] leaves out: an
    [InsertLogRecord] as an object with pointers (its constructor, [deserialize] and the
    implicit destructor over the heap of [RmRecord]), and [format_print].

    [insert_log_leaks]: an INSERT record never gives back the block of its table name.
    [insert_print_defined]: when printing one stays inside its buffers. *)

From S2P Require Import Prelude Errors Common Catalog Record RecordFacts IndexFile WireText Disk System Execution BufferPool Log.

(** ** The object *)

(** [table_name_] is a block or null. *)
Record InsertLogObject := mkInsertObject {
  io_base : LogRecord; io_value : RmRecord.t; io_rid : Rid; io_name : option positive; io_name_size : Z }.

(** [InsertLogRecord()]; the transaction is [INVALID_TXN_ID]. *)
Definition InsertLog_default : InsertLogObject :=
  mkInsertObject (mkLog LOG_INSERT INVALID_LSN LOG_HEADER_SIZE (-1) INVALID_LSN) RmRecord.empty (mkRid INVALID_PAGE_ID (-1)) None 0.

Definition InsertLog_construct (h : RmRecord.heap) (txn_id : Z) (insert_value : RmRecord.t) (rid : Rid) (table_name : bytes)
  : result (RmRecord.heap * InsertLogObject) :=
  let o := InsertLog_default in
  '(h, v) ← RmRecord.copy_assign h (io_value o) insert_value;
  let len := u32 (LOG_HEADER_SIZE + 4) in
  let len := u32 (len + RmRecord.size v) in
  let len := u32 (len + sizeof_Rid) in
  let '(l, h) := RmRecord.new h table_name in
  let len := u32 (len + (8 + zlen table_name)) in
  Ok (h, mkInsertObject (mkLog LOG_INSERT INVALID_LSN len txn_id INVALID_LSN) v rid (Some l) (zlen table_name)).

(** The implicit destructor: that of [insert_value_]; a pointer has none. *)
Definition InsertLog_destroy (h : RmRecord.heap) (o : InsertLogObject) : result RmRecord.heap :=
  '(h, _) ← RmRecord.release h (io_value o); Ok h.

Definition InsertLog_deserialize (h : RmRecord.heap) (o : InsertLogObject) (addr : Z) (src : bytes) : result (RmRecord.heap * InsertLogObject) :=
  base ← log_deserialize addr src;
  '(h, v) ← RmRecord.Deserialize h (io_value o) (Some (zdrop OFFSET_LOG_DATA src));
  let offset := OFFSET_LOG_DATA + RmRecord.size v + 4 in
  page ← read_s32 addr src offset;
  slot ← read_s32 addr src (offset + 4);
  let offset := offset + sizeof_Rid in
  name_size ← cast_load 8 addr src offset 8;
  let offset := offset + 8 in
  name ← bytes_at src offset (le_combine name_size);
  let '(l, h) := RmRecord.new h name in
  Ok (h, mkInsertObject base v (mkRid page slot) (Some l) (zlen name)).

(** ** Printing *)

(** [LogTypeStr[i]]; an index outside is undefined. *)
Definition LogTypeStr (i : Z) : result bytes :=
  match i with
  | 0 => Ok (str "UPDATE") | 1 => Ok (str "INSERT") | 2 => Ok (str "DELETE")
  | 3 => Ok (str "BEGIN") | 4 => Ok (str "COMMIT") | 5 => Ok (str "ABORT") | _ => Crash
  end.

(** What [%s] prints: the bytes before the terminator; reading on behind the end of the
    block, or from a null pointer, is undefined. *)
Fixpoint c_string (block : bytes) : result bytes :=
  match block with
  | [] => Crash
  | ch :: block => if bool_decide (ch = Byte.x00) then Ok [] else rest ← c_string block; Ok (ch :: rest)
  end.

(** [%d] with an unsigned argument that no [int] represents is undefined. *)
Definition print_unsigned (z : Z) : result bytes := if INT_MAX <? z then Crash else Ok (to_string z).

Definition format_print (r : LogRecord) : result bytes :=
  type ← LogTypeStr (log_type_ r);
  len ← print_unsigned (log_tot_len_ r);
  Ok (str "log type in father_function: " ++ type ++ newline ++ str "Print Log Record:" ++ newline ++
      str "log_type_: " ++ type ++ newline ++ str "lsn: " ++ to_string (lsn_ r) ++ newline ++
      str "log_tot_len: " ++ len ++ newline ++ str "log_tid: " ++ to_string (log_tid_ r) ++ newline ++
      str "prev_lsn: " ++ to_string (prev_lsn_ r) ++ newline).

Definition begin_format_print (r : LogRecord) : result bytes :=
  type ← LogTypeStr (log_type_ r);
  rest ← format_print r;
  Ok (str "log type in son_function: " ++ type ++ newline ++ rest).

(** The block behind a pointer. *)
Definition block_string (h : RmRecord.heap) (p : option positive) : result bytes :=
  match p ≫= (h !!.) with Some block => c_string block | None => Crash end.

Definition insert_format_print (h : RmRecord.heap) (o : InsertLogObject) : result bytes :=
  base ← format_print (io_base o);
  value ← block_string h (RmRecord.data (io_value o));
  name ← block_string h (io_name o);
  Ok (str "insert record" ++ newline ++ base ++ str "insert_value: " ++ value ++ newline ++
      str "insert rid: " ++ to_string (page_no (io_rid o)) ++ str ", " ++ to_string (slot_no (io_rid o)) ++ newline ++
      str "table name: " ++ name ++ newline).

(** ** The blocks of a record *)

Section Facts.
Import RmRecord.

Lemma c_string_defined block : (∃ text, c_string block = Ok text) ↔ Byte.x00 ∈ block.
Proof.
  induction block as [|ch block IH]; cbn; [split; [by intros [? ?]|by intros ?%elem_of_nil]|]. rewrite elem_of_cons, <- IH.
  case_bool_decide as Hc; [by split; [left|by eexists]|]. split.
  - intros [text Ht]. right. destruct (c_string block); [by eexists|done..].
  - intros [?|[text ->]]; [done|by eexists].
Qed.

(** The objects after construction: a copy of the value, and the name in a block of its
    own. *)
Lemma construct_blocks h txn_id r v rid name : holds h r v →
  ∃ h1 o l, InsertLog_construct h txn_id r rid name = Ok (h1, o) ∧ io_name o = Some l ∧ io_rid o = rid ∧
    io_base o = insert_base (new_insert_log txn_id v rid name) ∧ h1 !! l = Some name ∧ h !! l = None ∧
    holds h1 (io_value o) v ∧ data (io_value o) ≠ Some l ∧ InsertLog_destroy h1 o = Ok (<[l := name]> h).
Proof.
  intros Hh. unfold InsertLog_construct, copy_assign. rewrite (copy_data_ok h r v Hh). cbn [InsertLog_default io_value].
  pose proof (proj1 Hh) as Hsize. destruct v as [|b v].
  - cbn [zlen length Z.of_nat Z.eqb mbind result_bind release empty allocated_ data]. rewrite Hsize. unfold new. cbn.
    do 3 eexists. split; [reflexivity|]. cbn. split_and!; try done; [by rewrite lookup_insert_eq|apply fresh_block].
  - assert (Hz : zlen (b :: v) =? 0 = false) by (apply Z.eqb_neq; unfold zlen; cbn; lia). rewrite Hz. unfold new. cbn.
    set (l1 := fresh (dom h)). set (h1 := <[l1 := b :: v]> h). set (l := fresh (dom h1)). rewrite Hsize.
    assert (Hl : h1 !! l = None) by apply fresh_block. assert (Hne : l1 ≠ l) by (intros E; unfold h1 in Hl; by rewrite E, lookup_insert_eq in Hl).
    assert (Hhl : h !! l = None) by (unfold h1 in Hl; by rewrite lookup_insert_ne in Hl).
    do 3 eexists. split; [reflexivity|]. cbn. split_and!; try done; [by rewrite lookup_insert_eq| |congruence|].
    + split; [done|]. exists l1. cbn. rewrite lookup_insert_ne by done. unfold h1. by rewrite lookup_insert_eq.
    + unfold InsertLog_destroy, release. cbn. unfold delete_block. rewrite lookup_insert_ne by done. unfold h1 at 1. rewrite lookup_insert_eq.
      cbn. f_equal. rewrite delete_insert_ne by done. unfold h1. by rewrite delete_insert_id by apply fresh_block.
Qed.

Lemma block_string_defined h r v : holds h r v → (∃ text, block_string h (data r) = Ok text) ↔ Byte.x00 ∈ v.
Proof.
  intros [_ Hd]. rewrite <- c_string_defined. unfold block_string. destruct v as [|b v].
  - destruct Hd as [-> _]. cbn. split; intros [? ?]; done.
  - destruct Hd as (l & -> & _ & Hl). cbn. by rewrite Hl.
Qed.

(** Every [InsertLogRecord] leaks its table name: constructing one over a value and
    destroying it again succeeds, releases the copy of the value, and leaves on the heap,
    beside what was there before, exactly one new block, which holds the name. *)
Theorem insert_log_leaks h txn_id r v rid name : holds h r v →
  ∃ h1 o l, InsertLog_construct h txn_id r rid name = Ok (h1, o) ∧ io_name o = Some l ∧
    InsertLog_destroy h1 o = Ok (<[l := name]> h) ∧ h !! l = None.
Proof. intros Hh. destruct (construct_blocks h txn_id r v rid name Hh) as (h1 & o & l & ? & ? & _ & _ & _ & ? & _ & _ & ?). eauto 10. Qed.

Lemma insert_log_leaks_witness :
  let h := {[1%positive := str "ab"]} : heap in
  ∃ h1 o l, InsertLog_construct h 3 (RmRecord.mk (Some 1%positive) 2 true) (mkRid 1 2) (str "t") = Ok (h1, o) ∧ io_name o = Some l ∧
    InsertLog_destroy h1 o = Ok (<[l := str "t"]> h) ∧ h !! l = None.
Proof.
  intros h. apply (insert_log_leaks h 3 (RmRecord.mk (Some 1%positive) 2 true) (str "ab")). split; [done|]. by exists 1%positive.
Defined.

(** When printing an INSERT record is defined: construction succeeds, and
    [format_print] stays inside the record's buffers exactly when both the row and the
    table name happen to contain a zero byte.  No table name does, so the call reads behind
    the name's block for every record the server could log. *)
Theorem insert_print_defined h txn_id r v rid name :
  holds h r v → log_tot_len_ (insert_base (new_insert_log txn_id v rid name)) ≤ INT_MAX →
  ∃ h1 o, InsertLog_construct h txn_id r rid name = Ok (h1, o) ∧
    ((∃ text, insert_format_print h1 o = Ok text) ↔ Byte.x00 ∈ v ∧ Byte.x00 ∈ name).
Proof.
  intros Hh Hlen. destruct (construct_blocks h txn_id r v rid name Hh) as (h1 & o & l & Hc & Hn & _ & Hb & Hl & _ & Hv & _ & _).
  exists h1, o. split; [done|]. rewrite <- (block_string_defined h1 _ v Hv), <- (c_string_defined name).
  assert (Hname : block_string h1 (io_name o) = c_string name) by (unfold block_string; rewrite Hn; cbn; by rewrite Hl).
  assert (Hbase : ∃ base, format_print (io_base o) = Ok base).
  { unfold format_print, print_unsigned. rewrite Hb. rewrite (proj2 (Z.ltb_ge _ _) Hlen). by eexists. }
  destruct Hbase as [base Hbase]. unfold insert_format_print. rewrite Hbase, Hname. cbn [mbind result_bind]. split.
  - intros [text (value & Hval & (nm & Hnm & _)%bind_ok)%bind_ok]. eauto.
  - intros [[value ->] [nm ->]]. by eexists.
Qed.

Lemma insert_print_defined_witness :
  let row := [Byte.x61; Byte.x00] in
  let h := {[1%positive := row]} : heap in
  ∃ h1 o, InsertLog_construct h 3 (RmRecord.mk (Some 1%positive) 2 true) (mkRid 1 2) (str "t") = Ok (h1, o) ∧
    ((∃ text, insert_format_print h1 o = Ok text) ↔ Byte.x00 ∈ row ∧ Byte.x00 ∈ str "t").
Proof.
  intros row h. apply (insert_print_defined h 3 (RmRecord.mk (Some 1%positive) 2 true) row (mkRid 1 2) (str "t")).
  - split; [done|]. by exists 1%positive.
  - vm_compute. discriminate.
Defined.

End Facts.
