(* ===== verification/ServerLife.v ===== *)
(** * The life of the server process

    Models [run], [create_listening_socket], [serve], [stop_clients], [close_client] and
    [handle_interrupt] of [src/src/server/server.cpp], with the control flow of
    [handle_client], as the interleaving of the main thread, the signal handler that may
    interrupt it, and one thread per client.  One step is one access to shared state or one
    system call.  What happens inside a request is [Server]; here a request is only
    something a thread is busy with until it ends.  [step] has SIGINT on the main thread;
    [process_step] at the end lets it reach any thread.  Every access to a
    [volatile sig_atomic_t] is a step of its own.

    The operating system is the descriptor table of the process.  A descriptor number is
    free again as soon as it is closed, and the next [accept] or [open] may return it:
    [misdirected] counts the calls that hit a descriptor their caller does not own. *)

From S2P Require Import Prelude.

(** ** Descriptors *)

(** A connection: its serial number, the complete units (handshake or frame) that wait to
    be read, whether [shutdown] was called, and whether the peer or the network broke it. *)
Record Conn := mkConn { conn_id : nat; pending : nat; shut : bool; broken : bool }.

Inductive Desc := ServerSocket | Connected (c : Conn) | File.

(** ** Program counters *)

(** Inside [close_client]: before the lock, before [::close], before [std::erase], before
    the unlock. *)
Inductive ClosePc := C_Lock | C_Close | C_Erase | C_Unlock.

Inductive ThreadPc :=
| T_Handshake           (** in [ReadAndCheckHandshake] *)
| T_Read                (** in [ReadFrame] *)
| T_Request             (** in [handle_request] *)
| T_Abort               (** in [abort_session_transaction] *)
| T_Closing (p : ClosePc)
| T_End.

Record Thread := mkThread { th_fd : Z; th_conn : nat; th_pc : ThreadPc }.

Inductive MainPc :=
| M_Open | M_Recover                                  (** [run], up to [serve] *)
| M_Socket | M_Bind (fd : Z) | M_BindFailed (fd : Z)  (** [create_listening_socket] *)
| M_Assign (fd : Z)                                   (** [listening_fd = ...] *)
| M_Loop | M_Load | M_Accept (fd : Z) | M_AcceptFailed
| M_Configure (fd : Z) (n : nat) | M_Discard (fd : Z) (n : nat)
| M_Register (fd : Z) (n : nat) | M_Push (fd : Z) (n : nat) | M_Unlock (fd : Z) (n : nat)
| M_Spawn (fd : Z) (n : nat) | M_Closing (fd : Z) (n : nat) (p : ClosePc)
| M_End | M_CloseListening | M_Clear                  (** the end of [serve] *)
| M_StopLock | M_Shutdown (rest : list Z) | M_StopUnlock | M_Join (i : nat)
| M_Flush | M_CloseDb | M_Done.                       (** the end of [run] *)

Inductive HandlerPc := H_Set | H_Test | H_Close | H_Clear.

Inductive Actor := Main | Client (t : nat).

#[global] Instance Actor_eq_dec : EqDecision Actor.
Proof. solve_decision. Defined.

(** ** The process *)

Record Life := mkLife {
  main : MainPc; handler : option HandlerPc; threads : list Thread;
  stop_requested : bool; listening_fd : Z;
  clients_mutex : option Actor; client_fds : list Z;
  database_open : bool; exit_code : Z;
  descs : gmap Z Desc; next_conn : nat; misdirected : nat }.

Definition set_main pc s := mkLife pc (handler s) (threads s) (stop_requested s) (listening_fd s)
  (clients_mutex s) (client_fds s) (database_open s) (exit_code s) (descs s) (next_conn s) (misdirected s).
Definition set_handler h s := mkLife (main s) h (threads s) (stop_requested s) (listening_fd s)
  (clients_mutex s) (client_fds s) (database_open s) (exit_code s) (descs s) (next_conn s) (misdirected s).
Definition set_threads ts s := mkLife (main s) (handler s) ts (stop_requested s) (listening_fd s)
  (clients_mutex s) (client_fds s) (database_open s) (exit_code s) (descs s) (next_conn s) (misdirected s).
Definition set_stop b s := mkLife (main s) (handler s) (threads s) b (listening_fd s)
  (clients_mutex s) (client_fds s) (database_open s) (exit_code s) (descs s) (next_conn s) (misdirected s).
Definition set_listening fd s := mkLife (main s) (handler s) (threads s) (stop_requested s) fd
  (clients_mutex s) (client_fds s) (database_open s) (exit_code s) (descs s) (next_conn s) (misdirected s).
Definition set_mutex m s := mkLife (main s) (handler s) (threads s) (stop_requested s) (listening_fd s)
  m (client_fds s) (database_open s) (exit_code s) (descs s) (next_conn s) (misdirected s).
Definition set_client_fds l s := mkLife (main s) (handler s) (threads s) (stop_requested s) (listening_fd s)
  (clients_mutex s) l (database_open s) (exit_code s) (descs s) (next_conn s) (misdirected s).
Definition set_database b s := mkLife (main s) (handler s) (threads s) (stop_requested s) (listening_fd s)
  (clients_mutex s) (client_fds s) b (exit_code s) (descs s) (next_conn s) (misdirected s).
Definition set_exit e s := mkLife (main s) (handler s) (threads s) (stop_requested s) (listening_fd s)
  (clients_mutex s) (client_fds s) (database_open s) e (descs s) (next_conn s) (misdirected s).
Definition set_descs d s := mkLife (main s) (handler s) (threads s) (stop_requested s) (listening_fd s)
  (clients_mutex s) (client_fds s) (database_open s) (exit_code s) d (next_conn s) (misdirected s).
Definition count_conn s := mkLife (main s) (handler s) (threads s) (stop_requested s) (listening_fd s)
  (clients_mutex s) (client_fds s) (database_open s) (exit_code s) (descs s) (S (next_conn s)) (misdirected s).
Definition misdirect (fine : bool) s := mkLife (main s) (handler s) (threads s) (stop_requested s) (listening_fd s)
  (clients_mutex s) (client_fds s) (database_open s) (exit_code s) (descs s) (next_conn s)
  (if fine then misdirected s else S (misdirected s)).

(** [Server::start] constructs the server and calls [run]. *)
Definition start_life : Life := mkLife M_Open None [] false (-1) None [] false 0 ∅ 0 0.

(** ** System calls *)

(** A call that returns a new descriptor: the kernel gives a number that is not in use. *)
Definition os_new (fd : Z) (d : Desc) (s : Life) : option Life :=
  match descs s !! fd with
  | Some _ => None
  | None => if 0 <=? fd then Some (set_descs (<[fd := d]> (descs s)) s) else None
  end.

(** [::close(fd)] by a caller that takes the descriptor for one that passes [mine]. *)
Definition os_close (mine : option Desc → bool) (fd : Z) (s : Life) : Life :=
  set_descs (delete fd (descs s)) (misdirect (mine (descs s !! fd)) s).

Definition is_conn (n : nat) (d : option Desc) : bool :=
  match d with Some (Connected c) => Nat.eqb (conn_id c) n | _ => false end.

(** Closing a number that is not open fails with [EBADF] and harms nobody. *)
Definition is_listening (d : option Desc) : bool :=
  match d with None | Some ServerSocket => true | _ => false end.

(** [::shutdown(fd, SHUT_RDWR)] *)
Definition os_shutdown (fd : Z) (s : Life) : Life :=
  match descs s !! fd with
  | Some (Connected c) =>
    set_descs (<[fd := Connected (mkConn (conn_id c) (pending c) true (broken c))]> (descs s)) s
  | _ => misdirect false s
  end.

(** Reading one unit off a connection, which blocks until one is there. *)
Definition os_read (fd : Z) (s : Life) : option Life :=
  match descs s !! fd with
  | Some (Connected (mkConn n (S p) sh br)) => Some (set_descs (<[fd := Connected (mkConn n p sh br)]> (descs s)) s)
  | _ => None
  end.

(** Reading returns without a unit: end of stream after [shutdown] or by the peer, an error,
    or a descriptor that is no connection. *)
Definition read_fails (fd : Z) (s : Life) : bool :=
  match descs s !! fd with
  | Some (Connected c) => shut c || broken c
  | _ => true
  end.

(** ** [close_client] *)

(** What a step of a thread can come back with: success, failure or a new descriptor. *)
Inductive outcome := Fine | Fails | Gives (fd : Z).

(** One step on behalf of [a]; [None] as the next counter means that the call returned. *)
Definition close_client (a : Actor) (fd : Z) (n : nat) (p : ClosePc) (s : Life) : option (Life * option ClosePc) :=
  match p with
  | C_Lock => match clients_mutex s with None => Some (set_mutex (Some a) s, Some C_Close) | Some _ => None end
  | C_Close => Some (os_close (is_conn n) fd s, Some C_Erase)
  | C_Erase => Some (set_client_fds (filter (λ x, x ≠ fd) (client_fds s)) s, Some C_Unlock)
  | C_Unlock => Some (set_mutex None s, None)
  end.

(** ** A client thread: [handle_client] *)

Definition thread_step (o : outcome) (t : nat) (th : Thread) (s : Life) : option Life :=
  let fd := th_fd th in
  let go pc s := set_threads (<[t := mkThread fd (th_conn th) pc]> (threads s)) s in
  match th_pc th, o with
  | T_Handshake, Fine => go T_Read <$> os_read fd s
  | T_Handshake, Fails => if read_fails fd s then Some (go T_Abort s) else go T_Abort <$> os_read fd s
  | T_Read, Fine => go T_Request <$> os_read fd s
  | T_Read, Fails => if read_fails fd s then Some (go T_Abort s) else go T_Abort <$> os_read fd s
  | T_Request, Fine => Some (go T_Read s)
  | T_Request, Fails => Some (go T_Abort s)
  | T_Abort, Fine => Some (go (T_Closing C_Lock) s)
  | T_Closing p, Fine =>
    '(s, next) ← close_client (Client t) fd (th_conn th) p s;
    Some (go match next with Some p => T_Closing p | None => T_End end s)
  | _, _ => None
  end.

(** ** The main thread *)

(** An exception that reaches the handler of [run]. *)
Definition run_failed (s : Life) : Life := set_main M_StopLock (set_exit 1 s).

(** [run] up to [serve], and [create_listening_socket]. *)
Definition startup_step (o : outcome) (s : Life) : option Life :=
  match main s, o with
  | M_Open, Fine => Some (set_main M_Recover (set_database true s))
  | M_Recover, Fine => Some (set_main M_Socket s)
  | M_Open, Fails | M_Recover, Fails | M_Socket, Fails => Some (run_failed s)
  | M_Socket, Gives fd => set_main (M_Bind fd) <$> os_new fd ServerSocket s
  | M_Bind fd, Fine => Some (set_main (M_Assign fd) s)
  | M_Bind fd, Fails => Some (set_main (M_BindFailed fd) s)
  | M_BindFailed fd, Fine => Some (run_failed (os_close is_listening fd s))
  | M_Assign fd, Fine => Some (set_main M_Loop (set_listening fd s))
  | _, _ => None
  end.

(** [serve]; [accept] waits for a connection as long as its descriptor is a server socket. *)
Definition serve_step (o : outcome) (s : Life) : option Life :=
  match main s, o with
  | M_Loop, Fine => Some (set_main (if stop_requested s then M_End else M_Load) s)
  | M_Load, Fine => Some (set_main (M_Accept (listening_fd s)) s)
  | M_Accept lfd, Gives fd =>
    match descs s !! lfd with
    | Some ServerSocket =>
      (λ s', set_main (M_Configure fd (next_conn s)) (count_conn s')) <$>
        os_new fd (Connected (mkConn (next_conn s) 0 false false)) s
    | _ => None
    end
  | M_Accept lfd, Fails =>
    match descs s !! lfd with Some ServerSocket => None | _ => Some (set_main M_AcceptFailed s) end
  | M_AcceptFailed, Fine => Some (set_main (if stop_requested s then M_End else M_Loop) s)
  | M_Configure fd n, Fine => Some (set_main (M_Register fd n) s)
  | M_Configure fd n, Fails => Some (set_main (M_Discard fd n) s)
  | M_Discard fd n, Fine => Some (set_main M_Loop (os_close (is_conn n) fd s))
  | M_Register fd n, Fine =>
    match clients_mutex s with None => Some (set_main (M_Push fd n) (set_mutex (Some Main) s)) | Some _ => None end
  | M_Push fd n, Fine => Some (set_main (M_Unlock fd n) (set_client_fds (client_fds s ++ [fd]) s))
  | M_Unlock fd n, Fine => Some (set_main (M_Spawn fd n) (set_mutex None s))
  | M_Spawn fd n, Fine => Some (set_main M_Loop (set_threads (threads s ++ [mkThread fd n T_Handshake]) s))
  | M_Spawn fd n, Fails => Some (set_main (M_Closing fd n C_Lock) s)
  | M_Closing fd n p, Fine =>
    '(s, next) ← close_client Main fd n p s;
    Some (set_main match next with Some p => M_Closing fd n p | None => M_Loop end s)
  | M_End, Fine => Some (set_main (if 0 <=? listening_fd s then M_CloseListening else M_StopLock) s)
  | M_CloseListening, Fine => Some (set_main M_Clear (os_close is_listening (listening_fd s) s))
  | M_Clear, Fine => Some (set_main M_StopLock (set_listening (-1) s))
  | _, _ => None
  end.

Definition ended (th : Thread) : bool := match th_pc th with T_End => true | _ => false end.

(** [stop_clients] and the rest of [run]. *)
Definition stop_step (o : outcome) (s : Life) : option Life :=
  match main s, o with
  | M_StopLock, Fine =>
    match clients_mutex s with
    | None => Some (set_main (M_Shutdown (client_fds s)) (set_mutex (Some Main) s))
    | Some _ => None
    end
  | M_Shutdown [], Fine => Some (set_main M_StopUnlock s)
  | M_Shutdown (fd :: rest), Fine => Some (set_main (M_Shutdown rest) (os_shutdown fd s))
  | M_StopUnlock, Fine => Some (set_main (M_Join 0) (set_mutex None s))
  | M_Join i, Fine =>
    match threads s !! i with
    | None => Some (set_main (if database_open s then M_Flush else M_Done) s)
    | Some th => if ended th then Some (set_main (M_Join (S i)) s) else None
    end
  | M_Flush, Fine => Some (set_main M_CloseDb s)
  | M_Flush, Fails => Some (set_main M_CloseDb (set_exit 1 s))
  | M_CloseDb, Fine => Some (set_main M_Done s)
  | M_CloseDb, Fails => Some (set_main M_Done (set_exit 1 s))
  | _, _ => None
  end.

Definition main_step (o : outcome) (s : Life) : option Life :=
  match startup_step o s with
  | Some s' => Some s'
  | None => match serve_step o s with Some s' => Some s' | None => stop_step o s end
  end.

(** ** The signal handler *)

(** One step of [handle_interrupt]; [None] as the next counter means that it returned. *)
Definition handle_interrupt (h : HandlerPc) (s : Life) : option HandlerPc * Life :=
  match h with
  | H_Set => (Some H_Test, set_stop true s)
  | H_Test => (if 0 <=? listening_fd s then Some H_Close else None, s)
  | H_Close => (Some H_Clear, os_close is_listening (listening_fd s) s)
  | H_Clear => (None, set_listening (-1) s)
  end.

(** On the main thread. *)
Definition main_handler (h : HandlerPc) (s : Life) : Life := let '(next, s) := handle_interrupt h s in set_handler next s.

(** ** Steps while the main thread handles the signal *)

Inductive label :=
| L_Main (o : outcome) | L_Thread (t : nat) (o : outcome) | L_Handler   (** the process *)
| L_Interrupt                       (** SIGINT; blocked while its handler runs *)
| L_Arrive (fd : Z)                 (** a unit arrives on a connection that is not shut down *)
| L_Break (fd : Z)                  (** the peer closes, resets or times out *)
| L_AcceptError                     (** [accept] fails: interrupted, aborted, out of descriptors *)
| L_OpenFile (fd : Z) | L_CloseFile (fd : Z).   (** the database opens or closes a file *)

(** Somebody executes database code. *)
Definition in_database (s : Life) : bool :=
  match main s with M_Open | M_Recover | M_Flush | M_CloseDb => true | _ => false end
  || existsb (λ th, match th_pc th with T_Request | T_Abort => true | _ => false end) (threads s).

Definition set_conn (fd : Z) (f : Conn → Conn) (s : Life) : option Life :=
  match descs s !! fd with
  | Some (Connected c) => Some (set_descs (<[fd := Connected (f c)]> (descs s)) s)
  | _ => None
  end.

Definition step (l : label) (s : Life) : option Life :=
  match l with
  | L_Main o => match handler s with None => main_step o s | Some _ => None end
  | L_Thread t o => th ← threads s !! t; thread_step o t th s
  | L_Handler => match handler s with Some h => Some (main_handler h s) | None => None end
  | L_Interrupt =>
    match handler s, main s with
    | None, M_Done => None
    | None, _ => Some (set_handler (Some H_Set) s)
    | _, _ => None
    end
  | L_Arrive fd =>
    match descs s !! fd with
    | Some (Connected c) =>
      if shut c then None else set_conn fd (λ c, mkConn (conn_id c) (S (pending c)) (shut c) (broken c)) s
    | _ => None
    end
  | L_Break fd => set_conn fd (λ c, mkConn (conn_id c) (pending c) (shut c) true) s
  | L_AcceptError =>
    match handler s, main s with None, M_Accept _ => Some (set_main M_AcceptFailed s) | _, _ => None end
  | L_OpenFile fd => if in_database s then os_new fd File s else None
  | L_CloseFile fd =>
    match descs s !! fd with
    | Some File => if in_database s then Some (set_descs (delete fd (descs s)) s) else None
    | _ => None
    end
  end.

Fixpoint run_labels (ls : list label) (s : Life) : option Life :=
  match ls with
  | [] => Some s
  | l :: ls => s ← step l s; run_labels ls s
  end.

Definition reachable (s : Life) : Prop := ∃ ls, run_labels ls start_life = Some s.

(** The steps that the process takes by itself. *)
Definition is_process (l : label) : bool :=
  match l with L_Main _ | L_Thread _ _ | L_Handler => true | _ => false end.

(** ** Signals on any thread

    SIGINT is sent to the process and no thread blocks it, so that the kernel may run the
    handler on any thread, and on several at the same time; a thread has the signal blocked
    only while it runs the handler itself.  [on_clients] are the handlers on client threads.

    [accept] looks its descriptor up when it is called ([P_Enter], after which the main
    thread is [waiting]) and then holds on to the socket: closing the descriptor on another
    thread does not wake it.  A signal on the main thread does, and the call is then
    restarted with the number, which is what [serve_step] says. *)

Record Process := mkProcess { life : Life; on_clients : gmap nat HandlerPc; waiting : bool }.

Definition start_process : Process := mkProcess start_life ∅ false.

Inductive process_label :=
| P_Life (l : label) | P_Enter
| P_Handle (t : nat)                (** the handler on a client thread takes a step *)
| P_Signal (t : nat).               (** SIGINT is delivered to a client thread *)

(** [accept] returns a connection although the descriptor may be closed. *)
Definition accept_waiting (fd : Z) (s : Life) : option Life :=
  (λ s', set_main (M_Configure fd (next_conn s)) (count_conn s')) <$> os_new fd (Connected (mkConn (next_conn s) 0 false false)) s.

(** A step of [step] beside handlers on client threads: a thread that runs one does nothing
    else, and a waiting [accept] returns a connection, fails, or is interrupted. *)
Definition life_step (l : label) (p : Process) : option Process :=
  match l with
  | L_Thread t _ => match on_clients p !! t with Some _ => None | None => (λ s, mkProcess s (on_clients p) (waiting p)) <$> step l (life p) end
  | L_Main (Gives fd) =>
    (λ s, mkProcess s (on_clients p) false) <$> (if waiting p then accept_waiting fd (life p) else step l (life p))
  | L_Main _ => if waiting p then None else (λ s, mkProcess s (on_clients p) false) <$> step l (life p)
  | L_Interrupt | L_AcceptError => (λ s, mkProcess s (on_clients p) false) <$> step l (life p)
  | _ => (λ s, mkProcess s (on_clients p) (waiting p)) <$> step l (life p)
  end.

Definition process_step (l : process_label) (p : Process) : option Process :=
  let s := life p in
  match l with
  | P_Life l => life_step l p
  | P_Enter =>
    match handler s, main s, waiting p with
    | None, M_Accept lfd, false => match descs s !! lfd with Some ServerSocket => Some (mkProcess s (on_clients p) true) | _ => None end
    | _, _, _ => None
    end
  | P_Signal t =>
    th ← threads s !! t;
    match on_clients p !! t, main s with
    | Some _, _ | None, M_Done => None
    | None, _ => if ended th then None else Some (mkProcess s (<[t := H_Set]> (on_clients p)) (waiting p))
    end
  | P_Handle t =>
    h ← on_clients p !! t;
    let '(next, s) := handle_interrupt h s in
    Some (mkProcess s (partial_alter (λ _, next) t (on_clients p)) (waiting p))
  end.

Fixpoint run_process (ls : list process_label) (p : Process) : option Process :=
  match ls with
  | [] => Some p
  | l :: ls => p ← process_step l p; run_process ls p
  end.

(** SIGINT is not delivered to a client thread. *)
Definition signals_main (l : process_label) : bool := match l with P_Signal _ => false | _ => true end.

Definition by_process (l : process_label) : bool :=
  match l with P_Life l => is_process l | P_Enter | P_Handle _ => true | P_Signal _ => false end.
