(* ===== verification/ServerLifeFacts.v ===== *)
(** * Facts about the life of the server process

    The invariant of [step]: ownership of descriptors under every interleaving while the main
    thread handles SIGINT, and what is true when the database is closed.  [Signals] carries
    the first over to SIGINT on any thread as far as it holds. *)

From S2P Require Import Prelude ServerLife.

(** ** Ownership

    Each actor has at most one connection it must close, at most one entry in
    [client_fds_], and holds the mutex or not. *)

Definition updated {B} (a : Actor) (b : B) (f : Actor → B) : Actor → B := λ x, if decide (x = a) then b else f x.

Definition conn_of (d : option Desc) : option nat :=
  match d with Some (Connected c) => Some (conn_id c) | _ => None end.

(** [op a]: the open connection of [a]; [rg a]: its entry in [fds]; [lk a]: [a] is inside a
    critical section. *)
Record owned (op : Actor → option (Z * nat)) (rg : Actor → option Z) (lk : Actor → bool)
    (ds : gmap Z Desc) (fds : list Z) (mx : option Actor) : Prop := {
  open_is a fd n : op a = Some (fd, n) → conn_of (ds !! fd) = Some n;
  open_unique a b fd n n' : op a = Some (fd, n) → op b = Some (fd, n') → a = b;
  open_all fd n : conn_of (ds !! fd) = Some n → ∃ a, op a = Some (fd, n);
  reg_listed fd : fd ∈ fds ↔ ∃ a, rg a = Some fd;
  reg_unique a b fd : rg a = Some fd → rg b = Some fd → a = b;
  reg_nodup : NoDup fds;
  reg_open a fd : rg a = Some fd → (∃ n, op a = Some (fd, n)) ∨ lk a = true;
  lock_held a : mx = Some a ↔ lk a = true }.

Section Owned.
Context {op : Actor → option (Z * nat)} {rg : Actor → option Z} {lk : Actor → bool}.
Context {ds : gmap Z Desc} {fds : list Z} {mx : option Actor} (H : owned op rg lk ds fds mx).

Lemma lock_unique a b : lk a = true → lk b = true → a = b.
Proof. rewrite <- !(lock_held _ _ _ _ _ _ H). congruence. Qed.

Lemma owned_ext op' rg' lk' :
  (∀ a, op' a = op a) → (∀ a, rg' a = rg a) → (∀ a, lk' a = lk a) → owned op' rg' lk' ds fds mx.
Proof.
  intros Ho Hr Hl. destruct H. split; intros *; rewrite ?Ho, ?Hr, ?Hl; try setoid_rewrite Ho; try setoid_rewrite Hr; eauto.
Qed.

Lemma owned_descs ds' : (∀ fd, conn_of (ds' !! fd) = conn_of (ds !! fd)) → owned op rg lk ds' fds mx.
Proof. intros Hd. destruct H. split; intros *; rewrite ?Hd; eauto. Qed.

Lemma owned_accept a fd c : op a = None → rg a = None → ds !! fd = None →
  owned (updated a (Some (fd, conn_id c)) op) rg lk (<[fd := Connected c]> ds) fds mx.
Proof.
  intros Ha Hr Hfd. destruct H. split; try done; unfold updated.
  - intros b x n. case_decide.
    + intros [= <- <-]. by rewrite lookup_insert_eq.
    + intros Hb. rewrite lookup_insert_ne; [by eauto|]. intros <-. apply open_is0 in Hb. by rewrite Hfd in Hb.
  - intros b b' x n n'. repeat case_decide; subst; eauto.
    + intros [= <- <-] Hb. apply open_is0 in Hb. by rewrite Hfd in Hb.
    + intros Hb [= <- <-]. apply open_is0 in Hb. by rewrite Hfd in Hb.
  - intros x n. destruct (decide (x = fd)) as [->|Hne].
    + rewrite lookup_insert_eq. intros [= <-]. exists a. by rewrite decide_True by done.
    + rewrite lookup_insert_ne by done. intros (b & Hb)%open_all0. exists b. rewrite decide_False; congruence.
  - intros b x Hb. case_decide; [congruence|eauto].
Qed.

Lemma owned_close a fd n : op a = Some (fd, n) → rg a = None ∨ lk a = true →
  owned (updated a None op) rg lk (delete fd ds) fds mx.
Proof.
  intros Ha Hr. destruct H. split; try done; unfold updated.
  - intros b x n'. case_decide; [done|]. intros Hb. rewrite lookup_delete_ne; [by eauto|].
    intros <-. by destruct (open_unique0 _ _ _ _ _ Ha Hb).
  - intros b b' x m m'. repeat case_decide; subst; eauto; done.
  - intros x m. destruct (decide (x = fd)) as [->|Hne]; [by rewrite lookup_delete_eq|].
    rewrite lookup_delete_ne by done. intros (b & Hb)%open_all0. exists b. rewrite decide_False; congruence.
  - intros b x Hb. case_decide; subst; [|eauto]. destruct Hr; [congruence|by right].
Qed.

Lemma owned_acquire a : mx = None → owned op rg (updated a true lk) ds fds (Some a).
Proof.
  intros ->. destruct H. split; try done; unfold updated.
  - intros b x Hb. case_decide; eauto.
  - intros b. case_decide; [naive_solver|]. rewrite <- (lock_held0 b). naive_solver.
Qed.

Lemma owned_release a : lk a = true → rg a = None ∨ (∃ fd n, rg a = Some fd ∧ op a = Some (fd, n)) →
  owned op rg (updated a false lk) ds fds None.
Proof.
  intros Ha Hr. assert (Hu := lock_unique a). destruct H. split; try done; unfold updated.
  - intros b x Hb. case_decide; subst; [|eauto]. left. naive_solver.
  - intros b. case_decide; [done|]. split; [done|]. intros Hb. by destruct (Hu b).
Qed.

Lemma owned_push a fd n : lk a = true → op a = Some (fd, n) → rg a = None →
  owned op (updated a (Some fd) rg) lk ds (fds ++ [fd]) mx.
Proof.
  intros Hl Ha Hr. assert (Hu := lock_unique a). destruct H.
  assert (Hnew : ∀ b, rg b ≠ Some fd).
  { intros b Hb. destruct (reg_open0 _ _ Hb) as [[n' Hn]|Hb'].
    - rewrite (open_unique0 _ _ _ _ _ Ha Hn) in Hr. congruence.
    - rewrite (Hu _ Hl Hb') in Hr. congruence. }
  split; try done; unfold updated.
  - intros x. rewrite elem_of_app, list_elem_of_singleton, reg_listed0. split.
    + intros [(b & Hb)| ->]; [exists b|exists a]; [|by rewrite decide_True].
      rewrite decide_False; [done|]. congruence.
    + intros (b & Hb). case_decide; [naive_solver|eauto].
  - intros b b' x. repeat case_decide; subst; eauto; naive_solver.
  - apply NoDup_app. split_and!; [done| |apply NoDup_singleton].
    intros x Hx ->%list_elem_of_singleton. apply reg_listed0 in Hx as [b Hb]. by destruct (Hnew b).
  - intros b x. case_decide; subst; [|eauto]. intros [= <-]. eauto.
Qed.

Lemma owned_erase a fd : rg a = Some fd →
  owned op (updated a None rg) lk ds (filter (λ x, x ≠ fd) fds) mx.
Proof.
  intros Ha. destruct H. split; try done; unfold updated.
  - intros x. rewrite list_elem_of_filter, reg_listed0. split.
    + intros [Hne (b & Hb)]. exists b. rewrite decide_False; [done|]. congruence.
    + intros (b & Hb). case_decide; [done|]. split; [|by eauto]. intros ->. by destruct (reg_unique0 _ _ _ Ha Hb).
  - intros b b' x. repeat case_decide; subst; eauto; done.
  - by apply NoDup_filter.
  - intros b x. case_decide; [done|eauto].
Qed.

(** A connection changes hands. *)
Lemma owned_move a b : a ≠ b → op b = None → rg b = None → lk a = false → lk b = false →
  owned (updated a None (updated b (op a) op)) (updated a None (updated b (rg a) rg)) lk ds fds mx.
Proof.
  intros Hab Hob Hrb Hla Hlb. destruct H. split; try done; unfold updated.
  - intros x fd n. repeat case_decide; subst; eauto; done.
  - intros x y fd n n'. repeat case_decide; subst; eauto; try done; intros Hx Hy;
      pose proof (open_unique0 _ _ _ _ _ Hx Hy); congruence.
  - intros fd n (x & Hx)%open_all0. destruct (decide (x = a)) as [->|Hne].
    + exists b. rewrite decide_False, decide_True by done. done.
    + exists x. rewrite !decide_False; [done|congruence|done].
  - intros fd. rewrite reg_listed0. split; intros (x & Hx).
    + destruct (decide (x = a)) as [->|Hne].
      * exists b. by rewrite decide_False, decide_True by done.
      * exists x. rewrite !decide_False; [done|congruence|done].
    + repeat case_decide; subst; eauto; done.
  - intros x y fd. repeat case_decide; subst; eauto; try done; intros Hx Hy;
      pose proof (reg_unique0 _ _ _ Hx Hy); congruence.
  - intros x fd. repeat case_decide; subst; eauto; [done|]. intros [?|?]%reg_open0; [by left|congruence].
Qed.

End Owned.

(** ** Who owns what, by program counter *)

Definition close_open (fd : Z) (n : nat) (p : option ClosePc) : option (Z * nat) :=
  match p with Some (C_Lock | C_Close) => Some (fd, n) | _ => None end.
Definition close_reg (fd : Z) (p : option ClosePc) : option Z :=
  match p with Some (C_Lock | C_Close | C_Erase) => Some fd | _ => None end.
Definition close_lock (p : option ClosePc) : bool :=
  match p with Some (C_Close | C_Erase | C_Unlock) => true | _ => false end.

Definition thread_open (th : Thread) : option (Z * nat) :=
  match th_pc th with
  | T_Closing p => close_open (th_fd th) (th_conn th) (Some p)
  | T_End => None
  | _ => Some (th_fd th, th_conn th)
  end.
Definition thread_reg (th : Thread) : option Z :=
  match th_pc th with T_Closing p => close_reg (th_fd th) (Some p) | T_End => None | _ => Some (th_fd th) end.
Definition thread_lock (th : Thread) : bool := match th_pc th with T_Closing p => close_lock (Some p) | _ => false end.

Definition main_open (pc : MainPc) : option (Z * nat) :=
  match pc with
  | M_Configure fd n | M_Discard fd n | M_Register fd n | M_Push fd n | M_Unlock fd n | M_Spawn fd n => Some (fd, n)
  | M_Closing fd n p => close_open fd n (Some p)
  | _ => None
  end.
Definition main_reg (pc : MainPc) : option Z :=
  match pc with
  | M_Unlock fd n | M_Spawn fd n => Some fd
  | M_Closing fd n p => close_reg fd (Some p)
  | _ => None
  end.
Definition main_lock (pc : MainPc) : bool :=
  match pc with
  | M_Push _ _ | M_Unlock _ _ | M_Shutdown _ | M_StopUnlock => true
  | M_Closing _ _ p => close_lock (Some p)
  | _ => false
  end.

Definition by_actor {B} (m d : B) (f : Thread → B) (ts : list Thread) (a : Actor) : B :=
  match a with Main => m | Client t => match ts !! t with Some th => f th | None => d end end.

Definition opens (pc : MainPc) (ts : list Thread) := by_actor (main_open pc) None thread_open ts.
Definition registers (pc : MainPc) (ts : list Thread) := by_actor (main_reg pc) None thread_reg ts.
Definition locks (pc : MainPc) (ts : list Thread) := by_actor (main_lock pc) false thread_lock ts.

Definition life_owned (s : Life) : Prop :=
  owned (opens (main s) (threads s)) (registers (main s) (threads s)) (locks (main s) (threads s))
    (descs s) (client_fds s) (clients_mutex s).

Section ByActor.
Context {B : Type} (m d : B) (f : Thread → B) (ts : list Thread).

Lemma updated_eq a b (g : Actor → B) : updated a b g a = b.
Proof. unfold updated. by rewrite decide_True. Qed.

Lemma updated_id a b (g : Actor → B) x : g a = b → updated a b g x = g x.
Proof. intros <-. unfold updated. by case_decide; subst. Qed.

Lemma by_actor_main m' a : by_actor m' d f ts a = updated Main m' (by_actor m d f ts) a.
Proof. unfold updated. by destruct a; case_decide. Qed.

Lemma by_actor_insert t th th' a : ts !! t = Some th →
  by_actor m d f (<[t := th']> ts) a = updated (Client t) (f th') (by_actor m d f ts) a.
Proof.
  intros Ht. unfold updated. destruct a as [|t']; case_decide; simplify_eq; cbn; [done| |].
  - rewrite list_lookup_insert_eq; [done|by eapply lookup_lt_Some].
  - by rewrite list_lookup_insert_ne by congruence.
Qed.

Lemma by_actor_app th a :
  by_actor m d f (ts ++ [th]) a = updated (Client (length ts)) (f th) (by_actor m d f ts) a.
Proof.
  unfold updated. destruct a as [|t]; case_decide; simplify_eq; cbn; [done| |].
  - by rewrite lookup_app_r, Nat.sub_diag by done.
  - destruct (decide (t < length ts)%nat); [by rewrite lookup_app_l|].
    rewrite lookup_app_r, (lookup_ge_None_2 ts) by lia. by rewrite (lookup_ge_None_2 [th]) by (cbn; assert (t ≠ length ts) by congruence; lia).
Qed.
End ByActor.

(** The main thread moves on without touching what it owns. *)
Lemma owned_main_step pc pc' ts ds fds mx :
  owned (opens pc ts) (registers pc ts) (locks pc ts) ds fds mx →
  main_open pc' = main_open pc → main_reg pc' = main_reg pc → main_lock pc' = main_lock pc →
  owned (opens pc' ts) (registers pc' ts) (locks pc' ts) ds fds mx.
Proof. intros H H1 H2 H3. apply (owned_ext H); intros a; unfold opens, registers, locks; by rewrite ?H1, ?H2, ?H3. Qed.

Lemma owned_thread_step pc ts t th th' ds fds mx : ts !! t = Some th →
  owned (opens pc ts) (registers pc ts) (locks pc ts) ds fds mx →
  thread_open th' = thread_open th → thread_reg th' = thread_reg th → thread_lock th' = thread_lock th →
  owned (opens pc (<[t := th']> ts)) (registers pc (<[t := th']> ts)) (locks pc (<[t := th']> ts)) ds fds mx.
Proof.
  intros Ht H H1 H2 H3. apply (owned_ext H); intros a; unfold opens, registers, locks;
    rewrite (by_actor_insert _ _ _ _ _ th) by done; apply updated_id; cbn; by rewrite Ht.
Qed.

(** ** [close_client] *)

Lemma conn_is d n : conn_of d = Some n → is_conn n d = true.
Proof. destruct d as [[]|]; cbn; try done. intros [= <-]. apply Nat.eqb_refl. Qed.

Lemma close_client_owned a fd n p s s' next op rg lk :
  owned op rg lk (descs s) (client_fds s) (clients_mutex s) →
  op a = close_open fd n (Some p) → rg a = close_reg fd (Some p) → lk a = close_lock (Some p) →
  close_client a fd n p s = Some (s', next) →
  owned (updated a (close_open fd n next) op) (updated a (close_reg fd next) rg) (updated a (close_lock next) lk)
    (descs s') (client_fds s') (clients_mutex s') ∧ misdirected s' = misdirected s.
Proof.
  intros H Ho Hr Hl. destruct p; cbn in *.
  - case_match; [done|]. intros [= <- <-]. split; [|done]. cbn.
    apply (owned_ext (owned_acquire H a ltac:(done))); intros x; [by apply updated_id..|done].
  - intros [= <- <-]. cbn. split.
    + apply (owned_ext (owned_close H a fd n Ho ltac:(by right))); intros x; [done|by apply updated_id..].
    + by rewrite (conn_is _ n) by apply (open_is _ _ _ _ _ _ H _ _ _ Ho).
  - intros [= <- <-]. split; [|done]. cbn.
    apply (owned_ext (owned_erase H a fd Hr)); intros x; [by apply updated_id|done|by apply updated_id].
  - intros [= <- <-]. split; [|done]. cbn.
    apply (owned_ext (owned_release H a Hl ltac:(by left))); intros x; [by apply updated_id..|done].
Qed.

(** ** The invariant *)

(** The descriptor of the server socket while only the main thread knows it. *)
Definition binding (pc : MainPc) : option Z :=
  match pc with M_Bind fd | M_BindFailed fd | M_Assign fd => Some fd | _ => None end.

Inductive phase := Starting | Serving | Stopping.

Definition phase_of (pc : MainPc) : phase :=
  match pc with
  | M_Open | M_Recover | M_Socket | M_Bind _ | M_BindFailed _ | M_Assign _ => Starting
  | M_StopLock | M_Shutdown _ | M_StopUnlock | M_Join _ | M_Flush | M_CloseDb | M_Done => Stopping
  | _ => Serving
  end.

(** [serve] left its loop with the server socket still open: the interrupt came before
    [listening_fd] was assigned, and no client was ever accepted. *)
Definition early_stop (pc : MainPc) : bool :=
  match pc with M_Loop | M_End | M_CloseListening | M_Clear => true | _ => false end.

Definition loop_left (pc : MainPc) : bool :=
  match pc with M_End | M_CloseListening | M_Clear => true | _ => false end.

Definition closing_listener (pc : MainPc) : bool := match pc with M_CloseListening | M_Clear => true | _ => false end.

(** The entries of [client_fds_] that [stop_clients] still has to shut down. *)
Definition undrained (pc : MainPc) : option (list Z) :=
  match pc with M_Shutdown rest => Some rest | M_StopUnlock | M_Join _ => Some [] | _ => None end.

Definition join_done (pc : MainPc) (t : nat) : bool :=
  match pc with M_Join i => t <? i | M_Flush | M_CloseDb | M_Done => true | _ => false end%nat.

Record life_inv (s : Life) : Prop := {
  i_owned : life_owned s;
  i_directed : misdirected s = 0%nat;
  i_numbers fd d : descs s !! fd = Some d → 0 ≤ fd;
  i_binding fd : binding (main s) = Some fd → descs s !! fd = Some ServerSocket;
  i_socket fd : descs s !! fd = Some ServerSocket → binding (main s) = Some fd ∨ fd = listening_fd s;
  i_starting : phase_of (main s) = Starting → listening_fd s < 0 ∧ threads s = [];
  i_stopping : phase_of (main s) = Stopping → listening_fd s < 0;
  i_listening : 0 ≤ listening_fd s → main s ≠ M_Clear → handler s ≠ Some H_Clear →
    descs s !! listening_fd s = Some ServerSocket;
  i_cleared : main s = M_Clear → 0 ≤ listening_fd s → descs s !! listening_fd s = None;
  i_early : stop_requested s = true → handler s = None → 0 ≤ listening_fd s →
    threads s = [] ∧ early_stop (main s) = true;
  i_left : loop_left (main s) = true → stop_requested s = true;
  i_listener : closing_listener (main s) = true → threads s = [];
  i_handler h : handler s = Some h → h = H_Set ∨ stop_requested s = true;
  i_handler_fd h : handler s = Some h → h = H_Close ∨ h = H_Clear → 0 ≤ listening_fd s;
  i_closed : handler s = Some H_Clear → descs s !! listening_fd s ≠ Some ServerSocket;
  i_drained rest fd c : undrained (main s) = Some rest → fd ∈ client_fds s → fd ∉ rest →
    descs s !! fd = Some (Connected c) → shut c = true;
  i_rest rest : main s = M_Shutdown rest → rest ⊆ client_fds s;
  i_joined t th : threads s !! t = Some th → join_done (main s) t = true → ended th = true;
  i_database : main s ≠ M_Open → phase_of (main s) ≠ Stopping → database_open s = true;
  i_exit : phase_of (main s) = Stopping → exit_code s = 1 ∨ stop_requested s = true ∧ database_open s = true }.

Lemma conn_insert (ds : gmap Z Desc) fd d :
  conn_of (Some d) = conn_of (ds !! fd) → ∀ x, conn_of (<[fd := d]> ds !! x) = conn_of (ds !! x).
Proof. intros Hd x. destruct (decide (x = fd)) as [->|]; [by rewrite lookup_insert_eq|by rewrite lookup_insert_ne]. Qed.

Lemma conn_delete (ds : gmap Z Desc) fd :
  conn_of (ds !! fd) = None → ∀ x, conn_of (delete fd ds !! x) = conn_of (ds !! x).
Proof. intros Hd x. destruct (decide (x = fd)) as [->|]; [by rewrite lookup_delete_eq|by rewrite lookup_delete_ne]. Qed.

Lemma os_new_inv fd d s s' : os_new fd d s = Some s' →
  descs s !! fd = None ∧ 0 ≤ fd ∧ s' = set_descs (<[fd := d]> (descs s)) s.
Proof. unfold os_new. repeat case_match; intros; simplify_eq. split_and!; [done|lia|done]. Qed.

Lemma os_read_inv fd s s' : os_read fd s = Some s' → ∃ n p sh br,
  descs s !! fd = Some (Connected (mkConn n (S p) sh br)) ∧
  s' = set_descs (<[fd := Connected (mkConn n p sh br)]> (descs s)) s.
Proof. unfold os_read. repeat case_match; intros; simplify_eq. eauto 8. Qed.

Lemma set_conn_inv fd f s s' : set_conn fd f s = Some s' → ∃ c,
  descs s !! fd = Some (Connected c) ∧ s' = set_descs (<[fd := Connected (f c)]> (descs s)) s.
Proof. unfold set_conn. repeat case_match; intros; simplify_eq. eauto. Qed.

(** ** Ownership is kept *)

(** The steps of a thread before [close_client] leave everything owned as it is. *)
Definition plain (pc : ThreadPc) : bool := match pc with T_Handshake | T_Read | T_Request | T_Abort => true | _ => false end.

Lemma plain_step_owned s t fd n pc pc' ds : life_owned s → threads s !! t = Some (mkThread fd n pc) →
  plain pc = true → plain pc' = true ∨ pc' = T_Closing C_Lock →
  (∀ x, conn_of (ds !! x) = conn_of (descs s !! x)) →
  life_owned (set_threads (<[t := mkThread fd n pc']> (threads s)) (set_descs ds s)).
Proof.
  intros H Ht Hpc Hpc' Hds. unfold life_owned. cbn. apply (owned_thread_step _ _ _ _ _ _ _ _ Ht (owned_descs H _ Hds)).
  all: destruct pc; try discriminate Hpc; (destruct Hpc' as [Hpc'| ->]; [by destruct pc'|done]).
Qed.

Definition plain_moved (t : nat) (th : Thread) (s s' : Life) : Prop :=
  ∃ pc' ds, plain (th_pc th) = true ∧ (plain pc' = true ∨ pc' = T_Closing C_Lock) ∧
     s' = set_threads (<[t := mkThread (th_fd th) (th_conn th) pc']> (threads s)) (set_descs ds s) ∧
     (ds = descs s ∨ ∃ k p sh br, descs s !! th_fd th = Some (Connected (mkConn k (S p) sh br)) ∧
                                  ds = <[th_fd th := Connected (mkConn k p sh br)]> (descs s)).

Lemma thread_step_inv o t th s s' : threads s !! t = Some th → thread_step o t th s = Some s' →
  plain_moved t th s s' ∨
  (∃ p s1 next, th_pc th = T_Closing p ∧ close_client (Client t) (th_fd th) (th_conn th) p s = Some (s1, next) ∧
     s' = set_threads (<[t := mkThread (th_fd th) (th_conn th)
                          match next with Some p => T_Closing p | None => T_End end]> (threads s1)) s1).
Proof.
  intros Ht Hs. unfold thread_step in Hs.
  assert (Hread : ∀ pc' s1, plain (th_pc th) = true → plain pc' = true → os_read (th_fd th) s = Some s1 →
    s' = set_threads (<[t := mkThread (th_fd th) (th_conn th) pc']> (threads s1)) s1 →
    plain_moved t th s s').
  { intros pc' s1 H1 H2 (k & p & sh & br & Hd & ->)%os_read_inv ->. exists pc', (<[th_fd th := Connected (mkConn k p sh br)]> (descs s)).
    split_and!; [done|by left|done|right]. by exists k, p, sh, br. }
  assert (Hgo : ∀ pc', plain (th_pc th) = true → plain pc' = true ∨ pc' = T_Closing C_Lock →
    s' = set_threads (<[t := mkThread (th_fd th) (th_conn th) pc']> (threads s)) s →
    plain_moved t th s s').
  { intros pc' H1 H2 ->. exists pc', (descs s). destruct s. split_and!; [done|done|done|by left]. }
  destruct (th_pc th) as [| | | |p|] eqn:Epc; destruct o; try discriminate Hs.
  all: try (destruct (read_fails _ _); try discriminate Hs).
  all: try (apply fmap_Some in Hs as (s1 & Hr & ->); left; eapply Hread; [done| |exact Hr|reflexivity]; done).
  all: try (apply (inj Some) in Hs as <-; left; eapply Hgo; [done| |reflexivity]; solve [by left|by right]).
  right. apply bind_Some in Hs as ([s1 next] & Hc & [= <-]). by exists p, s1, next.
Qed.

Lemma thread_step_owned o t th s s' : life_owned s → threads s !! t = Some th → thread_step o t th s = Some s' →
  life_owned s' ∧ misdirected s' = misdirected s.
Proof.
  intros H Ht Hs. destruct th as [fd n pc].
  destruct (thread_step_inv _ _ _ _ _ Ht Hs) as [(pc' & ds & H1 & H2 & -> & Hds)|(p & s1 & next & Hp & Hc & ->)]; cbn in *.
  - split; [|done]. apply (plain_step_owned _ _ _ _ pc); try done.
    destruct Hds as [->|(k & p & sh & br & Hd & ->)]; [done|]. apply conn_insert. by rewrite Hd.
  - subst pc. assert (Hth : main s1 = main s ∧ threads s1 = threads s)
      by (destruct p; cbn in Hc; repeat case_match; simplify_eq; done).
    destruct Hth as [Hm Ht1]. assert (Ht1' := Ht). rewrite <- Ht1 in Ht1'.
    destruct (close_client_owned (Client t) fd n p s s1 next _ _ _ H) as [Ho Hmis]; [cbn; by rewrite Ht..|done|].
    split; [|done]. unfold life_owned. cbn. rewrite Hm, Ht1.
    apply (owned_ext Ho); intros a; unfold opens, registers, locks; rewrite (by_actor_insert _ _ _ _ _ _ _ _ Ht);
      by destruct next.
Qed.

(** What the main thread does to what it owns: closing the listening socket, accepting,
    registering, handing over, shutting down, or nothing of the kind. *)
Ltac main_plain H := apply (owned_main_step _ _ _ _ _ _ H); reflexivity.

Lemma listening_conn (d : option Desc) : is_listening d = true → conn_of d = None.
Proof. by destruct d as [[]|]. Qed.

Lemma close_listening_owned pc ts ds fds mx fd :
  owned (opens pc ts) (registers pc ts) (locks pc ts) ds fds mx → is_listening (ds !! fd) = true →
  owned (opens pc ts) (registers pc ts) (locks pc ts) (delete fd ds) fds mx.
Proof. intros H Hl. apply (owned_descs H), conn_delete. by apply listening_conn. Qed.

Lemma startup_step_owned o s s' : life_inv s → startup_step o s = Some s' → life_owned s' ∧ misdirected s' = 0%nat.
Proof.
  intros I Hs. pose proof (i_owned _ I) as H. pose proof (i_directed _ I) as Hm. pose proof (i_binding _ I) as Hb.
  unfold life_owned in *. unfold startup_step in Hs.
  destruct (main s) eqn:Epc; destruct o; try discriminate Hs.
  all: try (apply (inj Some) in Hs as <-; split; [|done]; cbn; main_plain H).
  - apply fmap_Some in Hs as (s1 & (Hd & _ & ->)%os_new_inv & ->). split; [|done]. cbn.
    apply (owned_main_step M_Socket); [|done..]. apply (owned_descs H), conn_insert. by rewrite Hd.
  - apply (inj Some) in Hs as <-. cbn. rewrite (Hb _ eq_refl). split; [|done].
    apply (owned_main_step (M_BindFailed fd)); [|done..]. apply (close_listening_owned _ _ _ _ _ _ H). by rewrite (Hb _ eq_refl).
Qed.

(** What [close(listening_fd)] hits. *)
Lemma listening_mine s : life_inv s → handler s ≠ Some H_Clear → is_listening (descs s !! listening_fd s) = true.
Proof.
  intros I Hh. destruct (decide (0 ≤ listening_fd s)) as [Hl|Hl].
  - destruct (main s) eqn:Epc; try (rewrite (i_listening _ I Hl); [done|congruence|done]).
    by rewrite (i_cleared _ I Epc Hl).
  - destruct (descs s !! listening_fd s) eqn:E; [|done]. by apply (i_numbers _ I) in E.
Qed.

Lemma closing_next_owned s s1 fd n p next : life_owned s → main s = M_Closing fd n p →
  close_client Main fd n p s = Some (s1, next) →
  life_owned (set_main match next with Some p => M_Closing fd n p | None => M_Loop end s1) ∧ misdirected s1 = misdirected s.
Proof.
  intros H Epc Hc. unfold life_owned in *. rewrite Epc in H.
  destruct (close_client_owned Main fd n p s s1 next _ _ _ H) as [Ho Hm]; [done..|]. split; [|done]. cbn.
  assert (threads s1 = threads s) as -> by (destruct p; cbn in Hc; repeat case_match; simplify_eq; done).
  apply (owned_ext Ho); intros a; unfold opens, registers, locks;
    [rewrite (by_actor_main (main_open (M_Closing fd n p)))|rewrite (by_actor_main (main_reg (M_Closing fd n p)))
    |rewrite (by_actor_main (main_lock (M_Closing fd n p)))]; by destruct next.
Qed.

Lemma serve_step_owned o s s' : life_inv s → handler s = None → serve_step o s = Some s' →
  life_owned s' ∧ misdirected s' = 0%nat.
Proof.
  intros I Hh Hs. pose proof (i_owned _ I) as H. pose proof (i_directed _ I) as Hm.
  pose proof (listening_mine _ I) as Hl. rewrite Hh in Hl. specialize (Hl ltac:(done)).
  unfold serve_step in Hs. destruct (main s) eqn:Epc; destruct o; try discriminate Hs.
  all: try (apply bind_Some in Hs as ([s1 next] & Hc & [= <-]);
            destruct (closing_next_owned _ _ _ _ _ _ H Epc Hc) as [Ho Hmis]; split; [exact Ho|cbn; congruence]).
  all: unfold life_owned in *; rewrite Epc in H.
  all: try (apply (inj Some) in Hs as <-; split; [|done]; cbn; repeat case_match; main_plain H).
  - destruct (descs s !! fd) as [[]|]; try discriminate Hs;
      (apply (inj Some) in Hs as <-; split; [|done]; cbn; main_plain H).
  - destruct (descs s !! fd) as [[]|]; try discriminate Hs.
    apply fmap_Some in Hs as (s1 & (Hd & _ & ->)%os_new_inv & ->). split; [|done]. cbn.
    apply (owned_ext (owned_accept H Main fd0 (mkConn (next_conn s) 0 false false) eq_refl eq_refl Hd)); intros a;
      [by apply by_actor_main|done..].
  - apply (inj Some) in Hs as <-. cbn. pose proof (open_is _ _ _ _ _ _ H Main fd n eq_refl) as Hd. split.
    + apply (owned_ext (owned_close H Main fd n eq_refl ltac:(by left))); intros a; [by apply by_actor_main|done..].
    + by rewrite (conn_is _ n).
  - destruct (clients_mutex s) eqn:Emx; [discriminate Hs|]. apply (inj Some) in Hs as <-. split; [|done]. cbn.
    apply (owned_ext (owned_acquire H Main eq_refl)); intros a; [done..|by apply by_actor_main].
  - apply (inj Some) in Hs as <-. split; [|done]. cbn.
    apply (owned_ext (owned_push H Main fd n eq_refl eq_refl eq_refl)); intros a; [done|by apply by_actor_main|done].
  - apply (inj Some) in Hs as <-. split; [|done]. cbn.
    apply (owned_ext (owned_release H Main eq_refl ltac:(right; by exists fd, n))); intros a; [done..|by apply by_actor_main].
  - apply (inj Some) in Hs as <-. split; [|done]. cbn.
    assert (Hnew : threads s !! length (threads s) = None) by by apply lookup_ge_None_2.
    apply (owned_ext (owned_move H Main (Client (length (threads s))) ltac:(done) ltac:(cbn; by rewrite Hnew)
      ltac:(cbn; by rewrite Hnew) eq_refl ltac:(cbn; by rewrite Hnew))); intros a; unfold opens, registers, locks;
      rewrite by_actor_app.
    all: unfold updated; destruct a as [|t]; cbn; repeat case_decide; simplify_eq; by rewrite ?Hnew.
  - apply (inj Some) in Hs as <-. cbn. rewrite Hl. split; [|done]. apply (owned_main_step M_CloseListening); [|done..].
    by apply close_listening_owned.
Qed.

(** Under the mutex, every entry of [client_fds_] of another actor is an open connection. *)
Lemma listed_open s fd : life_owned s → clients_mutex s = Some Main → main_reg (main s) = None →
  fd ∈ client_fds s → ∃ n, conn_of (descs s !! fd) = Some n.
Proof.
  intros H Hmx Hr (a & Ha)%(reg_listed _ _ _ _ _ _ H).
  destruct (reg_open _ _ _ _ _ _ H _ _ Ha) as [[n Hn]|Hl].
  - exists n. by apply (open_is _ _ _ _ _ _ H a).
  - apply (lock_held _ _ _ _ _ _ H) in Hl. rewrite Hmx in Hl. simplify_eq. cbn in Ha. congruence.
Qed.

Lemma stop_step_owned o s s' : life_inv s → stop_step o s = Some s' → life_owned s' ∧ misdirected s' = 0%nat.
Proof.
  intros I Hs. pose proof (i_owned _ I) as H. pose proof (i_directed _ I) as Hm. pose proof (i_rest _ I) as Hrest.
  pose proof (listed_open s) as Hopen. unfold stop_step in Hs.
  destruct (main s) as [| | | | | | | | | | | | | | | | | | | | |rest| | | | |] eqn:Epc; destruct o; try discriminate Hs;
    try (destruct rest; discriminate Hs).
  all: try (apply (inj Some) in Hs as <-; split; [|done]; unfold life_owned in *; rewrite Epc in H; cbn; main_plain H).
  - destruct (clients_mutex s) eqn:Emx; [discriminate Hs|]. apply (inj Some) in Hs as <-. split; [|done].
    unfold life_owned in *. rewrite Epc, Emx in H. cbn.
    apply (owned_ext (owned_acquire H Main eq_refl)); intros a; [done..|by apply by_actor_main].
  - destruct rest as [|fd rest]; apply (inj Some) in Hs as <-.
    { split; [|done]. unfold life_owned in *. rewrite Epc in H. main_plain H. }
    assert (Hmx : clients_mutex s = Some Main) by (apply (lock_held _ _ _ _ _ _ H); cbn; by rewrite Epc).
    destruct (Hopen fd H Hmx ltac:(done)) as [n Hn]; [apply (Hrest _ eq_refl); by left|].
    unfold os_shutdown. destruct (descs s !! fd) as [[|c|]|] eqn:Ed; cbn in Hn; simplify_eq. split; [|done].
    unfold life_owned in *. rewrite Epc in H. cbn. apply (owned_main_step (M_Shutdown (fd :: rest))); [|done..].
    apply (owned_descs H), conn_insert. by rewrite Ed.
  - apply (inj Some) in Hs as <-. split; [|done]. unfold life_owned in *. rewrite Epc in H. cbn.
    apply (owned_ext (owned_release H Main eq_refl ltac:(by left))); intros a; [done..|by apply by_actor_main].
  - destruct (threads s !! i) as [th|].
    + destruct (ended th); [|discriminate Hs]. apply (inj Some) in Hs as <-. split; [|done].
      unfold life_owned in *. rewrite Epc in H. main_plain H.
    + apply (inj Some) in Hs as <-. split; [|done]. unfold life_owned in *. rewrite Epc in H. cbn. case_match; main_plain H.
Qed.

Lemma handler_owned h s : life_inv s → handler s = Some h →
  life_owned (main_handler h s) ∧ misdirected (main_handler h s) = 0%nat.
Proof.
  intros I Hh. pose proof (i_owned _ I) as H. pose proof (i_directed _ I) as Hm. destruct h; cbn; [done|done| |done].
  pose proof (listening_mine _ I ltac:(congruence)) as Hl. rewrite Hl. split; [|done]. by apply close_listening_owned.
Qed.

Lemma main_step_owned o s s' : life_inv s → handler s = None → main_step o s = Some s' →
  life_owned s' ∧ misdirected s' = 0%nat.
Proof.
  intros I Hh. unfold main_step. destruct (startup_step o s) eqn:E1; [intros [= <-]; by eapply startup_step_owned|].
  destruct (serve_step o s) eqn:E2; [intros [= <-]; by eapply serve_step_owned|]. by apply stop_step_owned.
Qed.

Lemma set_conn_owned fd f s s' : (∀ c, conn_id (f c) = conn_id c) → life_owned s → set_conn fd f s = Some s' →
  life_owned s' ∧ misdirected s' = misdirected s.
Proof.
  intros Hf H (c & Hd & ->)%set_conn_inv. split; [|done]. apply (owned_descs H), conn_insert. rewrite Hd. cbn. by rewrite Hf.
Qed.

Lemma step_owned l s s' : life_inv s → step l s = Some s' → life_owned s' ∧ misdirected s' = 0%nat.
Proof.
  intros I Hs. pose proof (i_owned _ I) as H. pose proof (i_directed _ I) as Hm.
  destruct l as [o|t o| | |fd|fd| |fd|fd]; cbn in Hs.
  - destruct (handler s) eqn:Eh; [done|]. by eapply main_step_owned.
  - apply bind_Some in Hs as (th & Ht & Hs). rewrite <- Hm. by eapply thread_step_owned.
  - destruct (handler s) eqn:Eh; [|done]. apply (inj Some) in Hs as <-. by apply handler_owned.
  - destruct (handler s); [done|]. destruct (main s); try discriminate Hs; by apply (inj Some) in Hs as <-.
  - repeat case_match; try discriminate Hs. rewrite <- Hm. by apply set_conn_owned in Hs.
  - rewrite <- Hm. by apply set_conn_owned in Hs.
  - destruct (handler s); [done|]. destruct (main s) eqn:Epc; try discriminate Hs. apply (inj Some) in Hs as <-.
    split; [|done]. unfold life_owned in *. rewrite Epc in H. main_plain H.
  - case_match; [|done]. apply os_new_inv in Hs as (Hd & _ & ->). split; [|done].
    apply (owned_descs H), conn_insert. by rewrite Hd.
  - repeat case_match; try discriminate Hs. apply (inj Some) in Hs as <-. split; [|done].
    apply (owned_descs H), conn_delete. match goal with E : descs s !! fd = _ |- _ => by rewrite E end.
Qed.

(** ** The rest of the invariant *)

(** Steps that leave the main thread, its handler and the globals alone. *)
Lemma life_inv_frame s s' : life_inv s → life_owned s' → misdirected s' = 0%nat →
  main s' = main s → handler s' = handler s → stop_requested s' = stop_requested s →
  listening_fd s' = listening_fd s → database_open s' = database_open s → exit_code s' = exit_code s →
  (∀ fd d, descs s' !! fd = Some d → 0 ≤ fd) →
  (∀ fd, descs s' !! fd = Some ServerSocket ↔ descs s !! fd = Some ServerSocket) →
  (main s = M_Clear → 0 ≤ listening_fd s → descs s !! listening_fd s = None → descs s' !! listening_fd s = None) →
  (∀ fd c', descs s' !! fd = Some (Connected c') → ∃ c, descs s !! fd = Some (Connected c) ∧ (shut c = true → shut c' = true)) →
  (threads s = [] → threads s' = []) →
  (∀ t th', threads s' !! t = Some th' → ∃ th, threads s !! t = Some th ∧ (ended th = true → ended th' = true)) →
  (∀ fd, fd ∈ client_fds s' → fd ∈ client_fds s) →
  (∀ rest, main s = M_Shutdown rest → client_fds s' = client_fds s) →
  life_inv s'.
Proof.
  intros I Ho Hm Em Eh Es El Ed Ee Hnum Hsock Hclear Hconn Hnil Hended Hsub Hsame.
  destruct I. split; rewrite ?Em, ?Eh, ?Es, ?El, ?Ed, ?Ee; auto.
  - intros fd Hfd. by apply Hsock, i_binding0.
  - intros fd Hfd%Hsock. by apply i_socket0.
  - intros Hp. destruct (i_starting0 Hp). auto.
  - intros H1 H2 H3. by apply Hsock, i_listening0.
  - intros H1 H2 H3. destruct (i_early0 H1 H2 H3). auto.
  - intros Hc Hd%Hsock. by apply i_closed0 in Hd.
  - intros rest fd c Hr Hin Hni (c0 & Hc0 & Hs)%Hconn. apply Hs. eapply i_drained0; eauto.
  - intros rest Hr. rewrite (Hsame _ Hr). by apply i_rest0.
  - intros t th' (th & Hth & He)%Hended Hj. apply He. by eapply i_joined0.
Qed.

Lemma handler_inv h s : life_inv s → handler s = Some h → life_inv (main_handler h s).
Proof.
  intros I Hh. destruct (handler_owned h s I Hh) as [Ho Hm]. destruct I.
  pose proof (i_handler0 _ Hh) as Hstop. pose proof (i_handler_fd0 _ Hh) as Hfd. rewrite Hh in *.
  destruct h; (split; [exact Ho|exact Hm|..]); cbn; auto; try (intros; exfalso; congruence).
  - intros h [= <-] [?|?]; done.
  - intros Hp. destruct (i_exit0 Hp) as [?|[_ ?]]; auto.
  - case_match; [done|]. lia.
  - intros h _. right. by destruct Hstop.
  - intros h. case_match; [|done]. lia.
  - by case_match.
  - intros fd d [_ Hd]%lookup_delete_Some. eauto.
  - intros fd Hb. rewrite lookup_delete_ne; [by apply i_binding0|].
    intros <-. destruct (main s); try done; destruct (i_starting0 eq_refl); specialize (Hfd (or_introl eq_refl)); lia.
  - intros fd [_ Hd]%lookup_delete_Some. eauto.
  - intros _ _. apply lookup_delete_eq.
  - intros h _. right. by destruct Hstop.
  - intros _. by rewrite lookup_delete_eq.
  - intros rest fd c Hr Hin Hni [_ Hd]%lookup_delete_Some. eauto.
  - intros fd Hd. destruct (i_socket0 _ Hd) as [?| ->]; [by left|]. by destruct (i_closed0 eq_refl).
  - intros Hp. destruct (i_starting0 Hp). by split.
  - done.
  - done.
  - done.
Qed.

Lemma startup_step_inv o s s' : life_inv s → handler s = None → startup_step o s = Some s' → life_inv s'.
Proof.
  intros I Hh Hs. destruct (startup_step_owned _ _ _ I Hs) as [Ho Hm]. destruct I. unfold startup_step in Hs.
  destruct (main s) eqn:Epc; destruct o; try discriminate Hs.
  all: try (apply (inj Some) in Hs as <-); try (apply fmap_Some in Hs as (s1 & (Hd & H0 & ->)%os_new_inv & ->)).
  all: destruct (i_starting0 eq_refl) as [Hlt Hnil].
  all: (split; [exact Ho|exact Hm|..]); cbn in *; auto; try (intros; exfalso; congruence); try (intros; lia).
  - intros fd0 d [[<- _]|[_ Hx]]%lookup_insert_Some; [done|eauto].
  - intros fd0 [= <-]. apply lookup_insert_eq.
  - intros fd0 [[<- _]|[_ Hx]]%lookup_insert_Some; [by left|eauto].
    destruct (i_socket0 _ Hx) as [?| ->]; [done|by right].
  - intros fd0 d [_ Hx]%lookup_delete_Some. eauto.
  - intros fd0 [Hne Hx]%lookup_delete_Some. destruct (i_socket0 _ Hx) as [?|?]; [congruence|by right].
  - intros fd0 Hx. destruct (i_socket0 _ Hx) as [[= ->]| ->]; [by right|]. apply i_numbers0 in Hx. lia.
Qed.

Lemma serve_step_inv o s s' : life_inv s → handler s = None → serve_step o s = Some s' → life_inv s'.
Proof.
  intros I Hh Hs. destruct (serve_step_owned _ _ _ I Hh Hs) as [Ho Hm].
  assert (Hmine : ∀ fd n, main_open (main s) = Some (fd, n) → descs s !! fd ≠ Some ServerSocket).
  { intros fd n Hn Hd. pose proof (open_is _ _ _ _ _ _ (i_owned _ I) Main _ _ Hn) as Hc. by rewrite Hd in Hc. }
  destruct I. unfold serve_step in Hs.
  destruct (main s) eqn:Epc; destruct o; try discriminate Hs.
  all: try (apply (inj Some) in Hs as <-).
  all: try (destruct (descs s !! fd) as [[]|] eqn:Elfd; try discriminate Hs;
            first [apply (inj Some) in Hs as <-|apply fmap_Some in Hs as (s1 & (Hd & H0 & ->)%os_new_inv & ->)]).
  all: try (destruct (clients_mutex s) eqn:Emx; [discriminate Hs|]; apply (inj Some) in Hs as <-).
  all: repeat (match goal with |- context [if ?b then _ else _] => destruct b eqn:? end; cbn in * ).
  all: try match type of Hs with _ ≫= _ = _ => apply bind_Some in Hs as ([s1 next] & Hc & Hs) end.
  all: try (destruct p; cbn in Hc; [destruct (clients_mutex s) eqn:Emx; [discriminate Hc|]|..];
            apply (inj Some) in Hc; simplify_eq).
  all: (split; [exact Ho|exact Hm|..]); cbn in *; auto; try (intros; exfalso; congruence); try (intros; lia).
  all: try (intros H1 H2 H3; destruct (i_early0 H1 H2 H3); done).
  all: try (intros fd1 d1 [_ Hx]%lookup_delete_Some; by eauto).
  all: try (intros fd1 [_ Hx]%lookup_delete_Some; by eauto).
  all: try (intros H1 H2 H3; rewrite lookup_delete_ne; [by apply i_listening0|]; intros ->;
            by apply (Hmine _ _ eq_refl), i_listening0).
  - intros fd1 d [[<- _]|[_ Hx]]%lookup_insert_Some; [done|by eauto].
  - intros fd1 [[_ ?]|[_ Hx]]%lookup_insert_Some; [done|by eauto].
  - intros H1 H2 H3. rewrite lookup_insert_ne; [by apply i_listening0|]. intros ->. rewrite i_listening0 in Hd; done.
  - intros _ H2 H3. by destruct (i_early0 eq_refl H2 H3).
  - intros _. by apply i_early0; [apply i_left0| |lia].
  - intros _ _. apply lookup_delete_eq.
  - intros fd Hx. destruct (i_socket0 _ Hx) as [?| ->]; [done|].
    rewrite i_cleared0 in Hx; [done|done|by eapply i_numbers0].
Qed.

Lemma stop_step_inv o s s' : life_inv s → handler s = None → stop_step o s = Some s' → life_inv s'.
Proof.
  intros I Hh Hs. destruct (stop_step_owned _ _ _ I Hs) as [Ho Hm].
  pose proof (listed_open s) as Hopen. pose proof (lock_held _ _ _ _ _ _ (i_owned _ I) Main) as Hlk.
  destruct I. unfold stop_step in Hs.
  destruct (main s) as [| | | | | | | | | | | | | | | | | | | | |rest| |i| | |] eqn:Epc; destruct o; try discriminate Hs;
    try (destruct rest; discriminate Hs).
  all: try (apply (inj Some) in Hs as <-).
  all: try (destruct (clients_mutex s) eqn:Emx; [discriminate Hs|]; apply (inj Some) in Hs as <-).
  all: try (destruct rest as [|fd rest]; apply (inj Some) in Hs as <-).
  all: try (destruct (threads s !! i) as [th|] eqn:Eth; [destruct (ended th) eqn:Een; [|discriminate Hs]|]; apply (inj Some) in Hs as <-).
  all: try match goal with |- context [if ?b then M_Flush else _] => destruct b eqn:? end.
  all: try (unfold os_shutdown in *; destruct (Hopen fd ltac:(assumption) ltac:(by apply Hlk) eq_refl ltac:(apply (i_rest0 _ eq_refl); by left)) as [n Hn];
            destruct (descs s !! fd) as [[|c|]|] eqn:Ed; cbn in Hn; simplify_eq).
  all: (split; [exact Ho|exact Hm|..]); cbn in *; auto; try (intros; exfalso; congruence); try (intros; lia).
  all: try (intros rest0 [= <-]; done).
  all: try (intros rest0 fd0 c0 [= <-]; by eauto).
  all: try (intros t th0 Ht _; apply (i_joined0 _ _ Ht), Nat.ltb_lt; apply lookup_lt_Some in Ht; apply lookup_ge_None in Eth; lia).
  all: try (intros _; destruct (i_exit0 eq_refl) as [|[]]; [by left|]; right; split; congruence).
  - intros fd0 d [[<- _]|[_ Hx]]%lookup_insert_Some; eauto.
  - intros fd0 [[_ ?]|[_ Hx]]%lookup_insert_Some; [done|eauto].
  - intros H1 H2 H3. rewrite lookup_insert_ne; [by apply i_listening0|]. intros ->. rewrite i_listening0 in Ed; done.
  - intros rest0 fd0 c0 [= <-] Hin Hni [[<- [= <-]]|[Hne Hx]]%lookup_insert_Some; [done|].
    eapply i_drained0; [done|exact Hin| |exact Hx]. intros [->|?]%elem_of_cons; done.
  - intros rest0 [= <-] x Hx. apply (i_rest0 _ eq_refl). by right.
  - intros t th0 Ht Hle. destruct (decide (t = i)) as [->|]; [congruence|].
    apply (i_joined0 _ _ Ht), Nat.ltb_lt. apply Nat.leb_le in Hle. lia.
Qed.

Lemma main_step_inv o s s' : life_inv s → handler s = None → main_step o s = Some s' → life_inv s'.
Proof.
  intros I Hh. unfold main_step. destruct (startup_step o s) eqn:E1; [intros [= <-]; by eapply startup_step_inv|].
  destruct (serve_step o s) eqn:E2; [intros [= <-]; by eapply serve_step_inv|]. by apply stop_step_inv.
Qed.

Lemma close_client_effect a fd n p s s1 next : close_client a fd n p s = Some (s1, next) → ∃ ds fds mx m,
  s1 = mkLife (main s) (handler s) (threads s) (stop_requested s) (listening_fd s) mx fds (database_open s) (exit_code s)
         ds (next_conn s) m ∧
  (ds = descs s ∨ p = C_Close ∧ ds = delete fd (descs s)) ∧
  (fds = client_fds s ∨ p = C_Erase ∧ fds = filter (λ x, x ≠ fd) (client_fds s)).
Proof.
  destruct p; cbn; [destruct (clients_mutex s); [done|]|..]; intros [= <- <-]; do 4 eexists; (split; [reflexivity|]);
    cbn; auto.
Qed.

Lemma insert_thread_ended (ts : list Thread) t th th' :
  ts !! t = Some th → ended th = false → ∀ x y, <[t := th']> ts !! x = Some y →
  ∃ z, ts !! x = Some z ∧ (ended z = true → ended y = true).
Proof.
  intros Ht He x y Hx. destruct (decide (x = t)) as [->|Hne].
  - rewrite list_lookup_insert_eq in Hx by (by eapply lookup_lt_Some). exists th. split; [done|congruence].
  - rewrite list_lookup_insert_ne in Hx by done. by exists y.
Qed.

Lemma thread_step_keeps_inv o t th s s' : life_inv s → threads s !! t = Some th → thread_step o t th s = Some s' →
  life_inv s'.
Proof.
  intros I Ht Hs. destruct (thread_step_owned _ _ _ _ _ (i_owned _ I) Ht Hs) as [Ho Hm].
  rewrite (i_directed _ I) in Hm. pose proof (i_owned _ I) as H.
  assert (Hnil : ∀ th', threads s = [] → <[t := th']> (threads s) = []) by (intros th' Hn; by rewrite Hn in Ht).
  destruct (thread_step_inv _ _ _ _ _ Ht Hs) as [(pc' & ds & H1 & H2 & -> & Hds)|(p & s1 & next & Hp & Hc & ->)].
  - assert (He : ended th = false) by (unfold ended; by destruct (th_pc th)).
    apply (life_inv_frame _ _ I Ho Hm); cbn; try done; [..|by apply Hnil|by apply (insert_thread_ended _ _ _ _ Ht)].
    all: destruct Hds as [->|(k & p & sh & br & Hd & ->)]; try done; try apply (i_numbers _ I).
    + intros fd d [[<- _]|[_ Hx]]%lookup_insert_Some; by eapply (i_numbers _ I).
    + intros fd. destruct (decide (fd = th_fd th)) as [->|]; [|by rewrite lookup_insert_ne]. rewrite lookup_insert_eq, Hd. done.
    + intros _ _ Hl. rewrite lookup_insert_ne; [done|]. intros Heq. rewrite Heq in Hd. congruence.
    + intros fd c' Hx. by exists c'.
    + intros fd c' [[<- [= <-]]|[_ Hx]]%lookup_insert_Some; [by eexists|by exists c'].
  - assert (He : ended th = false) by (unfold ended; by rewrite Hp).
    destruct (close_client_effect _ _ _ _ _ _ _ Hc) as (ds & fds & mx & m & -> & Hds & Hfds).
    apply (life_inv_frame _ _ I Ho Hm); cbn; try done; [..|by apply Hnil|by apply (insert_thread_ended _ _ _ _ Ht)| |].
    5: { intros fd. destruct Hfds as [->|[_ ->]]; [done|]. by intros [_ ?]%list_elem_of_filter. }
    5: { intros rest Hr. destruct Hfds as [->|[-> _]]; [done|].
         assert (Main = Client t); [|done]. apply (lock_unique H); cbn; [by rewrite Hr|].
         rewrite Ht. unfold thread_lock. by rewrite Hp. }
    all: assert (Hop : p = C_Close → conn_of (descs s !! th_fd th) = Some (th_conn th))
           by (intros ->; apply (open_is _ _ _ _ _ _ H (Client t)); cbn; rewrite Ht; unfold thread_open; by rewrite Hp).
    all: (destruct Hds as [->|[Hpc ->]]; try done; try apply (i_numbers _ I)).
    + intros fd d [_ Hx]%lookup_delete_Some. by eapply (i_numbers _ I).
    + specialize (Hop Hpc). intros fd. destruct (decide (fd = th_fd th)) as [->|]; [|by rewrite lookup_delete_ne].
      rewrite lookup_delete_eq. split; [done|]. intros Hx. by rewrite Hx in Hop.
    + intros _ _ Hl. apply lookup_delete_None. by right.
    + intros fd c' Hx. by exists c'.
    + intros fd c' [_ Hx]%lookup_delete_Some. by exists c'.
Qed.

(** A connection changes without losing its [shut] mark, or a file comes or goes. *)
Lemma set_conn_keeps_inv fd f s s' : (∀ c, conn_id (f c) = conn_id c) → (∀ c, shut c = true → shut (f c) = true) →
  life_inv s → set_conn fd f s = Some s' → life_inv s'.
Proof.
  intros Hid Hsh I Hs. destruct (set_conn_owned _ _ _ _ Hid (i_owned _ I) Hs) as [Ho Hm]. rewrite (i_directed _ I) in Hm.
  apply set_conn_inv in Hs as (c & Hd & ->).
  apply (life_inv_frame _ _ I Ho Hm); cbn; try done; [..|by intros t th' Hx; exists th'].
  - intros x d [[<- _]|[_ Hx]]%lookup_insert_Some; by eapply (i_numbers _ I).
  - intros x. destruct (decide (x = fd)) as [->|]; [|by rewrite lookup_insert_ne]. by rewrite lookup_insert_eq, Hd.
  - intros _ _ Hl. rewrite lookup_insert_ne; [done|]. intros ->. congruence.
  - intros x c' [[<- [= <-]]|[_ Hx]]%lookup_insert_Some; [exists c; auto|by exists c'].
Qed.

Lemma cleared_idle s : life_inv s → main s = M_Clear → in_database s = false.
Proof.
  intros I Hm. unfold in_database. rewrite Hm. by rewrite (i_listener _ I) by by rewrite Hm.
Qed.

Lemma interrupt_inv s : life_inv s → handler s = None → life_inv (set_handler (Some H_Set) s).
Proof.
  intros [] Hh. split; cbn; auto; try (intros; exfalso; congruence).
  - intros H1 H2 _. apply i_listening0; [done..|congruence].
  - intros h [= <-]. by left.
  - intros h [= <-] [?|?]; done.
Qed.

Lemma accept_error_inv s lfd : life_inv s → handler s = None → main s = M_Accept lfd → life_owned (set_main M_AcceptFailed s) →
  life_inv (set_main M_AcceptFailed s).
Proof.
  intros [] Hh Em Ho. rewrite Em in *. split; [exact Ho|exact i_directed0|..]; cbn in *; auto; try (intros; exfalso; congruence).
Qed.

Lemma step_inv l s s' : life_inv s → step l s = Some s' → life_inv s'.
Proof.
  intros I Hs. destruct (step_owned _ _ _ I Hs) as [Ho Hm]. destruct l as [o|t o| | |fd|fd| |fd|fd]; cbn in Hs.
  - destruct (handler s) eqn:Eh; [done|]. by eapply main_step_inv.
  - apply bind_Some in Hs as (th & Ht & Hs). by eapply thread_step_keeps_inv.
  - destruct (handler s) eqn:Eh; [|done]. apply (inj Some) in Hs as <-. by apply handler_inv.
  - destruct (handler s) eqn:Eh; [done|]. destruct (main s); try discriminate Hs; apply (inj Some) in Hs as <-;
      by apply interrupt_inv.
  - repeat case_match; try discriminate Hs. by eapply set_conn_keeps_inv in Hs.
  - by eapply set_conn_keeps_inv in Hs.
  - destruct (handler s) eqn:Eh; [done|]. destruct (main s) eqn:Em; try discriminate Hs. apply (inj Some) in Hs as <-.
    by eapply accept_error_inv.
  - destruct (in_database s) eqn:Edb; [|done]. apply os_new_inv in Hs as (Hd & H0 & ->).
    apply (life_inv_frame _ _ I Ho Hm); cbn; try done; [..|by intros t th' Hx; exists th'].
    + intros x d [[<- _]|[_ Hx]]%lookup_insert_Some; [done|by eapply (i_numbers _ I)].
    + intros x. destruct (decide (x = fd)) as [->|]; [|by rewrite lookup_insert_ne]. by rewrite lookup_insert_eq, Hd.
    + intros Hc. by rewrite (cleared_idle _ I Hc) in Edb.
    + intros x c' [[_ ?]|[_ Hx]]%lookup_insert_Some; [done|by exists c'].
  - destruct (descs s !! fd) as [[]|] eqn:Ed; try discriminate Hs. destruct (in_database s); [|done].
    apply (inj Some) in Hs as <-. apply (life_inv_frame _ _ I Ho Hm); cbn; try done; [..|by intros t th' Hx; exists th'].
    + intros x d [_ Hx]%lookup_delete_Some. by eapply (i_numbers _ I).
    + intros x. destruct (decide (x = fd)) as [->|]; [|by rewrite lookup_delete_ne]. by rewrite lookup_delete_eq, Ed.
    + intros _ _ Hl. apply lookup_delete_None. by right.
    + intros x c' [_ Hx]%lookup_delete_Some. by exists c'.
Qed.

Lemma start_inv : life_inv start_life.
Proof.
  split; cbn; try done. split; cbn; try done.
  - by intros [|t] fd n.
  - by intros [|t] b fd n n'.
  - intros fd. split; [by intros ?%elem_of_nil|]. by intros [[|t] ?].
  - by intros [|t] b fd.
  - constructor.
  - by intros [|t] fd.
  - by intros [|t].
Qed.

Lemma run_labels_inv ls : ∀ s s', life_inv s → run_labels ls s = Some s' → life_inv s'.
Proof.
  induction ls as [|l ls IH]; cbn; intros s s' I; [by intros [= <-]|].
  intros (s1 & Hs & Hr)%bind_Some. eapply IH; [|exact Hr]. by eapply step_inv.
Qed.

Lemma reachable_inv s : reachable s → life_inv s.
Proof. intros [ls H]. exact (run_labels_inv ls _ _ start_inv H). Qed.

(** ** Descriptors are used by their owners only *)

(** The connection a thread still has to close. *)
Definition holds_connection (th : Thread) : bool :=
  match th_pc th with T_Closing (C_Erase | C_Unlock) | T_End => false | _ => true end.

Lemma thread_open_holds th : holds_connection th = true → thread_open th = Some (th_fd th, th_conn th).
Proof. unfold holds_connection, thread_open. destruct (th_pc th) as [| | | |[]|]; done. Qed.

(** Descriptors and their owners. *)
Definition descriptors_owned (s : Life) : Prop :=
  misdirected s = 0%nat ∧ NoDup (client_fds s) ∧
  (∀ t th, threads s !! t = Some th → holds_connection th = true →
    is_conn (th_conn th) (descs s !! th_fd th) = true ∧ th_fd th ∈ client_fds s ∧
    (∀ u th', threads s !! u = Some th' → holds_connection th' = true → th_fd th' = th_fd th → u = t)) ∧
  (clients_mutex s = None → ∀ fd, fd ∈ client_fds s → ∃ n, is_conn n (descs s !! fd) = true).

Lemma inv_descriptors_owned s : life_inv s → descriptors_owned s.
Proof.
  intros I. pose proof (i_owned _ I) as H. split_and!; [apply I|apply H| |].
  - intros t th Ht Hh. pose proof (thread_open_holds _ Hh) as Ho.
    assert (opens (main s) (threads s) (Client t) = Some (th_fd th, th_conn th)) as Hop by (cbn; by rewrite Ht).
    split_and!.
    + apply conn_is. by apply (open_is _ _ _ _ _ _ H) in Hop.
    + apply (reg_listed _ _ _ _ _ _ H). exists (Client t). cbn. rewrite Ht. unfold thread_reg, holds_connection in *.
      destruct (th_pc th) as [| | | |[]|]; done.
    + intros u th' Hu Hh' Hfd. assert (Client u = Client t) as [= ->]; [|done].
      eapply (open_unique _ _ _ _ _ _ H); [|exact Hop]. cbn. rewrite Hu, thread_open_holds, Hfd by done. done.
  - intros Hmx fd (a & Ha)%(reg_listed _ _ _ _ _ _ H). destruct (reg_open _ _ _ _ _ _ H _ _ Ha) as [[n Hn]|Hl].
    + exists n. apply conn_is. by apply (open_is _ _ _ _ _ _ H) in Hn.
    + apply (lock_held _ _ _ _ _ _ H) in Hl. congruence.
Qed.

(** Two clients; the first has left, and its number was given to the second before the
    first was taken off the list. *)
Definition fines (n : nat) : list label := replicate n (L_Main Fine).
Definition startup_labels : list label := fines 2 ++ [L_Main (Gives 3)] ++ fines 2.
Definition accept_labels (fd : Z) : list label := fines 2 ++ [L_Main (Gives fd)].
Definition busy_labels : list label :=
  startup_labels ++ accept_labels 4 ++ fines 5 ++
  [L_Arrive 4; L_Thread 0 Fine; L_Arrive 4; L_Thread 0 Fine; L_Thread 0 Fails; L_Thread 0 Fine; L_Thread 0 Fine; L_Thread 0 Fine] ++
  accept_labels 4 ++ fines 1 ++ [L_Thread 0 Fine; L_Thread 0 Fine] ++ fines 4.
Definition after (ls : list label) : Life := default start_life (run_labels ls start_life).

(** ** Stopping *)

(** C9. When the database is flushed and closed, and when the process ends, every client
    thread has ended: no request is executing, no transaction is being aborted; every
    connection and the server socket are closed, [client_fds_] is empty and the mutex
    free.  The exit code is 0 only after an interrupt, with a database that was opened. *)
Theorem database_closed_alone s : reachable s → main s = M_Flush ∨ main s = M_CloseDb ∨ main s = M_Done →
  Forall (λ th, ended th = true) (threads s) ∧ client_fds s = [] ∧ clients_mutex s = None ∧
  (∀ fd d, descs s !! fd = Some d → d = File) ∧
  (exit_code s = 0 → stop_requested s = true ∧ database_open s = true).
Proof.
  intros I%reachable_inv Hm. pose proof (i_owned _ I) as H.
  assert (Hend : ∀ t th, threads s !! t = Some th → ended th = true).
  { intros t th Ht. apply (i_joined _ I t th Ht). destruct Hm as [->|[->| ->]]; done. }
  assert (Hno : ∀ a, opens (main s) (threads s) a = None ∧ registers (main s) (threads s) a = None ∧
                     locks (main s) (threads s) a = false).
  { intros [|t]; [by destruct Hm as [->|[->| ->]]|]. cbn. destruct (threads s !! t) as [th|] eqn:Ht; [|done].
    specialize (Hend _ _ Ht). unfold ended, thread_open, thread_reg, thread_lock in *. by destruct (th_pc th). }
  assert (Hp : phase_of (main s) = Stopping) by (destruct Hm as [->|[->| ->]]; done).
  split_and!.
  - by apply Forall_lookup.
  - destruct (client_fds s) as [|fd fds] eqn:E; [done|]. assert (fd ∈ client_fds s) as Hin by (rewrite E; by left).
    apply (reg_listed _ _ _ _ _ _ H) in Hin as [a Ha]. destruct (Hno a) as (_ & ? & _). congruence.
  - destruct (clients_mutex s) as [a|] eqn:E; [|done]. apply (lock_held _ _ _ _ _ _ H) in E.
    destruct (Hno a) as (_ & _ & ?). congruence.
  - intros fd [|c|] Hd; [| |done].
    + destruct (i_socket _ I _ Hd) as [Hb| ->]; [by destruct Hm as [Hm|[Hm|Hm]]; rewrite Hm in Hb|].
      pose proof (i_stopping _ I Hp). apply (i_numbers _ I) in Hd. lia.
    + destruct (open_all _ _ _ _ _ _ H fd (conn_id c)) as [a Ha]; [by rewrite Hd|]. destruct (Hno a). congruence.
  - intros He. destruct (i_exit _ I Hp) as [?|?]; [lia|done].
Qed.

(** The rest of [busy_labels] after an interrupt. *)
Definition interrupted_labels : list label := busy_labels ++ [L_Interrupt; L_Handler; L_Handler; L_Handler; L_Handler].
Definition stopped_labels : list label :=
  interrupted_labels ++ fines 6 ++ [L_Thread 1 Fails; L_Thread 1 Fine; L_Thread 1 Fine; L_Thread 1 Fine; L_Thread 1 Fine; L_Thread 1 Fine] ++
  fines 5.

Lemma database_closed_alone_witness :
  main (after stopped_labels) = M_Done ∧ client_fds (after stopped_labels) = [] ∧ exit_code (after stopped_labels) = 0.
Proof.
  destruct (database_closed_alone (after stopped_labels)) as (_ & H & _).
  - exists stopped_labels. vm_compute. reflexivity.
  - right. right. vm_compute. reflexivity.
  - split; [vm_compute; reflexivity|split; [exact H|vm_compute; reflexivity]].
Defined.
