(* ===== verification/ServerStop.v ===== *)
(** * An interrupted server stops

    From the moment [handle_interrupt], on the main thread, sets [stop_requested], the
    process of [ServerLife] is never stuck before it ends, and the number of steps it can still take is bounded: by a
    measure of its state, plus a little for every unit that still arrives from a client and
    for every further interrupt. *)

From S2P Require Import Prelude ServerLife ServerLifeFacts.

(** ** The measure *)

Definition pend (d : option Desc) : nat := match d with Some (Connected c) => pending c | _ => 0 end.

(** The units that wait on all connections. *)
Definition total_pending (ds : gmap Z Desc) : nat := map_fold (λ _ d acc, pend (Some d) + acc)%nat 0%nat ds.

Definition close_rank (p : ClosePc) : nat := match p with C_Lock => 4 | C_Close => 3 | C_Erase => 2 | C_Unlock => 1 end.

(** The steps a client thread has before it, not counting the units it may read. *)
Definition thread_rank (th : Thread) : nat :=
  match th_pc th with
  | T_Handshake => 7 | T_Read => 6 | T_Request => 7 | T_Abort => 5 | T_Closing p => close_rank p | T_End => 0
  end.

(** The steps of the main thread, once the accept loop is no longer repeated; what it
    hands to a new thread is paid for in advance. *)
Definition main_rank (s : Life) : nat :=
  let n := length (threads s) in
  let m := length (client_fds s) in
  match main s with
  | M_Done => 0 | M_CloseDb => 1 | M_Flush => 2
  | M_Join i => 3 + (n - i) | M_StopUnlock => 4 + n | M_Shutdown rest => 5 + n + length rest
  | M_StopLock => 6 + n + m | M_Clear => 7 + n + m | M_CloseListening => 8 + n + m | M_End => 9 + n + m
  | M_Loop => 10 + n + m | M_AcceptFailed => 11 + n + m | M_Accept _ => 12 + n + m | M_Load => 13 + n + m
  | M_Discard _ _ => 11 + n + m | M_Closing _ _ p => 10 + close_rank p + n + m
  | M_Spawn _ _ => 20 + n + m | M_Unlock _ _ => 21 + n + m | M_Push _ _ => 23 + n + m
  | M_Register _ _ => 24 + n + m | M_Configure _ _ => 25 + n + m
  | M_Assign _ => 11 + n + m | M_BindFailed _ => 7 + n + m | M_Bind _ => 12 + n + m
  | M_Socket => 13 + n + m | M_Recover => 14 + n + m | M_Open => 15 + n + m
  end.

Definition handler_rank (h : option HandlerPc) : nat :=
  match h with None => 0 | Some H_Set => 4 | Some H_Test => 3 | Some H_Close => 2 | Some H_Clear => 1 end.

Definition life_rank (s : Life) : nat :=
  main_rank s + sum_list (thread_rank <$> threads s) + handler_rank (handler s) + 2 * total_pending (descs s).

(** ** How system calls change it *)

Lemma total_insert_new fd d (ds : gmap Z Desc) : ds !! fd = None →
  total_pending (<[fd := d]> ds) = (pend (Some d) + total_pending ds)%nat.
Proof. intros H. unfold total_pending. rewrite map_fold_insert_L; [done|intros; lia|done]. Qed.

Lemma total_delete fd (ds : gmap Z Desc) :
  (total_pending (delete fd ds) + pend (ds !! fd))%nat = total_pending ds.
Proof.
  destruct (ds !! fd) as [d|] eqn:E.
  - rewrite <- (insert_delete_id ds fd d E) at 2. rewrite total_insert_new by apply lookup_delete_eq. lia.
  - rewrite delete_id by done. cbn. lia.
Qed.

Lemma total_insert fd d (ds : gmap Z Desc) :
  (total_pending (<[fd := d]> ds) + pend (ds !! fd))%nat = (pend (Some d) + total_pending ds)%nat.
Proof.
  rewrite <- (total_delete fd ds), <- insert_delete_eq, total_insert_new by apply lookup_delete_eq. lia.
Qed.

Lemma sum_insert (ts : list Thread) t th th' : ts !! t = Some th →
  (sum_list (thread_rank <$> <[t := th']> ts) + thread_rank th = sum_list (thread_rank <$> ts) + thread_rank th')%nat.
Proof.
  revert t. induction ts as [|x ts IH]; intros [|t] Ht; [done..| |]; csimpl in *; [simplify_eq; lia|].
  specialize (IH t Ht). lia.
Qed.

Lemma os_read_total fd s s' : os_read fd s = Some s' →
  (S (total_pending (descs s')) = total_pending (descs s))%nat ∧
  ∃ ds, s' = set_descs ds s.
Proof.
  intros (n & p & sh & br & Hd & ->)%os_read_inv. split; [|by eexists]. cbn.
  pose proof (total_insert fd (Connected (mkConn n p sh br)) (descs s)) as H. rewrite Hd in H. cbn in H. lia.
Qed.

(** ** Every step of the process gets nearer to the end *)

Lemma close_client_rank a fd n p s s1 next : close_client a fd n p s = Some (s1, next) →
  main s1 = main s ∧ threads s1 = threads s ∧ handler s1 = handler s ∧
  (total_pending (descs s1) ≤ total_pending (descs s))%nat ∧ (length (client_fds s1) ≤ length (client_fds s))%nat ∧
  match next with Some p' => close_rank p = S (close_rank p') | None => close_rank p = 1%nat end.
Proof.
  destruct p; cbn; [destruct (clients_mutex s); [done|]|..]; intros [= <- <-]; cbn; split_and!; try done.
  - pose proof (total_delete fd (descs s)). lia.
  - apply length_filter.
Qed.

(** Projections of updated states, leaving sums and folds alone. *)
Ltac life_cbn := cbn [set_main set_handler set_threads set_stop set_listening set_mutex set_client_fds set_database
  set_exit set_descs count_conn misdirect os_close main handler threads stop_requested listening_fd clients_mutex client_fds
  database_open exit_code descs next_conn misdirected th_fd th_conn th_pc handler_rank close_rank pend pending] in *.

Lemma thread_step_rank o t th s s' : threads s !! t = Some th → thread_step o t th s = Some s' →
  (life_rank s' < life_rank s)%nat.
Proof.
  intros Ht Hs. unfold thread_step in Hs. unfold life_rank.
  destruct (th_pc th) as [| | | |p|] eqn:Epc; destruct o; try discriminate Hs;
    try (destruct (read_fails _ _); try discriminate Hs).
  all: try (apply fmap_Some in Hs as (s1 & (Htot & ds & ->)%os_read_total & ->)).
  all: try (apply bind_Some in Hs as ([s1 next] & Hc & Hs);
            destruct (close_client_rank _ _ _ _ _ _ _ Hc) as (Em & Et & Eh & Hp & Hf & Hr)).
  all: try (apply (inj Some) in Hs as <-).
  all: life_cbn.
  all: match goal with |- context [thread_rank <$> <[_ := ?x]> _] => pose proof (sum_insert _ _ _ x Ht) as Hsum end.
  all: unfold thread_rank at 2 4 in Hsum; life_cbn; rewrite Epc in Hsum.
  all: unfold main_rank; life_cbn; rewrite ?length_insert.
  all: try (destruct (main s); lia).
  rewrite Em, Et, Eh. destruct next; destruct (main s); lia.
Qed.

(** Once the interrupt is handled, [accept] has no server socket to wait on. *)
Lemma accept_closed s lfd : life_inv s → stop_requested s = true → handler s = None → main s = M_Accept lfd →
  descs s !! lfd ≠ Some ServerSocket.
Proof.
  intros I Hst Hh Hm Hd. destruct (i_socket _ I _ Hd) as [Hb| ->]; [by rewrite Hm in Hb|].
  destruct (i_early _ I Hst Hh) as [_ He]; [by eapply (i_numbers _ I)|]. by rewrite Hm in He.
Qed.

Lemma startup_step_rank o s s' : startup_step o s = Some s' → (life_rank s' < life_rank s)%nat.
Proof.
  intros Hs. unfold startup_step in Hs. unfold life_rank, main_rank.
  destruct (main s) eqn:Epc; destruct o; try discriminate Hs.
  all: try (apply fmap_Some in Hs as (s1 & (Hd & _ & ->)%os_new_inv & ->)); try (apply (inj Some) in Hs as <-).
  all: unfold run_failed; life_cbn; rewrite ?total_insert_new by done; life_cbn.
  all: try match goal with |- context [delete ?x ?ds] => pose proof (total_delete x ds) end; lia.
Qed.

Lemma serve_step_rank o s s' : life_inv s → stop_requested s = true → handler s = None →
  serve_step o s = Some s' → (life_rank s' < life_rank s)%nat.
Proof.
  intros I Hst Hh Hs. pose proof (accept_closed s) as Hacc. unfold serve_step in Hs. unfold life_rank, main_rank.
  rewrite ?Hst in Hs. destruct (main s) eqn:Epc; destruct o; try discriminate Hs.
  all: try (destruct (clients_mutex s); [discriminate Hs|]).
  all: try (specialize (Hacc _ I Hst Hh eq_refl); destruct (descs s !! fd) as [[]|]; try discriminate Hs; try done).
  all: try (apply bind_Some in Hs as ([s1 next] & Hc & Hs);
            destruct (close_client_rank _ _ _ _ _ _ _ Hc) as (Em & Et & Eh & Hp & Hf & Hr)).
  all: try (apply (inj Some) in Hs as <-); life_cbn; rewrite ?length_app, ?fmap_app, ?sum_list_with_app; cbn [length].
  all: try match goal with |- context [delete ?x ?ds] => pose proof (total_delete x ds) end.
  all: try (rewrite Et, Eh; destruct next; lia).
  all: try (case_match; lia).
  all: try lia.
  - change (sum_list (thread_rank <$> [mkThread fd n T_Handshake])) with 7%nat. lia.
  - destruct (0 <=? listening_fd s); lia.
Qed.

Lemma stop_step_rank o s s' : stop_step o s = Some s' → (life_rank s' < life_rank s)%nat.
Proof.
  intros Hs. unfold stop_step in Hs. unfold life_rank, main_rank.
  destruct (main s) as [| | | | | | | | | | | | | | | | | | | | |rest| |i| | |] eqn:Epc; destruct o; try discriminate Hs;
    try (destruct rest; discriminate Hs).
  all: try (destruct (clients_mutex s); [discriminate Hs|]).
  all: try (destruct rest as [|fd rest]).
  all: try (destruct (threads s !! i) as [th|] eqn:Eth; [apply lookup_lt_Some in Eth; destruct (ended th); [|discriminate Hs]|]).
  all: apply (inj Some) in Hs as <-; life_cbn; cbn [length]; try lia.
  - unfold os_shutdown. destruct (descs s !! fd) as [[|c|]|] eqn:Ed; life_cbn; try lia.
    match goal with |- context [<[fd := ?d]> _] => pose proof (total_insert fd d (descs s)) as Ht end.
    rewrite Ed in Ht. life_cbn. lia.
  - destruct (database_open s); lia.
Qed.

Lemma main_step_rank o s s' : life_inv s → stop_requested s = true → handler s = None → main_step o s = Some s' →
  (life_rank s' < life_rank s)%nat.
Proof.
  intros I Hst Hh. unfold main_step. destruct (startup_step o s) eqn:E1; [intros [= <-]; by eapply startup_step_rank|].
  destruct (serve_step o s) eqn:E2; [intros [= <-]; by eapply serve_step_rank|]. apply stop_step_rank.
Qed.

Lemma handler_rank_step h s : handler s = Some h → (life_rank (main_handler h s) < life_rank s)%nat.
Proof.
  intros Hh. unfold life_rank, main_rank. rewrite Hh. destruct h; cbn [main_handler handle_interrupt]; life_cbn; try lia.
  - destruct (0 <=? listening_fd s); life_cbn; lia.
  - pose proof (total_delete (listening_fd s) (descs s)). lia.
Qed.

Lemma process_step_rank l s s' : life_inv s → stop_requested s = true → is_process l = true → step l s = Some s' →
  (life_rank s' < life_rank s)%nat.
Proof.
  intros I Hst Hl Hs. destruct l; try discriminate Hl; cbn [step] in Hs.
  - destruct (handler s) eqn:Eh; [done|]. by eapply main_step_rank.
  - apply bind_Some in Hs as (th & Ht & Hs). by eapply thread_step_rank.
  - destruct (handler s) eqn:Eh; [|done]. apply (inj Some) in Hs as <-. by apply handler_rank_step.
Qed.

(** What the environment adds. *)
Definition label_cost (l : label) : nat := match l with L_Arrive _ => 2 | L_Interrupt => 4 | _ => 0 end.

Lemma environment_step_rank l s s' : is_process l = false → step l s = Some s' →
  (life_rank s' ≤ life_rank s + label_cost l)%nat.
Proof.
  intros Hl Hs. destruct l as [o|t o| | |fd|fd| |fd|fd]; try discriminate Hl; cbn [step label_cost] in *; unfold life_rank, main_rank.
  - destruct (handler s) eqn:Eh; [done|]. destruct (main s) eqn:Em; try discriminate Hs; apply (inj Some) in Hs as <-; life_cbn; rewrite Em; lia.
  - destruct (descs s !! fd) as [[|c|]|] eqn:Ed; try discriminate Hs. destruct (shut c); [done|].
    apply set_conn_inv in Hs as (c' & Hd & ->). life_cbn.
    match goal with |- context [<[fd := ?d]> _] => pose proof (total_insert fd d (descs s)) as Ht end.
    rewrite Hd in Ht. life_cbn. lia.
  - apply set_conn_inv in Hs as (c' & Hd & ->). life_cbn.
    match goal with |- context [<[fd := ?d]> _] => pose proof (total_insert fd d (descs s)) as Ht end.
    rewrite Hd in Ht. life_cbn. lia.
  - destruct (handler s) eqn:Eh; [done|]. destruct (main s); try discriminate Hs. apply (inj Some) in Hs as <-.
    life_cbn. rewrite Eh. life_cbn. lia.
  - destruct (in_database s); [|done]. apply os_new_inv in Hs as (Hd & _ & ->). life_cbn.
    rewrite total_insert_new by done. life_cbn. lia.
  - destruct (descs s !! fd) as [[]|]; try discriminate Hs. destruct (in_database s); [|done].
    apply (inj Some) in Hs as <-. life_cbn. pose proof (total_delete fd (descs s)). lia.
Qed.

(** ** Somebody can always go on *)

Definition can_step (s : Life) : Prop := ∃ l, is_process l = true ∧ is_Some (step l s).

Lemma thread_can_step s t th o : threads s !! t = Some th → is_Some (thread_step o t th s) → can_step s.
Proof. intros Ht H. exists (L_Thread t o). cbn. by rewrite Ht. Qed.

(** Whoever holds the mutex is inside a critical section and leaves it. *)
Lemma mutex_can_step s t : life_inv s → clients_mutex s = Some (Client t) → can_step s.
Proof.
  intros I Hmx%(lock_held _ _ _ _ _ _ (i_owned _ I)). cbn in Hmx. destruct (threads s !! t) as [th|] eqn:Ht; [|done].
  apply (thread_can_step _ _ _ Fine Ht). unfold thread_lock in Hmx. unfold thread_step.
  by destruct (th_pc th) as [| | | |[]|]; cbn.
Qed.

Lemma unlocked_can_step s : life_inv s → main_lock (main s) = false → (clients_mutex s = None → can_step s) → can_step s.
Proof.
  intros I Hl H. destruct (clients_mutex s) as [[|t]|] eqn:Emx; [|by apply (mutex_can_step _ t)|by apply H].
  apply (lock_held _ _ _ _ _ _ (i_owned _ I)) in Emx. cbn in Emx. congruence.
Qed.

(** A thread that is being joined reads from a connection that was shut down. *)
Lemma joined_can_step s i t th : life_inv s → main s = M_Join i → threads s !! t = Some th → ended th = false → can_step s.
Proof.
  intros I Hm Ht He. pose proof (i_owned _ I) as H.
  assert (Hread : holds_connection th = true → read_fails (th_fd th) s = true).
  { intros Hh. unfold read_fails. destruct (descs s !! th_fd th) as [[|c|]|] eqn:Ed; try done.
    rewrite (i_drained _ I [] (th_fd th) c); [done|by rewrite Hm| |by intros ?%elem_of_nil|done].
    apply (reg_listed _ _ _ _ _ _ H). exists (Client t). cbn. rewrite Ht. unfold thread_reg, holds_connection in *.
    by destruct (th_pc th) as [| | | |[]|]. }
  unfold holds_connection, ended in *. destruct (th_pc th) as [| | | |p|] eqn:Epc; try done.
  - apply (thread_can_step _ _ _ Fails Ht). unfold thread_step. by rewrite Epc, Hread.
  - apply (thread_can_step _ _ _ Fails Ht). unfold thread_step. by rewrite Epc, Hread.
  - apply (thread_can_step _ _ _ Fine Ht). unfold thread_step. by rewrite Epc.
  - apply (thread_can_step _ _ _ Fine Ht). unfold thread_step. by rewrite Epc.
  - apply unlocked_can_step; [done|by rewrite Hm|]. intros Hmx.
    apply (thread_can_step _ _ _ Fine Ht). unfold thread_step. rewrite Epc. destruct p; cbn; by rewrite ?Hmx.
Qed.

Lemma main_can_step s o : handler s = None → is_Some (main_step o s) → can_step s.
Proof. intros Hh H. exists (L_Main o). cbn. by rewrite Hh. Qed.

Lemma stopping_can_step s : life_inv s → stop_requested s = true → main s ≠ M_Done → can_step s.
Proof.
  intros I Hst Hd. destruct (handler s) as [h|] eqn:Eh; [exists L_Handler; cbn; by rewrite Eh|].
  pose proof (main_can_step s Fine Eh) as Hfine. pose proof (main_can_step s Fails Eh) as Hfails.
  pose proof (accept_closed s) as Hacc. pose proof (unlocked_can_step s I) as Hun. pose proof (joined_can_step s) as Hjoin.
  unfold main_step, startup_step, serve_step, stop_step in Hfine, Hfails.
  destruct (main s) as [| | | | | | | |lfd| | | | | | | |fd n p| | | | |rest| |i| | |] eqn:Epc.
  all: try (apply Hfine; eauto; done); try (apply Hfails; eauto; done).
  - apply Hfails. specialize (Hacc lfd I Hst Eh eq_refl). destruct (descs s !! lfd) as [[]|]; by eauto.
  - apply Hun; [done|]. intros Hmx. apply Hfine. rewrite Hmx. by eauto.
  - destruct p; try (apply Hfine; cbn; by eauto). apply Hun; [done|]. intros Hmx. apply Hfine. cbn. rewrite Hmx. by eauto.
  - apply Hun; [done|]. intros Hmx. apply Hfine. rewrite Hmx. by eauto.
  - apply Hfine. destruct rest; by eauto.
  - destruct (threads s !! i) as [th|] eqn:Et; [|by apply Hfine; eauto].
    destruct (ended th) eqn:Ee; [apply Hfine; by eauto|]. by apply (Hjoin i i th I eq_refl Et).
Qed.

(** Only the handler writes [stop_requested], and it writes 1. *)
Lemma os_new_stop fd d s s' : os_new fd d s = Some s' → stop_requested s' = stop_requested s.
Proof. by intros (_ & _ & ->)%os_new_inv. Qed.

Lemma close_client_stop a fd n p s s1 next : close_client a fd n p s = Some (s1, next) → stop_requested s1 = stop_requested s.
Proof. by intros (ds & fds & mx & m & -> & _)%close_client_effect. Qed.

Lemma main_step_stop o s s' : main_step o s = Some s' → stop_requested s' = stop_requested s.
Proof.
  intros Hs. unfold main_step in Hs. destruct (startup_step o s) eqn:E1; [|destruct (serve_step o s) eqn:E2].
  - simplify_eq. unfold startup_step in E1. destruct (main s), o; try discriminate E1;
      (apply fmap_Some in E1 as (s1 & ?%os_new_stop & ->) || apply (inj Some) in E1 as <-); done.
  - simplify_eq. unfold serve_step in E2. destruct (main s), o; try discriminate E2; repeat (case_match; try discriminate E2);
      (apply fmap_Some in E2 as (s1 & ?%os_new_stop & ->) ||
       apply bind_Some in E2 as ([s1 next] & ?%close_client_stop & [= <-]) || apply (inj Some) in E2 as <-); done.
  - unfold stop_step, os_shutdown in Hs. destruct (main s), o; try discriminate Hs; repeat (case_match; try discriminate Hs);
      apply (inj Some) in Hs as <-; done.
Qed.

Lemma stop_kept l s s' : stop_requested s = true → step l s = Some s' → stop_requested s' = true.
Proof.
  intros Hst Hs. destruct l as [o|t o| | |fd|fd| |fd|fd]; cbn [step] in Hs.
  - destruct (handler s); [done|]. by rewrite (main_step_stop _ _ _ Hs).
  - apply bind_Some in Hs as (th & Ht & Hs). destruct (thread_step_inv _ _ _ _ _ Ht Hs)
      as [(pc' & ds & _ & _ & -> & _)|(p & s1 & next & _ & ?%close_client_stop & ->)]; cbn; congruence.
  - destruct (handler s) as [[]|]; try discriminate Hs; apply (inj Some) in Hs as <-; done.
  - repeat (case_match; try discriminate Hs); apply (inj Some) in Hs as <-; done.
  - repeat (case_match; try discriminate Hs). by apply set_conn_inv in Hs as (c' & _ & ->).
  - by apply set_conn_inv in Hs as (c' & _ & ->).
  - repeat (case_match; try discriminate Hs); apply (inj Some) in Hs as <-; done.
  - case_match; [|done]. by rewrite (os_new_stop _ _ _ _ Hs).
  - repeat (case_match; try discriminate Hs); apply (inj Some) in Hs as <-; done.
Qed.

(** ** Termination *)

Lemma run_to_end k : ∀ s, (life_rank s ≤ k)%nat → life_inv s → stop_requested s = true →
  ∃ ls s', forallb is_process ls = true ∧ run_labels ls s = Some s' ∧ main s' = M_Done.
Proof.
  induction k as [k IH] using lt_wf_ind. intros s Hk I Hst.
  assert (Hdec : main s = M_Done ∨ main s ≠ M_Done) by (destruct (main s); auto).
  destruct Hdec as [Hd|Hd]; [by exists [], s|]. destruct (stopping_can_step s I Hst Hd) as (l & Hl & s1 & Hs).
  pose proof (process_step_rank _ _ _ I Hst Hl Hs).
  destruct (IH (life_rank s1) ltac:(lia) s1 ltac:(done) (step_inv _ _ _ I Hs) (stop_kept _ _ _ Hst Hs))
    as (ls & s' & Hls & Hr & Hm).
  exists (l :: ls), s'. cbn. by rewrite Hl, Hs.
Qed.
