(* ===== verification/Signals.v ===== *)
(** * SIGINT on any thread

    The process of [ServerLife] with the threads that may handle SIGINT.  As long as the
    main thread handles it, descriptors are only closed by their owners and the server
    stops; a client thread that handles it breaks both. *)

From S2P Require Import Prelude ServerLife ServerLifeFacts ServerStop.

(** ** The main thread handles the signal

    A waiting [accept] then has the server socket open. *)

Record quiet (p : Process) : Prop := {
  q_inv : life_inv (life p);
  q_clients : on_clients p = ∅;
  q_waiting : waiting p = true → handler (life p) = None ∧ 0 ≤ listening_fd (life p) ∧ main (life p) = M_Accept (listening_fd (life p)) }.

(** The steps that leave the main thread where it is. *)
Definition stays (l : label) : bool :=
  match l with L_Main _ | L_Interrupt | L_AcceptError => false | _ => true end.

Lemma stays_main l s s' : stays l = true → handler s = None → step l s = Some s' →
  handler s' = None ∧ main s' = main s ∧ listening_fd s' = listening_fd s.
Proof.
  intros Hl Hh Hs. destruct l as [o|t o| | |fd|fd| |fd|fd]; try discriminate Hl; cbn [step] in Hs; rewrite ?Hh in Hs.
  - apply bind_Some in Hs as (th & Ht & Hs). destruct (thread_step_inv _ _ _ _ _ Ht Hs)
      as [(pc' & ds & _ & _ & -> & _)|(p & s1 & next & _ & (ds & fds & mx & m & -> & _)%close_client_effect & ->)]; done.
  - done.
  - repeat (case_match; try discriminate Hs). by apply set_conn_inv in Hs as (c' & _ & ->).
  - by apply set_conn_inv in Hs as (c' & _ & ->).
  - case_match; [|done]. by apply os_new_inv in Hs as (_ & _ & ->).
  - repeat (case_match; try discriminate Hs). by apply (inj Some) in Hs as <-.
Qed.

Lemma waiting_socket p : quiet p → waiting p = true →
  descs (life p) !! listening_fd (life p) = Some ServerSocket.
Proof. intros [I _ Hw] (Hh & Hl & Hm)%Hw. apply (i_listening _ I); [done|by rewrite Hm|by rewrite Hh]. Qed.

(** A connection that a waiting [accept] returns is one that a new call would return. *)
Lemma accept_waiting_step p fd : quiet p → waiting p = true →
  accept_waiting fd (life p) = step (L_Main (Gives fd)) (life p).
Proof.
  intros Q Hw. pose proof (waiting_socket _ Q Hw) as Hd. destruct (q_waiting _ Q Hw) as (Hh & _ & Hm).
  cbn [step]. rewrite Hh. unfold main_step, startup_step, serve_step, stop_step. rewrite Hm, Hd. unfold accept_waiting. by destruct (_ <$> _).
Qed.

Lemma life_step_inv l p p' : quiet p → life_step l p = Some p' →
  step l (life p) = Some (life p') ∧ on_clients p' = ∅ ∧ (waiting p' = true → waiting p = true ∧ stays l = true).
Proof.
  intros Q Hs. pose proof (q_clients _ Q) as Hc. unfold life_step in Hs. rewrite ?Hc, ?lookup_empty in Hs.
  destruct l as [[| |fd]|t o| | |fd|fd| |fd|fd]; try (destruct (waiting p) eqn:Hw; [discriminate Hs|]).
  3: { destruct (waiting p) eqn:Hw; [rewrite (accept_waiting_step _ _ Q Hw) in Hs|]; by apply fmap_Some in Hs as (s & Hs & ->). }
  all: rewrite ?lookup_empty in Hs; apply fmap_Some in Hs as (s & Hs & ->); by split_and!.
Qed.

Lemma quiet_life_step l p p' : quiet p → life_step l p = Some p' → quiet p' ∧ step l (life p) = Some (life p').
Proof.
  intros Q (Hs & Hc & Hw)%life_step_inv; [|done]. split; [|done]. split; [by eapply step_inv; [apply Q|]|done|].
  intros [Hp Hl]%Hw. destruct (q_waiting _ Q Hp) as (Hh & H0 & Hm).
  destruct (stays_main _ _ _ Hl Hh Hs) as (-> & -> & ->). done.
Qed.

Lemma quiet_enter p p' : quiet p → process_step P_Enter p = Some p' →
  quiet p' ∧ life p' = life p ∧ stop_requested (life p) = false.
Proof.
  intros [I Hc _] Hs. cbn [process_step] in Hs. destruct (handler (life p)) eqn:Hh; [done|]. destruct (main (life p)) as [| | | | | | | |lfd| | | | | | | | | | | | | | | | | |] eqn:Hm; try done.
  destruct (waiting p); [done|]. destruct (descs (life p) !! lfd) as [[]|] eqn:Hd; try done. apply (inj Some) in Hs as <-.
  assert (Hst : stop_requested (life p) = false).
  { destruct (stop_requested (life p)) eqn:E; [|done]. by destruct (accept_closed _ _ I E Hh Hm). }
  destruct (i_socket _ I _ Hd) as [Hb| ->]; [by rewrite Hm in Hb|]. split_and!; try done. split; try done.
  intros _. split_and!; [done| |done]. by eapply (i_numbers _ I).
Qed.

Lemma quiet_step l p p' : quiet p → signals_main l = true → process_step l p = Some p' →
  quiet p' ∧ (l = P_Enter ∧ life p' = life p ∧ stop_requested (life p) = false ∨
              ∃ k, l = P_Life k ∧ step k (life p) = Some (life p')).
Proof.
  intros Q Hl Hs. destruct l as [k| |t|t]; [| | |done].
  - destruct (quiet_life_step _ _ _ Q Hs). naive_solver.
  - destruct (quiet_enter _ _ Q Hs) as (? & ? & ?). naive_solver.
  - cbn in Hs. by rewrite (q_clients _ Q), lookup_empty in Hs.
Qed.

Lemma quiet_run ls : ∀ p p', quiet p → forallb signals_main ls = true → run_process ls p = Some p' → quiet p'.
Proof.
  induction ls as [|l ls IH]; intros p p' Q Hl Hr; cbn in Hl, Hr; [by simplify_eq|].
  apply andb_prop in Hl as [Hl Hls]. apply bind_Some in Hr as (p1 & Hs & Hr). by eapply IH; [eapply quiet_step| |].
Qed.

Lemma quiet_start : quiet start_process.
Proof. by split; [apply start_inv| |]. Qed.

(** C5. Whatever the interleaving of the main thread, the client threads and the signal
    handler, as long as SIGINT is handled by the main thread (the kernel may choose any,
    see [signal_on_client_thread_misdirects]): no [close] and no [shutdown] ever hits a
    descriptor that its caller does not own, although the numbers of closed descriptors are
    given out again at once; every client thread that has not closed its connection has it
    open, no two threads have the same number, and [client_fds_] lists no number twice and,
    whenever the mutex is free, only connections that are open. *)
Theorem server_descriptors_owned ls p :
  run_process ls start_process = Some p → forallb signals_main ls = true →
  misdirected (life p) = 0%nat ∧ NoDup (client_fds (life p)) ∧
  (∀ t th, threads (life p) !! t = Some th → holds_connection th = true →
    is_conn (th_conn th) (descs (life p) !! th_fd th) = true ∧ th_fd th ∈ client_fds (life p) ∧
    (∀ u th', threads (life p) !! u = Some th' → holds_connection th' = true → th_fd th' = th_fd th → u = t)) ∧
  (clients_mutex (life p) = None → ∀ fd, fd ∈ client_fds (life p) → ∃ n, is_conn n (descs (life p) !! fd) = true).
Proof. intros Hr Hm. apply inv_descriptors_owned, (quiet_run ls _ _ quiet_start Hm Hr). Qed.

Definition after_process (ls : list process_label) : Process := default start_process (run_process ls start_process).

(** Two clients, the second with the number of the first; the main thread waits in [accept]. *)
Definition busy_process : list process_label :=
  (P_Life <$> busy_labels) ++ (P_Life <$> fines 2) ++ [P_Enter].

Lemma server_descriptors_owned_witness :
  misdirected (life (after_process busy_process)) = 0%nat ∧ NoDup (client_fds (life (after_process busy_process))) ∧
  client_fds (life (after_process busy_process)) = [4] ∧ waiting (after_process busy_process) = true.
Proof.
  destruct (server_descriptors_owned busy_process (after_process busy_process)) as (H1 & H2 & _ & _).
  - vm_compute. reflexivity.
  - vm_compute. reflexivity.
  - split; [exact H1|split; [exact H2|split; vm_compute; reflexivity]].
Defined.

(** ** Stopping *)

Definition process_cost (l : process_label) : nat := match l with P_Life l => label_cost l | _ => 0 end.
Definition steps_taken (ls : list process_label) : nat := length (List.filter by_process ls).
Definition added_cost (ls : list process_label) : nat := sum_list (process_cost <$> ls).

Section Stopping.
Context (p : Process) (Q : quiet p) (Hst : stop_requested (life p) = true).

Lemma stopping_not_waiting : waiting p = false.
Proof.
  destruct (waiting p) eqn:Hw; [|done]. destruct (q_waiting _ Q Hw) as (Hh & _ & Hm).
  by destruct (accept_closed _ _ (q_inv _ Q) Hst Hh Hm (waiting_socket _ Q Hw)).
Qed.

Lemma stopping_life_step l s' : step l (life p) = Some s' → process_step (P_Life l) p = Some (mkProcess s' ∅ false).
Proof.
  intros Hs. cbn [process_step]. unfold life_step. rewrite stopping_not_waiting, (q_clients _ Q).
  destruct l as [[]|t o| | | | | | |]; rewrite ?lookup_empty, Hs; done.
Qed.

Lemma stopping_process_step l p' : signals_main l = true → process_step l p = Some p' →
  ∃ k, l = P_Life k ∧ step k (life p) = Some (life p') ∧ quiet p' ∧ stop_requested (life p') = true.
Proof.
  intros Hl Hs. destruct (quiet_step _ _ _ Q Hl Hs) as (Q' & [(_ & _ & ?)|(k & -> & Hk)]); [congruence|].
  exists k. split_and!; try done. by eapply stop_kept.
Qed.

End Stopping.

Lemma process_bounded ls : ∀ p p', quiet p → stop_requested (life p) = true → forallb signals_main ls = true →
  run_process ls p = Some p' → (steps_taken ls + life_rank (life p') ≤ life_rank (life p) + added_cost ls)%nat.
Proof.
  induction ls as [|l ls IH]; intros p p' Q Hst Hl Hr; cbn [run_process] in Hr; [simplify_eq; cbn; lia|].
  cbn in Hl. apply andb_prop in Hl as [Hl Hls]. apply bind_Some in Hr as (p1 & Hs & Hr).
  destruct (stopping_process_step p Q Hst _ _ Hl Hs) as (k & -> & Hk & Q1 & Hst1). specialize (IH _ _ Q1 Hst1 Hls Hr).
  unfold steps_taken, added_cost in *. csimpl. destruct (is_process k) eqn:Ek.
  - pose proof (process_step_rank _ _ _ (q_inv _ Q) Hst Ek Hk). cbn [length]. lia.
  - pose proof (environment_step_rank _ _ _ Ek Hk). lia.
Qed.

Lemma process_run_labels ls : ∀ p s', quiet p → stop_requested (life p) = true → run_labels ls (life p) = Some s' →
  ∃ p', run_process (P_Life <$> ls) p = Some p' ∧ life p' = s'.
Proof.
  induction ls as [|l ls IH]; intros p s' Q Hst Hr; cbn [run_labels] in Hr; [simplify_eq; by exists p|].
  apply bind_Some in Hr as (s1 & Hs & Hr). pose proof (stopping_life_step p Q Hst _ _ Hs) as Hp.
  destruct (stopping_process_step p Q Hst (P_Life l) _ eq_refl Hp) as (_ & _ & _ & Q1 & Hst1).
  destruct (IH _ s' Q1 Hst1 Hr) as (p' & Hr' & Hl). exists p'. split; [|done]. rewrite fmap_cons. cbn [run_process]. by rewrite Hp.
Qed.

(** C6. An interrupted server stops, when the main thread handles SIGINT (see
    [signal_on_client_thread_hangs]) and every request and every abort of a transaction
    returns.  Once [stop_requested] is set, whatever the clients do: until the process has
    ended some thread can take a step (the accept call fails because the handler closed its
    socket, blocked reads end because [stop_clients] shut the connections down, and nobody
    waits for a thread while holding the mutex); a run takes at most [life_rank] steps, and
    two more for every unit that arrives and four for every further interrupt; and the steps
    of the process alone lead to its end. *)
Theorem interrupted_server_stops ls p :
  run_process ls start_process = Some p → forallb signals_main ls = true → stop_requested (life p) = true →
  (main (life p) = M_Done ∨ ∃ l p', by_process l = true ∧ process_step l p = Some p') ∧
  (∀ ls p', forallb signals_main ls = true → run_process ls p = Some p' →
    (steps_taken ls ≤ life_rank (life p) + added_cost ls)%nat) ∧
  (∃ ls p', forallb by_process ls = true ∧ run_process ls p = Some p' ∧ main (life p') = M_Done).
Proof.
  intros Hr Hm Hst. pose proof (quiet_run ls _ _ quiet_start Hm Hr) as Q. split_and!.
  - assert (Hdec : main (life p) = M_Done ∨ main (life p) ≠ M_Done) by (destruct (main (life p)); auto).
    destruct Hdec as [Hd|Hd]; [by left|right]. destruct (stopping_can_step _ (q_inv _ Q) Hst Hd) as (l & Hl & s1 & Hs).
    exists (P_Life l), (mkProcess s1 ∅ false). split; [done|]. by apply stopping_life_step.
  - intros ls' p' Hl Hr'. pose proof (process_bounded _ _ _ Q Hst Hl Hr'). lia.
  - destruct (run_to_end _ (life p) (Nat.le_refl _) (q_inv _ Q) Hst) as (ks & s' & Hks & Hr' & Hd).
    destruct (process_run_labels _ _ _ Q Hst Hr') as (p' & Hp & <-). exists (P_Life <$> ks), p'. split_and!; [|done..].
    clear -Hks. induction ks as [|k ks IH]; [done|]. cbn in *. destruct (is_process k); naive_solver.
Qed.

(** [accept] waits, SIGINT interrupts it. *)
Definition interrupted_process : list process_label :=
  busy_process ++ (P_Life <$> [L_Interrupt; L_Handler; L_Handler; L_Handler; L_Handler]).

Lemma interrupted_server_stops_witness :
  stop_requested (life (after_process interrupted_process)) = true ∧
  ∃ ls p', forallb by_process ls = true ∧ run_process ls (after_process interrupted_process) = Some p' ∧ main (life p') = M_Done.
Proof.
  destruct (interrupted_server_stops interrupted_process (after_process interrupted_process)) as (_ & _ & H).
  - vm_compute. reflexivity.
  - vm_compute. reflexivity.
  - vm_compute. reflexivity.
  - split; [vm_compute; reflexivity|exact H].
Defined.

(** ** A client thread handles the signal *)

(** One client is connected; the main thread waits for another. *)
Definition one_client : list process_label :=
  (P_Life <$> startup_labels ++ accept_labels 4 ++ fines 5 ++ fines 2) ++ [P_Enter].

(** The handler on the thread of client 0 has tested [listening_fd] when a second client
    connects; the main thread then leaves its loop and closes the socket itself, a request
    of the second client opens a file, and the handler closes the number again. *)
Definition misdirecting : list process_label :=
  one_client ++ [P_Signal 0; P_Handle 0; P_Handle 0] ++ [P_Life (L_Main (Gives 5))] ++ (P_Life <$> fines 5) ++
  (P_Life <$> [L_Arrive 5; L_Thread 1 Fine; L_Arrive 5; L_Thread 1 Fine]) ++ (P_Life <$> fines 3) ++
  [P_Life (L_OpenFile 3); P_Handle 0].


Definition hanging : list process_label := one_client ++ [P_Signal 0] ++ replicate 4 (P_Handle 0).

