(* ===== verification/Startup.v ===== *)
(** * Starting the server

    Models [main] of [src/src/rmdb.cpp], [Server::start] and the beginning of
    [Server::run] in [src/src/server/server.cpp]: the command line, making the database
    when it does not exist, and opening it.  From there on the process lives as
    [ServerLife] says.  [SmManager::open_db] and [DiskManager::create_file] are exercises:
    arguments here.

    [server_starts]: what a start leaves on disk and how the process goes on. *)

From S2P Require Import Prelude Errors Common Catalog System WireText Client SqlClient Lexer Options OptionsFacts.
From S2P Require Import DiskManager DiskManagerFacts ServerLife ServerLifeFacts ServerStop.

Section Start.
Context (fs_what : string → Z → string) (errno_text : string) (dump : Json → bytes).
Context (create_file : string → IO DiskManager unit) (open_db : string → IO DiskManager unit).

(** The [try] block of [run] up to the end of [open_db]. *)
Definition open_database (database_name : string) : IO DiskManager unit :=
  exists_ ← sm_is_dir database_name;
  _ ← (if exists_ : bool then mret tt else create_db fs_what create_file dump database_name);
  open_db database_name.

Definition thrown_what (t : thrown) : bytes := match t with Rmdb e => str (what errno_text e) | StdError w => str w end.

(** [run] until the database is open or its handler was entered; [None] is undefined
    behaviour. *)
Definition run_open (database_name : string) (d : DiskManager) (con : Console) : option (Life * DiskManager * Console) :=
  match open_database database_name d with
  | (Return _, d) => (λ l, (l, d, con)) <$> main_step Fine start_life
  | (Raise t, d) => (λ l, (l, d, eprint (thrown_what t ++ newline) con)) <$> main_step Fails start_life
  | (Undefined, _) => None
  end.

(** [Server::start]: an exit code, or the running process with where it listens. *)
Definition server_start (program : bytes) (args : list bytes) (d : DiskManager) (con : Console)
  : option ((Z + Life * ServerArgs) * DiskManager * Console) :=
  match parse_options program args with
  | inl text => Some (inl 1, d, eprint text con)
  | inr (database, a) =>
    (λ '(l, d, con), (inr (l, a), d, con)) <$> run_open (text_string database) d con
  end.

Definition rmdb_main (program : bytes) (args : list bytes) (d : DiskManager) (con : Console)
  : option ((Z + Life * ServerArgs) * DiskManager * Console) :=
  let con := PrintRucbaseBanner con in
  let con := print (str "Welcome to RUCBase!" ++ newline ++ str "Start the client: rucbase_client -p <port>" ++ newline ++ newline) con in
  server_start program args d con.

(** ** A server that could not open its database *)

(** Where the main thread is after a failed start. *)
Definition gives_up (pc : MainPc) : bool :=
  match pc with M_StopLock | M_Shutdown [] | M_StopUnlock | M_Join _ | M_Done => true | _ => false end.

Record failed (s : Life) : Prop := {
  f_main : gives_up (main s) = true; f_threads : threads s = []; f_fds : client_fds s = [];
  f_database : database_open s = false; f_exit : exit_code s = 1; f_conn : next_conn s = 0%nat;
  f_descs : descs s = ∅; f_listening : listening_fd s = -1 }.

Lemma failed_step l s s' : failed s → step l s = Some s' → failed s'.
Proof.
  intros [Hm Ht Hf Hd He Hn Hs Hl]. destruct s as [pc h ts st lf mx cf db ex ds nc mi]. cbn in *. subst.
  destruct l as [o|t o| | |fd|fd| |fd|fd]; cbn; try done.
  - destruct h; [done|]. destruct pc; try done; try (match goal with rest : list Z |- _ => destruct rest; [|done] end); destruct o; cbn; try done.
    all: repeat first [case_match | intros [= <-]]; try done; by split.
  - destruct h as [[]|]; [..|done]; intros [= <-]; by split.
  - destruct h, pc; try done; intros [= <-]; by split.
  - destruct h, pc; try done.
  - unfold in_database. cbn. destruct pc; done.
Qed.

Lemma failed_run ls s s' : failed s → run_labels ls s = Some s' → failed s'.
Proof.
  revert s. induction ls as [|l ls IH]; intros s Hf; cbn; [by intros [= <-]|].
  destruct (step l s) as [s1|] eqn:E; cbn; [|done]. apply IH. by eapply failed_step.
Qed.

(** ** A server that opened its database

    As long as no interrupt has come, no client was accepted before the accept loop, and the
    loop is not left. *)
Record opened (s : Life) : Prop := {
  o_inv : life_inv s; o_main : main s ≠ M_Open; o_database : database_open s = true;
  o_quiet : stop_requested s = false → phase_of (main s) ≠ Serving → next_conn s = 0%nat ∧ threads s = [] }.

Lemma main_step_opened o s s' : main s ≠ M_Open → database_open s = true → main_step o s = Some s' →
  main s' ≠ M_Open ∧ database_open s' = true ∧
  (phase_of (main s') ≠ Serving →
    loop_left (main s) = true ∨ phase_of (main s) ≠ Serving ∧ next_conn s' = next_conn s ∧ threads s' = threads s).
Proof.
  intros Hm Hd Hs. unfold main_step in Hs. destruct (startup_step o s) eqn:E1; [|destruct (serve_step o s) eqn:E2]; simplify_eq.
  - unfold startup_step in E1. destruct (main s), o; try discriminate E1;
      (apply fmap_Some in E1 as (s1 & (_ & _ & ->)%os_new_inv & ->) || apply (inj Some) in E1 as <-); try done; cbn; (split; [done|split; [done|]]); intros ?; first [done|by left|by right|right; by split].
  - unfold serve_step in E2. destruct (main s), o; try discriminate E2; repeat (case_match; try discriminate E2);
      (apply fmap_Some in E2 as (s1 & (_ & _ & ->)%os_new_inv & ->) ||
       apply bind_Some in E2 as ([s1 next] & (ds & fds & mx & m & -> & _)%close_client_effect & [= <-]) || apply (inj Some) in E2 as <-);
      try (destruct next); cbn; (split; [done|split; [done|]]); intros ?; first [done|by left|by right|right; by split].
  - unfold stop_step, os_shutdown in Hs. destruct (main s), o; try discriminate Hs; repeat (case_match; try discriminate Hs);
      apply (inj Some) in Hs as <-; cbn; (split; [done|split; [done|]]); intros ?; first [done|by left|by right|right; by split].
Qed.

(** The other steps leave the main thread and the connections alone. *)
Lemma side_step_opened l s s' : (∀ o, l ≠ L_Main o) → step l s = Some s' →
  database_open s' = database_open s ∧ next_conn s' = next_conn s ∧ (threads s = [] → threads s' = []) ∧
  (main s' = main s ∨ phase_of (main s') = Serving).
Proof.
  intros Hl Hs. destruct l as [o|t o| | |fd|fd| |fd|fd]; cbn [step] in Hs; [by destruct (Hl o)|..].
  - apply bind_Some in Hs as (th & Ht & Hs). assert (threads s ≠ []) by (intros E; by rewrite E in Ht).
    destruct (thread_step_inv _ _ _ _ _ Ht Hs)
      as [(pc' & ds & _ & _ & -> & _)|(p & s1 & next & _ & (ds & fds & mx & m & -> & _)%close_client_effect & ->)];
      cbn; split_and!; auto; done.
  - destruct (handler s) as [[]|]; try discriminate Hs; apply (inj Some) in Hs as <-; cbn; auto.
  - repeat (case_match; try discriminate Hs); apply (inj Some) in Hs as <-; cbn; auto.
  - repeat (case_match; try discriminate Hs). apply set_conn_inv in Hs as (c' & _ & ->). cbn. auto.
  - apply set_conn_inv in Hs as (c' & _ & ->). cbn. auto.
  - repeat (case_match; try discriminate Hs); apply (inj Some) in Hs as <-; cbn; auto.
  - case_match; [|done]. apply os_new_inv in Hs as (_ & _ & ->). cbn. auto.
  - repeat (case_match; try discriminate Hs); apply (inj Some) in Hs as <-; cbn; auto.
Qed.

Lemma opened_step l s s' : opened s → step l s = Some s' → opened s'.
Proof.
  intros [I Hm Hd Hq] Hs. pose proof (step_inv _ _ _ I Hs) as I'.
  assert (Hst : stop_requested s' = false → stop_requested s = false).
  { intros E. destruct (stop_requested s) eqn:Es; [|done]. by rewrite (stop_kept _ _ _ Es Hs) in E. }
  assert (Hdec : (∃ o, l = L_Main o) ∨ ∀ o, l ≠ L_Main o) by (destruct l; [by left; eexists|by right..]). destruct Hdec as [[o ->]|Hl].
  - cbn [step] in Hs. destruct (handler s); [done|]. destruct (main_step_opened _ _ _ Hm Hd Hs) as (Hm' & Hd' & Hp).
    split; try done. intros Hs'%Hst Hph. destruct (Hp Hph) as [Hleft%(i_left _ I)|(Hph0 & -> & ->)]; [congruence|auto].
  - destruct (side_step_opened l s s') as (Ed & En & Et & Em); [naive_solver|done|].
    split; [done| |congruence|].
    + destruct Em as [->|Em]; [done|]. intros E. by rewrite E in Em.
    + intros Hs'%Hst Hph. destruct Em as [Em|Em]; [rewrite Em in Hph|congruence]. destruct (Hq Hs' Hph). rewrite En. auto.
Qed.

Lemma opened_run ls : ∀ s s', opened s → run_labels ls s = Some s' → opened s'.
Proof.
  induction ls as [|l ls IH]; intros s s' Ho Hr; cbn in Hr; [by simplify_eq|].
  apply bind_Some in Hr as (s1 & Hs & Hr). by eapply IH; [eapply opened_step|].
Qed.

Lemma start_opened : ∃ s, main_step Fine start_life = Some s ∧ reachable s ∧ opened s ∧ main s = M_Recover ∧ exit_code s = 0.
Proof.
  eexists. split; [reflexivity|]. assert (Hr : run_labels [L_Main Fine] start_life = Some (set_main M_Recover (set_database true start_life))) by done.
  split; [by exists [L_Main Fine]|]. split; [|done]. split; try done. apply reachable_inv. by exists [L_Main Fine].
Qed.

Lemma start_failed : ∃ s, main_step Fails start_life = Some s ∧ reachable s ∧ failed s.
Proof. eexists. split; [reflexivity|]. split; [by exists [L_Main Fails]|by split]. Qed.

(** ** Starting *)

(** The database is there, or has just been made. *)
Definition prepared (db : string) (d dc : DiskManager) : Prop :=
  database_path db = Ok db ∧ if dir_at db d then dc = d else created_or_undone dump create_file db d (Return tt) dc.

Lemma open_database_cases db d r d' : creates create_file → fs_wf (nodes (os d)) → open_database db d = (r, d') →
  (∃ dc, prepared db d dc ∧ open_db db dc = (r, d')) ∨
  ∃ t, r = Raise t ∧ ((∃ e, database_path db = Throw e ∧ d' = d) ∨ dir_at db d = false ∧ created_or_undone dump create_file db d (Raise t) d').
Proof.
  intros Hc Hwf. unfold open_database, sm_is_dir, of_result, mbind, IO_bind. destruct (database_path db) as [p|e|] eqn:Ep.
  - destruct (database_path_ok _ _ Ep) as (-> & _ & _). unfold is_dir, prepared. rewrite Ep. destruct (dir_at db d) eqn:Ed.
    + intros Ho. left. by exists d.
    + destruct (create_db fs_what create_file dump db d) as [[[]|t|] dc] eqn:Ec;
        pose proof (create_db_spec _ _ _ _ _ _ _ Hc Hwf Ec) as Hcr.
      * intros Ho. left. by exists dc.
      * intros [= <- <-]. right. exists t. auto.
      * by destruct Hcr.
  - intros [= <- <-]. right. eexists. split; [done|]. left. by eexists.
  - by destruct (database_path_no_crash db).
Qed.

(** C16. Starting the server.  For a command line with one database and options in any
    form, the process runs with the settings of that line.  If the directory of the
    database exists it is opened as it is; if not it is made first, completely or not at
    all, and not at all unless removing the unfinished directory fails too
    ([created_or_undone]).  When opening succeeds the process goes on to recovery and has
    printed no diagnostic; if recovery or the listening socket then fails, that is if the
    process stops without an interrupt, it has accepted no connection, its exit code is 1
    and the database counts as open, so that it is flushed and closed.  When the name is refused, making or opening the database
    fails, the exception is reported on the standard error stream, and whatever happens
    then the process never accepts a connection, never flushes or closes a database that
    is not open, and its exit code is 1. *)
Theorem server_starts program l database d con r d' con' :
  Forall (item_ok server_letters) l → Forall port_ok l → operands l = [database] →
  creates create_file → fs_wf (nodes (os d)) →
  rmdb_main program (render l) d con = Some (r, d', con') →
  ∃ life, r = inr (life, fold_left server_item l (mkServerArgs (str "127.0.0.1") kDefaultPort)) ∧ reachable life ∧
  let db := text_string database in
  (main life = M_Recover ∧ exit_code life = 0 ∧ database_open life = true ∧ cerr con' = cerr con ∧
    (∃ dc, prepared db d dc ∧ open_db db dc = (Return tt, d')) ∧
    ∀ ls s, run_labels ls life = Some s → phase_of (main s) = Stopping → stop_requested s = false →
      next_conn s = 0%nat ∧ threads s = [] ∧ exit_code s = 1 ∧ database_open s = true) ∨
  (∃ t, cerr con' = cerr con ++ thrown_what t ++ newline ∧
    ((∃ dc, prepared db d dc ∧ open_db db dc = (Raise t, d')) ∨ (∃ e, database_path db = Throw e ∧ d' = d) ∨
      dir_at db d = false ∧ created_or_undone dump create_file db d (Raise t) d') ∧
    ∀ ls s, run_labels ls life = Some s →
      next_conn s = 0%nat ∧ threads s = [] ∧ exit_code s = 1 ∧ database_open s = false ∧ main s ≠ M_Flush ∧ main s ≠ M_CloseDb).
Proof.
  intros Hl Hp Ho Hc Hwf. unfold rmdb_main, server_start. rewrite (parse_options_line _ _ _ Hl Hp Ho). unfold run_open.
  destruct (open_database (text_string database) d) as [ro d1] eqn:E.
  pose proof (open_database_cases _ _ _ _ Hc Hwf E) as Hcases. destruct ro as [[]|t|]; [| |done].
  - destruct start_opened as (life & -> & Hr & Hop & Hm & He). intros [= <- <- <-]. exists life. split_and!; [done|done|]. left.
    do 2 (split; [done|]). split; [apply (o_database _ Hop)|]. split; [done|]. split; [by destruct Hcases as [Hc1|(t & [=] & _)]|].
    intros ls s Hs Hph Hst. destruct (opened_run _ _ _ Hop Hs) as [I _ Hd Hq]. destruct (Hq Hst) as [Hn Ht]; [by rewrite Hph|].
    destruct (i_exit _ I Hph) as [?|[? _]]; [done|congruence].
  - destruct start_failed as (life & -> & Hr & Hf). intros [= <- <- <-]. exists life. split_and!; [done|done|]. right. exists t.
    split_and!; [done| |].
    + destruct Hcases as [Hc1|(t' & [= <-] & Hc1)]; auto.
    + intros ls s Hs. destruct (failed_run _ _ _ Hf Hs) as [Hm Ht _ Hd He Hn _ _].
      split_and!; try done; intros Em; by rewrite Em in Hm.
Qed.
End Start.

(** Two starts of a server for the new database "shop": opening it works, or throws. *)
Definition open_works (db : string) : IO DiskManager unit := mret tt.
Definition open_missing (db : string) : IO DiskManager unit := raise (Rmdb (NotImplementedError "SmManager::open_db (Lab 3)")).
Definition shop_line : list item := [Operand (str "shop"); Setting ch_p (str "99") true].

Definition shop_start (open_db : string → IO DiskManager unit) :=
  rmdb_main no_what "" no_dump mem_create open_db (str "rmdb") (render shop_line) sample_disk (mkConsole [] []).

Lemma server_starts_witness :
  ∃ life d' con', shop_start open_works = Some (inr (life, mkServerArgs (str "127.0.0.1") 99), d', con') ∧
    main life = M_Recover ∧ nodes (os d') = database_nodes no_dump "shop" (nodes (os sample_disk)).
Proof.
  destruct (shop_start open_works) as [[[r d'] con']|] eqn:E; [|exfalso; revert E; vm_compute; discriminate].
  destruct (server_starts no_what "" no_dump mem_create open_works (str "rmdb") shop_line (str "shop") sample_disk (mkConsole [] []) r d' con')
    as (life & Hr & _ & [(Hm & _ & _ & _ & (dc & [_ Hd] & Ho) & _)|(t & Ht & _)]).
  - repeat constructor; done.
  - repeat constructor; intros Hc; try done. exists 99. apply client_port_iff. vm_compute. reflexivity.
  - reflexivity.
  - exact mem_creates.
  - exact sample_disk_wf.
  - exact E.
  - subst r. exists life, d', con'. split; [reflexivity|]. split; [exact Hm|]. injection Ho as <-.
    change (dir_at (text_string (str "shop")) sample_disk) with false in Hd. apply Hd.
  - exfalso. assert (Hcon : cerr con' = []).
    { apply (f_equal (λ x, match x with Some (_, _, c) => cerr c | None => [] end)) in E. rewrite <- E. vm_compute. reflexivity. }
    rewrite Hcon in Ht. cbn in Ht. destruct (thrown_what "" t); discriminate.
Defined.
