(* ===== verification/Shipped.v ===== *)
(** * The repository as it is shipped

    The exercises [SmManager::open_db] ([src/src/system/sm_manager.cpp]) and
    [DiskManager::create_file] ([src/src/storage/disk_manager.cpp]) are arguments of
    [Startup]; here are the bodies the repository has for them, and what the server built
    from them does.

    [shipped_server_never_serves]: it ends with exit code 1 whatever the command line. *)

From S2P Require Import Prelude Errors Common Catalog System WireText Client SqlClient Lexer Options OptionsFacts.
From S2P Require Import DiskManager DiskManagerFacts ServerLife ServerLifeFacts Startup.

Definition shipped_open_db (db_name : string) : IO DiskManager unit := raise (Rmdb (NotImplementedError "SmManager::open_db (Lab 3)")).

Definition shipped_create_file (path : string) : IO DiskManager unit := mret tt.

Section Shipped.
Context (fs_what : string → Z → string) (errno_text : string) (dump : Json → bytes).

(** Whether the database has to be made or not, the [try] block of [run] ends in an
    exception. *)
Lemma shipped_open_raises db d : ∃ t d', open_database fs_what dump shipped_create_file shipped_open_db db d = (Raise t, d').
Proof.
  unfold open_database, sm_is_dir, of_result, mbind, IO_bind. destruct (database_path db) as [p|e|] eqn:Ep.
  - destruct (database_path_ok _ _ Ep) as (-> & _ & _). unfold is_dir. destruct (dir_at db d) eqn:Ed.
    + by do 2 eexists.
    + destruct (create_db fs_what shipped_create_file dump db d) as [[[]|t|] d1] eqn:Ec.
      * by do 2 eexists.
      * by do 2 eexists.
      * exfalso. revert Ec. unfold create_db, mbind, IO_bind, of_result, get, raise_if, raise, rethrow. rewrite Ep.
        case_bool_decide; [done|]. cbn. destruct (create_directory db (os d)) as [[e|[]] f]; cbn; try done.
        unfold fill_db, write_meta_file_at, mbind, IO_bind. repeat (case_match; cbn; try done).
  - by do 2 eexists.
  - by destruct (database_path_no_crash db).
Qed.

(** C17. The server as shipped never serves.  For every command line, disk and console
    [main] gets past its initialisation: with exit code 1 when the line is refused, and
    otherwise with a process that has printed one diagnostic, and that, whatever happens
    from there on, accepts no connection, starts no thread, never holds an open database
    and ends with exit code 1. *)
Theorem shipped_server_never_serves program args d con :
  ∃ r d' con', rmdb_main fs_what errno_text dump shipped_create_file shipped_open_db program args d con = Some (r, d', con') ∧
  match r with
  | inl code => code = 1 ∧ d' = d
  | inr (life, _) =>
    reachable life ∧ (∃ t, cerr con' = cerr con ++ thrown_what errno_text t ++ newline) ∧
    ∀ ls s, run_labels ls life = Some s →
      next_conn s = 0%nat ∧ threads s = [] ∧ database_open s = false ∧ exit_code s = 1
  end.
Proof.
  unfold rmdb_main, server_start. destruct (parse_options program args) as [text|[database a]]; [by do 3 eexists|].
  unfold run_open. destruct (shipped_open_raises (text_string database) d) as (t & d' & ->).
  destruct start_failed as (life & -> & Hr & Hf). do 3 eexists. split; [reflexivity|]. cbn.
  split_and!; [done|by exists t|]. intros ls s Hs. by destruct (failed_run _ _ _ Hf Hs).
Qed.

End Shipped.
