(* ===== verification/Portal.v ===== *)
(** * From a plan to a response: executors, the portal and the query manager

    Models the executors' constructors ([src/src/execution/executor_*.h] and
    [execution_sort.h]), [src/src/portal/portal.cpp], [QlManager]
    ([src/src/execution/execution_manager.cpp]) and the stages that
    [Server::execute_sql] composes: analyze, plan, [Portal::start], [Portal::run].

    The iteration of the executors and the bodies of UPDATE and DELETE are exercises:
    in the repository they throw [NotImplementedError].  They are the operations of the
    class [Operators]; [skeleton] is the instance the repository has, and the laws are
    what the comments of the exercises ask for.  A [std::exception] that is not an
    [RMDBError] (a missing handle, a failed cast) is [Crash], as is a loop that does not
    end within its fuel. *)

From S2P Require Import Prelude Errors Common Catalog Ast Analyzer Planner Record IndexFile Disk Transactions Server System Execution.
Import Result.

(** ** Executors

    The members a constructor sets. *)

Inductive Executor :=
| SeqScanExecutor (tab : string) (conds : list Condition) (cols_ : list ColMeta) (len_ : Z)
| IndexScanExecutor (tab : string) (conds : list Condition) (index_meta : IndexMeta) (cols_ : list ColMeta) (len_ : Z)
| NestedLoopJoinExecutor (left_ right_ : Executor) (conds : list Condition) (cols_ : list ColMeta) (len_ : Z)
| MergeJoinExecutor (left_ right_ : Executor) (merge_cond : Condition) (left_key right_key : ColMeta)
    (residual_conds : list Condition) (cols_ : list ColMeta) (len_ : Z)
| SortExecutor (prev_ : Executor) (sort_col : ColMeta) (is_desc : bool)
| ProjectionExecutor (prev_ : Executor) (sel_idxs : list nat) (cols_ : list ColMeta) (len_ : Z).

(** The virtual functions of [AbstractExecutor] over a heap [T]; a cursor is the state
    of an executor after [begin_tuple]. *)
Class Operators (T : Type) := {
  Cursor : Type;
  cols : Executor → result (list ColMeta);
  tuple_len : Executor → result Z;
  begin_tuple : Executor → M T Cursor;
  is_end : Cursor → result bool;
  next_tuple : Cursor → M T Cursor;
  next : Cursor → M T bytes;
  rid : Cursor → Rid;
  delete_next : TabMeta → list Condition → list Rid → M T unit;
  update_next : TabMeta → list SetClause → list Condition → list Rid → M T unit }.

(** What the repository has. *)
Definition skeleton_cols (e : Executor) : result (list ColMeta) :=
  Throw (NotImplementedError
    match e with
    | SeqScanExecutor _ _ _ _ => "Lab 3 sequential scan executor"
    | IndexScanExecutor _ _ _ _ _ => "Lab 3 index scan executor"
    | _ => "AbstractExecutor::cols"
    end).

Definition skeleton_tuple_len (e : Executor) : result Z :=
  Throw (NotImplementedError
    match e with
    | SeqScanExecutor _ _ _ _ => "Lab 3 sequential scan executor"
    | IndexScanExecutor _ _ _ _ _ => "Lab 3 index scan executor"
    | _ => "AbstractExecutor::tuple_len"
    end).

Definition skeleton_begin_tuple {T A} (e : Executor) : M T A :=
  lift (Throw (NotImplementedError
    match e with
    | SeqScanExecutor _ _ _ _ => "SeqScanExecutor::begin_tuple"
    | IndexScanExecutor _ _ _ _ _ => "IndexScanExecutor::begin_tuple"
    | NestedLoopJoinExecutor _ _ _ _ _ => "NestedLoopJoinExecutor::begin_tuple"
    | MergeJoinExecutor _ _ _ _ _ _ _ _ => "MergeJoinExecutor::begin_tuple"
    | SortExecutor _ _ _ => "SortExecutor::begin_tuple"
    | ProjectionExecutor _ _ _ _ => "ProjectionExecutor::begin_tuple"
    end)).

(** No cursor exists, because [begin_tuple] throws. *)
Definition skeleton {T} : Operators T := {|
  Cursor := Empty_set;
  cols := skeleton_cols;
  tuple_len := skeleton_tuple_len;
  begin_tuple := skeleton_begin_tuple;
  is_end c := match c with end;
  next_tuple c := match c with end;
  next c := match c with end;
  rid c := match c with end;
  delete_next _ _ _ := lift (Throw (NotImplementedError "DeleteExecutor::next"));
  update_next _ _ _ _ := lift (Throw (NotImplementedError "UpdateExecutor::next")) |}.

(** [AbstractExecutor::get_col]: the position and the column. *)
Definition get_col_pos (rec_cols : list ColMeta) (target : TabCol) : result (nat * ColMeta) :=
  match list_find (λ c, col_tab c = tc_tab_name target ∧ col_name c = tc_col_name target) rec_cols with
  | Some p => Ok p
  | None => Throw (ColumnNotFoundError (tc_tab_name target +:+ "." +:+ tc_col_name target))
  end.

(** What both scan constructors do: table, handle, and the length of its records. *)
Definition open_scan (db : DbMeta) (handles : gmap string RmFileHandle) (tab : string) : result (TabMeta * Z) :=
  t ← get_table db tab;
  match handles !! tab, last (tab_cols t) with
  | Some _, Some c => Ok (t, col_offset c + col_len c)
  | _, _ => Crash
  end.

Definition new_seq_scan (db : DbMeta) (handles : gmap string RmFileHandle) (tab : string) (conds : list Condition)
  : result Executor :=
  '(t, len) ← open_scan db handles tab;
  Ok (SeqScanExecutor tab conds (tab_cols t) len).

(** A condition written from the other side is turned around. *)
Definition orient (tab : string) (cond : Condition) : result Condition :=
  if bool_decide (tc_tab_name (lhs_col cond) = tab) then Ok cond
  else
    _ ← assert_ (negb (is_rhs_val cond) && bool_decide (tc_tab_name (rhs_col cond) = tab));
    Ok (flip cond).

Definition new_index_scan (db : DbMeta) (handles : gmap string RmFileHandle) (tab : string) (conds : list Condition)
    (index_col_names : list string) : result Executor :=
  t ← get_table db tab;
  index_meta ← get_index_meta t index_col_names;
  '(t, len) ← open_scan db handles tab;
  conds ← for_each (orient tab) conds;
  Ok (IndexScanExecutor tab conds index_meta (tab_cols t) len).

Definition shift_col (by_ : Z) (c : ColMeta) : ColMeta :=
  mkCol (col_tab c) (col_name c) (col_type c) (col_len c) (col_offset c + by_) (col_index c).

Section Constructors.
Context {T : Type} `{Operators T}.

(** The layout of a join: the left record, then the right record. *)
Definition join_layout (l r : Executor) : result (list ColMeta * Z) :=
  left_len ← tuple_len l;
  right_len ← tuple_len r;
  left_cols ← cols l;
  right_cols ← cols r;
  Ok (left_cols ++ (shift_col left_len <$> right_cols), left_len + right_len).

Definition new_nested_loop (l r : Executor) (conds : list Condition) : result Executor :=
  '(cols_, len_) ← join_layout l r;
  Ok (NestedLoopJoinExecutor l r conds cols_ len_).

Definition new_merge_join (l r : Executor) (conds : list Condition) : result Executor :=
  match conds with
  | merge_cond :: residual_conds =>
    _ ← throw_if (is_rhs_val merge_cond || negb (bool_decide (cond_op merge_cond = OP_EQ)))
          (InternalError "MergeJoinExecutor requires a column equality as its first condition");
    '(cols_, len_) ← join_layout l r;
    left_cols ← cols l;
    '(_, left_key) ← get_col_pos left_cols (lhs_col merge_cond);
    right_cols ← cols r;
    '(_, right_key) ← get_col_pos right_cols (rhs_col merge_cond);
    Ok (MergeJoinExecutor l r merge_cond left_key right_key residual_conds cols_ len_)
  | [] => Throw (InternalError "MergeJoinExecutor requires a column equality as its first condition")
  end.

Definition new_sort (prev : Executor) (sel_col : TabCol) (is_desc : bool) : result Executor :=
  prev_cols ← cols prev;
  '(_, sort_col) ← get_col_pos prev_cols sel_col;
  Ok (SortExecutor prev sort_col is_desc).

(** The projection loop: positions, columns one after the other, and their length. *)
Fixpoint project (prev_cols : list ColMeta) (sel_cols : list TabCol) (curr_offset : Z) : result (list nat * list ColMeta * Z) :=
  match sel_cols with
  | [] => Ok ([], [], curr_offset)
  | sel_col :: sel_cols =>
    '(i, c) ← get_col_pos prev_cols sel_col;
    let col := mkCol (col_tab c) (col_name c) (col_type c) (col_len c) curr_offset (col_index c) in
    '(idxs, cols_, len_) ← project prev_cols sel_cols (curr_offset + col_len c);
    Ok (i :: idxs, col :: cols_, len_)
  end.

Definition new_projection (prev : Executor) (sel_cols : list TabCol) : result Executor :=
  prev_cols ← cols prev;
  '(idxs, cols_, len_) ← project prev_cols sel_cols 0;
  Ok (ProjectionExecutor prev idxs cols_ len_).

Fixpoint convert_plan_executor (db : DbMeta) (handles : gmap string RmFileHandle) (plan : Plan) : result Executor :=
  match plan with
  | ProjectionPlan subplan sel_cols => prev ← convert_plan_executor db handles subplan; new_projection prev sel_cols
  | ScanPlan s =>
    if bool_decide (scan_tag s = T_SeqScan) then new_seq_scan db handles (scan_tab s) (scan_conds s)
    else new_index_scan db handles (scan_tab s) (scan_conds s) (index_col_names s)
  | JoinPlan tag l r conds _ =>
    left_ ← convert_plan_executor db handles l;
    right_ ← convert_plan_executor db handles r;
    if bool_decide (tag = T_SortMerge) then new_merge_join left_ right_ conds
    else new_nested_loop left_ right_ conds
  | SortPlan subplan sel_col is_desc => prev ← convert_plan_executor db handles subplan; new_sort prev sel_col is_desc
  | _ => Throw (NotImplementedError "executor conversion for this query plan")
  end.

End Constructors.

(** ** The kernel

    What the statements of a server share: the system manager, the heap of records and
    index entries, the planner's setting and the transaction table. *)

Record Kernel (D T K : Type) := mkKernel {
  k_sm : SmManager D; k_heap : T; k_sortmerge : bool; k_txns : K }.
Arguments mkKernel {D T K} _ _ _ _.
Arguments k_sm {D T K} _.
Arguments k_heap {D T K} _.
Arguments k_sortmerge {D T K} _.
Arguments k_txns {D T K} _.

#[global] Instance kernel_txns {D T K} `{TransactionManager K} : TransactionManager (Kernel D T K) := {|
  txn_map k := txn_map (k_txns k);
  tm_update k id f := mkKernel (k_sm k) (k_heap k) (k_sortmerge k) (tm_update (k_txns k) id f);
  tm_begin k := let '(id, t) := tm_begin (k_txns k) in (id, mkKernel (k_sm k) (k_heap k) (k_sortmerge k) t);
  tm_commit k id := mkKernel (k_sm k) (k_heap k) (k_sortmerge k) (tm_commit (k_txns k) id);
  tm_abort k id := mkKernel (k_sm k) (k_heap k) (k_sortmerge k) (tm_abort (k_txns k) id) |}.

#[global] Instance kernel_txns_laws {D T K} `{TransactionManagerLaws K} : TransactionManagerLaws (Kernel D T K).
Proof.
  split; cbn; [intros; apply commit_removes|intros; apply abort_removes|intros; apply update_alters|].
  intros k. destruct (begin_inserts (k_txns k)) as (id & t & E & Hid & Hn & Ht & Hm).
  exists id, t. rewrite E in *. by destruct (tm_begin (k_txns k)).
Qed.

(** What a statement can change: the kernel, the session's transaction id, its context. *)
Record Request (D T K : Type) := mkReq { rq_kernel : Kernel D T K; rq_txn_id : Z; rq_ctx : Context_ }.
Arguments mkReq {D T K} _ _ _.
Arguments rq_kernel {D T K} _.
Arguments rq_txn_id {D T K} _.
Arguments rq_ctx {D T K} _.

Section Statements.
Context {D : Type} `{Storage D} {T : Type} `{Operators T} {K : Type} `{TransactionManager K}.
(** The records and index entries of each table. *)
Context (table_store : string → TableStore T).
Context (dump : Json → bytes) (junk : bytes) (fuel : nat).

Notation Req := (Request D T K).

Definition get_req : M Req Req := λ s, (Ok s, s).

Definition on_sm {A} (m : M (SmManager D) A) : M Req A := λ s,
  let k := rq_kernel s in
  let '(r, sm) := m (k_sm k) in
  (r, mkReq (mkKernel sm (k_heap k) (k_sortmerge k) (k_txns k)) (rq_txn_id s) (rq_ctx s)).

Definition on_heap {A} (m : M T A) : M Req A := λ s,
  let k := rq_kernel s in
  let '(r, heap) := m (k_heap k) in
  (r, mkReq (mkKernel (k_sm k) heap (k_sortmerge k) (k_txns k)) (rq_txn_id s) (rq_ctx s)).

Definition on_result {A} (m : M WireResultSet A) : M Req A := λ s,
  let '(r, res) := m (ctx_result (rq_ctx s)) in
  (r, mkReq (rq_kernel s) (rq_txn_id s) (mkContext (transaction (rq_ctx s)) res)).

Definition set_enable_sortmerge (enable : bool) : M Req unit := λ s,
  let k := rq_kernel s in
  (Ok tt, mkReq (mkKernel (k_sm k) (k_heap k) enable (k_txns k)) (rq_txn_id s) (rq_ctx s)).

(** ** [QlManager] *)

(** The DDL of [SmManager] that the repository leaves as exercises. *)
Definition drop_table (tab_name : string) : M (SmManager D) unit :=
  lift (Throw (NotImplementedError "SmManager::drop_table (Lab 3)")).
Definition sm_create_index (tab_name : string) (col_names : list string) (unique : bool) : M (SmManager D) unit :=
  lift (Throw (NotImplementedError "SmManager::create_index (Lab 3)")).
Definition drop_index (tab_name : string) (col_names : list string) : M (SmManager D) unit :=
  lift (Throw (NotImplementedError "SmManager::drop_index (Lab 3)")).

Definition run_mutli_query (plan : Plan) : M Req unit :=
  match plan with
  | DDLPlan tag tab_name_ tab_col_names_ cols_ unique_ =>
    match tag with
    | T_CreateTable => on_sm (create_table dump tab_name_ cols_)
    | T_DropTable => on_sm (drop_table tab_name_)
    | T_CreateIndex => on_sm (sm_create_index tab_name_ tab_col_names_ unique_)
    | T_DropIndex => on_sm (drop_index tab_name_ tab_col_names_)
    | _ => lift (Throw (InternalError "Unexpected ddl type"))
    end
  | _ => mret tt
  end.

Definition help_info : string := "Supported SQL syntax:
  command ;
command:
  SHOW DATABASE
  SHOW TABLES
  DESC table_name
  CREATE TABLE table_name (column_name type [, column_name type ...])
  DROP TABLE table_name
  CREATE [UNIQUE] INDEX table_name (column_name)
  DROP INDEX table_name (column_name)
  INSERT INTO table_name VALUES (value [, value ...])
  DELETE FROM table_name [WHERE where_clause]
  UPDATE table_name SET column_name = value [, column_name = value ...] [WHERE where_clause]
  SELECT selector FROM table_name [{, | JOIN} table_name ...] [WHERE where_clause]
  SET enable_sortmerge = {true | false}
type:
  {INT | FLOAT | CHAR(n)}
where_clause:
  condition [AND condition ...]
condition:
  column op {column | value}
column:
  [table_name.]column_name
op:
  {= | <> | < | > | <= | >=}
selector:
  {* | column [, column ...]}
".

(** COMMIT, ROLLBACK and ABORT: [finish] is [commit] or [abort] of the transaction the
    session names; without one they would get a null pointer. *)
Definition finish_transaction (finish : K → Z → K) : M Req unit := λ s,
  let k := rq_kernel s in
  match transaction (rq_ctx s) with
  | None => (Throw (NotImplementedError "Lab 4 transaction control"), s)
  | Some _ =>
    match get_transaction (k_txns k) (rq_txn_id s) with
    | None => (Crash, mkReq k (rq_txn_id s) (mkContext None (ctx_result (rq_ctx s))))
    | Some t =>
      (Ok tt, mkReq (mkKernel (k_sm k) (k_heap k) (k_sortmerge k) (finish (k_txns k) (txn_id t)))
                INVALID_TXN_ID (mkContext None (ctx_result (rq_ctx s))))
    end
  end.

Definition begin_transaction : M Req unit := λ s,
  match transaction (rq_ctx s) with
  | None => (Throw (NotImplementedError "Lab 4 transaction control"), s)
  | Some id =>
    (Ok tt, mkReq (tm_update (rq_kernel s) id (set_txn_mode true)) (rq_txn_id s) (rq_ctx s))
  end.

Definition run_cmd_utility (plan : Plan) : M Req unit :=
  match plan with
  | OtherPlan tag tab_name_ =>
    s ← get_req;
    let db := sm_db (k_sm (rq_kernel s)) in
    match tag with
    | T_Help => on_result (λ r, set_raw_text r (str "Help") (str help_info))
    | T_ShowDatabase => on_result (show_database db)
    | T_ShowTable => on_result (show_tables db)
    | T_DescTable => on_result (desc_table db tab_name_)
    | T_SetKnob => lift Crash
    | T_Transaction_begin => begin_transaction
    | T_Transaction_commit => finish_transaction tm_commit
    | T_Transaction_rollback | T_Transaction_abort => finish_transaction tm_abort
    | _ => lift (Throw (InternalError "Unexpected field type"))
    end
  | SetKnobPlan knob_ value_ =>
    _ ← lift (throw_if (negb (bool_decide (knob_ = "enable_sortmerge"%string))) (InternalError ("Unexpected setting: " +:+ knob_)));
    set_enable_sortmerge value_
  | _ => mret tt
  end.

Fixpoint select_loop (fuel : nat) (proj_cols : list ColMeta) (c : Cursor) : M Req unit :=
  match fuel with
  | O => lift Crash
  | S fuel =>
    e ← lift (is_end c);
    if e : bool then mret tt
    else
      tuple ← on_heap (next c);
      wire_row ← lift (for_each (read_cell tuple) proj_cols);
      _ ← on_result (λ r, add_row r wire_row);
      c ← on_heap (next_tuple c);
      select_loop fuel proj_cols c
  end.

Definition ql_select_from (root : Executor) (sel_cols : list TabCol) : M Req unit :=
  proj_cols ← lift (cols root);
  _ ← on_result (λ r, set_columns r (result_columns (tc_col_name <$> sel_cols) proj_cols));
  c ← on_heap (begin_tuple root);
  select_loop fuel proj_cols c.

(** ** [Portal] *)

Inductive PortalType := PortalSelect | PortalDml | PortalDdl | PortalUtility.

(** The executors at the root of a statement. *)
Inductive Root :=
| Tree (e : Executor)
| InsertExecutor (tab_ : TabMeta) (record_size : Z) (values_ : list Value)
| DeleteExecutor (tab_ : TabMeta) (conds_ : list Condition) (rids_ : list Rid)
| UpdateExecutor (tab_ : TabMeta) (set_clauses_ : list SetClause) (conds_ : list Condition) (rids_ : list Rid).

Record PortalStmt := mkStmt { type_ : PortalType; sel_cols_of : list TabCol; root_ : option Root; plan_ : Plan }.

Fixpoint collect_rids_loop (fuel : nat) (c : Cursor) : M Req (list Rid) :=
  match fuel with
  | O => lift Crash
  | S fuel =>
    e ← lift (is_end c);
    if e : bool then mret []
    else
      c' ← on_heap (next_tuple c);
      rids ← collect_rids_loop fuel c';
      mret (rid c :: rids)
  end.

Definition collect_rids (scan : Executor) : M Req (list Rid) :=
  c ← on_heap (begin_tuple scan);
  collect_rids_loop fuel c.

(** The table and the open handle that the DML constructors look up. *)
Definition dml_table (db : DbMeta) (handles : gmap string RmFileHandle) (table : string) : result TabMeta :=
  tab ← get_table db table;
  match handles !! table with Some _ => Ok tab | None => Crash end.

Definition start (plan : Plan) : M Req PortalStmt :=
  s ← get_req;
  let db := sm_db (k_sm (rq_kernel s)) in
  let handles := sm_fhs (k_sm (rq_kernel s)) in
  match plan with
  | OtherPlan _ _ | SetKnobPlan _ _ => mret (mkStmt PortalUtility [] None plan)
  | DDLPlan _ _ _ _ _ => mret (mkStmt PortalDdl [] None plan)
  | SelectPlan projection_ =>
    root ← lift (convert_plan_executor db handles projection_);
    let selected_columns := match projection_ with ProjectionPlan _ sel_cols => sel_cols | _ => [] end in
    mret (mkStmt PortalSelect selected_columns (Some (Tree root)) plan)
  | UpdatePlan scan_ table_ conds_ set_clauses_ =>
    scan ← lift (convert_plan_executor db handles scan_);
    rids ← collect_rids scan;
    tab ← lift (dml_table db handles table_);
    mret (mkStmt PortalDml [] (Some (UpdateExecutor tab set_clauses_ conds_ rids)) plan)
  | DeletePlan scan_ table_ conds_ =>
    scan ← lift (convert_plan_executor db handles scan_);
    rids ← collect_rids scan;
    tab ← lift (dml_table db handles table_);
    mret (mkStmt PortalDml [] (Some (DeleteExecutor tab conds_ rids)) plan)
  | InsertPlan table_ values_ =>
    '(tab, size) ← lift (new_insert db handles table_ values_);
    mret (mkStmt PortalDml [] (Some (InsertExecutor tab size values_)) plan)
  | _ => lift (Throw (InternalError "unexpected plan type"))
  end.

(** [exec->next()] of an executor that changes the table. *)
Definition run_dml (root : Root) : M Req unit :=
  match root with
  | InsertExecutor tab size values =>
    s ← get_req;
    _ ← on_heap (@insert_next T (table_store (tab_name tab)) (sm_indexes (k_sm (rq_kernel s))) tab size values junk);
    mret tt
  | DeleteExecutor tab conds rids => on_heap (delete_next tab conds rids)
  | UpdateExecutor tab clauses conds rids => on_heap (update_next tab clauses conds rids)
  | Tree _ => lift Crash
  end.

Definition run (portal : PortalStmt) : M Req unit :=
  match type_ portal, root_ portal with
  | PortalSelect, Some (Tree e) => ql_select_from e (sel_cols_of portal)
  | PortalDml, Some root => run_dml root
  | PortalDdl, _ => run_mutli_query (plan_ portal)
  | PortalUtility, _ => run_cmd_utility (plan_ portal)
  | _, _ => lift Crash
  end.

(** ** The stages of [Server::execute_sql] after the parser *)

Definition run_stages (statement : option Statement) : M Req unit :=
  s ← get_req;
  let k := rq_kernel s in
  analyzed_query ← lift (analyze (sm_db (k_sm k)) statement);
  execution_plan ← lift (plan_query (sm_db (k_sm k)) (k_sortmerge k) analyzed_query);
  executable_statement ← start execution_plan;
  run executable_statement.

(** [crash_what] is the text of the exception that is not an [RMDBError]. *)
Definition run_statement_ (crash_what : bytes) (k : Kernel D T K) (tid : Z) (ctx : Context_) (statement : option Statement)
  : run_outcome * Kernel D T K * Z * Context_ :=
  let '(r, s) := run_stages statement (mkReq k tid ctx) in
  (match r with Ok _ => RunOk | Throw e => RunError e | Crash => RunStd crash_what end,
   rq_kernel s, rq_txn_id s, rq_ctx s).

End Statements.
