(* ===== verification/PortalFacts.v ===== *)
(** * Facts about executor trees

    With operators that report the layout their constructors computed, every bound
    SELECT gets a tree of executors, and its root has the bound columns one after the
    other. *)

From S2P Require Import Prelude Errors Common Catalog CatalogFacts Ast Analyzer AnalyzerFacts Planner PlannerFacts.
From S2P Require Import Record IndexFile IndexFacts Disk Server System Execution ExecutionFacts Portal.

(** ** Layouts

    What the comments of the members say: [cols_] and [len_] describe the records of an
    operator, and a sort keeps the layout of its child. *)
Class LayoutLaws (T : Type) `{Operators T} := {
  cols_law e : cols e =
    match e with
    | SeqScanExecutor _ _ cs _ | IndexScanExecutor _ _ _ cs _ | NestedLoopJoinExecutor _ _ _ cs _
    | MergeJoinExecutor _ _ _ _ _ _ cs _ | ProjectionExecutor _ _ cs _ => Ok cs
    | SortExecutor prev _ _ => cols prev
    end;
  tuple_len_law e : tuple_len e =
    match e with
    | SeqScanExecutor _ _ _ n | IndexScanExecutor _ _ _ _ n | NestedLoopJoinExecutor _ _ _ _ n
    | MergeJoinExecutor _ _ _ _ _ _ _ n | ProjectionExecutor _ _ _ n => Ok n
    | SortExecutor prev _ _ => tuple_len prev
    end }.

(** A column of the catalog. *)
Definition resolved (db : DbMeta) (b : TabCol) : bool :=
  match tabs db !! tc_tab_name b with
  | Some t => existsb (named (tc_col_name b)) (tab_cols t)
  | None => false
  end.

Lemma resolved_bound db tables b : resolved db b = true → tc_tab_name b ∈ tables → ∃ c, bound_in db tables b c.
Proof.
  unfold resolved, bound_in. destruct (tabs db !! tc_tab_name b) as [t|]; [|done].
  intros (c & Hc & Hn)%existsb_exists Hin. apply list_elem_of_In in Hc. apply named_true in Hn. exists c. split; [done|]. by exists t.
Qed.

Lemma bound_resolved db tables b c : bound_in db tables b c → resolved db b = true.
Proof.
  intros (_ & t & Ht & Hc & Hn). unfold resolved. rewrite Ht. apply existsb_exists. exists c.
  split; [by apply list_elem_of_In|by apply named_true].
Qed.

Definition sides_resolved (db : DbMeta) (c : Condition) : bool :=
  is_rhs_val c || (resolved db (lhs_col c) && resolved db (rhs_col c)).

Lemma sides_resolved_flip db : flip_invariant (sides_resolved db).
Proof. intros c Hc. unfold sides_resolved, flip. cbn. rewrite Hc. cbn. apply andb_comm. Qed.

Lemma typed_resolved db tables c : cond_typed db tables c → sides_resolved db c = true.
Proof.
  intros (l & Hl & Hr). unfold sides_resolved. destruct (is_rhs_val c); [done|]. destruct Hr as (d & Hd & _).
  by rewrite (bound_resolved _ _ _ _ Hl), (bound_resolved _ _ _ _ Hd).
Qed.

(** Plans that can be turned into executors. *)
Fixpoint executable (db : DbMeta) (p : Plan) : Prop :=
  match p with
  | ScanPlan s => is_Some (tabs db !! scan_tab s) ∧ scan_local s ∧ scan_indexed db s
  | JoinPlan tag l r conds _ =>
    executable db l ∧ executable db r ∧
    (tag = T_SortMerge → ∃ key rest c d, conds = key :: rest ∧ merge_key key = true ∧
      bound_in db (plan_tables l) (lhs_col key) c ∧ bound_in db (plan_tables r) (rhs_col key) d)
  | SortPlan p b _ => executable db p ∧ ∃ c, bound_in db (plan_tables p) b c
  | _ => False
  end.

Lemma choose_executable db es p :
  is_tree p → oriented p →
  Forall (λ s, is_Some (tabs db !! scan_tab s) ∧ scan_local s ∧ scan_indexed db s) (plan_scans p) →
  forallb (sides_resolved db) (join_conds p) = true → executable db (choose_join_algorithm es p).
Proof.
  induction p as [s|tag l IHl r IHr cs ty| | | | | | | | |]; intros Ht Ho Hs Hc; try done.
  { by apply Forall_inv in Hs. }
  destruct tag; try done. destruct Ht as [Htl Htr]. destruct Ho as (Ha & Hol & Hor).
  cbn [plan_scans] in Hs. apply Forall_app in Hs as [Hsl Hsr]. cbn [join_conds] in Hc. rewrite !forallb_app in Hc.
  apply andb_true_iff in Hc as [Hc [Hcl Hcr]%andb_true_iff]. specialize (IHl Htl Hol Hsl Hcl). specialize (IHr Htr Hor Hsr Hcr).
  cbn [choose_join_algorithm]. cbv zeta. destruct es; cbn [negb]; [|by split_and!].
  destruct (rotate_key cs) as [[key cs']|] eqn:Ek; [|by split_and!].
  apply rotate_key_spec in Ek as (Hp & rest & -> & Hk).
  destruct (choose_join_algorithm_spec true l (λ _, true) Htl Hol) as (Hl1 & _).
  destruct (choose_join_algorithm_spec true r (λ _, true) Htr Hor) as (Hr1 & _).
  assert (key ∈ cs) as Hin by (rewrite <- Hp; by left). rewrite Forall_forall in Ha. destruct (Ha key Hin) as (Hv & Hl & Hr).
  assert (sides_resolved db key = true) as Hres
    by (rewrite forallb_forall in Hc; by apply Hc, list_elem_of_In).
  unfold sides_resolved in Hres. rewrite Hv in Hres. cbn in Hres. apply andb_true_iff in Hres as [Hrl Hrr].
  unfold plan_tables in *. rewrite <- Hl1 in Hl. rewrite <- Hr1 in Hr.
  destruct (resolved_bound _ _ _ Hrl Hl) as [c Hbc]. destruct (resolved_bound _ _ _ Hrr Hr) as [d Hbd].
  cbn [executable]. unfold plan_tables. cbn [plan_scans]. split_and!; eauto 10.
Qed.

(** The records of an operator over some tables: every column of the tables is there,
    and every field is a column of the catalog inside the record. *)
Definition layout_ok (db : DbMeta) (tables : list string) (cs : list ColMeta) (n : Z) : Prop :=
  (∀ b c, bound_in db tables b c → ∃ c', c' ∈ cs ∧ col_tab c' = tc_tab_name b ∧ col_name c' = tc_col_name b) ∧
  (∀ c', c' ∈ cs → ∃ c, bound_in db tables (mkTabCol (col_tab c') (col_name c')) c ∧ col_type c' = col_type c ∧
     col_len c' = col_len c ∧ 0 ≤ col_offset c' ∧ col_offset c' + col_len c' ≤ n) ∧
  0 ≤ n.

Lemma get_col_pos_ok cs b c :
  c ∈ cs → col_tab c = tc_tab_name b → col_name c = tc_col_name b →
  ∃ i c', get_col_pos cs b = Ok (i, c') ∧ c' ∈ cs ∧ col_tab c' = tc_tab_name b ∧ col_name c' = tc_col_name b.
Proof.
  intros Hc Ht Hn. unfold get_col_pos.
  destruct (list_find_elem_of (λ c, col_tab c = tc_tab_name b ∧ col_name c = tc_col_name b) cs c Hc) as [[i c'] E]; [done|].
  rewrite E. apply list_find_Some in E as (Hl & [H1 H2] & _). apply list_elem_of_lookup_2 in Hl. eauto 10.
Qed.

Lemma layout_find db tables cs n b c :
  layout_ok db tables cs n → bound_in db tables b c →
  ∃ i c', get_col_pos cs b = Ok (i, c') ∧ c' ∈ cs ∧ col_tab c' = tc_tab_name b ∧ col_name c' = tc_col_name b.
Proof. intros (Hf & _) Hb. destruct (Hf b c Hb) as (c' & Hc & Ht & Hn). by eapply get_col_pos_ok. Qed.

Lemma layout_join db t1 t2 cs1 cs2 n1 n2 :
  layout_ok db t1 cs1 n1 → layout_ok db t2 cs2 n2 →
  layout_ok db (t1 ++ t2) (cs1 ++ (shift_col n1 <$> cs2)) (n1 + n2).
Proof.
  intros (F1 & B1 & P1) (F2 & B2 & P2). split_and!; [| |lia].
  - intros b c ([Hin|Hin]%elem_of_app & Hb).
    + destruct (F1 b c (conj Hin Hb)) as (c' & Hc & H). exists c'. split; [apply elem_of_app; by left|done].
    + destruct (F2 b c (conj Hin Hb)) as (c' & Hc & H). exists (shift_col n1 c'). split; [|done].
      apply elem_of_app. right. by apply list_elem_of_fmap_2.
  - intros c' [Hc|(c0 & -> & Hc)%list_elem_of_fmap]%elem_of_app.
    + destruct (B1 c' Hc) as (c & [Hin Hb] & Hty & Hl & Ho & He). exists c. split_and!; try done; [|lia].
      split; [apply elem_of_app; by left|done].
    + destruct (B2 c0 Hc) as (c & [Hin Hb] & Hty & Hl & Ho & He). exists c. cbn. split_and!; try done; [|lia|lia].
      split; [apply elem_of_app; by right|done].
Qed.

Lemma foldl_lengths off cs : foldl (λ n c, n + col_len c) off cs = off + lengths cs.
Proof.
  revert off. induction cs as [|c cs IH]; intros off; cbn [foldl]; [by rewrite Z.add_0_r|]. rewrite IH, lengths_cons. lia.
Qed.

Section Trees.
Context {T : Type} `{LayoutLaws T}.
Context (db : DbMeta) (Hdb : db_wf db) (handles : gmap string RmFileHandle).
Context (Hhandles : ∀ n, is_Some (tabs db !! n) → is_Some (handles !! n)).

Lemma open_scan_ok tab :
  is_Some (tabs db !! tab) →
  ∃ t n, open_scan db handles tab = Ok (t, n) ∧ tabs db !! tab = Some t ∧ n = lengths (tab_cols t) ∧ layout_ok db [tab] (tab_cols t) n.
Proof.
  intros [t Ht]. destruct (db_table db Hdb _ _ Ht) as [Hn (_ & Hne & _ & Hl & _)]. unfold open_scan.
  rewrite (proj2 (get_table_ok db tab t) Ht). step_ok.
  destruct (Hhandles tab ltac:(eauto)) as [h Hh]. rewrite Hh.
  destruct (last (tab_cols t)) as [c|] eqn:El; [|by apply last_None in El].
  pose proof (laid_out_last _ _ _ Hl El) as Hlen. unfold record_len in Hlen. rewrite foldl_lengths in Hlen. rewrite Hlen.
  exists t, (lengths (tab_cols t)). split_and!; [done|done|done|]. split_and!.
  - intros b d [Hin (t' & Ht' & Hd & Hdn)]. apply list_elem_of_singleton in Hin.
    rewrite Hin in Ht'. assert (t' = t) as -> by congruence. exists d. split_and!; try done.
    rewrite Hin, <- Hn. by apply (laid_out_elem _ _ _ _ Hl).
  - intros d Hd. destruct (laid_out_start _ _ _ Hl d Hd) as (H1 & [H2 _] & H3).
    pose proof (laid_out_elem _ _ _ _ Hl Hd) as [Hdt _]. exists d. split_and!; try done; try lia.
    rewrite Hdt, Hn. split; [by apply list_elem_of_singleton|]. by exists t.
  - destruct (laid_out_start _ _ _ Hl c) as (H1 & [H2 _] & H3); [apply last_Some_elem_of; exact El|]. lia.
Qed.

Lemma orient_ok tab conds : Forall (λ c, own_condition tab c = true) conds → for_each (orient tab) conds = Ok conds.
Proof.
  intros Hf. apply for_each_ok. induction Hf as [|c conds Hc _ IH]; constructor; [|exact IH]. unfold orient.
  unfold own_condition in Hc. rewrite bool_decide_true; [done|]. destruct (bool_decide_reflect (tc_tab_name (lhs_col c) = tab)); [done|].
  by rewrite ?andb_false_r in Hc.
Qed.

Lemma get_index_meta_names t i :
  NoDup (names ∘ idx_cols <$> tab_indexes t) → i ∈ tab_indexes t → get_index_meta t (names (idx_cols i)) = Ok i.
Proof.
  intros Hnd Hi. unfold get_index_meta.
  destruct (list_find_elem_of (λ j, Is_true (matches_index j (names (idx_cols i)))) (tab_indexes t) i Hi) as [[k j] E].
  { unfold matches_index. rewrite !bool_decide_true; [done|done|]. unfold zlen, names. by rewrite length_fmap. }
  rewrite E. f_equal. apply list_find_Some in E as (Hk & Hm & _). apply list_elem_of_lookup in Hi as [k' Hk'].
  apply Is_true_true in Hm. unfold matches_index in Hm. split_bools.
  assert (k = k') as ->; [|congruence].
  eapply (NoDup_lookup _ k k' (names (idx_cols i)) Hnd); rewrite list_lookup_fmap; [rewrite Hk; cbn; f_equal; done|by rewrite Hk'].
Qed.

(** Every executable plan becomes an executor with the layout of its tables. *)
Lemma convert_ok p :
  executable db p →
  ∃ e cs n, convert_plan_executor db handles p = Ok e ∧ cols e = Ok cs ∧ tuple_len e = Ok n ∧ layout_ok db (plan_tables p) cs n.
Proof.
  induction p as [s|tag l IHl r IHr conds ty|p IH b|p IH b d| | | | | | |]; intros Hp; try done; cbn [convert_plan_executor].
  - destruct Hp as (Ht & Hloc & Hix). destruct (open_scan_ok _ Ht) as (t & n & E & Htab & _ & Hlay).
    case_bool_decide as Etag.
    + unfold new_seq_scan. rewrite E. eexists _, _, _. split; [done|]. by rewrite cols_law, tuple_len_law.
    + destruct Hix as [?|(t' & i & Ht' & Hi & Hnames)]; [done|]. assert (t' = t) as -> by congruence.
      destruct (db_table db Hdb _ _ Htab) as [_ (_ & _ & _ & _ & _ & _ & Hnd)].
      unfold new_index_scan. rewrite (proj2 (get_table_ok db _ t) Htab). step_ok.
      rewrite Hnames, (get_index_meta_names t i Hnd Hi). step_ok.
      rewrite E. step_ok. rewrite (orient_ok _ _ Hloc).
      eexists _, _, _. split; [done|]. by rewrite cols_law, tuple_len_law.
  - destruct Hp as (Hpl & Hpr & Hm). destruct (IHl Hpl) as (el & cl & nl & -> & Hcl & Hnl & Hll).
    destruct (IHr Hpr) as (er & cr & nr & -> & Hcr & Hnr & Hlr). step_ok.
    step_ok.
    assert (join_layout el er = Ok (cl ++ (shift_col nl <$> cr), nl + nr)) as Hj
      by (unfold join_layout; by rewrite Hnl, Hnr, Hcl, Hcr).
    assert (layout_ok db (plan_tables (JoinPlan tag l r conds ty)) (cl ++ (shift_col nl <$> cr)) (nl + nr)) as Hlay.
    { unfold plan_tables. cbn [plan_scans]. rewrite fmap_app. by apply layout_join. }
    case_bool_decide as Etag.
    + destruct (Hm Etag) as (key & rest & c & d & -> & Hk & Hc & Hd).
      destruct (layout_find _ _ _ _ _ _ Hll Hc) as (i & c' & El & _). destruct (layout_find _ _ _ _ _ _ Hlr Hd) as (j & d' & Er & _).
      unfold new_merge_join. unfold merge_key in Hk. split_bools.
      replace (is_rhs_val key) with false by (by destruct (is_rhs_val key)). rewrite bool_decide_true by done.
      change (throw_if _ ?e) with (Ok tt). step_ok. rewrite Hj.
      step_ok. rewrite Hcl. step_ok. rewrite El.
      step_ok. rewrite Hcr. step_ok. rewrite Er.
      eexists _, _, _. split; [done|]. by rewrite cols_law, tuple_len_law.
    + unfold new_nested_loop. rewrite Hj. eexists _, _, _. split; [done|]. by rewrite cols_law, tuple_len_law.
  - destruct Hp as (Hp & c & Hc). destruct (IH Hp) as (e & cs & n & -> & Hcs & Hn & Hlay).
    step_ok. unfold new_sort. rewrite Hcs. step_ok.
    destruct (layout_find _ _ _ _ _ _ Hlay Hc) as (i & c' & E & _). rewrite E. eexists _, cs, n. split; [done|].
    by rewrite cols_law, tuple_len_law.
Qed.

(** Columns one after the other. *)
Fixpoint contiguous (off : Z) (cs : list ColMeta) : Prop :=
  match cs with [] => True | c :: cs => col_offset c = off ∧ contiguous (off + col_len c) cs end.

(** A field that holds a bound column. *)
Definition field_for (tables : list string) (b : TabCol) (c' : ColMeta) : Prop :=
  ∃ c, bound_in db tables b c ∧ col_tab c' = tc_tab_name b ∧ col_name c' = tc_col_name b ∧
    col_type c' = col_type c ∧ col_len c' = col_len c.

Lemma project_ok tables cs n sel :
  layout_ok db tables cs n → Forall (λ b, ∃ c, bound_in db tables b c) sel → ∀ off,
  ∃ idxs out, project cs sel off = Ok (idxs, out, off + lengths out) ∧ Forall2 (field_for tables) sel out ∧ contiguous off out ∧
    Forall2 (λ i c', ∃ src, cs !! i = Some src ∧ c' = shift_col (col_offset c' - col_offset src) src) idxs out.
Proof.
  intros Hlay Hsel. induction Hsel as [|b sel [c Hb] _ IH]; intros off; cbn [project].
  { exists [], []. change (lengths []) with 0. rewrite Z.add_0_r. split_and!; [reflexivity|constructor|exact I|constructor]. }
  destruct (layout_find _ _ _ _ _ _ Hlay Hb) as (i & c' & E & Hc' & Ht & Hn). rewrite E. step_ok.
  destruct (IH (off + col_len c')) as (idxs & out & -> & H1 & H2 & H3). step_ok.
  destruct Hlay as (_ & Hback & _). destruct (Hback c' Hc') as (c0 & Hb0 & Hty & Hl & _). rewrite Ht, Hn in Hb0.
  exists (i :: idxs), (mkCol (col_tab c') (col_name c') (col_type c') (col_len c') off (col_index c') :: out).
  split_and!; [|constructor; [|exact H1]|by split|constructor; [|exact H3]].
  - rewrite lengths_cons. cbn. by rewrite Z.add_assoc.
  - exists c0. by destruct b.
  - exists c'. split.
    + unfold get_col_pos in E. case_match eqn:Ef; [|done]. injection E as ->. by apply list_find_Some in Ef as [Hi _].
    + unfold shift_col. cbn. f_equal. lia.
Qed.
Lemma bound_in_perm ts ts' b c : ts ≡ₚ ts' → bound_in db ts b c → bound_in db ts' b c.
Proof. intros Hp [Hin Hb]. split; [by rewrite <- Hp|done]. Qed.

Lemma layout_perm ts ts' cs n : ts ≡ₚ ts' → layout_ok db ts cs n → layout_ok db ts' cs n.
Proof.
  intros Hp (F & B & P). split_and!; [| |done].
  - intros b c Hb. by apply (F b c), (bound_in_perm ts').
  - intros c' Hc. destruct (B c' Hc) as (c & Hb & Hr). exists c. split; [by apply (bound_in_perm ts)|done].
Qed.

Lemma select_tree_ok es s q :
  analyze_select db s = Ok q →
  ∃ p e cs, plan_query db es q = Ok (SelectPlan (ProjectionPlan p (bound_cols q))) ∧
    convert_plan_executor db handles (ProjectionPlan p (bound_cols q)) = Ok e ∧ cols e = Ok cs ∧ tuple_len e = Ok (lengths cs) ∧
    Forall2 (field_for (bound_tables q)) (bound_cols q) cs ∧ contiguous 0 cs.
Proof.
  intros Hq. destruct (analyze_select_typed db s q Hdb Hq) as (_ & _ & Htabs & Hcols & Hord & Hconds).
  destruct (select_plan_ok db es s q Hdb Hq) as (tree & Hplan & Ht & Ho & Hsc & Hpt & Hloc & Hix & Hev). cbv zeta in *.
  assert (executable db (choose_join_algorithm es tree)) as Hx.
  { apply choose_executable; [done|done| |].
    - rewrite Forall_forall in Hloc, Hix |- *. rewrite Forall_forall in Htabs. intros x Hx. split_and!; [|by apply Hloc|by apply Hix]. apply Htabs.
      rewrite <- Hpt. unfold plan_tables. rewrite Hsc. by apply list_elem_of_fmap_2.
    - specialize (Hev (sides_resolved db) (sides_resolved_flip db)). unfold plan_conds in Hev. rewrite forallb_app in Hev.
      rewrite (proj2 (forallb_forall (sides_resolved db) (bound_conds q))) in Hev; [by apply andb_true_iff in Hev as [? _]|].
      intros x Hin. apply list_elem_of_In in Hin. rewrite Forall_forall in Hconds. by eapply typed_resolved, Hconds. }
  set (p := match bound_order_col q with Some c => SortPlan _ c _ | None => _ end) in Hplan.
  assert (executable db p ∧ plan_tables p ≡ₚ bound_tables q) as [Hp Hperm].
  { unfold p. destruct (bound_order_col q) as [b|] eqn:Eo; [|done]. split; [|exact Hpt]. split; [done|].
    destruct (Hord b eq_refl) as [c Hc]. exists c. eapply bound_in_perm; [by symmetry|exact Hc]. }
  destruct (convert_ok p Hp) as (prev & pcs & n & Ec & Hpc & Hpn & Hlay).
  destruct (project_ok (bound_tables q) pcs n (bound_cols q)) with (off := 0) as (idxs & out & Eo & Hf & Hc & _);
    [by eapply layout_perm|done|].
  exists p, (ProjectionExecutor prev idxs out (lengths out)), out. split_and!; [done| |by rewrite cols_law|by rewrite tuple_len_law|done|done].
  cbn [convert_plan_executor]. rewrite Ec. step_ok. unfold new_projection. rewrite Hpc.
  step_ok. by rewrite Eo.
Qed.
End Trees.

(** C33. Every SELECT that the analyzer accepts gets an executor tree: over a well-formed
    catalog whose tables are open, and with operators that report the layout their
    constructors set up, [convert_plan_executor] succeeds on the plan, and the root has
    exactly the bound columns, in order, with the types and lengths of the catalog, one
    after the other in a record of the total length. *)
Theorem select_executors {T} `{LayoutLaws T} db es s q handles :
  db_wf db → analyze_select db s = Ok q → (∀ n, is_Some (tabs db !! n) → is_Some (handles !! n)) →
  ∃ p e cs, plan_query db es q = Ok (SelectPlan (ProjectionPlan p (bound_cols q))) ∧
    convert_plan_executor db handles (ProjectionPlan p (bound_cols q)) = Ok e ∧ cols e = Ok cs ∧ tuple_len e = Ok (lengths cs) ∧
    Forall2 (field_for db (bound_tables q)) (bound_cols q) cs ∧ contiguous 0 cs.
Proof.
  intros Hdb Hq Hh. apply (select_tree_ok db Hdb handles Hh es s q Hq).
Qed.
