(* ===== verification/KernelFacts.v ===== *)
(** * The invariant of the kernel

    Catalog, open handles, records and index entries agree, and no statement breaks the
    agreement: this is proved of the composition analyze, plan, start, run against the
    laws of the components that are exercises, and then of whole connections. *)

From S2P Require Import Prelude Errors Common Catalog CatalogFacts Ast Analyzer AnalyzerFacts Planner PlannerFacts.
From S2P Require Import Record RecordFacts IndexFile IndexFacts Disk Wire WireCodec WireIO WireTransport WireClient.
From S2P Require Import Transactions Server ServerFacts System SystemFacts Execution ExecutionFacts Portal PortalFacts.
Import Result.

(** ** Computations that keep a relation *)

Definition keeps {T A} (R : T → T → Prop) (m : M T A) : Prop := ∀ t, R t (m t).2.

Section Keeps.
Context {T : Type} (R : T → T → Prop) `{!PreOrder R}.

Lemma keeps_lift {A} (r : result A) : keeps R (lift r).
Proof. intros t. cbn. reflexivity. Qed.

Lemma keeps_ret {A} (a : A) : keeps R (mret a).
Proof. intros t. cbn. reflexivity. Qed.

Lemma keeps_bind {A B} (m : M T A) (f : A → M T B) : keeps R m → (∀ a, keeps R (f a)) → keeps R (m ≫= f).
Proof.
  intros Hm Hf t. rewrite bind_run. specialize (Hm t). destruct (m t) as [[a|e|] t']; [|done|done].
  etransitivity; [exact Hm|apply Hf].
Qed.
End Keeps.

(** ** The laws of the exercises *)

(** The view of one table does not change. *)
Definition same_view {T} (S : TableStore T) (L : StoreLaws T) (t t' : T) : Prop :=
  records t' = records t ∧ ∀ i k r, has_entry t' i k r ↔ has_entry t i k r.

#[export] Instance same_view_preorder {T} S L : PreOrder (@same_view T S L).
Proof.
  split; [by intros t; split|]. intros t1 t2 t3 [R1 E1] [R2 E2]. split; [congruence|]. intros i k r. by rewrite E2, E1.
Qed.

(** Each table has its records and index entries, and its operations leave the other
    tables alone. *)
Class HeapLaws {T : Type} (table_store : string → TableStore T) := {
  heap_laws n : @StoreLaws T (table_store n);
  insert_record_frame n m bs : n ≠ m → keeps (same_view _ (heap_laws m)) (@insert_record T (table_store n) bs);
  delete_record_frame n m rid : n ≠ m → keeps (same_view _ (heap_laws m)) (@delete_record T (table_store n) rid);
  insert_entry_frame n m i k rid : n ≠ m → keeps (same_view _ (heap_laws m)) (@insert_entry T (table_store n) i k rid);
  delete_entry_frame n m i k rid : n ≠ m → keeps (same_view _ (heap_laws m)) (@delete_entry T (table_store n) i k rid) }.

Section Heap.
Context {T : Type} (table_store : string → TableStore T) `{!HeapLaws table_store}.

Definition same_table (n : string) : T → T → Prop := same_view (table_store n) (heap_laws n).
Definition same_heap (t t' : T) : Prop := ∀ n, same_table n t t'.
Definition table_consistent (tab : TabMeta) (t : T) : Prop := @consistent T _ (heap_laws (tab_name tab)) tab t.
Definition table_empty (n : string) (t : T) : Prop :=
  @records T _ (heap_laws n) t = ∅ ∧ ∀ i k r, ¬ @has_entry T _ (heap_laws n) t i k r.

#[export] Instance same_heap_preorder : PreOrder same_heap.
Proof. split; [intros t n; reflexivity|]. intros t1 t2 t3 H1 H2 n. etransitivity; [apply H1|apply H2]. Qed.

Lemma table_consistent_view tab t t' : same_table (tab_name tab) t t' → table_consistent tab t → table_consistent tab t'.
Proof.
  intros [Hr He] [Hl Hc]. split.
  - intros n k i Hh. rewrite Hr. by apply (Hl n k), He.
  - intros x k i Hx. rewrite Hr, He. by apply Hc.
Qed.

Lemma table_empty_view n t t' : same_table n t t' → table_empty n t → table_empty n t'.
Proof. intros [Hr He] [Hl Hc]. split; [by rewrite Hr|]. intros i k r Hh. by apply (Hc i k r), He. Qed.

Lemma empty_consistent n cols t : table_empty n t → table_consistent (mkTab n cols []) t.
Proof. intros [Hr He]. split; [intros i k r Hh; by apply He in Hh|]. intros x k i Hx. by apply elem_of_nil in Hx. Qed.

(** INSERT does not touch other tables. *)
Lemma undo_entries_frame n m inserted rid : n ≠ m → keeps (same_table m) (@undo_entries T (table_store n) inserted rid).
Proof.
  intros Hn. induction inserted as [|[i k] inserted IH]; cbn [undo_entries]; [apply (keeps_ret (same_table m))|].
  apply (keeps_bind (same_table m)); [by apply delete_entry_frame|done].
Qed.

Lemma undo_insert_frame {A} n m inserted rid (r : result A) : n ≠ m →
  keeps (same_table m) (_ ← @undo_entries T (table_store n) inserted rid; _ ← @delete_record T (table_store n) rid; lift r).
Proof.
  intros Hn. apply (keeps_bind (same_table m)); [by apply undo_entries_frame|]. intros [].
  apply (keeps_bind (same_table m)); [by apply delete_record_frame|]. intros []. apply (keeps_lift (same_table m)).
Qed.

Lemma insert_entries_frame n m handles tab indexes rec rid inserted :
  n ≠ m → keeps (same_table m) (@insert_entries T (table_store n) handles tab indexes rec rid inserted).
Proof.
  intros Hn. revert inserted. induction indexes as [|x indexes IH]; intros inserted; cbn [insert_entries]; [apply (keeps_ret (same_table m))|].
  intros t. cbv zeta. set (ih := make_index_name tab _). destruct (handles !! ih); [|by apply undo_insert_frame].
  pose proof (insert_entry_frame n m ih (make_key x rec) rid Hn t) as He.
  destruct (insert_entry _ _ _ t) as [[u|e|] t'] eqn:E; [| |exact He].
  - etransitivity; [exact He|apply IH].
  - etransitivity; [exact He|]. by apply undo_insert_frame.
Qed.

Lemma insert_next_frame n m handles tab size values junk :
  n ≠ m → keeps (same_table m) (@insert_next T (table_store n) handles tab size values junk).
Proof.
  intros Hn. unfold insert_next. apply (keeps_bind (same_table m)); [apply (keeps_lift (same_table m))|]. intros [].
  apply (keeps_bind (same_table m)); [apply (keeps_lift (same_table m))|]. intros rec.
  apply (keeps_bind (same_table m)); [by apply insert_record_frame|]. intros rid.
  apply (keeps_bind (same_table m)); [by apply insert_entries_frame|]. intros []. apply (keeps_ret (same_table m)).
Qed.
End Heap.

(** What the comments of the executors ask for: an executor yields a list of records of
    its length, one per [next_tuple], is at its end after the last one, and reads only;
    UPDATE and DELETE maintain the indexes of their table. *)
Class OperatorLaws {T : Type} (table_store : string → TableStore T) `{!HeapLaws table_store} `{!Operators T} := {
  remaining : Cursor → list (Rid * bytes);
  begin_law e t r t' : begin_tuple e t = (r, t') → same_heap table_store t t' ∧
    match r with
    | Ok c => Forall (λ p, tuple_len e = Ok (zlen p.2)) (remaining c)
    | Throw _ => True
    | Crash => False
    end;
  is_end_law c : is_end c = Ok (bool_decide (remaining c = []));
  next_law c p l t r t' : remaining c = p :: l → next c t = (r, t') → same_heap table_store t t' ∧
    match r with Ok bs => bs = p.2 | Throw _ => True | Crash => False end;
  next_tuple_law c p l t r t' : remaining c = p :: l → next_tuple c t = (r, t') → same_heap table_store t t' ∧
    match r with Ok c' => remaining c' = l | Throw _ => True | Crash => False end;
  delete_law tab conds rids t r t' : delete_next tab conds rids t = (r, t') →
    r ≠ Crash ∧ (∀ n, n ≠ tab_name tab → same_table table_store n t t') ∧
    (table_consistent table_store tab t → table_consistent table_store tab t');
  update_law tab clauses conds rids t r t' : update_next tab clauses conds rids t = (r, t') →
    r ≠ Crash ∧ (∀ n, n ≠ tab_name tab → same_table table_store n t t') ∧
    (table_consistent table_store tab t → table_consistent table_store tab t') }.

(** ** The invariant *)

Section Kernel.
Context {D : Type} `{Reliable D} {T : Type} (table_store : string → TableStore T) `{!HeapLaws table_store}.
Context `{!Operators T} `{!LayoutLaws T} `{!OperatorLaws table_store} {K : Type} `{TransactionManager K}.
Context (dump : Json → bytes) (junk : bytes).

(** The catalog is well formed; every table of it is open, with the record length of its
    columns, and so are its indexes, whose entries are those of its records; a name that
    is not in the catalog has no records. *)
Definition kernel_ok (k : Kernel D T K) : Prop :=
  let sm := k_sm k in
  db_wf (sm_db sm) ∧ open_exist (sm_disk sm) ∧
  (∀ n tab, tabs (sm_db sm) !! n = Some tab →
     (∃ h, sm_fhs sm !! n = Some h ∧ record_size (file_hdr h) = lengths (tab_cols tab)) ∧
     Forall (λ x, is_Some (sm_indexes sm !! index_file x)) (tab_indexes tab) ∧
     NoDup (index_file <$> tab_indexes tab) ∧ table_consistent table_store tab (k_heap k)) ∧
  (∀ n, tabs (sm_db sm) !! n = None → table_empty table_store n (k_heap k)).

(** A state that differs in what reading may change: the result and the heap's caches. *)
Definition read_only (s s' : Request D T K) : Prop :=
  k_sm (rq_kernel s') = k_sm (rq_kernel s) ∧ same_heap table_store (k_heap (rq_kernel s)) (k_heap (rq_kernel s')).

#[local] Instance read_only_preorder : PreOrder read_only.
Proof.
  split; [intros s; split; reflexivity|]. intros s1 s2 s3 [A1 A2] [B1 B2]. split; [congruence|]. by etransitivity.
Qed.

Lemma kernel_ok_read s s' : kernel_ok (rq_kernel s) → read_only s s' → kernel_ok (rq_kernel s').
Proof.
  intros (Hdb & Ho & Ht & He) [Hsm Hh]. unfold kernel_ok. rewrite Hsm. split_and!; [done|done| |].
  - intros n tab Hn. destruct (Ht n tab Hn) as (Hfh & Hix & Hnd & Hc). split_and!; [done|done|done|].
    eapply table_consistent_view; [apply Hh|done].
  - intros n Hn. eapply table_empty_view; [apply Hh|by apply He].
Qed.

(** ** Safety: no crash, and the invariant also after an exception *)

Definition safe {A} (P : Request D T K → Prop) (m : M (Request D T K) A) (Q : A → Request D T K → Prop) : Prop :=
  ∀ s, P s → match m s with (Ok a, s') => Q a s' | (Throw _, s') => kernel_ok (rq_kernel s') | (Crash, _) => False end.

Lemma safe_bind {A B} P (m : M (Request D T K) A) (f : A → M (Request D T K) B) Q R :
  safe P m Q → (∀ a, safe (Q a) (f a) R) → safe P (m ≫= f) R.
Proof.
  intros Hm Hf s Hs. rewrite bind_run. specialize (Hm s Hs). destruct (m s) as [[a|e|] s']; [by apply Hf|done|done].
Qed.

(** A computation with a loop that takes fuel: from some amount of fuel on it does not
    depend on it any more and is safe; with too little it stops in a state that satisfies
    the invariant. *)
Definition converges {A} (P : Request D T K → Prop) (m : nat → M (Request D T K) A) (Q : A → Request D T K → Prop) : Prop :=
  ∀ s, P s → ∃ n r s', (∀ f, (n ≤ f)%nat → m f s = (r, s')) ∧
    (∀ f, m f s = (r, s') ∨ ∃ s'', m f s = (Crash, s'') ∧ kernel_ok (rq_kernel s'')) ∧
    match r with Ok a => Q a s' | Throw _ => kernel_ok (rq_kernel s') | Crash => False end.

Lemma converges_safe {A} P (m : M (Request D T K) A) Q : safe P m Q → converges P (λ _, m) Q.
Proof. intros Hm s Hs. specialize (Hm s Hs). destruct (m s) as [r s']. exists 0%nat, r, s'. by split_and!; [|left|]. Qed.

Lemma converges_const {A} s (m : nat → M (Request D T K) A) Q :
  (∀ f, m f s = m 0%nat s) → safe (eq s) (m 0%nat) Q → converges (eq s) m Q.
Proof.
  intros He Hm s' <-. specialize (Hm s eq_refl). destruct (m 0%nat s) as [r s']. exists 0%nat, r, s'. split_and!; [by intros|by left|done].
Qed.

Lemma converges_at {A} s (m m' : nat → M (Request D T K) A) Q :
  (∀ f, m f s = m' f s) → converges (eq s) m' Q → converges (eq s) m Q.
Proof.
  intros He Hm s' <-. destruct (Hm s eq_refl) as (n & r & s' & C1 & C2 & C3). exists n, r, s'.
  split_and!; [intros f Hf; rewrite He; by apply C1|intros f; rewrite He; apply C2|done].
Qed.

Lemma converges_bind {A B} P (m : nat → M (Request D T K) A) (g : nat → A → M (Request D T K) B) Q R :
  converges P m Q → (∀ a, converges (Q a) (λ f, g f a) R) → converges P (λ f, m f ≫= g f) R.
Proof.
  intros Hm Hg s Hs. destruct (Hm s Hs) as (n & r & s1 & C1 & C2 & C3). destruct r as [a|e|]; [|exists n, (Throw e), s1|done].
  - destruct (Hg a s1 C3) as (k & r & s2 & G1 & G2 & G3). exists (n `max` k)%nat, r, s2. split_and!; [| |done].
    + intros f Hf. rewrite bind_run, C1, G1 by lia. done.
    + intros f. rewrite bind_run. destruct (C2 f) as [->|(s'' & -> & Hk)]; [apply G2|right; by eexists].
  - split_and!; [| |done].
    + intros f Hf. by rewrite bind_run, C1.
    + intros f. rewrite bind_run. destruct (C2 f) as [->|(s'' & -> & Hk)]; [by left|right; by eexists].
Qed.

Lemma converges_weaken {A} P P' (m : nat → M (Request D T K) A) (Q Q' : A → Request D T K → Prop) :
  (∀ s, P' s → P s) → (∀ a s, Q a s → Q' a s) → converges P m Q → converges P' m Q'.
Proof.
  intros HP HQ Hm s Hs. destruct (Hm s (HP s Hs)) as (n & r & s' & C1 & C2 & C3). exists n, r, s'. split_and!; [done..|].
  destruct r; [by apply HQ|done|done].
Qed.

Lemma converges_pure {A} (F : Prop) P (m : nat → M (Request D T K) A) Q : (F → converges P m Q) → converges (λ s, F ∧ P s) m Q.
Proof. intros Hm s [HF Hs]. by apply Hm. Qed.

(** One more turn of a loop. *)
Lemma converges_turn {A} P (m : nat → M (Request D T K) A) Q : (∀ s, P s → kernel_ok (rq_kernel s)) →
  m 0%nat = lift Crash → converges P (λ f, m (S f)) Q → converges P m Q.
Proof.
  intros HP Hz Hm s Hs. destruct (Hm s Hs) as (n & r & s' & C1 & C2 & C3). exists (S n), r, s'. split_and!; [| |done].
  - intros [|f] Hf; [lia|]. by apply C1, le_S_n.
  - intros [|f]; [right; exists s; rewrite Hz; split; [done|by apply HP]|apply C2].
Qed.

(** States reached from [s0] by reading. *)
Definition from (s0 s : Request D T K) : Prop := kernel_ok (rq_kernel s0) ∧ read_only s0 s.

Lemma from_ok s0 s : from s0 s → kernel_ok (rq_kernel s).
Proof. intros [Hok Hr]. by eapply kernel_ok_read. Qed.

Lemma safe_lift {A} s0 (r : result A) Q :
  r ≠ Crash → (∀ a, r = Ok a → ∀ s, from s0 s → Q a s) → safe (from s0) (lift r) Q.
Proof. intros Hr HQ s Hs. cbn. destruct r; [by apply HQ|by eapply from_ok|done]. Qed.

Lemma safe_ret {A} s0 (a : A) (Q : A → Request D T K → Prop) : (∀ s, from s0 s → Q a s) → safe (from s0) (mret a) Q.
Proof. intros HQ s Hs. by apply HQ. Qed.

Lemma safe_heap {A} s0 (m : M T A) (Q : A → Prop) :
  (∀ t r t', m t = (r, t') → same_heap table_store t t' ∧ match r with Ok a => Q a | Throw _ => True | Crash => False end) →
  safe (from s0) (on_heap m) (λ a s, Q a ∧ from s0 s).
Proof.
  intros Hm s [Hok Hs]. unfold on_heap. destruct (m (k_heap (rq_kernel s))) as [r t'] eqn:E. apply Hm in E as [Hh Hr].
  assert (∀ k', k' = mkReq (mkKernel (k_sm (rq_kernel s)) t' (k_sortmerge (rq_kernel s)) (k_txns (rq_kernel s)))
    (rq_txn_id s) (rq_ctx s) → from s0 k') as Hf.
  { intros k' ->. split; [done|]. etransitivity; [exact Hs|]. split; [done|exact Hh]. }
  destruct r; [split; [done|by apply Hf]|by eapply from_ok, Hf|done].
Qed.

Lemma safe_result {A} s0 (m : M WireResultSet A) :
  (∀ r, (m r).1 ≠ Crash) → safe (from s0) (on_result m) (λ _ s, from s0 s).
Proof.
  intros Hm s [Hok Hs]. unfold on_result. specialize (Hm (ctx_result (rq_ctx s))). destruct (m _) as [r res].
  assert (from s0 (mkReq (rq_kernel s) (rq_txn_id s) (mkContext (transaction (rq_ctx s)) res))) as Hf.
  { split; [done|]. etransitivity; [exact Hs|]. split; [done|reflexivity]. }
  destruct r; [done|by eapply from_ok|done].
Qed.

Lemma safe_weaken {A} P P' (m : M (Request D T K) A) (Q Q' : A → Request D T K → Prop) :
  (∀ s, P' s → P s) → (∀ a s, Q a s → Q' a s) → safe P m Q → safe P' m Q'.
Proof. intros HP HQ Hm s Hs. specialize (Hm s (HP s Hs)). destruct (m s) as [[a|e|] s']; [by apply HQ|done|done]. Qed.

(** A condition that does not depend on the state. *)
Lemma safe_pure {A} (F : Prop) P (m : M (Request D T K) A) Q : (F → safe P m Q) → safe (λ s, F ∧ P s) m Q.
Proof. intros Hm s [HF Hs]. by apply Hm. Qed.

(** ** Reading statements *)

Lemma contiguous_inside off cs :
  contiguous off cs → Forall (λ c, 0 ≤ col_len c) cs → Forall (λ c, col_offset c + col_len c ≤ off + lengths cs) cs.
Proof.
  intros Hc Hf. revert off Hc. induction Hf as [|c cs Hl Hf IH]; intros off Hc; [constructor|].
  destruct Hc as [<- Hc]. rewrite lengths_cons.
  assert (0 ≤ lengths cs) as Hp by (clear -Hf; induction Hf as [|x l Hx _ IH]; [done|rewrite lengths_cons; lia]).
  constructor; [lia|]. eapply Forall_impl; [by apply IH|]. cbn. intros x Hx. lia.
Qed.

Lemma read_cells_total tuple cs :
  Forall (λ c, len_ok (col_type c) (col_len c)) cs → Forall (λ c, col_offset c + col_len c ≤ zlen tuple) cs →
  ∃ cells, for_each (read_cell tuple) cs = Ok cells.
Proof.
  intros Hl Hb. assert (∃ cells, Forall2 (λ c cell, read_cell tuple c = Ok cell) cs cells) as [cells Hc].
  { induction cs as [|c cs IH]; [by exists []|]. apply Forall_cons in Hl as [[_ Hlc] Hl]. apply Forall_cons in Hb as [Hbc Hb].
    destruct (IH Hl Hb) as [cells Hcs]. unfold read_cell at 1.
    destruct (col_type c) eqn:Ety; [| |]; rewrite ?Hlc in Hbc; eexists (_ :: cells); constructor; try exact Hcs;
      cbv zeta; rewrite Ety, (proj2 (Z.ltb_ge _ _)) by lia; reflexivity. }
  exists cells. by apply for_each_ok.
Qed.

Lemma is_end_safe s0 c : safe (from s0) (lift (is_end c)) (λ e s, e = bool_decide (remaining c = []) ∧ from s0 s).
Proof. apply safe_lift; [by rewrite is_end_law|]. rewrite is_end_law. by intros e [= <-] s Hs. Qed.

Lemma next_tuple_safe s0 c p l : remaining c = p :: l → safe (from s0) (on_heap (next_tuple c)) (λ c' s, remaining c' = l ∧ from s0 s).
Proof. intros Ec. apply safe_heap. intros t r t' E. destruct (next_tuple_law c p l t r t' Ec E) as [Hh Hr]. by destruct r. Qed.

Lemma select_loop_converges s0 cs n :
  Forall (λ c, len_ok (col_type c) (col_len c)) cs → Forall (λ c, col_offset c + col_len c ≤ n) cs →
  ∀ l c, remaining c = l → Forall (λ p, zlen p.2 = n) l →
  converges (from s0) (λ f, select_loop f cs c) (λ _, from s0).
Proof.
  intros Hl Hb l. induction l as [|p l IH]; intros c Ec Hn.
  all: apply converges_turn; [apply from_ok|done|cbn [select_loop]].
  all: eapply (converges_bind _ (λ _, _) (λ f, _)); [apply converges_safe, is_end_safe|]; intros e; apply converges_pure; intros ->; rewrite Ec.
  - rewrite bool_decide_true by done. by apply converges_safe, safe_ret.
  - rewrite bool_decide_false by done. apply Forall_cons in Hn as [Hp Hn].
    apply (converges_bind _ (λ _, _) (λ f, _) (λ bs s, bs = p.2 ∧ from s0 s)).
    { apply converges_safe, safe_heap. intros t r t' E. destruct (next_law c p l t r t' Ec E) as [Hh Hr]. by destruct r. }
    intros bs. apply converges_pure. intros ->.
    destruct (read_cells_total p.2 cs) as [cells Hcells]; [done|by rewrite Hp|].
    apply (converges_bind _ (λ _, _) (λ f, _) (λ _, from s0)); [apply converges_safe, safe_lift; [by rewrite Hcells|done]|]. intros row.
    apply (converges_bind _ (λ _, _) (λ f, _) (λ _, from s0)).
    { apply converges_safe, safe_result. intros r. unfold add_row. by destruct (try_account _ _). }
    intros _. eapply (converges_bind _ (λ _, _) (λ f, _)); [by eapply converges_safe, next_tuple_safe|].
    intros c'. apply converges_pure. intros Ec'. by apply IH.
Qed.

Lemma collect_rids_loop_converges s0 l : ∀ c,
  remaining c = l → converges (from s0) (λ f, collect_rids_loop f c) (λ _, from s0).
Proof.
  induction l as [|p l IH]; intros c Ec.
  all: apply converges_turn; [apply from_ok|done|cbn [collect_rids_loop]].
  all: eapply (converges_bind _ (λ _, _) (λ f, _)); [apply converges_safe, is_end_safe|]; intros x; apply converges_pure; intros ->; rewrite Ec.
  - rewrite bool_decide_true by done. by apply converges_safe, safe_ret.
  - rewrite bool_decide_false by done. eapply (converges_bind _ (λ _, _) (λ f, _)); [by eapply converges_safe, next_tuple_safe|].
    intros c'. apply converges_pure. intros Ec'. eapply (converges_bind _ (λ f, _) (λ f, _)); [by apply IH|].
    intros rids. by apply converges_safe, safe_ret.
Qed.

Lemma collect_rids_converges s0 e : converges (from s0) (λ f, collect_rids f e) (λ _, from s0).
Proof.
  unfold collect_rids. apply (converges_bind _ (λ _, _) (λ f, _) (λ _ s, from s0 s)).
  { apply converges_safe. eapply (safe_weaken (from s0) _ _ (λ _ s, True ∧ from s0 s)); [done|by intros ? ? []|].
    apply safe_heap. intros t r t' E. apply begin_law in E as [Hh Hr]. split; [done|]. by destruct r. }
  intros c. by apply (collect_rids_loop_converges s0 (remaining c)).
Qed.

(** ** Plans of accepted statements *)

Definition plan_safe (db : DbMeta) (plan : Plan) : Prop :=
  match plan with
  | OtherPlan tag _ => tag ≠ T_SetKnob
  | DDLPlan T_CreateTable tab _ defs _ => tab ≠ ""%string ∧ Forall (λ d, def_name d ≠ ""%string) defs
  | SelectPlan projection =>
    ∀ handles, (∀ n, is_Some (tabs db !! n) → is_Some (handles !! n)) →
    ∃ e cs, convert_plan_executor db handles projection = Ok e ∧ cols e = Ok cs ∧ tuple_len e = Ok (lengths cs) ∧
      contiguous 0 cs ∧ Forall (λ c, len_ok (col_type c) (col_len c)) cs
  | InsertPlan table values => ∃ tab, tabs db !! table = Some tab ∧ Forall2 value_for values (tab_cols tab)
  | DeletePlan scan table _ | UpdatePlan scan table _ _ => executable db scan ∧ is_Some (tabs db !! table)
  | _ => True
  end.

(** The grammar has no empty identifiers. *)
Definition statement_ok (st : Statement) : Prop :=
  match st with
  | CreateTableStmt tab fields => tab ≠ ""%string ∧ Forall (λ f, cd_name f ≠ ""%string) fields
  | _ => True
  end.

Lemma own_of_typed db tab c : cond_typed db [tab] c → own_condition tab c = true.
Proof.
  intros (l & [Hl%list_elem_of_singleton _] & Hr). unfold own_condition. rewrite Hl, bool_decide_true by done.
  destruct (is_rhs_val c); [done|]. destruct Hr as (d & [Hd%list_elem_of_singleton _] & _). by rewrite Hd, bool_decide_true.
Qed.

Lemma dml_scan_safe db tab t conds conds' :
  db_wf db → get_table db tab = Ok t → check_clause db (tab_cols t) conds = Ok conds' →
  ∃ scan, make_scan_plan db tab conds' = Ok scan ∧ executable db (ScanPlan scan) ∧ is_Some (tabs db !! tab).
Proof.
  intros Hdb Ht Hc. destruct (target_table db _ t Hdb Ht) as (Hn & _ & Hs).
  pose proof (check_clause_typed db Hdb [tab] (tab_cols t) conds conds') as Hty.
  destruct (make_scan_plan_ok db Hdb tab conds' Hs) as (scan & E & Htab & Hcs & Hix).
  exists scan. split_and!; [done| |done]. cbn [executable]. rewrite Htab. split_and!; [done| |done].
  unfold scan_local. rewrite Htab, Hcs. eapply Forall_impl; [|intros c; apply own_of_typed]. apply Hty; [|done].
  apply table_visible; [done|]. by apply get_table_ok.
Qed.

Lemma field_len_ok db tables b c : db_wf db → field_for db tables b c → len_ok (col_type c) (col_len c).
Proof.
  intros Hdb (d & (_ & t & Ht & Hd & _) & _ & _ & -> & ->).
  destruct (db_table db Hdb _ _ Ht) as [_ (_ & _ & _ & Hl & _)]. by apply (laid_out_elem _ _ _ _ Hl).
Qed.

Lemma plan_safe_ok db es st q :
  db_wf db → statement_ok st → analyze db (Some st) = Ok q → ∃ plan, plan_query db es q = Ok plan ∧ plan_safe db plan.
Proof.
  intros Hdb Hst Hq. destruct st; cbn [analyze] in Hq; try (injection Hq as <-; eexists; split; [reflexivity|done]).
  - unfold analyze_set_knob in Hq. repeat (case_match || apply bind_ok in Hq as (? & _ & Hq)); try done;
      injection Hq as <-; by eexists.
  - injection Hq as <-. eexists. split; [reflexivity|]. destruct Hst as [Hn Hf]. split; [done|]. by apply Forall_fmap.
  - unfold analyze_insert in Hq. apply bind_ok in Hq as (t & Ht & Hq). destruct (target_table db _ t Hdb Ht) as (Hn & Hne & _).
    apply bind_ok in Hq as ([] & Hlen & Hq). apply throw_if_ok, negb_false_iff, bool_decide_eq_true in Hlen.
    apply bind_ok in Hq as (values & Hvs & [= <-]). apply for_each_ok in Hvs.
    unfold plan_query, do_planner. cbn. rewrite Hn, bool_decide_false by done. eexists. split; [reflexivity|].
    exists t. split; [by apply get_table_ok|by eapply bind_values_for].
  - unfold analyze_delete in Hq. apply bind_ok in Hq as (t & Ht & Hq). destruct (target_table db _ t Hdb Ht) as (Hn & Hne & _).
    apply bind_ok in Hq as (? & _ & Hq). apply bind_ok in Hq as (conds & Hc & [= <-]).
    unfold plan_query, do_planner. cbn. rewrite Hn, bool_decide_false by done.
    destruct (dml_scan_safe db _ t _ conds Hdb Ht Hc) as (scan & E & Hx). rewrite E. by eexists.
  - unfold analyze_update in Hq. apply bind_ok in Hq as (t & Ht & Hq). destruct (target_table db _ t Hdb Ht) as (Hn & Hne & _).
    apply bind_ok in Hq as (? & _ & Hq). apply bind_ok in Hq as (? & _ & Hq). apply bind_ok in Hq as (conds & Hc & [= <-]).
    unfold plan_query, do_planner. cbn. rewrite Hn, bool_decide_false by done.
    destruct (dml_scan_safe db _ t _ conds Hdb Ht Hc) as (scan & E & Hx). rewrite E. by eexists.
  - destruct (analyze_select_typed db _ q Hdb Hq) as (_ & _ & Htabs & _).
    assert (∀ handles, (∀ n, is_Some (tabs db !! n) → is_Some (handles !! n)) → ∃ p e cs,
      plan_query db es q = Ok (SelectPlan p) ∧ convert_plan_executor db handles p = Ok e ∧ cols e = Ok cs ∧
      tuple_len e = Ok (lengths cs) ∧ contiguous 0 cs ∧ Forall (λ c, len_ok (col_type c) (col_len c)) cs) as Hsel.
    { intros handles Hh. destruct (select_tree_ok db Hdb handles Hh es _ q Hq) as (p & e & cs & Hp & He & Hcs & Hl & Hf & Hc).
      eexists _, e, cs. split_and!; try done. clear -Hf Hdb. induction Hf; constructor; [by eapply field_len_ok|done]. }
    destruct (Hsel (const (mkFh 0 (mkFileHdr 0 0 0 0 0)) <$> tabs db)) as (p & _ & _ & Hp & _).
    { intros n [t Ht]. rewrite lookup_fmap, Ht. by eexists. }
    exists (SelectPlan p). split; [done|]. intros handles Hh. destruct (Hsel handles Hh) as (p' & e & cs & Hp' & Hrest).
    assert (p' = p) as -> by congruence. eauto.
Qed.

(** ** Executing a plan *)

Notation ok_after := (λ _ s, kernel_ok (rq_kernel s)).

(** Writing one table of the catalog. *)
Lemma heap_write_ok s tab n (t' : T) :
  kernel_ok (rq_kernel s) → tabs (sm_db (k_sm (rq_kernel s))) !! n = Some tab →
  (∀ m, m ≠ n → same_table table_store m (k_heap (rq_kernel s)) t') →
  (table_consistent table_store tab (k_heap (rq_kernel s)) → table_consistent table_store tab t') →
  kernel_ok (mkKernel (k_sm (rq_kernel s)) t' (k_sortmerge (rq_kernel s)) (k_txns (rq_kernel s))).
Proof.
  intros (Hdb & Ho & Ht & He) Hn Hfr Hc. split_and!; cbn [k_sm k_heap]; [done|done| |].
  - intros m tab' Hm. destruct (Ht m tab' Hm) as (Hfh & Hix & Hnd & Hcons). split_and!; [done|done|done|].
    destruct (decide (m = n)) as [->|Hne]; [assert (tab' = tab) as -> by congruence; by apply Hc|].
    destruct (db_table _ Hdb _ _ Hm) as [Htn _]. eapply table_consistent_view; [|exact Hcons]. rewrite Htn. by apply Hfr.
  - intros m Hm. eapply table_empty_view; [apply Hfr; congruence|by apply He].
Qed.

Lemma check_defs_lengths tab defs seen rs0 rs off :
  check_defs defs seen rs0 = Ok rs → rs = rs0 + lengths (layout_cols tab defs off).
Proof.
  revert seen rs0 off. induction defs as [|[name type len] defs IH]; intros seen rs0 off; cbn [check_defs layout_cols].
  { intros [= <-]. change (lengths []) with 0. lia. }
  intros E. do 4 (apply bind_ok in E as ([] & _ & E)). rewrite lengths_cons. cbn [col_len].
  apply IH with (off := off + len) in E. lia.
Qed.

Lemma new_file_hdr_size rs hdr : new_file_hdr rs = Ok hdr → record_size hdr = rs.
Proof. unfold new_file_hdr. intros E. apply bind_ok in E as ([] & _ & E). case_match; [|done]. by injection E as <-. Qed.

Lemma create_table_safe tab defs s :
  kernel_ok (rq_kernel s) → tab ≠ ""%string → Forall (λ d, def_name d ≠ ""%string) defs →
  safe (eq s) (on_sm (create_table dump tab defs)) ok_after.
Proof.
  intros (Hdb & Ho & Ht & He) Hn Hnames s' <-. unfold on_sm.
  destruct (create_table dump tab defs (k_sm (rq_kernel s))) as [r sm] eqn:E. apply create_table_spec in E; [|done].
  unfold kernel_ok. destruct r as [[]|e|]; cbn [rq_kernel k_sm k_heap]; [| |done].
  - destruct E as (rs & hdr & h & Hd & Hne & Hnew & Hhdr & Hh & Hdb' & Hfhs & Hix & Hf & Hopen & _).
    destruct (new_table_wf tab defs rs Hn Hnames Hne Hd) as [Hwf _]. rewrite Hdb', Hfhs, Hix. unfold with_table. cbn [tabs]. split_and!.
    + destruct Hdb as [Hdn Hall]. split; [done|]. by apply map_Forall_insert_2.
    + intros fd p. rewrite Hopen, Hf, lookup_insert_Some. intros [[_ <-]|[_ Hp]]; [by rewrite lookup_insert_eq|].
      rewrite lookup_insert_is_Some. destruct (decide (tab = p)); [by left|right]. split; [done|]. by apply (Ho fd).
    + intros n t. rewrite lookup_insert_Some. intros [[<- <-]|[Hnn Htn]].
      * split_and!; [|constructor|constructor|by apply empty_consistent, He]. exists h. rewrite lookup_insert_eq. split; [done|].
        rewrite Hh, (new_file_hdr_size _ _ Hhdr). cbn [tab_cols]. rewrite (check_defs_lengths tab defs [] 0 rs 0 Hd). lia.
      * rewrite lookup_insert_ne by done. by apply Ht.
    + intros n. rewrite lookup_insert_None. intros [Htn _]. by apply He.
  - destruct E as (Hdb' & Hfhs & Hix & Hf & Hopen & _). rewrite Hdb', Hfhs, Hix. split_and!; [done| |done|done].
    intros fd p. rewrite Hopen, Hf. apply Ho.
Qed.

Lemma insert_safe s tab values n :
  kernel_ok (rq_kernel s) → tabs (sm_db (k_sm (rq_kernel s))) !! n = Some tab → Forall2 value_for values (tab_cols tab) →
  safe (eq s) (on_heap (@insert_next T (table_store (tab_name tab)) (sm_indexes (k_sm (rq_kernel s))) tab (lengths (tab_cols tab)) values junk)) ok_after.
Proof.
  intros Hok Hn Hv s' <-. pose proof Hok as (Hdb & _ & Ht & _). destruct (db_table _ Hdb _ _ Hn) as [Htn Hwf].
  destruct (Ht n tab Hn) as (_ & Hix & Hnd & Hc). unfold on_heap.
  destruct (insert_next _ _ _ _ _ _) as [r t'] eqn:E. cbn [rq_kernel].
  assert (∀ m, m ≠ n → same_table table_store m (k_heap (rq_kernel s)) t') as Hfr.
  { intros m Hm. rewrite <- Htn in Hm.
    pose proof (insert_next_frame table_store (tab_name tab) m (sm_indexes (k_sm (rq_kernel s))) tab (lengths (tab_cols tab)) values junk (not_eq_sym Hm)
      (k_heap (rq_kernel s))) as Hk. by rewrite E in Hk. }
  apply (@insert_next_spec T _ (heap_laws (tab_name tab))) in E; [|done|done|done|exact Hc].
  destruct r as [rid|e|]; [| |destruct E as [(x & Hx & Hnone) _]; rewrite Forall_forall in Hix; destruct (Hix x Hx); congruence];
    cbn [rq_kernel]; apply (heap_write_ok s tab n); try done.
  - intros _. apply E.
  - intros Hcons. eapply table_consistent_view; [|exact Hcons]. exact E.
Qed.

Lemma dml_safe s0 s tab n (m : M T unit) :
  kernel_ok (rq_kernel s0) → tabs (sm_db (k_sm (rq_kernel s0))) !! n = Some tab → from s0 s →
  (∀ t r t', m t = (r, t') → r ≠ Crash ∧ (∀ n, n ≠ tab_name tab → same_table table_store n t t') ∧
     (table_consistent table_store tab t → table_consistent table_store tab t')) →
  safe (eq s) (on_heap m) ok_after.
Proof.
  intros Hok Hn Hf Hm s' <-. pose proof (from_ok _ _ Hf) as Hok'. destruct Hf as [_ [Hsm _]]. rewrite <- Hsm in Hn.
  destruct (db_table _ (proj1 Hok') _ _ Hn) as [Htn _]. unfold on_heap. destruct (m (k_heap (rq_kernel s))) as [r t'] eqn:E.
  apply Hm in E as (Hr & Hfr & Hc). rewrite Htn in Hfr.
  pose proof (heap_write_ok s tab n t' Hok' Hn Hfr Hc) as Hk. by destruct r.
Qed.

(** A session that runs in a transaction has it in the table. *)
Definition txn_ready (s : Request D T K) : Prop :=
  transaction (rq_ctx s) = None ∨ is_Some (get_transaction (k_txns (rq_kernel s)) (rq_txn_id s)).

Lemma kernel_ok_txns k knob txns : kernel_ok k → kernel_ok (mkKernel (k_sm k) (k_heap k) knob txns).
Proof. done. Qed.

Lemma set_string_result_no_crash names rows r : (set_string_result names rows r).1 ≠ Crash.
Proof.
  unfold set_string_result. rewrite bind_run. unfold set_columns at 1. destruct (try_account _ _) as [r'|]; [|done].
  generalize (mkSet (has_query_result r') (raw_text r') (buffered_bytes r') ((λ n, mkColumn n TYPE_STRING) <$> names) (rrows r')).
  clear. induction rows as [|values rows IH]; intros r; cbn [add_string_rows]; [done|].
  rewrite bind_run. unfold add_row at 1. destruct (try_account _ _); [apply IH|done].
Qed.

Lemma utility_safe s plan :
  kernel_ok (rq_kernel s) → txn_ready s → plan_safe (sm_db (k_sm (rq_kernel s))) plan → safe (eq s) (run_cmd_utility plan) ok_after.
Proof.
  intros Hok Htx Hp s' <-. destruct plan as [| | | | | | | | |tag tab|knob value]; try (by apply Hok); cbn [run_cmd_utility].
  - rewrite bind_run. unfold get_req at 1. cbn [plan_safe] in Hp.
    assert (∀ m : M WireResultSet unit, (∀ r, (m r).1 ≠ Crash) →
      match on_result m s with (Ok _, s') => kernel_ok (rq_kernel s') | (Throw _, s') => kernel_ok (rq_kernel s') | (Crash, _) => False end) as Hres.
    { intros m Hm. unfold on_result. specialize (Hm (ctx_result (rq_ctx s))). destruct (m _) as [[| |] ?]; done. }
    assert (∀ finish : K → Z → K, match finish_transaction finish s with
      (Ok _, s') => kernel_ok (rq_kernel s') | (Throw _, s') => kernel_ok (rq_kernel s') | (Crash, _) => False end) as Hfin.
    { intros finish. unfold finish_transaction. destruct Htx as [->|[t Et]]; [done|]. destruct (transaction (rq_ctx s)); [|done].
      rewrite Et. by apply kernel_ok_txns. }
    destruct tag; try (by apply Hok); try apply Hfin; try done.
    + apply Hres. intros r. apply set_string_result_no_crash.
    + apply Hres. intros r. apply set_string_result_no_crash.
    + apply Hres. intros r. unfold desc_table. rewrite bind_run. unfold lift at 1, get_table.
      destruct (tabs _ !! tab); [apply set_string_result_no_crash|done].
    + unfold begin_transaction. destruct (transaction (rq_ctx s)); [|done]. by apply kernel_ok_txns.
  - rewrite bind_run. unfold lift at 1. destruct (negb _); cbn [throw_if]; [done|]. by apply kernel_ok_txns.
Qed.

Lemma ddl_safe s plan :
  kernel_ok (rq_kernel s) → plan_safe (sm_db (k_sm (rq_kernel s))) plan → safe (eq s) (run_mutli_query dump plan) ok_after.
Proof.
  intros Hok Hp. destruct plan as [| | | | | | | |tag tab cs defs unique| |]; try (intros s' <-; by apply Hok).
  destruct tag; try (intros s' <-; by apply Hok). destruct Hp. by apply create_table_safe.
Qed.

Lemma select_converges s e cs sel :
  kernel_ok (rq_kernel s) → cols e = Ok cs → tuple_len e = Ok (lengths cs) → contiguous 0 cs →
  Forall (λ c, len_ok (col_type c) (col_len c)) cs → converges (eq s) (λ f, ql_select_from f e sel) ok_after.
Proof.
  intros Hok Hcs Hlen Hc Hl. apply (converges_weaken (from s) _ _ (λ _, from s)); [intros ? <-; by split| |].
  { intros _ s'. apply from_ok. }
  unfold ql_select_from. apply (converges_bind _ (λ _, _) (λ f, _) (λ cs' x, cs' = cs ∧ from s x)).
  { apply converges_safe, safe_lift; [by rewrite Hcs|]. rewrite Hcs. by intros cs' [= <-]. }
  intros cs'. apply converges_pure. intros ->. apply (converges_bind _ (λ _, _) (λ f, _) (λ _, from s)).
  { apply converges_safe, safe_result. intros r. unfold set_columns. by destruct (try_account _ _). }
  intros []. apply (converges_bind _ (λ _, _) (λ f, _) (λ c x, Forall (λ p, zlen p.2 = lengths cs) (remaining c) ∧ from s x)).
  { apply converges_safe, safe_heap. intros t r t' E. apply begin_law in E as [Hh Hr]. split; [done|]. destruct r as [c| |]; [|done|done].
    eapply Forall_impl; [exact Hr|]. cbn. intros p. rewrite Hlen. by intros [= ->]. }
  intros c. apply converges_pure. intros Hn. apply (select_loop_converges s cs (lengths cs) Hl) with (l := remaining c); try done.
  apply (contiguous_inside 0); [done|]. eapply Forall_impl; [exact Hl|]. intros x [Hx _]. lia.
Qed.

Lemma handles_open s : kernel_ok (rq_kernel s) →
  ∀ n, is_Some (tabs (sm_db (k_sm (rq_kernel s))) !! n) → is_Some (sm_fhs (k_sm (rq_kernel s)) !! n).
Proof. intros (_ & _ & Ht & _) n [tab Hn]. destruct (Ht n tab Hn) as [(h & Hh & _) _]. by exists h. Qed.

Lemma safe_get s0 : safe (eq s0) get_req (λ s x, s = s0 ∧ x = s0).
Proof. by intros s <-. Qed.

(** The scan of a DML statement, and the executor over its table. *)
Lemma dml_start_converges s p tab table (k : list Rid → TabMeta → PortalStmt) (go : list Rid → M T unit) :
  kernel_ok (rq_kernel s) → executable (sm_db (k_sm (rq_kernel s))) p → tabs (sm_db (k_sm (rq_kernel s))) !! table = Some tab →
  (∀ f rids, run table_store dump junk f (k rids tab) = on_heap (go rids)) →
  (∀ rids t r t', go rids t = (r, t') → r ≠ Crash ∧ (∀ n, n ≠ tab_name tab → same_table table_store n t t') ∧
     (table_consistent table_store tab t → table_consistent table_store tab t')) →
  converges (eq s) (λ f, stmt ← (scan ← lift (convert_plan_executor (sm_db (k_sm (rq_kernel s))) (sm_fhs (k_sm (rq_kernel s))) p);
                       rids ← collect_rids f scan;
                       t ← lift (dml_table (sm_db (k_sm (rq_kernel s))) (sm_fhs (k_sm (rq_kernel s))) table);
                       mret (k rids t)); run table_store dump junk f stmt) ok_after.
Proof.
  intros Hok Hp Ht Hrun Hgo. pose proof (proj1 Hok) as Hdb.
  apply (converges_weaken (from s) _ _ ok_after); [intros ? <-; by split|done|].
  apply (converges_bind _ (λ f, _) (λ f, _) (λ stmt x, (∃ rids, stmt = k rids tab) ∧ from s x)).
  - destruct (convert_ok (sm_db (k_sm (rq_kernel s))) Hdb _ (handles_open s Hok) p Hp) as (e & cs & n & E & _).
    rewrite E. apply (converges_bind _ (λ _, _) (λ f, _) (λ _, from s)); [by apply converges_safe, safe_lift|]. intros e'.
    apply (converges_bind _ (λ f, _) (λ f, _) (λ _, from s)); [apply collect_rids_converges|]. intros rids. apply converges_safe.
    assert (dml_table (sm_db (k_sm (rq_kernel s))) (sm_fhs (k_sm (rq_kernel s))) table = Ok tab) as ->.
    { unfold dml_table. rewrite (proj2 (get_table_ok _ table tab) Ht). step_ok.
      by destruct (handles_open s Hok table ltac:(eauto)) as [h ->]. }
    apply (safe_bind _ _ _ (λ t x, t = tab ∧ from s x)); [apply safe_lift; [done|]; by intros a [= <-]|].
    intros t. apply safe_pure. intros ->. apply safe_ret. eauto.
  - intros stmt. apply converges_pure. intros [rids ->].
    intros x Hx. apply (converges_const x (λ f, run table_store dump junk f (k rids tab)) ok_after); [intros f; by rewrite !Hrun|rewrite Hrun|done].
    by apply (dml_safe s x tab table (go rids) Hok Ht Hx (Hgo rids)).
Qed.

Lemma run_plan_converges s plan :
  kernel_ok (rq_kernel s) → txn_ready s → plan_safe (sm_db (k_sm (rq_kernel s))) plan →
  converges (eq s) (λ f, stmt ← start f plan; run table_store dump junk f stmt) ok_after.
Proof.
  intros Hok Htx Hp.
  destruct plan as [sc|tag l r cs ty|p sel|p b d|proj|table values|scan table conds|scan table conds sets|tag tab cns defs u|tag tab|knob v];
    try (apply converges_const; [done|intros ? <-; apply Hok]).
  - pose proof (Hp _ (handles_open s Hok)) as (e & cs & He & Hcs & Hlen & Hc & Hl).
    apply (converges_at s _ (λ f, ql_select_from f e match proj with ProjectionPlan _ sel_cols => sel_cols | _ => [] end)).
    { intros f. unfold start. rewrite !bind_run. unfold get_req at 1. cbv beta zeta iota. rewrite bind_run. unfold lift at 1. by rewrite He. }
    by apply (select_converges s e cs).
  - destruct Hp as (tab & Ht & Hv). pose proof Hok as (Hdb & _ & Hts & _). destruct (Hts table tab Ht) as ((h & Hh & Hrs) & _).
    apply converges_const; [intros f; unfold start, mbind, M_bind, get_req, lift; by destruct (new_insert _ _ _ _) as [[? ?]| |]|].
    intros s' <-. unfold start. rewrite bind_run. rewrite bind_run. unfold get_req at 1.
    rewrite bind_run. unfold lift at 1, new_insert. rewrite (proj2 (get_table_ok _ table tab) Ht).
    step_ok. pose proof (Forall2_length _ _ _ Hv) as Hlen.
    replace (zlen values =? zlen (tab_cols tab)) with true by (unfold zlen; rewrite Hlen; symmetry; apply Z.eqb_refl).
    cbn [negb throw_if]. step_ok. rewrite Hh, Hrs.
    unfold mret at 1, M_ret at 1. unfold run. cbn [type_ root_ run_dml]. rewrite bind_run. unfold get_req at 1. rewrite bind_run.
    pose proof (insert_safe s tab values table Hok Ht Hv s eq_refl) as Hi. by destruct (on_heap _ s) as [[| |] ?].
  - destruct Hp as [Hx [tab Ht]].
    eapply converges_at; [|exact (dml_start_converges s scan tab table (λ rids t, mkStmt PortalDml [] (Some (DeleteExecutor t conds rids)) (DeletePlan scan table conds))
      (delete_next tab conds) Hok Hx Ht (λ _ _, eq_refl) (delete_law tab conds))]. done.
  - destruct Hp as [Hx [tab Ht]].
    eapply converges_at; [|exact (dml_start_converges s scan tab table (λ rids t, mkStmt PortalDml [] (Some (UpdateExecutor t sets conds rids)) (UpdatePlan scan table conds sets))
      (update_next tab sets conds) Hok Hx Ht (λ _ _, eq_refl) (update_law tab sets conds))]. done.
  - apply converges_const; [done|]. intros s' <-. by apply (ddl_safe s (DDLPlan tag tab cns defs u) Hok Hp s).
  - apply converges_const; [done|]. intros s' <-. by apply (utility_safe s (OtherPlan tag tab) Hok Htx Hp s).
  - apply converges_const; [done|]. intros s' <-. by apply (utility_safe s (SetKnobPlan knob v) Hok Htx Hp s).
Qed.

Lemma run_stages_converges s st :
  kernel_ok (rq_kernel s) → txn_ready s → (∀ x, st = Some x → statement_ok x) →
  converges (eq s) (λ f, run_stages table_store dump junk f st) ok_after.
Proof.
  intros Hok Htx Hst. pose proof (proj1 Hok) as Hdb. destruct st as [st|]; [|apply converges_const; [done|by intros ? <-]].
  assert (∀ f, run_stages table_store dump junk f (Some st) s =
    (q ← lift (analyze (sm_db (k_sm (rq_kernel s))) (Some st)); p ← lift (plan_query (sm_db (k_sm (rq_kernel s))) (k_sortmerge (rq_kernel s)) q);
     stmt ← start f p; run table_store dump junk f stmt) s) as Heq by done.
  destruct (analyze _ (Some st)) as [q|e|] eqn:Eq; [|apply converges_const; [intros f; by rewrite !Heq|intros ? <-; by rewrite Heq]
    |by apply (analyze_no_crash _ _ Hdb) in Eq].
  destruct (plan_safe_ok _ (k_sortmerge (rq_kernel s)) st q Hdb (Hst st eq_refl) Eq) as (plan & Ep & Hp).
  eapply converges_at; [|exact (run_plan_converges s plan Hok Htx Hp)].
  intros f. rewrite Heq, bind_run. unfold lift at 1. rewrite bind_run. unfold lift at 1. by rewrite Ep.
Qed.


(** A statement that a parser with non-empty identifiers gives, in a fresh context. *)
Lemma run_keeps_kernel (parse : bytes → parse_outcome (option Statement)) crash_what :
  (∀ sql st x, parse sql = Parsed st → st = Some x → statement_ok x) →
  ∀ fuel k tid sql st out k' tid' ctx', kernel_ok k → parse sql = Parsed st →
    run_statement_ table_store dump junk fuel crash_what k tid (mkContext None WireResultSet_default) st = (out, k', tid', ctx') → kernel_ok k'.
Proof.
  intros Hparse fuel k0 tid sql st out k' tid' ctx' Hok Hp E.
  destruct (run_stages_converges (mkReq k0 tid (mkContext None WireResultSet_default)) st Hok (or_introl eq_refl) (λ x, Hparse sql st x Hp) _ eq_refl)
    as (n & r & s' & _ & C2 & C3).
  unfold run_statement_ in E. destruct (C2 fuel) as [Er|(s'' & Er & Hk)]; rewrite Er in E; [|by injection E as <- <- <- <-].
  destruct r as [u|e|]; [| |done]; by injection E as <- <- <- <-.
Qed.

(** Whatever bytes a client sends, [handle_client] leaves a kernel in agreement, for
    every parser whose statements have non-empty identifiers. *)
Lemma handle_client_keeps_kernel fuel parse crash_what strerror errno_text k fd s :
  (∀ sql st x, parse sql = Parsed st → st = Some x → statement_ok x) → kernel_ok k →
  kernel_ok (handle_client parse (run_statement_ table_store dump junk fuel crash_what) strerror errno_text k fd s).1.1.
Proof.
  intros Hparse. apply handle_client_keeps; [intros ? ?; apply kernel_ok_txns|by apply (run_keeps_kernel parse crash_what)].
Qed.
End Kernel.

(** ** A concrete kernel

    Tables in memory.  Scans yield the records of their table, joins all pairs, a sort
    its input, a projection the chosen fields.  DELETE and UPDATE are as in the
    repository. *)

Notation Tables := (gmap string MemStore).

Definition table_of (t : Tables) (n : string) : MemStore := default (mkStore [] ∅ []) (t !! n).

Definition at_table {A} (n : string) (m : M MemStore A) : M Tables A := λ t,
  let '(r, x) := m (table_of t n) in (r, <[n := x]> t).

Definition tables_store (n : string) : TableStore Tables := {|
  insert_record bs := at_table n (insert_record bs);
  delete_record rid := at_table n (delete_record rid);
  insert_entry i k rid := at_table n (insert_entry i k rid);
  delete_entry i k rid := at_table n (delete_entry i k rid) |}.

Lemma table_of_insert_eq t n x : table_of (<[n := x]> t) n = x.
Proof. unfold table_of. by rewrite lookup_insert_eq. Qed.

Lemma table_of_insert_ne t n m x : n ≠ m → table_of (<[n := x]> t) m = table_of t m.
Proof. intros Hn. unfold table_of. by rewrite lookup_insert_ne. Qed.

Lemma at_table_run {A} n (m : M MemStore A) t r t' :
  at_table n m t = (r, t') → ∃ x, m (table_of t n) = (r, x) ∧ table_of t' n = x.
Proof.
  unfold at_table. destruct (m (table_of t n)) as [r0 x]. intros [= <- <-]. exists x. split; [done|apply table_of_insert_eq].
Qed.

Lemma at_table_ok {A} n (m : M MemStore A) t r x : m (table_of t n) = (r, x) → at_table n m t = (r, <[n := x]> t).
Proof. intros E. unfold at_table. by rewrite E. Qed.

Lemma at_table_frame {A} n m (c : M MemStore A) : n ≠ m → ∀ t, table_of (at_table n c t).2 m = table_of t m.
Proof. intros Hn t. unfold at_table. destruct (c (table_of t n)) as [r x]. by apply table_of_insert_ne. Qed.

Definition tables_laws (n : string) : @StoreLaws Tables (tables_store n).
Proof.
  refine (@Build_StoreLaws Tables (tables_store n) (λ t, records (table_of t n)) (λ t, has_entry (table_of t n)) _ _ _ _).
  - intros bs t r t' (x & E & Hx)%at_table_run. subst x. exact (insert_record_law bs _ _ _ E).
  - intros rid t Hr. destruct (delete_record_law rid (table_of t n) Hr) as (x & E & H1 & H2).
    exists (<[n := x]> t). split; [by apply at_table_ok|]. by rewrite table_of_insert_eq.
  - intros i k rid t r t' Hne (x & E & Hx)%at_table_run. subst x. exact (insert_entry_law i k rid _ _ _ Hne E).
  - intros i k rid t Hh. destruct (delete_entry_law i k rid (table_of t n) Hh) as (x & E & H1 & H2).
    exists (<[n := x]> t). split; [by apply at_table_ok|]. by rewrite table_of_insert_eq.
Defined.

#[export] Instance tables_heap : HeapLaws tables_store.
Proof.
  assert (∀ A n m (c : M MemStore A), n ≠ m → keeps (same_view _ (tables_laws m)) (at_table n c)) as Hframe.
  { intros A n m c Hn t. split.
    - change (records (table_of (at_table n c t).2 m) = records (table_of t m)). by rewrite at_table_frame.
    - intros i k r. change (has_entry (table_of (at_table n c t).2 m) i k r ↔ has_entry (table_of t m) i k r). by rewrite at_table_frame. }
  refine (@Build_HeapLaws Tables tables_store tables_laws _ _ _ _); intros; by apply Hframe.
Defined.

Definition of_length (len : Z) (l : list (Rid * bytes)) : list (Rid * bytes) := filter (λ p, zlen p.2 = len) l.

Fixpoint layout_of (e : Executor) : list ColMeta * Z :=
  match e with
  | SeqScanExecutor _ _ cs n | IndexScanExecutor _ _ _ cs n | NestedLoopJoinExecutor _ _ _ cs n
  | MergeJoinExecutor _ _ _ _ _ _ cs n | ProjectionExecutor _ _ cs n => (cs, n)
  | SortExecutor prev _ _ => layout_of prev
  end.

Definition field (rec : bytes) (c : ColMeta) : bytes := ztake (col_len c) (zdrop (col_offset c) rec).

Fixpoint yield_of (t : Tables) (e : Executor) : list (Rid * bytes) :=
  match e with
  | SeqScanExecutor tab _ _ n | IndexScanExecutor tab _ _ _ n => of_length n (map_to_list (st_records (table_of t tab)))
  | NestedLoopJoinExecutor l r _ _ n | MergeJoinExecutor l r _ _ _ _ _ n =>
    of_length n (x ← yield_of t l; y ← yield_of t r; [(x.1, x.2 ++ y.2)])
  | SortExecutor prev _ _ => yield_of t prev
  | ProjectionExecutor prev idxs _ n =>
    of_length n ((λ p, (p.1, concat (field p.2 <$> omap ((layout_of prev).1 !!.) idxs))) <$> yield_of t prev)
  end.

#[export] Instance tables_ops : Operators Tables := {|
  Cursor := list (Rid * bytes);
  cols e := Ok (layout_of e).1;
  tuple_len e := Ok (layout_of e).2;
  begin_tuple e t := (Ok (yield_of t e), t);
  is_end c := Ok (bool_decide (c = []));
  next_tuple c := mret (tail c);
  next c := match c with p :: _ => mret p.2 | [] => lift Crash end;
  rid c := match c with p :: _ => p.1 | [] => mkRid (-1) (-1) end;
  delete_next _ _ _ := lift (Throw (NotImplementedError "DeleteExecutor::next"));
  update_next _ _ _ _ := lift (Throw (NotImplementedError "UpdateExecutor::next")) |}.

#[export] Instance tables_layout : LayoutLaws Tables.
Proof. split; intros []; reflexivity. Qed.

Lemma yield_len t e : Forall (λ p, (layout_of e).2 = zlen p.2) (yield_of t e).
Proof.
  induction e; cbn [yield_of layout_of snd]; try done;
    apply Forall_forall; intros p Hp; apply list_elem_of_filter in Hp as [<- _]; done.
Qed.

#[export] Instance tables_ops_laws : OperatorLaws tables_store.
Proof.
  refine (@Build_OperatorLaws Tables tables_store _ _ (λ c, c) _ _ _ _ _ _); cbn.
  - intros e t r t' [= <- <-]. split; [reflexivity|]. eapply Forall_impl; [apply yield_len|]. cbn. intros p Hp. by rewrite Hp.
  - done.
  - intros c p l t r t' ->. by intros [= <- <-].
  - intros c p l t r t' ->. by intros [= <- <-].
  - intros tab conds rids t r t' [= <- <-]. split_and!; [done|intros; reflexivity|done].
  - intros tab clauses conds rids t r t' [= <- <-]. split_and!; [done|intros; reflexivity|done].
Qed.

Definition first_kernel : Kernel Mem Tables TableManager :=
  mkKernel (mkSm (mkDb "db" ∅) ∅ ∅ (mkMem ∅ ∅ None false)) ∅ false ∅.

Notation sample_ok := (@kernel_ok Mem (mem_storage false) (mem_laws false) Tables tables_store _ TableManager).

Lemma first_kernel_ok : sample_ok first_kernel.
Proof.
  split_and!.
  - split; [done|apply map_Forall_empty].
  - intros fd p Hp. discriminate Hp.
  - intros n tab Hn. discriminate Hn.
  - intros n _. split; [done|]. intros i k r Hh. by apply elem_of_nil in Hh.
Qed.

(** Enough loop turns for the statements below. *)
Definition sample_fuel : nat := 100.

Definition sample_run (k : Kernel Mem Tables TableManager) (st : Statement) :=
  @run_statement_ Mem (mem_storage false) Tables _ TableManager _ tables_store (λ _, []) [] sample_fuel []
    k INVALID_TXN_ID (mkContext None WireResultSet_default) (Some st).

Definition sample_create : Statement :=
  CreateTableStmt "t" [mkColDef "id" (mkTypeLen DInt 4); mkColDef "name" (mkTypeLen DString 8)].
Definition sample_insert_row : Statement := Insert_ (mkInsert "t" [Some (IntLit 7); Some (StringLit "bob")]).
Definition sample_query : Statement :=
  Select_ (mkSelect [Some (StarExpr "")] (Some (TableRef (inl "t"%string) "")) None [] None [] None).


Lemma select_executors_witness :
  ∃ q p e cs, analyze_select join_db join_select = Ok q ∧
    convert_plan_executor join_db (const (mkFh 3 (mkFileHdr 12 1 300 (-1) 38)) <$> tabs join_db) (ProjectionPlan p (bound_cols q)) = Ok e ∧
    cols e = Ok cs ∧ col_name <$> cs = tc_col_name <$> bound_cols q ∧ contiguous 0 cs.
Proof.
  destruct (analyze_select join_db join_select) as [q|e|] eqn:E; [|vm_compute in E; discriminate..].
  destruct (select_executors (T := Tables) join_db true join_select q (const (mkFh 3 (mkFileHdr 12 1 300 (-1) 38)) <$> tabs join_db)
    join_db_wf E) as (p & e & cs & _ & He & Hcs & _ & Hf & Hc).
  { intros n [t Ht]. rewrite lookup_fmap, Ht. by eexists. }
  exists q, p, e, cs. split_and!; try done. clear -Hf. induction Hf as [|b c bs cs (d & _ & _ & Hn & _) _ IH]; [done|].
  cbn [fmap list_fmap] in IH |- *. by rewrite Hn, IH.
Defined.
