(* ===== verification/EndToEnd.v ===== *)
(** * From SQL text to the kernel

    Composes the parser with the server and the kernel: the statements [Parse]
    produces have the form the kernel relies on, so that the invariant of the kernel
    holds over whole connections, from the bytes a client sends. *)

From S2P Require Import Prelude Errors Common Catalog CatalogFacts Ast Analyzer AnalyzerFacts.
From S2P Require Import Planner PlannerFacts Record RecordFacts IndexFile IndexFacts Disk Wire.
From S2P Require Import WireCodec WireIO WireTransport WireText WireClient WireExchange SqlClient SqlClientFacts.
From S2P Require Import Lexer Grammar GrammarFacts LexerFacts Server ServerFacts System SystemFacts.
From S2P Require Import Execution ExecutionFacts Portal PortalFacts KernelFacts.

(** ** The parser in the server

    What [execute_sql] does with the result of [Parse]. *)
Definition server_parse (syntax_message : list Token → list Token → bytes) (sql : bytes)
  : parse_outcome (option Statement) :=
  let parse_result := Parse syntax_message sql in
  if parse_ok parse_result then Parsed (statement parse_result)
  else match error parse_result with
       | None => ParseNothing
       | Some e => ParseFailed (FormatError sql e)
       end.

(** ** Identifiers are not empty *)

Definition token_named (t : Token) : Prop := match t with IDENTIFIER x => x ≠ ""%string | _ => True end.

Lemma text_string_nonempty l : l ≠ [] → text_string l ≠ ""%string.
Proof. by destruct l. Qed.

Definition names_text (x : nat * Action) : Prop :=
  ∀ t text line column, x.2 = Return_ t → text ≠ [] → token_named (t text line column).

Lemma rules_named l : Forall names_text (rules l).
Proof.
  assert (Hfixed : ∀ n t, token_named t → names_text (n, fixed t)) by (by intros n t Ht ? ? ? ? [= <-] _).
  unfold rules. rewrite !Forall_app. split_and!.
  - repeat apply Forall_cons_2; [by intros ? ? ? ?..|constructor].
  - apply Forall_map. apply (Forall_impl (λ x, token_named x.2)); [by repeat constructor|]. intros [k t] Ht. by apply Hfixed.
  - repeat apply Forall_cons_2; [by apply Hfixed..| | | | | | | |constructor]; intros ? text line column [= <-] Hne; try done.
    + by apply text_string_nonempty.
    + by destruct (ParseIntegerLiteral text).
    + by destruct (ParseFloatLiteral text).
Qed.

#[local] Opaque match_rule.

Lemma scan_named fuel : ∀ start first last l, Forall (λ t, token_named (token t)) (scan fuel start first last l).1.
Proof.
  induction fuel as [|fuel IH]; intros start first last l; cbn [scan]; [constructor|].
  destruct start as [|cl cc], l as [|ch l]; [constructor| | |].
  - pose proof (match_rule_in (ch :: l) ltac:(discriminate)) as Hin.
    pose proof (match_rule_pos (ch :: l) ltac:(discriminate)) as Hn.
    pose proof (rules_named (ch :: l)) as Hr. rewrite Forall_forall in Hr. specialize (Hr _ Hin).
    destruct (match_rule (ch :: l)) as [n a]. cbn [fst] in Hn. destruct a as [| |t]; [apply IH..|].
    specialize (IH INITIAL last (move_location last.1 last.2 (take n (ch :: l))) (drop n (ch :: l))).
    destruct (scan fuel INITIAL last _ _) as [tokens e]. cbn [fst] in *. constructor; [|exact IH].
    apply (Hr t); [reflexivity|]. destruct n; [lia|discriminate].
  - repeat constructor.
  - destruct (_ && _); apply IH.
Qed.

Lemma d_name_named ts x : Forall token_named ts → d_name ts x → x ≠ ""%string.
Proof. intros Hn Hd. inversion Hd; subst. exact (Forall_inv Hn). Qed.

Lemma d_list_named {A} (d : list Token → A → Prop) (P : A → Prop) ts l :
  (∀ ts a, Forall token_named ts → d ts a → P a) → d_list d ts l → Forall token_named ts → Forall P l.
Proof.
  intros Hd. induction 1 as [ts a Ha|ts l ts' a Hl IH Ha]; intros Hn.
  - constructor; [by eapply Hd|constructor].
  - apply Forall_app in Hn as [Hn1 Hn2]. inversion Hn2; subst.
    apply Forall_app. split; [by apply IH|]. constructor; [by eapply Hd|constructor].
Qed.

Lemma d_stmt_ok ts st : Forall token_named ts → d_stmt ts st → statement_ok st.
Proof.
  intros Hn Hd. destruct st as [| | | | | | | |tab fields| | | | | | | |]; try exact I.
  inversion Hd as [ | | | | | | | |ts' t us defs Ht Hl| | | | | | | | |]; subst.
  rewrite !Forall_cons, Forall_app, Forall_cons, Forall_app in Hn. destruct Hn as (_ & _ & Hn1 & _ & Hn2 & _). split.
  - exact (d_name_named _ _ Hn1 Ht).
  - eapply (d_list_named d_column_definition); [|exact Hl|done].
    intros us' def Hu Hc. inversion Hc as [ns c us0 ty Hname _]; subst. apply Forall_app in Hu as [Hu _].
    exact (d_name_named _ _ Hu Hname).
Qed.

Lemma server_parse_ok syntax_message sql st x :
  server_parse syntax_message sql = Parsed st → st = Some x → statement_ok x.
Proof.
  unfold server_parse, parse_ok. intros H ->. destruct (Parse_cases syntax_message sql) as [(_ & Hs & _)|(_ & _ & HP)].
  { rewrite Hs in H. by destruct (error _). }
  assert (Hall : Forall (λ t, token_named (token t)) (tokenize sql).1) by apply scan_named.
  cbv zeta in HP. rewrite HP in H. clear HP. destruct (tokenize sql) as [tokens eof]. cbn [fst snd statement error] in *.
  destruct (yyparse syntax_message tokens eof) as [status [cs ce]] eqn:E. cbn [snd ctx_statement ctx_error] in H.
  destruct cs as [s|]; [|by destruct ce]. destruct ce as [e|]; [done|]. injection H as ->.
  assert (status = 0) as -> by (apply yyparse_rejects in E as [(-> & _)|(_ & [e He])]; done).
  apply yyparse_accepts in E. inversion E as [ts s Hd Hts]; subst. apply (d_stmt_ok ts); [|exact Hd].
  assert (Hmap : Forall token_named (ts ++ [SEMI])) by (rewrite Hts; by apply Forall_map).
  by apply Forall_app in Hmap as [? _].
Qed.

Section EndToEnd.
Context {D : Type} `{Reliable D} {T : Type} (table_store : string → TableStore T) `{!HeapLaws table_store}.
Context `{!Operators T} `{!LayoutLaws T} `{!OperatorLaws table_store} {K : Type} `{TransactionManager K}.
Context (dump : Json → bytes) (junk : bytes) (syntax_message : list Token → list Token → bytes).

(** C1. A connection cannot corrupt the kernel: whatever bytes a client sends, however
    the network splits them, and whenever it disconnects, [handle_client], with the
    scanner, the parser, the analyzer, the planner and the portal behind it, on a disk
    without I/O failures, leaves a kernel whose catalog, record and index handles, records
    and index entries agree in agreement, whatever the number of loop turns an executor is
    given. *)
Theorem connection_keeps_kernel fuel crash_what strerror errno_text k fd s :
  kernel_ok table_store k →
  kernel_ok table_store (handle_client (server_parse syntax_message)
    (run_statement_ table_store dump junk fuel crash_what) strerror errno_text k fd s).1.1.
Proof.
  intros Hk. eapply handle_client_keeps_kernel; [exact _..| |exact Hk]. intros sql st x. apply server_parse_ok.
Qed.
End EndToEnd.

(** ** A session in SQL *)

Definition request (sql : string) : bytes := frame_image (mkFrame kTagExecStream 0 (str sql)).

Definition sample_session : bytes :=
  handshake_bytes ++ request "create table t (id int, name char(8));" ++
  request "insert into t values (7, 'bob');" ++ request "select name, id from t -- all of them;" ++
  request "select name, id from t /* ; */ ;".

Definition sample_outcome :=
  handle_client (server_parse (λ _ _, str "syntax error"))
    (λ k tid ctx st,
      @run_statement_ Mem (mem_storage false) Tables _ TableManager _ tables_store (λ _, []) [] sample_fuel [] k tid ctx st)
    (λ _, []) "" first_kernel 3 (mkSock sample_session [RChunk 5; REintr] [] []).

(** The connection's answers: the handshake, two COMMAND_OK, a parse error for the
    statement whose semicolon is in a comment, and the row. *)
Example sample_answers :
  outbox sample_outcome.2 = handshake_bytes ++ frames_image (
    [mkFrame kTagCommandOk 0 []; mkFrame kTagCommandOk 0 [];
     mkFrame kTagError 0 (str "Parser Error at line 1 column 24: syntax error" ++ newline ++
       str "select name, id from t -- all of them;" ++ newline ++ str "                       ^" ++ newline)] ++
    result_frames 0 [mkColumnDef (str "name") kTypeChar; mkColumnDef (str "id") kTypeInt32]
      [[mkCell false kTypeChar 0 0 (str "bob"); mkCell false kTypeInt32 7 0 []]]).
Proof. vm_compute. reflexivity. Qed.

Lemma connection_keeps_kernel_witness : sample_ok sample_outcome.1.1.
Proof.
  apply (@connection_keeps_kernel Mem (mem_storage false) (mem_laws false) mem_reliable Tables tables_store _ _ _ _
    TableManager _ (λ _, []) [] (λ _ _, str "syntax error") sample_fuel []). exact first_kernel_ok.
Defined.
