(* ===== verification/ResultFacts.v ===== *)
(** * The result of a statement matches its schema

    Whatever a statement does, the rows in its result buffer have one cell per column,
    of the column's type, so that the server's shape checks before META never fail for
    results of the query layer. *)

From S2P Require Import Prelude Errors Common Catalog Ast Analyzer Planner Record IndexFile Disk Wire WireCodec.
From S2P Require Import Transactions Server ServerFacts System SystemFacts Execution Portal KernelFacts.
Import Result.

Definition shaped (r : WireResultSet) : Prop := Forall (row_shaped (rcolumns r)) (rrows r).

Lemma le_combine_u32 bs : (length bs ≤ 4)%nat → is_u32 (le_combine bs).
Proof.
  intros Hl. pose proof (LittleEndianList.le_combine_bound bs) as Hb. split; [lia|].
  eapply Z.lt_le_trans; [apply Hb|]. change (2 ^ 32) with (2 ^ (8 * 4)). apply Z.pow_le_mono_r; lia.
Qed.

Lemma add_row_shaped cs row r :
  rcolumns r = cs → shaped r → row_shaped cs row → rcolumns (add_row r row).2 = cs ∧ shaped (add_row r row).2.
Proof.
  intros Hc Hr Hrow. unfold add_row, try_account. destruct (_ || _); cbn; [done|]. split; [done|].
  unfold shaped. cbn. apply Forall_app. split; [done|]. rewrite Hc. by constructor.
Qed.

Lemma set_columns_shaped cs r :
  shaped (set_columns r cs).2 ∧ ((set_columns r cs).1 = Ok tt → rcolumns (set_columns r cs).2 = cs).
Proof. unfold set_columns, try_account. destruct (_ || _); cbn; (split; [constructor|done]). Qed.

Lemma string_row_shaped n names (values : list bytes) :
  length names = n → length values = n → row_shaped ((λ n, mkColumn n TYPE_STRING) <$> names) (string_cell <$> values).
Proof.
  intros Hn Hv. rewrite <- Hv in Hn. clear Hv. split.
  - revert values Hn. induction names as [|x names IH]; intros [|v values] Hn; try done. injection Hn as Hn.
    cbn [fmap list_fmap map]. f_equal. by apply IH.
  - apply Forall_fmap, Forall_true. intros v. cbn. by split.
Qed.

Lemma set_string_result_shaped n names rows r :
  length names = n → Forall (λ values, length values = n) rows → shaped (set_string_result names rows r).2.
Proof.
  intros Hn Hrows. unfold set_string_result. rewrite bind_run.
  pose proof (set_columns_shaped ((λ n, mkColumn n TYPE_STRING) <$> names) r) as [Hs Hc].
  destruct (set_columns r _) as [[[]|e|] r1]; cbn [fst snd] in *; [|done|done]. specialize (Hc eq_refl).
  revert r1 Hs Hc. induction Hrows as [|values rows Hv _ IH]; intros r1 Hs Hc; cbn [add_string_rows]; [done|]. rewrite bind_run.
  pose proof (add_row_shaped _ _ r1 Hc Hs (string_row_shaped n names values Hn Hv)) as [Hc' Hs'].
  destruct (add_row r1 _) as [[[]|e|] r2]; [by apply IH|done|done].
Qed.

Lemma read_cells_shaped tuple cs captions cells :
  for_each (read_cell tuple) cs = Ok cells → row_shaped (result_columns captions cs) cells.
Proof.
  intros Hf. apply for_each_ok in Hf. split.
  - revert captions. induction Hf as [|c cell cs cells Hc _ IH]; intros captions; [done|].
    assert (cell_type cell = col_type c) as Ht by (unfold read_cell in Hc; repeat case_match; try done; by injection Hc as <-).
    cbn [result_columns]. destruct captions; cbn [map type]; rewrite Ht; f_equal; apply IH.
  - induction Hf as [|c cell cs cells Hc _ IH]; constructor; [|done].
    assert (is_u32 (le_combine (ztake 4 (zdrop (col_offset c) tuple)))) as Hu.
    { apply le_combine_u32. unfold ztake. rewrite length_take. lia. }
    unfold read_cell in Hc. repeat case_match; try done; injection Hc as <-; cbn; (split; [apply s32_range || done|done]).
Qed.

Lemma set_raw_text_shaped r column_name txt : shaped r → shaped (set_raw_text r column_name txt).2.
Proof.
  intros Hr. unfold set_raw_text, try_account. destruct (_ <? _); [done|].
  destruct (_ || _); [constructor|]. apply Forall_singleton. by repeat constructor.
Qed.

Section Shape.
Context {D : Type} `{Storage D} {T : Type} `{Operators T} {K : Type} `{TransactionManager K}.
Context (table_store : string → TableStore T) (dump : Json → bytes) (junk : bytes) (fuel : nat).

Definition res (s : Request D T K) : WireResultSet := ctx_result (rq_ctx s).
Definition keeps_shape (s s' : Request D T K) : Prop := shaped (res s) → shaped (res s').

#[local] Instance keeps_shape_preorder : PreOrder keeps_shape.
Proof. split; [intros s Hs; exact Hs|]. intros s1 s2 s3 A B Hs. by apply B, A. Qed.

Lemma keeps_same {A} (m : M (Request D T K) A) : (∀ s, res (m s).2 = res s) → keeps keeps_shape m.
Proof. intros Hm s. unfold keeps_shape. by rewrite Hm. Qed.

Lemma keeps_sm {A} (m : M (SmManager D) A) : keeps keeps_shape (on_sm m).
Proof. apply keeps_same. intros s. unfold on_sm. by destruct (m _). Qed.

Lemma keeps_heap {A} (m : M T A) : keeps keeps_shape (on_heap m).
Proof. apply keeps_same. intros s. unfold on_heap. by destruct (m _). Qed.

Lemma keeps_result {A} (m : M WireResultSet A) : (∀ r, shaped r → shaped (m r).2) → keeps keeps_shape (on_result m).
Proof.
  intros Hm s Hs. unfold on_result. apply Hm in Hs. unfold res in Hs. destruct (m (ctx_result (rq_ctx s))) as [r x]. exact Hs.
Qed.

Ltac shape := first
  [ apply (keeps_lift keeps_shape) | apply (keeps_ret keeps_shape) | apply keeps_sm | apply keeps_heap
  | apply (keeps_bind keeps_shape); [|intros] ].

Lemma run_mutli_query_shape plan : keeps keeps_shape (run_mutli_query dump plan).
Proof. destruct plan as [| | | | | | | |[]| |]; cbn [run_mutli_query]; shape. Qed.

Lemma utility_shape db (tag : PlanTag) tab : keeps keeps_shape
  match tag with
  | T_Help => on_result (λ r, set_raw_text r (str "Help") (str help_info))
  | T_ShowDatabase => on_result (show_database db)
  | T_ShowTable => on_result (show_tables db)
  | T_DescTable => on_result (desc_table db tab)
  | T_SetKnob => lift Crash
  | T_Transaction_begin => begin_transaction
  | T_Transaction_commit => finish_transaction tm_commit
  | T_Transaction_rollback | T_Transaction_abort => finish_transaction tm_abort
  | _ => lift (Throw (InternalError "Unexpected field type"))
  end.
Proof.
  assert (∀ finish, keeps keeps_shape (finish_transaction finish)) as Hfin.
  { intros finish. apply keeps_same. intros s. unfold finish_transaction. by repeat case_match. }
  destruct tag; match goal with
    | |- keeps _ (lift _) => apply (keeps_lift keeps_shape)
    | |- keeps _ (finish_transaction _) => apply Hfin
    | |- keeps _ (on_result _) => apply keeps_result
    | _ => idtac
    end.
  - intros r Hr. by apply set_raw_text_shaped.
  - intros r _. apply (set_string_result_shaped 1); [done|]. by repeat constructor.
  - intros r _. apply (set_string_result_shaped 1); [done|]. apply Forall_fmap, Forall_true. done.
  - intros r Hr. unfold desc_table. rewrite bind_run. unfold lift at 1. destruct (get_table _ _); [|done|done].
    apply (set_string_result_shaped 3); [done|]. apply Forall_fmap, Forall_true. done.
  - apply keeps_same. intros s. unfold begin_transaction. by case_match.
Qed.

Lemma run_cmd_utility_shape plan : keeps keeps_shape (run_cmd_utility plan).
Proof.
  destruct plan as [| | | | | | | | |tag tab|knob v]; cbn [run_cmd_utility]; try apply (keeps_ret keeps_shape).
  - apply (keeps_bind keeps_shape); [by apply keeps_same|]. intros s. apply utility_shape.
  - apply (keeps_bind keeps_shape); [apply (keeps_lift keeps_shape)|]. intros _. by apply keeps_same.
Qed.

Lemma select_loop_shape cs captions c : ∀ f s,
  rcolumns (res s) = result_columns captions cs → shaped (res s) → shaped (res (select_loop f cs c s).2).
Proof.
  intros f. revert c. induction f as [|f IH]; intros c s Hc Hs; cbn [select_loop]; [done|].
  rewrite bind_run. unfold lift at 1. destruct (is_end c) as [[]|e|]; [done| |done|done].
  rewrite bind_run. unfold on_heap at 1. destruct (next c _) as [[tuple|e|] t1]; [|done|done].
  rewrite bind_run. unfold lift at 1. destruct (for_each (read_cell tuple) cs) as [row|e|] eqn:Er; [|done|done].
  rewrite bind_run. unfold on_result at 1. cbn [rq_ctx].
  pose proof (add_row_shaped _ row _ Hc Hs (read_cells_shaped _ _ captions _ Er)) as [Hc1 Hs1]. unfold res in Hc1, Hs1.
  destruct (add_row (ctx_result (rq_ctx s)) row) as [[[]|e|] r1]; [|done|done].
  rewrite bind_run. unfold on_heap at 1. destruct (next_tuple c _) as [[c1|e|] t2]; [|done|done]. by apply IH.
Qed.

Lemma ql_select_from_shape e sel : keeps keeps_shape (ql_select_from fuel e sel).
Proof.
  unfold ql_select_from. shape; [shape|]. intros s Hs. rewrite bind_run. unfold on_result at 1.
  pose proof (set_columns_shaped (result_columns (tc_col_name <$> sel) a) (ctx_result (rq_ctx s))) as [Hs1 Hc1].
  destruct (set_columns _ _) as [[[]|x|] r1]; [|done|done]. specialize (Hc1 eq_refl).
  rewrite bind_run. unfold on_heap at 1. destruct (begin_tuple e _) as [[c|x|] t1]; [|done|done].
  by apply (select_loop_shape a (tc_col_name <$> sel)).
Qed.

Lemma collect_rids_shape e : keeps keeps_shape (collect_rids fuel e).
Proof.
  unfold collect_rids. shape; [shape|]. rename a into c. revert c. induction fuel as [|f IH]; intros c; cbn [collect_rids_loop]; [shape|].
  shape; [shape|]. destruct a; [shape|]. shape; [shape|]. shape; [apply IH|]. shape.
Qed.

Lemma start_shape plan : keeps keeps_shape (start fuel plan).
Proof.
  unfold start. shape; [by apply keeps_same|].
  destruct plan; repeat first [apply collect_rids_shape | shape | match goal with p : _ * _ |- _ => destruct p end].
Qed.

Lemma run_shape stmt : keeps keeps_shape (run table_store dump junk fuel stmt).
Proof.
  unfold run. destruct (type_ stmt), (root_ stmt) as [[]|];
    first [apply ql_select_from_shape | apply run_mutli_query_shape | apply run_cmd_utility_shape | cbn [run_dml]; repeat first [shape | by apply keeps_same]].
Qed.

Lemma run_stages_shape st : keeps keeps_shape (run_stages table_store dump junk fuel st).
Proof.
  unfold run_stages. shape; [by apply keeps_same|]. shape; [shape|]. shape; [shape|]. shape; [apply start_shape|]. apply run_shape.
Qed.

(** C34. Results match their schema: whatever statement runs and however it ends, every
    row in the result buffer has one cell per column, of the column's type, with
    integers and floats in the range of the wire types, so that the checks of
    [send_query_result] before META accept every result of the query layer. *)
Theorem statement_result_shaped crash_what k tid ctx st out k' tid' ctx' :
  shaped (ctx_result ctx) →
  run_statement_ table_store dump junk fuel crash_what k tid ctx st = (out, k', tid', ctx') →
  let r := ctx_result ctx' in
  check_rows (rrows r) (rcolumns r) = None ∧ Forall (Forall (λ c, is_s32 (rint c) ∧ is_u32 (rfloat c))) (rrows r).
Proof.
  intros Hs. unfold run_statement_. pose proof (run_stages_shape st (mkReq k tid ctx) Hs) as Hr.
  destruct (run_stages _ _ _ _ _ _) as [r s']. intros [= _ _ _ <-]. cbv zeta. split.
  - apply check_rows_shape. eapply Forall_impl; [exact Hr|]. by intros row [Hrow _].
  - eapply Forall_impl; [exact Hr|]. by intros row [_ Hrow].
Qed.
End Shape.

Lemma statement_result_shaped_witness :
  let k1 := (sample_run first_kernel sample_create).1.1.2 in
  let '(_, _, _, ctx) := sample_run k1 (DescTableStmt "t") in
  check_rows (rrows (ctx_result ctx)) (rcolumns (ctx_result ctx)) = None ∧ zlen (rrows (ctx_result ctx)) = 2.
Proof.
  cbv zeta. destruct (sample_run _ (DescTableStmt "t")) as [[[out k'] tid] ctx] eqn:E.
  assert (zlen (rrows (ctx_result (sample_run (sample_run first_kernel sample_create).1.1.2 (DescTableStmt "t")).2)) = 2) as H2
    by (vm_compute; reflexivity).
  rewrite E in H2. split; [|exact H2].
  exact (proj1 (@statement_result_shaped Mem (mem_storage false) Tables _ TableManager _ tables_store (λ _, []) [] sample_fuel [] (sample_run first_kernel sample_create).1.1.2
    INVALID_TXN_ID (mkContext None WireResultSet_default) (Some (DescTableStmt "t")) out k' tid ctx (Forall_nil_2 _) E)).
Defined.
